(* ===== verification/_CoqProject ===== *)
-Q . S2P
Prelude.v
Errors.v
Xid.v
RowLock.v
RowLockInv.v
RowLockLive.v
Scan.v
Paths.v
Options.v
CfNames.v
KeyCodec.v
MasterKey.v
RowCodec.v
RowImage.v
Txn.v
XaRecovery.v
Fts.v
Dml.v
Spatial.v
Sdi.v
AtomicDdl.v
InplaceAlter.v
Reads.v
ReadsProof.v
ReadsExamples.v
SpatialScan.v
Mrr.v
Table.v
Tokenizer.v
FtsSearch.v
FtsExact.v
Bm25.v
Counters.v
TableShare.v
AlterShare.v
DropTable.v
PerfRing.v
Statement.v
Stats.v
BulkDml.v
SingleDelete.v
Serial.v
SerialRows.v
SerialLocks.v
Startup.v
Status.v
SysVars.v
Support.v
