(* ===== verification/Prelude.v ===== *)
(** * Verification of the TidesDB storage-engine plugin for MySQL

    The program under src/plugin is a MySQL storage engine: [ha_tidesdb.cc] implements the
    server's [handler] and [handlerton] interfaces over TidesDB, a log-structured key-value
    engine whose source is not part of the repository.  This library models the plugin's
    own logic and proves what makes it correct.  What it is built on (the engine, the
    server, AES, the JSON parser, the file system) enters as parameters or type classes
    with the laws their documentation gives; every class has an instance in the library,
    so that no theorem rests on laws that cannot be had.

    ** The program and its model

    A table is one column family of rows under comparable keys, one column family per
    secondary index, and a shared object ([TidesDB_share]).  A statement reads and writes
    them through the connection's engine transaction; pessimistic row locks, kept by the
    plugin, order conflicting statements; DDL makes, renames and drops column families and
    keeps a binding in the server's dictionary.

    - Foundations.  [Prelude]: machine words with their wrap-around, byte strings and
      their order, buffers, tactics, the hint database [tdb].  [Errors]: the engine's codes,
      [tdb_rc_to_ha] and the retry ladder of tidesdb_retry.h.  [Scan]: ordered families and
      prefix scans.
    - Encodings.  [Xid]: tidesdb_xid.h.  [KeyCodec]: comparable keys, [build_data_key], index
      keys, covering reads.  [RowCodec]: [serialize_row], [deserialize_row], lifetimes.
      [MasterKey]: tidesdb_master_key.cc and the encryption of rows.  [RowImage]: rows as they are
      stored, encrypted or not, and the strings behind the BLOBs of fetched records.  [Fts]: entries and
      totals of the full-text index.  [Spatial]: Hilbert curve, WKB parser and predicates of
      tidesdb_spatial.cc.
    - Rows.  [Dml]: [write_row], [update_row], [delete_row] with their indexes, duplicate checks
      and bulk batches, against an abstract table.  [BulkDml]: the brackets around statements of
      many rows.  [SingleDelete]: the contract of the engine's single deletes over whole
      histories of row changes.  [Reads], [ReadsProof], [ReadsExamples]: the
      table scan and index reads in both directions.  [SpatialScan], [Mrr]: spatial queries
      and multi-range reads.  [Table]: the composition, row changes then reads.  [Counters]:
      row ids and AUTO_INCREMENT.
    - Full text.  [Tokenizer]: tokenizer, stop words, boolean queries, phrases.  [FtsSearch],
      [FtsExact]: [ft_init_ext] and [ft_read].  [Bm25]: ranks over the real numbers.
    - Transactions and locks.  [Txn]: the connection transaction and every handlerton hook.
      [XaRecovery]: the transactions found prepared at startup.  [RowLock], [RowLockInv],
      [RowLockLive]: tidesdb_row_lock.cc as interleaved atomic segments.  [Statement]: the borders
      of a statement ([external_lock], [store_lock], [extra]) and the iterators they drop.
      [Serial], [SerialLocks]: transactions of several connections that lock the rows they
      change, over the segments of the lock manager; [SerialRows]: the row changes of [Dml]
      have the effects on a table that these transactions are made of.
    - DDL.  [CfNames]: names of families, DROP and RENAME.  [TableShare]: CREATE, [open], close,
      TRUNCATE.  [DropTable]: the handler's DROP TABLE.  [InplaceAlter]: tidesdb_inplace_alter.cc,
      [AlterShare]: what an ALTER leaves in the shared object.  [Sdi], [AtomicDdl]: the dictionary
      blobs, the reconciler and the private data of tidesdb_atomic_ddl.cc.
    - Administration.  [Options]: ENGINE_ATTRIBUTE, session defaults, family configuration.
      [Paths]: backup and checkpoint destinations.  [Startup]: start, shutdown and the directories
      of databases.  [Stats]: statistics, estimates and costs.  [Status]: the text of SHOW ENGINE
      STATUS and the status variables.  [SysVars]: every system variable with its range and hooks,
      and what the components read of them.  [PerfRing]: the rings of tidesdb_perf_ring.cc and
      their flusher.  [Support]: the owners of engine buffers, the helpers of
      tidesdb_portability.cc and the dictionary callbacks.

    ** How code becomes definitions

    Words are [Z] with [u8] .. [u64] and [i32], [i64] written where the code truncates; bytes are
    [list Z].  A write outside a C buffer is [None], so that a theorem that gives [Some] also
    says that the buffer is large enough.  Error returns are values ([ha_rc], [tdb_rc], sums);
    a handler method is a function from the state it reads to its result and the state it
    leaves, or a computation of the error and state monad of [Dml].  Code that other threads
    can interrupt (the lock manager, the key cache, the AUTO_INCREMENT loops) is a step
    relation whose steps are its atomic segments, and its properties hold in every
    reachable state.  The engine's failures are part of the environment: a list of codes
    consumed one per call, or functions of the call.

    ** What the theorems show

    - The row changes keep families and abstract table in step: an insert whenever it reports
      success, whatever the engine returned; a delete when the engine does not fail; an update
      then too, if it moves the row to no taken key and away from no unwritten full-text or
      spatial entry.  The reads then deliver exactly the rows asked for, each once and in
      order ([write_row_consistent], [update_row_consistent], [delete_row_consistent],
      [reads_see_table] and the theorems on each kind of scan).
    - Keys order as the values they encode, encodings read back, and keys, rows and entries stay
      within their buffers.
    - Locks: exclusive ownership with exact held lists, no lost wake-up, no cycle of sleeping
      connections that no member reports; transactions that lock what they change are serial.
    - Transactions: a transaction is kept, committed or rolled back as a whole, but for the
      steps that free a handle due for a reset; prepared ones are reported and decided after a
      restart; a statement reads the changes made before it through its own handler instance.
    - Full text: tokens are those of a reference definition, printed queries parse back, and
      a search finds exactly the matching rows by descending rank, for queries in which
      excluded terms come last and truncated terms are optional and short enough.
    - DDL: created tables open, truncated ones are empty, dropping and renaming touch what
      they name, a failed ALTER leaves the table as it was, one that succeeds fills its indexes
      as the row changes would (but for spatial and VARBINARY ones), the dictionary binding
      survives, and a sweep moves every family away that is not the data of a table.
    - Administration: an accepted destination lies inside the allowed root, the engine is closed
      once, and after the dictionary store when callbacks do not overlap in releasing it, buffers are freed once, estimates stay within the table, and whatever SET says the
      engine and the tables run with values inside the declared ranges.

    Where the code does not do what it means to, a lemma shows it on a concrete input, and the
    property beside it states the condition that excludes the case or what the code does in it;
    the doc comment of the property names the lemma.

    ** Bounds and fuel

    Loops that are not structural run on fuel, and the theorems show that the fuel the
    definition gives is enough: the tokenizer and the query parser take the length of their
    input (every round consumes a byte), the walks along an iterator take [iter_fuel], a
    ghost measure of the iterator (the number of entries ahead of it) that the class of
    iterators provides, the deadlock walk is the source's own bound [DEADLOCK_MAX_DEPTH], and
    the WKB parser takes the length of the value (every nested geometry consumes its header).

    ** Not modelled

    The assignments of callbacks to the handlerton and the plugin descriptor (data that the server
    reads), tidesdb_compat.h apart from the cost structure (names of the
    server), the test hooks that debug builds run from SHOW ENGINE STATUS, messages to the user and
    the log, and the unit tests.  The performance scopes are modelled as the records they write,
    not as macros.  Memory ordering weaker than sequential consistency and the rounding of doubles
    are outside the model. *)

From Stdlib Require Import ZArith Lia.
From stdpp Require Import base tactics list numbers gmap relations.

#[global] Open Scope Z_scope.

(** ** Notation for the C integer operators *)

Declare Scope cint_scope.
Delimit Scope cint_scope with cint.
Notation "a .& b" := (Z.land a b) (at level 40, left associativity) : cint_scope.
Notation "a .| b" := (Z.lor a b) (at level 50, left associativity) : cint_scope.
Notation "a .^ b" := (Z.lxor a b) (at level 45, left associativity) : cint_scope.
Notation "a .<< n" := (Z.shiftl a n) (at level 38, left associativity) : cint_scope.
Notation "a .>> n" := (Z.shiftr a n) (at level 38, left associativity) : cint_scope.
#[global] Open Scope cint_scope.

(** ** Machine words: values of C integer types, with their wrap-around *)

Definition u8 (z : Z) : Z := z mod 2 ^ 8.
Definition u16 (z : Z) : Z := z mod 2 ^ 16.
Definition u32 (z : Z) : Z := z mod 2 ^ 32.
Definition u64 (z : Z) : Z := z mod 2 ^ 64.
Definition i32 (z : Z) : Z := (z + 2 ^ 31) mod 2 ^ 32 - 2 ^ 31.
Definition i64 (z : Z) : Z := (z + 2 ^ 63) mod 2 ^ 64 - 2 ^ 63.

Definition fits_u8 (z : Z) : Prop := 0 <= z < 2 ^ 8.
Definition fits_u16 (z : Z) : Prop := 0 <= z < 2 ^ 16.
Definition fits_u32 (z : Z) : Prop := 0 <= z < 2 ^ 32.
Definition fits_u64 (z : Z) : Prop := 0 <= z < 2 ^ 64.
Definition fits_i64 (z : Z) : Prop := - 2 ^ 63 <= z < 2 ^ 63.

(** Bytes are 8-bit words; a buffer is a list of them. *)
Abbreviation bytes := (list Z).
Definition bytes_ok (bs : bytes) : Prop := Forall fits_u8 bs.

(** Decides [bytes_ok], for concrete buffers. *)
Definition bytes_okb (bs : bytes) : bool := forallb (fun b => (0 <=? b) && (b <? 256)) bs.

Lemma bytes_okb_ok bs : bytes_okb bs = true -> bytes_ok bs.
Proof.
  unfold bytes_okb, bytes_ok. rewrite List.forallb_forall, List.Forall_forall.
  intros H b Hb. specialize (H b Hb). unfold fits_u8. lia.
Qed.

(** ** Tactics of the development *)

Create HintDb tdb.

(** Split every boolean test of the goal and the hypotheses, turning the
    integer comparisons into propositions. *)
Ltac zbool :=
  repeat match goal with
  | H : _ && _ = true |- _ => apply andb_true_iff in H; destruct H
  | H : _ || _ = false |- _ => apply orb_false_iff in H; destruct H
  | H : (_ <? _) = true |- _ => apply Z.ltb_lt in H
  | H : (_ <? _) = false |- _ => apply Z.ltb_ge in H
  | H : (_ <=? _) = true |- _ => apply Z.leb_le in H
  | H : (_ <=? _) = false |- _ => apply Z.leb_gt in H
  | H : (_ =? _) = true |- _ => apply Z.eqb_eq in H
  | H : (_ =? _) = false |- _ => apply Z.eqb_neq in H
  | H : negb _ = true |- _ => apply negb_true_iff in H
  | H : negb _ = false |- _ => apply negb_false_iff in H
  end.

Ltac case_if :=
  match goal with
  | |- context [if ?b then _ else _] => destruct b eqn:?
  | H : context [if ?b then _ else _] |- _ => destruct b eqn:?
  end.

Ltac case_ifs := repeat (case_if; simpl in *); zbool.

(** Unfold the word types so that [lia] sees plain inequalities. *)
Ltac words :=
  unfold fits_u8, fits_u16, fits_u32, fits_u64, fits_i64, u8, u16, u32, u64, i32, i64 in *.

(** ** Words *)

Lemma u8_fits z : fits_u8 (u8 z).
Proof. words. apply Z.mod_pos_bound. lia. Qed.
Lemma u16_fits z : fits_u16 (u16 z).
Proof. words. apply Z.mod_pos_bound. lia. Qed.
Lemma u32_fits z : fits_u32 (u32 z).
Proof. words. apply Z.mod_pos_bound. lia. Qed.
Lemma u64_fits z : fits_u64 (u64 z).
Proof. words. apply Z.mod_pos_bound. lia. Qed.
Lemma u8_id z : fits_u8 z -> u8 z = z.
Proof. apply Z.mod_small. Qed.
Lemma u16_id z : fits_u16 z -> u16 z = z.
Proof. apply Z.mod_small. Qed.
Lemma u32_id z : fits_u32 z -> u32 z = z.
Proof. apply Z.mod_small. Qed.
Lemma u64_id z : fits_u64 z -> u64 z = z.
Proof. apply Z.mod_small. Qed.

Lemma i64_fits z : fits_i64 (i64 z).
Proof. words. pose proof (Z.mod_pos_bound (z + 2 ^ 63) (2 ^ 64)). lia. Qed.

(** A signed 64-bit value survives the cast to unsigned and back. *)
Lemma i64_u64 z : fits_i64 z -> i64 (u64 z) = z.
Proof.
  words. intros. rewrite Zplus_mod_idemp_l, Z.mod_small; lia.
Qed.

Lemma i32_small z : 0 <= z < 2 ^ 31 -> i32 z = z.
Proof. words. intros. rewrite Z.mod_small; lia. Qed.

(** A 32-bit word whose signed reading is not negative reads the same unsigned. *)
Lemma i32_nonneg z : fits_u32 z -> 0 <= i32 z -> i32 z = z.
Proof.
  words. intros Hz. destruct (Z.lt_ge_cases z (2 ^ 31)).
  - rewrite Z.mod_small by lia. lia.
  - replace (z + 2 ^ 31) with (z - 2 ^ 31 + 1 * 2 ^ 32) by lia.
    rewrite Z.mod_add, Z.mod_small by lia. lia.
Qed.

#[export] Hint Resolve u8_fits u16_fits u32_fits u64_fits i64_fits : tdb.

(** Masks and shifts as arithmetic. *)
Lemma land_255 z : z .& 255 = z mod 2 ^ 8.
Proof. apply (Z.land_ones z 8). lia. Qed.

Lemma shiftr_div z n : 0 <= n -> z .>> n = z / 2 ^ n.
Proof. apply Z.shiftr_div_pow2. Qed.

Lemma shiftl_mul z n : 0 <= n -> z .<< n = z * 2 ^ n.
Proof. apply Z.shiftl_mul_pow2. Qed.

(** Or-ing a low part into a shifted high part is addition. *)
Lemma lor_shiftl_add h l n : 0 <= n -> 0 <= l < 2 ^ n -> (h .<< n) .| l = h * 2 ^ n + l.
Proof.
  intros Hn Hl.
  assert (E : (h .<< n) .& l = 0).
  { apply Z.bits_inj'. intros i Hi. rewrite Z.land_spec, Z.bits_0.
    destruct (Z.ltb_spec i n).
    - rewrite Z.shiftl_spec_low; [done|lia].
    - replace l with (l mod 2 ^ n) by (apply Z.mod_small; lia).
      rewrite Z.mod_pow2_bits_high by lia. apply andb_false_r. }
  rewrite <- Z.lxor_lor, <- Z.add_nocarry_lxor, shiftl_mul by auto. done.
Qed.

(** ** Fixed-width byte encodings *)

(** Little-endian, least significant byte first. *)
Fixpoint le_split (n : nat) (w : Z) : bytes :=
  match n with
  | O => []
  | S n' => u8 w :: le_split n' (w .>> 8)
  end.

Fixpoint le_combine (bs : bytes) : Z :=
  match bs with
  | [] => 0
  | b :: bs' => b + 2 ^ 8 * le_combine bs'
  end.

(** Big-endian, most significant byte first. *)
Fixpoint be_split (n : nat) (w : Z) : bytes :=
  match n with
  | O => []
  | S n' => u8 (w .>> (8 * Z.of_nat n')) :: be_split n' w
  end.

Definition be_combine (bs : bytes) : Z :=
  fold_left (fun h b => h * 2 ^ 8 + b) bs 0.

Lemma le_split_length n w : length (le_split n w) = n.
Proof. revert w. induction n; intros; simpl; auto. Qed.

Lemma be_split_length n w : length (be_split n w) = n.
Proof. induction n; simpl; auto. Qed.

Lemma le_split_ok n w : bytes_ok (le_split n w).
Proof. revert w. induction n; intros; simpl; constructor; [auto with tdb|apply IHn]. Qed.

Lemma be_split_ok n w : bytes_ok (be_split n w).
Proof. induction n; simpl; constructor; [auto with tdb|apply IHn]. Qed.

#[export] Hint Resolve le_split_ok be_split_ok : tdb.

Lemma pow2_8S n : 2 ^ (8 * Z.of_nat (S n)) = 2 ^ 8 * 2 ^ (8 * Z.of_nat n).
Proof. rewrite <- Z.pow_add_r by lia. f_equal. lia. Qed.

Lemma pow2_pos n : 0 <= n -> 0 < 2 ^ n.
Proof. intros. apply Z.pow_pos_nonneg; lia. Qed.

Lemma le_combine_split n w : le_combine (le_split n w) = w mod 2 ^ (8 * Z.of_nat n).
Proof.
  revert w. induction n; intros w; simpl le_split; simpl le_combine.
  - by rewrite Z.mul_0_r, Z.mod_1_r.
  - rewrite IHn, shiftr_div, pow2_8S by lia. words.
    rewrite Z.rem_mul_r; [done|lia|]. apply pow2_pos. lia.
Qed.

Lemma le_combine_bound bs :
  bytes_ok bs -> 0 <= le_combine bs < 2 ^ (8 * Z.of_nat (length bs)).
Proof.
  induction 1 as [|b bs Hb Hbs IH]; simpl length; simpl le_combine.
  - rewrite Z.mul_0_r. lia.
  - rewrite pow2_8S. words. lia.
Qed.

Lemma le_split_combine bs : bytes_ok bs -> le_split (length bs) (le_combine bs) = bs.
Proof.
  induction 1 as [|b bs Hb Hbs IH]; [done|].
  cbn [length le_split le_combine]. rewrite shiftr_div by lia.
  rewrite (Z.mul_comm (2 ^ 8)). words. f_equal.
  - rewrite Z.mod_add by lia. apply Z.mod_small. lia.
  - rewrite Z.div_add, (Z.div_small b), Z.add_0_l by lia. done.
Qed.

Lemma le_split_inj n x y :
  0 <= x < 2 ^ (8 * Z.of_nat n) -> 0 <= y < 2 ^ (8 * Z.of_nat n) ->
  le_split n x = le_split n y -> x = y.
Proof.
  intros Hx Hy E. apply (f_equal le_combine) in E.
  rewrite !le_combine_split, !Z.mod_small in E; auto.
Qed.

Lemma be_combine_acc bs a :
  fold_left (fun h b => h * 2 ^ 8 + b) bs a
  = a * 2 ^ (8 * Z.of_nat (length bs)) + be_combine bs.
Proof.
  unfold be_combine. revert a. induction bs as [|b bs IH]; intros a; simpl length.
  - rewrite Z.mul_0_r. simpl. lia.
  - cbn [fold_left]. rewrite IH, (IH (0 * 2 ^ 8 + b)), pow2_8S. lia.
Qed.

Lemma be_combine_cons b bs :
  be_combine (b :: bs) = b * 2 ^ (8 * Z.of_nat (length bs)) + be_combine bs.
Proof. unfold be_combine at 1. cbn [fold_left]. rewrite be_combine_acc. lia. Qed.

Lemma be_combine_split n w : be_combine (be_split n w) = w mod 2 ^ (8 * Z.of_nat n).
Proof.
  induction n; simpl be_split.
  - by rewrite Z.mul_0_r, Z.mod_1_r.
  - rewrite be_combine_cons, be_split_length, IHn, shiftr_div by lia. words.
    rewrite pow2_8S, (Z.mul_comm (2 ^ 8)).
    rewrite Z.rem_mul_r; [lia| |lia]. pose proof (pow2_pos (8 * Z.of_nat n)). lia.
Qed.

Lemma be_combine_bound bs :
  bytes_ok bs -> 0 <= be_combine bs < 2 ^ (8 * Z.of_nat (length bs)).
Proof.
  induction 1 as [|b bs Hb Hbs IH].
  - cbn. lia.
  - rewrite be_combine_cons. simpl length. rewrite pow2_8S. words.
    pose proof (pow2_pos (8 * Z.of_nat (length bs))). nia.
Qed.

Lemma be_split_combine bs : bytes_ok bs -> be_split (length bs) (be_combine bs) = bs.
Proof.
  induction 1 as [|b bs Hb Hbs IH]; [done|].
  assert (Hsplit : forall n a w, (n <= length bs)%nat ->
    be_split n (a * 2 ^ (8 * Z.of_nat (length bs)) + w) = be_split n w).
  { induction n as [|n IHn]; intros a w Hn; simpl; [done|].
    rewrite IHn by lia. f_equal. rewrite !shiftr_div by lia. words.
    replace (8 * Z.of_nat (length bs))
      with (8 * Z.of_nat n + 8 + 8 * Z.of_nat (length bs - S n)) by lia.
    rewrite !Z.pow_add_r by lia.
    replace (a * (2 ^ (8 * Z.of_nat n) * 2 ^ 8 * 2 ^ (8 * Z.of_nat (length bs - S n))) + w)
      with (a * 2 ^ 8 * 2 ^ (8 * Z.of_nat (length bs - S n)) * 2 ^ (8 * Z.of_nat n) + w) by lia.
    rewrite Z.div_add_l by (pose proof (pow2_pos (8 * Z.of_nat n)); lia).
    replace (a * 2 ^ 8 * 2 ^ (8 * Z.of_nat (length bs - S n)) + w / 2 ^ (8 * Z.of_nat n))
      with (w / 2 ^ (8 * Z.of_nat n) + a * 2 ^ (8 * Z.of_nat (length bs - S n)) * 2 ^ 8) by lia.
    apply Z.mod_add. lia. }
  rewrite be_combine_cons. simpl length. simpl be_split. rewrite Hsplit, IH by lia. f_equal.
  rewrite shiftr_div by lia. pose proof (be_combine_bound bs Hbs).
  rewrite Z.div_add_l, Z.div_small, Z.add_0_r by lia. by apply u8_id.
Qed.

(** Reading eight bytes by shifting and or-ing. *)
Lemma shift_or_be64 bs :
  length bs = 8%nat -> bytes_ok bs ->
  foldl (fun h i => u64 (h .<< 8) .| nth i bs 0) 0 (seq 0 8) = be_combine bs.
Proof.
  intros Hlen Hok. do 8 (destruct bs as [|? bs]; [discriminate|]). destruct bs; [|discriminate].
  unfold bytes_ok in Hok. rewrite !List.Forall_cons_iff in Hok. unfold fits_u8 in Hok. destruct_and! Hok.
  cbn [seq foldl nth]. rewrite !be_combine_cons, <- ?Z.add_assoc.
  assert (E : forall h b, 0 <= h < 2 ^ 56 -> 0 <= b < 2 ^ 8 -> u64 (h .<< 8) .| b = h * 2 ^ 8 + b).
  { intros h b Hh Hb. rewrite <- lor_shiftl_add by lia. f_equal. apply u64_id.
    unfold fits_u64. rewrite shiftl_mul by lia. lia. }
  repeat match goal with |- context [u64 (?h .<< 8) .| ?b] =>
    lazymatch h with context [Z.lor] => fail | _ => rewrite (E h b) by lia end end.
  cbn. lia.
Qed.

Lemma be_split_mod n w : be_split n (w mod 2 ^ (8 * Z.of_nat n)) = be_split n w.
Proof.
  rewrite <- (be_combine_split n w).
  rewrite <- (be_split_length n w) at 1. apply be_split_combine, be_split_ok.
Qed.

Lemma be_split_inj n x y :
  0 <= x < 2 ^ (8 * Z.of_nat n) -> 0 <= y < 2 ^ (8 * Z.of_nat n) ->
  be_split n x = be_split n y -> x = y.
Proof.
  intros Hx Hy E. apply (f_equal be_combine) in E.
  rewrite !be_combine_split, !Z.mod_small in E; auto.
Qed.

(** ** Key order *)

(** The engine orders keys as [memcmp] does, a proper prefix first. *)
Fixpoint bytes_compare (a b : bytes) : comparison :=
  match a, b with
  | [], [] => Eq
  | [], _ :: _ => Lt
  | _ :: _, [] => Gt
  | x :: a', y :: b' =>
      match Z.compare x y with
      | Eq => bytes_compare a' b'
      | c => c
      end
  end.

Definition bytes_lt (a b : bytes) : Prop := bytes_compare a b = Lt.

Lemma bytes_compare_eq a b : bytes_compare a b = Eq <-> a = b.
Proof.
  revert b. induction a as [|x a IH]; intros [|y b]; simpl; try done.
  destruct (Z.compare_spec x y) as [->|Hl|Hg].
  - rewrite IH. split; [by intros ->|by intros [=]].
  - split; [done|]. intros [=]. lia.
  - split; [done|]. intros [=]. lia.
Qed.

Lemma bytes_compare_antisym a b : bytes_compare b a = CompOpp (bytes_compare a b).
Proof.
  revert b. induction a as [|x a IH]; intros [|y b]; simpl; try done.
  rewrite (Z.compare_antisym x y). destruct (x ?= y); simpl; auto.
Qed.

Lemma bytes_compare_app p a b : bytes_compare (p ++ a) (p ++ b) = bytes_compare a b.
Proof. induction p as [|x p IH]; simpl; [done|]. by rewrite Z.compare_refl. Qed.

(** Blocks of equal length compare first; what follows them breaks ties. *)
Lemma bytes_compare_blocks p q a b :
  length p = length q ->
  bytes_compare (p ++ a) (q ++ b) =
    match bytes_compare p q with Eq => bytes_compare a b | c => c end.
Proof.
  revert q. induction p as [|x p IH]; intros [|y q] Hlen; simpl in *; try done.
  destruct (x ?= y); auto.
Qed.

(** Big-endian encodings compare as the numbers they encode. *)
Lemma be_split_compare n x y :
  0 <= x < 2 ^ (8 * Z.of_nat n) -> 0 <= y < 2 ^ (8 * Z.of_nat n) ->
  bytes_compare (be_split n x) (be_split n y) = Z.compare x y.
Proof.
  revert x y. induction n as [|n IH]; intros x y.
  - rewrite Z.mul_0_r. intros. replace x with y by lia. by rewrite Z.compare_refl.
  - rewrite pow2_8S. set (B := 2 ^ (8 * Z.of_nat n)). intros Hx Hy.
    assert (HB : 0 < B) by (apply pow2_pos; lia).
    cbn [be_split bytes_compare]. rewrite !shiftr_div by lia. fold B.
    rewrite !u8_id by (words; split; [apply Z.div_pos|apply Z.div_lt_upper_bound]; lia).
    rewrite <- (be_split_mod n x), <- (be_split_mod n y). fold B.
    pose proof (Z.mod_pos_bound x B HB). pose proof (Z.mod_pos_bound y B HB).
    rewrite IH by done.
    pose proof (Z.div_mod x B). pose proof (Z.div_mod y B).
    destruct (Z.compare_spec (x / B) (y / B)) as [E|L|G]; symmetry.
    + destruct (Z.compare_spec (x mod B) (y mod B)) as [E'|L'|G'];
        [apply Z.compare_eq_iff|apply Z.compare_lt_iff|apply Z.compare_gt_iff]; nia.
    + apply Z.compare_lt_iff. nia.
    + apply Z.compare_gt_iff. nia.
Qed.

(** ** Buffers *)

(** [memcpy (buf + off, src, length src)]: in range, [length] is kept. *)
Definition memcpy_at (buf : bytes) (off : nat) (src : bytes) : bytes :=
  take off buf ++ src ++ drop (off + length src) buf.

Lemma memcpy_at_length buf off src :
  (off + length src <= length buf)%nat -> length (memcpy_at buf off src) = length buf.
Proof. intros. unfold memcpy_at. rewrite !length_app, length_take, length_drop. lia. Qed.

Lemma memcpy_at_0 buf src : memcpy_at buf 0 src = src ++ drop (length src) buf.
Proof. done. Qed.

Lemma take_app_exact {A} n (l k : list A) : length l = n -> take n (l ++ k) = l.
Proof. intros <-. by rewrite take_app_length. Qed.

Lemma drop_app_exact {A} n (l k : list A) : length l = n -> drop n (l ++ k) = k.
Proof. intros <-. by rewrite drop_app_length. Qed.

Lemma memcpy_at_app buf pre src :
  (length pre + length src <= length buf)%nat ->
  take (length pre) buf = pre ->
  memcpy_at buf (length pre) src = pre ++ src ++ drop (length pre + length src) buf.
Proof. intros ? Hp. unfold memcpy_at. by rewrite Hp. Qed.

(** Adjacent copies are one copy. *)
Lemma memcpy_at_memcpy_at buf off a b :
  (off + length a + length b <= length buf)%nat ->
  memcpy_at (memcpy_at buf off a) (off + length a) b = memcpy_at buf off (a ++ b).
Proof.
  intros Hlen. unfold memcpy_at at 1 3.
  assert (E : take (off + length a) (memcpy_at buf off a) = take off buf ++ a).
  { unfold memcpy_at. rewrite app_assoc. apply take_app_exact.
    rewrite length_app, length_take. lia. }
  rewrite E, <- !app_assoc, length_app. do 3 f_equal.
  unfold memcpy_at. rewrite app_assoc, drop_app_ge; rewrite length_app, length_take;
    [|lia].
  rewrite drop_drop. f_equal. lia.
Qed.

Lemma drop_memcpy_at buf off src :
  (off <= length buf)%nat -> take (length src) (drop off (memcpy_at buf off src)) = src.
Proof.
  intros. unfold memcpy_at. rewrite drop_app_exact by (rewrite length_take; lia).
  by rewrite take_app_length.
Qed.

Lemma take_memcpy_at buf off src :
  (off <= length buf)%nat ->
  take (off + length src) (memcpy_at buf off src) = take off buf ++ src.
Proof.
  intros. unfold memcpy_at. rewrite app_assoc. apply take_app_exact.
  rewrite length_app, length_take. lia.
Qed.

Lemma le_split_app n m w :
  le_split (n + m) w = le_split n w ++ le_split m (w .>> (8 * Z.of_nat n)).
Proof.
  revert w. induction n as [|n IH]; intros w; cbn [Nat.add le_split app].
  - rewrite Z.mul_0_r. by rewrite Z.shiftr_0_r.
  - rewrite IH, Z.shiftr_shiftr by lia.
    by replace (8 + 8 * Z.of_nat n) with (8 * Z.of_nat (S n)) by lia.
Qed.

Lemma le_split_mod n w : le_split n (w mod 2 ^ (8 * Z.of_nat n)) = le_split n w.
Proof.
  rewrite <- (le_combine_split n w).
  rewrite <- (le_split_length n w) at 1. apply le_split_combine, le_split_ok.
Qed.

(** ** Reachability *)

(** An invariant of the initial states that every step preserves holds in
    every reachable state. *)
Lemma rtc_invariant {S} (R : relation S) (P : S -> Prop) s s' :
  (forall a b, P a -> R a b -> P b) -> P s -> rtc R s s' -> P s'.
Proof. intros HR Hs Hr. induction Hr; eauto. Qed.
