(* ===== verification/Errors.v ===== *)
(** * Engine result codes, their mapping to the server, and the read retry

    Models [tdb_rc_to_ha] (plugin/ha_tidesdb.cc) and the bounded retry ladder
    of plugin/tidesdb_retry.h.  The engine's header is not part of the
    repository, so its result codes are an enumeration with the names the
    plugin uses and a constructor for every other integer.  An engine call is
    a state-passing function; the ladder is the source's loop, with the
    microseconds it sleeps recorded. *)

From Stdlib Require Import ZArith Lia String.
From stdpp Require Import base tactics list numbers.
From S2P Require Import Prelude.

(** ** Result codes *)

Inductive tdb_rc :=
| TDB_SUCCESS
| TDB_ERR_MEMORY
| TDB_ERR_INVALID_ARGS
| TDB_ERR_NOT_FOUND
| TDB_ERR_IO
| TDB_ERR_CORRUPTION
| TDB_ERR_EXISTS
| TDB_ERR_CONFLICT
| TDB_ERR_TOO_LARGE
| TDB_ERR_MEMORY_LIMIT
| TDB_ERR_INVALID_DB
| TDB_ERR_LOCKED
| TDB_ERR_READONLY
| TDB_ERR_TXN_EXPIRED
| TDB_ERR_TXN_ABORTED
| TDB_ERR_TOO_OLD
| TDB_ERR_NO_SPACE
| TDB_RC_OTHER (rc : Z).

#[export] Instance tdb_rc_eq_dec : EqDecision tdb_rc.
Proof. solve_decision. Defined.

(** What a handler or handlerton entry point returns to the server. *)
Inductive ha_rc :=
| HA_OK
| HA_ERR_LOCK_DEADLOCK
| HA_ERR_LOCK_WAIT_TIMEOUT
| HA_ERR_RECORD_FILE_FULL
| HA_ERR_OUT_OF_MEM
| HA_ERR_KEY_NOT_FOUND
| HA_ERR_FOUND_DUPP_KEY
| HA_ERR_READ_ONLY_TRANSACTION
| HA_ERR_CRASHED
| HA_ERR_TOO_BIG_ROW
| HA_ERR_INTERNAL_ERROR
| HA_ERR_GENERIC
| HA_ERR_END_OF_FILE
| HA_ERR_NO_SAVEPOINT
| HA_ERR_ABORTED_BY_USER
| HA_ERR_TABLE_DEF_CHANGED
| HA_ERR_WRONG_COMMAND
| HA_ERR_NO_SUCH_TABLE
| HA_ERR_UNSUPPORTED
| HA_WRONG_CREATE_OPTION.

#[export] Instance ha_rc_eq_dec : EqDecision ha_rc.
Proof. solve_decision. Defined.

(** The diagnostic line of SHOW ENGINE STATUS and the variable that enables it. *)
Record conflict_diag := mk_diag {
  srv_print_all_conflicts : bool;
  last_conflict_info : option (string * Z)   (* context and time of the last conflict *)
}.

(** [now] is the value of [time(NULL)] at the call. *)
Definition tdb_rc_to_ha (rc : tdb_rc) (ctx : string) (now : Z) (d : conflict_diag)
    : ha_rc * conflict_diag :=
  match rc with
  | TDB_SUCCESS => (HA_OK, d)
  | TDB_ERR_CONFLICT =>
      (HA_ERR_LOCK_DEADLOCK,
       if srv_print_all_conflicts d then mk_diag true (Some (ctx, now)) else d)
  | TDB_ERR_LOCKED => (HA_ERR_LOCK_WAIT_TIMEOUT, d)
  | TDB_ERR_TXN_EXPIRED => (HA_ERR_LOCK_WAIT_TIMEOUT, d)
  | TDB_ERR_TXN_ABORTED => (HA_ERR_LOCK_DEADLOCK, d)
  | TDB_ERR_TOO_OLD => (HA_ERR_LOCK_DEADLOCK, d)
  | TDB_ERR_NO_SPACE => (HA_ERR_RECORD_FILE_FULL, d)
  | TDB_ERR_MEMORY_LIMIT => (HA_ERR_LOCK_DEADLOCK, d)
  | TDB_ERR_MEMORY => (HA_ERR_OUT_OF_MEM, d)
  | TDB_ERR_NOT_FOUND => (HA_ERR_KEY_NOT_FOUND, d)
  | TDB_ERR_EXISTS => (HA_ERR_FOUND_DUPP_KEY, d)
  | TDB_ERR_READONLY => (HA_ERR_READ_ONLY_TRANSACTION, d)
  | TDB_ERR_IO => (HA_ERR_CRASHED, d)
  | TDB_ERR_CORRUPTION => (HA_ERR_CRASHED, d)
  | TDB_ERR_TOO_LARGE => (HA_ERR_TOO_BIG_ROW, d)
  | TDB_ERR_INVALID_DB => (HA_ERR_INTERNAL_ERROR, d)
  | TDB_ERR_INVALID_ARGS => (HA_ERR_INTERNAL_ERROR, d)
  | TDB_RC_OTHER _ => (HA_ERR_GENERIC, d)
  end.

(** The code alone, for the callers that do not read the diagnostic line. *)
Definition ha_of_rc (rc : tdb_rc) : ha_rc := (tdb_rc_to_ha rc EmptyString 0 (mk_diag false None)).1.

Lemma ha_of_rc_fst rc ctx now d : (tdb_rc_to_ha rc ctx now d).1 = ha_of_rc rc.
Proof. by destruct rc. Qed.

(** The engine codes that report contention, not damage: the caller may retry
    the statement or the transaction. *)
Definition tdb_rc_transient (rc : tdb_rc) : bool :=
  match rc with
  | TDB_ERR_CONFLICT | TDB_ERR_LOCKED | TDB_ERR_MEMORY_LIMIT
  | TDB_ERR_TXN_EXPIRED | TDB_ERR_TXN_ABORTED => true
  | _ => false
  end.

(** ** The retry ladder *)

Definition TDB_READ_RETRY_BACKOFF_US : list Z := [200; 1000; 5000; 20000].
Definition TDB_READ_RETRY_MAX_ATTEMPTS : nat := 1 + length TDB_READ_RETRY_BACKOFF_US.

Section Retry.

Context {S : Type}.

(** An engine read: reports a code and moves the engine state. *)
Variable fn : S -> tdb_rc * S.

(** The [for] loop from [attempt] on, with the sleeps made so far in front of
    the ones still to come. [fuel] bounds the iterations; the loop's own
    condition ends it first. *)
Fixpoint retry_loop (fuel attempt : nat) (rc : tdb_rc) (s : S) (slept : list Z)
    : tdb_rc * S * list Z :=
  match fuel with
  | O => (rc, s, slept)
  | Datatypes.S fuel' =>
    if bool_decide (rc = TDB_ERR_LOCKED)
       && Nat.ltb attempt (TDB_READ_RETRY_MAX_ATTEMPTS - 1)
    then let slept := slept ++ [nth attempt TDB_READ_RETRY_BACKOFF_US 0] in
         let '(rc, s) := fn s in
         retry_loop fuel' (attempt + 1) rc s slept
    else (rc, s, slept)
  end.

Definition tdb_retry_transient (s : S) : tdb_rc * S * list Z :=
  let '(rc, s) := fn s in
  retry_loop TDB_READ_RETRY_MAX_ATTEMPTS 0 rc s [].

(** The [k]-th call of [fn], counting from 0, and the state it is made in. *)
Fixpoint nth_state (k : nat) (s : S) : S :=
  match k with O => s | Datatypes.S k' => nth_state k' (fn s).2 end.
Definition nth_call (k : nat) (s : S) : tdb_rc * S := fn (nth_state k s).

Lemma nth_state_S k s : nth_state (Datatypes.S k) s = (fn (nth_state k s)).2.
Proof. revert s. induction k as [|k IH]; intros s; [done|]. exact (IH (fn s).2). Qed.

Lemma nth_call_S k s : nth_call (Datatypes.S k) s = fn (nth_call k s).2.
Proof. unfold nth_call. by rewrite nth_state_S. Qed.

(** One step of the loop, by the shape of the last code. *)
Lemma retry_loop_stop fuel attempt rc s slept :
  rc <> TDB_ERR_LOCKED \/ (4 <= attempt)%nat ->
  retry_loop fuel attempt rc s slept = (rc, s, slept).
Proof.
  intros H. destruct fuel; [done|]. cbn [retry_loop].
  destruct (Nat.ltb_spec attempt (TDB_READ_RETRY_MAX_ATTEMPTS - 1)) as [Ha|]; [|by rewrite andb_false_r].
  rewrite bool_decide_eq_false_2; [done|]. destruct H; [done|]. cbn in Ha. lia.
Qed.

(** The loop, entered after call number [k] of [s0] reported [LOCKED]. *)
Lemma retry_loop_spec s0 fuel k :
  (k <= 4)%nat -> (4 - k <= fuel)%nat ->
  exists j, (k <= j <= 4)%nat /\
    retry_loop fuel k (nth_call k s0).1 (nth_call k s0).2 (take k TDB_READ_RETRY_BACKOFF_US)
    = ((nth_call j s0).1, (nth_call j s0).2, take j TDB_READ_RETRY_BACKOFF_US) /\
    (forall i, (k <= i < j)%nat -> (nth_call i s0).1 = TDB_ERR_LOCKED) /\
    ((nth_call j s0).1 <> TDB_ERR_LOCKED \/ j = 4%nat).
Proof.
  revert k. induction fuel as [|fuel IH]; intros k Hk Hf.
  - replace k with 4%nat by lia. exists 4%nat. repeat split; auto; lia.
  - destruct (decide ((nth_call k s0).1 = TDB_ERR_LOCKED)) as [HL|HL];
      [destruct (decide (k = 4%nat)) as [->|Hk4]|].
    + exists 4%nat. rewrite retry_loop_stop by (right; lia). repeat split; auto; lia.
    + destruct (IH (Datatypes.S k)) as (j & Hj & E & Hl & Hend); [lia..|].
      exists j. split; [lia|]. split; [|split; [|done]].
      * rewrite <- E. cbn [retry_loop]. rewrite bool_decide_eq_true_2 by done.
        destruct (Nat.ltb_spec k (TDB_READ_RETRY_MAX_ATTEMPTS - 1)) as [_|Hge];
          [|cbn in Hge; lia].
        cbn [andb]. rewrite Nat.add_1_r, (nth_call_S k).
        destruct (fn (nth_call k s0).2) as [rc' s'] eqn:Efn. cbn [fst snd].
        f_equal. assert (Hk' : (k < 4)%nat) by lia.
        do 4 (destruct k as [|k]; [done|]). lia.
      * intros i Hi. destruct (decide (i = k)) as [->|]; [done|]. apply Hl. lia.
    + exists k. rewrite retry_loop_stop by (left; done). repeat split; auto; lia.
Qed.

(** The retry ladder calls the engine at most five times, sleeps the
    documented backoff between calls (26.2 ms in all at most), and returns the
    result and state of the first call that did not report
    [TDB_ERR_LOCKED] - or of the fifth call, whatever it reported. *)
Theorem retry_transient_spec s :
  exists j, (j < TDB_READ_RETRY_MAX_ATTEMPTS)%nat /\
    tdb_retry_transient s
    = ((nth_call j s).1, (nth_call j s).2, take j TDB_READ_RETRY_BACKOFF_US) /\
    (forall i, (i < j)%nat -> (nth_call i s).1 = TDB_ERR_LOCKED) /\
    ((nth_call j s).1 <> TDB_ERR_LOCKED \/ j = (TDB_READ_RETRY_MAX_ATTEMPTS - 1)%nat) /\
    foldr Z.add 0 (take j TDB_READ_RETRY_BACKOFF_US) <= 26200.
Proof.
  destruct (retry_loop_spec s TDB_READ_RETRY_MAX_ATTEMPTS 0) as (j & Hj & E & Hl & Hend);
    [lia|cbn; lia|].
  exists j. split; [cbn; lia|]. split; [|split; [|split]].
  - rewrite <- E. unfold tdb_retry_transient, nth_call. cbn [nth_state].
    by destruct (fn s).
  - intros i Hi. apply Hl. lia.
  - done.
  - do 5 (destruct j as [|j]; [cbn; lia|]). lia.
Qed.

End Retry.

(** ** Properties of the mapping *)

(** Contention never reads as damage and damage never reads as contention:
    a transient engine code maps to deadlock or lock-wait timeout, an I/O or
    corruption code to [HA_ERR_CRASHED], only success to success; a full disk
    is not reported as a crash. *)
Theorem rc_to_ha_classes rc ctx now d :
  ((tdb_rc_to_ha rc ctx now d).1 = HA_OK <-> rc = TDB_SUCCESS) /\
  (tdb_rc_transient rc = true ->
   (tdb_rc_to_ha rc ctx now d).1 = HA_ERR_LOCK_DEADLOCK \/
   (tdb_rc_to_ha rc ctx now d).1 = HA_ERR_LOCK_WAIT_TIMEOUT) /\
  ((tdb_rc_to_ha rc ctx now d).1 = HA_ERR_CRASHED <-> rc = TDB_ERR_IO \/ rc = TDB_ERR_CORRUPTION) /\
  ((tdb_rc_to_ha rc ctx now d).2 <> d -> rc = TDB_ERR_CONFLICT /\ srv_print_all_conflicts d = true).
Proof.
  rewrite ha_of_rc_fst. destruct rc; unfold ha_of_rc; simpl; repeat split; try done;
    try naive_solver.
  - destruct (srv_print_all_conflicts d); done.
Qed.
