(* ===== verification/Xid.v ===== *)
(** * Transaction-id wire format (plugin/tidesdb_xid.h)

    The XID the server hands to [prepare] is stored by the engine as one
    byte string and matched against the server's XID during recovery.  The
    encoder and decoder are translated with their buffers: [out] and [in] are
    byte lists, a null pointer is [None], a C [long] is a [Z] that
    [fits_i64].  The theorems: the decoder inverts the encoder, the encoder
    inverts the decoder (the format is canonical), and two XIDs have the same
    encoding exactly when the server considers them equal. *)

From Stdlib Require Import ZArith Lia.
From stdpp Require Import base tactics list numbers.
From S2P Require Import Prelude.



Definition TDB_XID_DATA_SIZE : Z := 128.
Definition TDB_XID_MAX_PART : Z := 64.
Definition TDB_XID_HEADER_SIZE : Z := 16.
Definition TDB_XID_MAX_SERIALIZED : Z := TDB_XID_HEADER_SIZE + TDB_XID_DATA_SIZE.

Definition tdb_xid_put_u32 (p : bytes) (off : nat) (v : Z) : bytes :=
  memcpy_at p off
    [u8 (v .& 0xff); u8 ((v .>> 8) .& 0xff); u8 ((v .>> 16) .& 0xff); u8 ((v .>> 24) .& 0xff)].

Definition tdb_xid_get_u32 (p : bytes) (off : nat) : Z :=
  nth off p 0 .| (nth (off + 1) p 0 .<< 8) .| (nth (off + 2) p 0 .<< 16)
    .| (nth (off + 3) p 0 .<< 24).

Definition tdb_xid_put_u64 (p : bytes) (off : nat) (v : Z) : bytes :=
  let p := tdb_xid_put_u32 p off (u32 (v .& 0xffffffff)) in
  tdb_xid_put_u32 p (off + 4) (u32 ((v .>> 32) .& 0xffffffff)).

Definition tdb_xid_get_u64 (p : bytes) (off : nat) : Z :=
  tdb_xid_get_u32 p off .| (tdb_xid_get_u32 p (off + 4) .<< 32).

Definition tdb_xid_lengths_valid (gtrid_len bqual_len : Z) : bool :=
  if (gtrid_len <? 0) || (bqual_len <? 0) then false
  else if (TDB_XID_MAX_PART <? gtrid_len) || (TDB_XID_MAX_PART <? bqual_len) then false
  else u64 (gtrid_len + bqual_len) <=? TDB_XID_DATA_SIZE.

(** The byte count (0 on refusal) and the output buffer afterwards. *)
Definition tdb_xid_serialize (format_id gtrid_len bqual_len : Z) (data out : option bytes)
    (out_cap : Z) : Z * option bytes :=
  match out with
  | None => (0, out)
  | Some o =>
    if match data with None => 0 <? gtrid_len + bqual_len | Some _ => false end
    then (0, out)
    else if negb (tdb_xid_lengths_valid gtrid_len bqual_len) then (0, out)
    else
      let payload := gtrid_len + bqual_len in
      let total := TDB_XID_HEADER_SIZE + payload in
      if out_cap <? total then (0, out)
      else
        let o := tdb_xid_put_u64 o 0 (u64 format_id) in
        let o := tdb_xid_put_u32 o 8 (u32 gtrid_len) in
        let o := tdb_xid_put_u32 o 12 (u32 bqual_len) in
        let o := if 0 <? payload
                 then memcpy_at o (Z.to_nat TDB_XID_HEADER_SIZE)
                        (take (Z.to_nat payload) (default [] data))
                 else o in
        (total, Some o)
  end.

(** What a successful decode stores through its four out-parameters. *)
Record xid := mk_xid {
  xid_format_id : Z;
  xid_gtrid_len : Z;
  xid_bqual_len : Z;
  xid_data : bytes
}.

(** [outs] tells that all four out-parameters are non-null. *)
Definition tdb_xid_deserialize (inp : option bytes) (in_len : Z) (outs : bool) : option xid :=
  match inp with
  | None => None
  | Some i =>
    if negb outs then None
    else if in_len <? TDB_XID_HEADER_SIZE then None
    else
      let g := i32 (tdb_xid_get_u32 i 8) in
      let b := i32 (tdb_xid_get_u32 i 12) in
      if negb (tdb_xid_lengths_valid g b) then None
      else if negb (in_len =? TDB_XID_HEADER_SIZE + (g + b)) then None
      else
        let data := replicate (Z.to_nat TDB_XID_DATA_SIZE) 0 in
        let data := if 0 <? g + b
                    then memcpy_at data 0
                           (take (Z.to_nat (g + b)) (drop (Z.to_nat TDB_XID_HEADER_SIZE) i))
                    else data in
        Some (mk_xid (i64 (tdb_xid_get_u64 i 0)) g b data)
  end.

(** ** The layout the header comment gives *)

Definition xid_layout (format_id g b : Z) (payload : bytes) : bytes :=
  le_split 8 format_id ++ le_split 4 g ++ le_split 4 b ++ payload.

(** ** Lemmas *)

Lemma put_u32_le p off v : tdb_xid_put_u32 p off v = memcpy_at p off (le_split 4 v).
Proof.
  unfold tdb_xid_put_u32. cbn [le_split]. rewrite !Z.shiftr_shiftr by lia.
  unfold u8. rewrite !land_255, !Z.mod_mod by lia. done.
Qed.

Lemma u32_mask v : u32 (v .& 0xffffffff) = v mod 2 ^ 32.
Proof.
  unfold u32. change 0xffffffff with (Z.ones 32). rewrite Z.land_ones by lia.
  by rewrite Z.mod_mod by lia.
Qed.

Lemma put_u64_le p off v :
  (off + 8 <= length p)%nat -> tdb_xid_put_u64 p off v = memcpy_at p off (le_split 8 v).
Proof.
  intros. unfold tdb_xid_put_u64. rewrite !put_u32_le, !u32_mask.
  change (2 ^ 32) with (2 ^ (8 * Z.of_nat 4)). rewrite !le_split_mod.
  change (off + 4)%nat with (off + length (le_split 4 v))%nat.
  rewrite memcpy_at_memcpy_at by (rewrite !le_split_length; lia).
  by rewrite (le_split_app 4 4).
Qed.

Lemma take4 (p : bytes) off :
  (off + 4 <= length p)%nat ->
  take 4 (drop off p) = [nth off p 0; nth (off + 1) p 0; nth (off + 2) p 0; nth (off + 3) p 0].
Proof.
  revert p. induction off as [|off IH]; intros p Hp.
  - do 4 (destruct p as [|? p]; [simpl in Hp; lia|]). done.
  - destruct p as [|x p]; [simpl in Hp; lia|]. simpl in Hp.
    cbn [drop Nat.add nth]. apply IH. lia.
Qed.

Lemma bytes_ok_take n p : bytes_ok p -> bytes_ok (take n p).
Proof. apply Forall_take. Qed.
Lemma bytes_ok_drop n p : bytes_ok p -> bytes_ok (drop n p).
Proof. apply Forall_drop. Qed.
#[local] Hint Resolve bytes_ok_take bytes_ok_drop : tdb.

Lemma get_u32_le p off :
  bytes_ok p -> (off + 4 <= length p)%nat ->
  tdb_xid_get_u32 p off = le_combine (take 4 (drop off p)).
Proof.
  intros Hp Hlen. assert (Hok : bytes_ok (take 4 (drop off p))) by auto with tdb.
  rewrite take4 in Hok |- * by done. unfold tdb_xid_get_u32, bytes_ok in *.
  rewrite !List.Forall_cons_iff in Hok. destruct Hok as (H0 & H1 & H2 & H3 & _).
  set (b0 := nth off p 0) in *. set (b1 := nth (off + 1) p 0) in *.
  set (b2 := nth (off + 2) p 0) in *. set (b3 := nth (off + 3) p 0) in *.
  words. cbn [le_combine].
  rewrite (Z.lor_comm b0), lor_shiftl_add by lia.
  rewrite (Z.lor_comm _ (b2 .<< 16)), lor_shiftl_add by lia.
  rewrite (Z.lor_comm _ (b3 .<< 24)), lor_shiftl_add by lia. lia.
Qed.

Lemma take_add {A} n m (l : list A) : take (n + m) l = take n l ++ take m (drop n l).
Proof.
  revert l. induction n as [|n IH]; intros l; [done|].
  destruct l as [|x l]; simpl; [by rewrite take_nil|]. by rewrite IH.
Qed.

Lemma le_combine_app a b :
  le_combine (a ++ b) = le_combine a + 2 ^ (8 * Z.of_nat (length a)) * le_combine b.
Proof.
  induction a as [|x a IH]; cbn [app le_combine length].
  - rewrite Z.mul_0_r. lia.
  - rewrite IH, pow2_8S. lia.
Qed.

Lemma get_u64_le p off :
  bytes_ok p -> (off + 8 <= length p)%nat ->
  tdb_xid_get_u64 p off = le_combine (take 8 (drop off p)).
Proof.
  intros Hp Hlen. unfold tdb_xid_get_u64. rewrite !get_u32_le by (done || lia).
  pose proof (le_combine_bound (take 4 (drop off p))) as Hb.
  assert (L : length (take 4 (drop off p)) = 4%nat)
    by (rewrite length_take, length_drop; lia).
  rewrite L in Hb. specialize (Hb ltac:(auto with tdb)).
  rewrite Z.lor_comm, lor_shiftl_add by lia.
  change 8%nat with (4 + 4)%nat.
  rewrite take_add, le_combine_app, drop_drop, L.
  change (8 * Z.of_nat 4) with 32. lia.
Qed.

Lemma split_take n p :
  bytes_ok p -> (n <= length p)%nat -> le_split n (le_combine (take n p)) = take n p.
Proof.
  intros Hp Hn. rewrite <- (le_split_combine (take n p)) at 2 by auto with tdb.
  rewrite length_take. by replace (n `min` length p)%nat with n by lia.
Qed.

Lemma get_u32_fits p off :
  bytes_ok p -> (off + 4 <= length p)%nat -> fits_u32 (tdb_xid_get_u32 p off).
Proof.
  intros Hp Hl. rewrite get_u32_le by done.
  pose proof (le_combine_bound (take 4 (drop off p)) ltac:(auto with tdb)) as B.
  rewrite length_take, length_drop in B. words.
  by replace (4 `min` (length p - off))%nat with 4%nat in B by lia.
Qed.

Lemma u64_i64 z : fits_u64 z -> u64 (i64 z) = z.
Proof.
  words. intros. rewrite Zminus_mod_idemp_l, Z.mod_small; lia.
Qed.

Lemma get_u64_fits p off :
  bytes_ok p -> (off + 8 <= length p)%nat -> fits_u64 (tdb_xid_get_u64 p off).
Proof.
  intros Hp Hl. rewrite get_u64_le by done.
  pose proof (le_combine_bound (take 8 (drop off p)) ltac:(auto with tdb)) as B.
  rewrite length_take, length_drop in B. words.
  by replace (8 `min` (length p - off))%nat with 8%nat in B by lia.
Qed.

Lemma lengths_valid_spec g b :
  tdb_xid_lengths_valid g b = true <-> 0 <= g <= 64 /\ 0 <= b <= 64.
Proof.
  unfold tdb_xid_lengths_valid, TDB_XID_MAX_PART, TDB_XID_DATA_SIZE. split.
  - intros H. case_ifs; done.
  - intros [Hg Hb]. rewrite u64_id by (words; lia).
    destruct (Z.ltb_spec g 0), (Z.ltb_spec b 0), (Z.ltb_spec 64 g), (Z.ltb_spec 64 b);
      try lia. apply Z.leb_le. lia.
Qed.

(** A refused call leaves the buffer alone; a successful one writes the layout
    in front of what the buffer held. *)
Lemma serialize_spec fid g b d o cap :
  tdb_xid_lengths_valid g b = true ->
  16 + (g + b) <= cap -> 16 + (g + b) <= Z.of_nat (length o) -> g + b <= Z.of_nat (length d) ->
  tdb_xid_serialize fid g b (Some d) (Some o) cap
  = (16 + (g + b),
     Some (xid_layout (u64 fid) g b (take (Z.to_nat (g + b)) d)
           ++ drop (Z.to_nat (16 + (g + b))) o)).
Proof.
  intros Hv Hcap Ho Hd. pose proof Hv as Hgb. apply lengths_valid_spec in Hgb.
  unfold tdb_xid_serialize, TDB_XID_HEADER_SIZE. rewrite Hv. cbn [negb].
  destruct (Z.ltb_spec cap (16 + (g + b))); [lia|]. do 2 f_equal.
  rewrite !put_u32_le, put_u64_le by lia.
  rewrite !u32_id by (words; lia). set (pl := take (Z.to_nat (g + b)) d).
  assert (Lp : length pl = Z.to_nat (g + b)) by (unfold pl; rewrite length_take; lia).
  pose proof (memcpy_at_memcpy_at o 0 (le_split 8 (u64 fid)) (le_split 4 g)) as M1.
  pose proof (memcpy_at_memcpy_at o 0 (le_split 8 (u64 fid) ++ le_split 4 g) (le_split 4 b)) as M2.
  rewrite !length_app, !le_split_length in *. cbn [Nat.add] in *.
  rewrite M1, M2 by lia.
  rewrite <- app_assoc. set (hd := le_split 8 (u64 fid) ++ le_split 4 g ++ le_split 4 b).
  assert (Lh : length hd = 16%nat) by (unfold hd; rewrite !length_app, !le_split_length; done).
  assert (Ef : xid_layout (u64 fid) g b pl = hd ++ pl)
    by (unfold xid_layout, hd; by rewrite <- !app_assoc).
  change (take (Z.to_nat (g + b)) (default [] (Some d))) with pl. destruct (Z.ltb_spec 0 (g + b)).
  - change (Z.to_nat 16) with (0 + 16)%nat. rewrite <- Lh.
    rewrite memcpy_at_memcpy_at by lia. rewrite Ef. rewrite memcpy_at_0.
    rewrite length_app, Lh, Lp. do 2 f_equal; lia.
  - assert (pl = []) as Epl by (apply length_zero_iff_nil; lia).
    rewrite Ef, Epl, app_nil_r. rewrite memcpy_at_0.
    rewrite Lh. do 2 f_equal. lia.
Qed.

Lemma layout_length fid g b pl : length (xid_layout fid g b pl) = (16 + length pl)%nat.
Proof. unfold xid_layout. rewrite !length_app, !le_split_length. lia. Qed.

Lemma layout_ok fid g b pl : bytes_ok pl -> bytes_ok (xid_layout fid g b pl).
Proof.
  intros. unfold xid_layout, bytes_ok. rewrite !Forall_app.
  repeat split; try done; apply le_split_ok.
Qed.

Lemma deserialize_layout fid g b pl :
  tdb_xid_lengths_valid g b = true -> bytes_ok pl -> fits_i64 fid ->
  Z.of_nat (length pl) = g + b ->
  tdb_xid_deserialize (Some (xid_layout (u64 fid) g b pl)) (16 + (g + b)) true
  = Some (mk_xid fid g b (pl ++ replicate (Z.to_nat (128 - (g + b))) 0)).
Proof.
  intros Hv Hpl Hf Lp. pose proof Hv as Hgb. apply lengths_valid_spec in Hgb.
  pose proof (layout_ok (u64 fid) g b pl Hpl) as Hok.
  pose proof (layout_length (u64 fid) g b pl) as Ll.
  unfold tdb_xid_deserialize, TDB_XID_HEADER_SIZE, TDB_XID_DATA_SIZE. cbn [negb].
  destruct (Z.ltb_spec (16 + (g + b)) 16); [lia|].
  rewrite !get_u32_le, get_u64_le by (done || lia).
  assert (E0 : take 8 (drop 0 (xid_layout (u64 fid) g b pl)) = le_split 8 (u64 fid)) by done.
  assert (E8 : take 4 (drop 8 (xid_layout (u64 fid) g b pl)) = le_split 4 g) by done.
  assert (E12 : take 4 (drop 12 (xid_layout (u64 fid) g b pl)) = le_split 4 b) by done.
  assert (E16 : drop (Z.to_nat 16) (xid_layout (u64 fid) g b pl) = pl) by done.
  rewrite E0, E8, E12, E16, !le_combine_split. change (2 ^ (8 * Z.of_nat 4)) with (2 ^ 32).
  rewrite !(Z.mod_small _ (2 ^ 32)), !i32_small, Hv by lia. cbn [negb].
  rewrite Z.eqb_refl. cbn [negb]. change (2 ^ (8 * Z.of_nat 8)) with (2 ^ 64).
  rewrite (Z.mod_small (u64 fid)) by apply u64_fits. rewrite i64_u64 by done.
  f_equal. f_equal. destruct (Z.ltb_spec 0 (g + b)).
  - rewrite take_ge by lia. rewrite memcpy_at_0. f_equal.
    rewrite drop_replicate. f_equal. lia.
  - replace pl with (@nil Z) by (symmetry; apply length_zero_iff_nil; lia).
    cbn [app]. f_equal. lia.
Qed.

(** ** Properties *)

(** Decoding what [tdb_xid_serialize] wrote gives back the same format
    id, the same lengths and the meaningful prefix of the data, zero-padded to
    the 128 bytes of an [XID]; the encoder writes exactly [16 + g + b] bytes
    and never grows the caller's buffer. *)
Theorem xid_roundtrip fid g b d o cap :
  tdb_xid_lengths_valid g b = true -> fits_i64 fid -> bytes_ok d ->
  g + b <= Z.of_nat (length d) ->
  16 + (g + b) <= cap <= Z.of_nat (length o) ->
  exists n o', tdb_xid_serialize fid g b (Some d) (Some o) cap = (n, Some o') /\
    n = 16 + (g + b) /\ length o' = length o /\
    tdb_xid_deserialize (Some (take (Z.to_nat n) o')) n true
    = Some (mk_xid fid g b (take (Z.to_nat (g + b)) d ++ replicate (Z.to_nat (128 - (g + b))) 0)).
Proof.
  intros Hv Hf Hd Ld Hcap. pose proof Hv as Hgb. apply lengths_valid_spec in Hgb.
  rewrite serialize_spec by (done || lia). do 2 eexists. split; [done|]. split; [done|].
  set (pl := take (Z.to_nat (g + b)) d).
  assert (Lp : length pl = Z.to_nat (g + b)) by (unfold pl; rewrite length_take; lia).
  split.
  - rewrite length_app, layout_length, length_drop. lia.
  - rewrite take_app_exact by (rewrite layout_length; lia).
    apply deserialize_layout; [done|by apply bytes_ok_take|done|lia].
Qed.

(** What the decoder accepts is the layout of what it returns. *)
Lemma decode_is_layout i x :
  bytes_ok i ->
  tdb_xid_deserialize (Some i) (Z.of_nat (length i)) true = Some x ->
  fits_i64 (xid_format_id x) /\ length (xid_data x) = 128%nat /\
  tdb_xid_lengths_valid (xid_gtrid_len x) (xid_bqual_len x) = true /\
  i = xid_layout (u64 (xid_format_id x)) (xid_gtrid_len x) (xid_bqual_len x)
        (take (Z.to_nat (xid_gtrid_len x + xid_bqual_len x)) (xid_data x)).
Proof.
  intros Hok Hx. unfold tdb_xid_deserialize, TDB_XID_HEADER_SIZE in Hx. cbn [negb] in Hx.
  destruct (Z.ltb_spec (Z.of_nat (length i)) 16); [done|].
  set (g := i32 (tdb_xid_get_u32 i 8)) in *. set (b := i32 (tdb_xid_get_u32 i 12)) in *.
  destruct (tdb_xid_lengths_valid g b) eqn:Hv; [|done]. cbn [negb] in Hx.
  pose proof Hv as Hgb. apply lengths_valid_spec in Hgb.
  destruct (Z.eqb_spec (Z.of_nat (length i)) (16 + (g + b))) as [Hlen|]; [|done].
  cbn [negb] in Hx. apply (inj Some) in Hx. subst x. cbn [xid_format_id xid_gtrid_len xid_bqual_len xid_data].
  change (Z.to_nat TDB_XID_DATA_SIZE) with 128%nat. change (Z.to_nat 16) with 16%nat.
  set (pl := drop 16 i). assert (Lp : length pl = Z.to_nat (g + b))
    by (unfold pl; rewrite length_drop; lia).
  set (data := if 0 <? g + b then _ else _).
  assert (Ed : data = pl ++ replicate (128 - length pl) 0).
  { unfold data. destruct (Z.ltb_spec 0 (g + b)).
    - rewrite take_ge by lia. rewrite memcpy_at_0. by rewrite drop_replicate.
    - replace pl with (@nil Z) by (symmetry; apply length_zero_iff_nil; lia). done. }
  assert (Ldata : length data = 128%nat) by (rewrite Ed, length_app, length_replicate; lia).
  split; [auto with tdb|]. split; [done|]. split; [done|]. symmetry.
  rewrite Ed, take_app_exact by done.
  assert (Hpart : forall off, (off + 4 <= length i)%nat -> 0 <= i32 (tdb_xid_get_u32 i off) ->
            le_split 4 (i32 (tdb_xid_get_u32 i off)) = take 4 (drop off i)).
  { intros off Hoff Hnn. rewrite i32_nonneg, get_u32_le by (auto using get_u32_fits || lia).
    apply split_take; auto with tdb. rewrite length_drop. lia. }
  pose proof (Hpart 8%nat ltac:(lia) ltac:(fold g; lia)) as Hg. fold g in Hg.
  pose proof (Hpart 12%nat ltac:(lia) ltac:(fold b; lia)) as Hb. fold b in Hb.
  unfold xid_layout. rewrite Hg, Hb.
  rewrite u64_i64 by (apply get_u64_fits; done || lia). rewrite get_u64_le by (done || lia).
  rewrite split_take by (auto with tdb; rewrite length_drop; lia).
  unfold pl. rewrite <- (take_drop 16 i) at 5. change (take 16 i) with (take (8 + (4 + 4)) i).
  by rewrite !take_add, drop_drop, <- !app_assoc.
Qed.

(** The format is canonical: whatever byte string [tdb_xid_deserialize]
    accepts, re-encoding the decoded id produces the same bytes, so recovery
    may match on the encoded form.  The decoded format id fits a [long] and the
    data buffer keeps its 128 bytes. *)
Theorem xid_decode_encode i x o :
  bytes_ok i ->
  tdb_xid_deserialize (Some i) (Z.of_nat (length i)) true = Some x ->
  length o = length i ->
  fits_i64 (xid_format_id x) /\ length (xid_data x) = 128%nat /\
  tdb_xid_serialize (xid_format_id x) (xid_gtrid_len x) (xid_bqual_len x)
    (Some (xid_data x)) (Some o) (Z.of_nat (length o))
  = (Z.of_nat (length i), Some i).
Proof.
  intros Hok Hx Lo. destruct (decode_is_layout _ _ Hok Hx) as (Hf & Hl & Hv & Hi). split; [done|]. split; [done|].
  pose proof (proj1 (lengths_valid_spec _ _) Hv) as Hgb.
  assert (Hil : length i = (16 + Z.to_nat (xid_gtrid_len x + xid_bqual_len x))%nat).
  { rewrite Hi at 1. rewrite layout_length, length_take. lia. }
  rewrite serialize_spec by (done || lia). rewrite drop_ge, app_nil_r by lia.
  rewrite <- Hi. f_equal. lia.
Qed.

Lemma xid_roundtrip_witness :
  exists n o', tdb_xid_serialize (-1) 4 8 (Some (replicate 128 7)) (Some (replicate 144 0)) 144
               = (n, Some o') /\ n = 16 + (4 + 8) /\ length o' = length (replicate 144 0) /\
    tdb_xid_deserialize (Some (take (Z.to_nat n) o')) n true
    = Some (mk_xid (-1) 4 8 (take (Z.to_nat (4 + 8)) (replicate 128 7)
                             ++ replicate (Z.to_nat (128 - (4 + 8))) 0)).
Proof.
  apply (xid_roundtrip (-1) 4 8 (replicate 128 7) (replicate 144 0) 144).
  - reflexivity.
  - unfold fits_i64. lia.
  - by apply bytes_okb_ok.
  - simpl. lia.
  - simpl. lia.
Defined.

Definition sample_encoding : bytes := xid_layout 1 1 2 [9; 8; 7].

Lemma xid_decode_encode_witness :
  fits_i64 1 /\ length ([9; 8; 7] ++ replicate 125 0) = 128%nat /\
  tdb_xid_serialize 1 1 2 (Some ([9; 8; 7] ++ replicate 125 0)) (Some (replicate 19 0)) 19
  = (Z.of_nat (length sample_encoding), Some sample_encoding).
Proof.
  apply (xid_decode_encode sample_encoding (mk_xid 1 1 2 ([9; 8; 7] ++ replicate 125 0))
           (replicate 19 0)).
  - by apply bytes_okb_ok.
  - reflexivity.
  - reflexivity.
Defined.

(** Two XIDs have the same encoding exactly when the server's definition
    of equality holds: same format id, same lengths and the same
    [gtrid_length + bqual_length] leading bytes.  Bytes past that prefix do not
    reach the encoding. *)
Theorem xid_encoding_identity f1 g1 b1 d1 f2 g2 b2 d2 o :
  tdb_xid_lengths_valid g1 b1 = true -> tdb_xid_lengths_valid g2 b2 = true ->
  fits_i64 f1 -> fits_i64 f2 ->
  length d1 = 128%nat -> length d2 = 128%nat -> length o = 144%nat ->
  let enc f g b d :=
    match tdb_xid_serialize f g b (Some d) (Some o) TDB_XID_MAX_SERIALIZED with
    | (n, Some o') => take (Z.to_nat n) o'
    | _ => []
    end in
  enc f1 g1 b1 d1 = enc f2 g2 b2 d2 <->
  f1 = f2 /\ g1 = g2 /\ b1 = b2 /\
  take (Z.to_nat (g1 + b1)) d1 = take (Z.to_nat (g2 + b2)) d2.
Proof.
  intros Hv1 Hv2 Hf1 Hf2 L1 L2 Lo enc.
  assert (Henc : forall f g b d, tdb_xid_lengths_valid g b = true -> length d = 128%nat ->
            enc f g b d = xid_layout (u64 f) g b (take (Z.to_nat (g + b)) d)).
  { intros f g b d Hv Ld. unfold enc. pose proof Hv as Hgb. apply lengths_valid_spec in Hgb.
    unfold TDB_XID_MAX_SERIALIZED, TDB_XID_HEADER_SIZE, TDB_XID_DATA_SIZE.
    rewrite serialize_spec by (done || lia). apply take_app_exact.
    rewrite layout_length, length_take. lia. }
  rewrite !Henc by done. apply lengths_valid_spec in Hv1, Hv2.
  split; [|by intros (-> & -> & -> & ->)].
  unfold xid_layout. intros E.
  apply app_inj_1 in E as [Ef E]; [|by rewrite !le_split_length].
  apply app_inj_1 in E as [Eg E]; [|by rewrite !le_split_length].
  apply app_inj_1 in E as [Eb E]; [|by rewrite !le_split_length].
  apply le_split_inj in Ef; [|apply u64_fits..].
  apply le_split_inj in Eg, Eb; [|cbn; lia..].
  apply (f_equal i64) in Ef. rewrite !i64_u64 in Ef by done. done.
Qed.

Lemma xid_encoding_identity_witness :
  let o := replicate 144 0 in
  let enc f g b d :=
    match tdb_xid_serialize f g b (Some d) (Some o) TDB_XID_MAX_SERIALIZED with
    | (n, Some o') => take (Z.to_nat n) o'
    | _ => []
    end in
  enc 5 1 1 ([1; 2] ++ replicate 126 0) = enc 5 1 1 ([1; 2] ++ replicate 126 255) <->
  5 = 5 /\ 1 = 1 /\ 1 = 1 /\
  take (Z.to_nat (1 + 1)) ([1; 2] ++ replicate 126 0)
  = take (Z.to_nat (1 + 1)) ([1; 2] ++ replicate 126 255).
Proof.
  apply (xid_encoding_identity 5 1 1 ([1; 2] ++ replicate 126 0)
           5 1 1 ([1; 2] ++ replicate 126 255) (replicate 144 0));
    first [reflexivity | unfold fits_i64; lia].
Defined.
