(* ===== verification/RowLock.v ===== *)
(** * The pessimistic row-lock manager (plugin/tidesdb_row_lock.{h,cc})

    The shared memory of the lock manager is a record: the lock entries (never
    freed), one hash chain and one mutex per partition, and the part of every
    connection's [tidesdb_trx_t] the manager uses, with a program counter that
    says where in [row_lock_acquire] or [row_locks_release_all] the connection
    stands.  Pointers are numbers, null is [None].  [row_lock_acquire] blocks,
    so it is cut at the points where another thread can interfere: every
    critical section and every atomic load of the deadlock walk is one
    executable segment, and the step relation interleaves the segments of all
    connections (sequentially consistent).  The walk started with the partition
    mutex held keeps it; condition variables may wake spuriously.

    This file holds the definitions; RowLockInv.v proves the invariants of the
    step relation and RowLockLive.v the properties built on them. *)

From Stdlib Require Import ZArith Lia.
From stdpp Require Import base tactics list numbers gmap relations.
From S2P Require Import Prelude Errors.

Definition ROW_LOCK_PARTITIONS : Z := 65536.
Definition DEADLOCK_MAX_DEPTH : nat := 100.

(** ** State *)

Record row_lock := mk_lock {
  rl_pk : bytes;
  owner_txn_id : Z;
  owner_trx : option nat;
  waiters : Z;
  held_next : option nat;
  rl_partition : Z
}.

(** Where a deadlock walk stands: before its first load, at the top of the loop
    with [cur] loaded, or between the two loads of the loop body. *)
Inductive walk :=
| WStart
| WTrx (cur : option nat) (depth : nat)
| WLock (l : nat) (depth : nat).

Inductive pc :=
| Ready (last : ha_rc)                 (* outside the lock manager *)
| Walk1 (l : nat) (w : walk)           (* line 179: first walk, mutex free *)
| PostWalk (l : nat) (deadlock : bool) (* line 181: about to re-lock *)
| Claimed (l : nat)                    (* line 198: owner stored, wait intent not yet cleared *)
| LoopHead (l : nat)                   (* line 216, mutex held *)
| LoopWalk (l : nat) (w : walk)        (* line 229, mutex held *)
| Asleep (l : nat) (signalled : bool)  (* line 234, inside mysql_cond_wait *)
| LoopExit (l : nat)                   (* line 251, mutex held *)
| Releasing (cur : option nat).        (* line 268 *)

Record trx := mk_trx {
  lock_txn_id : Z;
  held_locks_head : option nat;
  waiting_on : option nat;
  t_pc : pc
}.

Record lock_table := mk_table {
  locks : gmap nat row_lock;
  next_lock : nat;                (* address the next allocation returns *)
  chains : gmap Z (list nat);     (* hash chain of every partition, head first *)
  mutexes : gmap Z nat;           (* partition mutexes that are held, and by whom *)
  trxs : gmap nat trx
}.

Definition set_locks (f : gmap nat row_lock -> gmap nat row_lock) (st : lock_table) : lock_table :=
  mk_table (f (locks st)) (next_lock st) (chains st) (mutexes st) (trxs st).
Definition set_mutexes (f : gmap Z nat -> gmap Z nat) (st : lock_table) : lock_table :=
  mk_table (locks st) (next_lock st) (chains st) (f (mutexes st)) (trxs st).
Definition set_trxs (f : gmap nat trx -> gmap nat trx) (st : lock_table) : lock_table :=
  mk_table (locks st) (next_lock st) (chains st) (mutexes st) (f (trxs st)).

Definition with_pc (p : pc) (x : trx) : trx :=
  mk_trx (lock_txn_id x) (held_locks_head x) (waiting_on x) p.
Definition with_wait (w : option nat) (x : trx) : trx :=
  mk_trx (lock_txn_id x) (held_locks_head x) w (t_pc x).
Definition with_head (h : option nat) (x : trx) : trx :=
  mk_trx (lock_txn_id x) h (waiting_on x) (t_pc x).
Definition with_waiters (n : Z) (e : row_lock) : row_lock :=
  mk_lock (rl_pk e) (owner_txn_id e) (owner_trx e) n (held_next e) (rl_partition e).

Definition put_trx (t : nat) (x : trx) : lock_table -> lock_table := set_trxs (insert t x).
Definition put_lock (l : nat) (e : row_lock) : lock_table -> lock_table := set_locks (insert l e).
Definition lock_mutex (p : Z) (t : nat) : lock_table -> lock_table := set_mutexes (insert p t).
Definition unlock_mutex (p : Z) : lock_table -> lock_table := set_mutexes (delete p).

Section Manager.

(** [XXH3_64bits] comes from the engine's bundled xxhash; any function will do. *)
Variable XXH3_64bits : bytes -> Z.

Definition tdb_lock_part (key : bytes) : Z := u64 (XXH3_64bits key) mod ROW_LOCK_PARTITIONS.

(** ** Lines 58-84: the hash chain *)

Fixpoint chain_find (ls : gmap nat row_lock) (chain : list nat) (pk : bytes) : option nat :=
  match chain with
  | [] => None
  | l :: rest =>
    match ls !! l with
    | Some e => if bool_decide (rl_pk e = pk) then Some l else chain_find ls rest pk
    | None => chain_find ls rest pk
    end
  end.

(** [alloc] tells whether the two allocations succeed. *)
Definition tdb_lock_find_or_create (st : lock_table) (part_idx : Z) (pk : bytes) (alloc : bool)
    : option (nat * lock_table) :=
  let chain := default [] (chains st !! part_idx) in
  match chain_find (locks st) chain pk with
  | Some l => Some (l, st)
  | None =>
    if alloc then
      let l := next_lock st in
      Some (l, mk_table (<[l := mk_lock pk 0 None 0 None part_idx]> (locks st)) (l + 1)
                 (<[part_idx := l :: chain]> (chains st)) (mutexes st) (trxs st))
    else None
  end.

(** ** Lines 97-124: the deadlock walk *)

(** The walk in one go, on a frozen state: [fuel] is what is left of
    [DEADLOCK_MAX_DEPTH]. *)
Fixpoint walk_from (st : lock_table) (requestor : nat) (fuel : nat) (cur : option nat) : bool :=
  match fuel, cur with
  | S fuel', Some c =>
    if bool_decide (c = requestor) then true
    else match trxs st !! c ≫= waiting_on with
         | None => false
         | Some l => walk_from st requestor fuel' (locks st !! l ≫= owner_trx)
         end
  | _, _ => false
  end.

Definition tdb_lock_would_deadlock (st : lock_table) (requestor target : nat) : bool :=
  walk_from st requestor DEADLOCK_MAX_DEPTH (locks st !! target ≫= owner_trx).

(** One atomic load of the walk; [inr] is the walk's answer. Dereferencing a
    freed transaction is [None]: the step does not exist. *)
Definition walk_step (st : lock_table) (requestor target : nat) (w : walk) : option (walk + bool) :=
  match w with
  | WStart =>
      e ← locks st !! target; Some (inl (WTrx (owner_trx e) 0))
  | WTrx None _ => Some (inr false)
  | WTrx (Some c) depth =>
      if Nat.ltb depth DEADLOCK_MAX_DEPTH then
        if bool_decide (c = requestor) then Some (inr true)
        else x ← trxs st !! c;
             match waiting_on x with
             | None => Some (inr false)
             | Some l => Some (inl (WLock l depth))
             end
      else Some (inr false)
  | WLock l depth =>
      e ← locks st !! l; Some (inl (WTrx (owner_trx e) (depth + 1)))
  end.

(** ** Lines 138-257: acquiring *)

(** The four stores of a claim (lines 165-168, 194-197, 251-254). *)
Definition claim (st : lock_table) (t : nat) (x : trx) (l : nat) (e : row_lock) : lock_table :=
  put_lock l (mk_lock (rl_pk e) (lock_txn_id x) (Some t) (waiters e) (held_locks_head x)
                (rl_partition e)) st.

(** Lines 140-177, one critical section. *)
Definition acquire_enter (st : lock_table) (t : nat) (key : bytes) (alloc : bool)
    : option lock_table :=
  x ← trxs st !! t;
  match t_pc x with
  | Ready _ =>
    let part_idx := tdb_lock_part key in
    match mutexes st !! part_idx with
    | Some _ => None
    | None =>
      match tdb_lock_find_or_create st part_idx key alloc with
      | None => Some (put_trx t (with_pc (Ready HA_ERR_OUT_OF_MEM) x) st)
      | Some (l, st) =>
        e ← locks st !! l;
        if bool_decide (owner_txn_id e = lock_txn_id x) && bool_decide (owner_trx e = Some t)
        then Some (put_trx t (with_pc (Ready HA_OK) x) st)
        else if bool_decide (owner_txn_id e = 0)
        then Some (put_trx t (with_pc (Ready HA_OK) (with_head (Some l) x)) (claim st t x l e))
        else Some (put_trx t (with_pc (Walk1 l WStart) (with_wait (Some l) x)) st)
      end
    end
  | _ => None
  end.

(** Line 179: one load of the first walk. *)
Definition acquire_walk (st : lock_table) (t : nat) : option lock_table :=
  x ← trxs st !! t;
  match t_pc x with
  | Walk1 l w =>
    r ← walk_step st t l w;
    Some (put_trx t (with_pc (match r with inl w' => Walk1 l w' | inr b => PostWalk l b end) x) st)
  | _ => None
  end.

(** Lines 181-201 and 213: re-lock, give up, claim or join the waiters. *)
Definition acquire_after_walk (st : lock_table) (t : nat) : option lock_table :=
  x ← trxs st !! t;
  match t_pc x with
  | PostWalk l deadlock =>
    e ← locks st !! l;
    match mutexes st !! rl_partition e with
    | Some _ => None
    | None =>
      if (deadlock : bool)
      then Some (put_trx t (with_pc (Ready HA_ERR_LOCK_DEADLOCK) (with_wait None x)) st)
      else if bool_decide (owner_txn_id e = 0)
      then Some (put_trx t (with_pc (Claimed l) (with_head (Some l) x))
                   (lock_mutex (rl_partition e) t (claim st t x l e)))
      else Some (put_trx t (with_pc (LoopHead l) x)
                   (lock_mutex (rl_partition e) t (put_lock l (with_waiters (waiters e + 1) e) st)))
    end
  | _ => None
  end.

(** Lines 198-200. *)
Definition acquire_clear_wait (st : lock_table) (t : nat) : option lock_table :=
  x ← trxs st !! t;
  match t_pc x with
  | Claimed l =>
    e ← locks st !! l;
    Some (put_trx t (with_pc (Ready HA_OK) (with_wait None x)) (unlock_mutex (rl_partition e) st))
  | _ => None
  end.

(** Lines 236-248: leaving the loop without the lock. *)
Definition leave_loop (st : lock_table) (t : nat) (x : trx) (l : nat) (e : row_lock) (rc : ha_rc)
    : lock_table :=
  put_trx t (with_pc (Ready rc) (with_wait None x))
    (unlock_mutex (rl_partition e) (put_lock l (with_waiters (waiters e - 1) e) st)).

(** Lines 216-223 and, when the condition fails, 236-237; [killed] is what
    [thd && thd_killed(thd)] says. *)
Definition acquire_loop_head (st : lock_table) (t : nat) (killed : bool) : option lock_table :=
  x ← trxs st !! t;
  match t_pc x with
  | LoopHead l =>
    e ← locks st !! l;
    if bool_decide (owner_txn_id e <> 0) && bool_decide (owner_trx e <> Some t)
    then if (killed : bool)
         then Some (leave_loop st t x l e HA_ERR_LOCK_WAIT_TIMEOUT)
         else Some (put_trx t (with_pc (LoopWalk l WStart) x) st)
    else Some (put_trx t (with_pc (LoopExit l) (with_wait None x))
                 (put_lock l (with_waiters (waiters e - 1) e) st))
  | _ => None
  end.

(** Lines 229-234: one load of the walk in the loop; when it ends, bail out or
    release the mutex and sleep. *)
Definition acquire_loop_walk (st : lock_table) (t : nat) : option lock_table :=
  x ← trxs st !! t;
  match t_pc x with
  | LoopWalk l w =>
    r ← walk_step st t l w;
    match r with
    | inl w' => Some (put_trx t (with_pc (LoopWalk l w') x) st)
    | inr true => e ← locks st !! l; Some (leave_loop st t x l e HA_ERR_LOCK_DEADLOCK)
    | inr false =>
        e ← locks st !! l;
        Some (put_trx t (with_pc (Asleep l false) x) (unlock_mutex (rl_partition e) st))
    end
  | _ => None
  end.

(** [mysql_cond_wait] returns, signalled or not, holding the mutex. *)
Definition acquire_wake (st : lock_table) (t : nat) : option lock_table :=
  x ← trxs st !! t;
  match t_pc x with
  | Asleep l _ =>
    e ← locks st !! l;
    match mutexes st !! rl_partition e with
    | Some _ => None
    | None => Some (put_trx t (with_pc (LoopHead l) x) (lock_mutex (rl_partition e) t st))
    end
  | _ => None
  end.

(** Lines 250-256. *)
Definition acquire_claim_exit (st : lock_table) (t : nat) : option lock_table :=
  x ← trxs st !! t;
  match t_pc x with
  | LoopExit l =>
    e ← locks st !! l;
    Some (put_trx t (with_pc (Ready HA_OK) (with_head (Some l) x))
            (unlock_mutex (rl_partition e) (claim st t x l e)))
  | _ => None
  end.

(** ** Lines 263-285: releasing *)

(** [mysql_cond_broadcast] on the condition variable of [l]. *)
Definition wake_sleeper (l : nat) (x : trx) : trx :=
  match t_pc x with
  | Asleep l' _ => if bool_decide (l' = l) then with_pc (Asleep l' true) x else x
  | _ => x
  end.
Definition cond_broadcast (l : nat) : lock_table -> lock_table := set_trxs (fmap (wake_sleeper l)).

(** Lines 265-267. *)
Definition release_start (st : lock_table) (t : nat) : option lock_table :=
  x ← trxs st !! t;
  match t_pc x with
  | Ready _ => Some (put_trx t (with_pc (Releasing (held_locks_head x)) x) st)
  | _ => None
  end.

(** Lines 268-284: one iteration of the loop, or its end. *)
Definition release_next (st : lock_table) (t : nat) : option lock_table :=
  x ← trxs st !! t;
  match t_pc x with
  | Releasing (Some l) =>
    e ← locks st !! l;
    match mutexes st !! rl_partition e with
    | Some _ => None
    | None =>
      let st := put_trx t (with_pc (Releasing (held_next e)) x)
                  (put_lock l (mk_lock (rl_pk e) 0 None (waiters e) None (rl_partition e)) st) in
      Some (if 0 <? waiters e then cond_broadcast l st else st)
    end
  | Releasing None =>
      Some (put_trx t (with_pc (Ready HA_OK) (with_wait None (with_head None x))) st)
  | _ => None
  end.

(** ** The connection around the manager (ha_tidesdb.cc) *)

(** [get_or_create_trx], the part the manager sees. *)
Definition connect (st : lock_table) (t : nat) : option lock_table :=
  match trxs st !! t with
  | Some _ => None
  | None => Some (put_trx t (mk_trx 1 None None (Ready HA_OK)) st)
  end.

(** A walk in progress holds the read side of [g_trx_lifecycle_lock]. *)
Definition walking (x : trx) : bool :=
  match t_pc x with Walk1 _ _ | LoopWalk _ _ => true | _ => false end.

(** [tidesdb_close_connection] after its [row_locks_release_all]: [my_free] under
    the write side of the lifecycle lock. *)
Definition close_connection (st : lock_table) (t : nat) : option lock_table :=
  x ← trxs st !! t;
  match t_pc x with
  | Ready _ =>
    if bool_decide (held_locks_head x = None)
       && bool_decide (map_Forall (fun _ y => walking y = false) (trxs st))
    then Some (set_trxs (delete t) st) else None
  | _ => None
  end.

(** [tidesdb_hton_kill_query]: wake whatever lock the victim waits on. *)
Definition hton_kill_query (st : lock_table) (t : nat) : option lock_table :=
  x ← trxs st !! t;
  match waiting_on x with
  | None => Some st
  | Some l =>
    e ← locks st !! l;
    if rl_partition e <? ROW_LOCK_PARTITIONS then
      match mutexes st !! rl_partition e with
      | Some _ => None
      | None => Some (cond_broadcast l st)
      end
    else Some st
  end.

(** ** Interleaving *)

Inductive step : lock_table -> lock_table -> Prop :=
| step_connect st t st' : connect st t = Some st' -> step st st'
| step_enter st t key alloc st' : acquire_enter st t key alloc = Some st' -> step st st'
| step_walk st t st' : acquire_walk st t = Some st' -> step st st'
| step_after_walk st t st' : acquire_after_walk st t = Some st' -> step st st'
| step_clear_wait st t st' : acquire_clear_wait st t = Some st' -> step st st'
| step_loop_head st t killed st' : acquire_loop_head st t killed = Some st' -> step st st'
| step_loop_walk st t st' : acquire_loop_walk st t = Some st' -> step st st'
| step_wake st t st' : acquire_wake st t = Some st' -> step st st'
| step_claim_exit st t st' : acquire_claim_exit st t = Some st' -> step st st'
| step_release_start st t st' : release_start st t = Some st' -> step st st'
| step_release_next st t st' : release_next st t = Some st' -> step st st'
| step_close st t st' : close_connection st t = Some st' -> step st st'
| step_kill st t st' : hton_kill_query st t = Some st' -> step st st'.

(** [tdb_row_lock_init]: empty chains, free mutexes, no connection. *)
Definition tdb_row_lock_init : lock_table := mk_table ∅ 0 ∅ ∅ ∅.

(** Lines 304-321: the entries in the order they are freed. *)
Definition tdb_row_lock_destroy (st : lock_table) : list nat :=
  seq 0 (Z.to_nat ROW_LOCK_PARTITIONS) ≫= fun i => default [] (chains st !! Z.of_nat i).

Definition reachable (st : lock_table) : Prop := rtc step tdb_row_lock_init st.

End Manager.
