(* ===== verification/RowLockInv.v ===== *)
(** * Invariants of the row-lock manager

    The step relation of RowLock.v is first cut into effects (one constructor
    per branch of a segment); then four invariants are proved of every reachable
    state: the structure of the hash table, the exactness of the waiter count,
    who may hold a mutex, sleep or walk where, and the exactness of the held
    lists. *)

From Stdlib Require Import ZArith Lia.
From stdpp Require Import base tactics list numbers gmap relations.
From S2P Require Import Prelude Errors RowLock.

Section Manager.
Variable XXH3_64bits : bytes -> Z.
Local Notation tdb_lock_part := (tdb_lock_part XXH3_64bits).
Local Notation step := (step XXH3_64bits).
Local Notation reachable := (reachable XXH3_64bits).

(** ** Steps as effects

    Every segment is one of these state changes, after at most one allocation of
    a lock entry; the invariants below are proved against them. *)

Definition new_lock (st : lock_table) (p : Z) (pk : bytes) : lock_table :=
  mk_table (<[next_lock st := mk_lock pk 0 None 0 None p]> (locks st)) (next_lock st + 1)
    (<[p := next_lock st :: default [] (chains st !! p)]> (chains st)) (mutexes st) (trxs st).

Definition contended (t : nat) (e : row_lock) : Prop :=
  owner_txn_id e <> 0 /\ owner_trx e <> Some t.

Inductive eff (t : nat) : lock_table -> lock_table -> Prop :=
| e_connect st : trxs st !! t = None -> eff t st (put_trx t (mk_trx 1 None None (Ready HA_OK)) st)
| e_close st x rc :
    trxs st !! t = Some x -> t_pc x = Ready rc -> held_locks_head x = None ->
    map_Forall (fun _ y => walking y = false) (trxs st) -> eff t st (set_trxs (delete t) st)
| e_return st x rc rc' :
    trxs st !! t = Some x -> t_pc x = Ready rc -> eff t st (put_trx t (with_pc (Ready rc') x) st)
| e_publish st x rc l e :
    trxs st !! t = Some x -> t_pc x = Ready rc -> locks st !! l = Some e ->
    owner_txn_id e <> 0 -> ~ (owner_txn_id e = lock_txn_id x /\ owner_trx e = Some t) ->
    eff t st (put_trx t (with_pc (Walk1 l WStart) (with_wait (Some l) x)) st)
| e_walk1 st x l w r :
    trxs st !! t = Some x -> t_pc x = Walk1 l w -> walk_step st t l w = Some r ->
    eff t st (put_trx t (with_pc (match r with inl w' => Walk1 l w' | inr b => PostWalk l b end) x) st)
| e_abort st x l :
    trxs st !! t = Some x -> t_pc x = PostWalk l true ->
    eff t st (put_trx t (with_pc (Ready HA_ERR_LOCK_DEADLOCK) (with_wait None x)) st)
| e_claim_enter st x rc l e :
    trxs st !! t = Some x -> t_pc x = Ready rc -> locks st !! l = Some e -> owner_txn_id e = 0 ->
    mutexes st !! rl_partition e = None ->
    eff t st (put_trx t (with_pc (Ready HA_OK) (with_head (Some l) x)) (claim st t x l e))
| e_claim_walk st x l e :
    trxs st !! t = Some x -> t_pc x = PostWalk l false -> locks st !! l = Some e ->
    owner_txn_id e = 0 -> mutexes st !! rl_partition e = None ->
    eff t st (put_trx t (with_pc (Claimed l) (with_head (Some l) x))
                (lock_mutex (rl_partition e) t (claim st t x l e)))
| e_claim_exit st x l e :
    trxs st !! t = Some x -> t_pc x = LoopExit l -> locks st !! l = Some e ->
    eff t st (put_trx t (with_pc (Ready HA_OK) (with_head (Some l) x))
                (unlock_mutex (rl_partition e) (claim st t x l e)))
| e_clear_wait st x l e :
    trxs st !! t = Some x -> t_pc x = Claimed l -> locks st !! l = Some e ->
    eff t st (put_trx t (with_pc (Ready HA_OK) (with_wait None x)) (unlock_mutex (rl_partition e) st))
| e_join st x l e :
    trxs st !! t = Some x -> t_pc x = PostWalk l false -> locks st !! l = Some e ->
    owner_txn_id e <> 0 -> mutexes st !! rl_partition e = None ->
    eff t st (put_trx t (with_pc (LoopHead l) x)
                (lock_mutex (rl_partition e) t (put_lock l (with_waiters (waiters e + 1) e) st)))
| e_leave st x l e rc :
    trxs st !! t = Some x -> (t_pc x = LoopHead l \/ exists w, t_pc x = LoopWalk l w) ->
    locks st !! l = Some e -> eff t st (leave_loop st t x l e rc)
| e_loop_start st x l e :
    trxs st !! t = Some x -> t_pc x = LoopHead l -> locks st !! l = Some e -> contended t e ->
    eff t st (put_trx t (with_pc (LoopWalk l WStart) x) st)
| e_loop_exit st x l e :
    trxs st !! t = Some x -> t_pc x = LoopHead l -> locks st !! l = Some e -> ~ contended t e ->
    eff t st (put_trx t (with_pc (LoopExit l) (with_wait None x))
                (put_lock l (with_waiters (waiters e - 1) e) st))
| e_loop_walk st x l w w' :
    trxs st !! t = Some x -> t_pc x = LoopWalk l w -> walk_step st t l w = Some (inl w') ->
    eff t st (put_trx t (with_pc (LoopWalk l w') x) st)
| e_sleep st x l w e :
    trxs st !! t = Some x -> t_pc x = LoopWalk l w -> locks st !! l = Some e ->
    eff t st (put_trx t (with_pc (Asleep l false) x) (unlock_mutex (rl_partition e) st))
| e_wake st x l sg e :
    trxs st !! t = Some x -> t_pc x = Asleep l sg -> locks st !! l = Some e ->
    mutexes st !! rl_partition e = None ->
    eff t st (put_trx t (with_pc (LoopHead l) x) (lock_mutex (rl_partition e) t st))
| e_release_start st x rc :
    trxs st !! t = Some x -> t_pc x = Ready rc ->
    eff t st (put_trx t (with_pc (Releasing (held_locks_head x)) x) st)
| e_release st x l e :
    trxs st !! t = Some x -> t_pc x = Releasing (Some l) -> locks st !! l = Some e ->
    mutexes st !! rl_partition e = None ->
    let st1 := put_trx t (with_pc (Releasing (held_next e)) x)
                 (put_lock l (mk_lock (rl_pk e) 0 None (waiters e) None (rl_partition e)) st) in
    eff t st (if 0 <? waiters e then cond_broadcast l st1 else st1)
| e_release_end st x :
    trxs st !! t = Some x -> t_pc x = Releasing None ->
    eff t st (put_trx t (with_pc (Ready HA_OK) (with_wait None (with_head None x))) st)
| e_broadcast st l : eff t st (cond_broadcast l st).

Definition alloc_step (st st1 : lock_table) : Prop :=
  st1 = st \/
  exists p pk, st1 = new_lock st p pk /\
    chain_find (locks st) (default [] (chains st !! p)) pk = None /\ p = tdb_lock_part pk.

Ltac unfold_segment H :=
  unfold connect, acquire_enter, acquire_walk, acquire_after_walk, acquire_clear_wait,
    acquire_loop_head, acquire_loop_walk, acquire_wake, acquire_claim_exit, release_start,
    release_next, close_connection, hton_kill_query in H.

(** One goal per outcome of the segment [H]. *)
Ltac step_cases H :=
  destruct H as [? ? ? H|? ? ? ? ? H|? ? ? H|? ? ? H|? ? ? H|? ? ? ? H|? ? ? H|? ? ? H
                |? ? ? H|? ? ? H|? ? ? H|? ? ? H|? ? ? H];
  unfold_segment H;
  repeat (first [progress simplify_option_eq | case_match]; simplify_eq);
  rewrite ?andb_true_iff, ?andb_false_iff, ?bool_decide_eq_true, ?bool_decide_eq_false in *;
  destruct_and?.

Lemma chain_find_Some ls c pk l :
  chain_find ls c pk = Some l -> exists e, ls !! l = Some e /\ rl_pk e = pk /\ l ∈ c.
Proof.
  induction c as [|a c IH]; simpl; intros H; [done|].
  destruct (ls !! a) as [e|] eqn:Ha.
  - case_bool_decide; simplify_eq.
    + exists e. repeat split; auto. constructor.
    + destruct IH as (e' & ? & ? & ?); auto. exists e'. repeat split; auto. by constructor.
  - destruct IH as (e' & ? & ? & ?); auto. exists e'. repeat split; auto. by constructor.
Qed.

(** Entries sit in the chain of the partition their key hashes to. *)
Definition chains_ok (st : lock_table) : Prop :=
  forall p c l, chains st !! p = Some c -> l ∈ c ->
    exists e, locks st !! l = Some e /\ rl_partition e = p.

Lemma find_or_create_spec st pk alloc l st1 :
  chains_ok st ->
  tdb_lock_find_or_create st (tdb_lock_part pk) pk alloc = Some (l, st1) ->
  alloc_step st st1 /\ trxs st1 = trxs st /\ mutexes st1 = mutexes st /\
  exists e, locks st1 !! l = Some e /\ rl_partition e = tdb_lock_part pk /\ rl_pk e = pk.
Proof.
  intros Hc H. unfold tdb_lock_find_or_create in H.
  destruct (chain_find (locks st) _ pk) as [l0|] eqn:Hf.
  - simplify_eq. split; [by left|]. repeat split.
    apply chain_find_Some in Hf as (e & He & Hpk & Hin). exists e.
    destruct (chains st1 !! tdb_lock_part pk) as [c|] eqn:Hch; cbn in Hin; [|by inversion Hin].
    destruct (Hc _ _ _ Hch Hin) as (e' & He' & Hp). by simplify_eq.
  - destruct alloc; simplify_eq. split; [right; by exists (tdb_lock_part pk), pk|].
    repeat split. cbn. rewrite lookup_insert_eq. by eexists.
Qed.

Lemma step_eff st st' :
  chains_ok st -> step st st' ->
  exists t st1, alloc_step st st1 /\ (st' = st1 \/ eff t st1 st').
Proof.
  intros Hc H.
  assert (Hid : alloc_step st st) by by left.
  step_cases H.
  all: try match goal with
       | H : tdb_lock_find_or_create _ _ _ _ = Some (_, _) |- _ =>
           apply find_or_create_spec in H as (Ha & Et & Em & e' & He' & Hp' & _); [|done];
           simplify_eq;
           match goal with T : trxs _ !! _ = Some _ |- _ => rewrite <- Et in T end;
           match goal with M : mutexes _ !! _ = None |- _ => rewrite <- Em, <- Hp' in M end;
           eexists _, _; split; [exact Ha|right]
       end.
  all: try (eexists 0%nat, _; split; [exact Hid|by left]).
  all: try (eexists _, _; split; [exact Hid|right]).
  all: try by apply (e_broadcast 0%nat).
  all: try by (econstructor; eauto; unfold contended; naive_solver).
  - by eapply (e_walk1 _ _ _ _ _ (inl _)).
  - by eapply (e_walk1 _ _ _ _ _ (inr _)).
  - match goal with W : (0 <? waiters ?e) = true |- _ =>
      epose proof (e_release _ _ _ _ e) as E; cbv zeta in E; rewrite W in E; by eapply E end.
  - match goal with W : (0 <? waiters ?e) = false |- _ =>
      epose proof (e_release _ _ _ _ e) as E; cbv zeta in E; rewrite W in E; by eapply E end.
Qed.

(** ** Structural invariant *)

Definition pc_lock (p : pc) : option nat :=
  match p with
  | Walk1 l _ | PostWalk l _ | Claimed l | LoopHead l | LoopWalk l _ | Asleep l _ | LoopExit l =>
      Some l
  | Ready _ | Releasing _ => None
  end.

(** The wait intent other connections see, as a function of where the
    connection stands. *)
Definition wait_of (p : pc) : option nat :=
  match p with
  | Walk1 l _ | PostWalk l _ | Claimed l | LoopHead l | LoopWalk l _ | Asleep l _ => Some l
  | Ready _ | Releasing _ | LoopExit _ => None
  end.

(** The two owner fields agree: every transaction's id is 1. *)
Definition owner_ok (e : row_lock) : Prop :=
  owner_txn_id e = match owner_trx e with Some _ => 1 | None => 0 end.

Lemma owner_free e : owner_ok e -> owner_txn_id e = 0 <-> owner_trx e = None.
Proof. unfold owner_ok. by destruct (owner_trx e); intros ->. Qed.

(** Entries lie below the allocation pointer and in the chain of their key's
    partition, each key has one entry, the two owner fields agree, and every
    connection's id, wait intent and lock pointer are what its position says. *)
Record inv_struct (st : lock_table) : Prop := {
  is_lt l e : locks st !! l = Some e -> (l < next_lock st)%nat;
  is_chains : chains_ok st;
  is_inchain l e : locks st !! l = Some e ->
    rl_partition e = tdb_lock_part (rl_pk e) /\ l ∈ default [] (chains st !! rl_partition e);
  is_unique l1 l2 e1 e2 :
    locks st !! l1 = Some e1 -> locks st !! l2 = Some e2 -> rl_pk e1 = rl_pk e2 -> l1 = l2;
  is_owner l e : locks st !! l = Some e -> owner_ok e;
  is_trx t x : trxs st !! t = Some x ->
    lock_txn_id x = 1 /\ waiting_on x = wait_of (t_pc x) /\
    forall l, pc_lock (t_pc x) = Some l -> is_Some (locks st !! l)
}.

(** What an effect may do to a lock entry: key and partition stay. *)
Definition locks_frame (st st' : lock_table) : Prop :=
  next_lock st' = next_lock st /\ chains st' = chains st /\
  (forall l e', locks st' !! l = Some e' ->
     exists e, locks st !! l = Some e /\ rl_pk e' = rl_pk e /\ rl_partition e' = rl_partition e) /\
  (forall l, is_Some (locks st !! l) -> is_Some (locks st' !! l)).

Lemma frame_refl st f g : locks_frame st (set_trxs f (set_mutexes g st)).
Proof. repeat split; cbn; eauto. Qed.

Lemma frame_put st l e e' f g :
  locks st !! l = Some e -> rl_pk e' = rl_pk e -> rl_partition e' = rl_partition e ->
  locks_frame st (set_trxs f (set_mutexes g (put_lock l e' st))).
Proof.
  intros He Hpk Hp. repeat split; cbn.
  - intros k e'' [[<- <-]|[_ Hk]]%lookup_insert_Some; eauto.
  - intros k Hk. by apply lookup_insert_is_Some'; right.
Qed.

Lemma mutexes_id st : set_mutexes id st = st.
Proof. by destruct st. Qed.

Lemma eff_frame t st st' : eff t st st' -> locks_frame st st'.
Proof.
  destruct 1 as [| | | | | | | | | | | | | | | | | |st x l e| |]; unfold leave_loop, claim in *.
  all: try first [apply (frame_refl st _ id) | apply (frame_refl st _ (delete _))
                 | apply (frame_refl st _ (insert _ _))].
  all: try first [by apply (frame_put st l e _ _ id) | by apply (frame_put st l e _ _ (delete _))
                 | by apply (frame_put st l e _ _ (insert _ _))].
  case_match; [by apply (frame_put st l e _ (fun m => wake_sleeper l <$> <[t := _]> m) id)
              |by apply (frame_put st l e _ _ id)].
Qed.

(** What a connection's record says about itself. *)
Definition trx_local (ls : gmap nat row_lock) (x : trx) : Prop :=
  lock_txn_id x = 1 /\ waiting_on x = wait_of (t_pc x) /\
  forall l, pc_lock (t_pc x) = Some l -> is_Some (ls !! l).

Lemma trx_local_wake ls l x : trx_local ls x -> trx_local ls (wake_sleeper l x).
Proof.
  destruct x as [i h w []]; unfold wake_sleeper; cbn; try done.
  case_bool_decide; done.
Qed.

Lemma trx_local_mono ls ls' x :
  (forall l, is_Some (ls !! l) -> is_Some (ls' !! l)) -> trx_local ls x -> trx_local ls' x.
Proof. intros Hm (? & ? & ?). repeat split; auto. Qed.

Lemma eff_owner t st st' :
  map_Forall (fun _ => owner_ok) (locks st) -> map_Forall (fun _ => trx_local (locks st)) (trxs st) ->
  eff t st st' -> map_Forall (fun _ => owner_ok) (locks st').
Proof.
  intros Ho Ht H. destruct H; unfold leave_loop, claim in *; cbn; try done.
  all: try (case_match; cbn).
  all: apply map_Forall_insert_2; [|done].
  all: try (by specialize (Ho _ _ ltac:(eassumption))).
  all: try done.
  all: match goal with T : trxs _ !! _ = Some _ |- _ => apply Ht in T as [-> _] end; done.
Qed.

Lemma eff_local t st st' :
  map_Forall (fun _ => trx_local (locks st)) (trxs st) ->
  eff t st st' -> map_Forall (fun _ => trx_local (locks st')) (trxs st').
Proof.
  intros Ht H. pose proof (eff_frame _ _ _ H) as (_ & _ & _ & Hmono).
  assert (Ht' : map_Forall (fun _ => trx_local (locks st')) (trxs st)).
  { intros u y Hu. eapply trx_local_mono; [done|]. by apply (Ht u). }
  clear Ht. destruct H; unfold leave_loop, claim in *; cbn in *.
  all: try (case_match; cbn).
  all: try (apply map_Forall_delete; done).
  all: repeat (apply map_Forall_fmap; intros u y Hu; apply trx_local_wake; revert u y Hu;
               match goal with |- forall u y, ?m !! u = Some y -> ?P => change (map_Forall (fun _ y => P) m) end).
  all: try done.
  all: apply map_Forall_insert_2; [|done].
  all: try match goal with T : trxs _ !! _ = Some _ |- _ => apply Ht' in T as (Hi & Hw & Hl) end.
  all: try match goal with P : _ \/ _ |- _ => destruct P as [P|[? P]] end.
  all: try match goal with P : t_pc _ = _ |- _ => rewrite P in Hw, Hl; cbn in Hw, Hl end.
  all: repeat split; cbn; try done; try (intros ? [= <-]; eauto); try congruence.
Qed.

Lemma inv_struct_eff t st st' : inv_struct st -> eff t st st' -> inv_struct st'.
Proof.
  intros [Hlt Hch Hin Hun Ho Ht] H.
  assert (Ho' : map_Forall (fun _ => owner_ok) (locks st)) by exact Ho.
  assert (Ht' : map_Forall (fun _ => trx_local (locks st)) (trxs st)) by exact Ht.
  pose proof (eff_owner _ _ _ Ho' Ht' H) as Ho2. pose proof (eff_local _ _ _ Ht' H) as Ht2.
  destruct (eff_frame _ _ _ H) as (En & Ec & Hback & Hmono).
  split; [| | | |exact Ho2|exact Ht2].
  - intros l e (e0 & He0 & _)%Hback. rewrite En. eauto.
  - intros p c l Hp Hl. rewrite Ec in Hp. destruct (Hch _ _ _ Hp Hl) as (e & He & Hpe).
    destruct (Hmono l) as [e' He']; [eauto|]. exists e'. split; [done|].
    destruct (Hback _ _ He') as (e0 & ? & _ & ?). by simplify_eq.
  - intros l e (e0 & He0 & Hpk & Hpa)%Hback. rewrite Hpk, Hpa, Ec. eauto.
  - intros l1 l2 e1 e2 (a & Ha & Hpa & _)%Hback (b & Hb & Hpb & _)%Hback.
    rewrite Hpa, Hpb. eauto.
Qed.

Lemma chain_find_None ls c pk l e :
  chain_find ls c pk = None -> l ∈ c -> ls !! l = Some e -> rl_pk e <> pk.
Proof.
  induction c as [|a c IH]; simpl; intros H Hl He; [by inversion Hl|].
  apply elem_of_cons in Hl as [->|Hl].
  - rewrite He in H. by case_bool_decide.
  - destruct (ls !! a); [case_bool_decide; [done|]|]; eauto.
Qed.

Lemma inv_struct_alloc st st1 : inv_struct st -> alloc_step st st1 -> inv_struct st1.
Proof.
  intros I [->|(p & pk & -> & Hf & ->)]; [done|]. destruct I as [Hlt Hch Hin Hun Ho Ht].
  assert (Hfresh : locks st !! next_lock st = None).
  { destruct (locks st !! next_lock st) eqn:E; [|done]. apply Hlt in E. lia. }
  assert (Hnew : forall l e, locks st !! l = Some e -> rl_pk e <> pk).
  { intros l e He Hpk. destruct (Hin _ _ He) as [Hp Hc]. rewrite Hp, Hpk in Hc.
    by apply (chain_find_None _ _ _ _ _ Hf Hc He). }
  split; cbn.
  - intros l e [[<- <-]|[_ Hl]]%lookup_insert_Some; [lia|]. apply Hlt in Hl. lia.
  - intros q c l Hq Hl. cbn in Hq |- *. apply lookup_insert_Some in Hq as [[<- <-]|[Hne Hq]].
    + apply elem_of_cons in Hl as [->|Hl]; [rewrite lookup_insert_eq; eauto|].
      destruct (chains st !! tdb_lock_part pk) as [c|] eqn:Hc; [|by inversion Hl].
      destruct (Hch _ _ _ Hc Hl) as (e & He & ?). exists e. split; [|done].
      rewrite lookup_insert_ne; [done|]. intros <-. congruence.
    + destruct (Hch _ _ _ Hq Hl) as (e & He & ?). exists e. split; [|done].
      rewrite lookup_insert_ne; [done|]. intros <-. congruence.
  - intros l e [[<- <-]|[_ Hl]]%lookup_insert_Some.
    + cbn. split; [done|]. rewrite lookup_insert_eq. constructor.
    + destruct (Hin _ _ Hl) as [Hp Hc]. split; [done|].
      rewrite lookup_insert. case_decide as Heq; [|done]. rewrite <- Heq in Hc.
      cbn. by apply elem_of_cons; right.
  - intros l1 l2 e1 e2 [[<- <-]|[_ H1]]%lookup_insert_Some [[<- <-]|[_ H2]]%lookup_insert_Some;
      cbn; intros E; try done.
    + by destruct (Hnew _ _ H2).
    + by destruct (Hnew _ _ H1).
    + eauto.
  - intros l e [[<- <-]|[_ Hl]]%lookup_insert_Some; [done|eauto].
  - intros t x Hx. eapply (trx_local_mono (locks st)); [|by apply (Ht t)].
    intros l Hl. apply lookup_insert_is_Some'. by right.
Qed.

Lemma inv_struct_step st st' : inv_struct st -> step st st' -> inv_struct st'.
Proof.
  intros I H. apply step_eff in H as (t & st1 & Ha & H); [|apply I].
  apply inv_struct_alloc in Ha; [|done]. destruct H as [->|H]; [done|].
  by eapply inv_struct_eff.
Qed.

Lemma inv_struct_init : inv_struct tdb_row_lock_init.
Proof. split; intros; try intros ?; set_solver. Qed.

(** ** The waiter count *)

(** The connection is between lines 213 and 236 for lock [l]. *)
Definition in_loop (l : nat) (x : trx) : bool :=
  match t_pc x with
  | LoopHead l' | LoopWalk l' _ | Asleep l' _ => bool_decide (l' = l)
  | _ => false
  end.

Definition loop_count (l : nat) (m : gmap nat trx) : Z :=
  Z.of_nat (size (filter (fun p : nat * trx => in_loop l p.2 = true) m)).

Lemma loop_count_new l m t x :
  m !! t = None -> loop_count l (<[t := x]> m) = Z.b2z (in_loop l x) + loop_count l m.
Proof.
  intros Hm. unfold loop_count. destruct (in_loop l x) eqn:E.
  - rewrite map_filter_insert_True by done. rewrite map_size_insert_None; [cbn; lia|].
    apply map_lookup_filter_None. by left.
  - rewrite map_filter_insert_False by (cbn; congruence). rewrite delete_id by done. cbn. lia.
Qed.

Lemma loop_count_put l m t x x' :
  m !! t = Some x ->
  loop_count l (<[t := x']> m) = loop_count l m - Z.b2z (in_loop l x) + Z.b2z (in_loop l x').
Proof.
  intros Hm. rewrite <- (insert_id m t x) at 2 by done.
  rewrite <- !(insert_delete_eq m t), !loop_count_new by apply lookup_delete_eq. lia.
Qed.

Lemma in_loop_wake l k x : in_loop l (wake_sleeper k x) = in_loop l x.
Proof. destruct x as [i h w []]; unfold wake_sleeper; cbn; try case_bool_decide; done. Qed.

Lemma loop_count_wake l k m : loop_count l (wake_sleeper k <$> m) = loop_count l m.
Proof.
  unfold loop_count. rewrite map_filter_fmap, map_size_fmap. do 2 f_equal.
  apply map_filter_ext. intros i x _. cbn. by rewrite in_loop_wake.
Qed.

Lemma loop_count_delete l m t x :
  m !! t = Some x -> in_loop l x = false -> loop_count l (delete t m) = loop_count l m.
Proof.
  intros Hm Hx. rewrite <- (insert_id m t x) at 2 by done.
  rewrite <- (insert_delete_eq m t), loop_count_new, Hx by apply lookup_delete_eq. done.
Qed.

(** [waiters] counts exactly the connections in the wait loop of the lock. *)
Definition inv_waiters (st : lock_table) : Prop :=
  map_Forall (fun l e => waiters e = loop_count l (trxs st)) (locks st).

Lemma inv_waiters_eff t st st' : inv_waiters st -> eff t st st' -> inv_waiters st'.
Proof.
  intros Hw H. unfold inv_waiters in *. destruct H; unfold leave_loop, claim in *; cbn.
  all: repeat (case_match; cbn).
  all: try match goal with P : _ \/ _ |- _ => destruct P as [P|[? P]] end.
  all: try (intros k ek Hk; rewrite ?loop_count_wake).
  all: try apply lookup_insert_Some in Hk as [[<- <-]|[Hne Hk]]; cbn.
  all: try match goal with L : locks _ !! ?l = Some ?e |- waiters ?e + _ = _ => rewrite (Hw _ _ L)
           | L : locks _ !! ?l = Some ?e |- waiters ?e - _ = _ => rewrite (Hw _ _ L)
           | L : locks _ !! ?l = Some ?e |- waiters ?e = _ => rewrite (Hw _ _ L) end.
  all: try done.
  all: try (rewrite loop_count_new by done; done).
  all: try (erewrite loop_count_delete; [done|eassumption|];
            unfold in_loop; match goal with P : t_pc _ = _ |- _ => by rewrite P end).
  all: erewrite loop_count_put by eassumption; unfold in_loop;
       match goal with P : t_pc _ = _ |- _ => rewrite P end; cbn.
  all: repeat case_bool_decide; simplify_eq; cbn; lia.
Qed.

Lemma inv_waiters_alloc st st1 :
  inv_struct st -> inv_waiters st -> alloc_step st st1 -> inv_waiters st1.
Proof.
  intros I Hw [->|(p & pk & -> & _)]; [done|]. unfold inv_waiters. cbn.
  apply map_Forall_insert_2; [|exact Hw]. cbn. unfold loop_count. symmetry.
  assert (E : filter (fun p : nat * trx => in_loop (next_lock st) p.2 = true) (trxs st) = ∅).
  { apply map_eq. intros t. rewrite lookup_empty. apply map_lookup_filter_None. right.
    intros x Hx Hl. destruct (is_trx _ I _ _ Hx) as (_ & _ & Hpc).
    destruct (Hpc (next_lock st)) as [e He].
    - unfold in_loop in Hl. cbn in Hl. by destruct (t_pc x); try done; apply bool_decide_eq_true in Hl as ->.
    - apply (is_lt _ I) in He. lia. }
  by rewrite E.
Qed.

(** ** Synchronisation: who holds the mutex and who may sleep *)

Definition lock_at (st : lock_table) (l : nat) (P : row_lock -> Prop) : Prop :=
  exists e, locks st !! l = Some e /\ P e.

(** The pointers a walk holds are valid. *)
Definition walk_ok (st : lock_table) (w : walk) : Prop :=
  match w with
  | WStart | WTrx None _ => True
  | WTrx (Some c) _ => is_Some (trxs st !! c)
  | WLock l _ => is_Some (locks st !! l)
  end.

Definition pc_ok (st : lock_table) (t : nat) (p : pc) : Prop :=
  match p with
  | Ready _ | Releasing _ => True
  | Walk1 l w => lock_at st l (fun e => owner_trx e <> Some t) /\ walk_ok st w
  | PostWalk l _ => lock_at st l (fun e => owner_trx e <> Some t)
  | Claimed l => lock_at st l (fun e => mutexes st !! rl_partition e = Some t /\ owner_trx e = Some t)
  | LoopHead l =>
      lock_at st l (fun e => mutexes st !! rl_partition e = Some t /\ owner_trx e <> Some t)
  | LoopWalk l w =>
      lock_at st l (fun e => mutexes st !! rl_partition e = Some t /\ contended t e) /\ walk_ok st w
  | Asleep l signalled =>
      lock_at st l (fun e => owner_trx e <> Some t /\ (signalled = false -> owner_txn_id e <> 0))
  | LoopExit l =>
      lock_at st l (fun e => mutexes st !! rl_partition e = Some t /\ owner_txn_id e = 0)
  end.

(** Owners are live connections; every connection is where it may be. *)
Record inv_sync (st : lock_table) : Prop := {
  sy_owner l e t : locks st !! l = Some e -> owner_trx e = Some t -> is_Some (trxs st !! t);
  sy_pc t x : trxs st !! t = Some x -> pc_ok st t (t_pc x)
}.

(** How the effect of [t] looks to another connection [u] at [p]: entries keep
    their owner, or pass to [t] or become free while [u] does not hold their
    mutex, and [u] is not left asleep unsignalled on a freed one. *)
Definition seen_by (u t : nat) (p : pc) (st st' : lock_table) : Prop :=
  forall l e, locks st !! l = Some e -> exists e', locks st' !! l = Some e' /\
    rl_partition e' = rl_partition e /\
    (mutexes st !! rl_partition e = Some u -> mutexes st' !! rl_partition e = Some u) /\
    ((owner_trx e' = owner_trx e /\ owner_txn_id e' = owner_txn_id e) \/
     (mutexes st !! rl_partition e <> Some u /\ owner_trx e' = Some t /\ owner_txn_id e' <> 0) \/
     (mutexes st !! rl_partition e <> Some u /\ owner_trx e' = None /\ p <> Asleep l false)).

Lemma walk_ok_mono st st' w :
  (forall c, is_Some (trxs st !! c) -> is_Some (trxs st' !! c)) ->
  (forall l, is_Some (locks st !! l) -> is_Some (locks st' !! l)) ->
  walk_ok st w -> walk_ok st' w.
Proof. intros Ht Hl. destruct w as [|[]|]; cbn; auto. Qed.

Lemma pc_ok_seen u t st st' p :
  u <> t -> seen_by u t p st st' ->
  (match p with Walk1 _ w | LoopWalk _ w => walk_ok st w -> walk_ok st' w | _ => True end) ->
  pc_ok st u p -> pc_ok st' u p.
Proof.
  intros Hut Hs Hw.
  assert (Hat : forall l (P Q : row_lock -> Prop), lock_at st l P ->
    (forall e e', P e -> rl_partition e' = rl_partition e ->
      (mutexes st !! rl_partition e = Some u -> mutexes st' !! rl_partition e = Some u) ->
      (owner_trx e' = owner_trx e /\ owner_txn_id e' = owner_txn_id e \/
       mutexes st !! rl_partition e <> Some u /\ owner_trx e' = Some t /\ owner_txn_id e' <> 0 \/
       mutexes st !! rl_partition e <> Some u /\ owner_trx e' = None /\ p <> Asleep l false) ->
      Q e') -> lock_at st' l Q).
  { intros l P Q (e & He & HP) HPQ. destruct (Hs _ _ He) as (e' & He' & ? & ? & ?).
    exists e'. split; [done|]. eauto. }
  destruct p as [| | | | |l w|l sg| |]; cbn [pc_ok]; try done.
  1: intros [H1 H2]; split; [|by apply Hw]; revert H1.
  5: intros [H1 H2]; split; [|by apply Hw]; revert H1.
  all: intros H1; eapply Hat; [exact H1|]; cbn; intros e e' HP Hp Hm Ho.
  all: rewrite ?Hp; unfold contended in *; destruct_and?;
    destruct Ho as [[Ho1 Ho2]|[(Ho1 & Ho2 & Ho3)|(Ho1 & Ho2 & Ho3)]];
    rewrite ?Ho1, ?Ho2; try done; try congruence; repeat split; auto; congruence.
Qed.

(** ** Held lists *)

Fixpoint held_list (ls : gmap nat row_lock) (h : option nat) (l : list nat) : Prop :=
  match l with
  | [] => h = None
  | a :: r => h = Some a /\ exists e, ls !! a = Some e /\ held_list ls (held_next e) r
  end.

(** What is left of the held list: the cursor while releasing. *)
Definition cursor (x : trx) : option nat :=
  match t_pc x with Releasing c => c | _ => held_locks_head x end.

(** Following [held_next] from a connection's head visits exactly the locks it
    owns, each once. *)
Definition holds_exactly (st : lock_table) (t : nat) (x : trx) : Prop :=
  exists l, NoDup l /\ held_list (locks st) (cursor x) l /\
    forall k e, locks st !! k = Some e -> (k ∈ l <-> owner_trx e = Some t).

Definition inv_held (st : lock_table) : Prop := map_Forall (holds_exactly st) (trxs st).

Lemma held_list_ext ls ls' h l :
  (forall k e, k ∈ l -> ls !! k = Some e ->
     exists e', ls' !! k = Some e' /\ held_next e' = held_next e) ->
  held_list ls h l -> held_list ls' h l.
Proof.
  revert h. induction l as [|a r IH]; intros h Hext; [done|]. intros [-> (e & He & Hr)].
  split; [done|]. destruct (Hext a e) as (e' & He' & Hn); [constructor|done|].
  exists e'. split; [done|]. rewrite Hn. apply IH; [|done]. intros. apply Hext; [by constructor|done].
Qed.

(** The record of another connection, or of [t] when its list is not touched. *)
Lemma holds_frame st st' u y y' :
  cursor y' = cursor y ->
  (forall k e', locks st' !! k = Some e' -> exists e, locks st !! k = Some e /\
     (owner_trx e' = Some u <-> owner_trx e = Some u) /\
     (owner_trx e = Some u -> held_next e' = held_next e)) ->
  (forall k, is_Some (locks st !! k) -> is_Some (locks st' !! k)) ->
  holds_exactly st u y -> holds_exactly st' u y'.
Proof.
  intros Hc Hb Hm (l & Hnd & Hl & Hk). exists l. split; [done|]. split.
  - rewrite Hc. eapply held_list_ext; [|exact Hl]. intros k e Hin He.
    destruct (Hm k) as [e' He']; [eauto|]. exists e'. split; [done|].
    destruct (Hb _ _ He') as (e0 & He0 & _ & Hn). simplify_eq. apply Hn. by apply (Hk k e).
  - intros k e' He'. destruct (Hb _ _ He') as (e & He & Ho & _). rewrite Ho. eauto.
Qed.

Lemma cursor_wake l x : cursor (wake_sleeper l x) = cursor x.
Proof. destruct x as [i h w []]; unfold wake_sleeper; cbn; try case_bool_decide; done. Qed.

(** Updating one entry without touching owner and link leaves every list. *)
Lemma holds_same st st' u y y' l e e' :
  locks st !! l = Some e -> locks st' = <[l := e']> (locks st) ->
  owner_trx e' = owner_trx e -> held_next e' = held_next e ->
  cursor y' = cursor y -> holds_exactly st u y -> holds_exactly st' u y'.
Proof.
  intros Hl Hst Ho Hn Hc. apply holds_frame; [done| |].
  - intros k ek. rewrite Hst. intros [[<- <-]|[_ Hk]]%lookup_insert_Some.
    + exists e. by rewrite Ho, Hn.
    + by exists ek.
  - intros k Hk. rewrite Hst. apply lookup_insert_is_Some'. by right.
Qed.

(** Passing an entry from or to another connection leaves [u]'s list. *)
Lemma holds_other st st' u y y' l e e' :
  locks st !! l = Some e -> locks st' = <[l := e']> (locks st) ->
  owner_trx e <> Some u -> owner_trx e' <> Some u ->
  cursor y' = cursor y -> holds_exactly st u y -> holds_exactly st' u y'.
Proof.
  intros Hl Hst Ho Ho' Hc. apply holds_frame; [done| |].
  - intros k ek. rewrite Hst. intros [[<- <-]|[_ Hk]]%lookup_insert_Some.
    + by exists e.
    + by exists ek.
  - intros k Hk. rewrite Hst. apply lookup_insert_is_Some'. by right.
Qed.

(** A claim pushes the entry on the claimer's list. *)
Lemma holds_claim st st' t x x' l e :
  locks st !! l = Some e -> owner_trx e = None ->
  locks st' = locks (claim st t x l e) -> held_locks_head x = cursor x -> cursor x' = Some l ->
  holds_exactly st t x -> holds_exactly st' t x'.
Proof.
  intros Hl Ho Hst Hh Hc (ls & Hnd & Hls & Hk). cbn in Hst. exists (l :: ls).
  assert (Hnin : l ∉ ls) by (intros Hin; apply (Hk l e) in Hin; congruence).
  split; [by constructor|]. split.
  - rewrite Hst. split; [done|]. eexists. rewrite lookup_insert_eq. split; [done|]. cbn.
    rewrite Hh. eapply held_list_ext; [|exact Hls]. intros k ek Hin Hek. exists ek.
    rewrite lookup_insert_ne; [done|]. by intros ->.
  - intros k ek. rewrite Hst. intros [[<- <-]|[Hne Hk']]%lookup_insert_Some; cbn.
    + split; [done|]. intros _. constructor.
    + rewrite elem_of_cons, <- (Hk k ek Hk'). naive_solver.
Qed.

(** A release pops it. *)
Lemma holds_release st st' t x x' l e e' :
  locks st !! l = Some e -> cursor x = Some l -> cursor x' = held_next e ->
  locks st' = <[l := e']> (locks st) -> owner_trx e' = None ->
  holds_exactly st t x -> holds_exactly st' t x'.
Proof.
  intros Hl Hc Hc' Hst Ho' (ls & Hnd & Hls & Hk). destruct ls as [|a ls]; cbn in Hls; [congruence|].
  destruct Hls as [Ea (e0 & He0 & Hls)]. rewrite Hc in Ea. simplify_eq.
  apply NoDup_cons in Hnd as [Hnin Hnd]. exists ls. split; [done|]. split.
  - rewrite Hst, Hc'. eapply held_list_ext; [|exact Hls]. intros k ek Hin Hek. exists ek.
    rewrite lookup_insert_ne; [done|]. by intros <-.
  - intros k ek. rewrite Hst. intros [[<- <-]|[Hne Hk']]%lookup_insert_Some.
    + rewrite Ho'. by split.
    + rewrite <- (Hk k ek Hk'), elem_of_cons. naive_solver.
Qed.

Record inv (st : lock_table) : Prop := {
  inv_s : inv_struct st;
  inv_w : inv_waiters st;
  inv_y : inv_sync st;
  inv_h : inv_held st
}.

Lemma loop_exit_free st t x l e :
  inv st -> trxs st !! t = Some x -> t_pc x = LoopExit l -> locks st !! l = Some e ->
  owner_trx e = None /\ mutexes st !! rl_partition e = Some t.
Proof.
  intros I Hx Hpc Hl. pose proof (sy_pc _ (inv_y _ I) _ _ Hx) as Hok. rewrite Hpc in Hok.
  destruct Hok as (e' & He' & Hm & H0). simplify_eq. split; [|done].
  by apply (owner_free _ (is_owner _ (inv_s _ I) _ _ Hl)).
Qed.


(** One entry and one connection change; the others' lists are not touched. *)
Lemma inv_held_update st st' t x' l e e' :
  inv_held st -> locks st !! l = Some e ->
  trxs st' = <[t := x']> (trxs st) -> locks st' = <[l := e']> (locks st) ->
  (forall u, u <> t -> (owner_trx e' = Some u <-> owner_trx e = Some u) /\
     (owner_trx e = Some u -> held_next e' = held_next e)) ->
  holds_exactly st' t x' -> inv_held st'.
Proof.
  intros Hh Hl Ht Hls Ho Hx u y. rewrite Ht. intros [[<- <-]|[Hne Hu]]%lookup_insert_Some; [done|].
  apply (holds_frame st _ u y); [done| | |by apply Hh].
  - intros k ek. rewrite Hls. intros [[<- <-]|[_ Hk]]%lookup_insert_Some.
    + exists e. split; [done|]. by apply Ho.
    + by exists ek.
  - intros k Hk. rewrite Hls. apply lookup_insert_is_Some'. by right.
Qed.

Lemma inv_held_broadcast st l : inv_held st -> inv_held (cond_broadcast l st).
Proof.
  intros Hh u y Hu. apply lookup_fmap_Some in Hu as (y0 & <- & Hu).
  apply Hh in Hu. revert Hu. unfold holds_exactly. by rewrite cursor_wake.
Qed.

Lemma inv_held_waiters st st' t x x' l e n :
  inv_held st -> trxs st !! t = Some x -> locks st !! l = Some e ->
  trxs st' = <[t := x']> (trxs st) -> locks st' = <[l := with_waiters n e]> (locks st) ->
  cursor x' = cursor x -> inv_held st'.
Proof.
  intros Hh Hx Hl Ht Hls Hc. eapply inv_held_update; [done..| |].
  - intros u _. by split.
  - eapply (holds_same _ _ _ _ _ _ _ _ Hl Hls); try done. by apply Hh.
Qed.

Lemma inv_held_claim st st' t x x' l e :
  inv_held st -> trxs st !! t = Some x -> locks st !! l = Some e -> owner_trx e = None ->
  trxs st' = <[t := x']> (trxs st) -> locks st' = locks (claim st t x l e) ->
  cursor x = held_locks_head x -> cursor x' = Some l -> inv_held st'.
Proof.
  intros Hh Hx Hl Ho Ht Hls Hc Hc'. eapply (inv_held_update _ _ _ _ _ _ _ Hh Hl Ht Hls).
  - intros u Hu. cbn. rewrite Ho. naive_solver.
  - eapply holds_claim; try done. by apply Hh.
Qed.

Lemma inv_held_eff t st st' : inv st -> eff t st st' -> inv_held st'.
Proof.
  intros I H. pose proof (inv_h _ I) as Hh.
  assert (Hsame : forall ls', locks ls' = locks st ->
            map_Forall (holds_exactly ls') (trxs st)).
  { intros ls' E u y Hu. apply Hh in Hu. revert Hu. unfold holds_exactly. by rewrite E. }
  assert (Hfree : forall l e, locks st !! l = Some e -> owner_txn_id e = 0 -> owner_trx e = None).
  { intros l e Hl. apply (owner_free _ (is_owner _ (inv_s _ I) _ _ Hl)). }
  destruct H; unfold leave_loop in *.
  all: try match goal with P : _ \/ _ |- _ => destruct P as [P|[? P]] end.
  (* the connection's own record: same list, other position *)
  all: try (apply map_Forall_insert_2; [|by apply Hsame];
            match goal with T : trxs _ !! _ = Some _, P : t_pc _ = _ |- _ =>
              apply Hh in T; revert T; unfold holds_exactly, cursor; rewrite P; cbn; done end).
  (* one entry's waiter count changes *)
  all: try (match goal with P : t_pc _ = _, T : trxs _ !! _ = Some _, L : locks _ !! _ = Some _ |- _ =>
              eapply (inv_held_waiters _ _ _ _ _ _ _ _ Hh T L); [done..|];
              unfold cursor; by rewrite P end).
  (* an entry is claimed *)
  all: try (match goal with P : t_pc _ = _, T : trxs _ !! _ = Some _, L : locks _ !! _ = Some _ |- _ =>
              eapply (inv_held_claim _ _ _ _ _ _ _ Hh T L); [|done..| |done];
              [first [by eapply Hfree | by eapply loop_exit_free]|unfold cursor; by rewrite P] end).
  - apply map_Forall_insert_2; [|by apply Hsame]. exists []. split; [constructor|]. split; [done|].
    intros k e Hk. split; [by intros ?%not_elem_of_nil|].
    intros Ho. apply (sy_owner _ (inv_y _ I) _ _ _ Hk) in Ho as [y Hy]. congruence.
  - apply map_Forall_delete. by apply Hsame.
  - destruct r; (apply map_Forall_insert_2; [|by apply Hsame]);
      (match goal with T : trxs _ !! _ = Some _, P : t_pc _ = _ |- _ =>
              apply Hh in T; revert T; unfold holds_exactly, cursor; rewrite P; cbn; done end).
  - enough (inv_held st1) by (case_match; [by apply inv_held_broadcast|done]).
    assert (Hx := Hh _ _ H).
    assert (Ho : owner_trx e = Some t).
    { destruct Hx as (ls & _ & Hl & Hk). apply (Hk _ _ H1). unfold cursor in Hl. rewrite H0 in Hl.
      destruct ls as [|a ls]; [done|]. destruct Hl as [[= <-] _]. constructor. }
    eapply inv_held_update; [done..| |].
    + intros u Hu. cbn. rewrite Ho. naive_solver.
    + eapply holds_release; try done. unfold cursor. by rewrite H0.
  - by apply inv_held_broadcast.
Qed.

(** ** Preservation of the synchronisation invariant *)

Lemma inv_sync_step st st' t :
  inv_sync st ->
  (forall l e', locks st' !! l = Some e' -> owner_trx e' = None \/ owner_trx e' = Some t \/
     exists e, locks st !! l = Some e /\ owner_trx e' = owner_trx e) ->
  (forall u, is_Some (trxs st !! u) -> is_Some (trxs st' !! u)) ->
  (forall l, is_Some (locks st !! l) -> is_Some (locks st' !! l)) ->
  (forall x', trxs st' !! t = Some x' -> pc_ok st' t (t_pc x')) -> is_Some (trxs st' !! t) ->
  (forall u y', u <> t -> trxs st' !! u = Some y' ->
     pc_ok st u (t_pc y') /\ seen_by u t (t_pc y') st st') ->
  inv_sync st'.
Proof.
  intros [Ho _] Hown Ht Hl Hx Hlive Hu. split.
  - intros l e' u He' Hu'. destruct (Hown _ _ He') as [E|[E|(e & He & E)]]; [congruence| |].
    + rewrite E in Hu'. by injection Hu' as <-.
    + rewrite E in Hu'. eauto.
  - intros u y' Hy'. destruct (decide (u = t)) as [->|Hne]; [by apply Hx|].
    destruct (Hu _ _ Hne Hy') as [Hok Hseen]. eapply pc_ok_seen; [done..| |done].
    destruct (t_pc y'); try done; by apply walk_ok_mono.
Qed.

Definition mutex_frame (t : nat) (st st' : lock_table) : Prop :=
  forall u p, u <> t -> mutexes st !! p = Some u -> mutexes st' !! p = Some u.

Lemma mutex_frame_free t st p st' :
  mutexes st !! p = None \/ mutexes st !! p = Some t ->
  mutexes st' = <[p := t]> (mutexes st) \/ mutexes st' = delete p (mutexes st) ->
  mutex_frame t st st'.
Proof.
  intros Hp Hst u q Hut Hq. destruct (decide (q = p)) as [->|Hne]; [destruct Hp; congruence|].
  destruct Hst as [-> | ->]; [by rewrite lookup_insert_ne|by rewrite lookup_delete_ne].
Qed.

(** Only [t]'s record and the mutexes change. *)
Lemma inv_sync_trx st st' t x' :
  inv_sync st -> locks st' = locks st -> trxs st' = <[t := x']> (trxs st) ->
  mutex_frame t st st' -> pc_ok st' t (t_pc x') -> inv_sync st'.
Proof.
  intros Hs Hl Ht Hm Hx. apply (inv_sync_step st st' t); try done.
  - intros l e'. rewrite Hl. eauto.
  - intros u Hu. rewrite Ht. apply lookup_insert_is_Some'. by right.
  - intros l. by rewrite Hl.
  - intros y. rewrite Ht, lookup_insert_eq. by intros [= <-].
  - rewrite Ht, lookup_insert_eq. done.
  - intros u y' Hne. rewrite Ht, lookup_insert_ne by done. intros Hu. split; [by apply Hs|].
    intros l e He. exists e. rewrite Hl. repeat split; auto.
Qed.

(** One entry changes too: its owner stays, or becomes [t] under the mutex. *)
Lemma inv_sync_lock st st' t x' l e e' :
  inv_sync st -> locks st !! l = Some e -> locks st' = <[l := e']> (locks st) ->
  trxs st' = <[t := x']> (trxs st) -> mutex_frame t st st' -> rl_partition e' = rl_partition e ->
  (owner_trx e' = owner_trx e /\ owner_txn_id e' = owner_txn_id e) \/
  ((mutexes st !! rl_partition e = None \/ mutexes st !! rl_partition e = Some t) /\
   owner_trx e' = Some t /\ owner_txn_id e' <> 0) ->
  pc_ok st' t (t_pc x') -> inv_sync st'.
Proof.
  intros Hs He Hl Ht Hm Hp Ho Hx. apply (inv_sync_step st st' t); try done.
  - intros k ek. rewrite Hl. intros [[<- <-]|[_ Hk]]%lookup_insert_Some; [|eauto].
    destruct Ho as [[-> _]|(_ & -> & _)]; eauto.
  - intros u Hu. rewrite Ht. apply lookup_insert_is_Some'. by right.
  - intros k Hk. rewrite Hl. apply lookup_insert_is_Some'. by right.
  - intros y. rewrite Ht, lookup_insert_eq. by intros [= <-].
  - rewrite Ht, lookup_insert_eq. done.
  - intros u y' Hne. rewrite Ht, lookup_insert_ne by done. intros Hu. split; [by apply Hs|].
    intros k ek Hk. rewrite Hl. destruct (decide (k = l)) as [->|Hkl].
    + simplify_eq. exists e'. rewrite lookup_insert_eq. repeat split; auto.
      destruct Ho as [|(Hmu & ?)]; [by left|]. right. left. split; [|done]. destruct Hmu; congruence.
    + exists ek. rewrite lookup_insert_ne by done. repeat split; auto.
Qed.

Lemma walk_step_ok st t l w w' :
  inv_struct st -> inv_sync st -> is_Some (locks st !! l) ->
  walk_step st t l w = Some (inl w') -> walk_ok st w -> walk_ok st w'.
Proof.
  intros Is Hs Hl H Hw.
  assert (Hown : forall k e d, locks st !! k = Some e -> walk_ok st (WTrx (owner_trx e) d)).
  { intros k e d He. cbn. destruct (owner_trx e) eqn:E; [|done]. by eapply sy_owner. }
  destruct w as [|[c|] d|k d]; cbn [walk_step] in H; [| |done|].
  - destruct (locks st !! l) eqn:E; [|done]. injection H as <-. eauto.
  - case_match; [|done]. case_bool_decide; [done|]. destruct (trxs st !! c) as [x|] eqn:E; [|done].
    cbn in H. destruct (waiting_on x) eqn:Ew; [|done]. injection H as <-.
    apply Is in E as (_ & Hw' & Hpc). apply Hpc. destruct (t_pc x); cbn in *; congruence.
  - destruct (locks st !! k) eqn:E; [|done]. injection H as <-. eauto.
Qed.

Lemma mutex_frame_refl t st st' : mutexes st' = mutexes st -> mutex_frame t st st'.
Proof. intros E u p _. by rewrite E. Qed.

Lemma inv_sync_broadcast st l : inv_sync st -> inv_sync (cond_broadcast l st).
Proof.
  intros [Ho Hp].
  assert (Hd : forall u, is_Some (trxs st !! u) -> is_Some (trxs (cond_broadcast l st) !! u)).
  { intros u [y Hy]. cbn. rewrite lookup_fmap, Hy. done. }
  split.
  - intros k e t Hk Ht. apply Hd. eauto.
  - intros u y' (y & <- & Hy)%lookup_fmap_Some. apply Hp in Hy.
    assert (Hy' : pc_ok st u (t_pc (wake_sleeper l y))).
    { unfold wake_sleeper. destruct (t_pc y) eqn:E; rewrite ?E; try done.
      case_bool_decide; rewrite ?E; try done. destruct Hy as (e & He & Hne & _). by exists e. }
    destruct (t_pc (wake_sleeper l y)); try done;
      (destruct Hy' as [? Hw]; split; [done|]; revert Hw; apply walk_ok_mono; done).
Qed.

(** Freeing a connection that owns nothing while nobody walks. *)
Lemma inv_sync_close st t x rc :
  inv st -> trxs st !! t = Some x -> t_pc x = Ready rc -> held_locks_head x = None ->
  map_Forall (fun _ y => walking y = false) (trxs st) -> inv_sync (set_trxs (delete t) st).
Proof.
  intros [_ _ Hs Hh] Hx Hpc Hnil Hw. split; cbn.
  - intros l e u Hl Hu. destruct (decide (u = t)) as [->|Hne].
    + destruct (Hh _ _ Hx) as (ls & _ & Hls & Hk). unfold cursor in Hls. rewrite Hpc, Hnil in Hls.
      destruct ls; [|by destruct Hls]. apply (Hk _ _ Hl) in Hu. by apply not_elem_of_nil in Hu.
    + rewrite lookup_delete_ne by done. by eapply sy_owner.
  - intros u y [Hne Hu]%lookup_delete_Some. pose proof (Hw _ _ Hu) as Hwu. apply Hs in Hu.
    unfold walking in Hwu. by destruct (t_pc y).
Qed.

(** A release frees an entry nobody sleeps on unsignalled. *)
Lemma inv_sync_release st st' t x' l e :
  inv_sync st -> locks st !! l = Some e -> mutexes st !! rl_partition e = None ->
  locks st' = <[l := mk_lock (rl_pk e) 0 None (waiters e) None (rl_partition e)]> (locks st) ->
  mutexes st' = mutexes st ->
  trxs st' !! t = Some x' -> t_pc x' = Releasing (held_next e) ->
  (forall u, is_Some (trxs st !! u) -> is_Some (trxs st' !! u)) ->
  (forall u y', u <> t -> trxs st' !! u = Some y' ->
     pc_ok st u (t_pc y') /\ t_pc y' <> Asleep l false) ->
  inv_sync st'.
Proof.
  intros Hs He Hmu Hl Hm Hx Hpc Hd Hu. apply (inv_sync_step st st' t); try done.
  - intros k ek. rewrite Hl. intros [[<- <-]|[_ Hk]]%lookup_insert_Some; eauto.
  - intros k Hk. rewrite Hl. apply lookup_insert_is_Some'. by right.
  - intros y. rewrite Hx. intros [= <-]. by rewrite Hpc.
  - intros u y' Hne Hy'. destruct (Hu _ _ Hne Hy') as [Hok Hna]. split; [done|].
    intros k ek Hk. rewrite Hl, Hm. destruct (decide (k = l)) as [->|Hkl].
    + simplify_eq. eexists. rewrite lookup_insert_eq. repeat split; auto.
      right. right. rewrite Hmu. done.
    + exists ek. rewrite lookup_insert_ne by done. repeat split; auto.
Qed.

Lemma wake_sleeper_ok st l u y :
  pc_ok st u (t_pc y) ->
  pc_ok st u (t_pc (wake_sleeper l y)) /\ t_pc (wake_sleeper l y) <> Asleep l false.
Proof.
  intros Hy. unfold wake_sleeper. destruct (t_pc y) eqn:E; rewrite ?E; try done.
  case_bool_decide; rewrite ?E.
  - destruct Hy as (e & He & Hne & _). by split; [exists e|].
  - split; [done|]. congruence.
Qed.

(** With no waiter counted, nobody is in the wait loop. *)
Lemma no_waiters_no_loop st l e u y :
  inv_waiters st -> locks st !! l = Some e -> waiters e <= 0 -> trxs st !! u = Some y ->
  in_loop l y = false.
Proof.
  intros Hw He H0 Hu. rewrite (Hw _ _ He) in H0. unfold loop_count in H0.
  assert (Hz : size (filter (fun p : nat * trx => in_loop l p.2 = true) (trxs st)) = 0%nat) by lia.
  apply map_size_empty_inv in Hz.
  apply not_true_iff_false. intros Hl. by eapply (map_filter_empty_not_lookup _ _ u y).
Qed.

Lemma inv_sync_eff_release t st x l e :
  inv st -> trxs st !! t = Some x -> t_pc x = Releasing (Some l) -> locks st !! l = Some e ->
  mutexes st !! rl_partition e = None ->
  let st1 := put_trx t (with_pc (Releasing (held_next e)) x)
               (put_lock l (mk_lock (rl_pk e) 0 None (waiters e) None (rl_partition e)) st) in
  inv_sync (if 0 <? waiters e then cond_broadcast l st1 else st1).
Proof.
  intros I Hx Hpc He Hm st1. pose proof (inv_y _ I) as Hs.
  destruct (Z.ltb_spec 0 (waiters e)) as [Hw|Hw].
  - eapply (inv_sync_release st); try done.
    + cbn. rewrite lookup_fmap, lookup_insert_eq. done.
    + cbn. unfold wake_sleeper. done.
    + intros u [y Hy]. cbn. rewrite lookup_fmap. apply fmap_is_Some.
      apply lookup_insert_is_Some'. right. by exists y.
    + intros u y' Hne (y & <- & Hy)%lookup_fmap_Some. cbn in Hy.
      rewrite lookup_insert_ne in Hy by done. apply wake_sleeper_ok. by apply Hs.
  - eapply (inv_sync_release st); try done.
    + cbn. by rewrite lookup_insert_eq.
    + done.
    + intros u [y Hy]. apply lookup_insert_is_Some'. right. by exists y.
    + intros u y' Hne. cbn. rewrite lookup_insert_ne by done. intros Hu. split; [by apply Hs|].
      pose proof (no_waiters_no_loop _ _ _ _ _ (inv_w _ I) He Hw Hu) as Hf. unfold in_loop in Hf.
      intros E. rewrite E in Hf. by rewrite bool_decide_true in Hf.
Qed.

Ltac at_lock :=
  repeat match goal with H : lock_at _ _ _ |- _ => destruct H as (? & ? & ?) end;
  destruct_and?; simplify_eq.

Lemma live_put t x st u : is_Some (trxs st !! u) -> is_Some (trxs (put_trx t x st) !! u).
Proof. intros Hu. apply lookup_insert_is_Some'. by right. Qed.

(** An effect on the record of the connection only, and one on a lock entry as well. *)
Ltac sync_trx Hs := eapply inv_sync_trx; [exact Hs|reflexivity|reflexivity|..].
Ltac sync_lock Hs := eapply inv_sync_lock; [exact Hs|eassumption|reflexivity|reflexivity|..]; try done.
Ltac frame_left := eapply mutex_frame_free; [by left|by left].
Ltac frame_right := eapply mutex_frame_free; [by right|by right].

Lemma inv_sync_eff t st st' : inv st -> eff t st st' -> inv_sync st'.
Proof.
  intros I H. pose proof (inv_y _ I) as Hs. pose proof (inv_s _ I) as Is.
  assert (Hid : forall u y, trxs st !! u = Some y -> lock_txn_id y <> 0).
  { intros u y Hu. by destruct (is_trx _ Is _ _ Hu) as [-> _]. }
  destruct H; unfold leave_loop in *.
  all: try match goal with P : _ \/ _ |- _ => destruct P as [P|[? P]] end.
  all: try (match goal with T : trxs _ !! _ = Some _, P : t_pc _ = _ |- _ =>
              pose proof (sy_pc _ Hs _ _ T) as Hok; rewrite P in Hok; cbn in Hok end).
  all: try by (eapply inv_sync_trx; [exact Hs|reflexivity|reflexivity|by apply mutex_frame_refl|]).
  all: try by (at_lock;
       eapply inv_sync_trx; [exact Hs|reflexivity|reflexivity
        |eapply mutex_frame_free; [by right|by right]|]).
  all: try by (at_lock;
       eapply inv_sync_lock; [exact Hs|eassumption|reflexivity|reflexivity
        |eapply mutex_frame_free; [by right|by right]|..]; eauto).
  - by eapply inv_sync_close.
  - sync_trx Hs; [by apply mutex_frame_refl|].
    split; [|done]. exists e. split; [done|]. intros Eo.
    match goal with N : ~ (_ /\ _) |- _ => apply N end. split; [|done].
    destruct (is_trx _ Is _ _ H) as [-> _]. pose proof (is_owner _ Is _ _ H1) as Ho.
    unfold owner_ok in Ho. by rewrite Eo in Ho.
  - sync_trx Hs; [by apply mutex_frame_refl|].
    destruct Hok as [Hl Hw]. destruct r as [w'|b]; [|done]. split; [done|].
    apply (walk_ok_mono st); [by apply live_put|done|].
    eapply (walk_step_ok st); try done. destruct Hl as (? & -> & _). done.
  - sync_lock Hs.
    + by apply mutex_frame_refl.
    + right. split; [by left|]. split; [done|]. by eapply Hid.
  - sync_lock Hs.
    + frame_left.
    + right. split; [by left|]. split; [done|]. by eapply Hid.
    + cbn. eexists. split; [apply lookup_insert_eq|]. by cbn; rewrite lookup_insert_eq.
  - at_lock. sync_lock Hs.
    + frame_right.
    + right. split; [by right|]. split; [done|]. by eapply Hid.
  - at_lock. sync_lock Hs.
    + frame_left.
    + by left.
    + cbn. eexists. split; [apply lookup_insert_eq|]. by cbn; rewrite lookup_insert_eq.
  - destruct Hok as [? _]. at_lock. sync_lock Hs.
    all: first [by left|frame_right].
  - sync_trx Hs; [by apply mutex_frame_refl|].
    at_lock. split; [|done]. by eexists.
  - at_lock. sync_lock Hs.
    + by apply mutex_frame_refl.
    + by left.
    + cbn. eexists. split; [apply lookup_insert_eq|]. split; [done|]. cbn.
      match goal with N : ~ contended _ ?e |- _ =>
        destruct (decide (owner_txn_id e = 0)); [done|]; by destruct N end.
  - sync_trx Hs; [by apply mutex_frame_refl|].
    destruct Hok as [Hl Hw]. split; [done|]. apply (walk_ok_mono st); [by apply live_put|done|].
    eapply (walk_step_ok st); try done. destruct Hl as (? & -> & _). done.
  - destruct Hok as [? _]. at_lock. sync_trx Hs.
    + frame_right.
    + cbn. eexists. split; [done|]. match goal with C : contended _ _ |- _ => destruct C end. done.
  - at_lock. sync_trx Hs.
    + frame_left.
    + cbn. eexists. split; [done|]. cbn. by rewrite lookup_insert_eq.
  - by apply inv_sync_eff_release with (x := x).
  - by apply inv_sync_broadcast.
Qed.

Lemma inv_eff t st st' : inv st -> eff t st st' -> inv st'.
Proof.
  intros I H. split.
  - eapply inv_struct_eff; [apply I|done].
  - eapply inv_waiters_eff; [apply I|done].
  - by eapply inv_sync_eff.
  - by eapply inv_held_eff.
Qed.

Lemma inv_alloc st st1 : inv st -> alloc_step st st1 -> inv st1.
Proof.
  intros I Ha. pose proof (inv_struct_alloc _ _ (inv_s _ I) Ha) as Is.
  pose proof (inv_waiters_alloc _ _ (inv_s _ I) (inv_w _ I) Ha) as Iw.
  destruct Ha as [->|(p & pk & -> & _)]; [done|].
  assert (Hf : locks st !! next_lock st = None).
  { destruct (locks st !! next_lock st) eqn:E; [|done]. apply (is_lt _ (inv_s _ I)) in E. lia. }
  assert (Hk : forall k e, locks st !! k = Some e -> locks (new_lock st p pk) !! k = Some e).
  { intros k e He. cbn. rewrite lookup_insert_ne; [done|]. intros <-. congruence. }
  split; [done..| |].
  - split; cbn.
    + intros l e t [[<- <-]|[_ Hl]]%lookup_insert_Some; [done|]. by eapply sy_owner, Hl; apply I.
    + intros t x Ht.
      eapply (pc_ok_seen t (S t) st); [lia| | |by apply I].
      * intros l e He. exists e. split; [by apply Hk|]. repeat split; auto.
      * destruct (t_pc x); try done; apply walk_ok_mono; try done;
          intros l' [e' He']; exists e'; by apply Hk.
  - intros t x Ht. destruct (inv_h _ I _ _ Ht) as (l & Hnd & Hl & Hown). exists l.
    split; [done|]. split.
    + eapply held_list_ext; [|exact Hl]. eauto.
    + cbn. intros k e [[<- <-]|[_ He]]%lookup_insert_Some; [|eauto]. split; [|done]. intros Hin.
      exfalso. clear -Hin Hl Hf. revert Hl. generalize (cursor x).
      induction l as [|a r IH]; intros h Hl; [by apply not_elem_of_nil in Hin|].
      destruct Hl as [-> (e & He & Hr)]. apply elem_of_cons in Hin as [<-|Hin]; [congruence|eauto].
Qed.

Lemma inv_step st st' : inv st -> step st st' -> inv st'.
Proof.
  intros I H. apply step_eff in H as (t & st1 & Ha & H); [|apply I].
  apply inv_alloc in Ha; [|done]. destruct H as [->|H]; [done|]. by eapply inv_eff.
Qed.

Lemma inv_reachable st : reachable st -> inv st.
Proof.
  apply rtc_invariant; [intros; by eapply inv_step|].
  split; [apply inv_struct_init|apply map_Forall_empty| |apply map_Forall_empty].
  split; intros; set_solver.
Qed.

End Manager.

#[global] Arguments is_lt {_} _ _.
#[global] Arguments is_chains {_} _ _.
#[global] Arguments is_inchain {_} _ _.
#[global] Arguments is_unique {_} _ _.
#[global] Arguments is_owner {_} _ _.
#[global] Arguments is_trx {_} _ _.
#[global] Arguments inv_s {_} _ _.
#[global] Arguments inv_w {_} _ _.
#[global] Arguments inv_y {_} _ _.
#[global] Arguments inv_h {_} _ _.
