(* ===== verification/RowLockLive.v ===== *)
(** * Progress of the row-lock manager

    The wait-for graph, the deadlock walk along it and the release loop, and the
    properties of the manager: exclusive ownership with exact held lists, no
    lost wake-up, no dangling pointer in a walk, every wait-for cycle of at most
    [DEADLOCK_MAX_DEPTH] connections is reported by one of its members, and
    releasing frees exactly what the connection owns. *)

From Stdlib Require Import ZArith Lia.
From stdpp Require Import base tactics list numbers gmap relations.
From S2P Require Import Prelude Errors RowLock RowLockInv.

Section Manager.
Variable XXH3_64bits : bytes -> Z.
Local Notation step := (step XXH3_64bits).
Local Notation reachable := (reachable XXH3_64bits).
Local Notation inv := (inv XXH3_64bits).
Local Notation inv_struct := (inv_struct XXH3_64bits).
Local Notation alloc_step := (alloc_step XXH3_64bits).

(** ** Deadlocks *)

(** The lock a connection is blocked on, from publishing its wait intent until
    it owns the lock or gives up. *)
Definition wait_edge (p : pc) : option nat :=
  match p with
  | Walk1 l _ | PostWalk l _ | LoopHead l | LoopWalk l _ | Asleep l _ => Some l
  | Ready _ | Claimed _ | LoopExit _ | Releasing _ => None
  end.

(** The connection [a] waits for, and the wait-for path from [a]. *)
Definition edge (st : lock_table) (a : nat) : option nat :=
  trxs st !! a ≫= (fun x => wait_edge (t_pc x)).
Definition owner (st : lock_table) (l : nat) : option nat := locks st !! l ≫= owner_trx.
Definition blocker (st : lock_table) (a : nat) : option nat := edge st a ≫= owner st.

Fixpoint blocker_n (st : lock_table) (n : nat) (a : nat) : option nat :=
  match n with O => Some a | S n => blocker st a ≫= blocker_n st n end.

Lemma blocker_n_add st n m a : blocker_n st (n + m) a = blocker_n st n a ≫= blocker_n st m.
Proof.
  revert a. induction n as [|n IH]; intros a; [done|]. cbn.
  destruct (blocker st a) as [b|]; [|done]. cbn. apply IH.
Qed.

Lemma blocker_n_S st n a : blocker_n st (S n) a = blocker_n st n a ≫= blocker st.
Proof.
  rewrite <- Nat.add_1_r, blocker_n_add. destruct (blocker_n st n a) as [b|]; [|done]. cbn.
  by destruct (blocker st b).
Qed.

(** Every point of a cycle is on a cycle of the same length. *)
Lemma blocker_n_rotate st n i t u :
  blocker_n st n t = Some t -> blocker_n st i t = Some u -> blocker_n st n u = Some u.
Proof.
  intros Hn Hi. assert (H : blocker_n st (i + n) t = Some u) by by rewrite Nat.add_comm, blocker_n_add, Hn.
  by rewrite blocker_n_add, Hi in H.
Qed.

Lemma blocker_n_le st n i t v : (i <= n)%nat -> blocker_n st n t = Some v -> is_Some (blocker_n st i t).
Proof.
  intros Hi Hn. replace n with (i + (n - i))%nat in Hn by lia. rewrite blocker_n_add in Hn.
  destruct (blocker_n st i t); [done|]. discriminate.
Qed.

(** Every point of a cycle is blocked. *)
Lemma blocker_n_next st n i t u :
  (0 < n)%nat -> blocker_n st n t = Some t -> blocker_n st i t = Some u ->
  exists v, blocker st u = Some v.
Proof.
  intros Hn Ht Hi. pose proof (blocker_n_rotate _ _ _ _ _ Ht Hi) as Hu.
  destruct n as [|n]; [lia|]. cbn in Hu. destruct (blocker st u); [eauto|done].
Qed.

(** [u] is in its first walk and, on the cycle of length [n] it is part of, has
    so far followed the cycle; or the walk has come back to it. *)
Definition on_track (st : lock_table) (n u : nat) (p : pc) : Prop :=
  match p with
  | Walk1 _ WStart | PostWalk _ true => True
  | Walk1 _ (WTrx c d) => (d < n)%nat /\ c = blocker_n st (S d) u
  | Walk1 _ (WLock k d) => (S d < n)%nat /\
      exists c, blocker_n st (S d) u = Some c /\ edge st c = Some k
  | _ => False
  end.

Definition inv_cycles (st : lock_table) : Prop :=
  forall n t, (0 < n <= DEADLOCK_MAX_DEPTH)%nat -> blocker_n st n t = Some t ->
  exists i u x, (i < n)%nat /\ blocker_n st i t = Some u /\ trxs st !! u = Some x /\
    on_track st n u (t_pc x).

(** A step of the walk keeps it on track. *)
Lemma on_track_walk st n u x l w r :
  inv_struct st -> (0 < n <= DEADLOCK_MAX_DEPTH)%nat -> blocker_n st n u = Some u ->
  trxs st !! u = Some x -> t_pc x = Walk1 l w ->
  on_track st n u (Walk1 l w) -> walk_step st u l w = Some r ->
  on_track st n u (match r with inl w' => Walk1 l w' | inr b => PostWalk l b end).
Proof.
  intros Is Hn Hu Hx Hpc Ht Hr. destruct w as [|[c|] d|k d]; cbn [walk_step on_track] in *.
  - destruct (locks st !! l) as [e|] eqn:He; [|done]. injection Hr as <-. split; [lia|].
    cbn. unfold blocker, edge, owner. rewrite Hx. cbn. rewrite Hpc. cbn. rewrite He. cbn.
    by destruct (owner_trx e).
  - destruct Ht as [Hd Hc]. rewrite (proj2 (Nat.ltb_lt _ _)) in Hr by lia.
    case_bool_decide as Hcu; [by simplify_eq|].
    assert (Hd' : (S d < n)%nat).
    { destruct (decide (S d = n)) as [<-|]; [|lia]. congruence. }
    destruct (blocker_n_next st n (S d) u c) as [v Hv]; [lia|done|done|].
    unfold blocker in Hv. destruct (edge st c) as [k|] eqn:Hk; [|done]. unfold edge in Hk.
    destruct (trxs st !! c) as [y|] eqn:Hy; [|done]. cbn in Hk, Hr.
    assert (Hwy : waiting_on y = Some k).
    { destruct (is_trx _ Is _ _ Hy) as (_ & -> & _). destruct (t_pc y); cbn in *; congruence. }
    rewrite Hwy in Hr. injection Hr as <-. split; [done|]. exists c. split; [done|].
    unfold edge. by rewrite Hy.
  - destruct Ht as [Hd Hc]. destruct (blocker_n_le st n (S d) u u) as [v Hv]; [lia|done|congruence].
  - destruct Ht as (Hd & c & Hc & Hk). destruct (locks st !! k) as [e|] eqn:He; [|done].
    injection Hr as <-. rewrite Nat.add_1_r. split; [done|].
    rewrite blocker_n_S, Hc. cbn. unfold blocker, owner. rewrite Hk. cbn. by rewrite He.
Qed.

Definition just_published (st : lock_table) (t : nat) : Prop :=
  exists x l, trxs st !! t = Some x /\ t_pc x = Walk1 l WStart.

(** How an effect changes the wait-for graph. *)
Definition graph_step (t : nat) (st st' : lock_table) : Prop :=
  (forall l, owner st' l = owner st l \/ owner st' l = None \/
     (owner st' l = Some t /\ edge st' t = None)) /\
  (forall a, edge st' a = edge st a \/ edge st' a = None \/ (a = t /\ just_published st' t)).

Lemma edge_put st t x' a :
  edge (put_trx t x' st) a = if decide (a = t) then wait_edge (t_pc x') else edge st a.
Proof.
  unfold edge. cbn. case_decide as E; [subst; by rewrite lookup_insert_eq|by rewrite lookup_insert_ne].
Qed.

Lemma graph_own t st x x' f g :
  trxs st !! t = Some x -> wait_edge (t_pc x') = wait_edge (t_pc x) \/ wait_edge (t_pc x') = None ->
  (forall l, f (locks st) !! l ≫= owner_trx = owner st l) ->
  graph_step t st (put_trx t x' (set_mutexes g (set_locks f st))).
Proof.
  intros Hx He Hf. split; [intros l; left; apply Hf|]. intros a. rewrite edge_put.
  case_decide as E; [subst|by left]. destruct He as [->| ->]; [left|by right; left].
  unfold edge. by rewrite Hx.
Qed.

Lemma graph_claim t st x x' l e g :
  locks st !! l = Some e -> wait_edge (t_pc x') = None ->
  graph_step t st (put_trx t x' (set_mutexes g (claim st t x l e))).
Proof.
  intros Hl He. split.
  - intros k. destruct (decide (k = l)) as [->|Hne].
    + right. right. split; [|by rewrite edge_put, decide_True].
      unfold owner. cbn. by rewrite lookup_insert_eq.
    + left. unfold owner. cbn. by rewrite lookup_insert_ne.
  - intros a. rewrite edge_put. case_decide as E; [subst; right; by left|by left].
Qed.

Lemma edge_wake st l a : edge (cond_broadcast l st) a = edge st a.
Proof.
  unfold edge. cbn. rewrite lookup_fmap. destruct (trxs st !! a) as [y|]; [|done]. cbn.
  unfold wake_sleeper. destruct (t_pc y) eqn:E; rewrite ?E; try done.
  case_bool_decide; cbn; by rewrite ?E.
Qed.

Lemma owner_waiters st l e n k :
  locks st !! l = Some e -> <[l := with_waiters n e]> (locks st) !! k ≫= owner_trx = owner st k.
Proof.
  intros Hl. unfold owner. destruct (decide (k = l)) as [->|]; [|by rewrite lookup_insert_ne].
  by rewrite lookup_insert_eq, Hl.
Qed.

Lemma set_locks_id st : set_locks id st = st.
Proof. by destruct st. Qed.

Lemma eff_graph t st st' : eff t st st' -> graph_step t st st'.
Proof.
  destruct 1; unfold leave_loop.
  all: try match goal with P : _ \/ _ |- _ => destruct P as [P|[? P]] end.
  all: try (match goal with P : t_pc _ = _, T : trxs _ !! _ = Some _, L : locks _ !! ?l = Some ?e |-
        context [put_lock ?l (with_waiters ?n ?e) _] =>
       first [eapply (graph_own _ _ _ _ (insert l (with_waiters n e)) id T)
             |eapply (graph_own _ _ _ _ (insert l (with_waiters n e)) (delete _) T)
             |eapply (graph_own _ _ _ _ (insert l (with_waiters n e)) (insert _ _) T)];
        [rewrite P; by auto|intros; by apply owner_waiters] end).
  all: try (match goal with P : t_pc _ = _, T : trxs _ !! _ = Some _ |- _ =>
       first [eapply (graph_own _ _ _ _ id id T)
             |eapply (graph_own _ _ _ _ id (delete _) T)
             |eapply (graph_own _ _ _ _ id (insert _ _) T)]; [rewrite P; by auto|done] end).
  all: try (match goal with L : locks _ !! _ = Some _ |- _ =>
       first [eapply (graph_claim _ _ _ _ _ _ id L)
             |eapply (graph_claim _ _ _ _ _ _ (delete _) L)
             |eapply (graph_claim _ _ _ _ _ _ (insert _ _) L)]; done end).
  - split; [by left|]. intros a. rewrite edge_put. case_decide; [by right; left|by left].
  - split; [by left|]. intros a. unfold edge. cbn. destruct (decide (a = t)) as [->|].
    + rewrite lookup_delete_eq. by right; left.
    + rewrite lookup_delete_ne by done. by left.
  - split; [by left|]. intros a. rewrite edge_put. case_decide; [|by left]. right. right.
    split; [done|]. eexists _, l. cbn. by rewrite lookup_insert_eq.
  - match goal with P : t_pc _ = _, T : trxs _ !! _ = Some _ |- _ =>
      apply (graph_own _ _ _ _ id id T); [rewrite P; destruct r; by left|done] end.
  - enough (graph_step t st st1) as [Ho He].
    { case_match; [|done]. split; [intros k; rewrite edge_wake; exact (Ho k)|]. intros a. rewrite edge_wake.
      destruct (He a) as [|[|[-> (x1 & l1 & Hx1 & Hp1)]]]; [by left|by right; left|].
      cbn in Hx1. rewrite lookup_insert_eq in Hx1. by simplify_eq. }
    split.
    + intros k. unfold owner. cbn. destruct (decide (k = l)) as [->|].
      * rewrite lookup_insert_eq. by right; left.
      * rewrite lookup_insert_ne by done. by left.
    + intros a. unfold st1. rewrite edge_put. case_decide; [by right; left|by left].
  - split; [by left|]. intros a. left. apply edge_wake.
Qed.

(** What a step does to the connection that detects the cycle. *)
Lemma eff_detector t st st' u x :
  eff t st st' -> trxs st !! u = Some x ->
  match t_pc x with Walk1 _ _ | PostWalk _ true => True | _ => False end ->
  (exists x', trxs st' !! u = Some x' /\ t_pc x' = t_pc x) \/
  (exists x' l w r, trxs st' !! u = Some x' /\ t_pc x = Walk1 l w /\ walk_step st u l w = Some r /\
     t_pc x' = match r with inl w' => Walk1 l w' | inr b => PostWalk l b end) \/
  edge st' u = None.
Proof.
  intros H Hx Hpc.
  assert (Hwake : forall k, t_pc (wake_sleeper k x) = t_pc x).
  { intros k. unfold wake_sleeper. by destruct (t_pc x) eqn:E; rewrite ?E. }
  destruct (decide (u = t)) as [->|Hne].
  - destruct H; simplify_eq;
      try match goal with P : _ \/ exists _, _ |- _ => destruct P as [P|[? P]] end;
      try (match goal with P : t_pc _ = _ |- _ => by rewrite P in Hpc end).
    + right. left. eexists _, l, w, r. cbn. by rewrite lookup_insert_eq.
    + right. right. by rewrite edge_put, decide_True.
    + left. eexists. cbn. by rewrite lookup_fmap, Hx.
  - left. clear Hpc. destruct H; unfold leave_loop in *; try destruct (0 <? _); cbn.
    all: rewrite ?lookup_fmap, ?lookup_insert_ne, ?lookup_delete_ne, ?Hx by done; cbn.
    all: eexists; split; [done|]; auto.
Qed.

(** On a cycle of the new graph every edge is old, unless [t] has just
    published its intent and is on the cycle. *)
Lemma cycle_edge t st st' n a j v :
  graph_step t st st' -> (0 < n)%nat -> blocker_n st' n a = Some a -> blocker_n st' j a = Some v ->
  (v = t /\ just_published st' t) \/ (edge st v = edge st' v /\ blocker st v = blocker st' v).
Proof.
  intros [Gown Gedge] Hn Ha Hv.
  destruct (blocker_n_next _ _ _ _ _ Hn Ha Hv) as [w Hw].
  destruct (blocker_n_next st' n (S j) a w) as [w' Hw']; [done|done|by rewrite blocker_n_S, Hv|].
  destruct (Gedge v) as [E|[E|E]]; [|unfold blocker in Hw; by rewrite E in Hw|by left].
  right. split; [done|]. rewrite Hw. unfold blocker in *. rewrite <- E.
  destruct (edge st' v) as [k|]; [|done]. cbn in *.
  destruct (Gown k) as [Eo|[Eo|[Eo En]]]; [congruence|congruence|].
  rewrite Eo in Hw. injection Hw as <-. by rewrite En in Hw'.
Qed.

Lemma cycle_old t st st' n a i :
  graph_step t st st' -> (0 < n)%nat -> blocker_n st' n a = Some a ->
  (exists j, (j < i)%nat /\ blocker_n st' j a = Some t /\ just_published st' t) \/
  ((forall j, (j <= i)%nat -> blocker_n st j a = blocker_n st' j a) /\
   (forall j v, (j < i)%nat -> blocker_n st' j a = Some v -> edge st v = edge st' v)).
Proof.
  intros G Hn Ha. induction i as [|i [(j & Hj & ?)|[IH IHe]]].
  - right. split; [|lia]. intros j Hj. by replace j with 0%nat by lia.
  - left. exists j. split; [lia|done].
  - destruct (blocker_n st' i a) as [v|] eqn:Hv.
    + destruct (cycle_edge _ _ _ _ _ _ _ G Hn Ha Hv) as [[-> Hp]|[Ee Eb]].
      { left. exists i. split; [lia|done]. }
      right. split.
      * intros j Hj. destruct (decide (j = S i)) as [->|]; [|apply IH; lia].
        rewrite !blocker_n_S, IH, Hv by lia. exact Eb.
      * intros j w Hj Hw. destruct (decide (j = i)) as [->|]; [congruence|]. apply (IHe j); [lia|done].
    + right. split.
      * intros j Hj. destruct (decide (j = S i)) as [->|]; [|apply IH; lia].
        by rewrite !blocker_n_S, IH, Hv by lia.
      * intros j w Hj Hw. destruct (decide (j = i)) as [->|]; [congruence|]. apply (IHe j); [lia|done].
Qed.

Lemma on_track_ext st st' n u p :
  (forall j, (j <= n)%nat -> blocker_n st j u = blocker_n st' j u) ->
  (forall j v, (j < n)%nat -> blocker_n st' j u = Some v -> edge st v = edge st' v) ->
  on_track st n u p -> on_track st' n u p.
Proof.
  intros Hb He. destruct p as [|l [|c d|k d]|l []| | | | | |]; cbn [on_track]; try done.
  - intros [Hd ->]. split; [done|]. apply Hb. lia.
  - intros (Hd & c & Hc & Hk). split; [done|]. exists c. rewrite Hb in Hc by lia.
    split; [done|]. by rewrite <- (He (S d)).
Qed.

Lemma inv_cycles_eff t st st' :
  inv_struct st -> inv_cycles st -> eff t st st' -> inv_cycles st'.
Proof.
  intros Is Hc H n a Hn Ha. pose proof (eff_graph _ _ _ H) as G.
  destruct (cycle_old t st st' n a (n + n) G ltac:(lia) Ha) as [(j & Hj & Hjt & x & l & Hx & Hpc)|[Hold Hedge]].
  { destruct (decide (j < n)%nat).
    - exists j, t, x. rewrite Hpc. done.
    - exists (j - n)%nat, t, x. split; [lia|]. rewrite Hpc. split; [|done].
      replace j with (n + (j - n))%nat in Hjt by lia. by rewrite blocker_n_add, Ha in Hjt. }
  destruct (Hc n a Hn) as (i & u & x & Hi & Hu & Hx & Ht); [by rewrite Hold by lia|].
  assert (Hu' : blocker_n st' i a = Some u) by by rewrite <- Hold by lia.
  assert (Hcyc : blocker_n st n u = Some u).
  { eapply blocker_n_rotate; [|exact Hu]. by rewrite Hold by lia. }
  assert (Hext : forall p, on_track st n u p -> on_track st' n u p).
  { intros p. apply on_track_ext.
    - intros j Hj. pose proof (Hold (i + j)%nat ltac:(lia)) as E.
      by rewrite !blocker_n_add, Hu, Hu' in E.
    - intros j v Hj Hv. apply (Hedge (i + j)%nat); [lia|]. by rewrite blocker_n_add, Hu'. }
  destruct (eff_detector _ _ _ _ _ H Hx) as [(x' & Hx' & E)|[(x' & l & w & r & Hx' & Hpc & Hr & E)|E]].
  - by destruct (t_pc x) as [|l w|l []| | | | | |].
  - exists i, u, x'. rewrite E. repeat split; auto.
  - exists i, u, x'. rewrite E. repeat split; auto. apply Hext.
    rewrite Hpc in Ht. by eapply on_track_walk.
  - destruct (blocker_n_next st' n i a u) as [v Hv]; [lia|done|done|].
    unfold blocker in Hv. by rewrite E in Hv.
Qed.

Lemma inv_cycles_alloc st st1 : inv_struct st -> inv_cycles st -> alloc_step st st1 -> inv_cycles st1.
Proof.
  intros Is Hc [->|(p & pk & -> & _)]; [done|].
  assert (Eo : forall l, owner (new_lock st p pk) l = owner st l).
  { intros l. unfold owner. cbn. destruct (decide (l = next_lock st)) as [->|Hne].
    - rewrite lookup_insert_eq. destruct (locks st !! next_lock st) eqn:E; [|done].
      apply (is_lt _ Is) in E. lia.
    - by rewrite lookup_insert_ne. }
  assert (Eb : forall a, blocker (new_lock st p pk) a = blocker st a).
  { intros a. unfold blocker. change (edge (new_lock st p pk) a) with (edge st a).
    destruct (edge st a); [apply Eo|done]. }
  assert (En : forall n a, blocker_n (new_lock st p pk) n a = blocker_n st n a).
  { induction n as [|n IH]; intros a; [done|]. cbn. rewrite Eb.
    destruct (blocker st a); [apply IH|done]. }
  intros n t Hn Ht. rewrite En in Ht. destruct (Hc n t Hn Ht) as (i & u & x & Hi & Hu & Hx & Hok).
  exists i, u, x. rewrite En. repeat split; try done.
  apply (on_track_ext st); [|done..]. intros j _. by rewrite En.
Qed.

Lemma inv_cycles_reachable st : reachable st -> inv_cycles st.
Proof.
  intros H. enough (Hi : inv st /\ inv_cycles st) by apply Hi.
  revert H. apply (rtc_invariant step (fun s => inv s /\ inv_cycles s)).
  - intros a b [Ia Ca] Hs. split; [by eapply inv_step|].
    apply step_eff in Hs as (t & st1 & Ha & Hs); [|apply Ia].
    assert (C1 : inv_cycles st1) by (eapply inv_cycles_alloc; [apply Ia|done|done]).
    destruct Hs as [->|Hs]; [done|]. eapply inv_cycles_eff; [|exact C1|exact Hs].
    eapply inv_struct_alloc; [apply Ia|done].
  - split; [apply inv_reachable; constructor|]. intros n t Hn Ht. exfalso.
    destruct n as [|n]; [lia|]. cbn in Ht. unfold blocker, edge in Ht. cbn in Ht.
    by rewrite lookup_empty in Ht.
Qed.

(** ** Running segments of one connection *)

Fixpoint iterate (n : nat) (f : lock_table -> option lock_table) (st : lock_table)
    : option lock_table :=
  match n with O => Some st | S n => f st ≫= iterate n f end.

(** The pointers of a walk are valid, so its next load is defined. *)
Lemma walk_step_defined st t x l w :
  inv st -> trxs st !! t = Some x -> t_pc x = Walk1 l w \/ t_pc x = LoopWalk l w ->
  exists r, walk_step st t l w = Some r.
Proof.
  intros I Hx Hpc.
  assert (Hok : is_Some (locks st !! l) /\ walk_ok st w).
  { pose proof (sy_pc _ (inv_y _ I) _ _ Hx) as H.
    destruct Hpc as [E|E]; rewrite E in H; destruct H as [(e & -> & _) Hw]; done. }
  destruct Hok as [[e He] Hw]. destruct w as [|[c|] d|k d]; cbn in *.
  - rewrite He. eauto.
  - destruct Hw as [y Hy]. rewrite Hy. cbn. repeat case_match; eauto.
  - eauto.
  - destruct Hw as [e' ->]. eauto.
Qed.

Definition walk_left (n : nat) (w : walk) : nat :=
  match w with WStart => 2 * n + 2 | WTrx _ d => 2 * (n - d) | WLock _ d => 2 * (n - d) - 1 end.

Lemma walk_left_decreases st n u l w w' :
  on_track st n u (Walk1 l w) -> walk_step st u l w = Some (inl w') ->
  (walk_left n w' < walk_left n w)%nat.
Proof.
  intros Ht Hr. destruct w as [|[c|] d|q d]; cbn [on_track walk_step] in Ht, Hr.
  - destruct (locks st !! l); [|done]. injection Hr as <-. cbn. lia.
  - case_match; [|done]. case_bool_decide; [done|]. destruct (trxs st !! c); [|done]. cbn in Hr.
    destruct (waiting_on _); [|done]. injection Hr as <-. unfold walk_left. lia.
  - done.
  - destruct (locks st !! q); [|done]. injection Hr as <-. unfold walk_left. lia.
Qed.

Lemma on_track_reports n k u x st l w :
  (walk_left n w < k)%nat -> inv st -> (0 < n <= DEADLOCK_MAX_DEPTH)%nat ->
  blocker_n st n u = Some u -> trxs st !! u = Some x -> t_pc x = Walk1 l w ->
  on_track st n u (Walk1 l w) ->
  exists j st' x', iterate j (fun s => acquire_walk s u) st = Some st' /\
    trxs st' !! u = Some x' /\ t_pc x' = PostWalk l true.
Proof.
  revert x st w. induction k as [|k IH]; intros x st w Hk I Hn Hc Hx Hpc Ht; [lia|].
  destruct (walk_step_defined st u x l w I Hx (or_introl Hpc)) as [r Hr].
  pose proof (on_track_walk _ _ _ _ _ _ _ (inv_s _ I) Hn Hc Hx Hpc Ht Hr) as Ht'.
  set (x' := with_pc (match r with inl w' => Walk1 l w' | inr b => PostWalk l b end) x).
  assert (Hs : acquire_walk st u = Some (put_trx u x' st)).
  { unfold acquire_walk. rewrite Hx. cbn. rewrite Hpc. cbn. by rewrite Hr. }
  assert (Hx' : trxs (put_trx u x' st) !! u = Some x') by apply lookup_insert_eq.
  destruct r as [w'|b]; cycle 1.
  { destruct b; [|done]. exists 1%nat. eexists _, x'. cbn. by rewrite Hs. }
  assert (Ee : forall a, edge (put_trx u x' st) a = edge st a).
  { intros a. rewrite edge_put. case_decide as E; [|done]. rewrite E. unfold edge.
    rewrite Hx. cbn. by rewrite Hpc. }
  assert (En : forall m a, blocker_n (put_trx u x' st) m a = blocker_n st m a).
  { induction m as [|m IHm]; intros a; [done|]. cbn. unfold blocker at 1. rewrite Ee.
    fold (blocker st a). change (owner (put_trx u x' st)) with (owner st). fold (blocker st a).
    destruct (blocker st a); [apply IHm|done]. }
  destruct (IH x' (put_trx u x' st) w') as (j & st' & x'' & Hj & Hrest); try done.
  - pose proof (walk_left_decreases _ _ _ _ _ _ Ht Hr). lia.
  - eapply inv_step; [exact I|]. by eapply step_walk.
  - by rewrite En.
  - eapply (on_track_ext st); [..|exact Ht']; [intros; by rewrite En|intros; by rewrite Ee].
  - exists (S j), st', x''. cbn. by rewrite Hs.
Qed.

(** ** Running the release loop *)

Lemma holds_nil st t x :
  holds_exactly st t x -> cursor x = None -> forall k e, locks st !! k = Some e -> owner_trx e <> Some t.
Proof.
  intros (l & _ & Hl & Hk) Hc k e He Ho. rewrite Hc in Hl. destruct l; [|by destruct Hl].
  apply (Hk _ _ He) in Ho. by apply not_elem_of_nil in Ho.
Qed.

Definition same_but_mine (t : nat) (st st' : lock_table) : Prop :=
  forall k e, locks st !! k = Some e -> exists e', locks st' !! k = Some e' /\
    rl_pk e' = rl_pk e /\ waiters e' = waiters e /\
    (owner_trx e <> Some t -> e' = e) /\ (owner_trx e = Some t -> owner_txn_id e' = 0 /\ owner_trx e' = None).

Lemma release_loop t l st x :
  inv st -> mutexes st = ∅ -> trxs st !! t = Some x -> (exists c, t_pc x = Releasing c) ->
  NoDup l -> held_list (locks st) (cursor x) l ->
  (forall k e, locks st !! k = Some e -> (k ∈ l <-> owner_trx e = Some t)) ->
  exists n st' x', iterate n (fun s => release_next s t) st = Some st' /\ mutexes st' = ∅ /\
    trxs st' !! t = Some x' /\ t_pc x' = Ready HA_OK /\ held_locks_head x' = None /\
    same_but_mine t st st'.
Proof.
  revert st x. induction l as [|a l IH]; intros st x I Hm Hx [c Hpc] Hnd Hl Hk;
    unfold cursor in Hl; rewrite Hpc in Hl; cbn in Hl.
  - subst c. exists 1%nat. eexists _, _. cbn. unfold release_next. rewrite Hx. cbn. rewrite Hpc. cbn.
    split; [done|]. split; [done|]. split; [apply lookup_insert_eq|]. repeat split.
    intros k e He. exists e. do 3 (split; [done|]). split; [done|]. intros Ho.
    apply (Hk _ _ He) in Ho. by apply not_elem_of_nil in Ho.
  - destruct Hl as [-> (e & He & Hl)].
    set (st1 := put_trx t (with_pc (Releasing (held_next e)) x)
                  (put_lock a (mk_lock (rl_pk e) 0 None (waiters e) None (rl_partition e)) st)).
    set (st2 := if 0 <? waiters e then cond_broadcast a st1 else st1).
    assert (Hs : release_next st t = Some st2).
    { unfold release_next. rewrite Hx. cbn. rewrite Hpc. cbn. rewrite He. cbn.
      rewrite Hm, lookup_empty. done. }
    assert (Hx2 : trxs st2 !! t = Some (with_pc (Releasing (held_next e)) x)).
    { unfold st2. case_match; cbn; [rewrite lookup_fmap|]; by rewrite lookup_insert_eq. }
    assert (Hl2 : locks st2 = <[a := mk_lock (rl_pk e) 0 None (waiters e) None (rl_partition e)]> (locks st)).
    { unfold st2. by case_match. }
    apply NoDup_cons in Hnd as [Hnin Hnd].
    destruct (IH st2 (with_pc (Releasing (held_next e)) x)) as (n & st' & x' & Hn & Hm' & Hx' & Hp' & Hh' & Hsame);
      try done.
    + eapply inv_step; [exact I|]. by eapply step_release_next.
    + unfold st2. by case_match.
    + eauto.
    + rewrite Hl2. eapply held_list_ext; [|exact Hl]. intros k ek Hin Hek. exists ek.
      rewrite lookup_insert_ne; [done|]. by intros <-.
    + intros k ek. rewrite Hl2. intros [[<- <-]|[Hne Hek]]%lookup_insert_Some; [by split|].
      rewrite <- (Hk _ _ Hek), elem_of_cons. naive_solver.
    + exists (S n), st', x'. cbn. rewrite Hs. do 5 (split; [done|]). intros k ek Hek. destruct (decide (k = a)) as [->|Hne].
      * simplify_eq. destruct (Hsame a (mk_lock (rl_pk e) 0 None (waiters e) None (rl_partition e)))
          as (e' & He' & Hpk & Hw & Heq & _); [by rewrite Hl2, lookup_insert_eq|].
        specialize (Heq ltac:(done)) as ->. eexists. do 3 (split; [done|]). split; [|done].
        intros Ho. exfalso. apply Ho, (Hk _ _ He). constructor.
      * apply Hsame. by rewrite Hl2, lookup_insert_ne.
Qed.

(** ** The deadlock walk on a state that stands still *)

(** The transaction the owner chain reaches after [d] hops from [cur]. *)
Fixpoint chain (st : lock_table) (d : nat) (cur : option nat) : option nat :=
  match d with
  | O => cur
  | S d => chain st d (c ← cur; x ← trxs st !! c; l ← waiting_on x; locks st !! l ≫= owner_trx)
  end.

Lemma chain_None st d : chain st d None = None.
Proof. induction d; done. Qed.

Lemma walk_from_spec st r fuel cur :
  walk_from st r fuel cur = true <-> exists d, (d < fuel)%nat /\ chain st d cur = Some r.
Proof.
  revert cur. induction fuel as [|fuel IH]; intros cur; cbn.
  { split; [done|]. intros (d & Hd & _). lia. }
  destruct cur as [c|].
  2: { split; [done|]. intros (d & _ & Hd). by rewrite chain_None in Hd. }
  case_bool_decide as E.
  { split; [|done]. intros _. exists 0%nat. split; [lia|]. by rewrite E. }
  assert (Hs : forall d, chain st (S d) (Some c) =
     chain st d ((trxs st !! c ≫= waiting_on) ≫= fun l => locks st !! l ≫= owner_trx)).
  { intros d. cbn. by destruct (trxs st !! c). }
  destruct (trxs st !! c ≫= waiting_on) as [l|] eqn:Ew.
  - rewrite IH. split.
    + intros (d & Hd & Hc). exists (S d). rewrite Hs. split; [lia|done].
    + intros ([|d] & Hd & Hc); [cbn in Hc; congruence|]. exists d. rewrite Hs in Hc.
      split; [lia|done].
  - split; [done|]. intros ([|d] & Hd & Hc); [cbn in Hc; congruence|].
    rewrite Hs in Hc. cbn in Hc. by rewrite chain_None in Hc.
Qed.

(** ** Properties *)

(** C17: in every reachable state of the lock manager each key has at most one
    lock entry, a lock's owner is a live connection, and following [held_next]
    from a connection's head visits exactly the locks that name it as owner,
    each once; so no lock has two owners and no owned lock is ever lost from its
    owner's list. *)
Theorem locks_owned_exactly (st : lock_table) (H : reachable st) :
  (forall l1 l2 e1 e2, locks st !! l1 = Some e1 -> locks st !! l2 = Some e2 ->
     rl_pk e1 = rl_pk e2 -> l1 = l2) /\
  (forall l e t, locks st !! l = Some e -> owner_trx e = Some t -> is_Some (trxs st !! t)) /\
  (forall t x, trxs st !! t = Some x -> holds_exactly st t x).
Proof.
  apply inv_reachable in H. split; [|split].
  - apply (is_unique _ (inv_s _ H)).
  - apply (sy_owner _ (inv_y _ H)).
  - apply (inv_h _ H).
Qed.

(** C15: a connection asleep on a lock that has not been signalled sleeps on a
    lock that is owned by another live connection and has a positive waiter
    count, so that owner's release will broadcast: no wake-up is lost. *)
Theorem no_lost_wakeup (st : lock_table) (t : nat) (x : trx) (l : nat)
    (H : reachable st) (Hx : trxs st !! t = Some x) (Hpc : t_pc x = Asleep l false) :
  exists e o, locks st !! l = Some e /\ owner_trx e = Some o /\ o <> t /\
    is_Some (trxs st !! o) /\ 0 < waiters e.
Proof.
  apply inv_reachable in H as I. pose proof (sy_pc _ (inv_y _ I) _ _ Hx) as Hok.
  rewrite Hpc in Hok. destruct Hok as (e & He & Ho & Hs). specialize (Hs eq_refl).
  exists e. destruct (owner_trx e) as [o|] eqn:Eo.
  - exists o. repeat split; try done; [congruence|by eapply (sy_owner _ (inv_y _ I))|].
    destruct (Z.le_gt_cases (waiters e) 0) as [Hw|]; [exfalso|lia].
    pose proof (no_waiters_no_loop _ _ _ _ _ (inv_w _ I) He Hw Hx) as Hf.
    unfold in_loop in Hf. rewrite Hpc in Hf. by rewrite bool_decide_true in Hf.
  - destruct Hs. apply (owner_free _ (is_owner _ (inv_s _ I) _ _ He)). done.
Qed.

(** a deadlock walk never follows a dangling pointer: whatever the other
    connections do between its loads, its next load is of live memory. *)
Theorem walk_never_dangles (st : lock_table) (t : nat) (x : trx) (l : nat) (w : walk)
    (H : reachable st) (Hx : trxs st !! t = Some x)
    (Hpc : t_pc x = Walk1 l w \/ t_pc x = LoopWalk l w) :
  exists r, walk_step st t l w = Some r.
Proof. eapply walk_step_defined; [by apply inv_reachable|done|done]. Qed.

(** C18: whenever a wait-for cycle of at most [DEADLOCK_MAX_DEPTH] connections
    exists, one of its members is in its first walk and, running on alone,
    finishes it with the answer [deadlock]: no such cycle can be missed. *)
Theorem cycle_reported (st : lock_table) (n t : nat)
    (H : reachable st) (Hn : (0 < n <= DEADLOCK_MAX_DEPTH)%nat) (Hc : blocker_n st n t = Some t) :
  exists i u l j st' x', (i < n)%nat /\ blocker_n st i t = Some u /\
    iterate j (fun s => acquire_walk s u) st = Some st' /\
    trxs st' !! u = Some x' /\ t_pc x' = PostWalk l true.
Proof.
  pose proof (inv_reachable _ _ H) as I.
  destruct (inv_cycles_reachable _ H n t Hn Hc) as (i & u & x & Hi & Hu & Hx & Ht).
  pose proof (blocker_n_rotate _ _ _ _ _ Hc Hu) as Hcu. exists i, u.
  destruct (t_pc x) as [|l w|l []| | | | | |] eqn:Hpc; try done.
  - destruct (on_track_reports n _ u x st l w (Nat.lt_succ_diag_r _) I Hn Hcu Hx Hpc Ht)
      as (j & st' & x' & Hj & Hx' & Hp). by exists l, j, st', x'.
  - by exists l, 0%nat, st, x.
Qed.

(** C16: in no reachable state are all connections of a wait-for cycle of at most
    [DEADLOCK_MAX_DEPTH] members asleep. *)
Theorem no_sleeping_cycle (st : lock_table) (n t : nat)
    (H : reachable st) (Hn : (0 < n <= DEADLOCK_MAX_DEPTH)%nat) (Hc : blocker_n st n t = Some t) :
  exists i u x, (i < n)%nat /\ blocker_n st i t = Some u /\ trxs st !! u = Some x /\
    forall l sg, t_pc x <> Asleep l sg.
Proof.
  destruct (inv_cycles_reachable _ H n t Hn Hc) as (i & u & x & Hi & Hu & Hx & Ht).
  exists i, u, x. repeat split; try done. intros l sg E. by rewrite E in Ht.
Qed.

(** [tdb_lock_would_deadlock], on a state that stands still, answers true
    exactly when the owner chain of the target lock reaches the requestor in
    fewer than [DEADLOCK_MAX_DEPTH] hops. *)
Theorem would_deadlock_spec (st : lock_table) (requestor target : nat) :
  tdb_lock_would_deadlock st requestor target = true <->
  exists d, (d < DEADLOCK_MAX_DEPTH)%nat /\
    chain st d (locks st !! target ≫= owner_trx) = Some requestor.
Proof. apply walk_from_spec. Qed.

(** [row_locks_release_all], run while no partition mutex is taken, ends: the
    connection is back outside the manager with an empty list, every lock it
    owned is free and every other lock entry is untouched. *)
Theorem release_all_frees (st : lock_table) (t : nat) (x : trx) (last : ha_rc)
    (H : reachable st) (Hm : mutexes st = ∅) (Hx : trxs st !! t = Some x) (Hpc : t_pc x = Ready last) :
  exists st1 n st' x', release_start st t = Some st1 /\
    iterate n (fun s => release_next s t) st1 = Some st' /\
    trxs st' !! t = Some x' /\ t_pc x' = Ready HA_OK /\ held_locks_head x' = None /\
    same_but_mine t st st'.
Proof.
  pose proof (inv_reachable _ _ H) as I.
  set (x1 := with_pc (Releasing (held_locks_head x)) x).
  assert (Hs : release_start st t = Some (put_trx t x1 st)).
  { unfold release_start. rewrite Hx. cbn. by rewrite Hpc. }
  exists (put_trx t x1 st).
  assert (I1 : inv (put_trx t x1 st)) by (eapply inv_step; [exact I|by eapply step_release_start]).
  assert (Hx1 : trxs (put_trx t x1 st) !! t = Some x1) by apply lookup_insert_eq.
  destruct (inv_h _ I1 _ _ Hx1) as (l & Hnd & Hl & Hk).
  destruct (release_loop t l _ x1 I1 Hm Hx1 (ex_intro _ _ eq_refl) Hnd Hl Hk)
    as (n & st' & x' & Hn & _ & Hx' & Hp' & Hh & Hsame).
  by exists n, st', x'.
Qed.

(** Entering [row_lock_acquire] while the partition mutex is free and memory
    suffices: afterwards exactly one entry carries the key; if it was free or
    ours the call returns with the lock ours, otherwise its wait intent is
    published and the deadlock walk begins. *)
Theorem acquire_enter_spec (st : lock_table) (t : nat) (x : trx) (last : ha_rc) (key : bytes)
    (H : reachable st) (Hx : trxs st !! t = Some x) (Hpc : t_pc x = Ready last)
    (Hm : mutexes st !! tdb_lock_part XXH3_64bits key = None) :
  exists st' x' l e', acquire_enter XXH3_64bits st t key true = Some st' /\
    trxs st' !! t = Some x' /\ locks st' !! l = Some e' /\ rl_pk e' = key /\
    ((t_pc x' = Ready HA_OK /\ owner_trx e' = Some t) \/
     (t_pc x' = Walk1 l WStart /\ waiting_on x' = Some l /\
      exists o, owner_trx e' = Some o /\ o <> t /\ locks st !! l = Some e')).
Proof.
  pose proof (inv_reachable _ _ H) as I. unfold acquire_enter. rewrite Hx. cbn. rewrite Hpc, Hm.
  destruct (tdb_lock_find_or_create st (tdb_lock_part XXH3_64bits key) key true) as [[l st1]|] eqn:Hf.
  2: { unfold tdb_lock_find_or_create in Hf. by case_match. }
  pose proof (find_or_create_spec _ _ _ _ _ _ (is_chains _ (inv_s _ I)) Hf) as (Ha & Et & Em & e & He & Hp & Hk).
  pose proof (inv_alloc _ _ _ I Ha) as I1. pose proof (is_owner _ (inv_s _ I1) _ _ He) as Ho.
  rewrite He. cbn. rewrite <- Et in Hx. destruct (is_trx _ (inv_s _ I1) _ _ Hx) as (Hid & _).
  case_match eqn:E1; [|destruct (bool_decide_reflect (owner_txn_id e = 0)) as [E2|E2]].
  - apply andb_true_iff in E1 as [_ E1]. apply bool_decide_eq_true in E1.
    eexists _, _, l, e. split; [done|]. split; [apply lookup_insert_eq|].
    do 2 (split; [done|]). by left.
  - eexists _, _, l, _. split; [done|]. split; [apply lookup_insert_eq|].
    split; [apply lookup_insert_eq|]. split; [done|]. by left.
  - eexists _, _, l, e. split; [done|]. split; [apply lookup_insert_eq|].
    do 2 (split; [done|]). right.
    do 2 (split; [done|]). destruct (owner_trx e) as [o|] eqn:Eo.
    2: { destruct E2. by apply owner_free. }
    exists o. split; [done|]. split.
    + intros ->. unfold owner_ok in Ho. rewrite Eo in Ho. rewrite Ho, Hid in E1.
      by rewrite !bool_decide_true in E1.
    + destruct Ha as [<-|(p & pk & -> & _)]; [done|]. cbn in He.
      apply lookup_insert_Some in He as [[<- <-]|[_ He]]; [done|done].
Qed.

(** ** The end of the manager *)

Definition chains_nodup (st : lock_table) : Prop := forall p c, chains st !! p = Some c -> NoDup c.

Lemma chains_nodup_reachable st : reachable st -> chains_nodup st.
Proof.
  intros H. enough (inv_struct st /\ chains_nodup st) by tauto.
  eapply (rtc_invariant step (fun st => inv_struct st /\ chains_nodup st)); [| |exact H]; clear st H.
  - intros st st' [I Hn] Hst. split; [by eapply inv_struct_step|].
    apply step_eff in Hst as (t & st1 & Ha & He); [|apply I]. assert (Hn1 : chains_nodup st1).
    { destruct Ha as [->|(p & pk & -> & _)]; [done|]. intros q c. cbn. intros [[<- <-]|[_ Hq]]%lookup_insert_Some; [|by eapply Hn].
      apply NoDup_cons. destruct (chains st !! p) as [c0|] eqn:Hc; [|split; [apply not_elem_of_nil|constructor]].
      split; [|by eapply Hn]. intros Hin. destruct (is_chains _ I _ _ _ Hc Hin) as (e & He0 & _). apply (is_lt _ I) in He0. cbn in He0. lia. }
    destruct He as [->|He]; [done|]. destruct (eff_frame _ _ _ He) as (_ & Hc & _). intros p c. rewrite Hc. apply Hn1.
  - split; [apply inv_struct_init|]. intros p c Hc. cbn in Hc. by rewrite lookup_empty in Hc.
Qed.

(** [tdb_row_lock_destroy] frees every entry exactly once. *)
Theorem destroy_frees_each (st : lock_table) (H : reachable st) :
  NoDup (tdb_row_lock_destroy st) /\ forall l, l ∈ tdb_row_lock_destroy st <-> is_Some (locks st !! l).
Proof.
  pose proof (inv_s _ (inv_reachable _ _ H)) as I. unfold tdb_row_lock_destroy.
  assert (Hch : forall i l, l ∈ default [] (chains st !! i) -> exists e, locks st !! l = Some e /\ rl_partition e = i).
  { intros i l Hl. destruct (chains st !! i) as [c|] eqn:Hc; [|by apply not_elem_of_nil in Hl]. by eapply (is_chains _ I). }
  split.
  - apply NoDup_bind; [| |apply NoDup_seq].
    + intros i j l _ _ (e & He & Hi)%Hch (e' & He' & Hj)%Hch. rewrite He in He'. injection He' as <-. lia.
    + intros i _. destruct (chains st !! Z.of_nat i) as [c|] eqn:Hc; [|constructor]. by eapply chains_nodup_reachable.
  - intros l. rewrite list_elem_of_bind. split; [intros (i & (e & He & _)%Hch & _); eauto|].
    intros [e He]. destruct (is_inchain _ I l e He) as [Hp Hin]. exists (Z.to_nat (rl_partition e)).
    assert (Hr : 0 <= rl_partition e < ROW_LOCK_PARTITIONS) by (rewrite Hp; apply Z.mod_pos_bound; done).
    rewrite Z2Nat.id by lia. split; [done|]. apply elem_of_seq. lia.
Qed.

End Manager.

(** ** Concrete runs *)

Inductive action :=
| Connect (t : nat) | Enter (t : nat) (key : bytes) | Walk (t : nat) | AfterWalk (t : nat)
| LoopTop (t : nat) | WalkAgain (t : nat) | Wake (t : nat) | ClaimExit (t : nat) | Release (t : nat) | ReleaseNext (t : nat).

(** All keys in one partition. *)
Definition one_partition : bytes -> Z := fun _ => 0.

Definition perform (a : action) (st : lock_table) : option lock_table :=
  match a with
  | Connect t => connect st t
  | Enter t key => acquire_enter one_partition st t key true
  | Walk t => acquire_walk st t
  | AfterWalk t => acquire_after_walk st t
  | LoopTop t => acquire_loop_head st t false
  | WalkAgain t => acquire_loop_walk st t
  | Wake t => acquire_wake st t
  | ClaimExit t => acquire_claim_exit st t
  | Release t => release_start st t
  | ReleaseNext t => release_next st t
  end.

Lemma perform_step a st st' : perform a st = Some st' -> step one_partition st st'.
Proof.
  destruct a; intros Ha;
    [by eapply step_connect|by eapply step_enter|by eapply step_walk|by eapply step_after_walk|by eapply step_loop_head
    |by eapply step_loop_walk|by eapply step_wake|by eapply step_claim_exit|by eapply step_release_start|by eapply step_release_next].
Qed.

Fixpoint run (l : list action) (st : lock_table) : option lock_table :=
  match l with [] => Some st | a :: l => perform a st ≫= run l end.

Lemma run_reachable l st st' :
  run l st = Some st' -> reachable one_partition st -> reachable one_partition st'.
Proof.
  revert st. induction l as [|a l IH]; intros st Hr Hst; cbn in Hr; [by simplify_eq|].
  destruct (perform a st) as [st1|] eqn:Ha; [|done]. apply (IH st1 Hr).
  eapply rtc_r; [exact Hst|by apply perform_step in Ha].
Qed.

Definition final (l : list action) : lock_table := default tdb_row_lock_init (run l tdb_row_lock_init).

Lemma final_reachable l :
  is_Some (run l tdb_row_lock_init) -> reachable one_partition (final l).
Proof.
  intros [st Hr]. unfold final. rewrite Hr. eapply run_reachable; [exact Hr|constructor].
Qed.

(** Connection 2 sleeps on the lock of connection 1. *)
Definition sleeper_run : list action :=
  [Connect 1; Connect 2; Enter 1 [65]; Enter 2 [65]; Walk 2; Walk 2; AfterWalk 2;
   LoopTop 2; WalkAgain 2; WalkAgain 2].
(** Connections 1 and 2 each hold the lock the other enters. *)
Definition cycle_run : list action :=
  [Connect 1; Connect 2; Enter 1 [65]; Enter 2 [66]; Enter 1 [66]; Enter 2 [65]].
(** Connection 1 holds two locks. *)
Definition holder_run : list action := [Connect 1; Enter 1 [65]; Enter 1 [66]].

Ltac reach := apply final_reachable; vm_compute; eexists; reflexivity.

Lemma locks_owned_exactly_witness :
  reachable one_partition (final sleeper_run) /\
  forall t x, trxs (final sleeper_run) !! t = Some x -> holds_exactly (final sleeper_run) t x.
Proof.
  assert (H : reachable one_partition (final sleeper_run)) by reach.
  split; [exact H|]. apply (locks_owned_exactly one_partition _ H).
Defined.

Lemma no_lost_wakeup_witness :
  exists e o, locks (final sleeper_run) !! 0%nat = Some e /\ owner_trx e = Some o /\ o <> 2%nat /\
    is_Some (trxs (final sleeper_run) !! o) /\ 0 < waiters e.
Proof.
  eapply (no_lost_wakeup one_partition (final sleeper_run) 2); [reach|vm_compute; reflexivity|reflexivity].
Defined.

Lemma walk_never_dangles_witness : exists r, walk_step (final cycle_run) 2 0 WStart = Some r.
Proof.
  eapply (walk_never_dangles one_partition (final cycle_run) 2); [reach|vm_compute; reflexivity|].
  by left.
Defined.

Lemma cycle_reported_witness :
  exists i u l j st' x', (i < 2)%nat /\ blocker_n (final cycle_run) i 1 = Some u /\
    iterate j (fun s => acquire_walk s u) (final cycle_run) = Some st' /\
    trxs st' !! u = Some x' /\ t_pc x' = PostWalk l true.
Proof.
  apply (cycle_reported one_partition (final cycle_run) 2 1); [reach|unfold DEADLOCK_MAX_DEPTH; lia|].
  vm_compute. reflexivity.
Defined.

Lemma no_sleeping_cycle_witness :
  exists i u x, (i < 2)%nat /\ blocker_n (final cycle_run) i 1 = Some u /\
    trxs (final cycle_run) !! u = Some x /\ forall l sg, t_pc x <> Asleep l sg.
Proof.
  apply (no_sleeping_cycle one_partition (final cycle_run) 2 1); [reach|unfold DEADLOCK_MAX_DEPTH; lia|].
  vm_compute. reflexivity.
Defined.

Lemma release_all_frees_witness :
  exists st1 n st' x', release_start (final holder_run) 1 = Some st1 /\
    iterate n (fun s => release_next s 1) st1 = Some st' /\
    trxs st' !! 1%nat = Some x' /\ t_pc x' = Ready HA_OK /\ held_locks_head x' = None /\
    same_but_mine 1 (final holder_run) st'.
Proof.
  eapply (release_all_frees one_partition (final holder_run) 1);
    [reach|vm_compute; reflexivity|vm_compute; reflexivity|reflexivity].
Defined.

Lemma acquire_enter_spec_witness :
  exists st' x' l e', acquire_enter one_partition (final holder_run) 1 [67] true = Some st' /\
    trxs st' !! 1%nat = Some x' /\ locks st' !! l = Some e' /\ rl_pk e' = [67] /\
    ((t_pc x' = Ready HA_OK /\ owner_trx e' = Some 1%nat) \/
     (t_pc x' = Walk1 l WStart /\ waiting_on x' = Some l /\
      exists o, owner_trx e' = Some o /\ o <> 1%nat /\ locks (final holder_run) !! l = Some e')).
Proof.
  eapply (acquire_enter_spec one_partition (final holder_run) 1);
    [reach|vm_compute; reflexivity|reflexivity|vm_compute; reflexivity].
Defined.

Lemma destroy_frees_each_witness : NoDup (tdb_row_lock_destroy (final holder_run)) /\ 0%nat ∈ tdb_row_lock_destroy (final holder_run).
Proof.
  destruct (destroy_frees_each one_partition (final holder_run)) as [H1 H2]; [apply final_reachable; vm_compute; eauto|].
  split; [exact H1|]. apply H2. vm_compute. eauto.
Defined.
