(* ===== verification/Scan.v ===== *)
(** * Ordered key-value scans

    A column family is read through iterators that visit its entries in
    [memcmp] order.  The plugin's scans all have one shape: seek to a prefix and
    go on while the key still starts with it.  Here an ordered column family is
    a list of entries with strictly increasing keys, and the shape is shown to
    visit exactly the entries with the prefix. *)

From Stdlib Require Import ZArith Lia Sorting.Sorted.
From stdpp Require Import base tactics list numbers sorting.
From S2P Require Import Prelude.

Lemma filter_ext_elem {A} (P Q : A -> Prop) `{forall x, Decision (P x), forall x, Decision (Q x)} (l : list A) :
  (forall x, x ∈ l -> P x <-> Q x) -> filter P l = filter Q l.
Proof.
  induction l as [|a l IH]; intros Hpq; [done|]. rewrite !filter_cons.
  assert (Ha : P a <-> Q a) by (apply Hpq; constructor).
  assert (Hl : filter P l = filter Q l) by (apply IH; intros; apply Hpq; by constructor).
  repeat case_decide; [by rewrite Hl|tauto|tauto|done].
Qed.

Lemma filter_all {A} (P : A -> Prop) `{forall x, Decision (P x)} (l : list A) :
  (forall x, x ∈ l -> P x) -> filter P l = l.
Proof.
  induction l as [|a l IH]; intros Hp; [done|]. rewrite filter_cons_True by (apply Hp; constructor).
  f_equal. apply IH. intros. apply Hp. by constructor.
Qed.

Definition has_prefix (p k : bytes) : bool := bool_decide (take (length p) k = p).

Lemma has_prefix_iff p k : has_prefix p k = true <-> exists r, k = p ++ r.
Proof.
  unfold has_prefix. rewrite bool_decide_eq_true. split.
  - intros H. exists (drop (length p) k). by rewrite <- H at 1; rewrite take_drop.
  - intros [r ->]. by rewrite take_app_length.
Qed.

Lemma has_prefix_cons c p k : has_prefix (c :: p) k = true <-> exists k', k = c :: k' /\ has_prefix p k' = true.
Proof. rewrite has_prefix_iff. setoid_rewrite has_prefix_iff. naive_solver. Qed.

Lemma has_prefix_not_lt p k : has_prefix p k = true -> bytes_compare k p <> Lt.
Proof.
  intros [r ->]%has_prefix_iff. rewrite <- (app_nil_r p) at 2. rewrite bytes_compare_app.
  by destruct r.
Qed.

(** Between the prefix and a key that starts with it lie only such keys. *)
Lemma has_prefix_between p k1 k2 :
  bytes_compare k1 p <> Lt -> bytes_lt k1 k2 -> has_prefix p k2 = true -> has_prefix p k1 = true.
Proof.
  revert k1 k2. induction p as [|c p IH]; intros k1 k2 H1 Hlt H2; [done|].
  apply has_prefix_cons in H2 as (k2' & -> & H2). apply has_prefix_cons.
  destruct k1 as [|d k1]; [by cbn in H1|]. unfold bytes_lt in Hlt. cbn in H1, Hlt.
  destruct (Z.compare_spec d c); subst; [|done|done]. exists k1. split; [done|]. eauto.
Qed.

Lemma bytes_lt_trans a b c : bytes_lt a b -> bytes_lt b c -> bytes_lt a c.
Proof.
  unfold bytes_lt. revert b c. induction a as [|x a IH]; intros [|y b] [|z c]; cbn; try done.
  destruct (Z.compare_spec x y), (Z.compare_spec y z); subst; try done; intros.
  - rewrite Z.compare_refl. eauto.
  - by rewrite (proj2 (Z.compare_lt_iff y z)).
  - by rewrite (proj2 (Z.compare_lt_iff x z)).
  - by rewrite (proj2 (Z.compare_lt_iff x z)) by lia.
Qed.

Section Scan.
Context {A : Type} (key : A -> bytes).

Definition sorted_cf (l : list A) : Prop := StronglySorted (fun a b => bytes_lt (key a) (key b)) l.

(** The entries an iterator sees from [seek p] on. *)
Fixpoint seek (p : bytes) (l : list A) : list A :=
  match l with
  | [] => []
  | a :: rest => match bytes_compare (key a) p with Lt => seek p rest | _ => l end
  end.

Fixpoint take_while (f : A -> bool) (l : list A) : list A :=
  match l with
  | [] => []
  | a :: rest => if f a then a :: take_while f rest else []
  end.

Definition scan_prefix (p : bytes) (l : list A) : list A :=
  take_while (fun a => has_prefix p (key a)) (seek p l).

Definition with_prefix (p : bytes) (l : list A) : list A :=
  filter (fun a => has_prefix p (key a) = true) l.

Lemma with_prefix_none p l :
  Forall (fun a => has_prefix p (key a) = false) l -> with_prefix p l = [].
Proof.
  induction l as [|a l IH]; [done|]. intros [Ha Hl]%List.Forall_cons_iff. unfold with_prefix.
  rewrite filter_cons_False by congruence. by apply IH.
Qed.

(** From the first key that is not before the prefix on. *)
Lemma take_while_prefix p l :
  sorted_cf l -> Forall (fun a => bytes_compare (key a) p <> Lt) l ->
  take_while (fun a => has_prefix p (key a)) l = with_prefix p l.
Proof.
  induction l as [|a l IH]; [done|]. intros [Hs Hall]%StronglySorted_inv [Ha Hl]%List.Forall_cons_iff.
  cbn [take_while]. destruct (has_prefix p (key a)) eqn:Hp.
  - unfold with_prefix. rewrite filter_cons_True by done. f_equal. by apply IH.
  - symmetry. apply with_prefix_none. constructor; [done|].
    eapply List.Forall_impl; [|exact Hall]. intros b Hab. apply not_true_iff_false. intros Hb.
    rewrite (has_prefix_between p (key a) (key b)) in Hp; done.
Qed.

Lemma scan_prefix_complete p l : sorted_cf l -> scan_prefix p l = with_prefix p l.
Proof.
  unfold scan_prefix. induction l as [|a l IH]; [done|]. intros Hsl.
  apply StronglySorted_inv in Hsl as Hsl'. destruct Hsl' as [Hs Hall]. specialize (IH Hs).
  cbn [seek]. destruct (bytes_compare (key a) p) eqn:Hc.
  2: { rewrite IH. unfold with_prefix. rewrite filter_cons_False; [done|].
       intros H. by apply has_prefix_not_lt in H. }
  all: apply take_while_prefix; [done|]; constructor; [congruence|].
  all: eapply List.Forall_impl; [|exact Hall]; intros b Hab Hb; cbn in Hab.
  - apply bytes_compare_eq in Hc. rewrite Hc in Hab. unfold bytes_lt in Hab.
    by rewrite bytes_compare_antisym, Hab in Hb.
  - pose proof (bytes_lt_trans _ _ _ Hab Hb) as Ht. unfold bytes_lt in Ht. congruence.
Qed.

End Scan.

#[export] Hint Resolve scan_prefix_complete : tdb.
