(* ===== verification/Paths.v ===== *)
(** * Backup and checkpoint destinations (ha_tidesdb.cc 1107-1423)

    [tdb_sanitize_for_log], the lexical check [tdb_path_is_safe], the
    confinement check [tdb_path_is_under_allowed_root] and the two SET GLOBAL
    handlers built on them.  A C string is the list of its bytes; a buffer that
    may hold NULs is [mem], whose terminator lies just past its end.  The
    file system ([realpath], [opendir]) and the engine's backup call are
    parameters. *)

From Stdlib Require Import ZArith Lia.
From stdpp Require Import base tactics list numbers sets.
From S2P Require Import Prelude Errors.

(** ** C strings *)

(** What a [const char *] pointing at [mem] reads as. *)
Fixpoint cstr (mem : bytes) : bytes :=
  match mem with
  | [] => []
  | c :: rest => if c =? 0 then [] else c :: cstr rest
  end.

(** ** Lines 1116-1131 *)

Definition log_char (c : Z) : Z := if (c <? 32) || (c =? 127) then 63 else c.

(** The loop: [o] bytes are written, [out_size] is the buffer's size. *)
Fixpoint sanitize_loop (mem : bytes) (o out_size : Z) : bytes :=
  match mem with
  | [] => []
  | c :: rest =>
    if c =? 0 then []
    else if o + 1 <? out_size then log_char c :: sanitize_loop rest (o + 1) out_size
    else []
  end.

(** The bytes written to [out], terminator included; [None] when [out] is null. *)
Definition tdb_sanitize_for_log (inp : option bytes) (out : bool) (out_size : Z) : option bytes :=
  if negb out || (out_size =? 0) then None
  else match inp with
       | None => Some [0]
       | Some mem => Some (sanitize_loop mem 0 out_size ++ [0])
       end.

(** ** Lines 1146-1167 *)

(** The [strstr] loop over the rest of the path, with the byte before it. *)
Fixpoint dotdot_free (prev : option Z) (p : bytes) : bool :=
  match p with
  | [] => true
  | c :: rest =>
    match rest with
    | d :: rest' =>
      if (c =? 46) && (d =? 46) then
        let prev_is_boundary := match prev with None => true | Some q => q =? 47 end in
        let next_is_boundary := match rest' with [] => true | q :: _ => q =? 47 end in
        if prev_is_boundary && next_is_boundary then false
        else dotdot_free (Some d) rest'
      else dotdot_free (Some c) rest
    | [] => true
    end
  end.

Definition tdb_path_is_safe (path : option bytes) (len : nat) : bool :=
  match path with
  | None => false
  | Some mem =>
    match mem with
    | c :: _ =>
      if c =? 47 then
        if existsb (fun i => nth i mem 0 =? 0) (seq 0 len) then false
        else dotdot_free None (cstr mem)
      else false
    | [] => false
    end
  end.

(** ** Lines 1179-1219 *)

Section Filesystem.

Variable realpath : bytes -> option bytes.

(** The part before the last slash: [find_last_of], with the two special cases. *)
Fixpoint last_slash (s : bytes) : option nat :=
  match s with
  | [] => None
  | c :: rest =>
    match last_slash rest with
    | Some i => Some (S i)
    | None => if c =? 47 then Some 0%nat else None
    end
  end.

Definition parent_dir (dest : bytes) : bytes :=
  match last_slash dest with
  | None | Some O => [47]
  | Some slash => take slash dest
  end.

Definition under_root (root_real parent_real : bytes) : bool :=
  let rlen := length root_real in
  bool_decide (take rlen parent_real = root_real) &&
  match drop rlen parent_real with [] => true | c :: _ => c =? 47 end.

Definition tdb_path_is_under_allowed_root (srv_backup_allowed_root : option bytes) (path : bytes)
    : bool :=
  match srv_backup_allowed_root with
  | None | Some [] => true
  | Some root =>
    match realpath root with
    | None => false
    | Some root_real =>
      match realpath (parent_dir path) with
      | None => false
      | Some parent_real => under_root root_real parent_real
      end
    end
  end.

(** ** Lines 1221-1354: SET GLOBAL tidesdb_backup_dir *)

(** The issuing connection's transaction, as far as the handler touches it. *)
Record backup_trx := mk_btrx { b_txn_open : bool; b_dirty : bool; b_generation : Z }.

(** Everything the handler reads from the outside. *)
Record backup_env := mk_benv {
  be_allowed_root : option bytes;
  be_killed : bool;
  be_engine_open : bool;
  be_entries : option (list bytes);   (* names in the destination; None: opendir fails *)
  be_backup_rc : tdb_rc               (* what tidesdb_backup returns *)
}.

Inductive backup_error :=
| PathUnsafe | OutsideRoot | QueryInterrupted | NotOpen | NotEmpty | BackupFailed (rc : tdb_rc).

Inductive backup_result :=
| Accepted (save : option bytes)      (* 0, and the value staged in [save] *)
| Rejected (e : backup_error).

(** Lines 1283-1292. *)
Definition free_txn (trx : option backup_trx) : option backup_trx :=
  match trx with
  | Some x => if b_txn_open x then Some (mk_btrx false false (u64 (b_generation x + 1))) else Some x
  | None => None
  end.

Definition has_entries (names : list bytes) : bool :=
  existsb (fun n => negb (bool_decide (n = [46]) || bool_decide (n = [46; 46]))) names.

(** The third component tells whether [tidesdb_backup] was called. *)
Definition tidesdb_backup_dir_check (env : backup_env) (trx : option backup_trx)
    (value : option bytes) (len : nat) : backup_result * option backup_trx * bool :=
  match value with
  | None => (Accepted None, trx, false)
  | Some mem =>
    match cstr mem with
    | [] => (Accepted None, trx, false)
    | new_dir =>
      if negb (tdb_path_is_safe (Some mem) len) then (Rejected PathUnsafe, trx, false)
      else if negb (tdb_path_is_under_allowed_root (be_allowed_root env) new_dir)
      then (Rejected OutsideRoot, trx, false)
      else if be_killed env then (Rejected QueryInterrupted, trx, false)
      else if negb (be_engine_open env) then (Rejected NotOpen, trx, false)
      else
        let trx := free_txn trx in
        if match be_entries env with Some names => has_entries names | None => false end
        then (Rejected NotEmpty, trx, false)
        else if bool_decide (be_backup_rc env = TDB_SUCCESS)
        then (Accepted (Some new_dir), trx, true)
        else (Rejected (BackupFailed (be_backup_rc env)), trx, true)
    end
  end.

(** ** Lines 1401-1423: SET GLOBAL tidesdb_checkpoint_dir; [false] is an error *)
Definition tidesdb_checkpoint_dir_check (value : option bytes) : bool :=
  match value with
  | None => true
  | Some mem => match cstr mem with [] => true | _ => false end
  end.

(** ** Path components *)

Fixpoint components (s : bytes) : list bytes :=
  match s with
  | [] => [[]]
  | c :: rest =>
    if c =? 47 then [] :: components rest
    else match components rest with
         | [] => [[c]]
         | w :: ws => (c :: w) :: ws
         end
  end.

Lemma components_nonempty s : components s <> [].
Proof. destruct s as [|c s]; cbn; [done|]. case_match; [done|]. by case_match. Qed.

Definition dotdot : bytes := [46; 46].

(** The first component and the rest. *)
Lemma components_split s : exists w ws, components s = w :: ws /\
  (w = [] <-> match s with [] => True | c :: _ => c = 47 end).
Proof.
  destruct s as [|c s]; cbn; [by exists [], []|].
  destruct (Z.eqb_spec c 47) as [->|Hc]; [by exists [], (components s)|].
  destruct (components s) as [|w ws]; [by eexists [c], []|by eexists (c :: w), ws].
Qed.

Lemma components_plain c s w ws :
  c <> 47 -> components s = w :: ws -> components (c :: s) = (c :: w) :: ws.
Proof. intros Hc Hs. cbn. apply Z.eqb_neq in Hc. by rewrite Hc, Hs. Qed.

Definition boundary (prev : option Z) : bool := match prev with None => true | Some q => q =? 47 end.

(** With a byte that is no boundary before [p], the first component of [p] is
    the tail of a longer one and does not count. *)
Definition counted (prev : option Z) (p : bytes) : list bytes :=
  if boundary prev then components p else tail (components p).

Lemma dotdot_free_dots prev p :
  dotdot_free prev (46 :: 46 :: p) =
  if boundary prev && match p with [] => true | q :: _ => q =? 47 end then false
  else dotdot_free (Some 46) p.
Proof. reflexivity. Qed.

Lemma dotdot_free_step prev c d p :
  ~ (c = 46 /\ d = 46) -> dotdot_free prev (c :: d :: p) = dotdot_free (Some c) (d :: p).
Proof.
  intros H. cbn [dotdot_free].
  destruct (Z.eqb_spec c 46), (Z.eqb_spec d 46); cbn [andb]; try done. by destruct H.
Qed.

Lemma dotdot_free_spec n p prev :
  (length p <= n)%nat -> dotdot_free prev p = true <-> dotdot ∉ counted prev p.
Proof.
  revert p prev. induction n as [|n IH]; intros p prev Hn.
  { destruct p; [|cbn in Hn; lia]. unfold counted. destruct (boundary prev); cbn; set_solver. }
  destruct p as [|c p]; [unfold counted; destruct (boundary prev); cbn; set_solver|].
  destruct p as [|d p].
  { unfold counted. cbn. destruct (Z.eqb_spec c 47), (boundary prev); cbn; unfold dotdot; set_solver. }
  cbn [length] in Hn. destruct (decide (c = 46 /\ d = 46)) as [[-> ->]|Hcd].
  - rewrite dotdot_free_dots. destruct (components_split p) as (w & ws & Hw & Hnil).
    assert (Hc : components (46 :: 46 :: p) = (46 :: 46 :: w) :: ws).
    { apply components_plain; [done|]. by apply components_plain. }
    specialize (IH p (Some 46) ltac:(lia)). unfold counted in IH |- *. cbn [boundary] in IH.
    change (46 =? 47) with false in IH. cbv iota in IH. rewrite Hw in IH. cbn [tail] in IH.
    rewrite Hc. destruct (boundary prev); cbn [tail andb]; [|done].
    assert (Hd : 46 :: 46 :: w = dotdot <-> w = []) by (unfold dotdot; split; congruence).
    destruct p as [|q p]; [rewrite (proj2 Hnil I)|]; [set_solver|].
    destruct (Z.eqb_spec q 47) as [->|Hq]; [rewrite (proj2 Hnil eq_refl); set_solver|].
    rewrite IH, not_elem_of_cons. split; [|tauto]. intros. split; [|done]. intros E.
    symmetry in E. by apply Hd, Hnil in E.
  - rewrite dotdot_free_step by done. rewrite IH by (cbn; lia).
    unfold counted at 1. cbn [boundary]. destruct (Z.eqb_spec c 47) as [->|Hc].
    + unfold counted. cbn [components]. change (47 =? 47) with true. cbv iota.
      destruct (boundary prev); cbn [tail]; [|done]. rewrite not_elem_of_cons. unfold dotdot. naive_solver.
    + destruct (components_split (d :: p)) as (w & ws & Hw & Hnil).
      unfold counted. rewrite (components_plain _ _ _ _ Hc Hw), Hw. cbn [tail].
      destruct (boundary prev); [|done]. rewrite not_elem_of_cons. split; [|tauto].
      intros Hws. split; [|done]. unfold dotdot. intros E. injection E as <- <-.
      apply Hcd. split; [done|]. destruct (Z.eq_dec d 47) as [->|Hd47].
      { cbn in Hw. done. }
      destruct (components_split p) as (w' & ws' & Hw' & _).
      rewrite (components_plain _ _ _ _ Hd47 Hw') in Hw. by injection Hw.
Qed.

Lemma cstr_id mem n :
  (length mem <= n)%nat -> cstr mem = mem <-> Forall (fun c => c <> 0) mem.
Proof.
  revert n. induction mem as [|c mem IH]; intros n Hn; cbn; [by split; [constructor|]|].
  rewrite List.Forall_cons_iff. destruct (Z.eqb_spec c 0) as [->|Hc].
  - split; [done|]. by intros [? _].
  - rewrite <- (IH n) by (cbn in Hn; lia). split; [|by intros [_ ->]]. intros E. by injection E.
Qed.

Lemma path_is_safe_iff mem len :
  tdb_path_is_safe (Some mem) len = true <->
  head mem = Some 47 /\ (forall i, (i < len)%nat -> nth i mem 0 <> 0) /\ dotdot ∉ components (cstr mem).
Proof.
  unfold tdb_path_is_safe. destruct mem as [|c mem]; [cbn; naive_solver|].
  destruct (Z.eqb_spec c 47) as [->|Hc]; [|cbn; naive_solver].
  destruct (existsb _ _) eqn:E.
  - apply existsb_exists in E as (i & Hi & Hz). apply in_seq in Hi. apply Z.eqb_eq in Hz.
    split; [done|]. intros (_ & H & _). destruct (H i); [lia|done].
  - rewrite (dotdot_free_spec _ _ None (le_n _)). unfold counted. cbn [boundary].
    split; [|tauto]. intros Hd. split; [done|]. split; [|done]. intros i Hi Hz.
    assert (existsb (fun i => nth i (47 :: mem) 0 =? 0) (seq 0 len) = true); [|congruence].
    apply existsb_exists. exists i. split; [apply in_seq; lia|by apply Z.eqb_eq].
Qed.

Lemma under_root_iff rr pr :
  under_root rr pr = true <-> pr = rr \/ exists rest, pr = rr ++ 47 :: rest.
Proof.
  unfold under_root. rewrite andb_true_iff, bool_decide_eq_true. split.
  - intros [Ht Hd]. rewrite <- (take_drop (length rr) pr), Ht.
    destruct (drop (length rr) pr) as [|c rest]; [left; apply app_nil_r|].
    apply Z.eqb_eq in Hd as ->. right. by exists rest.
  - intros [->|(rest & ->)].
    + by rewrite firstn_all, drop_all.
    + by rewrite take_app_length, drop_app_length.
Qed.

Lemma components_app a b : components (a ++ 47 :: b) = components a ++ components b.
Proof.
  induction a as [|c a IH]; [done|]. cbn. case_match; [by rewrite IH|].
  rewrite IH. destruct (components a) eqn:E; [by destruct (components_nonempty a)|done].
Qed.

(** The destination is confined to the allowed root. *)
Definition confined (root : option bytes) (dir : bytes) : Prop :=
  match root with
  | None | Some [] => True
  | Some root => exists rr pr, realpath root = Some rr /\ realpath (parent_dir dir) = Some pr /\
      (pr = rr \/ exists rest, pr = rr ++ 47 :: rest)
  end.

Lemma under_allowed_root_iff root dir :
  tdb_path_is_under_allowed_root root dir = true <-> confined root dir.
Proof.
  unfold tdb_path_is_under_allowed_root, confined. destruct root as [[|c root]|]; [done| |done].
  destruct (realpath (c :: root)) as [rr|]; [|naive_solver].
  destruct (realpath (parent_dir dir)) as [pr|]; [|naive_solver].
  rewrite under_root_iff. naive_solver.
Qed.

(** ** Properties *)

(** C37: [tdb_path_is_safe] accepts exactly the absolute paths without a NUL in
    the given length and without a [..] component, however the dots and
    slashes around it are arranged. *)
Theorem path_is_safe_spec (path : option bytes) (len : nat) :
  tdb_path_is_safe path len = true <->
  exists mem, path = Some mem /\ head mem = Some 47 /\
    (forall i, (i < len)%nat -> nth i mem 0 <> 0) /\ dotdot ∉ components (cstr mem).
Proof.
  destruct path as [mem|]; [|split; [done|by intros (? & ? & _)]].
  rewrite path_is_safe_iff. split; [by exists mem|]. intros (m & [= <-] & H). done.
Qed.

(** SET GLOBAL tidesdb_backup_dir stages a path exactly when the path is
    absolute and free of NUL and [..], its canonical parent is the canonical
    allowed root or below it, the query is not killed, the engine is open, the
    destination is missing or empty and the engine's backup succeeds; then the
    connection's transaction has been freed before the backup was taken. *)
Theorem backup_dir_accepts (env : backup_env) (trx trx' : option backup_trx) (mem dir : bytes)
    (len : nat) (called : bool) :
  tidesdb_backup_dir_check env trx (Some mem) len = (Accepted (Some dir), trx', called) <->
  dir = cstr mem /\ called = true /\ trx' = free_txn trx /\
  head mem = Some 47 /\ (forall i, (i < len)%nat -> nth i mem 0 <> 0) /\
  dotdot ∉ components dir /\ confined (be_allowed_root env) dir /\
  be_killed env = false /\ be_engine_open env = true /\
  (forall names, be_entries env = Some names -> forall n, n ∈ names -> n = [46] \/ n = dotdot) /\
  be_backup_rc env = TDB_SUCCESS.
Proof.
  assert (Hent : match be_entries env with Some names => has_entries names | None => false end = false <->
    forall names, be_entries env = Some names -> forall n, n ∈ names -> n = [46] \/ n = dotdot).
  { destruct (be_entries env) as [names|]; [|naive_solver]. unfold has_entries. split.
    - intros H ns [= <-] n Hn. destruct (decide (n = [46] \/ n = dotdot)) as [|Hd]; [done|].
      assert (existsb (fun n => negb (bool_decide (n = [46]) || bool_decide (n = [46; 46]))) names = true);
        [|congruence].
      apply existsb_exists. exists n. split; [by apply list_elem_of_In|].
      rewrite negb_true_iff, orb_false_iff, !bool_decide_eq_false. unfold dotdot in Hd. tauto.
    - intros H. apply not_true_iff_false. intros (n & Hn & E)%existsb_exists.
      apply list_elem_of_In in Hn. specialize (H names eq_refl n Hn).
      rewrite negb_true_iff, orb_false_iff, !bool_decide_eq_false in E. unfold dotdot in H. tauto. }
  unfold tidesdb_backup_dir_check.
  destruct (cstr mem) as [|c0 d0] eqn:Ec.
  { split; [done|]. intros (-> & _ & _ & Hh & _). destruct mem as [|c m]; [done|].
    cbn in Hh. injection Hh as ->. done. }
  destruct (tdb_path_is_safe (Some mem) len) eqn:Es; cbn [negb].
  2: { apply not_true_iff_false in Es. rewrite path_is_safe_iff, Ec in Es. naive_solver. }
  apply path_is_safe_iff in Es. rewrite Ec in Es.
  destruct (tdb_path_is_under_allowed_root _ _) eqn:Er; cbn [negb].
  2: { apply not_true_iff_false in Er. rewrite under_allowed_root_iff in Er. naive_solver. }
  apply under_allowed_root_iff in Er.
  destruct (be_killed env); [naive_solver|]. destruct (be_engine_open env); cbn [negb]; [|naive_solver].
  destruct (match be_entries env with Some names => has_entries names | None => false end) eqn:Ee.
  { split; [done|]. intros (_ & _ & _ & _ & _ & _ & _ & _ & _ & Hn & _). apply Hent in Hn. congruence. }
  assert (Hn := proj1 Hent ltac:(done)). case_bool_decide; naive_solver.
Qed.

(** the canonical parent of an accepted destination has the components of
    the canonical allowed root as a prefix: no sibling such as
    [/allowed_root_evil] is accepted. *)
Theorem confined_components (root dir : bytes)
    (Hr : root <> []) (H : tdb_path_is_under_allowed_root (Some root) dir = true) :
  exists rr pr, realpath root = Some rr /\ realpath (parent_dir dir) = Some pr /\
    components rr `prefix_of` components pr.
Proof.
  apply under_allowed_root_iff in H. cbn in H. destruct root as [|c root]; [done|].
  destruct H as (rr & pr & Hrr & Hpr & [->|(rest & ->)]); exists rr; eexists; split_and!; try done.
  rewrite components_app. by exists (components rest).
Qed.

End Filesystem.

(** What reaches the log is at most [out_size] bytes, ends in the only NUL,
    and is the input with every control byte replaced, cut to fit. *)
Theorem sanitize_spec (mem : bytes) (out_size : Z) (Hsz : 0 < out_size) :
  exists body, tdb_sanitize_for_log (Some mem) true out_size = Some (body ++ [0]) /\
    body = log_char <$> take (Z.to_nat (out_size - 1)) (cstr mem) /\
    Forall (fun c => c <> 10 /\ c <> 13 /\ c <> 27 /\ c <> 0 /\ c <> 127) body /\
    Z.of_nat (length (body ++ [0])) <= out_size.
Proof.
  unfold tdb_sanitize_for_log. destruct (Z.eqb_spec out_size 0) as [|_]; [lia|]. cbn [negb orb].
  exists (sanitize_loop mem 0 out_size). split; [done|].
  assert (H : forall m o, 0 <= o < out_size ->
    sanitize_loop m o out_size = log_char <$> take (Z.to_nat (out_size - 1 - o)) (cstr m)).
  { induction m as [|c m IH]; intros o Ho; cbn [sanitize_loop cstr]; [by rewrite take_nil|].
    case_match; [by rewrite take_nil|]. destruct (Z.ltb_spec (o + 1) out_size).
    - rewrite IH by lia. replace (Z.to_nat (out_size - 1 - o)) with (S (Z.to_nat (out_size - 1 - (o + 1)))) by lia.
      done.
    - by replace (Z.to_nat (out_size - 1 - o)) with 0%nat by lia. }
  specialize (H mem 0 ltac:(lia)). rewrite Z.sub_0_r in H. rewrite H. split; [done|]. split.
  - apply Forall_fmap, Forall_take. clear. induction mem as [|c m IH]; cbn; [constructor|].
    case_match eqn:Ez; [constructor|]. constructor; [|done]. apply Z.eqb_neq in Ez. cbn. unfold log_char.
    destruct (Z.ltb_spec c 32), (Z.eqb_spec c 127); cbn [orb]; lia.
  - rewrite length_app, length_fmap. cbn.
    rewrite length_take. lia.
Qed.

(** ** Witnesses *)

Definition id_realpath (p : bytes) : option bytes := Some p.

Lemma confined_components_witness :
  exists rr pr, id_realpath [47; 98] = Some rr /\
    id_realpath (parent_dir [47; 98; 47; 99; 47; 100]) = Some pr /\ components rr `prefix_of` components pr.
Proof. apply (confined_components id_realpath [47; 98] [47; 98; 47; 99; 47; 100]); done. Defined.

Lemma sanitize_spec_witness :
  exists body, tdb_sanitize_for_log (Some [47; 10; 65; 66]) true 4 = Some (body ++ [0]) /\
    body = log_char <$> take (Z.to_nat (4 - 1)) (cstr [47; 10; 65; 66]) /\
    Forall (fun c => c <> 10 /\ c <> 13 /\ c <> 27 /\ c <> 0 /\ c <> 127) body /\
    Z.of_nat (length (body ++ [0])) <= 4.
Proof. apply (sanitize_spec [47; 10; 65; 66] 4). lia. Defined.

(** With the root itself as allowed root, a destination two levels deep is
    refused although every path lies below it. *)
Lemma root_slash_refuses :
  tdb_path_is_under_allowed_root id_realpath (Some [47]) [47; 97; 47; 98] = false.
Proof. reflexivity. Qed.
