(* ===== verification/Options.v ===== *)
(** * Table options (tidesdb_legacy_options.h, ha_tidesdb.cc 465-590 and 1556-1944)

    Session defaults and their declared ranges, the ENGINE_ATTRIBUTE overlay,
    the retired options, the resolution of the isolation level and the
    column-family configuration built from the result.  The JSON parser is a
    third-party library: a parameter that maps the attribute's bytes to the
    members of the top-level object, in order and with duplicates, or to
    nothing when it does not parse or is not an object. *)

From Stdlib Require Import ZArith Lia String Ascii QArith.
From stdpp Require Import base tactics list numbers strings sets.
From S2P Require Import Prelude.
Open Scope string_scope.
Open Scope Z_scope.

(** ** Retired options (tidesdb_legacy_options.h) *)

Inductive TdbLegacyDisposition := Relocated | Removed.

Record TdbLegacyOption := mk_legacy {
  lo_key : string;
  lo_disposition : TdbLegacyDisposition;
  lo_replacement : option string;
  lo_reason : option string
}.

Definition relocated (key var : string) : TdbLegacyOption := mk_legacy key Relocated (Some var) None.
Definition removed (key why : string) : TdbLegacyOption := mk_legacy key Removed None (Some why).

Definition tdb_legacy_options : list TdbLegacyOption :=
  [ relocated "write_buffer_size" "tidesdb_unified_memtable_write_buffer_size";
    relocated "sync_mode" "tidesdb_unified_memtable_sync_mode";
    relocated "sync_interval_us" "tidesdb_unified_memtable_sync_interval";
    removed "use_btree" "a key log is always a btree in TidesDB 10, and that btree is the index";
    removed "block_indexes" "block-format key logs are gone; the btree per key log is the index";
    removed "block_index_prefix_len" "block indexes no longer exist, so there is no prefix to size";
    removed "index_sample_ratio" "block indexes no longer exist, so there is nothing to sample";
    removed "min_disk_space" "the engine no longer reserves a per-family disk floor";
    removed "klog_value_threshold" "value separation is database-wide now; a family either follows that threshold or sets keep_values_inline to keep every value whole";
    removed "skip_list_max_level" "the memtable is database-wide, so its skip list is not per-family";
    removed "skip_list_probability" "the memtable is database-wide, so its skip list is not per-family";
    removed "l0_queue_stall_threshold" "L0 admission is governed database-wide, not per family";
    removed "object_lazy_compaction" "object-store mode was removed from the engine in TidesDB 10";
    removed "object_prefetch_compaction" "object-store mode was removed from the engine in TidesDB 10" ].

(** [strcmp] reads up to the first NUL. *)
Fixpoint c_string (s : string) : string :=
  match s with
  | EmptyString => EmptyString
  | String c rest => if Ascii.eqb c Ascii.zero then EmptyString else String c (c_string rest)
  end.

Fixpoint tdb_legacy_option_lookup (key : string) (table : list TdbLegacyOption)
    : option TdbLegacyOption :=
  match table with
  | [] => None
  | e :: rest => if String.eqb (lo_key e) (c_string key) then Some e else tdb_legacy_option_lookup key rest
  end.

Definition tdb_legacy_options_empty : bool :=
  match tdb_legacy_options with [] => true | _ => false end.

(** ** Session variables: defaults and declared ranges (lines 465-590) *)

Record sysvar := mk_sysvar { sv_default : Z; sv_min : Z; sv_max : Z }.

Definition var_default_compression : sysvar := mk_sysvar 2 0 4.
Definition var_default_bloom_filter : sysvar := mk_sysvar 1 0 1.
Definition var_default_bloom_fpr : sysvar := mk_sysvar 100 1 10000.
Definition var_default_l1_file_count_trigger : sysvar := mk_sysvar 4 1 1024.
Definition var_default_level_size_ratio : sysvar := mk_sysvar 10 2 100.
Definition var_default_min_levels : sysvar := mk_sysvar 5 1 64.
Definition var_default_dividing_level_offset : sysvar := mk_sysvar 2 0 64.
Definition var_default_tombstone_density_trigger : sysvar := mk_sysvar 0 0 10000.
Definition var_default_tombstone_density_min_entries : sysvar := mk_sysvar 1024 0 (2 ^ 64 - 1).
Definition var_default_isolation_level : sysvar := mk_sysvar 2 0 4.

Definition in_range (v : sysvar) (z : Z) : Prop := sv_min v <= z <= sv_max v.

Record session_vars := mk_session {
  s_level_size_ratio : Z; s_min_levels : Z; s_dividing_level_offset : Z; s_bloom_fpr : Z;
  s_l1_file_count_trigger : Z; s_compression : Z; s_isolation_level : Z; s_bloom_filter : Z;
  s_tombstone_density_trigger : Z; s_tombstone_density_min_entries : Z
}.

(** The server keeps a session variable within its declared range. *)
Record session_ok (s : session_vars) : Prop := {
  so_ratio : in_range var_default_level_size_ratio (s_level_size_ratio s);
  so_levels : in_range var_default_min_levels (s_min_levels s);
  so_offset : in_range var_default_dividing_level_offset (s_dividing_level_offset s);
  so_fpr : in_range var_default_bloom_fpr (s_bloom_fpr s);
  so_l1 : in_range var_default_l1_file_count_trigger (s_l1_file_count_trigger s);
  so_compression : in_range var_default_compression (s_compression s);
  so_isolation : in_range var_default_isolation_level (s_isolation_level s);
  so_bloom : in_range var_default_bloom_filter (s_bloom_filter s);
  so_density : in_range var_default_tombstone_density_trigger (s_tombstone_density_trigger s);
  so_entries : in_range var_default_tombstone_density_min_entries (s_tombstone_density_min_entries s)
}.

(** ** Table options *)

Record ha_table_option_struct := mk_opts {
  level_size_ratio : Z;
  min_levels : Z;
  dividing_level_offset : Z;
  bloom_fpr : Z;
  l1_file_count_trigger : Z;
  isolation_level : Z;
  bloom_filter : bool;
  tombstone_density_trigger : Z;
  tombstone_density_min_entries : Z;
  compression : Z;
  keep_values_inline : bool;
  ttl : Z;
  encrypted : bool;
  encryption_key_id : Z
}.

(** Lines 1698-1714. *)
Definition tidesdb_seed_opts_from_session (s : session_vars) : ha_table_option_struct :=
  {| level_size_ratio := s_level_size_ratio s;
     min_levels := s_min_levels s;
     dividing_level_offset := s_dividing_level_offset s;
     bloom_fpr := s_bloom_fpr s;
     l1_file_count_trigger := s_l1_file_count_trigger s;
     isolation_level := s_isolation_level s;
     bloom_filter := negb (s_bloom_filter s =? 0);
     tombstone_density_trigger := s_tombstone_density_trigger s;
     tombstone_density_min_entries := s_tombstone_density_min_entries s;
     compression := s_compression s;
     keep_values_inline := false;
     ttl := 0;
     encrypted := false;
     encryption_key_id := 1 |}.

(** ** ENGINE_ATTRIBUTE *)

(** What the parser distinguishes of a member's value. *)
Inductive json :=
| JBool (b : bool)
| JNumber (z : Z)          (* an integer literal within 64 bits *)
| JString (s : string)
| JOther.                  (* null, fraction, array, object *)

Definition json_object := list (string * json).

Fixpoint FindMember (k : string) (doc : json_object) : option json :=
  match doc with
  | [] => None
  | (name, v) :: rest => if String.eqb name k then Some v else FindMember k rest
  end.

Definition IsUint64 (z : Z) : bool := (0 <=? z) && (z <? 2 ^ 64).
Definition IsInt (z : Z) : bool := (- 2 ^ 31 <=? z) && (z <? 2 ^ 31).

(** Lines 1657-1661. *)
Definition get_uint (doc : json_object) (k : string) (dst : Z) : Z :=
  match FindMember k doc with
  | Some (JNumber z) => if IsUint64 z then z else if IsInt z then u64 z else dst
  | _ => dst
  end.

(** Lines 1662-1667. *)
Definition get_bool (doc : json_object) (k : string) (dst : bool) : bool :=
  match FindMember k doc with
  | Some (JBool b) => b
  | Some (JNumber z) => if IsInt z then negb (z =? 0) else dst
  | _ => dst
  end.

Definition lower (c : ascii) : ascii :=
  let n := nat_of_ascii c in
  if (Nat.leb 65 n && Nat.leb n 90)%bool then ascii_of_nat (n + 32) else c.
Fixpoint strlower (s : string) : string :=
  match s with EmptyString => EmptyString | String c r => String (lower c) (strlower r) end.
(** [!strcasecmp(a, b)] *)
Definition strcaseeq (a b : string) : bool := String.eqb (strlower (c_string a)) (strlower (c_string b)).

(** Lines 1669-1678. *)
Definition get_compression (doc : json_object) (dst : Z) : Z :=
  match FindMember "compression" doc with
  | Some (JString s) =>
      if strcaseeq s "NONE" then 0
      else if strcaseeq s "SNAPPY" then 1
      else if strcaseeq s "LZ4" then 2
      else if strcaseeq s "ZSTD" then 3
      else if strcaseeq s "LZ4_FAST" then 4
      else dst
  | _ => dst
  end.

Definition TIDESDB_ENGINE_ATTRIBUTE_MAX_LEN : Z := 65536.

Section Attribute.

Variable parse : bytes -> option json_object.

(** Lines 1631-1688; [false] is a malformed or oversized attribute. *)
Definition tidesdb_engine_attribute_to_options (attr : bytes) (opts : ha_table_option_struct)
    : bool * ha_table_option_struct :=
  match attr with
  | [] => (true, opts)
  | _ =>
    if TIDESDB_ENGINE_ATTRIBUTE_MAX_LEN <? Z.of_nat (length attr) then (false, opts)
    else match parse attr with
         | None => (false, opts)
         | Some doc =>
           (true,
            {| level_size_ratio := level_size_ratio opts;
               min_levels := min_levels opts;
               dividing_level_offset := dividing_level_offset opts;
               bloom_fpr := get_uint doc "bloom_fpr" (bloom_fpr opts);
               l1_file_count_trigger := l1_file_count_trigger opts;
               isolation_level := isolation_level opts;
               bloom_filter := get_bool doc "bloom_filter" (bloom_filter opts);
               tombstone_density_trigger := tombstone_density_trigger opts;
               tombstone_density_min_entries := tombstone_density_min_entries opts;
               compression := get_compression doc (compression opts);
               keep_values_inline := get_bool doc "keep_values_inline" (keep_values_inline opts);
               ttl := get_uint doc "ttl" (ttl opts);
               encrypted := get_bool doc "encrypted" (encrypted opts);
               encryption_key_id := get_uint doc "encryption_key_id" (encryption_key_id opts) |})
         end
  end.

(** Lines 1734-1745; the attribute is empty when the table has none. *)
Definition tidesdb_compute_opts_for_table (s : session_vars) (attr : bytes) : ha_table_option_struct :=
  snd (tidesdb_engine_attribute_to_options attr (tidesdb_seed_opts_from_session s)).

(** Lines 1747-1775: the share's cached copy wins over a fresh computation. *)
Definition tidesdb_opts_for_table (s : session_vars) (attr : bytes)
    (cached : option ha_table_option_struct) : ha_table_option_struct :=
  match cached with
  | Some o => o
  | None => tidesdb_compute_opts_for_table s attr
  end.

Inductive diagnostic :=
| LegacyError (e : TdbLegacyOption)
| LegacyWarning (e : TdbLegacyOption).

(** Lines 1595-1627: the walk over the members. *)
Fixpoint legacy_walk (srv_legacy_compat : Z) (doc : json_object) : bool * list diagnostic :=
  match doc with
  | [] => (true, [])
  | (name, _) :: rest =>
    match tdb_legacy_option_lookup name tdb_legacy_options with
    | None => legacy_walk srv_legacy_compat rest
    | Some e =>
      if srv_legacy_compat =? 0 then (false, [LegacyError e])
      else let '(ok, ds) := legacy_walk srv_legacy_compat rest in (ok, LegacyWarning e :: ds)
    end
  end.

(** Lines 1585-1629. *)
Definition tidesdb_check_legacy_engine_attribute (srv_legacy_compat : Z) (attr : bytes)
    : bool * list diagnostic :=
  if tdb_legacy_options_empty then (true, [])
  else match attr with
       | [] => (true, [])
       | _ =>
         if TIDESDB_ENGINE_ATTRIBUTE_MAX_LEN <? Z.of_nat (length attr) then (true, [])
         else match parse attr with
              | None => (true, [])
              | Some doc => legacy_walk srv_legacy_compat doc
              end
       end.

End Attribute.

(** ** Isolation (lines 1821-1879) *)

Inductive tidesdb_isolation_level_t :=
| TDB_ISOLATION_READ_UNCOMMITTED | TDB_ISOLATION_READ_COMMITTED | TDB_ISOLATION_REPEATABLE_READ
| TDB_ISOLATION_SNAPSHOT | TDB_ISOLATION_SERIALIZABLE.

#[export] Instance isolation_eq_dec : EqDecision tidesdb_isolation_level_t.
Proof. solve_decision. Defined.

Definition tdb_isolation_map : list tidesdb_isolation_level_t :=
  [TDB_ISOLATION_READ_UNCOMMITTED; TDB_ISOLATION_READ_COMMITTED; TDB_ISOLATION_REPEATABLE_READ;
   TDB_ISOLATION_SNAPSHOT; TDB_ISOLATION_SERIALIZABLE].

Definition resolve_effective_isolation (srv_pessimistic_locking : bool) (session_iso : Z)
    (table_iso : tidesdb_isolation_level_t) : tidesdb_isolation_level_t :=
  if srv_pessimistic_locking then TDB_ISOLATION_READ_COMMITTED
  else if session_iso =? 0 then TDB_ISOLATION_READ_UNCOMMITTED
  else if session_iso =? 1 then TDB_ISOLATION_READ_COMMITTED
  else if session_iso =? 2 then TDB_ISOLATION_SNAPSHOT
  else if session_iso =? 3 then TDB_ISOLATION_SERIALIZABLE
  else TDB_ISOLATION_READ_COMMITTED.

(** ** Column-family configuration (lines 1886-1932) *)

Inductive tidesdb_compression_algorithm_t :=
| TDB_COMPRESS_NONE | TDB_COMPRESS_SNAPPY | TDB_COMPRESS_LZ4 | TDB_COMPRESS_ZSTD | TDB_COMPRESS_LZ4_FAST.

#[export] Instance compression_eq_dec : EqDecision tidesdb_compression_algorithm_t.
Proof. solve_decision. Defined.

Definition tdb_compression_map : list tidesdb_compression_algorithm_t :=
  [TDB_COMPRESS_NONE; TDB_COMPRESS_SNAPPY; TDB_COMPRESS_LZ4; TDB_COMPRESS_ZSTD; TDB_COMPRESS_LZ4_FAST].

Record cf_config := mk_cf_config {
  cfg_level_size_ratio : Z;
  cfg_min_levels : Z;
  cfg_dividing_level_offset : Z;
  cfg_enable_bloom_filter : Z;
  cfg_bloom_fpr : Q;
  cfg_default_isolation_level : tidesdb_isolation_level_t;
  cfg_l1_file_count_trigger : Z;
  cfg_tombstone_density_trigger : Q;
  cfg_tombstone_density_min_entries : Z;
  cfg_encoding_pipeline : list tidesdb_compression_algorithm_t;
  cfg_keep_values_inline : Z
}.

(** [None] is a read outside one of the two maps. *)
Definition build_cf_config (default_cfg : cf_config) (opts : option ha_table_option_struct)
    : option cf_config :=
  match opts with
  | None => Some default_cfg
  | Some o =>
    iso ← tdb_isolation_map !! Z.to_nat (isolation_level o);
    algo ← tdb_compression_map !! Z.to_nat (compression o);
    Some {| cfg_level_size_ratio := u64 (level_size_ratio o);
            cfg_min_levels := i32 (min_levels o);
            cfg_dividing_level_offset := i32 (dividing_level_offset o);
            cfg_enable_bloom_filter := Z.b2z (bloom_filter o);
            cfg_bloom_fpr := bloom_fpr o # 10000;
            cfg_default_isolation_level := iso;
            cfg_l1_file_count_trigger := i32 (l1_file_count_trigger o);
            cfg_tombstone_density_trigger := tombstone_density_trigger o # 10000;
            cfg_tombstone_density_min_entries := u64 (tombstone_density_min_entries o);
            cfg_encoding_pipeline := if bool_decide (algo = TDB_COMPRESS_NONE) then [] else [algo];
            cfg_keep_values_inline := Z.b2z (keep_values_inline o) |}
  end.

(** ** Lemmas *)

Lemma FindMember_None k doc : k ∉ doc.*1 -> FindMember k doc = None.
Proof.
  induction doc as [|[n v] doc IH]; cbn; [done|]. intros Hk. apply not_elem_of_cons in Hk as [Hn Hk].
  rewrite (proj2 (String.eqb_neq n k)) by congruence. by apply IH.
Qed.

Lemma get_uint_absent doc k d : k ∉ doc.*1 -> get_uint doc k d = d.
Proof. intros Hk. unfold get_uint. by rewrite FindMember_None. Qed.
Lemma get_bool_absent doc k d : k ∉ doc.*1 -> get_bool doc k d = d.
Proof. intros Hk. unfold get_bool. by rewrite FindMember_None. Qed.
Lemma get_compression_absent doc d : "compression" ∉ doc.*1 -> get_compression doc d = d.
Proof. intros Hk. unfold get_compression. by rewrite FindMember_None. Qed.

Lemma get_uint_range doc k d : fits_u64 d -> fits_u64 (get_uint doc k d).
Proof.
  intros Hd. unfold get_uint. destruct (FindMember k doc) as [[b|z|s|]|]; try done.
  case_match eqn:E; [unfold IsUint64 in E; unfold fits_u64; lia|].
  case_match; [|done]. unfold fits_u64, u64. pose proof (Z.mod_pos_bound z (2 ^ 64)). lia.
Qed.

Lemma get_compression_range doc d : 0 <= d <= 4 -> 0 <= get_compression doc d <= 4.
Proof. intros Hd. unfold get_compression. repeat case_match; lia. Qed.

Hint Resolve get_uint_absent get_bool_absent get_compression_absent : tdb.

(** The member names an attribute contributes: none when it is empty, too long
    or malformed. *)
Definition attr_names (parse : bytes -> option json_object) (attr : bytes) : list string :=
  match attr with
  | [] => []
  | _ => if TIDESDB_ENGINE_ATTRIBUTE_MAX_LEN <? Z.of_nat (length attr) then []
         else match parse attr with Some doc => doc.*1 | None => [] end
  end.

Lemma overlay_cases parse attr o :
  (snd (tidesdb_engine_attribute_to_options parse attr o) = o /\ attr_names parse attr = []) \/
  exists doc, parse attr = Some doc /\ attr_names parse attr = doc.*1 /\
    tidesdb_engine_attribute_to_options parse attr o =
      (true, {| level_size_ratio := level_size_ratio o;
               min_levels := min_levels o;
               dividing_level_offset := dividing_level_offset o;
               bloom_fpr := get_uint doc "bloom_fpr" (bloom_fpr o);
               l1_file_count_trigger := l1_file_count_trigger o;
               isolation_level := isolation_level o;
               bloom_filter := get_bool doc "bloom_filter" (bloom_filter o);
               tombstone_density_trigger := tombstone_density_trigger o;
               tombstone_density_min_entries := tombstone_density_min_entries o;
               compression := get_compression doc (compression o);
               keep_values_inline := get_bool doc "keep_values_inline" (keep_values_inline o);
               ttl := get_uint doc "ttl" (ttl o);
               encrypted := get_bool doc "encrypted" (encrypted o);
               encryption_key_id := get_uint doc "encryption_key_id" (encryption_key_id o) |}).
Proof.
  unfold tidesdb_engine_attribute_to_options, attr_names. destruct attr as [|c a]; [by left|].
  case_match; [by left|]. destruct (parse (c :: a)) as [doc|]; [|by left]. right. by exists doc.
Qed.

(** The options without a key, and the range of the compression index. *)
Lemma compute_frame parse s attr :
  let o := tidesdb_compute_opts_for_table parse s attr in
  level_size_ratio o = s_level_size_ratio s /\ min_levels o = s_min_levels s /\
  dividing_level_offset o = s_dividing_level_offset s /\
  l1_file_count_trigger o = s_l1_file_count_trigger s /\ isolation_level o = s_isolation_level s /\
  tombstone_density_min_entries o = s_tombstone_density_min_entries s /\
  (0 <= s_compression s <= 4 -> 0 <= compression o <= 4).
Proof.
  cbv zeta. unfold tidesdb_compute_opts_for_table.
  destruct (overlay_cases parse attr (tidesdb_seed_opts_from_session s)) as [[-> _]|(doc & _ & _ & ->)];
    [done|]. cbn. repeat split; try done; by apply get_compression_range.
Qed.

Lemma compression_map_lookup c :
  0 <= c <= 4 -> exists a, tdb_compression_map !! Z.to_nat c = Some a /\ (a = TDB_COMPRESS_NONE <-> c = 0).
Proof.
  intros Hc. assert (c = 0 \/ c = 1 \/ c = 2 \/ c = 3 \/ c = 4) as Hd by lia.
  destruct_or! Hd; subst c; cbn; eexists; split; try done.
Qed.

Lemma isolation_map_lookup c : 0 <= c <= 4 -> exists a, tdb_isolation_map !! Z.to_nat c = Some a.
Proof.
  intros Hc. apply lookup_lt_is_Some. cbn. lia.
Qed.

Definition legacy_hits (doc : json_object) : list TdbLegacyOption :=
  omap (fun m => tdb_legacy_option_lookup m.1 tdb_legacy_options) doc.

Lemma legacy_walk_strict doc :
  legacy_walk 0 doc = match legacy_hits doc with [] => (true, []) | e :: _ => (false, [LegacyError e]) end.
Proof.
  induction doc as [|[n v] doc IH]; [done|].
  change (legacy_hits ((n, v) :: doc)) with
    (match tdb_legacy_option_lookup n tdb_legacy_options with
     | Some e => e :: legacy_hits doc | None => legacy_hits doc end).
  cbn [legacy_walk]. destruct (tdb_legacy_option_lookup n tdb_legacy_options); [done|]. exact IH.
Qed.

Lemma legacy_walk_warn c doc :
  c <> 0 -> legacy_walk c doc = (true, LegacyWarning <$> legacy_hits doc).
Proof.
  intros Hc. apply Z.eqb_neq in Hc. induction doc as [|[n v] doc IH]; [done|].
  change (legacy_hits ((n, v) :: doc)) with
    (match tdb_legacy_option_lookup n tdb_legacy_options with
     | Some e => e :: legacy_hits doc | None => legacy_hits doc end).
  cbn [legacy_walk]. destruct (tdb_legacy_option_lookup n tdb_legacy_options); [|exact IH].
  by rewrite Hc, IH.
Qed.

(** ** Properties *)

(** an option whose key the attribute does not name keeps the session's
    value, and the options with no key always keep it; an attribute that is
    empty, malformed or over the length cap names nothing. *)
Theorem options_default_to_session (parse : bytes -> option json_object) (s : session_vars) (attr : bytes) :
  let o := tidesdb_compute_opts_for_table parse s attr in
  let seed := tidesdb_seed_opts_from_session s in
  let names := attr_names parse attr in
  level_size_ratio o = level_size_ratio seed /\ min_levels o = min_levels seed /\
  dividing_level_offset o = dividing_level_offset seed /\
  l1_file_count_trigger o = l1_file_count_trigger seed /\
  isolation_level o = isolation_level seed /\
  tombstone_density_trigger o = tombstone_density_trigger seed /\
  tombstone_density_min_entries o = tombstone_density_min_entries seed /\
  ("compression" ∉ names -> compression o = compression seed) /\
  ("bloom_filter" ∉ names -> bloom_filter o = bloom_filter seed) /\
  ("bloom_fpr" ∉ names -> bloom_fpr o = bloom_fpr seed) /\
  ("keep_values_inline" ∉ names -> keep_values_inline o = false) /\
  ("ttl" ∉ names -> ttl o = 0) /\
  ("encrypted" ∉ names -> encrypted o = false) /\
  ("encryption_key_id" ∉ names -> encryption_key_id o = 1).
Proof.
  cbv zeta. unfold tidesdb_compute_opts_for_table.
  destruct (overlay_cases parse attr (tidesdb_seed_opts_from_session s)) as [[-> ->]|(doc & _ & -> & ->)];
    [done|]. cbn. repeat split; eauto with tdb.
Qed.

(** with every session variable in its declared range, the configuration of
    a column family is built without reading outside the isolation and
    compression maps, the narrowing casts keep the values, at most one encoding
    is in the pipeline, and it is empty exactly for compression NONE. *)
Theorem cf_config_in_bounds (parse : bytes -> option json_object) (dflt : cf_config)
    (s : session_vars) (attr : bytes) (Hs : session_ok s) :
  exists cfg, build_cf_config dflt (Some (tidesdb_compute_opts_for_table parse s attr)) = Some cfg /\
    cfg_level_size_ratio cfg = s_level_size_ratio s /\ cfg_min_levels cfg = s_min_levels s /\
    cfg_dividing_level_offset cfg = s_dividing_level_offset s /\
    cfg_l1_file_count_trigger cfg = s_l1_file_count_trigger s /\
    cfg_tombstone_density_min_entries cfg = s_tombstone_density_min_entries s /\
    tdb_isolation_map !! Z.to_nat (s_isolation_level s) = Some (cfg_default_isolation_level cfg) /\
    (length (cfg_encoding_pipeline cfg) <= 1)%nat /\
    (cfg_encoding_pipeline cfg = [] <-> compression (tidesdb_compute_opts_for_table parse s attr) = 0).
Proof.
  destruct Hs as [H1 H2 H3 H4 H5 H6 H7 H8 H9 H10]. unfold in_range in *. cbn in H1, H2, H3, H4, H5, H6, H7, H8, H9, H10.
  destruct (compute_frame parse s attr) as (E1 & E2 & E3 & E4 & E5 & E6 & Ec).
  destruct (compression_map_lookup _ (Ec H6)) as (a & Ha & Hn).
  destruct (isolation_map_lookup _ H7) as [iso Hi].
  set (o := tidesdb_compute_opts_for_table parse s attr) in *.
  eexists. split.
  { unfold build_cf_config. rewrite E5, Hi. cbn. rewrite Ha. done. }
  cbn. rewrite E1, E2, E3, E4, E6, Hi. repeat split; try done.
  - apply u64_id. unfold fits_u64. lia.
  - apply i32_small. lia.
  - apply i32_small. lia.
  - apply i32_small. lia.
  - apply u64_id. unfold fits_u64. lia.
  - case_bool_decide; cbn; lia.
  - case_bool_decide; [|done]. intros _. by apply Hn.
  - intros E. apply Hn in E. by rewrite bool_decide_true.
Qed.

(** under strict compatibility an attribute is refused exactly when some
    member is a retired option, and the error names the first one; otherwise
    every retired member gives one warning, in order, and nothing is refused.
    No key the option parser still reads is retired. *)
Theorem legacy_check_spec (parse : bytes -> option json_object) (attr : bytes) (doc : json_object)
    (Hlen : 0 < Z.of_nat (length attr) <= TIDESDB_ENGINE_ATTRIBUTE_MAX_LEN) (Hp : parse attr = Some doc) :
  tidesdb_check_legacy_engine_attribute parse 0 attr =
    match legacy_hits doc with [] => (true, []) | e :: _ => (false, [LegacyError e]) end /\
  (forall compat, compat <> 0 -> tidesdb_check_legacy_engine_attribute parse compat attr =
     (true, LegacyWarning <$> legacy_hits doc)) /\
  Forall (fun k => tdb_legacy_option_lookup k tdb_legacy_options = None)
    ["compression"; "bloom_filter"; "keep_values_inline"; "encrypted"; "ttl";
     "encryption_key_id"; "bloom_fpr"].
Proof.
  assert (E : forall c, tidesdb_check_legacy_engine_attribute parse c attr = legacy_walk c doc).
  { intros c. unfold tidesdb_check_legacy_engine_attribute. cbn [tdb_legacy_options_empty tdb_legacy_options].
    destruct attr as [|b a]; [cbn in Hlen; lia|].
    rewrite (proj2 (Z.ltb_ge _ _)) by lia. by rewrite Hp. }
  split; [rewrite E; apply legacy_walk_strict|]. split.
  - intros c Hc. rewrite E. by apply legacy_walk_warn.
  - repeat constructor.
Qed.

Definition isolation_rank (i : tidesdb_isolation_level_t) : Z :=
  match i with
  | TDB_ISOLATION_READ_UNCOMMITTED => 0 | TDB_ISOLATION_READ_COMMITTED => 1
  | TDB_ISOLATION_REPEATABLE_READ => 2 | TDB_ISOLATION_SNAPSHOT => 3 | TDB_ISOLATION_SERIALIZABLE => 4
  end.

(** The engine isolation is monotone in the session's SQL isolation level,
    pessimistic locking pins it to READ COMMITTED, and the table's own level
    never matters. *)
Theorem isolation_from_session (a b : Z) (t1 t2 : tidesdb_isolation_level_t) (Hab : 0 <= a <= b) (Hb : b <= 3) :
  isolation_rank (resolve_effective_isolation false a t1) <=
    isolation_rank (resolve_effective_isolation false b t2) /\
  resolve_effective_isolation true b t1 = TDB_ISOLATION_READ_COMMITTED /\
  resolve_effective_isolation false b t1 = resolve_effective_isolation false b t2.
Proof.
  assert ((a = 0 \/ a = 1 \/ a = 2 \/ a = 3) /\ (b = 0 \/ b = 1 \/ b = 2 \/ b = 3)) as [Ha Hb'] by lia.
  destruct_or! Ha; destruct_or! Hb'; subst; cbn; repeat split; try done; lia.
Qed.

(** ** Witnesses *)

Definition session_default : session_vars :=
  mk_session (sv_default var_default_level_size_ratio) (sv_default var_default_min_levels)
    (sv_default var_default_dividing_level_offset) (sv_default var_default_bloom_fpr)
    (sv_default var_default_l1_file_count_trigger) (sv_default var_default_compression)
    (sv_default var_default_isolation_level) (sv_default var_default_bloom_filter)
    (sv_default var_default_tombstone_density_trigger)
    (sv_default var_default_tombstone_density_min_entries).

Definition no_config : cf_config :=
  mk_cf_config 0 0 0 0 (0 # 1) TDB_ISOLATION_READ_COMMITTED 0 (0 # 1) 0 [] 0.

(** A parser that knows one attribute. *)
Definition one_attribute (doc : json_object) : bytes -> option json_object := fun _ => Some doc.

Lemma cf_config_in_bounds_witness :
  exists cfg, build_cf_config no_config (Some (tidesdb_compute_opts_for_table
      (one_attribute [("compression", JString "zstd")]) session_default [1])) = Some cfg /\
    cfg_level_size_ratio cfg = 10 /\ cfg_min_levels cfg = 5 /\
    cfg_dividing_level_offset cfg = 2 /\ cfg_l1_file_count_trigger cfg = 4 /\
    cfg_tombstone_density_min_entries cfg = 1024 /\
    tdb_isolation_map !! 2%nat = Some (cfg_default_isolation_level cfg) /\
    (length (cfg_encoding_pipeline cfg) <= 1)%nat /\
    (cfg_encoding_pipeline cfg = [] <-> 3 = 0).
Proof.
  apply (cf_config_in_bounds (one_attribute [("compression", JString "zstd")]) no_config session_default [1]).
  split; unfold in_range; cbn; lia.
Defined.

Lemma legacy_check_spec_witness :
  tidesdb_check_legacy_engine_attribute
    (one_attribute [("ttl", JNumber 5); ("use_btree", JBool true)]) 0 [1] =
  match legacy_hits [("ttl", JNumber 5); ("use_btree", JBool true)] with
  | [] => (true, []) | e :: _ => (false, [LegacyError e]) end.
Proof.
  apply (legacy_check_spec (one_attribute [("ttl", JNumber 5); ("use_btree", JBool true)]) [1]
           [("ttl", JNumber 5); ("use_btree", JBool true)]).
  - cbn. unfold TIDESDB_ENGINE_ATTRIBUTE_MAX_LEN. lia.
  - reflexivity.
Defined.

Lemma isolation_from_session_witness :
  isolation_rank (resolve_effective_isolation false 1 TDB_ISOLATION_SNAPSHOT) <=
    isolation_rank (resolve_effective_isolation false 2 TDB_ISOLATION_SERIALIZABLE).
Proof. apply (isolation_from_session 1 2 TDB_ISOLATION_SNAPSHOT TDB_ISOLATION_SERIALIZABLE); lia. Defined.

(** A negative option value wraps around: a TTL of -1 becomes 2^64 - 1 seconds. *)
Lemma negative_ttl_wraps :
  ttl (tidesdb_compute_opts_for_table (one_attribute [("ttl", JNumber (-1))]) session_default [1])
  = 2 ^ 64 - 1.
Proof. reflexivity. Qed.
