(* ===== verification/CfNames.v ===== *)
(** * Column-family names and the DDL that depends on them
    (ha_tidesdb.cc 2975-3220, 3843-3873, 9472-9560, 9575-9713)

    How a table path becomes a column-family name and a schema key, and what
    DROP TABLE, RENAME TABLE and DROP DATABASE do to the set of column families.
    The engine is a parameter: a class of the three calls used, with the laws of
    their documented behaviour; file removal and transaction failures are
    switches of the environment. *)

From Stdlib Require Import ZArith Lia String Ascii Sorting.Sorted.
From stdpp Require Import base tactics list numbers gmap fin_maps.
From S2P Require Import Prelude Errors Scan Paths.

(** The bytes of a literal. *)
Definition of_string (s : string) : bytes :=
  (fun a => Z.of_N (N_of_ascii a)) <$> list_ascii_of_string s.
Arguments of_string : simpl never.

Definition CF_DB_TABLE_SEP : bytes := of_string "__".
Definition CF_INDEX_INFIX : bytes := of_string "__idx_".
Definition SCHEMA_CF_KEY_SEP : Z := 0.
Definition MARIADB_TEMP_NAME_MARKER : Z := 35.
Definition MARIADB_TEMP_NAME_REPLACEMENT : Z := 95.
Definition MARIADB_REL_PATH_PREFIX : bytes := of_string "./".

(** ** Paths to names *)

Definition strip_rel (p : bytes) : bytes :=
  if has_prefix MARIADB_REL_PATH_PREFIX p then drop (length MARIADB_REL_PATH_PREFIX) p else p.

(** Database and table, or [None] when there is no slash. *)
Definition split_path (p : bytes) : option (bytes * bytes) :=
  match last_slash p with
  | None => None
  | Some ls =>
    let tblname := drop (ls + 1) p in
    let dbname := match last_slash (take ls p) with
                  | None => take ls p
                  | Some prev => drop (prev + 1) (take ls p)
                  end in
    Some (dbname, tblname)
  end.

Definition mark (c : Z) : Z :=
  if c =? MARIADB_TEMP_NAME_MARKER then MARIADB_TEMP_NAME_REPLACEMENT else c.

Definition path_to_cf_name (path : bytes) : bytes :=
  let p := strip_rel path in
  match split_path p with
  | None => p
  | Some (dbname, tblname) => mark <$> (dbname ++ CF_DB_TABLE_SEP ++ tblname)
  end.

(** [resolve_idx_cf]: the name of a secondary index's column family. *)
Definition idx_cf_name (table_cf key_name : bytes) : bytes := table_cf ++ CF_INDEX_INFIX ++ key_name.

Definition schema_cf_key (db tbl : bytes) : bytes := db ++ SCHEMA_CF_KEY_SEP :: tbl.

Definition schema_cf_key_from_path (path : bytes) : bytes :=
  let p := strip_rel path in
  match split_path p with
  | None => SCHEMA_CF_KEY_SEP :: p
  | Some (dbname, tblname) => dbname ++ SCHEMA_CF_KEY_SEP :: tblname
  end.

(** [tidesdb_path_to_db_name]: strip trailing separators, last component.
    FN_LIBCHAR is the slash; a backslash also separates. *)
Fixpoint rstrip_slashes (r : bytes) : bytes :=
  match r with c :: rest => if c =? 47 then rstrip_slashes rest else r | [] => [] end.

Fixpoint last_sep (s : bytes) : option nat :=
  match s with
  | [] => None
  | c :: rest =>
    match last_sep rest with
    | Some i => Some (S i)
    | None => if (c =? 47) || (c =? 92) then Some 0%nat else None
    end
  end.

Definition tidesdb_path_to_db_name (path : bytes) : bytes :=
  let p := rev (rstrip_slashes (rev path)) in
  match last_sep p with None => p | Some i => drop (i + 1) p end.

(** ** The schema column family: entries in key order *)

Notation schema_cf := (list (bytes * bytes)) (only parsing).

Definition schema_put (k v : bytes) (s : schema_cf) : schema_cf :=
  (fix go (s : schema_cf) : schema_cf :=
     match s with
     | [] => [(k, v)]
     | (k', v') :: rest =>
       match bytes_compare k k' with
       | Lt => (k, v) :: s
       | Eq => (k, v) :: rest
       | Gt => (k', v') :: go rest
       end
     end) s.

Definition schema_del (k : bytes) (s : schema_cf) : schema_cf := filter (fun e => e.1 <> k) s.

Definition schema_get (k : bytes) (s : schema_cf) : option bytes :=
  snd <$> List.find (fun e => bool_decide (e.1 = k)) s.

(** Whether beginning, writing and committing the one-shot transaction work. *)
Record txn_env := mk_txn_env { begin_ok : bool; put_ok : bool; commit_ok : bool }.

(** [frm] is the image given, or what reading the file yields. Lines 3046-3097. *)
Definition schema_cf_store_frm (env : txn_env) (path : bytes) (frm : option bytes)
    (s : option schema_cf) : Z * option schema_cf :=
  match s with
  | None => (0, s)
  | Some cf =>
    match frm with
    | None => (0, s)
    | Some img =>
      if begin_ok env && put_ok env && commit_ok env
      then (0, Some (schema_put (schema_cf_key_from_path path) img cf)) else (-1, s)
    end
  end.

(** Lines 3102-3114. *)
Definition schema_cf_delete (env : txn_env) (path : bytes) (s : option schema_cf) : option schema_cf :=
  match s with
  | None => None
  | Some cf => if begin_ok env && commit_ok env
               then Some (schema_del (schema_cf_key_from_path path) cf) else s
  end.

(** Lines 3121-3165: seek to the prefix, collect while it matches, delete. *)
Definition schema_cf_delete_db (env : txn_env) (db_name : bytes) (s : option schema_cf)
    : option schema_cf :=
  match s with
  | None => None
  | Some cf =>
    match db_name with
    | [] => s
    | _ =>
      if begin_ok env then
        let to_delete := scan_prefix fst (db_name ++ [SCHEMA_CF_KEY_SEP]) cf in
        if commit_ok env then Some (foldl (fun cf e => schema_del e.1 cf) cf to_delete) else s
      else s
    end
  end.

(** Lines 3171-3212; [frm] is the file at the new path, for the fallback. *)
Definition schema_cf_rename (env : txn_env) (from to : bytes) (frm : option bytes)
    (s : option schema_cf) : option schema_cf :=
  match s with
  | None => None
  | Some cf =>
    if begin_ok env then
      let old_key := schema_cf_key_from_path from in
      match schema_get old_key cf with
      | Some val =>
          let cf1 := if put_ok env then schema_put (schema_cf_key_from_path to) val cf else cf in
          if commit_ok env then Some (schema_del old_key cf1) else s
      | None => snd (schema_cf_store_frm env to frm s)
      end
    else s
  end.

(** ** The engine's column families *)

Class CfEngine (E D : Type) := {
  cf_map : E -> gmap bytes D;
  list_column_families : E -> option (list bytes);
  drop_column_family : bytes -> E -> tdb_rc * E;
  rename_column_family : bytes -> bytes -> E -> tdb_rc * E
}.

Definition done_rc (rc : tdb_rc) : bool :=
  bool_decide (rc = TDB_SUCCESS) || bool_decide (rc = TDB_ERR_NOT_FOUND).

(** Documented behaviour of the calls when they do not fail: listing gives every
    name once, dropping removes the family (absent is TDB_ERR_NOT_FOUND), and
    renaming to a free name moves it. *)
Class CfLaws (E D : Type) `{CfEngine E D} := {
  list_nodup e l : list_column_families e = Some l -> NoDup l;
  list_names e l n : list_column_families e = Some l -> n ∈ l <-> is_Some (cf_map e !! n);
  drop_done n e : done_rc (drop_column_family n e).1 = true ->
    cf_map (drop_column_family n e).2 = delete n (cf_map e);
  rename_done a b e : a <> b -> cf_map e !! b = None -> done_rc (rename_column_family a b e).1 = true ->
    cf_map (rename_column_family a b e).2 =
      match cf_map e !! a with Some d => <[b := d]> (delete a (cf_map e)) | None => cf_map e end
}.

(** ** DROP TABLE, RENAME TABLE, DROP DATABASE *)

Section Ddl.
Context {E D : Type} `{CfEngine E D}.

Record ddl_state := mk_ddl {
  eng : E;
  cf_dirs : gset bytes;           (* directories on disk *)
  schema : option schema_cf       (* None in local-only mode *)
}.

Record ddl_env := mk_ddl_env {
  engine_open : bool;
  rmtree_ok : bytes -> bool;
  txns : txn_env;
  frm_at : bytes -> option bytes
}.

(** Lines 9575-9588: nothing to do when [my_stat] fails. *)
Definition force_remove_cf_dir (env : ddl_env) (cf_name : bytes) (dirs : gset bytes) : gset bytes :=
  if rmtree_ok env cf_name then dirs ∖ {[cf_name]} else dirs.

(** The names a listing gives that start with [prefix]; a failed listing is skipped. *)
Definition listed_with_prefix (prefix : bytes) (e : E) : list bytes :=
  match list_column_families e with
  | Some names => filter (fun n => has_prefix prefix n = true) names
  | None => []
  end.

(** Lines 9591-9640. *)
Definition tidesdb_drop_table_impl (env : ddl_env) (path : bytes) (st : ddl_state)
    : tdb_rc * ddl_state :=
  if negb (engine_open env) then (TDB_SUCCESS, st)
  else
    let cf_name := path_to_cf_name path in
    let idx_cf_names := listed_with_prefix (cf_name ++ CF_INDEX_INFIX) (eng st) in
    let '(rc, e1) := drop_column_family cf_name (eng st) in
    if negb (done_rc rc) then (rc, mk_ddl e1 (cf_dirs st) (schema st))
    else
      let e2 := foldl (fun e n => (drop_column_family n e).2) e1 idx_cf_names in
      let dirs := foldl (fun d n => force_remove_cf_dir env n d)
                    (force_remove_cf_dir env cf_name (cf_dirs st)) idx_cf_names in
      (TDB_SUCCESS, mk_ddl e2 dirs (schema_cf_delete (txns env) path (schema st))).

(** Lines 9541-9546: one index column family; an error is only logged. *)
Definition rename_idx (old_cf new_cf : bytes) (e : E) (cf_str : bytes) : E :=
  let prefix := old_cf ++ CF_INDEX_INFIX in
  if has_prefix prefix cf_str then
    let suffix := drop (length prefix) cf_str in
    let new_idx := new_cf ++ CF_INDEX_INFIX ++ suffix in
    let e1 := (drop_column_family new_idx e).2 in
    (rename_column_family cf_str new_idx e1).2
  else e.

(** Lines 9514-9558. *)
Definition rename_table (env : ddl_env) (from to : bytes) (st : ddl_state) : ha_rc * ddl_state :=
  let old_cf := path_to_cf_name from in
  let new_cf := path_to_cf_name to in
  let e1 := (drop_column_family new_cf (eng st)).2 in
  let '(rc, e2) := rename_column_family old_cf new_cf e1 in
  if negb (done_rc rc) then (ha_of_rc rc, mk_ddl e2 (cf_dirs st) (schema st))
  else
    let e3 := match list_column_families e2 with
              | Some names => foldl (rename_idx old_cf new_cf) e2 names
              | None => e2
              end in
    (HA_OK, mk_ddl e3 (cf_dirs st) (schema_cf_rename (txns env) from to (frm_at env to) (schema st))).

(** Lines 9677-9713. *)
Definition tidesdb_hton_drop_database (env : ddl_env) (path : bytes) (st : ddl_state) : ddl_state :=
  if negb (engine_open env) then st
  else
    let db := tidesdb_path_to_db_name path in
    match db with
    | [] => st
    | _ =>
      let to_drop := listed_with_prefix (db ++ CF_DB_TABLE_SEP) (eng st) in
      mk_ddl (foldl (fun e n => (drop_column_family n e).2) (eng st) to_drop)
        (foldl (fun d n => force_remove_cf_dir env n d) (cf_dirs st) to_drop)
        (schema_cf_delete_db (txns env) db (schema st))
    end.

End Ddl.
Arguments ddl_state : clear implicits.
Arguments mk_ddl {_} _ _ _.

(** ** Lemmas on paths *)

Definition no_slash (s : bytes) : Prop := Forall (fun c => c <> 47) s.

Lemma last_slash_None s : no_slash s -> last_slash s = None.
Proof.
  induction s as [|c s IH]; [done|]. intros [Hc Hs]%List.Forall_cons_iff. cbn.
  rewrite IH by done. apply Z.eqb_neq in Hc. by rewrite Hc.
Qed.

Lemma last_slash_app a b : no_slash b -> last_slash (a ++ 47 :: b) = Some (length a).
Proof.
  intros Hb. induction a as [|c a IH]; cbn; [by rewrite last_slash_None|]. by rewrite IH.
Qed.

Lemma drop_past {A} (a : list A) x b : drop (length a + 1) (a ++ x :: b) = b.
Proof.
  rewrite (app_assoc a [x] b : a ++ x :: b = (a ++ [x]) ++ b).
  apply drop_app_length'. by rewrite length_app.
Qed.

Lemma split_two db tbl :
  no_slash db -> no_slash tbl -> split_path (db ++ 47 :: tbl) = Some (db, tbl).
Proof.
  intros Hd Ht. unfold split_path. rewrite last_slash_app by done.
  by rewrite take_app_length, last_slash_None, drop_past by done.
Qed.

Lemma split_three dir db tbl :
  no_slash db -> no_slash tbl -> split_path (dir ++ 47 :: db ++ 47 :: tbl) = Some (db, tbl).
Proof.
  intros Hd Ht. unfold split_path. rewrite (app_comm_cons db (47 :: tbl) 47), app_assoc.
  rewrite last_slash_app, take_app_length, drop_past by done.
  by rewrite last_slash_app, drop_past by done.
Qed.

(** The forms in which the server passes a table path. *)
Definition rel_path (db tbl : bytes) : bytes := MARIADB_REL_PATH_PREFIX ++ db ++ 47 :: tbl.
Definition abs_path (dir db tbl : bytes) : bytes := 47 :: dir ++ 47 :: db ++ 47 :: tbl.

Lemma strip_rel_path db tbl : strip_rel (rel_path db tbl) = db ++ 47 :: tbl.
Proof.
  unfold strip_rel, rel_path. rewrite (proj2 (has_prefix_iff _ _)) by eauto.
  apply drop_app_length.
Qed.

Lemma strip_abs_path dir db tbl : strip_rel (abs_path dir db tbl) = abs_path dir db tbl.
Proof. reflexivity. Qed.

Lemma split_paths dir db tbl :
  no_slash db -> no_slash tbl ->
  split_path (strip_rel (rel_path db tbl)) = Some (db, tbl) /\
  split_path (strip_rel (abs_path dir db tbl)) = Some (db, tbl).
Proof.
  intros Hd Ht. rewrite strip_rel_path, strip_abs_path. split; [by apply split_two|].
  exact (split_three (47 :: dir) db tbl Hd Ht).
Qed.

Lemma key_split_inj (db1 tbl1 db2 tbl2 : bytes) :
  Forall (fun c => c <> 0) db1 -> Forall (fun c => c <> 0) db2 ->
  db1 ++ 0 :: tbl1 = db2 ++ 0 :: tbl2 -> db1 = db2 /\ tbl1 = tbl2.
Proof.
  revert db2. induction db1 as [|c db1 IH]; intros [|d db2] H1 H2 E; cbn in E.
  - by injection E.
  - injection E as <- _. by apply List.Forall_cons_iff in H2 as [? _].
  - injection E as -> _. by apply List.Forall_cons_iff in H1 as [? _].
  - injection E as <- E. apply List.Forall_cons_iff in H1 as [_ H1], H2 as [_ H2].
    destruct (IH db2 H1 H2 E) as [-> ->]. done.
Qed.

(** ** Lemmas on the schema *)

Lemma foldl_schema_del (ks : list (bytes * bytes)) (cf : schema_cf) :
  foldl (fun cf e => schema_del e.1 cf) cf ks = filter (fun e => e.1 ∉ ks.*1) cf.
Proof.
  revert cf. induction ks as [|k ks IH]; intros cf; cbn [foldl].
  - symmetry. apply filter_all. intros e _. cbn. apply not_elem_of_nil.
  - rewrite IH. unfold schema_del. rewrite list_filter_filter. apply list_filter_iff. intros e.
    cbn. rewrite not_elem_of_cons. tauto.
Qed.

Lemma schema_del_all p (cf : schema_cf) :
  foldl (fun cf e => schema_del e.1 cf) cf (with_prefix fst p cf) =
  filter (fun e => has_prefix p e.1 = false) cf.
Proof.
  rewrite foldl_schema_del. apply filter_ext_elem. intros e He.
  rewrite list_elem_of_fmap. unfold with_prefix. setoid_rewrite list_elem_of_filter.
  split.
  - intros Hn. apply not_true_iff_false. intros Hp. apply Hn. by exists e.
  - intros Hp (e' & E & Hp' & _). congruence.
Qed.

(** A sorted column family as a map. *)
Lemma schema_put_elem k v (cf : schema_cf) e :
  sorted_cf fst cf -> e ∈ schema_put k v cf <-> e = (k, v) \/ e ∈ cf /\ e.1 <> k.
Proof.
  induction cf as [|[k' v'] cf IH]; intros Hs.
  - cbn. rewrite list_elem_of_singleton. split; [tauto|]. intros [|[He _]]; [done|]. by apply not_elem_of_nil in He.
  - apply StronglySorted_inv in Hs as [Hs Hall]. rewrite List.Forall_forall in Hall. cbn [schema_put].
    assert (Hgt : forall e', e' ∈ cf -> bytes_lt k' e'.1) by (intros e' He'; apply (Hall e'), list_elem_of_In, He').
    destruct (bytes_compare k k') eqn:Hc; rewrite ?elem_of_cons.
    + apply bytes_compare_eq in Hc as <-. split; [|naive_solver].
      intros [->|He]; [auto|]. right. split; [auto|]. intros E. specialize (Hgt e He).
      unfold bytes_lt in Hgt. rewrite E in Hgt. by rewrite (proj2 (bytes_compare_eq k k)) in Hgt.
    + split; [|naive_solver]. intros [->|[->|He]]; [auto|right|right]; (split; [auto|]).
      * cbn. intros ->. by rewrite (proj2 (bytes_compare_eq k k)) in Hc.
      * intros E. specialize (Hgt e He). rewrite E in Hgt.
        pose proof (bytes_lt_trans _ _ _ Hc Hgt) as Hk. unfold bytes_lt in Hk. by rewrite (proj2 (bytes_compare_eq k k)) in Hk.
    + change (e = (k', v') \/ e ∈ schema_put k v cf <-> e = (k, v) \/ (e = (k', v') \/ e ∈ cf) /\ e.1 <> k).
      rewrite IH by done. split; [|naive_solver].
      intros [->|[|[]]]; [right|auto|auto]. split; [auto|]. cbn. intros ->.
      by rewrite (proj2 (bytes_compare_eq k k)) in Hc.
Qed.

Lemma schema_put_sorted k v (cf : schema_cf) : sorted_cf fst cf -> sorted_cf fst (schema_put k v cf).
Proof.
  induction cf as [|[k' v'] cf IH]; intros Hs; [repeat constructor|].
  pose proof (StronglySorted_inv Hs) as [Hs' Hall]. cbn [schema_put]. destruct (bytes_compare k k') eqn:Hc.
  - apply bytes_compare_eq in Hc as <-. by constructor.
  - constructor; [done|]. constructor; [done|]. eapply List.Forall_impl; [|exact Hall]. intros e He. cbn in *.
    by eapply bytes_lt_trans.
  - constructor; [by apply IH|]. apply List.Forall_forall. intros e He%list_elem_of_In.
    apply (schema_put_elem k v cf e Hs') in He as [->|[He _]].
    + cbn. unfold bytes_lt. by rewrite bytes_compare_antisym, Hc.
    + rewrite List.Forall_forall in Hall. by apply Hall, list_elem_of_In.
Qed.

Lemma schema_del_sorted k (cf : schema_cf) : sorted_cf fst cf -> sorted_cf fst (schema_del k cf).
Proof.
  unfold schema_del. induction 1 as [|e cf Hs IH Hall]; [constructor|]. rewrite filter_cons. case_decide; [|done].
  constructor; [done|]. rewrite List.Forall_forall in *. intros x Hx%list_elem_of_In%list_elem_of_filter.
  apply Hall, list_elem_of_In, Hx.
Qed.

Lemma sorted_functional (cf : schema_cf) k v v' : sorted_cf fst cf -> (k, v) ∈ cf -> (k, v') ∈ cf -> v = v'.
Proof.
  induction 1 as [|e cf Hs IH Hall]; [by intros ?%not_elem_of_nil|].
  rewrite List.Forall_forall in Hall.
  assert (Hne : forall w, (k, w) ∈ cf -> e.1 <> k).
  { intros w Hw E. specialize (Hall (k, w) (proj1 (list_elem_of_In _ _) Hw)). unfold bytes_lt in Hall.
    rewrite E in Hall. cbn in Hall. by rewrite (proj2 (bytes_compare_eq k k)) in Hall. }
  rewrite !elem_of_cons. intros [<-|H1] [E|H2]; [congruence|by destruct (Hne _ H2)| |auto].
  subst e. by destruct (Hne _ H1).
Qed.

Lemma schema_get_iff k v (cf : schema_cf) : sorted_cf fst cf -> schema_get k cf = Some v <-> (k, v) ∈ cf.
Proof.
  intros Hs. unfold schema_get. destruct (List.find _ cf) as [[k' v']|] eqn:Hf; cbn.
  - apply find_some in Hf as [Hin Hk]. apply bool_decide_eq_true in Hk. cbn in Hk. subst k'.
    apply list_elem_of_In in Hin. split; [by intros [= <-]|]. intros H2. f_equal. by eapply sorted_functional.
  - split; [done|]. intros Hin%list_elem_of_In. pose proof (find_none _ _ Hf _ Hin) as Hn. cbn in Hn.
    by rewrite bool_decide_eq_true_2 in Hn.
Qed.

(** ** Lemmas on the engine *)

Section DdlProofs.
Context {E D : Type} `{CfLaws E D}.

Definition reliable_drop : Prop := forall n (e : E), done_rc (drop_column_family n e).1 = true.

Lemma drop_all_map (e : E) ns :
  reliable_drop ->
  cf_map (foldl (fun e n => (drop_column_family n e).2) e ns) =
    filter (fun p : bytes * D => p.1 ∉ ns) (cf_map e).
Proof.
  intros Hr. revert e. induction ns as [|n ns IH]; intros e; cbn [foldl].
  - symmetry. apply map_filter_id. intros i x _. cbn. apply not_elem_of_nil.
  - rewrite IH, drop_done by apply Hr. apply map_eq. intros i. apply option_eq. intros x.
    rewrite !map_lookup_filter_Some, lookup_delete_Some, not_elem_of_cons. cbn. naive_solver.
Qed.

Lemma listed_elem prefix (e : E) n :
  is_Some (list_column_families e) ->
  n ∈ listed_with_prefix prefix e <-> has_prefix prefix n = true /\ is_Some (cf_map e !! n).
Proof.
  intros [l Hl]. unfold listed_with_prefix. rewrite Hl, list_elem_of_filter.
  by rewrite (list_names e l n Hl).
Qed.

Lemma rm_dirs (env : ddl_env) (ns : list bytes) (d : gset bytes) (n : bytes) :
  (forall m, rmtree_ok env m = true) ->
  n ∈ foldl (fun d n => force_remove_cf_dir env n d) d ns <-> n ∈ d /\ n ∉ ns.
Proof.
  intros Hrm. revert d. induction ns as [|m ns IH]; intros d; cbn [foldl].
  - set_solver.
  - rewrite IH. unfold force_remove_cf_dir at 1. rewrite Hrm. set_solver.
Qed.

(** ** Renaming *)

Definition reliable_rename : Prop :=
  forall a b (e : E), cf_map e !! b = None -> done_rc (rename_column_family a b e).1 = true.

(** No column family is at once the table's or one of its indexes' under the old
    name and under the new. *)
Definition separate (old_cf new_cf : bytes) : Prop :=
  old_cf <> new_cf /\
  has_prefix (old_cf ++ CF_INDEX_INFIX) new_cf = false /\
  has_prefix (new_cf ++ CF_INDEX_INFIX) old_cf = false /\
  forall s s', old_cf ++ CF_INDEX_INFIX ++ s <> new_cf ++ CF_INDEX_INFIX ++ s'.

(** Drop the target, then rename: what the pair of calls does. *)
Lemma replace_cf a b (e : E) n :
  reliable_drop -> reliable_rename -> a <> b ->
  cf_map (rename_column_family a b (drop_column_family b e).2).2 !! n =
    if decide (n = b) then cf_map e !! a else if decide (n = a) then None else cf_map e !! n.
Proof.
  intros Hd Hr Hab. pose proof (drop_done b e (Hd _ _)) as Hm.
  assert (Hfree : cf_map (drop_column_family b e).2 !! b = None) by by rewrite Hm, lookup_delete_eq.
  rewrite rename_done by auto. rewrite Hm, lookup_delete_ne by done.
  destruct (cf_map e !! a) as [d|] eqn:Ea; repeat case_decide; subst.
  - by rewrite lookup_insert_eq.
  - by rewrite lookup_insert_ne, lookup_delete_eq.
  - by rewrite lookup_insert_ne, !lookup_delete_ne.
  - by rewrite lookup_delete_eq.
  - by rewrite lookup_delete_ne.
  - by rewrite lookup_delete_ne.
Qed.

Lemma rename_idx_lookup old new (e : E) s n :
  reliable_drop -> reliable_rename -> separate old new ->
  cf_map (rename_idx old new e (old ++ CF_INDEX_INFIX ++ s)) !! n =
    if decide (n = new ++ CF_INDEX_INFIX ++ s) then cf_map e !! (old ++ CF_INDEX_INFIX ++ s)
    else if decide (n = old ++ CF_INDEX_INFIX ++ s) then None else cf_map e !! n.
Proof.
  intros Hd Hr (_ & _ & _ & Hsep). unfold rename_idx. rewrite app_assoc.
  rewrite (proj2 (has_prefix_iff _ _)) by eauto. rewrite drop_app_length.
  rewrite replace_cf by (try done; rewrite <- app_assoc; apply Hsep).
  by rewrite <- app_assoc.
Qed.

Lemma rename_idx_loop old new l (e : E) :
  reliable_drop -> reliable_rename -> separate old new -> NoDup l ->
  let e' := foldl (rename_idx old new) e l in
  let o s := old ++ CF_INDEX_INFIX ++ s in
  let w s := new ++ CF_INDEX_INFIX ++ s in
  (forall s, o s ∈ l -> cf_map e' !! w s = cf_map e !! o s /\ cf_map e' !! o s = None) /\
  (forall n, (forall s, n = w s -> o s ∉ l) -> (forall s, n = o s -> n ∉ l) ->
     cf_map e' !! n = cf_map e !! n).
Proof.
  intros Hd Hr Hs. cbv zeta. pose proof Hs as (_ & _ & _ & Hsep). revert e.
  induction l as [|a l IH]; intros e Hnd; cbn [foldl].
  { split; [by intros s ?%not_elem_of_nil|done]. }
  apply NoDup_cons in Hnd as [Ha Hnd]. specialize (IH (rename_idx old new e a) Hnd) as [IH1 IH2].
  destruct (has_prefix (old ++ CF_INDEX_INFIX) a) eqn:Hp.
  - apply has_prefix_iff in Hp as [sa ->]. rewrite <- app_assoc in *.
    pose proof (rename_idx_lookup old new e sa) as Hstep.
    assert (Hinj : forall s, old ++ CF_INDEX_INFIX ++ s = old ++ CF_INDEX_INFIX ++ sa -> s = sa).
    { intros s E0. by do 2 apply app_inv_head in E0. }
    assert (Hinj' : forall s, new ++ CF_INDEX_INFIX ++ s = new ++ CF_INDEX_INFIX ++ sa -> s = sa).
    { intros s E0. by do 2 apply app_inv_head in E0. }
    split.
    + intros s [E0|Hin]%elem_of_cons.
      * apply Hinj in E0 as ->. split; (rewrite IH2; [rewrite Hstep by done| |]).
        -- by rewrite decide_True.
        -- intros s' E0. apply app_inv_head, app_inv_head in E0 as <-. done.
        -- intros s' E0. by destruct (Hsep s' sa).
        -- rewrite decide_False, decide_True by (done || by apply Hsep). done.
        -- intros s' E0. by destruct (Hsep sa s').
        -- done.
      * assert (s <> sa) by (intros ->; done).
        destruct (IH1 s Hin) as [-> ->]. rewrite Hstep by done.
        rewrite !decide_False; [done|naive_solver|apply Hsep].
    + intros n H1 H2. rewrite IH2.
      * rewrite Hstep by done. rewrite !decide_False; [done| |].
        -- intros ->. apply (H2 sa); [done|constructor].
        -- intros ->. apply (H1 sa); [done|constructor].
      * intros s E0 Hin. apply (H1 s E0). by constructor.
      * intros s E0 Hin. apply (H2 s E0). by constructor.
  - assert (Hskip : rename_idx old new e a = e) by (unfold rename_idx; by rewrite Hp).
    rewrite Hskip in *.
    assert (Hne : forall s, old ++ CF_INDEX_INFIX ++ s <> a).
    { intros s <-. rewrite app_assoc in Hp. rewrite (proj2 (has_prefix_iff _ _)) in Hp by eauto. done. }
    split.
    + intros s [E0|Hin]%elem_of_cons; [by destruct (Hne s)|by apply IH1].
    + intros n H1 H2. apply IH2; intros s E0 Hin; [apply (H1 s E0)|apply (H2 s E0)]; by constructor.
Qed.

(** ** Properties *)

(** after DROP TABLE with a reliable engine and file system, exactly the
    table's own column family and those whose name continues it with the index
    infix are gone, from the engine and from the disk, and the schema entry of
    the table is removed; every other family is untouched. *)
Theorem drop_table_exact (env : ddl_env) (path : bytes) (st : ddl_state E)
    (Hopen : engine_open env = true) (Hdrop : reliable_drop)
    (Hrm : forall n, rmtree_ok env n = true) (Hlist : is_Some (list_column_families (eng st))) :
  let cf := path_to_cf_name path in
  let mine n := n = cf \/ has_prefix (cf ++ CF_INDEX_INFIX) n = true in
  exists st', tidesdb_drop_table_impl env path st = (TDB_SUCCESS, st') /\
    (forall n, mine n -> cf_map (eng st') !! n = None) /\
    (forall n, ~ mine n -> cf_map (eng st') !! n = cf_map (eng st) !! n) /\
    (forall n, mine n -> is_Some (cf_map (eng st) !! n) -> n ∉ cf_dirs st') /\
    (forall n, ~ mine n -> n ∈ cf_dirs st' <-> n ∈ cf_dirs st) /\
    schema st' = schema_cf_delete (txns env) path (schema st).
Proof.
  cbv zeta. unfold tidesdb_drop_table_impl. rewrite Hopen. cbn [negb].
  set (cf := path_to_cf_name path). set (idx := listed_with_prefix _ _).
  pose proof (Hdrop cf (eng st)) as Hd. pose proof (drop_done cf (eng st) Hd) as Hm.
  destruct (drop_column_family cf (eng st)) as [rc e1]. cbn in Hd, Hm. rewrite Hd. cbn [negb].
  eexists. split; [done|]. cbn [eng cf_dirs schema].
  assert (Hidx : forall n, n ∈ idx <-> has_prefix (cf ++ CF_INDEX_INFIX) n = true /\ is_Some (cf_map (eng st) !! n))
    by (intros n; by apply listed_elem).
  rewrite drop_all_map, Hm by done. repeat split.
  - intros n Hn. apply map_lookup_filter_None. right. intros x [Hne Hx]%lookup_delete_Some. cbn.
    destruct Hn as [->|Hn]; [done|]. intros Hnot. apply Hnot, Hidx. split; [done|]. by exists x.
  - intros n Hn. apply option_eq. intros x. rewrite map_lookup_filter_Some, lookup_delete_Some. cbn.
    split; [tauto|]. intros Hx. split; [split; [|done]; naive_solver|].
    intros [? _]%Hidx. tauto.
  - intros n Hn [x Hx]. rewrite rm_dirs by done. unfold force_remove_cf_dir. rewrite Hrm.
    intros [Hin Hnot]. destruct Hn as [->|Hn]; [set_solver|]. apply Hnot, Hidx. split; [done|]. by exists x.
  - rewrite rm_dirs by done. unfold force_remove_cf_dir. rewrite Hrm. set_solver.
  - intros Hin. apply rm_dirs; [done|]. unfold force_remove_cf_dir. rewrite Hrm.
    split; [|intros [? _]%Hidx; tauto]. apply elem_of_difference. split; [done|].
    rewrite elem_of_singleton. tauto.
Qed.

(** DROP DATABASE removes exactly the column families whose name starts with
    the database name and the separator, and the schema entries of the database. *)
Theorem drop_database_exact (env : ddl_env) (path : bytes) (st : ddl_state E)
    (Hopen : engine_open env = true) (Hdrop : reliable_drop)
    (Hlist : is_Some (list_column_families (eng st)))
    (Hdb : tidesdb_path_to_db_name path <> []) :
  let db := tidesdb_path_to_db_name path in
  let st' := tidesdb_hton_drop_database env path st in
  (forall n, cf_map (eng st') !! n =
     if has_prefix (db ++ CF_DB_TABLE_SEP) n then None else cf_map (eng st) !! n) /\
  (forall cf, schema st = Some cf -> sorted_cf fst cf -> begin_ok (txns env) = true ->
     commit_ok (txns env) = true ->
     schema st' = Some (filter (fun e => has_prefix (db ++ [SCHEMA_CF_KEY_SEP]) e.1 = false) cf)).
Proof.
  cbv zeta. unfold tidesdb_hton_drop_database. rewrite Hopen. cbn [negb].
  set (db := tidesdb_path_to_db_name path) in *. destruct db as [|c0 db0] eqn:Edb; [done|].
  rewrite <- Edb. cbn [eng schema]. split.
  - intros n. rewrite drop_all_map by done. destruct (has_prefix _ n) eqn:Hp.
    + apply map_lookup_filter_None. right. intros x Hx. cbn. intros Hnot. apply Hnot, listed_elem; [done|].
      split; [done|]. by exists x.
    + apply option_eq. intros x. rewrite map_lookup_filter_Some. cbn. split; [tauto|]. intros Hx.
      split; [done|]. intros Hin. apply listed_elem in Hin as [Hpre _]; [|done]. congruence.
  - intros cf -> Hs Hb Hc. assert (Hne : db <> []) by by rewrite Edb. clearbody db. clear Edb.
    unfold schema_cf_delete_db. destruct db as [|c1 db1]; [done|].
    rewrite Hb, Hc. f_equal. rewrite scan_prefix_complete by done. apply schema_del_all.
Qed.

(** RENAME TABLE with a reliable engine moves the contents of the table's
    column family and of each of its index families to the corresponding new
    name, leaves nothing under the old names, and touches no family that is
    neither the table's nor one of its indexes' under either name. *)
Theorem rename_table_moves (env : ddl_env) (from to : bytes) (st : ddl_state E)
    (Hdrop : reliable_drop) (Hren : reliable_rename)
    (Hlist : forall e : E, is_Some (list_column_families e))
    (Hsep : separate (path_to_cf_name from) (path_to_cf_name to)) :
  let old_cf := path_to_cf_name from in
  let new_cf := path_to_cf_name to in
  exists st', rename_table env from to st = (HA_OK, st') /\
    cf_map (eng st') !! new_cf = cf_map (eng st) !! old_cf /\ cf_map (eng st') !! old_cf = None /\
    (forall s d, cf_map (eng st) !! idx_cf_name old_cf s = Some d ->
       cf_map (eng st') !! idx_cf_name new_cf s = Some d /\
       cf_map (eng st') !! idx_cf_name old_cf s = None) /\
    (forall n, n <> old_cf -> n <> new_cf -> has_prefix (old_cf ++ CF_INDEX_INFIX) n = false ->
       has_prefix (new_cf ++ CF_INDEX_INFIX) n = false -> cf_map (eng st') !! n = cf_map (eng st) !! n).
Proof.
  cbv zeta. unfold rename_table, idx_cf_name. set (old := path_to_cf_name from) in *. set (new := path_to_cf_name to) in *.
  pose proof Hsep as (Hne & Hp1 & Hp2 & Hs).
  pose proof (fun n => replace_cf old new (eng st) n Hdrop Hren Hne) as Hrep.
  assert (Hok : done_rc (rename_column_family old new (drop_column_family new (eng st)).2).1 = true).
  { apply Hren. rewrite drop_done by apply Hdrop. apply lookup_delete_eq. }
  destruct (rename_column_family old new _) as [rc e2]. cbn in Hok, Hrep. rewrite Hok. cbn [negb].
  destruct (Hlist e2) as [l Hl]. rewrite Hl. eexists. split; [done|]. cbn [eng].
  destruct (rename_idx_loop old new l e2 Hdrop Hren Hsep (list_nodup e2 l Hl)) as [L1 L2].
  assert (Hnp : forall t s, t ++ CF_INDEX_INFIX ++ s <> t).
  { intros t s E0. apply (f_equal length) in E0. rewrite !length_app in E0.
    change (length CF_INDEX_INFIX) with 6%nat in E0. lia. }
  assert (Hpre : forall t s, has_prefix (t ++ CF_INDEX_INFIX) (t ++ CF_INDEX_INFIX ++ s) = true).
  { intros t s. apply has_prefix_iff. exists s. by rewrite <- app_assoc. }
  split; [|split; [|split]].
  - rewrite L2, Hrep, decide_True; [done|done|..]; intros s E0.
    + by destruct (Hnp new s).
    + rewrite E0, Hpre in Hp1. done.
  - rewrite L2, Hrep, decide_False, decide_True; [done..| |]; intros s E0.
    + rewrite E0, Hpre in Hp2. done.
    + by destruct (Hnp old s).
  - intros s d Hd.
    assert (Hold : cf_map e2 !! (old ++ CF_INDEX_INFIX ++ s) = Some d).
    { rewrite Hrep, !decide_False; [done|apply Hnp|]. intros E0. rewrite <- E0, Hpre in Hp1. done. }
    destruct (L1 s) as [E1 E2]; [apply (list_names e2 l _ Hl); by eexists|].
    by rewrite E1, E2, Hold.
  - intros n Hn1 Hn2 Hn3 Hn4. rewrite L2, Hrep, !decide_False; [done..| |]; intros s E0.
    + rewrite E0, Hpre in Hn4. done.
    + rewrite E0, Hpre in Hn3. done.
Qed.

End DdlProofs.

(** The relative and the absolute form of a table path give the same
    column-family name and the same schema key, and schema keys of distinct
    tables are distinct. *)
Theorem table_path_names (dir db tbl db' tbl' : bytes)
    (Hd : no_slash db) (Ht : no_slash tbl) (Hd' : no_slash db') (Ht' : no_slash tbl')
    (Hz : Forall (fun c => c <> 0) db) (Hz' : Forall (fun c => c <> 0) db') :
  path_to_cf_name (rel_path db tbl) = mark <$> (db ++ CF_DB_TABLE_SEP ++ tbl) /\
  path_to_cf_name (abs_path dir db tbl) = path_to_cf_name (rel_path db tbl) /\
  schema_cf_key_from_path (rel_path db tbl) = schema_cf_key db tbl /\
  schema_cf_key_from_path (abs_path dir db tbl) = schema_cf_key db tbl /\
  (schema_cf_key_from_path (rel_path db tbl) = schema_cf_key_from_path (rel_path db' tbl') <->
   db = db' /\ tbl = tbl').
Proof.
  destruct (split_paths dir db tbl Hd Ht) as [E1 E2]. destruct (split_paths dir db' tbl' Hd' Ht') as [E1' _].
  unfold path_to_cf_name, schema_cf_key_from_path. rewrite E1, E2, E1'.
  do 4 (split; [done|]). split; [by apply key_split_inj|by intros [-> ->]].
Qed.

(** ** An engine that satisfies the laws, and witnesses *)

#[export] Instance map_engine : CfEngine (gmap bytes nat) nat := {
  cf_map e := e;
  list_column_families e := Some (map_to_list e).*1;
  drop_column_family n e :=
    (match e !! n with Some _ => TDB_SUCCESS | None => TDB_ERR_NOT_FOUND end, delete n e);
  rename_column_family a b e :=
    match e !! a with
    | None => (TDB_ERR_NOT_FOUND, e)
    | Some d => match e !! b with
                | None => (TDB_SUCCESS, <[b := d]> (delete a e))
                | Some _ => (TDB_ERR_EXISTS, e)
                end
    end
}.

#[export] Instance map_engine_laws : CfLaws (gmap bytes nat) nat.
Proof.
  split; cbn.
  - intros e l [= <-]. apply NoDup_fst_map_to_list.
  - intros e l n [= <-]. rewrite list_elem_of_fmap. split.
    + intros ([k v] & -> & Hkv%elem_of_map_to_list). by exists v.
    + intros [v Hv]. exists (n, v). split; [done|]. by apply elem_of_map_to_list.
  - done.
  - intros a b e Hab Hb. rewrite Hb. by destruct (e !! a).
Qed.

Lemma map_engine_reliable : reliable_drop (E := gmap bytes nat) /\ reliable_rename (E := gmap bytes nat).
Proof.
  split.
  - intros n e. cbn. by destruct (e !! n).
  - intros a b e Hb. cbn in *. rewrite Hb. by destruct (e !! a).
Qed.

Definition good_env : ddl_env := mk_ddl_env true (fun _ => true) (mk_txn_env true true true) (fun _ => None).

(** Table t with index i, and an unrelated table named t__idx_x in the same database. *)
Definition demo : ddl_state (gmap bytes nat) :=
  mk_ddl (list_to_map [(of_string "d__t", 1%nat); (of_string "d__t__idx_i", 2%nat);
                       (of_string "d__t__idx_x", 3%nat); (of_string "d__u", 4%nat)])
    ∅ (Some [(of_string "d" ++ 0 :: of_string "t", [])]).

Lemma drop_table_exact_witness :
  exists st', tidesdb_drop_table_impl good_env (of_string "./d/t") demo = (TDB_SUCCESS, st') /\
    cf_map (eng st') !! of_string "d__t" = None /\ cf_map (eng st') !! of_string "d__u" = Some 4%nat.
Proof.
  destruct (drop_table_exact good_env (of_string "./d/t") demo) as (st' & H1 & H2 & H3 & _).
  - reflexivity.
  - apply map_engine_reliable.
  - done.
  - by eexists.
  - exists st'. split; [exact H1|]. split.
    + apply H2. left. reflexivity.
    + rewrite H3; [vm_compute; reflexivity|]. intros [E0|E0]; vm_compute in E0; discriminate.
Defined.

Lemma drop_database_exact_witness :
  let st' := tidesdb_hton_drop_database good_env (of_string "./d/") demo in
  cf_map (eng st') !! of_string "d__u" = None.
Proof.
  cbv zeta.
  destruct (drop_database_exact good_env (of_string "./d/") demo) as [H1 _].
  - reflexivity.
  - apply map_engine_reliable.
  - by eexists.
  - vm_compute. discriminate.
  - rewrite H1. vm_compute. reflexivity.
Defined.

(** Names of equal length that differ are separate. *)
Lemma separate_same_length a b : length a = length b -> a <> b -> separate a b.
Proof.
  intros Hl Hne. repeat split; try done.
  1,2: apply not_true_iff_false; intros [r E0]%has_prefix_iff; apply (f_equal length) in E0;
    rewrite !length_app in E0; change (length CF_INDEX_INFIX) with 6%nat in E0; lia.
  intros s s' E0. apply (app_inj_1 _ _ _ _ Hl) in E0. by destruct E0.
Qed.

Lemma rename_table_moves_witness :
  exists st', rename_table good_env (of_string "./d/t") (of_string "./d/v") demo = (HA_OK, st') /\
    cf_map (eng st') !! of_string "d__v" = Some 1%nat /\
    cf_map (eng st') !! of_string "d__v__idx_i" = Some 2%nat /\
    cf_map (eng st') !! of_string "d__u" = Some 4%nat.
Proof.
  destruct (rename_table_moves good_env (of_string "./d/t") (of_string "./d/v") demo)
    as (st' & H1 & H2 & _ & H4 & H5).
  - apply map_engine_reliable.
  - apply map_engine_reliable.
  - intros e. by eexists.
  - apply separate_same_length; [reflexivity|]. vm_compute. discriminate.
  - exists st'. split; [exact H1|]. split; [|split].
    + etransitivity; [exact H2|]. vm_compute. reflexivity.
    + destruct (H4 (of_string "i") 2%nat) as [H6 _]; [vm_compute; reflexivity|]. exact H6.
    + rewrite H5; vm_compute; first [reflexivity | discriminate].
Defined.

Lemma table_path_names_witness :
  path_to_cf_name (of_string "./d/t") = of_string "d__t" /\
  path_to_cf_name (of_string "/v/d/t") = of_string "d__t".
Proof.
  destruct (table_path_names (of_string "v") (of_string "d") (of_string "t") (of_string "d") (of_string "u"))
    as (H1 & H2 & _); [repeat constructor; vm_compute; discriminate..|].
  split; [exact H1|]. etransitivity; [exact H2|exact H1].
Defined.

(** ** Colliding names *)

(** The name of a column family does not determine the table: database a__b with
    table c and database a with table b__c share one. *)
Theorem cf_names_collide :
  path_to_cf_name (of_string "./a__b/c") = path_to_cf_name (of_string "./a/b__c").
Proof. reflexivity. Qed.

(** Dropping table t drops the data of the table named t__idx_x. *)
Theorem drop_table_takes_another :
  cf_map (eng demo) !! path_to_cf_name (of_string "./d/t__idx_x") = Some 3%nat /\
  cf_map (eng (tidesdb_drop_table_impl good_env (of_string "./d/t") demo).2)
    !! path_to_cf_name (of_string "./d/t__idx_x") = None.
Proof. split; vm_compute; reflexivity. Qed.

(** Dropping database a drops the tables of database a__b. *)
Theorem drop_database_takes_another :
  let st := mk_ddl (list_to_map [(path_to_cf_name (of_string "./a__b/c"), 1%nat)]) ∅ None in
  cf_map (eng (tidesdb_hton_drop_database good_env (of_string "./a/") st)) = ∅.
Proof. vm_compute. reflexivity. Qed.
