(* ===== verification/KeyCodec.v ===== *)
(** * Comparable keys (ha_tidesdb.cc 1781-1808, 3975-4395)

    How a record becomes the bytes of a primary or secondary key, and how the
    covering-index path reads column values back out of such a key.  A record is
    the stored bytes of each field, [None] for NULL; buffers are fixed-length
    byte lists and a write outside one is [None].  [Field::make_sort_key] is the
    server's: a parameter, with the laws the plugin relies on. *)

From Stdlib Require Import ZArith Lia.
From stdpp Require Import base tactics list numbers.
From S2P Require Import Prelude.

(** ** Hidden primary keys (lines 1785-1808) *)

Definition KEY_NS_META : Z := 0.
Definition KEY_NS_DATA : Z := 1.
Definition KEY_NAMESPACE_LEN : nat := 1.

Definition encode_be64 (id : Z) : bytes :=
  (fun i => u8 (id .>> ((7 - Z.of_nat i) * 8))) <$> seq 0 8.

Definition decode_be64 (buf : bytes) : Z :=
  foldl (fun id i => u64 ((id .<< 8) .| nth i buf 0)) 0 (seq 0 8).

Definition is_data_key (key : bytes) : bool :=
  match key with c :: _ => c =? KEY_NS_DATA | [] => false end.

(** ha_tidesdb.h 813-818. *)
Definition build_data_key (pk : bytes) : bytes := KEY_NS_DATA :: pk.

(** ** Fields and keys *)

Inductive field_type :=
| MYSQL_TYPE_TINY | MYSQL_TYPE_SHORT | MYSQL_TYPE_INT24 | MYSQL_TYPE_LONG | MYSQL_TYPE_LONGLONG
| MYSQL_TYPE_YEAR | MYSQL_TYPE_DATE | MYSQL_TYPE_NEWDATE | MYSQL_TYPE_DATETIME | MYSQL_TYPE_DATETIME2
| MYSQL_TYPE_TIMESTAMP | MYSQL_TYPE_TIMESTAMP2 | MYSQL_TYPE_TIME2 | MYSQL_TYPE_STRING
| MYSQL_TYPE_VARCHAR | MYSQL_TYPE_FLOAT | MYSQL_TYPE_DOUBLE | MYSQL_TYPE_OTHER.

#[export] Instance field_type_eq_dec : EqDecision field_type.
Proof. solve_decision. Defined.

Inductive charset := my_charset_bin | my_charset_latin1 | my_charset_other.
#[export] Instance charset_eq_dec : EqDecision charset.
Proof. solve_decision. Defined.

Record Field := mk_field {
  real_type : field_type;
  is_nullable : bool;
  is_unsigned : bool;
  field_charset : charset;
  field_length : Z;
  pack_length : nat
}.

Record KEY_PART_INFO := mk_part { fieldnr : nat; kp_field : Field; kp_length : Z }.

Record KEY := mk_key { key_part : list KEY_PART_INFO; is_rtree : bool }.

(** The stored bytes of each field, by number; [None] is NULL. *)
Definition record := nat -> option bytes.

Definition SORT_KEY_NULL : Z := 0.
Definition SORT_KEY_NOT_NULL : Z := 1.
Definition SPATIAL_HILBERT_KEY_LEN : Z := 8.

(** ** Buffer writes *)

Definition put (out : bytes) (pos : Z) (data : bytes) : option bytes :=
  if (0 <=? pos) && (pos + Z.of_nat (length data) <=? Z.of_nat (length out))
  then Some (memcpy_at out (Z.to_nat pos) data) else None.

Definition bzero (out : bytes) (pos n : Z) : option bytes :=
  if (0 <=? pos) && (0 <=? n) && (pos + n <=? Z.of_nat (length out))
  then Some (memcpy_at out (Z.to_nat pos) (replicate (Z.to_nat n) 0)) else None.

Section Keys.

(** [Field::make_sort_key(to, length)]: the bytes it writes for a stored value. *)
Variable make_sort_key : Field -> bytes -> Z -> bytes.

Definition is_varbinary (f : Field) : bool :=
  bool_decide (real_type f = MYSQL_TYPE_VARCHAR) && bool_decide (field_charset f = my_charset_bin).

(** Lines 4021-4056. *)
Definition put_varbinary (kp : KEY_PART_INFO) (data : bytes) (out : bytes) (pos : Z)
    : option (bytes * Z) :=
  let data_len := Z.of_nat (length data) in
  let len_bytes := if field_length (kp_field kp) <? 256 then 1 else 2 in
  let data_space := u32 (kp_length kp - len_bytes) in
  let copy_len := Z.min data_len data_space in
  out ← put out pos (take (Z.to_nat copy_len) data);
  out ← (if copy_len <? data_space then bzero out (pos + copy_len) (data_space - copy_len)
         else Some out);
  let pos := pos + data_space in
  if data_space <? data_len then
    let overflow := Z.min (data_len - data_space) len_bytes in
    out ← put out pos (take (Z.to_nat overflow) (drop (Z.to_nat data_space) data));
    Some (out, pos + len_bytes)
  else
    out ← (if len_bytes =? 1 then put out pos [u8 data_len]
           else put out pos [u8 (data_len .>> 8); u8 data_len]);
    Some (out, pos + len_bytes).

(** One iteration of the loop of lines 3991-4065. *)
Definition put_part (kp : KEY_PART_INFO) (v : option bytes) (out : bytes) (pos : Z)
    : option (bytes * Z) :=
  let field := kp_field kp in
  match v with
  | None =>
    if is_nullable field then
      out ← put out pos [SORT_KEY_NULL];
      out ← bzero out (pos + 1) (kp_length kp);
      Some (out, pos + 1 + kp_length kp)
    else None
  | Some data =>
    '(out, pos) ← (if is_nullable field
                   then out ← put out pos [SORT_KEY_NOT_NULL]; Some (out, pos + 1)
                   else Some (out, pos));
    if is_varbinary field then put_varbinary kp data out pos
    else
      out ← bzero out pos (kp_length kp);
      out ← put out pos (make_sort_key field data (kp_length kp));
      Some (out, pos + kp_length kp)
  end.

Fixpoint put_parts (kps : list KEY_PART_INFO) (rec : record) (out : bytes) (pos : Z)
    : option (bytes * Z) :=
  match kps with
  | [] => Some (out, pos)
  | kp :: rest => '(out, pos) ← put_part kp (rec (fieldnr kp)) out pos; put_parts rest rec out pos
  end.

(** Writes at [out + pos]; the result is the buffer and the end of the key. *)
Definition make_comparable_key (ki : KEY) (rec : record) (num_parts : nat) (out : bytes) (pos : Z)
    : option (bytes * Z) :=
  put_parts (take num_parts (key_part ki)) rec out pos.

(** Lines 4136-4149. *)
Definition comparable_key_length (ki : KEY) : Z :=
  if is_rtree ki then SPATIAL_HILBERT_KEY_LEN
  else foldl (fun len kp => u32 (len + Z.b2z (is_nullable (kp_field kp)) + kp_length kp)) 0 (key_part ki).

(** Lines 4111-4125: a user primary key, or the hidden key of the current row. *)
Definition pk_from_record (pk : option KEY) (current_pk : bytes) (rec : record) (out : bytes) (pos : Z)
    : option (bytes * Z) :=
  match pk with
  | Some ki => make_comparable_key ki rec (length (key_part ki)) out pos
  | None => out ← put out pos current_pk; Some (out, pos + Z.of_nat (length current_pk))
  end.

(** Lines 4190-4197. *)
Definition sec_idx_key (ki : KEY) (pk : option KEY) (current_pk : bytes) (rec : record) (out : bytes)
    : option (bytes * Z) :=
  '(out, pos) ← make_comparable_key ki rec (length (key_part ki)) out 0;
  pk_from_record pk current_pk rec out pos.

(** ** What the loop writes *)

Definition be_len (len_bytes n : Z) : bytes :=
  if len_bytes =? 1 then [u8 n] else [u8 (n .>> 8); u8 n].

Definition len_bytes_of (f : Field) : Z := if field_length f <? 256 then 1 else 2.

Definition part_body (kp : KEY_PART_INFO) (data : bytes) : bytes :=
  if is_varbinary (kp_field kp) then
    let lb := len_bytes_of (kp_field kp) in
    data ++ replicate (Z.to_nat (kp_length kp - lb) - length data) 0 ++ be_len lb (Z.of_nat (length data))
  else make_sort_key (kp_field kp) data (kp_length kp).

Definition part_bytes (kp : KEY_PART_INFO) (v : option bytes) : bytes :=
  match v with
  | None => SORT_KEY_NULL :: replicate (Z.to_nat (kp_length kp)) 0
  | Some data => (if is_nullable (kp_field kp) then [SORT_KEY_NOT_NULL] else []) ++ part_body kp data
  end.

Fixpoint key_bytes (kps : list KEY_PART_INFO) (rec : record) : bytes :=
  match kps with
  | [] => []
  | kp :: rest => part_bytes kp (rec (fieldnr kp)) ++ key_bytes rest rec
  end.

(** The server's contract: [make_sort_key] fills the length it is given. *)
Definition sort_key_length : Prop :=
  forall f data n, 0 <= n -> Z.of_nat (length (make_sort_key f data n)) = n.

(** A key part with a value the loop encodes in full: NULL only where allowed,
    and a VARBINARY value that leaves room for its length. *)
Definition part_ok (kp : KEY_PART_INFO) (v : option bytes) : Prop :=
  0 <= kp_length kp < 2 ^ 32 /\
  match v with
  | None => is_nullable (kp_field kp) = true
  | Some data => is_varbinary (kp_field kp) = true ->
      Z.of_nat (length data) + len_bytes_of (kp_field kp) <= kp_length kp
  end.

Definition rec_ok (kps : list KEY_PART_INFO) (rec : record) : Prop :=
  Forall (fun kp => part_ok kp (rec (fieldnr kp))) kps.

Definition part_width (kp : KEY_PART_INFO) : nat :=
  (if is_nullable (kp_field kp) then 1 else 0) + Z.to_nat (kp_length kp).

Lemma be_len_length lb n : 1 <= lb <= 2 -> Z.of_nat (length (be_len lb n)) = lb.
Proof. intros H. unfold be_len. destruct (Z.eqb_spec lb 1) as [->|]; cbn; lia. Qed.

Lemma len_bytes_range f : 1 <= len_bytes_of f <= 2.
Proof. unfold len_bytes_of. case_match; lia. Qed.

Lemma part_body_length kp data :
  sort_key_length -> part_ok kp (Some data) -> length (part_body kp data) = Z.to_nat (kp_length kp).
Proof.
  intros Hsk [Hl Hv]. unfold part_body. pose proof (len_bytes_range (kp_field kp)).
  destruct (is_varbinary (kp_field kp)) eqn:Ev.
  - specialize (Hv eq_refl). rewrite !length_app, length_replicate.
    pose proof (be_len_length (len_bytes_of (kp_field kp)) (Z.of_nat (length data))). lia.
  - pose proof (Hsk (kp_field kp) data (kp_length kp)). lia.
Qed.

Lemma part_bytes_length kp v :
  sort_key_length -> part_ok kp v -> length (part_bytes kp v) = part_width kp.
Proof.
  intros Hsk Hok. unfold part_bytes, part_width. destruct v as [data|].
  - rewrite length_app, part_body_length by done. by destruct (is_nullable _).
  - destruct Hok as [Hl ->]. cbn. by rewrite length_replicate.
Qed.

Lemma put_in out (pos : nat) data :
  (pos + length data <= length out)%nat -> put out (Z.of_nat pos) data = Some (memcpy_at out pos data).
Proof.
  intros H. unfold put. rewrite (proj2 (Z.leb_le _ _)), (proj2 (Z.leb_le _ _)) by lia. cbn [andb].
  by rewrite Nat2Z.id.
Qed.

Lemma bzero_in out (pos : nat) n :
  0 <= n -> Z.of_nat pos + n <= Z.of_nat (length out) ->
  bzero out (Z.of_nat pos) n = Some (memcpy_at out pos (replicate (Z.to_nat n) 0)).
Proof.
  intros Hn H. unfold bzero. rewrite !(proj2 (Z.leb_le _ _)) by lia. cbn [andb]. by rewrite Nat2Z.id.
Qed.

Lemma memcpy_at_overwrite out pos a b :
  length a = length b -> (pos + length a <= length out)%nat ->
  memcpy_at (memcpy_at out pos a) pos b = memcpy_at out pos b.
Proof.
  intros Hl Hp. unfold memcpy_at at 1 3. f_equal; [|f_equal].
  - unfold memcpy_at. by rewrite take_app_exact by (rewrite length_take; lia).
  - rewrite <- Hl. unfold memcpy_at. rewrite app_assoc, drop_app_exact; [done|].
    rewrite length_app, length_take. lia.
Qed.

(** The writes of a VARBINARY value that fits. *)
Lemma put_varbinary_spec kp data out (pos : nat) :
  is_varbinary (kp_field kp) = true -> part_ok kp (Some data) ->
  Z.of_nat pos + kp_length kp <= Z.of_nat (length out) ->
  put_varbinary kp data out (Z.of_nat pos) =
    Some (memcpy_at out pos (part_body kp data), Z.of_nat pos + kp_length kp).
Proof.
  intros Hvb [Hl Hfit] Hroom. specialize (Hfit Hvb). unfold put_varbinary, part_body. rewrite Hvb.
  fold (len_bytes_of (kp_field kp)). set (lb := len_bytes_of (kp_field kp)) in *.
  pose proof (len_bytes_range (kp_field kp)) as Hlb. fold lb in Hlb.
  assert (Hds : u32 (kp_length kp - lb) = kp_length kp - lb) by (unfold u32; rewrite Z.mod_small; lia).
  cbv zeta. rewrite Hds, (Z.min_l (Z.of_nat (length data)) (kp_length kp - lb)) by lia. rewrite Nat2Z.id, (take_ge data) by lia.
  set (n := length data). set (pad := (Z.to_nat (kp_length kp - lb) - n)%nat).
  rewrite put_in by lia. cbn [mbind option_bind]. fold n.
  replace (Z.of_nat pos + Z.of_nat n) with (Z.of_nat (pos + n)) by lia.
  assert (Hz : (if Z.of_nat n <? kp_length kp - lb
                then bzero (memcpy_at out pos data) (Z.of_nat (pos + n)) (kp_length kp - lb - Z.of_nat n)
                else Some (memcpy_at out pos data)) =
               Some (memcpy_at out pos (data ++ replicate pad 0))).
  { destruct (Z.ltb_spec (Z.of_nat n) (kp_length kp - lb)).
    - rewrite bzero_in by (rewrite ?memcpy_at_length; lia).
      replace (Z.to_nat (kp_length kp - lb - Z.of_nat n)) with pad by lia.
      rewrite memcpy_at_memcpy_at; [done|]. rewrite length_replicate. lia.
    - replace pad with 0%nat by lia. by rewrite app_nil_r. }
  rewrite Hz. cbn [mbind option_bind]. rewrite (proj2 (Z.ltb_ge _ _)) by lia.
  replace (Z.of_nat pos + (kp_length kp - lb)) with (Z.of_nat (pos + length (data ++ replicate pad 0)))
    by (rewrite length_app, length_replicate; lia).
  assert (Hlen : forall d, Z.of_nat (length d) = lb ->
    put (memcpy_at out pos (data ++ replicate pad 0)) (Z.of_nat (pos + length (data ++ replicate pad 0))) d =
    Some (memcpy_at out pos (data ++ replicate pad 0 ++ d))).
  { intros d Hd. rewrite put_in.
    - rewrite memcpy_at_memcpy_at, <- app_assoc; [done|]. rewrite length_app, length_replicate. lia.
    - rewrite memcpy_at_length; rewrite !length_app, length_replicate; lia. }
  unfold be_len. destruct (Z.eqb_spec lb 1); (rewrite Hlen by (cbn; lia)); cbn [mbind option_bind];
    f_equal; f_equal; rewrite length_app, length_replicate; lia.
Qed.

Lemma put_part_spec kp v out (pos : nat) :
  sort_key_length -> part_ok kp v -> (pos + part_width kp <= length out)%nat ->
  put_part kp v out (Z.of_nat pos) =
    Some (memcpy_at out pos (part_bytes kp v), Z.of_nat (pos + part_width kp)).
Proof.
  intros Hsk Hok Hroom. unfold part_width in Hroom. pose proof Hok as [Hl _].
  unfold put_part. destruct v as [data|].
  - destruct (is_nullable (kp_field kp)) eqn:Hn.
    + rewrite put_in by (cbn; lia). cbn [mbind option_bind].
      replace (Z.of_nat pos + 1) with (Z.of_nat (pos + 1)) by lia.
      assert (Hpb : part_bytes kp (Some data) = [SORT_KEY_NOT_NULL] ++ part_body kp data)
        by (unfold part_bytes; by rewrite Hn).
      assert (Hfin : memcpy_at (memcpy_at out pos [SORT_KEY_NOT_NULL]) (pos + 1) (part_body kp data) =
                     memcpy_at out pos (part_bytes kp (Some data))).
      { rewrite Hpb. apply (memcpy_at_memcpy_at out pos [SORT_KEY_NOT_NULL]).
        rewrite (part_body_length _ _ Hsk Hok). cbn. lia. }
      destruct (is_varbinary (kp_field kp)) eqn:Hv.
      * rewrite put_varbinary_spec by (try done; rewrite memcpy_at_length; cbn; lia).
        rewrite Hfin. do 2 f_equal. unfold part_width. rewrite Hn. lia.
      * pose proof (part_body_length _ _ Hsk Hok) as Hbl. unfold part_body in Hbl, Hfin. rewrite Hv in Hbl, Hfin.
        rewrite bzero_in by (rewrite ?memcpy_at_length; cbn; lia). cbn [mbind option_bind].
        rewrite put_in by (rewrite !memcpy_at_length; rewrite ?memcpy_at_length, ?length_replicate; cbn; lia).
        cbn [mbind option_bind]. rewrite memcpy_at_overwrite, Hfin;
          [|rewrite length_replicate; lia|rewrite memcpy_at_length, length_replicate; cbn; lia].
        do 2 f_equal. unfold part_width. rewrite Hn. lia.
    + cbn [mbind option_bind]. assert (Hpb : part_bytes kp (Some data) = part_body kp data)
        by (unfold part_bytes; by rewrite Hn). rewrite Hpb.
      destruct (is_varbinary (kp_field kp)) eqn:Hv.
      * rewrite put_varbinary_spec by (done || lia). do 2 f_equal. unfold part_width. rewrite Hn. lia.
      * pose proof (part_body_length _ _ Hsk Hok) as Hbl. unfold part_body in Hbl |- *. rewrite Hv in *.
        rewrite bzero_in by lia. cbn [mbind option_bind].
        rewrite put_in by (rewrite memcpy_at_length; rewrite ?length_replicate; lia). cbn [mbind option_bind].
        rewrite memcpy_at_overwrite by (rewrite length_replicate; lia).
        do 2 f_equal. unfold part_width. rewrite Hn. lia.
  - destruct Hok as [_ Hn]. rewrite Hn. rewrite put_in by (rewrite Hn in Hroom; cbn; lia).
    cbn [mbind option_bind]. replace (Z.of_nat pos + 1) with (Z.of_nat (pos + 1)) by lia.
    rewrite Hn in Hroom. rewrite bzero_in by (rewrite ?memcpy_at_length; cbn; lia). cbn [mbind option_bind].
    rewrite (memcpy_at_memcpy_at out pos [SORT_KEY_NULL]) by (rewrite length_replicate; cbn; lia).
    do 2 f_equal. unfold part_width. rewrite Hn. lia.
Qed.

Fixpoint keys_width (kps : list KEY_PART_INFO) : nat :=
  match kps with [] => 0 | kp :: rest => part_width kp + keys_width rest end.

Lemma key_bytes_length kps rec :
  sort_key_length -> rec_ok kps rec -> length (key_bytes kps rec) = keys_width kps.
Proof.
  intros Hsk. induction kps as [|kp kps IH]; intros Hok; [done|].
  apply List.Forall_cons_iff in Hok as [H1 H2]. cbn. rewrite length_app, IH by done.
  by rewrite part_bytes_length.
Qed.

Lemma put_parts_spec kps rec out (pos : nat) :
  sort_key_length -> rec_ok kps rec -> (pos + keys_width kps <= length out)%nat ->
  put_parts kps rec out (Z.of_nat pos) =
    Some (memcpy_at out pos (key_bytes kps rec), Z.of_nat (pos + keys_width kps)).
Proof.
  intros Hsk. revert out pos. induction kps as [|kp kps IH]; intros out pos Hok Hroom; cbn.
  { unfold memcpy_at. cbn. by rewrite !Nat.add_0_r, take_drop. }
  apply List.Forall_cons_iff in Hok as [H1 H2]. cbn in Hroom.
  rewrite put_part_spec by (done || lia). cbn.
  pose proof (part_bytes_length _ _ Hsk H1) as Hpl.
  rewrite IH by (try done; rewrite memcpy_at_length; lia).
  rewrite <- Hpl at 1. rewrite memcpy_at_memcpy_at; [|rewrite key_bytes_length by done; lia].
  do 2 f_equal. lia.
Qed.

(** ** Order *)

(** Zero padding followed by the length compares like the unpadded bytes. *)
Lemma pad_compare n a b :
  bytes_ok a -> bytes_ok b -> (length a <= n)%nat -> (length b <= n)%nat ->
  match bytes_compare (a ++ replicate (n - length a) 0) (b ++ replicate (n - length b) 0) with
  | Eq => Z.compare (Z.of_nat (length a)) (Z.of_nat (length b))
  | c => c
  end = bytes_compare a b.
Proof.
  revert a b. induction n as [|n IH]; intros a b Ha Hb Hla Hlb.
  { destruct a, b; cbn in *; lia || done. }
  destruct a as [|x a], b as [|y b]; cbn [length] in *.
  - cbn. rewrite Z.compare_refl. assert (E := bytes_compare_eq (replicate n 0) (replicate n 0)).
    by rewrite (proj2 E).
  - specialize (IH [] b Ha). apply List.Forall_cons_iff in Hb as [Hy Hb]. unfold fits_u8 in Hy.
    specialize (IH Hb ltac:(cbn; lia) ltac:(lia)). cbn [length app] in IH.
    rewrite Nat.sub_0_r in IH. rewrite Nat.sub_0_r. cbn [replicate app bytes_compare].
    destruct (Z.compare_spec 0 y) as [E|E|E]; [|done|lia].
    replace (S n - S (length b))%nat with (n - length b)%nat by lia.
    destruct (bytes_compare (replicate n 0) _) eqn:Ec; [|done|].
    + rewrite (proj2 (Z.compare_lt_iff _ _)) by lia. done.
    + destruct b; cbn in IH; done.
  - specialize (IH a []). apply List.Forall_cons_iff in Ha as [Hx Ha]. unfold fits_u8 in Hx.
    specialize (IH Ha Hb ltac:(lia) ltac:(cbn; lia)). cbn [length app] in IH.
    rewrite Nat.sub_0_r in IH. rewrite Nat.sub_0_r. cbn [replicate app bytes_compare].
    destruct (Z.compare_spec x 0) as [E|E|E]; [|lia|done].
    replace (S n - S (length a))%nat with (n - length a)%nat by lia.
    destruct (bytes_compare _ (replicate n 0)) eqn:Ec; [|destruct a; cbn in IH; done|done].
    rewrite (proj2 (Z.compare_gt_iff _ _)) by lia. done.
  - apply List.Forall_cons_iff in Ha as [Hx Ha], Hb as [Hy Hb].
    specialize (IH a b Ha Hb ltac:(lia) ltac:(lia)). cbn [app bytes_compare].
    replace (S n - S (length a))%nat with (n - length a)%nat by lia.
    replace (S n - S (length b))%nat with (n - length b)%nat by lia.
    destruct (Z.compare x y); [|done|done]. rewrite <- IH.
    destruct (bytes_compare (a ++ _) _); [|done|done].
    rewrite !Nat2Z.inj_succ. destruct (Z.compare_spec (Z.of_nat (length a)) (Z.of_nat (length b)));
      [apply Z.compare_eq_iff|apply Z.compare_lt_iff|apply Z.compare_gt_iff]; lia.
Qed.

Lemma be_len_split lb n : 1 <= lb <= 2 -> be_len lb n = be_split (Z.to_nat lb) n.
Proof.
  intros H. assert (lb = 1 \/ lb = 2) as [->| ->] by lia; reflexivity.
Qed.

Lemma be_len_compare lb n m :
  1 <= lb <= 2 -> 0 <= n < 256 ^ lb -> 0 <= m < 256 ^ lb ->
  bytes_compare (be_len lb n) (be_len lb m) = Z.compare n m.
Proof.
  intros H Hn Hm. rewrite !be_len_split by done.
  assert (E : 2 ^ (8 * Z.of_nat (Z.to_nat lb)) = 256 ^ lb)
    by (assert (lb = 1 \/ lb = 2) as [->| ->] by lia; reflexivity).
  apply be_split_compare; by rewrite E.
Qed.

(** The server's contract for a field: [Field::sort_length] bytes of sort key compare like the
    stored values of the field. *)
Variable field_cmp : Field -> bytes -> bytes -> comparison.
Variable sort_length : Field -> Z.
Definition sort_key_order (f : Field) : Prop :=
  forall a b, length a = pack_length f -> length b = pack_length f -> bytes_ok a -> bytes_ok b ->
  bytes_compare (make_sort_key f a (sort_length f)) (make_sort_key f b (sort_length f)) = field_cmp f a b.

Definition cmp_value (f : Field) (a b : bytes) : comparison :=
  if is_varbinary f then bytes_compare a b else field_cmp f a b.

(** NULL sorts first. *)
Definition cmp_part (f : Field) (v w : option bytes) : comparison :=
  match v, w with
  | None, None => Eq
  | None, Some _ => Lt
  | Some _, None => Gt
  | Some a, Some b => cmp_value f a b
  end.

Fixpoint cmp_records (kps : list KEY_PART_INFO) (r1 r2 : record) : comparison :=
  match kps with
  | [] => Eq
  | kp :: rest =>
    match cmp_part (kp_field kp) (r1 (fieldnr kp)) (r2 (fieldnr kp)) with
    | Eq => cmp_records rest r1 r2
    | c => c
    end
  end.

(** The part keeps the whole value: VARBINARY lengths fit their length bytes, other fields have
    the room that their sort key needs and obey the contract. *)
Definition value_ok (kp : KEY_PART_INFO) (v : option bytes) : Prop :=
  part_ok kp v /\
  match v with
  | Some data => bytes_ok data /\
      if is_varbinary (kp_field kp) then kp_length kp < 256 ^ len_bytes_of (kp_field kp)
      else length data = pack_length (kp_field kp) /\ kp_length kp = sort_length (kp_field kp) /\ sort_key_order (kp_field kp)
  | None => True
  end.

Lemma part_body_compare kp a b :
  value_ok kp (Some a) -> value_ok kp (Some b) ->
  bytes_compare (part_body kp a) (part_body kp b) = cmp_value (kp_field kp) a b.
Proof.
  intros [[Hl Ha] [Hoa Hka]] [[_ Hb] [Hob Hkb]]. unfold part_body, cmp_value.
  destruct (is_varbinary (kp_field kp)); [|destruct Hka as (La & -> & Hso), Hkb as (Lb & _ & _); by apply Hso].
  specialize (Ha eq_refl). specialize (Hb eq_refl). pose proof (len_bytes_range (kp_field kp)).
  set (lb := len_bytes_of (kp_field kp)) in *. rewrite !app_assoc.
  rewrite bytes_compare_blocks by (rewrite !length_app, !length_replicate; lia).
  rewrite <- (pad_compare (Z.to_nat (kp_length kp - lb)) a b) by (done || lia).
  destruct (bytes_compare _ _); [|done|done]. apply be_len_compare; lia.
Qed.

Lemma part_bytes_compare kp v w :
  value_ok kp v -> value_ok kp w ->
  bytes_compare (part_bytes kp v) (part_bytes kp w) = cmp_part (kp_field kp) v w.
Proof.
  intros Hv Hw. unfold part_bytes, cmp_part. destruct v as [a|], w as [b|].
  - rewrite bytes_compare_app. by apply part_body_compare.
  - destruct Hw as [[_ Hn] _]. rewrite Hn. done.
  - destruct Hv as [[_ Hn] _]. rewrite Hn. done.
  - by apply bytes_compare_eq.
Qed.

Lemma key_bytes_compare kps r1 r2 :
  sort_key_length ->
  Forall (fun kp => value_ok kp (r1 (fieldnr kp)) /\ value_ok kp (r2 (fieldnr kp))) kps ->
  bytes_compare (key_bytes kps r1) (key_bytes kps r2) = cmp_records kps r1 r2.
Proof.
  intros Hsk. induction kps as [|kp kps IH]; intros Hall; [done|].
  apply List.Forall_cons_iff in Hall as [[H1 H2] Hall]. cbn.
  rewrite bytes_compare_blocks.
  - rewrite part_bytes_compare by done. case_match; [by apply IH|done|done].
  - rewrite !part_bytes_length; [done|done|apply H2|done|apply H1].
Qed.

(** ** Reading a key back (lines 4310-4395) *)

Definition INT_SORT_SIGN_FLIP_MASK : Z := 128.
Definition DATE_PACK_LEN : nat := 3.
Definition DATETIME_MAX_PACK_LEN : nat := 8.

(** Flip the sign bit of the last byte, the most significant one of a
    little-endian integer. *)
Definition flip_last (l : bytes) : bytes :=
  match rev l with [] => [] | c :: r => rev ((c .^ INT_SORT_SIGN_FLIP_MASK) :: r) end.

(** The bytes stored at [to]; [None] is [return false]. *)
Definition decode_int_sort_key (src : bytes) (sort_len : nat) (is_signed : bool) : option bytes :=
  if Nat.eqb sort_len 0 || (Nat.ltb 4 sort_len && negb (Nat.eqb sort_len 8)) then None
  else let to := rev (take sort_len src) in Some (if is_signed then flip_last to else to).

Definition decode_sort_key_part (src : bytes) (sort_len : nat) (f : Field) : option bytes :=
  match real_type f with
  | MYSQL_TYPE_TINY | MYSQL_TYPE_SHORT | MYSQL_TYPE_INT24 | MYSQL_TYPE_LONG | MYSQL_TYPE_LONGLONG =>
      decode_int_sort_key src sort_len (negb (is_unsigned f))
  | MYSQL_TYPE_YEAR => Some (take 1 src)
  | MYSQL_TYPE_DATE | MYSQL_TYPE_NEWDATE =>
      if Nat.eqb sort_len DATE_PACK_LEN then Some (rev (take sort_len src)) else None
  | MYSQL_TYPE_DATETIME | MYSQL_TYPE_DATETIME2 | MYSQL_TYPE_TIMESTAMP | MYSQL_TYPE_TIMESTAMP2 =>
      if Nat.leb sort_len DATETIME_MAX_PACK_LEN then Some (rev (take sort_len src)) else None
  | MYSQL_TYPE_STRING =>
      if bool_decide (field_charset f = my_charset_bin) || bool_decide (field_charset f = my_charset_latin1)
      then let flen := pack_length f in
           let copy_len := if Nat.ltb sort_len flen then sort_len else flen in
           Some (take copy_len src ++ replicate (flen - copy_len) 32)
      else None
  | _ => None
  end.

Definition set_field (i : nat) (v : option bytes) (rec : record) : record :=
  fun j => if Nat.eqb j i then v else rec j.

(** The loop of lines 4238-4259 (and 4264-4285, 4431-4458, 4466-4492): a NULL
    advances by its indicator byte only. *)
Fixpoint decode_parts (kps : list KEY_PART_INFO) (read_set : nat -> bool) (ik : bytes) (pos : nat)
    (rec : record) : option record :=
  match kps with
  | [] => Some rec
  | kp :: rest =>
    let f := kp_field kp in
    let body pos rec :=
      if Nat.ltb (length ik) (pos + Z.to_nat (kp_length kp)) then None
      else
        rec ← (if read_set (fieldnr kp)
               then d ← decode_sort_key_part (drop pos ik) (Z.to_nat (kp_length kp)) f;
                    Some (set_field (fieldnr kp) (Some d) rec)
               else Some rec);
        decode_parts rest read_set ik (pos + Z.to_nat (kp_length kp)) rec in
    if is_nullable f then
      if Nat.leb (length ik) pos then None
      else if nth pos ik 0 =? 0
           then decode_parts rest read_set ik (pos + 1) (set_field (fieldnr kp) None rec)
           else body (pos + 1)%nat rec
    else body pos rec
  end.

(** Lines 4211-4292: the record, and the primary key kept for [position]. [cover]
    is the share's coverage bitmap for the index. *)
Definition try_keyread_from_index (pk : option KEY) (idx : KEY) (cover : nat -> bool)
    (read_cols : list nat) (ik : bytes) (rec : record) : option (record * bytes) :=
  match pk with
  | None => None
  | Some pk_key =>
    if forallb cover read_cols then
      let read_set c := bool_decide (c ∈ read_cols) in
      let idx_col_len := Z.to_nat (comparable_key_length idx) in
      rec ← decode_parts (key_part idx) read_set ik 0 rec;
      rec ← decode_parts (key_part pk_key) read_set ik idx_col_len rec;
      Some (rec, drop idx_col_len ik)
    else None
  end.

(** ** Index condition pushdown (lines 4418-4540) *)

Inductive check_result_t := CHECK_NEG | CHECK_POS | CHECK_OUT_OF_RANGE.

Record icp_env := mk_icp {
  pushed_for : option nat;               (* the key number the condition was pushed for *)
  val_bool : record -> bool;             (* the pushed condition *)
  past_end : record -> bool;             (* end_range set and compare_key_icp > 0 *)
  icp_killed : bool;
  icp_fetch : bytes -> option record     (* fetch_row_by_pk *)
}.

(** The record the condition is evaluated on: decoded, or fetched. *)
Definition icp_check_secondary (env : icp_env) (pk : option KEY) (idxno : nat) (idx : KEY)
    (ik : bytes) (rec : record) : check_result_t :=
  if bool_decide (pushed_for env = Some idxno) then
    let idx_col_len := Z.to_nat (comparable_key_length idx) in
    let everything := fun _ : nat => true in
    let decoded :=
      rec ← decode_parts (key_part idx) everything ik 0 rec;
      match pk with
      | Some pk_key => decode_parts (key_part pk_key) everything ik idx_col_len rec
      | None => Some rec
      end in
    let evaluate rec :=
      if icp_killed env then CHECK_NEG
      else if past_end env rec then CHECK_OUT_OF_RANGE
      else if val_bool env rec then CHECK_POS else CHECK_NEG in
    match decoded with
    | Some rec => evaluate rec
    | None =>
      if Nat.ltb idx_col_len (length ik) then
        match icp_fetch env (drop idx_col_len ik) with
        | Some rec => evaluate rec
        | None => CHECK_POS
        end
      else CHECK_POS
    end
  else CHECK_POS.

End Keys.

(** ** Lemmas *)

Lemma encode_be64_split id : encode_be64 id = be_split 8 id.
Proof. reflexivity. Qed.

Lemma decode_be64_combine bs : bytes_ok bs -> length bs = 8%nat -> decode_be64 bs = be_combine bs.
Proof.
  intros Hok Hl. do 8 (destruct bs as [|? bs]; [done|]). destruct bs; [|done].
  unfold decode_be64. cbn [seq foldl nth].
  unfold bytes_ok in Hok. repeat (apply List.Forall_cons_iff in Hok as [? Hok]).
  unfold fits_u8 in *.
  unfold be_combine. cbn [fold_left]. change (2 ^ 8) with 256 in *.
  assert (step : forall a b, 0 <= a < 72057594037927936 -> 0 <= b < 256 -> u64 ((a .<< 8) .| b) = a * 256 + b).
  { intros a b Ha Hb. rewrite lor_shiftl_add by (change (2 ^ 8) with 256; lia).
    change (2 ^ 8) with 256. apply u64_id. unfold fits_u64. lia. }
  do 8 (match goal with |- context [u64 ((?a .<< 8) .| ?b)] =>
          lazymatch a with context [u64 _] => fail | _ => rewrite (step a b) by lia end end).
  lia.
Qed.

Lemma comparable_length_fold kps acc :
  0 <= acc -> Forall (fun kp => 0 <= kp_length kp) kps -> acc + Z.of_nat (keys_width kps) < 2 ^ 32 ->
  foldl (fun len kp => u32 (len + Z.b2z (is_nullable (kp_field kp)) + kp_length kp)) acc kps =
    acc + Z.of_nat (keys_width kps).
Proof.
  revert acc. induction kps as [|kp kps IH]; intros acc Ha Hall Hb; cbn in *; [lia|].
  apply List.Forall_cons_iff in Hall as [Hk Hall]. unfold part_width in *.
  assert (Hu : u32 (acc + Z.b2z (is_nullable (kp_field kp)) + kp_length kp) =
               acc + Z.b2z (is_nullable (kp_field kp)) + kp_length kp).
  { unfold u32. apply Z.mod_small. destruct (is_nullable _); cbn in *; lia. }
  rewrite Hu, IH; destruct (is_nullable _); cbn in *; try done; lia.
Qed.

(** ** Round trip of covering reads *)

Definition is_int (f : Field) : bool :=
  match real_type f with
  | MYSQL_TYPE_TINY | MYSQL_TYPE_SHORT | MYSQL_TYPE_INT24 | MYSQL_TYPE_LONG | MYSQL_TYPE_LONGLONG => true
  | _ => false
  end.

(** The server's integer sort key: big-endian, sign bit flipped when signed. *)
Definition int_sort_key (f : Field) (stored : bytes) : bytes :=
  rev (if is_unsigned f then stored else flip_last stored).

Definition int_width (n : nat) : Prop := n = 1%nat \/ n = 2%nat \/ n = 3%nat \/ n = 4%nat \/ n = 8%nat.

Lemma flip_last_length l : length (flip_last l) = length l.
Proof.
  unfold flip_last. destruct (rev l) as [|c r] eqn:E.
  - apply (f_equal length) in E. rewrite length_rev in E. by rewrite E.
  - apply (f_equal length) in E. rewrite length_rev in *. cbn in *. lia.
Qed.

Lemma flip_last_twice l : bytes_ok l -> flip_last (flip_last l) = l.
Proof.
  intros Hok. unfold flip_last. destruct (rev l) as [|c r] eqn:E.
  - cbn. apply (f_equal (@rev Z)) in E. by rewrite rev_involutive in E.
  - rewrite rev_involutive. apply (f_equal (@rev Z)) in E. rewrite rev_involutive in E.
    rewrite E, Z.lxor_assoc, Z.lxor_nilpotent, Z.lxor_0_r. done.
Qed.

Lemma decode_int_roundtrip f stored rest :
  bytes_ok stored -> int_width (length stored) ->
  decode_int_sort_key (int_sort_key f stored ++ rest) (length stored) (negb (is_unsigned f)) = Some stored.
Proof.
  intros Hok Hw. unfold decode_int_sort_key.
  assert (Hc : Nat.eqb (length stored) 0 || (Nat.ltb 4 (length stored) && negb (Nat.eqb (length stored) 8)) = false)
    by (unfold int_width in Hw; destruct_or! Hw; rewrite Hw; reflexivity).
  rewrite Hc. f_equal. unfold int_sort_key. rewrite take_app_exact.
  - rewrite rev_involutive. destruct (is_unsigned f); cbn [negb]; [done|by apply flip_last_twice].
  - rewrite length_rev. destruct (is_unsigned f); [done|apply flip_last_length].
Qed.

(** Integer key parts whose values are present, with the server's sort key. *)
Definition int_parts (make_sort_key : Field -> bytes -> Z -> bytes) (kps : list KEY_PART_INFO) (rec : record)
    : Prop :=
  Forall (fun kp => is_int (kp_field kp) = true /\ exists d, rec (fieldnr kp) = Some d /\
    bytes_ok d /\ int_width (length d) /\ Z.of_nat (length d) = kp_length kp /\
    make_sort_key (kp_field kp) d (kp_length kp) = int_sort_key (kp_field kp) d) kps.

Lemma int_sort_key_length f d : length (int_sort_key f d) = length d.
Proof. unfold int_sort_key. rewrite length_rev. destruct (is_unsigned _); [done|apply flip_last_length]. Qed.

(** One more field read. *)
Lemma field_read (kp : KEY_PART_INFO) (kps : list KEY_PART_INFO) (rd : nat -> bool) d (rec rec0 rec' : nat -> option bytes) :
  rec (fieldnr kp) = Some d ->
  (forall i, rec' i = if rd i && bool_decide (i ∈ fieldnr <$> kps) then rec i
                      else (if rd (fieldnr kp) then set_field (fieldnr kp) (Some d) rec0 else rec0) i) ->
  forall i, rec' i = if rd i && bool_decide (i ∈ fieldnr <$> kp :: kps) then rec i else rec0 i.
Proof.
  intros Hd Hrec i. rewrite Hrec. cbn [fmap list_fmap]. destruct (rd i) eqn:Hr; cbn [andb].
  - destruct (decide (i ∈ fieldnr <$> kps)) as [Hin|Hin].
    { rewrite !bool_decide_true by (done || by constructor). done. }
    rewrite (bool_decide_false (i ∈ fieldnr <$> kps)) by done.
    destruct (decide (i = fieldnr kp)) as [->|Hne].
    + rewrite bool_decide_true, Hr by constructor. unfold set_field. by rewrite Nat.eqb_refl.
    + rewrite bool_decide_false by (rewrite elem_of_cons; tauto). destruct (rd (fieldnr kp)); [|done].
      unfold set_field. apply Nat.eqb_neq in Hne. by rewrite Hne.
  - destruct (rd (fieldnr kp)) eqn:Hr'; [|done]. unfold set_field.
    destruct (Nat.eqb_spec i (fieldnr kp)); [congruence|done].
Qed.

Lemma decode_parts_int make_sort_key kps rec pre suf (rd : nat -> bool) rec0 :
  int_parts make_sort_key kps rec ->
  exists rec', decode_parts kps rd (pre ++ key_bytes make_sort_key kps rec ++ suf) (length pre) rec0 = Some rec' /\
    forall i, rec' i = if rd i && bool_decide (i ∈ fieldnr <$> kps) then rec i else rec0 i.
Proof.
  revert pre rec0. induction kps as [|kp kps IH]; intros pre rec0 Hall.
  { exists rec0. split; [done|]. intros i. cbn. rewrite bool_decide_false by apply not_elem_of_nil.
    by rewrite andb_false_r. }
  apply List.Forall_cons_iff in Hall as [(Hint & d & Hd & Hok & Hw & Hlen & Hsk) Hall].
  assert (Hvb : is_varbinary (kp_field kp) = false).
  { unfold is_varbinary, is_int in *. by destruct (real_type (kp_field kp)). }
  assert (Hdec : forall rest, decode_sort_key_part (int_sort_key (kp_field kp) d ++ rest) (length d) (kp_field kp) = Some d).
  { intros rest. unfold decode_sort_key_part, is_int in *.
    destruct (real_type (kp_field kp)); try done; by apply decode_int_roundtrip. }
  pose proof (int_sort_key_length (kp_field kp) d) as Hisl.
  assert (Hn : Z.to_nat (kp_length kp) = length d) by lia.
  set (flag := if is_nullable (kp_field kp) then [SORT_KEY_NOT_NULL] else []).
  assert (Hkey : pre ++ key_bytes make_sort_key (kp :: kps) rec ++ suf =
    (pre ++ flag) ++ int_sort_key (kp_field kp) d ++ key_bytes make_sort_key kps rec ++ suf).
  { cbn. rewrite Hd. cbn. unfold part_body. rewrite Hvb, Hsk. fold flag. by rewrite <- !app_assoc. }
  (* the body of the loop, at the position after the flag *)
  set (rec1 := if rd (fieldnr kp) then set_field (fieldnr kp) (Some d) rec0 else rec0).
  destruct (IH ((pre ++ flag) ++ int_sort_key (kp_field kp) d) rec1 Hall) as (rec' & Hrun & Hrec).
  rewrite <- (app_assoc (pre ++ flag)), (length_app (pre ++ flag)), Hisl in Hrun.
  assert (Hbody : forall ik, ik = (pre ++ flag) ++ int_sort_key (kp_field kp) d ++ key_bytes make_sort_key kps rec ++ suf ->
    (if Nat.ltb (length ik) (length (pre ++ flag) + Z.to_nat (kp_length kp)) then None
     else rec ← (if rd (fieldnr kp)
            then d ← decode_sort_key_part (drop (length (pre ++ flag)) ik) (Z.to_nat (kp_length kp)) (kp_field kp);
                 Some (set_field (fieldnr kp) (Some d) rec0)
            else Some rec0);
          decode_parts kps rd ik (length (pre ++ flag) + Z.to_nat (kp_length kp)) rec) = Some rec').
  { intros ik ->. rewrite Hn. rewrite (proj2 (Nat.ltb_ge _ _)) by (rewrite !length_app; lia).
    rewrite drop_app_length, Hdec. rewrite <- Hrun.
    unfold rec1. by destruct (rd (fieldnr kp)). }
  exists rec'. split.
  - cbn [decode_parts]. rewrite Hkey. unfold flag in *. destruct (is_nullable (kp_field kp)).
    + rewrite (proj2 (Nat.leb_gt _ _)) by (rewrite !length_app; cbn; lia).
      assert (Hnth : forall l, nth (length pre) ((pre ++ [SORT_KEY_NOT_NULL]) ++ l) 0 = SORT_KEY_NOT_NULL).
      { intros l. by rewrite <- app_assoc, app_nth2, Nat.sub_diag by lia. }
      rewrite Hnth. change (SORT_KEY_NOT_NULL =? 0) with false. cbv iota.
      rewrite <- (Hbody _ eq_refl). by rewrite (length_app pre [SORT_KEY_NOT_NULL]).
    + rewrite <- (Hbody _ eq_refl). rewrite app_nil_r. done.
  - by eapply (field_read kp).
Qed.

(** ** Properties *)

(** the 8-byte key of a hidden row id decodes to the id, and [memcmp] on two
    such keys orders them like the ids. *)
Theorem hidden_pk_order (a b : Z) (Ha : fits_u64 a) (Hb : fits_u64 b) :
  decode_be64 (encode_be64 a) = a /\
  bytes_compare (build_data_key (encode_be64 a)) (build_data_key (encode_be64 b)) = Z.compare a b.
Proof.
  split.
  - rewrite encode_be64_split, decode_be64_combine; [|apply be_split_ok|apply be_split_length].
    rewrite be_combine_split. apply Z.mod_small. exact Ha.
  - unfold build_data_key. rewrite !encode_be64_split.
    etransitivity; [apply (bytes_compare_app [KEY_NS_DATA])|]. by apply be_split_compare.
Qed.

(** given room, [make_comparable_key] writes exactly the concatenated part
    encodings, whatever the buffer held before, leaves the rest of the buffer
    alone and advances by [comparable_key_length]. *)
Theorem comparable_key_exact (make_sort_key : Field -> bytes -> Z -> bytes) (ki : KEY) (rec : record)
    (out : bytes) (pos : nat)
    (Hsk : sort_key_length make_sort_key) (Hok : rec_ok (key_part ki) rec) (Hr : is_rtree ki = false)
    (Hroom : (pos + keys_width (key_part ki) <= length out)%nat)
    (Hsmall : Z.of_nat (keys_width (key_part ki)) < 2 ^ 32) :
  make_comparable_key make_sort_key ki rec (length (key_part ki)) out (Z.of_nat pos) =
    Some (memcpy_at out pos (key_bytes make_sort_key (key_part ki) rec),
          Z.of_nat pos + comparable_key_length ki) /\
  Z.of_nat (length (key_bytes make_sort_key (key_part ki) rec)) = comparable_key_length ki.
Proof.
  assert (Hlen : comparable_key_length ki = Z.of_nat (keys_width (key_part ki))).
  { unfold comparable_key_length. rewrite Hr, comparable_length_fold; [lia|lia| |lia].
    eapply List.Forall_impl; [|exact Hok]. intros kp [? _]. lia. }
  rewrite Hlen. split; [|by rewrite key_bytes_length].
  unfold make_comparable_key. rewrite firstn_all, put_parts_spec by done. by rewrite Nat2Z.inj_add.
Qed.

(** The bytes that a call wrote from [pos] to [e]. *)
Definition written (o : bytes) (pos : nat) (e : Z) : bytes := take (Z.to_nat e - pos) (drop pos o).

Lemma written_memcpy out pos data :
  (pos + length data <= length out)%nat -> written (memcpy_at out pos data) pos (Z.of_nat (pos + length data)) = data.
Proof.
  intros Hl. unfold written, memcpy_at. rewrite Nat2Z.id, drop_app_length' by (rewrite length_take; lia).
  replace (pos + length data - pos)%nat with (length data) by lia. apply take_app_length.
Qed.

(** C19: the keys that [make_comparable_key] writes order the records.  For two records and the
    leading parts of a key, with room in the buffers, both calls succeed and end at the same
    place, and [memcmp] on what they wrote compares the records by these columns, left to right,
    NULL first, VARBINARY values bytewise with a proper prefix before its extensions, other
    columns as the server compares them; in particular the keys are equal exactly when no column
    differs.  The parts must hold the whole value: a VARBINARY value leaves room for its length
    bytes, and another column has a part of its sort length, where the server's sort keys follow
    its comparison. *)
Theorem comparable_key_order (make_sort_key : Field -> bytes -> Z -> bytes)
    (field_cmp : Field -> bytes -> bytes -> comparison) (sort_length : Field -> Z) (ki : KEY) (n : nat) (r1 r2 : record)
    (out1 out2 : bytes) (pos : nat)
    (Hsk : sort_key_length make_sort_key)
    (Hall : Forall (fun kp => value_ok make_sort_key field_cmp sort_length kp (r1 (fieldnr kp)) /\
                              value_ok make_sort_key field_cmp sort_length kp (r2 (fieldnr kp))) (take n (key_part ki)))
    (Hroom1 : (pos + keys_width (take n (key_part ki)) <= length out1)%nat)
    (Hroom2 : (pos + keys_width (take n (key_part ki)) <= length out2)%nat) :
  exists o1 o2 e,
    make_comparable_key make_sort_key ki r1 n out1 (Z.of_nat pos) = Some (o1, e) /\
    make_comparable_key make_sort_key ki r2 n out2 (Z.of_nat pos) = Some (o2, e) /\
    bytes_compare (written o1 pos e) (written o2 pos e) = cmp_records field_cmp (take n (key_part ki)) r1 r2 /\
    (written o1 pos e = written o2 pos e <-> cmp_records field_cmp (take n (key_part ki)) r1 r2 = Eq).
Proof.
  set (kps := take n (key_part ki)) in *.
  assert (Hok : rec_ok kps r1 /\ rec_ok kps r2).
  { split; (eapply List.Forall_impl; [|exact Hall]); intros kp [[H1 _] [H2 _]]; done. }
  destruct Hok as [Hok1 Hok2]. pose proof (key_bytes_length make_sort_key kps r1 Hsk Hok1) as L1.
  pose proof (key_bytes_length make_sort_key kps r2 Hsk Hok2) as L2.
  exists (memcpy_at out1 pos (key_bytes make_sort_key kps r1)), (memcpy_at out2 pos (key_bytes make_sort_key kps r2)), (Z.of_nat (pos + keys_width kps)).
  split; [by apply put_parts_spec|]. split; [by apply put_parts_spec|].
  assert (W1 : written (memcpy_at out1 pos (key_bytes make_sort_key kps r1)) pos (Z.of_nat (pos + keys_width kps)) = key_bytes make_sort_key kps r1)
    by (rewrite <- L1; apply written_memcpy; lia).
  assert (W2 : written (memcpy_at out2 pos (key_bytes make_sort_key kps r2)) pos (Z.of_nat (pos + keys_width kps)) = key_bytes make_sort_key kps r2)
    by (rewrite <- L2; apply written_memcpy; lia).
  rewrite W1, W2.
  pose proof (key_bytes_compare make_sort_key field_cmp sort_length kps r1 r2 Hsk Hall) as E.
  split; [exact E|]. rewrite <- E. symmetry. apply bytes_compare_eq.
Qed.

(** a covering read of a secondary-index entry made of present integer
    columns returns, for every column that is read, the value the entry was
    built from, and keeps the entry's primary key for [position]. *)
Theorem keyread_roundtrip (make_sort_key : Field -> bytes -> Z -> bytes) (idx pk : KEY)
    (cover : nat -> bool) (cols : list nat) (rec rec0 : record)
    (Hi : int_parts make_sort_key (key_part idx) rec) (Hp : int_parts make_sort_key (key_part pk) rec)
    (Hw : comparable_key_length idx = Z.of_nat (length (key_bytes make_sort_key (key_part idx) rec)))
    (Hcov : forallb cover cols = true)
    (Hcols : forall c, c ∈ cols -> c ∈ fieldnr <$> (key_part idx ++ key_part pk)) :
  let ik := key_bytes make_sort_key (key_part idx) rec ++ key_bytes make_sort_key (key_part pk) rec in
  exists rec', try_keyread_from_index (Some pk) idx cover cols ik rec0 =
      Some (rec', key_bytes make_sort_key (key_part pk) rec) /\
    forall c, c ∈ cols -> rec' c = rec c.
Proof.
  cbv zeta. unfold try_keyread_from_index. rewrite Hcov, Hw, Nat2Z.id.
  set (ki := key_bytes make_sort_key (key_part idx) rec). set (kp := key_bytes make_sort_key (key_part pk) rec).
  destruct (decode_parts_int make_sort_key (key_part idx) rec [] kp (fun c => bool_decide (c ∈ cols)) rec0 Hi)
    as (r1 & E1 & H1).
  destruct (decode_parts_int make_sort_key (key_part pk) rec ki [] (fun c => bool_decide (c ∈ cols)) r1 Hp)
    as (r2 & E2 & H2).
  cbn [app length] in E1. fold ki in E1. fold kp in E2. rewrite app_nil_r in E2.
  rewrite E1. cbn [mbind option_bind]. rewrite E2. cbn [mbind option_bind].
  rewrite drop_app_length. exists r2. split; [done|].
  intros c Hc. rewrite H2, H1, (bool_decide_true (c ∈ cols)) by done. cbn [andb].
  specialize (Hcols c Hc). rewrite fmap_app, elem_of_app in Hcols.
  case_bool_decide; [done|]. case_bool_decide; [done|]. tauto.
Qed.

(** ** Witnesses *)

Lemma hidden_pk_order_witness :
  decode_be64 (encode_be64 300) = 300 /\
  bytes_compare (build_data_key (encode_be64 300)) (build_data_key (encode_be64 7)) = Gt.
Proof. apply (hidden_pk_order 300 7); unfold fits_u64; lia. Defined.

(** A server whose only columns are signed 4-byte integers and VARBINARY. *)
Definition demo_sort_key (f : Field) (d : bytes) (n : Z) : bytes :=
  let k := int_sort_key f d in take (Z.to_nat n) (k ++ replicate (Z.to_nat n) 0).

Definition int_col (nullable : bool) : Field := mk_field MYSQL_TYPE_LONG nullable false my_charset_other 11 4.
Definition vb_col (n : Z) : Field := mk_field MYSQL_TYPE_VARCHAR false false my_charset_bin n 5.

Lemma demo_sort_key_length : sort_key_length demo_sort_key.
Proof.
  intros f d n Hn. unfold demo_sort_key. rewrite length_take, length_app, length_replicate. lia.
Qed.

Definition demo_key : KEY := mk_key [mk_part 0 (int_col true) 4; mk_part 1 (vb_col 8) 8] false.
Definition demo_rec (v : option bytes) (w : bytes) : record :=
  fun i => if Nat.eqb i 0 then v else Some w.

Lemma comparable_key_exact_witness :
  make_comparable_key demo_sort_key demo_key (demo_rec None [7; 9]) 2 (replicate 20 170) 3 =
    Some (memcpy_at (replicate 20 170) 3 [0; 0; 0; 0; 0; 7; 9; 0; 0; 0; 0; 0; 2], 16).
Proof.
  apply (comparable_key_exact demo_sort_key demo_key (demo_rec None [7; 9]) (replicate 20 170) 3).
  - exact demo_sort_key_length.
  - repeat constructor; cbn; lia.
  - reflexivity.
  - cbn. lia.
  - cbn. lia.
Defined.

(** A signed 4-byte integer, stored with its low byte first, and its order. *)
Definition int_value (d : bytes) : Z :=
  match d with
  | [a; b; c; e] => a + 256 * b + 65536 * c + 16777216 * (if e <? 128 then e else e - 256)
  | _ => 0
  end.
Definition int_cmp (f : Field) (a b : bytes) : comparison := Z.compare (int_value a) (int_value b).
Definition int_sort_length (f : Field) : Z := 4.

Lemma flip_byte e : 0 <= e < 256 -> e .^ INT_SORT_SIGN_FLIP_MASK = if e <? 128 then e + 128 else e - 128.
Proof.
  intros He. assert (Hall : forallb (fun n => Z.of_nat n .^ INT_SORT_SIGN_FLIP_MASK =? if Z.of_nat n <? 128 then Z.of_nat n + 128 else Z.of_nat n - 128) (seq 0 256) = true)
    by (vm_compute; reflexivity).
  rewrite forallb_forall in Hall. specialize (Hall (Z.to_nat e)). rewrite Z2Nat.id in Hall by lia. apply Z.eqb_eq, Hall. apply in_seq. lia.
Qed.

(** The sort keys of these integers follow their values. *)
Lemma int_sort_key_order : sort_key_order demo_sort_key int_cmp int_sort_length (int_col true).
Proof.
  intros a b La Lb Ha Hb. cbn [pack_length int_col] in La, Lb.
  destruct a as [|a0 [|a1 [|a2 [|a3 [|]]]]]; try done. destruct b as [|b0 [|b1 [|b2 [|b3 [|]]]]]; try done.
  repeat (apply List.Forall_cons_iff in Ha as [? Ha]). repeat (apply List.Forall_cons_iff in Hb as [? Hb]). unfold fits_u8 in *.
  unfold demo_sort_key, int_sort_key, flip_last, int_sort_length, int_cmp, int_value. change (Z.to_nat 4) with 4%nat.
  cbn [is_unsigned int_col rev app take].
  rewrite !flip_byte by lia. cbn [bytes_compare].
  destruct (Z.ltb_spec a3 128), (Z.ltb_spec b3 128).
  all: match goal with |- context [Z.compare ?x ?y] => destruct (Z.compare_spec x y) end; try (symmetry; (apply Z.compare_lt_iff || apply Z.compare_gt_iff); lia).
  all: destruct (Z.compare_spec a2 b2); try (symmetry; (apply Z.compare_lt_iff || apply Z.compare_gt_iff); lia).
  all: destruct (Z.compare_spec a1 b1); try (symmetry; (apply Z.compare_lt_iff || apply Z.compare_gt_iff); lia).
  all: destruct (Z.compare_spec a0 b0); symmetry; (apply Z.compare_eq_iff || apply Z.compare_lt_iff || apply Z.compare_gt_iff); lia.
Qed.

(** Minus one sorts before five, in buffers that held something else. *)
Lemma comparable_key_order_witness :
  exists o1 o2 e,
    make_comparable_key demo_sort_key demo_key (demo_rec (Some [255; 255; 255; 255]) [7]) 2 (replicate 20 170) 3 = Some (o1, e) /\
    make_comparable_key demo_sort_key demo_key (demo_rec (Some [5; 0; 0; 0]) [7; 0]) 2 (replicate 20 85) 3 = Some (o2, e) /\
    bytes_compare (written o1 3 e) (written o2 3 e) = Lt.
Proof.
  destruct (comparable_key_order demo_sort_key int_cmp int_sort_length demo_key 2 (demo_rec (Some [255; 255; 255; 255]) [7])
    (demo_rec (Some [5; 0; 0; 0]) [7; 0]) (replicate 20 170) (replicate 20 85) 3) as (o1 & o2 & e & H1 & H2 & H3 & _).
  - exact demo_sort_key_length.
  - repeat constructor; cbn; try done; try lia; try (by apply bytes_okb_ok); apply int_sort_key_order.
  - cbn. lia.
  - cbn. lia.
  - exists o1, o2, e. split; [exact H1|]. split; [exact H2|]. rewrite H3. reflexivity.
Defined.

Definition int_idx : KEY := mk_key [mk_part 1 (int_col true) 4] false.
Definition int_pk : KEY := mk_key [mk_part 0 (int_col false) 4] false.
Definition int_rec : record := fun i => Some (if Nat.eqb i 0 then [1; 0; 0; 0] else [255; 255; 255; 255]).

Lemma keyread_roundtrip_witness :
  let ik := key_bytes demo_sort_key (key_part int_idx) int_rec ++ key_bytes demo_sort_key (key_part int_pk) int_rec in
  exists rec', try_keyread_from_index (Some int_pk) int_idx (fun _ => true) [0%nat; 1%nat] ik (fun _ => None) =
      Some (rec', key_bytes demo_sort_key (key_part int_pk) int_rec) /\
    forall c, c ∈ [0%nat; 1%nat] -> rec' c = int_rec c.
Proof.
  apply (keyread_roundtrip demo_sort_key int_idx int_pk (fun _ => true) [0%nat; 1%nat] int_rec (fun _ => None)).
  - constructor; [|constructor]. split; [done|]. exists [255; 255; 255; 255].
    split_and!; [done|by apply bytes_okb_ok|unfold int_width; cbn; lia|done|done].
  - constructor; [|constructor]. split; [done|]. exists [1; 0; 0; 0].
    split_and!; [done|by apply bytes_okb_ok|unfold int_width; cbn; lia|done|done].
  - reflexivity.
  - reflexivity.
  - intros c Hc. cbn. by rewrite !elem_of_cons in *; naive_solver.
Defined.

(** ** Where the encoding breaks down *)

(** Two different values of a VARBINARY(4) key column give the same key: a value
    that fills the column puts its last byte where the length of a shorter one
    goes. *)
Theorem varbinary_full_length_collides :
  let ki := mk_key [mk_part 0 (vb_col 4) 4] false in
  let key d := make_comparable_key demo_sort_key ki (fun _ => Some d) 1 (replicate 4 0) 0 in
  key [65; 0; 0; 1] = key [65] /\ is_Some (key [65]).
Proof. split; [reflexivity|by eexists]. Qed.

(** A VARBINARY(300) value of 299 bytes leaves the last byte of its key as the
    buffer had it: the key depends on what was there before. *)
Theorem varbinary_stale_byte :
  let ki := mk_key [mk_part 0 (vb_col 300) 300] false in
  let key buf := make_comparable_key demo_sort_key ki (fun _ => Some (replicate 299 65)) 1 buf 0 in
  fst <$> key (replicate 300 0) <> fst <$> key (replicate 300 1).
Proof. vm_compute. discriminate. Qed.

(** A one-byte prefix index on VARBINARY(300) makes the data area 2^32 - 1 bytes
    wide, and zeroing it runs over the end of any buffer. *)
Theorem varbinary_prefix_overruns (out : bytes) :
  let ki := mk_key [mk_part 0 (vb_col 300) 1] false in
  Z.of_nat (length out) < 2 ^ 32 - 1 ->
  make_comparable_key demo_sort_key ki (fun _ => Some [65]) 1 out 0 = None.
Proof.
  cbv zeta. intros Hl. unfold make_comparable_key. cbn [key_part firstn put_parts].
  assert (E : put_part demo_sort_key (mk_part 0 (vb_col 300) 1) (Some [65]) out 0 = None); [|by rewrite E].
  cbn [put_part kp_field vb_col is_nullable mbind option_bind].
  change (is_varbinary (mk_field MYSQL_TYPE_VARCHAR false false my_charset_bin 300 5)) with true. cbv iota.
  unfold put_varbinary. cbn [kp_field field_length kp_length length]. cbv zeta.
  change (u32 (1 - (if 300 <? 256 then 1 else 2))) with (2 ^ 32 - 1).
  change (Z.min (Z.of_nat 1) (2 ^ 32 - 1)) with 1. destruct (put out 0 _) as [out'|] eqn:Ep; [|done].
  cbn [mbind option_bind]. change (1 <? 2 ^ 32 - 1) with true. cbv iota.
  assert (Hl' : length out' = length out).
  { unfold put in Ep. case_match eqn:Ec; [|done]. injection Ep as <-. apply memcpy_at_length.
    apply andb_true_iff in Ec as [_ Ec%Z.leb_le].
    change (Z.of_nat (length (take _ _))) with 1 in Ec. cbn [length]. lia. }
  unfold bzero. rewrite (proj2 (Z.leb_gt (0 + 1 + (2 ^ 32 - 1 - 1)) _)) by (rewrite Hl'; lia).
  by rewrite andb_false_r.
Qed.

(** Reading a covering index back goes wrong after a NULL: the encoder writes the
    NULL's width of zeros, the decoder skips only the indicator byte, so the next
    column is read from the zeros (here 5 comes back as the smallest integer). *)
Theorem keyread_wrong_after_null :
  let idx := mk_key [mk_part 1 (int_col true) 4; mk_part 2 (int_col false) 4] false in
  let rec := fun i => if Nat.eqb i 1 then None else Some [5; 0; 0; 0] in
  let ik := key_bytes demo_sort_key (key_part idx) rec ++ key_bytes demo_sort_key (key_part int_pk) rec in
  (fun r => r.1 2%nat) <$> try_keyread_from_index (Some int_pk) idx (fun _ => true) [2%nat] ik (fun _ => None)
    = Some (Some [0; 0; 0; 128]).
Proof. reflexivity. Qed.
