(* ===== verification/MasterKey.v ===== *)
(** * Data-at-rest encryption (tidesdb_master_key.cc, ha_tidesdb.cc 5037-5155)

    The master key with its per-thread cache, and the encryption and decryption
    of a row.  Loading, clearing and fetching the key are atomic operations on
    the shared key, its generation and the caller's thread-local copy (the
    global state changes only under the mutex, and the fast path reads one
    atomic and its own copy).  AES is the server's: a parameter with the law that
    decryption undoes encryption. *)

From Stdlib Require Import ZArith Lia.
From stdpp Require Import base tactics list numbers gmap relations.
From S2P Require Import Prelude.

Definition TIDESDB_MASTER_KEY_LEN : nat := 32.
Definition TIDESDB_AES_BLOCK_LEN : Z := 16.
Definition TIDESDB_ENC_IV_LEN : nat := 16.
Definition TIDESDB_ENC_KEY_LEN : Z := 32.
Definition ENCRYPTION_KEY_VERSION_INVALID : Z := 2 ^ 32 - 1.

(** ** The key store *)

Record key_store := mk_store {
  g_master_key : bytes;
  g_master_key_loaded : bool;
  g_master_key_gen : Z;
  tls : gmap nat (bytes * Z)      (* thread-local copy and its generation *)
}.

Definition key_init : key_store := mk_store (replicate TIDESDB_MASTER_KEY_LEN 0) false 0 ∅.

(** [contents] is the file, [None] when it cannot be opened; [true] is failure. *)
Definition tidesdb_master_key_load_from_file (path_given : bool) (contents : option bytes) (st : key_store)
    : bool * key_store :=
  if negb path_given then (true, st)
  else match contents with
       | None => (true, st)
       | Some file =>
         if Nat.eqb (length file) TIDESDB_MASTER_KEY_LEN
         then (false, mk_store file true (u64 (g_master_key_gen st + 1)) (tls st))
         else (true, st)
       end.

Definition tidesdb_master_key_clear (st : key_store) : key_store :=
  mk_store (replicate TIDESDB_MASTER_KEY_LEN 0) false (u64 (g_master_key_gen st + 1)) (tls st).

Definition encryption_key_get_latest_version (st : key_store) : Z :=
  if g_master_key_loaded st then 1 else ENCRYPTION_KEY_VERSION_INVALID.

(** A thread's copy starts zeroed with generation 0. *)
Definition tls_of (st : key_store) (thread : nat) : bytes * Z :=
  default (replicate TIDESDB_MASTER_KEY_LEN 0, 0) (tls st !! thread).

(** [None] is the error return. *)
Definition encryption_key_get (thread : nat) (st : key_store) : option bytes * key_store :=
  let '(tls_master_key, tls_gen) := tls_of st thread in
  let cur_gen := g_master_key_gen st in
  if negb (cur_gen =? 0) && (tls_gen =? cur_gen) then (Some tls_master_key, st)
  else if g_master_key_loaded st then
    (Some (g_master_key st),
     mk_store (g_master_key st) true cur_gen (<[thread := (g_master_key st, cur_gen)]> (tls st)))
  else
    (None, mk_store (g_master_key st) false cur_gen
             (<[thread := (replicate TIDESDB_MASTER_KEY_LEN 0, 0)]> (tls st))).

Inductive key_step : key_store -> key_store -> Prop :=
| ks_load given contents st : key_step st (snd (tidesdb_master_key_load_from_file given contents st))
| ks_clear st : key_step st (tidesdb_master_key_clear st)
| ks_get thread st : key_step st (snd (encryption_key_get thread st)).

(** The generation counter does not wrap: fewer than 2^64 loads and clears. *)
Inductive key_reachable : nat -> key_store -> Prop :=
| kr_init : key_reachable 0 key_init
| kr_step n st st' : key_reachable n st -> key_step st st' -> key_reachable (S n) st'.

(** A cached copy of the current generation is the current key, and it exists
    only while a key is loaded. *)
Record key_inv (n : nat) (st : key_store) : Prop := {
  ki_gen : 0 <= g_master_key_gen st <= Z.of_nat n;
  ki_len : length (g_master_key st) = TIDESDB_MASTER_KEY_LEN;
  ki_tls t : snd (tls_of st t) <= g_master_key_gen st;
  ki_same t : snd (tls_of st t) = g_master_key_gen st -> g_master_key_gen st <> 0 ->
    fst (tls_of st t) = g_master_key st /\ g_master_key_loaded st = true;
  ki_zero : g_master_key_gen st = 0 -> g_master_key_loaded st = false
}.

Lemma tls_of_insert st t v u g l n :
  tls_of (mk_store g l n (<[t := v]> (tls st))) u = if decide (u = t) then v else tls_of st u.
Proof.
  unfold tls_of. cbn. case_decide as E; [subst; by rewrite lookup_insert_eq|by rewrite lookup_insert_ne].
Qed.

(** A new generation invalidates every copy. *)
Lemma key_inv_bump n st k l :
  key_inv n st -> Z.of_nat (S n) < 2 ^ 64 -> length k = TIDESDB_MASTER_KEY_LEN ->
  key_inv (S n) (mk_store k l (u64 (g_master_key_gen st + 1)) (tls st)).
Proof.
  intros [Hg Hl Ht Hs Hz] Hn Hk.
  assert (E : u64 (g_master_key_gen st + 1) = g_master_key_gen st + 1).
  { apply u64_id. unfold fits_u64. lia. }
  rewrite E. split; cbn; try lia; try done.
  - intros t. specialize (Ht t). change (tls_of _ t) with (tls_of st t). lia.
  - intros t Ht'. specialize (Ht t). change (tls_of _ t) with (tls_of st t) in *. lia.
Qed.

Lemma key_inv_mono n m st : (n <= m)%nat -> key_inv n st -> key_inv m st.
Proof. intros Hm [Hg Hl Ht Hs Hz]. split; try done. lia. Qed.

Lemma key_inv_step n st st' :
  Z.of_nat (S n) < 2 ^ 64 -> key_inv n st -> key_step st st' -> key_inv (S n) st'.
Proof.
  intros Hn I H. assert (Hself : key_inv (S n) st) by (eapply key_inv_mono; [|exact I]; lia).
  destruct H as [given contents st|st|thread st].
  - unfold tidesdb_master_key_load_from_file. destruct given; [|done]. destruct contents as [file|]; [|done].
    cbn [negb]. destruct (Nat.eqb_spec (length file) TIDESDB_MASTER_KEY_LEN); [|done].
    by apply key_inv_bump.
  - apply key_inv_bump; [done|done|]. apply length_replicate.
  - unfold encryption_key_get. destruct (tls_of st thread) as [k g] eqn:Et. case_match; [done|].
    destruct Hself as [Hg Hl Ht Hs Hz]. destruct (g_master_key_loaded st) eqn:El; cbn [snd].
    all: split; cbn [g_master_key_gen g_master_key g_master_key_loaded]; try done.
    all: try (intros t; rewrite tls_of_insert; case_decide; cbn; [lia|apply Ht]).
    all: try (intros t; rewrite tls_of_insert; case_decide; cbn;
              [first [done|lia]|intros Ht' Hne; destruct (Hs t Ht' Hne); first [done|congruence]]).
    all: intros E; specialize (Hz E); congruence.
Qed.

Lemma key_inv_reachable n st : Z.of_nat n < 2 ^ 64 -> key_reachable n st -> key_inv n st.
Proof.
  intros Hn H. induction H as [|n st st' H IH Hs].
  - split; try done; cbn; lia.
  - eapply key_inv_step; [lia| |exact Hs]. apply IH. lia.
Qed.

(** A fetch in a state that satisfies the invariant. *)
Lemma key_get_spec n st thread :
  key_inv n st ->
  fst (encryption_key_get thread st) =
    (if g_master_key_loaded st then Some (g_master_key st) else None) /\
  g_master_key (snd (encryption_key_get thread st)) = g_master_key st /\
  g_master_key_loaded (snd (encryption_key_get thread st)) = g_master_key_loaded st.
Proof.
  intros [Hg Hl Ht Hs Hz]. unfold encryption_key_get. destruct (tls_of st thread) as [k g] eqn:Et.
  case_match eqn:E.
  - apply andb_true_iff in E as [E1 E2]. apply negb_true_iff, Z.eqb_neq in E1. apply Z.eqb_eq in E2.
    specialize (Hs thread). rewrite Et in Hs. cbn in Hs. destruct (Hs E2 E1) as [-> El]. cbn. by rewrite El.
  - by destruct (g_master_key_loaded st).
Qed.

(** ** Rows *)

(** Lines 249-257 of tidesdb_master_key.cc; unsigned 32-bit. *)
Definition encryption_encrypted_length (src_len : Z) : Z :=
  u32 ((src_len / TIDESDB_AES_BLOCK_LEN + 1) * TIDESDB_AES_BLOCK_LEN).

Section Rows.

(** [my_aes_encrypt] and [my_aes_decrypt]: the [int] they return, which is the number of
    bytes produced or negative, and the destination after. *)
Variables (my_aes_encrypt my_aes_decrypt : bytes -> bytes -> bytes -> Z * bytes).

Definition encryption_crypt (encrypt : bool) (src key iv : bytes) (st : key_store) : option bytes :=
  if negb (Nat.eqb (length iv) 16) then None
  else if negb (g_master_key_loaded st) then None
  else if negb (Nat.eqb (length key) TIDESDB_MASTER_KEY_LEN) then None
  else
    let '(rc, dst) := (if encrypt then my_aes_encrypt else my_aes_decrypt) src key iv in
    if rc <? 0 then None else Some (take (Z.to_nat rc) dst).

Definition TIDESDB_ENCRYPT_MAX_PLAIN : Z := 4026531839.

(** Lines 5047-5110: [iv] is what the random generator delivers, [None] when it
    fails; the result is [out], or [None] with [out] cleared.  The buffer holds
    the IV and [enc_len] bytes: more ciphertext than that would overrun it. *)
Definition tidesdb_encrypt_row_into (plain : bytes) (iv : option bytes) (thread : nat) (st : key_store)
    : option bytes * key_store :=
  let '(key, st) := encryption_key_get thread st in
  match key with
  | None => (None, st)
  | Some key =>
    match iv with
    | None => (None, st)
    | Some iv =>
      if TIDESDB_ENCRYPT_MAX_PLAIN <? Z.of_nat (length plain) then (None, st)
      else
        let enc_len := encryption_encrypted_length (Z.of_nat (length plain)) in
        match encryption_crypt true plain key iv st with
        | None => (None, st)
        | Some c => if Z.of_nat (length c) <=? enc_len then (Some (iv ++ c), st) else (None, st)
        end
    end
  end.

(** Lines 5119-5155: an empty result is a failure. *)
Definition tidesdb_decrypt_row (data : bytes) (thread : nat) (st : key_store) : bytes * key_store :=
  if Nat.leb (length data) TIDESDB_ENC_IV_LEN then ([], st)
  else
    let '(key, st) := encryption_key_get thread st in
    match key with
    | None => ([], st)
    | Some key =>
      let iv := take TIDESDB_ENC_IV_LEN data in
      let src := drop TIDESDB_ENC_IV_LEN data in
      (default [] (encryption_crypt false src key iv st), st)
    end.

(** The longest plaintext whose padded length is an [int]. *)
Definition AES_MAX_PLAIN : Z := 2 ^ 31 - 17.

(** The cipher's contract: PKCS#7 padding to the next block, and decryption
    undoes encryption under the same key and IV, for lengths that an [int] holds. *)
Definition aes_ok : Prop :=
  forall p k iv, length k = TIDESDB_MASTER_KEY_LEN -> length iv = 16%nat -> Z.of_nat (length p) <= AES_MAX_PLAIN ->
    exists c, my_aes_encrypt p k iv = (Z.of_nat (length c), c) /\ my_aes_decrypt c k iv = (Z.of_nat (length p), p) /\
      Z.of_nat (length c) = (Z.of_nat (length p) / 16 + 1) * 16.

(** A cipher that produced something. *)
Lemma crypt_runs (b : bool) (src key iv out : bytes) (s : key_store) : length key = TIDESDB_MASTER_KEY_LEN -> length iv = 16%nat ->
  g_master_key_loaded s = true -> (if b then my_aes_encrypt else my_aes_decrypt) src key iv = (Z.of_nat (length out), out) ->
  encryption_crypt b src key iv s = Some out.
Proof.
  intros Hk Hiv Hl Ho. unfold encryption_crypt. rewrite Hiv, Hl, Hk, Ho. cbn [Nat.eqb negb]. rewrite (proj2 (Z.ltb_ge _ _)) by lia.
  by rewrite Nat2Z.id, take_ge.
Qed.

(** One that failed, as for a padded length that is no [int]: no row is made. *)
Lemma crypt_fails (b : bool) (src key iv : bytes) (s : key_store) :
  ((if b then my_aes_encrypt else my_aes_decrypt) src key iv).1 < 0 -> encryption_crypt b src key iv s = None.
Proof.
  intros Hrc. unfold encryption_crypt. destruct (negb _); [done|]. destruct (negb _); [done|]. destruct (negb _); [done|].
  destruct (_ src key iv) as [rc dst]. cbn in Hrc. by rewrite (proj2 (Z.ltb_lt _ _)).
Qed.

Lemma encrypted_length_exact n :
  0 <= n <= TIDESDB_ENCRYPT_MAX_PLAIN -> encryption_encrypted_length n = (n / 16 + 1) * 16.
Proof.
  intros Hn. unfold encryption_encrypted_length, TIDESDB_AES_BLOCK_LEN, TIDESDB_ENCRYPT_MAX_PLAIN in *.
  unfold u32. apply Z.mod_small. pose proof (Z.div_pos n 16). pose proof (Z.mul_div_le n 16). lia.
Qed.

(** ** Properties *)

(** C22: whatever loads, clears and fetches happened before, on any threads, a
    fetch returns exactly the currently loaded key, and fails exactly when none
    is loaded: the per-thread cache never serves a stale key. *)
Theorem key_cache_coherent (n : nat) (st : key_store) (thread : nat)
    (H : key_reachable n st) (Hn : Z.of_nat n < 2 ^ 64) :
  fst (encryption_key_get thread st) =
    if g_master_key_loaded st then Some (g_master_key st) else None.
Proof.
  apply (key_get_spec n), key_inv_reachable; done.
Qed.

(** with the key loaded and a random IV available, encrypting a row of up to
    [AES_MAX_PLAIN] bytes succeeds without overrunning its buffer,
    and any thread decrypts the result, under the same key, to the row. *)
Theorem row_encryption_roundtrip (n : nat) (st : key_store) (plain iv : bytes) (t1 t2 : nat)
    (H : key_reachable n st) (Hn : Z.of_nat (S n) < 2 ^ 64) (Haes : aes_ok)
    (Hl : g_master_key_loaded st = true) (Hiv : length iv = 16%nat)
    (Hsz : Z.of_nat (length plain) <= AES_MAX_PLAIN) :
  exists st1 out, tidesdb_encrypt_row_into plain (Some iv) t1 st = (Some out, st1) /\
    Z.of_nat (length out) = 16 + (Z.of_nat (length plain) / 16 + 1) * 16 /\
    fst (tidesdb_decrypt_row out t2 st1) = plain.
Proof.
  assert (I : key_inv n st) by (apply key_inv_reachable; [lia|done]).
  assert (I1 : key_inv (S n) (snd (encryption_key_get t1 st))) by (eapply key_inv_step; [done|done|constructor]).
  destruct (key_get_spec n st t1 I) as (E1 & K1 & L1).
  destruct (key_get_spec (S n) _ t2 I1) as (E2 & K2 & L2).
  destruct (Haes plain (g_master_key st) iv (ki_len _ _ I) Hiv Hsz) as (c & Hc & Hd & Hlen).
  unfold tidesdb_encrypt_row_into. destruct (encryption_key_get t1 st) as [k st1]. cbn [fst snd] in *.
  unfold AES_MAX_PLAIN in Hsz. assert (Hmax : Z.of_nat (length plain) <= TIDESDB_ENCRYPT_MAX_PLAIN) by (unfold TIDESDB_ENCRYPT_MAX_PLAIN; lia).
  rewrite Hl in E1, L1. subst k. rewrite (proj2 (Z.ltb_ge _ _)) by done.
  rewrite (crypt_runs true plain (g_master_key st) iv c st1 (ki_len _ _ I) Hiv L1 Hc). rewrite encrypted_length_exact by lia.
  rewrite (proj2 (Z.leb_le _ _)) by lia. exists st1, (iv ++ c). split; [done|]. split.
  { rewrite length_app. lia. }
  unfold tidesdb_decrypt_row. pose proof (Z.div_pos (Z.of_nat (length plain)) 16).
  rewrite (proj2 (Nat.leb_gt _ _)) by (rewrite length_app; unfold TIDESDB_ENC_IV_LEN; lia).
  destruct (encryption_key_get t2 st1) as [k2 st2]. cbn [fst snd] in *.
  rewrite L1 in E2, L2. rewrite K1 in E2. subst k2.
  unfold TIDESDB_ENC_IV_LEN. rewrite take_app_exact, drop_app_exact by done.
  by rewrite (crypt_runs false c (g_master_key st) iv plain st2 (ki_len _ _ I) Hiv L2 Hd).
Qed.

End Rows.

(** ** The pages of the key (lines 99-131) *)

(** The address and length that are locked into memory and kept out of core dumps; nothing when
    the page size is not known. *)
Definition tidesdb_master_key_pin_page (pagesize key_addr : Z) : option (Z * Z) :=
  if pagesize <=? 0 then None
  else
    let page_mask := u64 (Z.lnot (pagesize - 1)) in
    let straddles := negb ((u64 (key_addr + Z.of_nat TIDESDB_MASTER_KEY_LEN - 1) .& page_mask) =? (key_addr .& page_mask)) in
    Some (key_addr .& page_mask, if straddles then pagesize * 2 else pagesize).

Lemma page_of_addr k a : 0 <= k < 64 -> 0 <= a < 2 ^ 64 -> a .& u64 (Z.lnot (2 ^ k - 1)) = a / 2 ^ k * 2 ^ k.
Proof.
  intros Hk Ha. transitivity (Z.ldiff a (Z.ones k)).
  - rewrite Z.ones_equiv. rewrite <- (Z.sub_1_r (2 ^ k)). apply Z.bits_inj'. intros n Hn. rewrite Z.land_spec, Z.ldiff_spec. unfold u64.
    destruct (decide (n < 64)) as [Hlt|Hge].
    + by rewrite Z.mod_pow2_bits_low, Z.lnot_spec by lia.
    + assert (Hz : Z.testbit a n = false); [|by rewrite Hz].
      destruct (decide (a = 0)) as [->|Hne]; [apply Z.bits_0|]. apply Z.bits_above_log2; [lia|]. apply Z.log2_lt_pow2; [lia|].
      eapply Z.lt_le_trans; [apply Ha|]. apply Z.pow_le_mono_r; lia.
  - rewrite Z.ldiff_ones_r by lia. rewrite Z.shiftr_div_pow2, Z.shiftl_mul_pow2 by lia. done.
Qed.

(** Every byte of the key lies in the range, which is no more than the pages the key is on. *)
Lemma key_pages_pinned k a : 5 <= k < 63 -> 0 <= a -> a + 32 <= 2 ^ 64 ->
  exists start len, tidesdb_master_key_pin_page (2 ^ k) a = Some (start, len) /\
    start <= a /\ a + 32 <= start + len /\ start mod 2 ^ k = 0 /\
    (len = 2 ^ k \/ (len = 2 * 2 ^ k /\ start + 2 ^ k < a + 32)).
Proof.
  intros Hk Ha Hb. assert (Hp : 32 <= 2 ^ k) by (change 32 with (2 ^ 5); apply Z.pow_le_mono_r; lia).
  unfold tidesdb_master_key_pin_page. rewrite (proj2 (Z.leb_gt _ _)) by lia. unfold TIDESDB_MASTER_KEY_LEN.
  change (Z.of_nat 32) with 32. rewrite (u64_id (a + 32 - 1)) by (unfold fits_u64; lia). rewrite !page_of_addr by lia.
  eexists _, _. split; [done|]. pose proof (Z.div_mod a (2 ^ k) ltac:(lia)) as Hd. pose proof (Z.mod_pos_bound a (2 ^ k) ltac:(lia)) as Hm.
  pose proof (Z.div_mod (a + 32 - 1) (2 ^ k) ltac:(lia)) as Hd'. pose proof (Z.mod_pos_bound (a + 32 - 1) (2 ^ k) ltac:(lia)) as Hm'.
  assert (Hq : (a + 32 - 1) / 2 ^ k = a / 2 ^ k \/ (a + 32 - 1) / 2 ^ k = a / 2 ^ k + 1) by nia.
  rewrite Z_mod_mult. destruct Hq as [Hq|Hq]; rewrite Hq.
  - rewrite Z.eqb_refl. cbn [negb]. split; [nia|]. split; [nia|]. split; [done|]. by left.
  - rewrite (proj2 (Z.eqb_neq _ _)) by nia. cbn [negb]. split; [nia|]. split; [nia|]. split; [done|]. right. nia.
Qed.

(** ** Witnesses *)

Definition demo_key : bytes := replicate 32 7.
Definition demo_store : key_store := snd (tidesdb_master_key_load_from_file true (Some demo_key) key_init).

Lemma demo_reachable : key_reachable 1 demo_store.
Proof. econstructor; [constructor|apply ks_load]. Qed.

Lemma key_cache_coherent_witness : fst (encryption_key_get 3 demo_store) = Some demo_key.
Proof. apply (key_cache_coherent 1 demo_store 3 demo_reachable). lia. Defined.

(** A cipher with the padding of PKCS#7 and no secrecy. *)
Definition toy_pad (p : bytes) : nat := (16 - Nat.modulo (length p) 16)%nat.
Definition toy_encrypt (p k iv : bytes) : Z * bytes :=
  let c := replicate (toy_pad p) (Z.of_nat (toy_pad p)) ++ p in (Z.of_nat (length c), c).
Definition toy_decrypt (c k iv : bytes) : Z * bytes :=
  match c with [] => (-1, []) | n :: _ => let p := drop (Z.to_nat n) c in (Z.of_nat (length p), p) end.

Lemma toy_ok : aes_ok toy_encrypt toy_decrypt.
Proof.
  intros p k iv _ _ _. eexists. split; [done|].
  pose proof (Nat.mod_upper_bound (length p) 16) as Hm.
  assert (Hp : (1 <= toy_pad p <= 16)%nat) by (unfold toy_pad; lia). split.
  - destruct (toy_pad p) as [|m] eqn:E; [lia|]. cbn [replicate app toy_decrypt].
    rewrite Nat2Z.id.
    change (Z.of_nat (S m) :: replicate m (Z.of_nat (S m)) ++ p) with (replicate (S m) (Z.of_nat (S m)) ++ p).
    by rewrite drop_app_exact by apply length_replicate.
  - rewrite length_app, length_replicate. unfold toy_pad in *.
    pose proof (Nat.div_mod_eq (length p) 16) as Hd.
    change 16 with (Z.of_nat 16). rewrite <- (Nat2Z.inj_div (length p) 16). lia.
Qed.

Lemma row_encryption_roundtrip_witness :
  exists st1 out,
    tidesdb_encrypt_row_into toy_encrypt toy_decrypt [254; 1; 2] (Some (replicate 16 9)) 1 demo_store = (Some out, st1) /\
    Z.of_nat (length out) = 32 /\
    fst (tidesdb_decrypt_row toy_encrypt toy_decrypt out 2 st1) = [254; 1; 2].
Proof.
  apply (row_encryption_roundtrip toy_encrypt toy_decrypt 1 demo_store [254; 1; 2] (replicate 16 9) 1 2).
  - exact demo_reachable.
  - lia.
  - exact toy_ok.
  - reflexivity.
  - reflexivity.
  - unfold AES_MAX_PLAIN. cbn. lia.
Defined.
