(* ===== verification/RowCodec.v ===== *)
(** * Row images (ha_tidesdb.cc 5157-5385, 5440-5487)

    [serialize_row] and [deserialize_row], where the table that reads may have
    more or fewer columns than the table that wrote, the lifetime of a row, and
    which buffer the BLOB pointers of a record lead into.  A record is the byte
    buffer the server works on: the null bitmap first, then the fields at their
    offsets.  [Field::pack] and [Field::unpack] are the server's: parameters on
    the bytes of the field, with the law that one undoes the other. *)

From Stdlib Require Import ZArith Lia Sorting.Sorted.
From stdpp Require Import base tactics list numbers.
From S2P Require Import Prelude.

Definition ROW_HEADER_MAGIC : Z := 254.
Definition ROW_HEADER_SIZE : nat := 5.
Definition FIELD_VARCHAR_LEN_PREFIX : nat := 2.

(** ** Tables *)

(** What the share's codec table and the field itself say about a column; the
    null bit is the byte it is in and its mask. *)
Record column := mk_column {
  c_offset : nat;
  c_len : nat;                    (* pack_length *)
  c_memcpy : bool;                (* FIELD_CODEC_MEMCPY, otherwise FIELD_CODEC_GENERIC *)
  c_blob : bool;                  (* in blob_field_indices *)
  c_null : option (nat * Z)
}.

Record table := mk_rtable {
  null_bytes : nat;
  reclength : nat;
  columns : list column;
  default_values : bytes
}.

Definition slice (buf : bytes) (off len : nat) : bytes := take len (drop off buf).

Definition is_real_null (c : column) (buf : bytes) : bool :=
  match c_null c with
  | None => false
  | Some (b, m) => negb ((nth b buf 0 .& m) =? 0)
  end.

Section Codec.

(** [Field::pack] and [Field::unpack] of a column: the packed bytes, and the
    bytes restored with the number consumed ([None]: [unpack] returns null). *)
Variable pack : column -> bytes -> bytes.
Variable unpack : column -> bytes -> option (bytes * nat).
(** The value the bytes of a field stand for (of a BLOB field, which holds a
    length and a pointer, the bytes pointed to) and [Field_blob::get_length]. *)
Variable value : column -> bytes -> bytes.
Variable get_length : column -> bytes -> nat.

(** ** Writing (lines 5164-5268) *)

(** The lengths of the BLOBs that are not NULL (lines 5181-5191). *)
Fixpoint blob_lengths (cs : list column) (buf : bytes) : nat :=
  match cs with
  | [] => 0
  | c :: rest =>
    (if c_blob c && negb (is_real_null c buf) then get_length c (slice buf (c_offset c) (c_len c)) else 0) +
    blob_lengths rest buf
  end.

(** The upper bound the buffer is sized to. *)
Definition row_estimate (t : table) (buf : bytes) : nat :=
  ROW_HEADER_SIZE + null_bytes t + reclength t + FIELD_VARCHAR_LEN_PREFIX * length (columns t) +
  blob_lengths (columns t) buf.

Definition pack_column (c : column) (buf : bytes) : bytes :=
  if is_real_null c buf then []
  else if c_memcpy c then slice buf (c_offset c) (c_len c)
  else pack c (slice buf (c_offset c) (c_len c)).

Fixpoint pack_columns (cs : list column) (buf : bytes) : bytes :=
  match cs with [] => [] | c :: rest => pack_column c buf ++ pack_columns rest buf end.

Definition row_header (t : table) : bytes :=
  ROW_HEADER_MAGIC :: le_split 2 (Z.of_nat (null_bytes t)) ++ le_split 2 (Z.of_nat (length (columns t))).

(** The row image; [None] when the writes run past the end of the buffer, which
    is sized to the estimate beforehand. *)
Definition serialize_row (t : table) (buf : bytes) : option bytes :=
  let row := row_header t ++ take (null_bytes t) buf ++ pack_columns (columns t) buf in
  if Nat.leb (length row) (row_estimate t buf) then Some row else None.

(** ** Reading (lines 5270-5365) *)

(** Lines 5322-5340: a column added after the row was written. *)
Definition fill_default (t : table) (buf : bytes) (c : column) : bytes :=
  let buf := memcpy_at buf (c_offset c) (slice (default_values t) (c_offset c) (c_len c)) in
  match c_null c with
  | None => buf
  | Some (b, m) =>
    memcpy_at buf b
      [if is_real_null c (default_values t) then nth b buf 0 .| m else u8 (nth b buf 0 .& Z.lnot m)]
  end.

(** Lines 5345-5364. *)
Fixpoint unpack_columns (cs : list column) (buf from : bytes) : bytes :=
  match cs with
  | [] => buf
  | c :: rest =>
    if is_real_null c buf then unpack_columns rest buf from
    else match from with
         | [] => buf
         | _ =>
           if c_memcpy c then
             if Nat.ltb (length from) (c_len c) then buf
             else unpack_columns rest (memcpy_at buf (c_offset c) (take (c_len c) from)) (drop (c_len c) from)
           else match unpack c from with
                | None => buf
                | Some (d, n) => unpack_columns rest (memcpy_at buf (c_offset c) d) (drop n from)
                end
         end
  end.

Definition deserialize_row (t : table) (buf data : bytes) : bytes :=
  if Nat.ltb (length data) ROW_HEADER_SIZE || negb (nth 0 data 0 =? ROW_HEADER_MAGIC)
  then replicate (reclength t) 0
  else
    let stored_null_bytes := Z.to_nat (le_combine (slice data 1 2)) in
    let stored_fields := Z.to_nat (le_combine (slice data 3 2)) in
    let from := drop 5 data in
    if Nat.ltb (length from) stored_null_bytes then buf
    else
      let copy_nb := Nat.min stored_null_bytes (null_bytes t) in
      let buf := memcpy_at buf 0 (take copy_nb from) in
      let buf := if Nat.ltb copy_nb (null_bytes t)
                 then memcpy_at buf copy_nb (slice (default_values t) copy_nb (null_bytes t - copy_nb))
                 else buf in
      let from := drop stored_null_bytes from in
      let buf := foldl (fill_default t) buf (drop stored_fields (columns t)) in
      unpack_columns (take stored_fields (columns t)) buf from.

(** ** Layout *)

(** The columns lie after [base], in order, without overlap, inside the record;
    null bits lie in the bitmap, are single bits, and no two columns share one. *)
Fixpoint layout (nb base rl : nat) (cs : list column) : Prop :=
  match cs with
  | [] => (base <= rl)%nat
  | c :: rest =>
    (base <= c_offset c)%nat /\ (0 < c_len c)%nat /\
    match c_null c with Some (b, m) => (b < nb)%nat /\ 0 < m < 256 | None => True end /\
    layout nb (c_offset c + c_len c) rl rest
  end.

Definition bits_apart (c d : column) : Prop :=
  match c_null c, c_null d with
  | Some (b, m), Some (b', m') => b <> b' \/ m .& m' = 0
  | _, _ => True
  end.

(** ** Slices and writes *)

Lemma slice_length buf off len : (off + len <= length buf)%nat -> length (slice buf off len) = len.
Proof. intros H. unfold slice. rewrite length_take, length_drop. lia. Qed.

Lemma slice_memcpy_same buf off d :
  (off + length d <= length buf)%nat -> slice (memcpy_at buf off d) off (length d) = d.
Proof. intros H. unfold slice. apply drop_memcpy_at. lia. Qed.

Lemma nth_memcpy_other buf off d i :
  (off + length d <= length buf)%nat -> (i < off \/ off + length d <= i)%nat ->
  nth i (memcpy_at buf off d) 0 = nth i buf 0.
Proof.
  intros Hl [Hi|Hi]; unfold memcpy_at.
  - rewrite app_nth1 by (rewrite length_take; lia). rewrite nth_firstn.
    rewrite (proj2 (Nat.ltb_lt _ _)); [done|lia].
  - rewrite app_assoc, app_nth2 by (rewrite length_app, length_take; lia).
    rewrite length_app, length_take, Nat.min_l by lia.
    rewrite nth_skipn. f_equal. lia.
Qed.

Lemma slice_ext a b off len :
  (off + len <= length a)%nat -> length a = length b ->
  (forall i, (off <= i < off + len)%nat -> nth i a 0 = nth i b 0) -> slice a off len = slice b off len.
Proof.
  intros Hl Hab H. apply (nth_ext _ _ 0 0).
  - rewrite !slice_length by lia. done.
  - intros i Hi. rewrite slice_length in Hi by lia. unfold slice.
    rewrite !nth_firstn, !nth_skipn. rewrite (proj2 (Nat.ltb_lt _ _)) by done. apply H. lia.
Qed.

Lemma slice_memcpy_other buf off d off' len :
  (off + length d <= length buf)%nat -> (off' + len <= length buf)%nat ->
  (off' + len <= off \/ off + length d <= off')%nat ->
  slice (memcpy_at buf off d) off' len = slice buf off' len.
Proof.
  intros H1 H2 H3. apply slice_ext.
  - rewrite memcpy_at_length; lia.
  - by rewrite memcpy_at_length.
  - intros i Hi. apply nth_memcpy_other; lia.
Qed.

Lemma is_real_null_ext c a b :
  match c_null c with Some (k, _) => nth k a 0 = nth k b 0 | None => True end ->
  is_real_null c a = is_real_null c b.
Proof. unfold is_real_null. destruct (c_null c) as [[k m]|]; [by intros ->|done]. Qed.

(** ** The unpack loop *)

(** The server's contract for the generic columns. *)
Definition unpack_pack : Prop :=
  forall c d rest, length d = c_len c -> c_memcpy c = false ->
    pack c d <> [] /\
    exists d', unpack c (pack c d ++ rest) = Some (d', length (pack c d)) /\ length d' = c_len c /\
               value c d' = value c d.

(** What [Field::pack] adds to the bytes of the field: at most a length prefix,
    and of a BLOB the data. *)
Definition pack_bound : Prop :=
  forall c d, length d = c_len c -> c_memcpy c = false ->
    (length (pack c d) <= c_len c + FIELD_VARCHAR_LEN_PREFIX + if c_blob c then get_length c d else 0)%nat.

(** What a column contributes to the row, given its content ([None]: NULL). *)
Definition packed (c : column) (v : option bytes) : bytes :=
  match v with None => [] | Some d => if c_memcpy c then d else pack c d end.

Fixpoint packed_all (cs : list column) (vs : list (option bytes)) : bytes :=
  match cs, vs with c :: cs, v :: vs => packed c v ++ packed_all cs vs | _, _ => [] end.

Definition content_ok (c : column) (v : option bytes) : Prop :=
  match v with Some d => length d = c_len c | None => True end.

Definition reads_as (buf : bytes) (c : column) (v : option bytes) : Prop :=
  match v with
  | None => is_real_null c buf = true
  | Some d =>
    is_real_null c buf = false /\
    if c_memcpy c then slice buf (c_offset c) (c_len c) = d
    else value c (slice buf (c_offset c) (c_len c)) = value c d
  end.

Lemma layout_end nb b rl cs : layout nb b rl cs -> (b <= rl)%nat.
Proof.
  revert b. induction cs as [|c cs IH]; intros b; cbn; [done|]. intros (? & ? & _ & H). apply IH in H. lia.
Qed.

(** Null bits lie below the columns. *)
Lemma nulls_ext nb b rl cs (vs : list (option bytes)) buf buf1 : layout nb b rl cs -> (forall i, (i < nb)%nat -> nth i buf1 0 = nth i buf 0) ->
  Forall2 (fun c v => is_real_null c buf = match v with None => true | Some _ => false end) cs vs ->
  Forall2 (fun c v => is_real_null c buf1 = match v with None => true | Some _ => false end) cs vs.
Proof.
  intros Hlay Hsame Hns. revert b Hlay. induction Hns as [|c v cs vs Hn _ IH]; intros b Hlay; [constructor|].
  destruct Hlay as (_ & _ & Hbit & Hlay). constructor; [|by eapply IH].
  rewrite <- Hn. apply is_real_null_ext. destruct (c_null c) as [[k m]|]; [|done]. apply Hsame. lia.
Qed.

(** One value put at its place, and the rest of the columns read behind it. *)
Lemma unpack_one nb base rl c cs d d' vs buf buf' :
  layout nb base rl (c :: cs) -> (nb <= base)%nat -> (rl <= length buf)%nat -> is_real_null c buf = false -> length d' = c_len c ->
  (if c_memcpy c then d' = d else value c d' = value c d) ->
  let buf1 := memcpy_at buf (c_offset c) d' in
  length buf' = length buf1 -> (forall i, (i < c_offset c + c_len c \/ rl <= i)%nat -> nth i buf' 0 = nth i buf1 0) -> Forall2 (reads_as buf') cs vs ->
  length buf' = length buf /\ (forall i, (i < base \/ rl <= i)%nat -> nth i buf' 0 = nth i buf 0) /\ Forall2 (reads_as buf') (c :: cs) (Some d :: vs).
Proof.
  intros (Hb & Hpos & Hbit & Hlay) Hnb Hlen Hn Hd' Hval buf1 L N R. pose proof (layout_end _ _ _ _ Hlay) as Hrl.
  assert (Hl1 : length buf1 = length buf) by (apply memcpy_at_length; lia). split; [lia|]. split.
  - intros i Hi. rewrite N by lia. apply nth_memcpy_other; lia.
  - constructor; [|done]. split.
    + rewrite <- Hn. apply is_real_null_ext. destruct (c_null c) as [[k m]|]; [|done]. rewrite N by lia. apply nth_memcpy_other; lia.
    + assert (Hs : slice buf' (c_offset c) (c_len c) = d'); [|by rewrite Hs].
      rewrite <- (slice_memcpy_same buf (c_offset c) d') by lia. rewrite Hd'. fold buf1.
      apply slice_ext; [lia|lia|]. intros i Hi. apply N. lia.
Qed.

Lemma unpack_columns_spec nb base rl cs vs buf :
  unpack_pack -> layout nb base rl cs -> (nb <= base)%nat -> (rl <= length buf)%nat ->
  Forall2 content_ok cs vs ->
  Forall2 (fun c v => is_real_null c buf = match v with None => true | Some _ => false end) cs vs ->
  forall rest, let buf' := unpack_columns cs buf (packed_all cs vs ++ rest) in
  length buf' = length buf /\ (forall i, (i < base \/ rl <= i)%nat -> nth i buf' 0 = nth i buf 0) /\
  Forall2 (reads_as buf') cs vs.
Proof.
  intros Hup. revert base buf vs. induction cs as [|c cs IH]; intros base buf vs Hlay Hnb Hlen Hok Hnull rest.
  { inversion Hok; subst. by cbn. }
  inversion Hok as [|? v ? vs' Hv Hvs]; subst. inversion Hnull as [|? ? ? ? Hn Hns]; subst.
  assert (Hlay0 := Hlay). destruct Hlay as (Hb & Hpos & Hbit & Hlay). pose proof (layout_end _ _ _ _ Hlay) as Hrl.
  cbn [unpack_columns packed_all]. rewrite Hn. destruct v as [d|]; cycle 1.
  { cbn [packed app].
    destruct (IH (c_offset c + c_len c)%nat buf vs' Hlay ltac:(lia) Hlen Hvs Hns rest) as (L & N & R).
    split; [done|]. split; [intros i Hi; apply N; lia|]. constructor; [|done]. cbn.
    rewrite <- Hn. apply is_real_null_ext. destruct (c_null c) as [[k m]|]; [|done]. apply N. destruct Hbit. lia. }
  cbn in Hv.
  assert (Hstep : forall d', length d' = c_len c -> (if c_memcpy c then d' = d else value c d' = value c d) ->
    let buf' := unpack_columns cs (memcpy_at buf (c_offset c) d') (packed_all cs vs' ++ rest) in
    length buf' = length buf /\ (forall i, (i < base \/ rl <= i)%nat -> nth i buf' 0 = nth i buf 0) /\
    Forall2 (reads_as buf') (c :: cs) (Some d :: vs')).
  { intros d' Hd' Hval. assert (Hl1 : length (memcpy_at buf (c_offset c) d') = length buf) by (apply memcpy_at_length; lia).
    destruct (IH (c_offset c + c_len c)%nat (memcpy_at buf (c_offset c) d') vs' Hlay ltac:(lia) ltac:(lia) Hvs) with (rest := rest) as (L & N & R).
    { eapply nulls_ext; [exact Hlay| |exact Hns]. intros i Hi. apply nth_memcpy_other; lia. }
    by apply (unpack_one nb base rl c cs d d'). }
  cbn [packed]. destruct (c_memcpy c) eqn:Hm.
  - rewrite <- app_assoc. destruct (d ++ packed_all cs vs' ++ rest) as [|z l] eqn:E.
    { apply (f_equal length) in E. rewrite length_app in E. cbn in E. lia. }
    rewrite <- E. rewrite (proj2 (Nat.ltb_ge _ _)) by (rewrite length_app; lia).
    rewrite (take_app_exact (c_len c) d), (drop_app_exact (c_len c) d) by done. by apply Hstep.
  - destruct (Hup c d (packed_all cs vs' ++ rest) Hv Hm) as (Hne & d' & Hu & Hd' & Hval). rewrite <- app_assoc.
    destruct (pack c d ++ packed_all cs vs' ++ rest) as [|z l] eqn:E.
    { apply app_eq_nil in E as [E _]. done. }
    rewrite <- E in Hu |- *. rewrite Hu. rewrite (drop_app_exact (length (pack c d)) (pack c d)) by done. by apply Hstep.
Qed.

(** ** The default fill *)

Lemma layout_app nb b rl cs ds :
  layout nb b rl (cs ++ ds) -> exists mid, layout nb b mid cs /\ layout nb mid rl ds.
Proof.
  revert b. induction cs as [|c cs IH]; intros b; cbn.
  - intros H. exists b. split; [done|done].
  - intros (H1 & H2 & H3 & H4). destruct (IH _ H4) as (mid & H5 & H6). exists mid. by repeat split.
Qed.

Lemma layout_mono nb b rl rl' cs : layout nb b rl cs -> (rl <= rl')%nat -> layout nb b rl' cs.
Proof.
  revert b. induction cs as [|c cs IH]; intros b; cbn; [lia|]. intros (? & ? & ? & ?) ?. repeat split; auto.
Qed.

Lemma bits_apart_sym c d : bits_apart c d -> bits_apart d c.
Proof.
  unfold bits_apart. destruct (c_null c) as [[b m]|], (c_null d) as [[b' m']|]; try done.
  rewrite Z.land_comm. intros [|]; [left; congruence|by right].
Qed.

Definition bit_ok (nb : nat) (c : column) : Prop :=
  match c_null c with Some (b, m) => (b < nb)%nat /\ 0 < m < 256 | None => True end.

Lemma clear_bit_self x m : 0 < m < 256 -> u8 (x .& Z.lnot m) .& m = 0.
Proof.
  intros Hm. unfold u8. rewrite <- Z.land_ones by lia. rewrite <- !Z.land_assoc.
  rewrite (Z.land_comm (Z.ones 8)), Z.land_assoc, Z.land_assoc.
  rewrite <- (Z.land_assoc x), (Z.land_comm (Z.lnot m)), Z.land_lnot_diag, Z.land_0_r. apply Z.land_0_l.
Qed.

Lemma set_bit_self x m : 0 < m -> (x .| m) .& m <> 0.
Proof.
  intros Hm. assert (E : (x .| m) .& m = m); [|lia]. apply Z.bits_inj'. intros i Hi.
  rewrite Z.land_spec, Z.lor_spec. by destruct (Z.testbit x i), (Z.testbit m i).
Qed.

Lemma land_lnot_apart m m' : m .& m' = 0 -> Z.lnot m .& m' = m'.
Proof.
  intros H. apply Z.bits_inj'. intros i Hi. rewrite Z.land_spec, Z.lnot_spec by done.
  assert (Hb : Z.testbit (m .& m') i = false) by (rewrite H; apply Z.bits_0).
  rewrite Z.land_spec in Hb. by destruct (Z.testbit m i), (Z.testbit m' i).
Qed.

Lemma other_bit x m m' (b : bool) :
  m .& m' = 0 -> 0 < m' < 256 -> (if b then x .| m else u8 (x .& Z.lnot m)) .& m' = x .& m'.
Proof.
  intros H Hm. destruct b.
  - by rewrite Z.land_lor_distr_l, H, Z.lor_0_r.
  - unfold u8. rewrite <- Z.land_ones by lia. rewrite <- !Z.land_assoc.
    rewrite (Z.land_comm (Z.ones 8) m'), (Z.land_ones m' 8), Z.mod_small by lia.
    by rewrite land_lnot_apart.
Qed.

Lemma nth_memcpy_1 buf b x : (b < length buf)%nat -> nth b (memcpy_at buf b [x]) 0 = x.
Proof.
  intros Hb. unfold memcpy_at. rewrite app_nth2 by (rewrite length_take; lia).
  rewrite length_take, Nat.min_l, Nat.sub_diag by lia. done.
Qed.

(** One column. *)
Lemma fill_default_spec t nb buf c :
  bit_ok nb c -> (nb <= c_offset c)%nat -> (c_offset c + c_len c <= length buf)%nat ->
  (c_offset c + c_len c <= length (default_values t))%nat ->
  let buf' := fill_default t buf c in
  length buf' = length buf /\
  (forall i, (nb <= i)%nat -> (i < c_offset c \/ c_offset c + c_len c <= i)%nat -> nth i buf' 0 = nth i buf 0) /\
  (forall o, bits_apart c o -> bit_ok nb o -> is_real_null o buf' = is_real_null o buf) /\
  is_real_null c buf' = is_real_null c (default_values t) /\
  slice buf' (c_offset c) (c_len c) = slice (default_values t) (c_offset c) (c_len c).
Proof.
  intros Hbit Hnb Hl Hd. cbv zeta. unfold fill_default.
  set (d := slice (default_values t) (c_offset c) (c_len c)).
  assert (Hdl : length d = c_len c) by (apply slice_length; lia).
  set (buf1 := memcpy_at buf (c_offset c) d).
  assert (Hl1 : length buf1 = length buf) by (apply memcpy_at_length; lia).
  assert (Hother : forall i, (i < c_offset c \/ c_offset c + c_len c <= i)%nat -> nth i buf1 0 = nth i buf 0)
    by (intros i Hi; apply nth_memcpy_other; lia).
  assert (Hs1 : slice buf1 (c_offset c) (c_len c) = d) by (rewrite <- Hdl; apply slice_memcpy_same; lia).
  assert (Hn1 : forall o, bit_ok nb o -> is_real_null o buf1 = is_real_null o buf).
  { intros o Ho. apply is_real_null_ext. unfold bit_ok in Ho. destruct (c_null o) as [[k m]|]; [|done].
    apply Hother. lia. }
  destruct (c_null c) as [[b m]|] eqn:Ec.
  2: { split; [done|]. split; [intros; by apply Hother|]. split; [auto|]. split; [|done].
       unfold is_real_null. by rewrite Ec. }
  unfold bit_ok in Hbit. rewrite Ec in Hbit. destruct Hbit as [Hb Hm].
  set (x := nth b buf1 0). set (y := if is_real_null c (default_values t) then x .| m else u8 (x .& Z.lnot m)).
  assert (Hb1 : (b < length buf1)%nat) by lia.
  split; [rewrite memcpy_at_length; cbn; lia|]. split; [|split; [|split]].
  - intros i Hi Ho. rewrite nth_memcpy_other by (cbn; lia). by apply Hother.
  - intros o Ho Hob. rewrite <- Hn1 by done. unfold is_real_null. unfold bits_apart in Ho. rewrite Ec in Ho.
    unfold bit_ok in Hob. destruct (c_null o) as [[b' m']|]; [|done].
    destruct (decide (b = b')) as [<-|Hne].
    + rewrite nth_memcpy_1 by done. unfold y. rewrite other_bit; [done|tauto|tauto].
    + rewrite nth_memcpy_other by (cbn; lia). done.
  - unfold is_real_null at 1. rewrite Ec, nth_memcpy_1 by done. unfold y.
    destruct (is_real_null c (default_values t)).
    + apply negb_true_iff, Z.eqb_neq, set_bit_self. lia.
    + rewrite clear_bit_self by done. done.
  - rewrite <- Hs1. apply slice_memcpy_other; cbn; lia.
Qed.

Lemma fill_defaults_spec t nb base rl ns buf :
  layout nb base rl ns -> (nb <= base)%nat -> (rl <= length buf)%nat -> (rl <= length (default_values t))%nat ->
  StronglySorted bits_apart ns ->
  let buf' := foldl (fill_default t) buf ns in
  length buf' = length buf /\
  (forall i, (nb <= i < base)%nat -> nth i buf' 0 = nth i buf 0) /\
  (forall o, Forall (fun c => bits_apart c o) ns -> bit_ok nb o -> is_real_null o buf' = is_real_null o buf) /\
  Forall (fun c => is_real_null c buf' = is_real_null c (default_values t) /\
    slice buf' (c_offset c) (c_len c) = slice (default_values t) (c_offset c) (c_len c)) ns.
Proof.
  revert base buf. induction ns as [|c ns IH]; intros base buf Hlay Hnb Hl Hd Hs; cbn [foldl].
  { split; [done|]. split; [done|]. split; [done|constructor]. }
  destruct Hlay as (Hb & Hpos & Hbit & Hlay). pose proof (layout_end _ _ _ _ Hlay) as He.
  apply StronglySorted_inv in Hs as [Hs Hc].
  destruct (fill_default_spec t nb buf c) as (L1 & N1 & O1 & D1 & S1); [done|lia|lia|lia|].
  set (buf1 := fill_default t buf c) in *.
  destruct (IH (c_offset c + c_len c)%nat buf1 Hlay) as (L2 & N2 & O2 & D2); [lia|lia|done|done|].
  split; [lia|]. split; [|split].
  - intros i Hi. rewrite N2 by lia. apply N1; lia.
  - intros o Ho Hob. apply List.Forall_cons_iff in Ho as [Ho1 Ho2]. rewrite O2 by done. by apply O1.
  - constructor; [|done]. split.
    + rewrite O2; [done| |done]. eapply List.Forall_impl; [|exact Hc]. intros d. apply bits_apart_sym.
    + rewrite <- S1. apply slice_ext; [lia|lia|]. intros i Hi. apply N2. lia.
Qed.

(** ** Rows across schema versions *)

(** A column of the reader that continues a column of the writer: the same
    packed form and null bit; the offset may differ. *)
Definition same_column (w r : column) : Prop :=
  c_len w = c_len r /\ c_memcpy w = c_memcpy r /\ c_null w = c_null r /\ forall d, pack w d = pack r d.

Definition content (buf : bytes) (c : column) : option bytes :=
  if is_real_null c buf then None else Some (slice buf (c_offset c) (c_len c)).

Lemma pack_columns_app cs ds buf : pack_columns (cs ++ ds) buf = pack_columns cs buf ++ pack_columns ds buf.
Proof. induction cs as [|c cs IH]; [done|]. cbn. by rewrite IH, app_assoc. Qed.

Lemma pack_columns_packed ws rs buf :
  Forall2 same_column ws rs -> pack_columns ws buf = packed_all rs (content buf <$> ws).
Proof.
  induction 1 as [|w r ws rs (E1 & E2 & E3 & E4) _ IH]; [done|]. cbn. rewrite IH. f_equal.
  unfold pack_column, content. destruct (is_real_null w buf); [done|]. cbn. rewrite E2.
  destruct (c_memcpy r); [done|apply E4].
Qed.

Lemma contents_ok nb base ws rs buf :
  Forall2 same_column ws rs -> layout nb base (length buf) ws ->
  Forall2 content_ok rs (content buf <$> ws).
Proof.
  intros Hs. revert base. induction Hs as [|w r ws rs (E1 & _) _ IH]; intros base Hlay; [constructor|].
  destruct Hlay as (_ & _ & _ & Hlay). pose proof (layout_end _ _ _ _ Hlay). cbn.
  constructor; [|by eapply IH]. unfold content. destruct (is_real_null w buf); [done|]. cbn.
  rewrite slice_length by lia. done.
Qed.

Lemma header_read t (row : bytes) :
  Z.of_nat (null_bytes t) < 65536 -> Z.of_nat (length (columns t)) < 65536 ->
  let data := row_header t ++ row in
  (ROW_HEADER_SIZE <= length data)%nat /\ nth 0 data 0 = ROW_HEADER_MAGIC /\
  Z.to_nat (le_combine (slice data 1 2)) = null_bytes t /\
  Z.to_nat (le_combine (slice data 3 2)) = length (columns t) /\ drop 5 data = row.
Proof.
  intros Hn Hf. cbv zeta. unfold row_header.
  set (a := le_split 2 (Z.of_nat (null_bytes t))). set (b := le_split 2 (Z.of_nat (length (columns t)))).
  assert (Ha : length a = 2%nat) by apply le_split_length.
  assert (Hb : length b = 2%nat) by apply le_split_length.
  assert (E : forall x, Z.of_nat x < 65536 -> Z.to_nat (le_combine (le_split 2 (Z.of_nat x))) = x).
  { intros x Hx. rewrite le_combine_split. change (2 ^ (8 * Z.of_nat 2)) with 65536.
    rewrite Z.mod_small by lia. apply Nat2Z.id. }
  split; [unfold ROW_HEADER_SIZE; cbn [length app]; rewrite !length_app; lia|]. split; [done|].
  change (ROW_HEADER_MAGIC :: a ++ b) with ([ROW_HEADER_MAGIC] ++ a ++ b). rewrite <- !app_assoc.
  unfold slice. split; [|split].
  - rewrite (drop_app_exact 1 [ROW_HEADER_MAGIC]), (take_app_exact 2 a) by done. by apply E.
  - rewrite app_assoc, (drop_app_exact 3 ([ROW_HEADER_MAGIC] ++ a)) by (rewrite length_app; cbn; lia).
    rewrite (take_app_exact 2 b) by done. by apply E.
  - rewrite !app_assoc. apply drop_app_exact. rewrite !length_app. cbn. lia.
Qed.

(** A bitmap byte kept from the row. *)
Lemma bitmap_null w r buf buf1 copy_nb :
  same_column w r -> bit_ok copy_nb r ->
  (forall i, (i < copy_nb)%nat -> nth i buf1 0 = nth i buf 0) ->
  is_real_null r buf1 = is_real_null w buf.
Proof.
  intros (_ & _ & E & _) Hb Hsame. unfold is_real_null, bit_ok in *. rewrite E.
  destruct (c_null r) as [[b m]|]; [|done]. destruct Hb. by rewrite Hsame.
Qed.

Lemma layout_bits nb base rl cs : layout nb base rl cs -> Forall (bit_ok nb) cs.
Proof.
  revert base. induction cs as [|c cs IH]; intros base; [constructor|].
  intros (_ & _ & Hb & Hl). constructor; [done|by eapply IH].
Qed.

Record tables_ok (W R : table) : Prop := {
  to_w : layout (null_bytes W) (null_bytes W) (reclength W) (columns W);
  to_r : layout (null_bytes R) (null_bytes R) (reclength R) (columns R);
  to_bits : StronglySorted bits_apart (columns R);
  to_default : length (default_values R) = reclength R;
  to_same : Forall2 same_column (take (length (columns R)) (columns W)) (take (length (columns W)) (columns R));
  to_nb : Z.of_nat (null_bytes W) < 65536;
  to_nf : Z.of_nat (length (columns W)) < 65536
}.

(** The null bitmap after lines 5299-5303. *)
Definition merge_bitmap (R : table) (copy_nb : nat) (out from : bytes) : bytes :=
  let buf := memcpy_at out 0 (take copy_nb from) in
  if Nat.ltb copy_nb (null_bytes R)
  then memcpy_at buf copy_nb (slice (default_values R) copy_nb (null_bytes R - copy_nb)) else buf.

Lemma merge_bitmap_spec R copy_nb out from :
  (copy_nb <= null_bytes R <= length out)%nat -> (copy_nb <= length from)%nat ->
  (null_bytes R <= length (default_values R))%nat ->
  length (merge_bitmap R copy_nb out from) = length out /\
  forall i, (i < copy_nb)%nat -> nth i (merge_bitmap R copy_nb out from) 0 = nth i from 0.
Proof.
  intros H1 H2 H3. unfold merge_bitmap. set (buf := memcpy_at out 0 (take copy_nb from)).
  assert (Hl : length buf = length out) by (apply memcpy_at_length; rewrite length_take; lia).
  assert (Hn : forall i, (i < copy_nb)%nat -> nth i buf 0 = nth i from 0).
  { intros i Hi. unfold buf. rewrite memcpy_at_0, app_nth1 by (rewrite length_take; lia).
    rewrite nth_firstn. by rewrite (proj2 (Nat.ltb_lt _ _)). }
  case_match; [|done]. assert (Hsl : length (slice (default_values R) copy_nb (null_bytes R - copy_nb)) = (null_bytes R - copy_nb)%nat)
    by (apply slice_length; lia).
  split; [rewrite memcpy_at_length; lia|]. intros i Hi. rewrite nth_memcpy_other by lia. by apply Hn.
Qed.

(** The bits of the columns that follow are apart from those before. *)
Lemma bits_split old new : StronglySorted bits_apart (old ++ new) ->
  StronglySorted bits_apart new /\ Forall (fun o => Forall (fun c => bits_apart c o) new) old.
Proof.
  intros Hbits. induction old as [|c old IH]; [split; [done|constructor]|].
  apply StronglySorted_inv in Hbits as [Hs Hc]. destruct (IH Hs) as [H1 H2]. split; [done|].
  constructor; [|done]. apply List.Forall_app in Hc as [_ Hc]. eapply List.Forall_impl; [|exact Hc].
  intros d. apply bits_apart_sym.
Qed.

Lemma layout_region nb b rl cs r : layout nb b rl cs -> List.In r cs -> (b <= c_offset r)%nat /\ (c_offset r + c_len r <= rl)%nat.
Proof.
  revert b. induction cs as [|c cs IH]; intros b Hl Hin; [done|]. destruct Hl as (? & ? & _ & Hl). destruct Hin as [<-|Hin].
  - apply layout_end in Hl. lia.
  - specialize (IH _ Hl Hin). lia.
Qed.

(** Columns that both tables have are null in the new record as they were in the old. *)
Lemma shared_nulls W R buf buf1 buf2 rest ws old new :
  let nb := Nat.min (null_bytes W) (null_bytes R) in
  length (take (null_bytes W) buf) = null_bytes W ->
  Forall2 same_column ws old -> Forall (bit_ok (null_bytes R)) old -> Forall (bit_ok (null_bytes W)) ws ->
  Forall (fun o => Forall (fun c => bits_apart c o) new) old ->
  (forall i, (i < nb)%nat -> nth i buf1 0 = nth i (take (null_bytes W) buf ++ rest) 0) ->
  (forall o, Forall (fun c => bits_apart c o) new -> bit_ok (null_bytes R) o -> is_real_null o buf2 = is_real_null o buf1) ->
  Forall2 (fun c v => is_real_null c buf2 = match v with None => true | Some _ => false end) old (content buf <$> ws).
Proof.
  intros nb Htl Hsame Hbo Hbw Hap N1 O2.
  assert (Hnull1 : forall w r, same_column w r -> bit_ok (null_bytes W) w -> bit_ok (null_bytes R) r -> is_real_null r buf1 = is_real_null w buf).
  { intros w r Hwr Hw Hr. eapply (bitmap_null w r _ _ nb); [done| |].
    - destruct Hwr as (_ & _ & E & _). unfold bit_ok in *. rewrite <- E in Hr |- *.
      destruct (c_null w) as [[b m]|]; [|done]. split; [|tauto]. unfold nb. lia.
    - intros i Hi. rewrite N1 by done. rewrite app_nth1 by lia. rewrite nth_firstn. by rewrite (proj2 (Nat.ltb_lt _ _)) by lia. }
  rewrite Forall2_fmap_r. clear -Hsame Hbo Hbw Hnull1 O2 Hap. apply Forall2_flip.
  induction Hsame as [|w r ws rs Hwr _ IH]; [constructor|].
  apply List.Forall_cons_iff in Hbo as [Hr Hbo], Hbw as [Hw Hbw], Hap as [Ha Hap].
  constructor; [|by apply IH]. unfold flip, compose, content. rewrite O2, (Hnull1 w r) by done. by destruct (is_real_null w buf).
Qed.

Lemma deserialize_serialize W R buf out row :
  unpack_pack -> tables_ok W R -> length buf = reclength W -> length out = reclength R ->
  serialize_row W buf = Some row ->
  let out' := deserialize_row R out row in
  length out' = reclength R /\
  Forall2 (reads_as out') (take (length (columns W)) (columns R))
    (content buf <$> take (length (columns R)) (columns W)) /\
  Forall (fun r => is_real_null r out' = is_real_null r (default_values R) /\
    slice out' (c_offset r) (c_len r) = slice (default_values R) (c_offset r) (c_len r))
    (drop (length (columns W)) (columns R)).
Proof.
  intros Hup [HW HR Hbits Hdef Hsame Hnb Hnf] Hlb Hlo Hser. cbv zeta.
  pose proof (layout_end _ _ _ _ HW) as HeW. pose proof (layout_end _ _ _ _ HR) as HeR.
  unfold serialize_row in Hser. case_match; [|done]. apply (inj Some) in Hser. subst row.
  set (rest := take (null_bytes W) buf ++ pack_columns (columns W) buf).
  destruct (header_read W rest Hnb Hnf) as (Hh1 & Hh2 & Hh3 & Hh4 & Hh5).
  unfold deserialize_row. rewrite (proj2 (Nat.ltb_ge _ _)) by done. rewrite Hh2, Z.eqb_refl. cbn [negb orb].
  rewrite Hh3, Hh4, Hh5.
  assert (Htl : length (take (null_bytes W) buf) = null_bytes W) by (rewrite length_take; lia).
  rewrite (proj2 (Nat.ltb_ge _ _)) by (unfold rest; rewrite length_app; lia).
  set (nb := Nat.min (null_bytes W) (null_bytes R)).
  change (if Nat.ltb nb (null_bytes R) then _ else _) with (merge_bitmap R nb out rest).
  destruct (merge_bitmap_spec R nb out rest) as [L1 N1]; [lia| |lia|].
  { unfold rest. rewrite length_app. lia. }
  set (buf1 := merge_bitmap R nb out rest) in *.
  set (old := take (length (columns W)) (columns R)) in *. set (new := drop (length (columns W)) (columns R)) in *.
  assert (Hon : columns R = old ++ new) by (symmetry; apply take_drop).
  rewrite Hon in HR. destruct (layout_app _ _ _ _ _ HR) as (mid & Lold & Lnew).
  pose proof (layout_end _ _ _ _ Lold) as Hm1. pose proof (layout_end _ _ _ _ Lnew) as Hm2.
  rewrite Hon in Hbits. destruct (bits_split _ _ Hbits) as [Hnew Hapart].
  destruct (fill_defaults_spec R _ _ _ _ buf1 Lnew) as (L2 & N2 & O2 & D2); [lia|lia|lia|done|].
  set (buf2 := foldl (fill_default R) buf1 new) in *.
  assert (Hfrom : drop (null_bytes W) rest = packed_all old (content buf <$> take (length (columns R)) (columns W)) ++
                    pack_columns (drop (length (columns R)) (columns W)) buf).
  { unfold rest. rewrite drop_app_exact by done.
    rewrite <- (take_drop (length (columns R)) (columns W)) at 1.
    rewrite pack_columns_app. by rewrite (pack_columns_packed _ old). }
  rewrite Hfrom.
  destruct (unpack_columns_spec (null_bytes R) (null_bytes R) mid old
              (content buf <$> take (length (columns R)) (columns W)) buf2 Hup Lold ltac:(lia) ltac:(lia))
    with (rest := pack_columns (drop (length (columns R)) (columns W)) buf) as (L3 & N3 & R3).
  { rewrite <- (take_drop (length (columns R)) (columns W)) in HW. rewrite <- Hlb in HW.
    apply layout_app in HW as (midw & HW & HW2). pose proof (layout_end _ _ _ _ HW2).
    eapply contents_ok; [done|]. by eapply layout_mono. }
  { apply (shared_nulls W R buf buf1 buf2 (pack_columns (columns W) buf) _ old new); [done|done|by eapply layout_bits| |done|exact N1|exact O2].
    apply Forall_take. by eapply layout_bits. }
  split; [lia|]. split; [done|].
  apply List.Forall_forall. intros r Hr. apply (proj1 (List.Forall_forall _ _) D2) in Hr as Hd.
  destruct Hd as [Dn Ds]. pose proof (proj1 (List.Forall_forall _ _) (layout_bits _ _ _ _ Lnew) r Hr) as Hbr.
  destruct (layout_region _ _ _ _ r Lnew Hr) as [Hreg1 Hreg2].
  split.
  - rewrite <- Dn. apply is_real_null_ext. unfold bit_ok in Hbr. destruct (c_null r) as [[b m]|]; [|done].
    apply N3. lia.
  - rewrite <- Ds. apply slice_ext; [lia|lia|]. intros i Hi. apply N3. lia.
Qed.

(** ** The buffer is large enough *)

Lemma pack_columns_length nb base rl cs buf :
  pack_bound -> layout nb base rl cs -> (rl <= length buf)%nat ->
  (length (pack_columns cs buf) <=
   (rl - base) + FIELD_VARCHAR_LEN_PREFIX * length cs + blob_lengths cs buf)%nat.
Proof.
  intros Hpb. revert base. induction cs as [|c cs IH]; intros base Hlay Hl; [cbn; lia|].
  destruct Hlay as (Hb & _ & _ & Hlay). pose proof (layout_end _ _ _ _ Hlay) as He.
  specialize (IH _ Hlay Hl). cbn [pack_columns blob_lengths length]. rewrite length_app.
  assert (Hs : length (slice buf (c_offset c) (c_len c)) = c_len c) by (apply slice_length; lia).
  assert (Hc : (length (pack_column c buf) <= c_len c + FIELD_VARCHAR_LEN_PREFIX +
    if c_blob c && negb (is_real_null c buf) then get_length c (slice buf (c_offset c) (c_len c)) else 0)%nat).
  { unfold pack_column. destruct (is_real_null c buf); [cbn; lia|]. destruct (c_memcpy c) eqn:Hm.
    - rewrite Hs. lia.
    - pose proof (Hpb c _ Hs Hm). by rewrite andb_true_r. }
  lia.
Qed.

Lemma serialize_row_total t buf :
  pack_bound -> layout (null_bytes t) (null_bytes t) (reclength t) (columns t) -> length buf = reclength t ->
  is_Some (serialize_row t buf).
Proof.
  intros Hpb Hlay Hl. unfold serialize_row, row_estimate. pose proof (layout_end _ _ _ _ Hlay) as He.
  pose proof (pack_columns_length _ _ _ _ buf Hpb Hlay ltac:(lia)) as Hp.
  rewrite (proj2 (Nat.leb_le _ _)); [done|].
  rewrite !length_app, length_take. unfold row_header. cbn [length].
  rewrite length_app, !le_split_length. unfold ROW_HEADER_SIZE. lia.
Qed.

(** A row outlives a change of its table's columns.  Serializing a record of
    table [W] never runs past the buffer it is given, and reading the image back
    through table [R], whose columns begin with those of [W] or which are the
    first of them (after an instant ADD or DROP COLUMN), gives for every column
    the two have in common exactly the value written, NULL included, and for every
    column [W] did not have the default, with the null bit of the default record,
    whatever bits the old row happened to carry there. *)
Theorem row_survives_alter W R buf out :
  unpack_pack -> pack_bound -> tables_ok W R -> length buf = reclength W -> length out = reclength R ->
  exists row, serialize_row W buf = Some row /\
    let out' := deserialize_row R out row in
    length out' = reclength R /\
    Forall2 (reads_as out') (take (length (columns W)) (columns R))
      (content buf <$> take (length (columns R)) (columns W)) /\
    Forall (fun r => is_real_null r out' = is_real_null r (default_values R) /\
      slice out' (c_offset r) (c_len r) = slice (default_values R) (c_offset r) (c_len r))
      (drop (length (columns W)) (columns R)).
Proof.
  intros Hup Hpb Ht Hb Ho. destruct (serialize_row_total W buf Hpb (to_w _ _ Ht) Hb) as [row Hrow].
  exists row. split; [done|]. by apply deserialize_serialize.
Qed.

End Codec.

(** ** The lifetime of a row (lines 5442-5487) *)

Definition TIDESDB_TTL_NONE : Z := -1.

(** [field] is the value of the table's TTL column: [None] when it has none or
    the value is NULL. *)
Definition compute_row_ttl (field : option Z) (cached_sess_ttl default_ttl : Z) : Z :=
  let ttl_seconds := default 0 field in
  let ttl_seconds :=
    if (ttl_seconds <=? 0) && (0 <? cached_sess_ttl) then i64 cached_sess_ttl else ttl_seconds in
  let ttl_seconds :=
    if (ttl_seconds <=? 0) && (0 <? default_ttl) then i64 default_ttl else ttl_seconds in
  if ttl_seconds <=? 0 then TIDESDB_TTL_NONE else ttl_seconds.

(** The lifetime given to the engine is never zero, and is negative only as
    the value for no expiration: it is the row's own TTL value when positive,
    otherwise the session's when positive, otherwise the table's, otherwise none. *)
Theorem row_ttl_spec field sess dflt :
  0 <= sess < 2 ^ 63 -> 0 <= dflt < 2 ^ 63 ->
  compute_row_ttl field sess dflt =
    match List.find (fun t => 0 <? t) (match field with Some f => [f; sess; dflt] | None => [sess; dflt] end) with
    | Some t => t
    | None => TIDESDB_TTL_NONE
    end.
Proof.
  intros Hs Hd. assert (E : forall z, 0 <= z < 2 ^ 63 -> i64 z = z).
  { intros z Hz. unfold i64. rewrite Z.mod_small; lia. }
  unfold compute_row_ttl. rewrite !E by done.
  destruct field as [f|]; cbn [List.find default from_option id].
  1: destruct (Z.ltb_spec 0 f), (Z.leb_spec f 0); try lia; cbn [andb].
  all: destruct (Z.ltb_spec 0 sess), (Z.ltb_spec 0 dflt); cbn [andb]; rewrite ?andb_false_r, ?andb_true_r.
  all: repeat case_if; lia.
Qed.

Lemma row_ttl_spec_witness :
  compute_row_ttl (Some 0) 0 3600 = 3600 /\ compute_row_ttl (Some 5) 60 3600 = 5.
Proof.
  split.
  - rewrite (row_ttl_spec (Some 0) 0 3600) by lia. reflexivity.
  - rewrite (row_ttl_spec (Some 5) 60 3600) by lia. reflexivity.
Defined.

(** ** Witness: a column added to a two-column table *)

Definition demo_pack (c : column) (d : bytes) : bytes := Z.of_nat (length d) :: d.
Definition demo_unpack (c : column) (bs : bytes) : option (bytes * nat) :=
  match bs with [] => None | _ :: r => Some (take (c_len c) r, S (c_len c)) end.
Definition demo_value (c : column) (d : bytes) : bytes := d.
Definition demo_length (c : column) (d : bytes) : nat := 0.

Lemma demo_unpack_pack : unpack_pack demo_pack demo_unpack demo_value.
Proof.
  intros c d rest Hd _. split; [done|]. exists d. unfold demo_pack. cbn [app demo_unpack length].
  rewrite take_app_exact by done. by rewrite Hd.
Qed.

Lemma demo_pack_bound : pack_bound demo_pack demo_length.
Proof. intros c d Hd _. unfold demo_pack, FIELD_VARCHAR_LEN_PREFIX. cbn. destruct (c_blob c); lia. Qed.

Definition demo_c1 := mk_column 1 2 true false None.
Definition demo_c2 := mk_column 3 2 false false (Some (0%nat, 1)).
Definition demo_c3 := mk_column 5 1 true false (Some (0%nat, 2)).
Definition demo_W := mk_rtable 1 5 [demo_c1; demo_c2] [255; 0; 0; 0; 0].
Definition demo_R := mk_rtable 1 6 [demo_c1; demo_c2; demo_c3] [253; 0; 0; 0; 0; 42].

Lemma demo_tables_ok : tables_ok demo_pack demo_W demo_R.
Proof.
  split; try done.
  - cbn. repeat split; lia.
  - cbn. repeat split; lia.
  - repeat constructor; cbn; right; reflexivity.
  - repeat constructor.
Qed.

(** The old row carries a set bit where the new column's null bit is. *)
Lemma row_survives_alter_witness :
  exists row, serialize_row demo_pack demo_length demo_W [254; 7; 8; 9; 10] = Some row /\
    deserialize_row demo_unpack demo_R (replicate 6 0) row = [252; 7; 8; 9; 10; 42] /\
    is_real_null demo_c3 (deserialize_row demo_unpack demo_R (replicate 6 0) row) = false.
Proof.
  destruct (row_survives_alter demo_pack demo_unpack demo_value demo_length demo_W demo_R
              [254; 7; 8; 9; 10] (replicate 6 0) demo_unpack_pack demo_pack_bound demo_tables_ok
              eq_refl eq_refl) as (row & Hs & _ & _ & Hn).
  exists row. split; [exact Hs|]. apply List.Forall_inv in Hn as [Hn _]. split; [|exact Hn].
  vm_compute in Hs. apply (inj Some) in Hs. subst row. reflexivity.
Defined.
