(* ===== verification/RowImage.v ===== *)
(** * Stored rows and the buffers behind them (ha_tidesdb.cc 5235-5268, 5371-5438, 5500-5530)

    What [serialize_row] hands to the engine and what the fetches make of it: rows of encrypted
    tables, with the key version a statement keeps, and the strings that the BLOB fields of a
    record point into.  [last_row] stands behind every record but [record[1]], whose rows are
    kept in [last_row2], so that a fetch into one record leaves the BLOBs of the other. *)

From Stdlib Require Import ZArith Lia.
From stdpp Require Import base tactics list numbers gmap.
From S2P Require Import Prelude MasterKey RowCodec.

(** ** Encrypted rows *)

(** [share->encryption_key_version], [cached_enc_key_ver_] and [enc_key_ver_valid_]. *)
Record version_cache := mk_versions { share_version : Z; cached_version : Z; version_valid : bool }.

(** Lines 5242-5255: one look at the key store per statement. *)
Definition use_version (ks : key_store) (v : version_cache) : version_cache :=
  if version_valid v then v
  else let cur_ver := encryption_key_get_latest_version ks in
       if negb (cur_ver =? ENCRYPTION_KEY_VERSION_INVALID) then mk_versions cur_ver cur_ver true
       else mk_versions (share_version v) (share_version v) true.

(** [external_lock] at the start of a statement. *)
Definition start_versions (v : version_cache) : version_cache := mk_versions (share_version v) (cached_version v) false.

Section Stored.

Variables (pack : column -> bytes -> bytes) (unpack : column -> bytes -> option (bytes * nat)).
Variables (value : column -> bytes -> bytes) (get_length : column -> bytes -> nat).
Variables (my_aes_encrypt my_aes_decrypt : bytes -> bytes -> bytes -> Z * bytes).

(** The row that is stored, empty when encryption failed; [None] when the image runs past its
    buffer.  [iv] is what the random generator delivers. *)
Definition stored_row (encrypted : bool) (t : table) (buf : bytes) (iv : option bytes) (thread : nat) (ks : key_store) (v : version_cache)
    : option bytes * key_store * version_cache :=
  match serialize_row pack get_length t buf with
  | None => (None, ks, v)
  | Some row =>
    if encrypted then
      let v := use_version ks v in
      let '(out, ks) := tidesdb_encrypt_row_into my_aes_encrypt my_aes_decrypt row iv thread ks in
      (Some (default [] out), ks, v)
    else (Some row, ks, v)
  end.

(** Lines 5373-5393: the record, filled with zeros when the row cannot be decrypted. *)
Definition load_row (encrypted : bool) (t : table) (buf row : bytes) (thread : nat) (ks : key_store) : bytes * key_store :=
  if encrypted then
    let '(plain, ks) := tidesdb_decrypt_row my_aes_encrypt my_aes_decrypt row thread ks in
    (if bool_decide (plain = []) then replicate (reclength t) 0 else deserialize_row unpack t buf plain, ks)
  else (deserialize_row unpack t buf row, ks).

Lemma serialize_row_shape t buf row : serialize_row pack get_length t buf = Some row ->
  row <> [] /\ (length row <= row_estimate get_length t buf)%nat.
Proof.
  unfold serialize_row. case_match eqn:El; [|done]. intros He. apply (inj Some) in He. subst row. split; [done|]. by apply Nat.leb_le.
Qed.

(** What encryption makes of a row. *)
Lemma encrypt_runs n st plain iv thread : aes_ok my_aes_encrypt my_aes_decrypt -> key_inv n st -> g_master_key_loaded st = true ->
  length iv = 16%nat -> Z.of_nat (length plain) <= AES_MAX_PLAIN ->
  exists c st1, tidesdb_encrypt_row_into my_aes_encrypt my_aes_decrypt plain (Some iv) thread st = (Some (iv ++ c), st1) /\
    c <> [] /\ my_aes_decrypt c (g_master_key st) iv = (Z.of_nat (length plain), plain).
Proof.
  intros Haes I Hl Hiv Hsz. destruct (Haes plain (g_master_key st) iv (ki_len _ _ I) Hiv Hsz) as (c & Hc & Hd & Hlen).
  assert (Hmax : Z.of_nat (length plain) <= TIDESDB_ENCRYPT_MAX_PLAIN) by (unfold TIDESDB_ENCRYPT_MAX_PLAIN, AES_MAX_PLAIN in *; lia).
  destruct (key_get_spec n st thread I) as (E1 & K1 & L1). unfold tidesdb_encrypt_row_into.
  destruct (encryption_key_get thread st) as [k st1]. cbn [fst snd] in *. rewrite Hl in E1, L1. subst k.
  rewrite (proj2 (Z.ltb_ge _ _)) by done. rewrite (crypt_runs my_aes_encrypt my_aes_decrypt true plain (g_master_key st) iv c st1 (ki_len _ _ I) Hiv L1 Hc).
  pose proof (Z.div_pos (Z.of_nat (length plain)) 16). rewrite encrypted_length_exact by lia. rewrite (proj2 (Z.leb_le _ _)) by lia.
  exists c, st1. split; [done|]. split; [|done]. intros ->. cbn in Hlen. lia.
Qed.

Lemma decrypt_runs n st plain iv c thread : key_inv n st -> g_master_key_loaded st = true -> length iv = 16%nat -> c <> [] ->
  my_aes_decrypt c (g_master_key st) iv = (Z.of_nat (length plain), plain) ->
  fst (tidesdb_decrypt_row my_aes_encrypt my_aes_decrypt (iv ++ c) thread st) = plain.
Proof.
  intros I Hl Hiv Hc Hd. unfold tidesdb_decrypt_row. rewrite (proj2 (Nat.leb_gt _ _)).
  2: { rewrite length_app, Hiv. unfold TIDESDB_ENC_IV_LEN. destruct c; [done|]. cbn. lia. }
  destruct (key_get_spec n st thread I) as (E1 & K1 & L1). destruct (encryption_key_get thread st) as [k st1]. cbn [fst snd] in *.
  rewrite Hl in E1, L1. subst k. unfold TIDESDB_ENC_IV_LEN. rewrite take_app_exact, drop_app_exact by done.
  by rewrite (crypt_runs my_aes_encrypt my_aes_decrypt false c (g_master_key st) iv plain st1 (ki_len _ _ I) Hiv L1 Hd).
Qed.

(** Columns that both tables have read as they were written, others as the defaults. *)
Definition row_kept (W R : table) (buf out' : bytes) : Prop :=
  length out' = reclength R /\
  Forall2 (reads_as value out') (take (length (columns W)) (columns R)) (content buf <$> take (length (columns R)) (columns W)) /\
  Forall (fun r => is_real_null r out' = is_real_null r (default_values R) /\
    slice out' (c_offset r) (c_len r) = slice (default_values R) (c_offset r) (c_len r))
    (drop (length (columns W)) (columns R)).

(** C20: a stored row reads back.  The record of a table [W], encrypted or not, is written within
    its buffer and is not empty; read later, on any thread, through a table [R] that has the same
    columns or some more or less at its end, with the master key that it was written with loaded
    again in whatever way, it gives the values written and the defaults of the columns [W] did
    not have.  A row to encrypt is at most 2^31-17 bytes long, for which the cipher's
    [int] holds the length.  Without the key, or when the cipher fails, nothing is
    encrypted: the row to store is empty, which [write_row] and [update_row] refuse. *)
Theorem stored_row_reads_back (n m : nat) (st st' : key_store) (enc : bool) (W R : table) (buf out iv : bytes) (t1 t2 : nat) (v : version_cache)
    (Hup : unpack_pack pack unpack value) (Hpb : pack_bound pack get_length) (Haes : aes_ok my_aes_encrypt my_aes_decrypt)
    (Ht : tables_ok pack W R) (Hb : length buf = reclength W) (Ho : length out = reclength R)
    (Hiv : length iv = 16%nat) (Hsz : enc = true -> Z.of_nat (row_estimate get_length W buf) <= AES_MAX_PLAIN)
    (Hr : key_reachable n st) (Hr' : key_reachable m st') (Hn : Z.of_nat n < 2 ^ 64) (Hm : Z.of_nat m < 2 ^ 64) :
  exists row ks v', stored_row enc W buf (Some iv) t1 st v = (Some row, ks, v') /\
    (enc = true -> g_master_key_loaded st = false -> row = []) /\
    (enc = true -> g_master_key_loaded st = true -> row <> []) /\
    ((enc = true -> g_master_key_loaded st = true /\ g_master_key_loaded st' = true /\ g_master_key st' = g_master_key st) ->
     row_kept W R buf (fst (load_row enc R out row t2 st'))).
Proof.
  assert (I : key_inv n st) by (by apply key_inv_reachable). assert (I' : key_inv m st') by (by apply key_inv_reachable).
  destruct (serialize_row_total pack get_length W buf Hpb (to_w _ _ _ Ht) Hb) as [row Hrow]. unfold stored_row. rewrite Hrow.
  pose proof (deserialize_serialize pack unpack value get_length W R buf out row Hup Ht Hb Ho Hrow) as Hback. fold (row_kept W R buf (deserialize_row unpack R out row)) in Hback.
  destruct enc; [|exists row, st, v; split; [done|]; split; [done|]; split; [done|]; intros _; exact Hback].
  assert (Hlen : Z.of_nat (length row) <= AES_MAX_PLAIN).
  { destruct (serialize_row_shape W buf row Hrow). specialize (Hsz eq_refl). lia. }
  destruct (g_master_key_loaded st) eqn:Hl.
  - destruct (encrypt_runs n st row iv t1 Haes I Hl Hiv Hlen) as (c & st1 & He & Hc & Hd). rewrite He. exists (iv ++ c), st1, (use_version st v). split; [done|].
    split; [done|]. split; [intros _ _; by destruct iv|]. intros Hk. destruct (Hk eq_refl) as (_ & Hl' & Hkey). unfold load_row.
    pose proof (decrypt_runs m st' row iv c t2 I' Hl' Hiv Hc ltac:(by rewrite Hkey)) as Hdec.
    destruct (tidesdb_decrypt_row my_aes_encrypt my_aes_decrypt (iv ++ c) t2 st') as [p ks]. cbn [fst] in Hdec |- *. subst p.
    rewrite bool_decide_false; [exact Hback|]. by destruct (serialize_row_shape W buf row Hrow).
  - destruct (key_get_spec n st t1 I) as (E1 & _ & _). unfold tidesdb_encrypt_row_into. destruct (encryption_key_get t1 st) as [k st1].
    cbn in E1. rewrite Hl in E1. subst k. eexists [], st1, _. split; [done|]. split; [done|]. split; [done|]. intros Hk. by destruct (Hk eq_refl).
Qed.

End Stored.

(** The version is looked up once per statement: later keys do not change it. *)
Lemma version_fixed ks ks' v : use_version ks' (use_version ks v) = use_version ks v.
Proof. unfold use_version. destruct (version_valid v) eqn:E; [by rewrite E|]. by destruct (negb _). Qed.

(** A row that cannot be decrypted becomes a record of zeros. *)
Lemma undecrypted_zeros unpack enc dec t buf row thread ks : fst (tidesdb_decrypt_row enc dec row thread ks) = [] ->
  fst (load_row unpack enc dec true t buf row thread ks) = replicate (reclength t) 0.
Proof. unfold load_row. destruct (tidesdb_decrypt_row enc dec row thread ks) as [p ks']. cbn. intros ->. by rewrite bool_decide_true. Qed.

(** ** The strings behind the records *)

Inductive backing := LastRow | LastRow2.
#[export] Instance backing_eq_dec : EqDecision backing.
Proof. solve_decision. Defined.

(** A string has an age, which grows whenever it is assigned: pointers into it are good for one
    age only.  A record that was fetched holds the row it should show and, when the table has
    BLOBs, where its pointers lead. *)
Record fetched := mk_fetched { f_row : bytes; f_ptr : option (backing * nat) }.

Record fetch_state := mk_fs {
  strings : backing -> nat * bytes;
  records : gmap Z fetched                (* by the address of the record *)
}.

Definition assign (b : backing) (v : bytes) (st : fetch_state) : fetch_state :=
  mk_fs (fun b' => if bool_decide (b' = b) then (S (strings st b).1, v) else strings st b') (records st).

(** [record1_lo_] and [record1_hi_]; [None] without a second record. *)
Definition is_rec1 (bounds : option (Z * Z)) (buf : Z) : bool :=
  match bounds with Some (lo, hi) => (lo <=? buf) && (buf <? hi) | None => false end.

Definition record_bounds (record1 : option Z) (reclength : Z) : option (Z * Z) :=
  match record1 with Some lo => Some (lo, lo + reclength) | None => None end.

Section Fetch.

Variables (has_blobs encrypted : bool) (bounds : option (Z * Z)).
Variable decrypt : bytes -> bytes.

Definition set_record (buf : Z) (row : bytes) (p : option (backing * nat)) (st : fetch_state) : fetch_state :=
  mk_fs (strings st) (<[buf := mk_fetched row p]> (records st)).

(** [deserialize_row] from a string: an encrypted row is decrypted into [last_row]. *)
Definition deserialize_from (buf : Z) (b : backing) (st : fetch_state) : fetch_state :=
  let point st b row := set_record buf row (if has_blobs then Some (b, (strings st b).1) else None) st in
  if encrypted then
    let decrypted := decrypt (strings st b).2 in
    if bool_decide (decrypted = []) then set_record buf [] None st
    else let st := assign LastRow decrypted st in point st LastRow decrypted
  else point st b (strings st b).2.

(** The tail of [fetch_row_by_pk] and of [iter_read_current]. *)
Definition fetch_into (buf : Z) (value : bytes) (st : fetch_state) : fetch_state :=
  if negb has_blobs && negb encrypted then set_record buf value None st
  else
    let b := if is_rec1 bounds buf then LastRow2 else LastRow in
    deserialize_from buf b (assign b value st).

(** The BLOBs of a record: its pointers lead to the bytes they were made for. *)
Definition blobs_good (st : fetch_state) (r : fetched) : Prop :=
  match f_ptr r with None => True | Some (b, age) => strings st b = (age, f_row r) end.

(** Of the fetches so far: the last one into [record[1]] and the last one elsewhere. *)
Fixpoint last_fetch (rec1 : bool) (fs : list (Z * bytes)) : option (Z * bytes) :=
  match fs with
  | [] => None
  | f :: fs => match last_fetch rec1 fs with
               | Some g => Some g
               | None => if Bool.eqb (is_rec1 bounds f.1) rec1 then Some f else None
               end
  end.

Definition run_fetches (fs : list (Z * bytes)) (st : fetch_state) : fetch_state :=
  foldl (fun st f => fetch_into f.1 f.2 st) st fs.

(** What a record shows after a fetch. *)
Definition shown (value : bytes) : bytes := if encrypted then decrypt value else value.

Definition backing_of (rec1 : bool) : backing := if rec1 then LastRow2 else LastRow.

Definition record_good (st : fetch_state) (buf : Z) (value : bytes) : Prop :=
  exists r, records st !! buf = Some r /\ f_row r = shown value /\ blobs_good st r.

Lemma assign_same b v st : strings (assign b v st) b = (S (strings st b).1, v).
Proof. cbn. by rewrite bool_decide_true. Qed.

Lemma assign_other b b' v st : b' <> b -> strings (assign b v st) b' = strings st b'.
Proof. intros Hne. cbn. by rewrite bool_decide_false. Qed.

Lemma set_record_good buf row p st : (match p with None => True | Some (b, age) => strings st b = (age, row) end) ->
  exists r, records (set_record buf row p st) !! buf = Some r /\ f_row r = row /\ blobs_good (set_record buf row p st) r.
Proof. intros Hp. eexists. split; [apply lookup_insert_eq|]. split; [done|]. unfold blobs_good. cbn. by destruct p as [[]|]. Qed.

Lemma fetch_new buf value st : record_good (fetch_into buf value st) buf value.
Proof.
  unfold record_good, fetch_into, deserialize_from, shown. destruct encrypted, has_blobs; cbn [negb andb].
  all: try (rewrite assign_same; cbn [snd]); try case_bool_decide as Hd; try rewrite Hd; apply set_record_good; try done.
  all: by rewrite assign_same.
Qed.

(** Where the pointers of a record lead, with a table that is not encrypted or has no BLOBs. *)
Definition points_home (st : fetch_state) (buf : Z) (value : bytes) : Prop :=
  exists r, records st !! buf = Some r /\ f_row r = shown value /\
    match f_ptr r with
    | None => True
    | Some (b, age) => encrypted = false /\ b = backing_of (is_rec1 bounds buf) /\ strings st b = (age, f_row r)
    end.

Lemma home_good st buf value : points_home st buf value -> record_good st buf value.
Proof. intros (r & Hr & Hs & Hp). exists r. split; [done|]. split; [done|]. unfold blobs_good. destruct (f_ptr r) as [[b age]|]; [tauto|done]. Qed.

Lemma fetch_home buf value st : encrypted = false \/ has_blobs = false -> points_home (fetch_into buf value st) buf value.
Proof.
  intros Hcase. unfold points_home, fetch_into, deserialize_from, shown, backing_of. destruct encrypted, has_blobs; cbn [negb andb]; [by destruct Hcase|..].
  all: try (rewrite assign_same; cbn [snd]); try case_bool_decide as Hd; try rewrite Hd.
  all: eexists; split; [apply lookup_insert_eq|]; split; [done|]; cbn [f_ptr f_row set_record strings]; try done.
  split; [done|]. split; [done|]. by rewrite assign_same.
Qed.

Lemma fetch_elsewhere buf value st buf' value' : is_rec1 bounds buf <> is_rec1 bounds buf' -> points_home st buf' value' ->
  points_home (fetch_into buf value st) buf' value'.
Proof.
  intros Hne (r & Hr & Hs & Hp). assert (Hb : buf <> buf') by congruence. exists r.
  split; [unfold fetch_into, deserialize_from; repeat case_match; cbn; by rewrite lookup_insert_ne|]. split; [done|].
  destruct (f_ptr r) as [[b age]|]; [|done]. destruct Hp as (He & -> & Hp). split; [done|]. split; [done|].
  unfold fetch_into, deserialize_from. rewrite He. destruct has_blobs; cbn [negb andb set_record strings]; [|done].
  rewrite assign_other; [done|]. unfold backing_of. by destruct (is_rec1 bounds buf), (is_rec1 bounds buf').
Qed.

Lemma last_fetch_snoc rec1 fs f : last_fetch rec1 (fs ++ [f]) = if Bool.eqb (is_rec1 bounds f.1) rec1 then Some f else last_fetch rec1 fs.
Proof.
  induction fs as [|g fs IH]; cbn; [done|]. rewrite IH. destruct (Bool.eqb (is_rec1 bounds f.1) rec1); [done|]. done.
Qed.

Lemma last_fetch_class rec1 fs buf value : last_fetch rec1 fs = Some (buf, value) -> is_rec1 bounds buf = rec1.
Proof.
  induction fs as [|f fs IH]; cbn; [done|]. destruct (last_fetch rec1 fs); [intros [= ->]; by apply IH|].
  destruct (Bool.eqb (is_rec1 bounds f.1) rec1) eqn:E; [|done]. intros [= ->]. by apply Bool.eqb_prop in E.
Qed.

(** C21: the BLOBs of the two records do not disturb each other.  After any sequence of fetches,
    the last record filled in [record[1]] and the last one filled elsewhere both show the rows
    they were filled from, and the pointers of their BLOBs lead into a string that still holds
    them, for tables that are not encrypted or have no BLOBs; for encrypted tables with BLOBs as
    long as nothing was fetched into [record[1]]. *)
Theorem blobs_of_both_records (fs : list (Z * bytes)) (st : fetch_state) (rec1 : bool) (buf : Z) (value : bytes) :
  encrypted = false \/ has_blobs = false \/ Forall (fun f => is_rec1 bounds f.1 = false) fs ->
  last_fetch rec1 fs = Some (buf, value) -> record_good (run_fetches fs st) buf value.
Proof.
  intros [Hc|[Hc|Hc]].
  1,2: intros Hl; apply home_good; revert Hl; unfold run_fetches; induction fs as [|f fs IH] using rev_ind; [done|]; rewrite last_fetch_snoc, foldl_snoc;
    destruct (Bool.eqb (is_rec1 bounds f.1) rec1) eqn:E; [intros [= ->]; apply fetch_home; auto|]; intros Hl; apply fetch_elsewhere; [|by apply IH];
    rewrite (last_fetch_class _ _ _ _ Hl); intros He; by rewrite He, Bool.eqb_reflx in E.
  intros Hl. destruct fs as [|f fs _] using rev_ind; [done|]. rewrite last_fetch_snoc in Hl. apply Forall_app in Hc as [Hc Hf].
  apply Forall_cons in Hf as [Hf _]. rewrite Hf in Hl. unfold run_fetches. rewrite foldl_snoc. destruct rec1; cbn [Bool.eqb] in Hl.
  - exfalso. pose proof (last_fetch_class _ _ _ _ Hl) as Hx. clear -Hl Hc Hx. induction fs as [|g fs IH]; [done|]. cbn in Hl. apply Forall_cons in Hc as [Hg Hc].
    destruct (last_fetch true fs) as [g'|]; [simplify_eq; by apply IH|]. rewrite Hg in Hl. done.
  - injection Hl as ->. apply fetch_new.
Qed.

End Fetch.

(** ** Examples *)

Definition no_fetch : fetch_state := mk_fs (fun _ => (0%nat, [])) ∅.
Definition two_fetches : list (Z * bytes) := [(1000, [65]); (2000, [66])].

Lemma blobs_of_both_records_witness : record_good false id (run_fetches true false (Some (2000, 2010)) id two_fetches no_fetch) 1000 [65].
Proof. apply (blobs_of_both_records true false (Some (2000, 2010)) id two_fetches no_fetch false 1000 [65]); [by left|reflexivity]. Defined.

(** In an encrypted table with BLOBs the row for [record[1]] is decrypted into the string that the
    BLOBs of [record[0]] point into. *)
Lemma encrypted_blobs_dangle :
  let st := run_fetches true true (Some (2000, 2010)) id two_fetches no_fetch in
  exists r, records st !! 1000 = Some r /\ f_row r = [65] /\ ~ blobs_good st r.
Proof. eexists. split; [vm_compute; reflexivity|]. split; [done|]. unfold blobs_good. cbn. by vm_compute. Qed.

Lemma stored_row_reads_back_witness :
  exists row ks v', stored_row demo_pack demo_length toy_encrypt toy_decrypt true demo_W [254; 7; 8; 9; 10] (Some (replicate 16 9)) 1 demo_store
      (mk_versions 0 0 false) = (Some row, ks, v') /\ row <> [] /\
    row_kept demo_value demo_W demo_R [254; 7; 8; 9; 10] (fst (load_row demo_unpack toy_encrypt toy_decrypt true demo_R (replicate 6 0) row 2 demo_store)).
Proof.
  destruct (stored_row_reads_back demo_pack demo_unpack demo_value demo_length toy_encrypt toy_decrypt 1 1 demo_store demo_store true demo_W demo_R
              [254; 7; 8; 9; 10] (replicate 6 0) (replicate 16 9) 1 2 (mk_versions 0 0 false) demo_unpack_pack demo_pack_bound toy_ok demo_tables_ok
              eq_refl eq_refl eq_refl ltac:(unfold AES_MAX_PLAIN; cbn; lia) demo_reachable demo_reachable ltac:(lia) ltac:(lia))
    as (row & ks & v' & H1 & _ & H2 & H3).
  exists row, ks, v'. split; [exact H1|]. split; [by apply H2|]. apply H3. intros _. split; [reflexivity|]. split; reflexivity.
Defined.
