(* ===== verification/Txn.v ===== *)
(** * Transactions (ha_tidesdb.cc 1984-2560, 9430-9470)

    The per-connection transaction object [tidesdb_trx_t] and the handlerton
    hooks that move it: creation and reuse, savepoints, the two phases of a
    commit, rollback, the flush before a DDL operation and the end of the
    connection.  The engine's transactions are behind an interface: a handle with
    its state, the change to the data that committing it makes, and the engine's
    visible data and undecided prepared transactions, with the laws the plugin
    relies on.  A hook takes and returns the connection and the engine. *)

From Stdlib Require Import ZArith Lia String.
From stdpp Require Import base tactics list numbers gmap sets relations.
From S2P Require Import Prelude Errors Xid Options.

Inductive tidesdb_txn_state_t :=
| TDB_TXN_STATE_ACTIVE | TDB_TXN_STATE_PREPARED | TDB_TXN_STATE_COMMITTED | TDB_TXN_STATE_ABORTED.

#[export] Instance txn_state_eq_dec : EqDecision tidesdb_txn_state_t.
Proof. solve_decision. Defined.

(** ** The engine's interface *)

(** [E] is the engine, [T] a transaction handle, [D] the committed data. *)
Class TxnEngine (E T D : Type) := {
  txn_begin : tidesdb_isolation_level_t -> E -> (tdb_rc * T) * E;
  txn_reset : T -> tidesdb_isolation_level_t -> E -> (tdb_rc * T) * E;
  txn_free : T -> E -> E;
  txn_commit : T -> E -> (tdb_rc * T) * E;
  txn_rollback : T -> E -> T * E;
  txn_prepare : T -> bytes -> E -> (tdb_rc * T) * E;
  txn_commit_prepared : T -> E -> (tdb_rc * T) * E;
  txn_rollback_prepared : T -> E -> (tdb_rc * T) * E;
  txn_state : T -> option tidesdb_txn_state_t;      (* [None]: the call fails *)
  txn_savepoint : T -> Z -> tdb_rc * T;
  txn_rollback_to_savepoint : T -> Z -> tdb_rc * T;
  txn_release_savepoint : T -> Z -> tdb_rc * T;
  data : E -> D;
  in_doubt : E -> gset bytes;                        (* XIDs prepared and undecided *)
  effect : T -> D -> D;                              (* what committing does *)
  txn_xid : T -> bytes                               (* of a prepared handle *)
}.

Definition kept `{TxnEngine E T D} (e e' : E) : Prop := data e' = data e /\ in_doubt e' = in_doubt e.

Class TxnLaws (E T D : Type) `{TxnEngine E T D} := {
  begin_law iso e rc t e' : txn_begin iso e = (rc, t, e') ->
    kept e e' /\ (rc = TDB_SUCCESS -> txn_state t = Some TDB_TXN_STATE_ACTIVE /\ forall d, effect t d = d);
  reset_law t iso e rc t' e' : txn_reset t iso e = (rc, t', e') ->
    kept e e' /\ (rc = TDB_SUCCESS -> txn_state t' = Some TDB_TXN_STATE_ACTIVE /\ forall d, effect t' d = d);
  free_law t e : kept e (txn_free t e);
  commit_law t e rc t' e' : txn_commit t e = (rc, t', e') ->
    in_doubt e' = in_doubt e /\
    (rc = TDB_SUCCESS -> data e' = effect t (data e) /\ txn_state t' = Some TDB_TXN_STATE_COMMITTED) /\
    (rc <> TDB_SUCCESS -> data e' = data e);
  rollback_law t e t' e' : txn_rollback t e = (t', e') -> kept e e';
  prepare_law t x e rc t' e' : txn_prepare t x e = (rc, t', e') ->
    data e' = data e /\
    (rc <> TDB_SUCCESS -> in_doubt e' = in_doubt e) /\
    (rc = TDB_SUCCESS ->
      (txn_state t' = Some TDB_TXN_STATE_PREPARED /\ in_doubt e' = {[x]} ∪ in_doubt e /\ txn_xid t' = x /\
        forall d, effect t' d = effect t d) \/
      (txn_state t' = Some TDB_TXN_STATE_COMMITTED /\ in_doubt e' = in_doubt e /\ forall d, effect t d = d));
  commit_prepared_law t e rc t' e' : txn_state t = Some TDB_TXN_STATE_PREPARED ->
    txn_commit_prepared t e = (rc, t', e') ->
    (rc = TDB_SUCCESS -> data e' = effect t (data e) /\ in_doubt e' = in_doubt e ∖ {[txn_xid t]} /\
      txn_state t' = Some TDB_TXN_STATE_COMMITTED) /\
    (rc <> TDB_SUCCESS -> kept e e' /\ t' = t);
  rollback_prepared_law t e rc t' e' : txn_state t = Some TDB_TXN_STATE_PREPARED ->
    txn_rollback_prepared t e = (rc, t', e') ->
    data e' = data e /\
    (rc = TDB_SUCCESS -> in_doubt e' = in_doubt e ∖ {[txn_xid t]} /\ txn_state t' = Some TDB_TXN_STATE_ABORTED) /\
    (rc <> TDB_SUCCESS -> in_doubt e' = in_doubt e /\ t' = t);
  release_law t n : let t' := (txn_release_savepoint t n).2 in
    txn_state t' = txn_state t /\ txn_xid t' = txn_xid t /\ forall d, effect t' d = effect t d
}.

(** ** The connection *)

(** The savepoint the statement code names, apart from the SQL savepoints
    [sv_%p], whose names are the addresses of their slots. *)
Definition stmt_name : Z := -1.

Section Hooks.

Context {E T D : Type} `{TxnEngine E T D}.

Record tidesdb_trx_t := mk_trx {
  txn : option T;
  dirty : bool;
  stmt_savepoint_active : bool;
  stmt_was_dirty : bool;
  needs_reset : bool;
  isolation_level : tidesdb_isolation_level_t;
  txn_generation : Z;
  row_locks : nat                       (* row locks held *)
}.

(** [thd_get_ha_data]: [None] until the first statement. *)
Definition conn : Type := option tidesdb_trx_t * E.

Definition set_txn (x : tidesdb_trx_t) (t : option T) : tidesdb_trx_t :=
  mk_trx t (dirty x) (stmt_savepoint_active x) (stmt_was_dirty x) (needs_reset x) (isolation_level x)
    (txn_generation x) (row_locks x).
Definition bump (x : tidesdb_trx_t) : Z := u64 (txn_generation x + 1).

(** Lines 1989-2060; [alloc] tells whether [my_malloc] delivers. *)
Definition get_or_create_trx (alloc : bool) (iso : tidesdb_isolation_level_t) (c : conn)
    : bool * conn :=
  let '(ox, e) := c in
  match ox with
  | Some x =>
    match txn x with
    | None =>
      let '(rc, t, e) := txn_begin iso e in
      if bool_decide (rc = TDB_SUCCESS)
      then (true, (Some (mk_trx (Some t) false (stmt_savepoint_active x) (stmt_was_dirty x) (needs_reset x)
                           iso (bump x) (row_locks x)), e))
      else (false, (Some x, e))
    | Some t =>
      if needs_reset x then
        let fresh t' := mk_trx (Some t') (dirty x) (stmt_savepoint_active x) (stmt_was_dirty x) false iso
                          (bump x) (row_locks x) in
        let '(rrc, t, e) := txn_reset t iso e in
        if bool_decide (rrc = TDB_SUCCESS) then (true, (Some (fresh t), e))
        else
          let e := txn_free t e in
          let '(rc, t, e) := txn_begin iso e in
          if bool_decide (rc = TDB_SUCCESS) then (true, (Some (fresh t), e))
          else (false, (Some (set_txn x None), e))
      else (true, (Some x, e))
    end
  | None =>
    if negb alloc then (false, (None, e))
    else
      let '(rc, t, e) := txn_begin iso e in
      if bool_decide (rc = TDB_SUCCESS)
      then (true, (Some (mk_trx (Some t) false false false false iso 1 0), e))
      else (false, (None, e))
  end.

(** ** Savepoints (lines 2080-2150) *)

Definition tidesdb_savepoint_set (sv : option Z) (c : conn) : ha_rc * conn :=
  match c, sv with
  | (Some x, e), Some name =>
    match txn x with
    | None => (HA_OK, c)
    | Some t =>
      let '(rc, t) := txn_savepoint t name in
      (ha_of_rc rc, (Some (set_txn x (Some t)), e))
    end
  | _, _ => (HA_OK, c)
  end.

Definition tidesdb_savepoint_rollback (sv : option Z) (c : conn) : ha_rc * conn :=
  match c, sv with
  | (Some x, e), Some name =>
    match txn x with
    | None => (HA_OK, c)
    | Some t =>
      let '(rc, t) := txn_rollback_to_savepoint t name in
      match rc with
      | TDB_SUCCESS => (HA_OK, (Some (set_txn x (Some (txn_savepoint t name).2)), e))
      | TDB_ERR_NOT_FOUND => (HA_ERR_NO_SAVEPOINT, (Some (set_txn x (Some t)), e))
      | _ => (ha_of_rc rc, (Some (set_txn x (Some t)), e))
      end
    end
  | _, _ => (HA_OK, c)
  end.

Definition tidesdb_savepoint_release (sv : option Z) (c : conn) : ha_rc * conn :=
  match c, sv with
  | (Some x, e), Some name =>
    match txn x with
    | None => (HA_OK, c)
    | Some t =>
      let '(rc, t) := txn_release_savepoint t name in
      match rc with
      | TDB_SUCCESS => (HA_OK, (Some (set_txn x (Some t)), e))
      | TDB_ERR_NOT_FOUND => (HA_ERR_NO_SAVEPOINT, (Some (set_txn x (Some t)), e))
      | _ => (ha_of_rc rc, (Some (set_txn x (Some t)), e))
      end
    end
  | _, _ => (HA_OK, c)
  end.

(** ** The two phases *)

(** The statement savepoint is released before every commit or rollback. *)
Definition release_stmt (x : tidesdb_trx_t) (t : T) : T :=
  if stmt_savepoint_active x then (txn_release_savepoint t stmt_name).2 else t.

(** What every finished transaction leaves: the handle kept for a later reset,
    or freed; not dirty; no row lock. *)
Definition finished (x : tidesdb_trx_t) (t : option T) (reset : bool) : tidesdb_trx_t :=
  mk_trx t false false (stmt_was_dirty x) reset (isolation_level x) (bump x) 0.

(** [all] and the session options: [multi] is
    [thd_test_options(thd, OPTION_NOT_AUTOCOMMIT | OPTION_BEGIN)]. *)
Definition is_real (all multi : bool) : bool := all || negb multi.

(** Lines 2206-2282; [sxid] is the XID of the server. *)
Definition tidesdb_prepare (all multi : bool) (sxid : xid) (c : conn) : ha_rc * conn :=
  match c with
  | (Some x, e) =>
    match txn x with
    | None => (HA_OK, c)
    | Some t =>
      if negb (is_real all multi) then (HA_OK, c)
      else if negb (dirty x) then (HA_OK, c)
      else
        let t := release_stmt x t in
        let x := mk_trx (txn x) (dirty x) false (stmt_was_dirty x) (needs_reset x) (isolation_level x)
                   (txn_generation x) (row_locks x) in
        let '(xid_len, buf) :=
          tdb_xid_serialize (xid_format_id sxid) (xid_gtrid_len sxid) (xid_bqual_len sxid)
            (Some (xid_data sxid)) (Some (replicate (Z.to_nat TDB_XID_MAX_SERIALIZED) 0)) TDB_XID_MAX_SERIALIZED in
        if xid_len =? 0 then
          let '(t, e) := txn_rollback t e in
          (HA_ERR_INTERNAL_ERROR, (Some (finished x (Some t) true), e))
        else
          let '(rc, t, e) := txn_prepare t (take (Z.to_nat xid_len) (default [] buf)) e in
          if bool_decide (rc = TDB_SUCCESS)
          then (HA_OK, (Some (set_txn x (Some t)), e))
          else
            let '(t, e) := txn_rollback t e in
            let e := txn_free t e in
            (ha_of_rc rc, (Some (finished x None (needs_reset x)), e))
    end
  | (None, e) => (HA_OK, c)
  end.

(** Lines 2361-2417: no prepare came before. *)
Definition commit_single_phase (x : tidesdb_trx_t) (t : T) (e : E) : ha_rc * conn :=
  let t := release_stmt x t in
  if dirty x then
    let '(rc, t, e) := txn_commit t e in
    if bool_decide (rc = TDB_SUCCESS) then (HA_OK, (Some (finished x (Some t) true), e))
    else
      let '(t, e) := txn_rollback t e in
      let e := txn_free t e in
      (ha_of_rc rc, (Some (finished x None (needs_reset x)), e))
  else
    let '(t, e) := txn_rollback t e in
    (HA_OK, (Some (finished x (Some t) true), e)).

(** Lines 2285-2420. *)
Definition tidesdb_commit (all multi : bool) (c : conn) : ha_rc * conn :=
  match c with
  | (Some x, e) =>
    match txn x with
    | None => (HA_OK, c)
    | Some t =>
      if negb (is_real all multi)
      then (HA_OK, (Some (mk_trx (txn x) (dirty x) (stmt_savepoint_active x) false (needs_reset x)
                            (isolation_level x) (txn_generation x) (row_locks x)), e))
      else
        match txn_state t with
        | Some TDB_TXN_STATE_COMMITTED | Some TDB_TXN_STATE_ABORTED =>
          (HA_OK, (Some (finished x (Some t) true), e))
        | Some TDB_TXN_STATE_PREPARED =>
          let '(prc, t, e) := txn_commit_prepared t e in
          if bool_decide (prc = TDB_SUCCESS) then (HA_OK, (Some (finished x (Some t) true), e))
          else (ha_of_rc prc, (Some (set_txn x (Some t)), e))
        | _ => commit_single_phase x t e
        end
    end
  | (None, e) => (HA_OK, c)
  end.

(** Lines 2423-2483: a statement rollback is a full rollback. *)
Definition tidesdb_rollback (all multi : bool) (c : conn) : ha_rc * conn :=
  match c with
  | (Some x, e) =>
    match txn x with
    | None => (HA_OK, c)
    | Some t =>
      let t := release_stmt x t in
      let '(t, e) :=
        match txn_state t with
        | Some TDB_TXN_STATE_COMMITTED | Some TDB_TXN_STATE_ABORTED => (t, e)
        | Some TDB_TXN_STATE_PREPARED => let '(prc, t, e) := txn_rollback_prepared t e in (t, e)
        | _ => txn_rollback t e
        end in
      (HA_OK, (Some (finished x (Some t) true), e))
    end
  | (None, e) => (HA_OK, c)
  end.

(** Lines 2486-2513. *)
Definition tidesdb_close_connection (c : conn) : conn :=
  match c with
  | (Some x, e) =>
    (None, match txn x with
           | Some t => let '(t, e) := txn_rollback t e in txn_free t e
           | None => e
           end)
  | (None, e) => c
  end.

(** Lines 2527-2550; isolation levels in the order of their declaration. *)
Definition iso_below_snapshot (i : tidesdb_isolation_level_t) : bool :=
  match i with TDB_ISOLATION_SNAPSHOT | TDB_ISOLATION_SERIALIZABLE => false | _ => true end.

Definition tidesdb_start_consistent_snapshot (alloc pessimistic : bool) (session_iso : Z) (c : conn)
    : bool * conn :=
  let iso := resolve_effective_isolation pessimistic session_iso TDB_ISOLATION_REPEATABLE_READ in
  let iso := if iso_below_snapshot iso then TDB_ISOLATION_SNAPSHOT else iso in
  get_or_create_trx alloc iso c.

(** Lines 9430-9470. *)
Definition tidesdb_flush_engine_txn_before_cf_mutation (c : conn) : conn :=
  match c with
  | (Some x, e) =>
    match txn x with
    | None => c
    | Some t =>
      let t := release_stmt x t in
      let '(t, e) :=
        if dirty x then
          let '(rc, t, e) := txn_commit t e in
          if bool_decide (rc = TDB_SUCCESS) then (t, e) else txn_rollback t e
        else txn_rollback t e in
      let e := txn_free t e in
      (Some (finished x None false), e)
    end
  | (None, e) => c
  end.

(** Lines 1288-1298, the part of SET GLOBAL tidesdb_backup_dir that frees the
    transaction of the session. *)
Definition backup_free_txn (c : conn) : conn :=
  match c with
  | (Some x, e) =>
    match txn x with
    | None => c
    | Some t =>
      let '(t, e) := txn_rollback t e in
      let e := txn_free t e in
      (Some (mk_trx None false (stmt_savepoint_active x) (stmt_was_dirty x) (needs_reset x) (isolation_level x)
               (bump x) (row_locks x)), e)
    end
  | (None, e) => c
  end.

(** Lines 7458-7465: [delete_all_rows] frees the transaction of the session. *)
Definition truncate_free_txn (c : conn) : conn :=
  match c with
  | (Some x, e) =>
    match txn x with
    | None => c
    | Some t =>
      let '(t, e) := txn_rollback t e in
      let e := txn_free t e in
      (Some (mk_trx None false (stmt_savepoint_active x) (stmt_was_dirty x) (needs_reset x) (isolation_level x)
               (txn_generation x) (row_locks x)), e)
    end
  | (None, e) => c
  end.

(** Lines 7557-7625, for the transaction of the connection (the handler's cached
    iterators are dropped with it). *)
Definition maybe_bulk_commit (c : conn) : ha_rc * conn :=
  match c with
  | (Some x, e) =>
    match txn x with
    | None => (HA_OK, c)
    | Some t =>
      let again t' := mk_trx (Some t') (dirty x) (stmt_savepoint_active x) (stmt_was_dirty x) (needs_reset x)
                        (isolation_level x) (bump x) (row_locks x) in
      let '(crc, t, e) := txn_commit t e in
      if negb (bool_decide (crc = TDB_SUCCESS)) then (ha_of_rc crc, (Some (set_txn x (Some t)), e))
      else
        let '(rrc, t, e) := txn_reset t TDB_ISOLATION_READ_COMMITTED e in
        if bool_decide (rrc = TDB_SUCCESS) then (HA_OK, (Some (again t), e))
        else
          let e := txn_free t e in
          let '(rc, t, e) := txn_begin TDB_ISOLATION_READ_COMMITTED e in
          if bool_decide (rc = TDB_SUCCESS) then (HA_OK, (Some (again t), e))
          else (ha_of_rc rc, (Some (set_txn x None), e))
    end
  | (None, e) => (HA_OK, c)
  end.

(** ** A connection's life *)

(** A statement that writes: [external_lock] gets the transaction, and every row
    operation marks it dirty (lines 5620, 6929, 7280) and leaves some handle. *)
Definition write_statement (alloc : bool) (iso : tidesdb_isolation_level_t) (t' : T) (locks : nat) (c : conn)
    : option conn :=
  match get_or_create_trx alloc iso c with
  | (true, (Some x, e)) =>
    Some (Some (mk_trx (Some t') true (stmt_savepoint_active x) true (needs_reset x) (isolation_level x)
                  (txn_generation x) locks), e)
  | _ => None
  end.

Inductive conn_step : conn -> conn -> Prop :=
| cs_get alloc iso c : conn_step c (get_or_create_trx alloc iso c).2
| cs_write alloc iso t' locks c c' : write_statement alloc iso t' locks c = Some c' -> conn_step c c'
| cs_bulk x e : dirty x = true -> conn_step (Some x, e) (maybe_bulk_commit (Some x, e)).2
| cs_set sv c : conn_step c (tidesdb_savepoint_set sv c).2
| cs_back sv c : conn_step c (tidesdb_savepoint_rollback sv c).2
| cs_release sv c : conn_step c (tidesdb_savepoint_release sv c).2
| cs_prepare all multi x c : conn_step c (tidesdb_prepare all multi x c).2
| cs_commit all multi c : conn_step c (tidesdb_commit all multi c).2
| cs_rollback all multi c : conn_step c (tidesdb_rollback all multi c).2
| cs_flush c : conn_step c (tidesdb_flush_engine_txn_before_cf_mutation c)
| cs_backup c : conn_step c (backup_free_txn c)
| cs_truncate c : conn_step c (truncate_free_txn c)
| cs_close c : conn_step c (tidesdb_close_connection c)
| cs_others x e e' : conn_step (x, e) (x, e').

(** A handle that is due for a reset is freed and its flag stays set: by the backup command, by
    TRUNCATE, or by a reset that fails and whose replacement cannot be begun. *)
Definition frees_unreset (c c' : conn) : Prop :=
  exists x e, c = (Some x, e) /\ is_Some (txn x) /\ needs_reset x = true /\
    (c' = backup_free_txn c \/ c' = truncate_free_txn c \/ exists alloc iso, get_or_create_trx alloc iso c = (false, c')).

(** A handle is due for a reset only after a commit or rollback, and a connection
    without a handle is not due for one. *)
Definition trx_flags (x : tidesdb_trx_t) : Prop :=
  (needs_reset x = true -> dirty x = false) /\ (txn x = None -> needs_reset x = false).

Definition flags_ok (c : conn) : Prop := forall x, c.1 = Some x -> trx_flags x.

Lemma flags_some x e : trx_flags x -> flags_ok (Some x, e).
Proof. intros Hf y Hy. by simplify_eq/=. Qed.

Lemma flags_none e : flags_ok (None, e).
Proof. done. Qed.

Lemma flags_set_txn x t : trx_flags x -> trx_flags (set_txn x (Some t)).
Proof. intros [H1 H2]. by split. Qed.

Lemma flags_finished x t : trx_flags (finished x (Some t) true).
Proof. by split. Qed.

(** A transaction that was dirty is not due for a reset. *)
Lemma flags_finished_none x : trx_flags x -> dirty x = true -> trx_flags (finished x None (needs_reset x)).
Proof.
  intros [H1 _] Hd. split; [done|]. intros _. cbn. destruct (needs_reset x); [|done].
  by rewrite H1 in Hd.
Qed.

Lemma flags_get alloc iso c c' :
  flags_ok c -> get_or_create_trx alloc iso c = (true, c') ->
  exists x e, c' = (Some x, e) /\ needs_reset x = false /\ is_Some (txn x).
Proof.
  destruct c as [[x|] e]; intros Hf Hg; unfold get_or_create_trx in Hg.
  - destruct (Hf x eq_refl) as [H1 H2]. destruct (txn x) as [t|] eqn:Et.
    + destruct (needs_reset x) eqn:En.
      * destruct (txn_reset t iso e) as [[rrc t1] e1]. case_match; [by simplify_eq; eauto 10|].
        destruct (txn_begin iso (txn_free t1 e1)) as [[rc t2] e2]. case_match; [by simplify_eq; eauto 10|done].
      * simplify_eq. exists x, e. rewrite Et. eauto.
    + destruct (txn_begin iso e) as [[rc t] e1]. case_match; [|done]. simplify_eq.
      eexists _, _. split; [done|]. cbn. split; [auto|done].
  - destruct alloc; [|done]. cbn [negb] in Hg. destruct (txn_begin iso e) as [[rc t] e1]. case_match; [|done].
    simplify_eq. eexists _, _. by split.
Qed.

#[local] Hint Resolve flags_some flags_none flags_set_txn flags_finished flags_finished_none : txn_flags.

Ltac flags_cases := repeat (case_match; simplify_eq); cbn [snd]; auto with txn_flags.

Lemma flags_prepare all multi sx x e : trx_flags x -> flags_ok (tidesdb_prepare all multi sx (Some x, e)).2.
Proof.
  intros Hf. unfold tidesdb_prepare. destruct (txn x) as [t|]; [|by apply flags_some].
  destruct (is_real all multi); [|by apply flags_some]. destruct (dirty x) eqn:Hd; [|by apply flags_some].
  cbn [negb]. destruct (tdb_xid_serialize _ _ _ _ _ _) as [n buf]. destruct (n =? 0).
  - destruct (txn_rollback _ _) as [t1 e1]. cbn [snd]. auto with txn_flags.
  - destruct (txn_prepare _ _ _) as [[rc t1] e1]. destruct Hf as [H1 H2]. case_match; cbn [snd].
    + apply flags_some. split; [|done]. cbn. intros Hn. rewrite H1 in Hd; done.
    + destruct (txn_rollback _ _) as [t2 e2]. apply flags_some. by apply (flags_finished_none x).
Qed.

Lemma flags_commit all multi x e : trx_flags x -> flags_ok (tidesdb_commit all multi (Some x, e)).2.
Proof.
  intros Hf. unfold tidesdb_commit. destruct (txn x) as [t|] eqn:Et; [|by apply flags_some].
  destruct (is_real all multi); cbn [negb].
  2: { apply flags_some. destruct Hf as [H1 H2]. by split. }
  unfold commit_single_phase. destruct (dirty x) eqn:Hd; flags_cases.
Qed.

Lemma flags_step_get alloc iso c : flags_ok c ->
  flags_ok (get_or_create_trx alloc iso c).2 \/ frees_unreset c (get_or_create_trx alloc iso c).2.
Proof.
  intros Hf. destruct (get_or_create_trx alloc iso c) as [[|] c'] eqn:Hg; cbn [snd].
  { left. destruct (flags_get _ _ _ _ Hf Hg) as (x & e & -> & Hn & t & Ht). apply flags_some. split; [by rewrite Hn|by rewrite Ht]. }
  destruct c as [[x|] e].
  - destruct (txn x) as [t|] eqn:Et; [destruct (needs_reset x) eqn:En|].
    + right. exists x, e. rewrite Et. split; [done|]. split; [done|]. split; [done|]. right. right. by exists alloc, iso.
    + unfold get_or_create_trx in Hg. by rewrite Et, En in Hg.
    + left. unfold get_or_create_trx in Hg. rewrite Et in Hg. destruct (txn_begin iso e) as [[rc t] e1]. case_match; [done|].
      destruct (Hf x eq_refl) as [H1 H2]. simplify_eq. apply flags_some. split; [done|]. intros _. by apply H2.
  - left. unfold get_or_create_trx in Hg. destruct alloc; cbn [negb] in Hg; [|by simplify_eq].
    destruct (txn_begin iso e) as [[rc t] e1]. case_match; by simplify_eq.
Qed.

Lemma flags_step_free c c' : flags_ok c -> c' = backup_free_txn c \/ c' = truncate_free_txn c -> flags_ok c' \/ frees_unreset c c'.
Proof.
  intros Hf Hc. destruct c as [[x|] e]; [|left; by destruct Hc as [->| ->]]. destruct (Hf x eq_refl) as [H1 H2].
  destruct (txn x) as [t|] eqn:Et; [|left; destruct Hc as [->| ->]; unfold backup_free_txn, truncate_free_txn; rewrite Et; apply flags_some; split; auto].
  destruct (needs_reset x) eqn:En.
  - right. exists x, e. rewrite Et. split; [done|]. split; [done|]. split; [done|]. destruct Hc; auto.
  - left. destruct Hc as [->| ->]; unfold backup_free_txn, truncate_free_txn; rewrite Et; destruct (txn_rollback t e); apply flags_some; by split.
Qed.

Lemma flags_step c c' : flags_ok c -> conn_step c c' -> flags_ok c' \/ frees_unreset c c'.
Proof.
  intros Hf Hs. destruct Hs as [alloc iso c|alloc iso t' locks c c' Hw|x e Hd|sv c|sv c|sv c|all multi sx c|all multi c|all multi c|c|c|c|c|x e e'].
  { by apply flags_step_get. }
  all: try (apply flags_step_free; [done|by auto]).
  all: left.
  { unfold write_statement in Hw. destruct (get_or_create_trx alloc iso c) as [[|] c1] eqn:Hg; [|done].
    destruct (flags_get _ _ _ _ Hf Hg) as (x & e & -> & Hn & _). simplify_eq. apply flags_some.
    split; cbn; [by rewrite Hn|done]. }
  { specialize (Hf x eq_refl). unfold maybe_bulk_commit. destruct (txn x) as [t|] eqn:Et; [|by apply flags_some].
    destruct Hf as [H1 H2]. assert (needs_reset x = false) as Hn.
    { destruct (needs_reset x); [|done]. by rewrite H1 in Hd. }
    repeat (case_match; simplify_eq); cbn [snd]; apply flags_some; split; cbn; by rewrite ?Hn. }
  all: try (destruct c as [[x|] e]; [specialize (Hf x eq_refl)|by try destruct sv]).
  all: try (by apply flags_prepare || by apply flags_commit).
  all: unfold tidesdb_savepoint_set, tidesdb_savepoint_rollback, tidesdb_savepoint_release,
         tidesdb_rollback, tidesdb_flush_engine_txn_before_cf_mutation, tidesdb_close_connection.
  all: try destruct sv as [sv|]; try destruct (txn x) as [t|]; try (by apply flags_some); try done.
  all: flags_cases.
  all: apply flags_some; by split.
Qed.

(** The steps that do not free a handle while it is due for a reset. *)
Definition sound_step (c c' : conn) : Prop := conn_step c c' /\ ~ frees_unreset c c'.

Lemma flags_life c0 c : flags_ok c0 -> rtc sound_step c0 c -> flags_ok c.
Proof.
  intros H0 Hr. eapply (rtc_invariant sound_step flags_ok); [|exact H0|exact Hr]. intros c1 c2 Hf [Hs Hn].
  by destruct (flags_step _ _ Hf Hs).
Qed.

(** ** The isolation of a statement *)

(** The statements that [external_lock] and [ensure_stmt_txn] take for DDL. *)
Definition statement_iso (is_ddl is_autocommit pessimistic : bool) (session_iso : Z)
    (table_iso : tidesdb_isolation_level_t) : tidesdb_isolation_level_t :=
  if is_ddl || is_autocommit then TDB_ISOLATION_READ_COMMITTED
  else resolve_effective_isolation pessimistic session_iso table_iso.

(** ** The hooks against the interface *)

Context `{!TxnLaws E T D}.

Lemma kept_trans (e1 e2 e3 : E) : kept e1 e2 -> kept e2 e3 -> kept e1 e3.
Proof. intros [] []. split; congruence. Qed.

Lemma release_stmt_law x (t : T) :
  txn_state (release_stmt x t) = txn_state t /\ txn_xid (release_stmt x t) = txn_xid t /\
  forall d, effect (release_stmt x t) d = effect t d.
Proof. unfold release_stmt. case_match; [apply release_law|done]. Qed.

(** Rolling back and freeing a handle changes nothing that is visible. *)
Lemma drop_txn (t t' : T) (e e' : E) : txn_rollback t e = (t', e') -> kept e (txn_free t' e').
Proof. intros Hr. eapply kept_trans; [by eapply rollback_law|apply free_law]. Qed.

(** The XID under which a prepare records the transaction, if it has one. *)
Definition encoded_xid (sxid : xid) : option bytes :=
  let '(n, buf) :=
    tdb_xid_serialize (xid_format_id sxid) (xid_gtrid_len sxid) (xid_bqual_len sxid)
      (Some (xid_data sxid)) (Some (replicate (Z.to_nat TDB_XID_MAX_SERIALIZED) 0)) TDB_XID_MAX_SERIALIZED in
  if n =? 0 then None else Some (take (Z.to_nat n) (default [] buf)).

(** A prepare of a dirty transaction on each of its branches. *)
Lemma prepare_spec all multi sxid x (t : T) (e : E) rc c :
  txn x = Some t -> dirty x = true -> is_real all multi = true ->
  tidesdb_prepare all multi sxid (Some x, e) = (rc, c) ->
  exists x' e', c = (Some x', e') /\ data e' = data e /\
  ((exists t' b, rc = HA_OK /\ txn x' = Some t' /\ dirty x' = true /\ encoded_xid sxid = Some b /\
      row_locks x' = row_locks x /\ stmt_savepoint_active x' = false /\
      ((txn_state t' = Some TDB_TXN_STATE_PREPARED /\ in_doubt e' = {[b]} ∪ in_doubt e /\ txn_xid t' = b /\
        forall d, effect t' d = effect t d) \/
       (txn_state t' = Some TDB_TXN_STATE_COMMITTED /\ in_doubt e' = in_doubt e /\ forall d, effect t d = d))) \/
   (rc <> HA_OK /\ in_doubt e' = in_doubt e /\ dirty x' = false /\ row_locks x' = 0%nat)).
Proof.
  intros Ht Hd Hr. unfold tidesdb_prepare, encoded_xid. rewrite Ht, Hd, Hr. cbn [negb].
  destruct (release_stmt_law x t) as (_ & _ & Heff). set (t0 := release_stmt x t) in *.
  destruct (tdb_xid_serialize _ _ _ _ _ _) as [n buf]. destruct (n =? 0).
  { destruct (txn_rollback t0 e) as [t1 e1] eqn:Er. intros [= <- <-]. destruct (rollback_law _ _ _ _ Er).
    eexists _, _. split; [done|]. split; [done|]. by right. }
  destruct (txn_prepare t0 _ e) as [[prc t1] e1] eqn:Ep.
  destruct (prepare_law _ _ _ _ _ _ Ep) as (Hdata & Hfail & Hok). case_bool_decide as Hrc.
  - intros [= <- <-]. eexists _, _. split; [done|]. split; [done|]. left. eexists t1, _.
    do 6 (split; [done|]). destruct (Hok Hrc) as [(H1 & H2 & H3 & H4)|(H1 & H2 & H3)].
    + left. do 3 (split; [done|]). intros d. by rewrite H4, Heff.
    + right. do 2 (split; [done|]). intros d. by rewrite <- Heff, H3.
  - destruct (txn_rollback t1 e1) as [t2 e2] eqn:Er. intros [= <- <-].
    destruct (drop_txn _ _ _ _ Er) as [K1 K2]. eexists _, _. split; [done|]. split; [congruence|].
    right. split; [by destruct prc|]. rewrite K2. auto.
Qed.

Lemma ha_of_rc_ok rc : ha_of_rc rc = HA_OK -> rc = TDB_SUCCESS.
Proof. by destruct rc. Qed.

Lemma single_phase_spec x (t : T) (e : E) rc c :
  (dirty x = false -> forall d, effect t d = d) -> commit_single_phase x t e = (rc, c) ->
  exists x' e', c = (Some x', e') /\ in_doubt e' = in_doubt e /\ dirty x' = false /\ row_locks x' = 0%nat /\
    data e' = (if decide (rc = HA_OK) then effect t (data e) else data e).
Proof.
  intros Hclean. unfold commit_single_phase. destruct (release_stmt_law x t) as (_ & _ & Heff).
  set (t0 := release_stmt x t) in *. destruct (dirty x) eqn:Hd.
  - destruct (txn_commit t0 e) as [[crc t1] e1] eqn:Ec. destruct (commit_law _ _ _ _ _ Ec) as (Hi & Hok & Hno).
    case_bool_decide as Hrc.
    + intros [= <- <-]. eexists _, _. split; [done|]. do 3 (split; [done|]). cbn.
      destruct (Hok Hrc) as [-> _]. by rewrite Heff.
    + destruct (txn_rollback t1 e1) as [t2 e2] eqn:Er. intros [= <- <-].
      destruct (drop_txn _ _ _ _ Er) as [K1 K2]. eexists _, _. split; [done|].
      split; [congruence|]. do 2 (split; [done|]). rewrite decide_False by (intros ?%ha_of_rc_ok; done).
      rewrite K1. auto.
  - destruct (txn_rollback t0 e) as [t1 e1] eqn:Er. destruct (rollback_law _ _ _ _ Er) as [K1 K2].
    intros [= <- <-]. eexists _, _. split; [done|]. do 3 (split; [done|]). cbn. by rewrite Hclean.
Qed.

(** A real commit on each of its branches. *)
Lemma commit_spec all multi x (t : T) (e : E) rc c :
  txn x = Some t -> is_real all multi = true -> (dirty x = false -> forall d, effect t d = d) ->
  tidesdb_commit all multi (Some x, e) = (rc, c) ->
  exists x' e', c = (Some x', e') /\
  match txn_state t with
  | Some TDB_TXN_STATE_COMMITTED | Some TDB_TXN_STATE_ABORTED =>
    rc = HA_OK /\ kept e e' /\ dirty x' = false /\ row_locks x' = 0%nat
  | Some TDB_TXN_STATE_PREPARED =>
    (rc = HA_OK /\ data e' = effect t (data e) /\ in_doubt e' = in_doubt e ∖ {[txn_xid t]} /\
      dirty x' = false /\ row_locks x' = 0%nat) \/
    (rc <> HA_OK /\ kept e e' /\ x' = x)
  | _ =>
    in_doubt e' = in_doubt e /\ dirty x' = false /\ row_locks x' = 0%nat /\
    data e' = (if decide (rc = HA_OK) then effect t (data e) else data e)
  end.
Proof.
  intros Ht Hr Hclean. unfold tidesdb_commit. rewrite Ht, Hr. cbn [negb].
  destruct (txn_state t) as [[]|] eqn:Es.
  - by apply single_phase_spec.
  - destruct (txn_commit_prepared t e) as [[prc t1] e1] eqn:Ec.
    destruct (commit_prepared_law _ _ _ _ _ Es Ec) as [Hok Hno]. case_bool_decide as Hrc.
    + intros [= <- <-]. eexists _, _. split; [done|]. left. destruct (Hok Hrc) as (? & ? & ?). done.
    + intros [= <- <-]. eexists _, _. split; [done|]. right. destruct (Hno Hrc) as [K ->].
      split; [by intros ?%ha_of_rc_ok|]. split; [done|]. destruct x; cbn in *. by subst.
  - intros [= <- <-]. by eexists _, _.
  - intros [= <- <-]. by eexists _, _.
  - by apply single_phase_spec.
Qed.

(** Any rollback leaves the data as it was. *)
Lemma rollback_spec all multi x (t : T) (e : E) :
  txn x = Some t ->
  exists x' e', tidesdb_rollback all multi (Some x, e) = (HA_OK, (Some x', e')) /\ data e' = data e /\
    dirty x' = false /\ row_locks x' = 0%nat /\
    (in_doubt e' = in_doubt e \/
     txn_state t = Some TDB_TXN_STATE_PREPARED /\ in_doubt e' = in_doubt e ∖ {[txn_xid t]}).
Proof.
  intros Ht. unfold tidesdb_rollback. rewrite Ht. destruct (release_stmt_law x t) as (Hst & Hx & _).
  set (t0 := release_stmt x t) in *. rewrite <- Hst, <- Hx.
  assert (Hact : exists x' e', (let '(t, e) := txn_rollback t0 e in (HA_OK, (Some (finished x (Some t) true), e))) =
    (HA_OK, (Some x', e')) /\ data e' = data e /\ dirty x' = false /\ row_locks x' = 0%nat /\ in_doubt e' = in_doubt e).
  { destruct (txn_rollback t0 e) as [t1 e1] eqn:Er. destruct (rollback_law _ _ _ _ Er). by eexists _, _. }
  destruct (txn_state t0) as [[]|] eqn:Es.
  2: { destruct (txn_rollback_prepared t0 e) as [[prc t1] e1] eqn:Er.
       destruct (rollback_prepared_law _ _ _ _ _ Es Er) as (Hd & Hok & Hno). eexists _, _. split; [done|].
       do 3 (split; [done|]). destruct (decide (prc = TDB_SUCCESS)) as [E'|E'].
       - right. split; [done|]. by apply Hok.
       - left. by apply Hno. }
  all: try (eexists _, _; split; [done|]; by auto).
  all: destruct Hact as (x' & e' & H1 & H2 & H3 & H4 & H5); exists x', e'; auto 10.
Qed.

(** C10: A statement does not lose what the earlier statements of its transaction wrote: along
    every life of a connection (statements that get a transaction or fail to, bulk commits,
    savepoints, prepare, commit, rollback, DDL flushes, backups, TRUNCATE, the work of other
    connections, each with any result of the engine) in which no step frees a handle that is due
    for a reset, when the transaction has writes, getting the transaction for the next statement
    hands back the same handle and changes nothing.  The excluded steps ([frees_unreset]) are a
    backup or TRUNCATE of a connection whose last transaction has ended, and a reset that fails
    together with the begin of its replacement: they leave the flag set, and the claim fails
    after them ([backup_then_statement_lost], [failed_begin_then_statement_lost]). *)
Theorem open_transaction_kept (e0 : E) x (t : T) e alloc iso :
  rtc sound_step (None, e0) (Some x, e) -> dirty x = true -> txn x = Some t ->
  get_or_create_trx alloc iso (Some x, e) = (true, (Some x, e)).
Proof.
  intros Hreach Hd Ht. pose proof (flags_life _ _ (flags_none e0) Hreach) as Hf.
  destruct (Hf x eq_refl) as [H1 _]. unfold get_or_create_trx. rewrite Ht.
  destruct (needs_reset x); [|done]. by rewrite H1 in Hd.
Qed.

(** A reset that fails together with the begin of its replacement frees the handle and keeps the
    flag.  The transaction that follows starts with the flag set: after its first statement has
    written, getting the transaction for the second one does not hand back the handle with the
    writes, it resets it. *)
Theorem failed_begin_then_statement_lost x e alloc iso c1 alloc' iso' (t' : T) locks c2 :
  needs_reset x = true -> get_or_create_trx alloc iso (Some x, e) = (false, c1) ->
  write_statement alloc' iso' t' locks c1 = Some c2 ->
  exists y e2, c2 = (Some y, e2) /\ dirty y = true /\ txn y = Some t' /\
    forall alloc'' iso'', get_or_create_trx alloc'' iso'' c2 <> (true, c2).
Proof.
  intros Hn Hg Hw. assert (exists x1 e1, c1 = (Some x1, e1) /\ txn x1 = None /\ needs_reset x1 = true) as (x1 & e1 & -> & Ht1 & Hn1).
  { unfold get_or_create_trx in Hg. destruct (txn x) as [t|] eqn:Et.
    - rewrite Hn in Hg. destruct (txn_reset t iso e) as [[rrc t1] e1]. case_match; [done|].
      destruct (txn_begin iso (txn_free t1 e1)) as [[rc t2] e2]. case_match; [done|]. simplify_eq. by do 2 eexists.
    - destruct (txn_begin iso e) as [[rc t] e1]. case_match; [done|]. simplify_eq. do 2 eexists. by split. }
  unfold write_statement, get_or_create_trx in Hw. rewrite Ht1 in Hw. destruct (txn_begin iso' e1) as [[rc t] e2].
  case_bool_decide; simplify_eq. do 2 eexists. split; [done|]. split; [done|]. split; [done|]. intros alloc'' iso'' Hx.
  unfold get_or_create_trx in Hx. cbn [txn needs_reset] in Hx. rewrite Hn1 in Hx. repeat (case_match; simplify_eq).
Qed.

(** C11: Two-phase commit.  When the server coordinates a dirty transaction under an
    XID not already in doubt, a prepare that succeeds leaves the visible data alone;
    then a commit that succeeds applies the transaction's writes exactly once and
    leaves nothing in doubt; a commit that fails leaves the data alone, the XID in
    doubt and the connection as it was, so that the decision can be retried; and a
    rollback instead leaves the data as before the prepare.  A prepare that fails
    leaves data and in-doubt set alone and releases the row locks. *)
Theorem two_phase_commit x (t : T) e sxid b all multi rc c :
  txn x = Some t -> dirty x = true -> is_real all multi = true ->
  encoded_xid sxid = Some b -> b ∉ in_doubt e ->
  tidesdb_prepare all multi sxid (Some x, e) = (rc, c) ->
  data c.2 = data e /\
  (rc <> HA_OK -> in_doubt c.2 = in_doubt e /\ exists x', c.1 = Some x' /\ row_locks x' = 0%nat) /\
  (rc = HA_OK ->
    (forall all' rc2 c2, is_real all' multi = true -> tidesdb_commit all' multi c = (rc2, c2) ->
      if decide (rc2 = HA_OK) then data c2.2 = effect t (data e) /\ in_doubt c2.2 = in_doubt e
      else data c2.2 = data e /\ in_doubt c2.2 = {[b]} ∪ in_doubt e /\ c2.1 = c.1) /\
    (forall all', data (tidesdb_rollback all' multi c).2.2 = data e)).
Proof.
  intros Ht Hd Hr Hx Hfresh Hp.
  destruct (prepare_spec _ _ _ _ _ _ _ _ Ht Hd Hr Hp) as (x1 & e1 & -> & Hdata & Hcase). cbn [fst snd].
  split; [done|]. destruct Hcase as [(t' & b' & -> & Ht' & Hd' & Hb' & _ & _ & Hst)|(Hne & Hi & _ & Hl)].
  2: { split; [|done]. intros _. eauto. }
  split; [done|]. intros _. rewrite Hx in Hb'. apply (inj Some) in Hb'. subst b'. split.
  - intros all' rc2 c2 Hr' Hc.
    assert (Hno : dirty x1 = false -> forall d, effect t' d = d) by congruence.
    destruct (commit_spec _ _ _ _ _ _ _ Ht' Hr' Hno Hc) as (x2 & e2 & -> & Hcc). cbn [fst snd].
    destruct Hst as [(Hs & Hi & Hxid & Heff)|(Hs & Hi & Hid)]; rewrite Hs in Hcc.
    + destruct Hcc as [(-> & H1 & H2 & _)|(Hne & [H1 H2] & ->)].
      * rewrite decide_True by done. rewrite H1, H2, Heff, Hdata, Hi, Hxid. split; [done|set_solver].
      * rewrite decide_False by done. rewrite H1, H2. by split; [|split].
    + destruct Hcc as (-> & [H1 H2] & _). rewrite decide_True by done. rewrite Hid. split; congruence.
  - intros all'. destruct (rollback_spec all' multi x1 t' e1 Ht') as (x2 & e2 & -> & Hd2 & _). cbn. congruence.
Qed.

(** A commit hook that reports success has applied exactly the transaction's
    writes (none when the transaction was already resolved), one that reports an
    error has applied nothing; either way the row locks are released and the
    transaction is over, unless it is prepared and its decision failed, in which
    case everything stays for a retry. *)
Theorem commit_outcome x (t : T) e all multi rc c :
  txn x = Some t -> is_real all multi = true -> (dirty x = false -> forall d, effect t d = d) ->
  tidesdb_commit all multi (Some x, e) = (rc, c) ->
  data c.2 = (if decide (rc = HA_OK) then
                match txn_state t with
                | Some TDB_TXN_STATE_COMMITTED | Some TDB_TXN_STATE_ABORTED => data e
                | _ => effect t (data e)
                end
              else data e) /\
  exists x', c.1 = Some x' /\
    (dirty x' = false /\ row_locks x' = 0%nat \/
     rc <> HA_OK /\ txn_state t = Some TDB_TXN_STATE_PREPARED /\ x' = x /\ in_doubt c.2 = in_doubt e).
Proof.
  intros Ht Hr Hclean Hc. destruct (commit_spec _ _ _ _ _ _ _ Ht Hr Hclean Hc) as (x' & e' & -> & Hcc).
  cbn [fst snd]. destruct (txn_state t) as [[]|].
  - destruct Hcc as (_ & ? & ? & ?). split; [done|]. eauto 10.
  - destruct Hcc as [(-> & ? & _ & ? & ?)|(Hne & [H1 H2] & ->)].
    + split; [done|]. eauto 10.
    + rewrite decide_False by done. split; [done|]. exists x. auto 10.
  - destruct Hcc as (-> & [H1 _] & ? & ?). split; [done|]. eauto 10.
  - destruct Hcc as (-> & [H1 _] & ? & ?). split; [done|]. eauto 10.
  - destruct Hcc as (_ & ? & ? & ?). split; [done|]. eauto 10.
Qed.

End Hooks.

(** ** An engine that satisfies the laws *)

Record toy_txn := mk_toy { toy_st : tidesdb_txn_state_t; toy_ws : list Z; toy_xid : bytes }.
Definition toy_engine : Type := list Z * gset bytes.

Definition toy_fresh : toy_txn := mk_toy TDB_TXN_STATE_ACTIVE [] [].
Definition toy_resolve (st : tidesdb_txn_state_t) (t : toy_txn) : toy_txn := mk_toy st (toy_ws t) (toy_xid t).

#[export] Instance toy_ops : TxnEngine toy_engine toy_txn (list Z) := {
  txn_begin _ e := (TDB_SUCCESS, toy_fresh, e);
  txn_reset _ _ e := (TDB_SUCCESS, toy_fresh, e);
  txn_free _ e := e;
  txn_commit t e := (TDB_SUCCESS, toy_resolve TDB_TXN_STATE_COMMITTED t, ((toy_ws t ++ e.1)%list, e.2));
  txn_rollback t e := (toy_resolve TDB_TXN_STATE_ABORTED t, e);
  txn_prepare t x e := (TDB_SUCCESS, mk_toy TDB_TXN_STATE_PREPARED (toy_ws t) x, (e.1, {[x]} ∪ e.2));
  txn_commit_prepared t e :=
    (TDB_SUCCESS, toy_resolve TDB_TXN_STATE_COMMITTED t, ((toy_ws t ++ e.1)%list, e.2 ∖ {[toy_xid t]}));
  txn_rollback_prepared t e := (TDB_SUCCESS, toy_resolve TDB_TXN_STATE_ABORTED t, (e.1, e.2 ∖ {[toy_xid t]}));
  txn_state t := Some (toy_st t);
  txn_savepoint t _ := (TDB_SUCCESS, t);
  txn_rollback_to_savepoint t _ := (TDB_SUCCESS, t);
  txn_release_savepoint t _ := (TDB_SUCCESS, t);
  data e := e.1;
  in_doubt e := e.2;
  effect t d := (toy_ws t ++ d)%list;
  txn_xid t := toy_xid t
}.

#[export] Instance toy_laws : TxnLaws toy_engine toy_txn (list Z).
Proof.
  split; cbn; intros; simplify_eq; unfold kept; cbn; try done.
  - split; [done|]. split; [done|]. intros _. left. done.
Qed.

Definition toy_xid_1 : xid := mk_xid 1 1 2 ([9; 8; 7] ++ replicate 125 0)%list.

(** A connection whose open transaction has written [7]. *)
Definition toy_trx : tidesdb_trx_t :=
  mk_trx (Some (mk_toy TDB_TXN_STATE_ACTIVE [7] [])) true false true false TDB_ISOLATION_SNAPSHOT 1 2.

Lemma toy_trx_reachable : rtc sound_step (None, (([1] : list Z), (∅ : gset bytes))) (Some toy_trx, ([1], ∅)).
Proof.
  apply rtc_once. split; [|by intros (x & e & Hx & _)].
  apply (cs_write true TDB_ISOLATION_SNAPSHOT (mk_toy TDB_TXN_STATE_ACTIVE [7] []) 2). reflexivity.
Qed.

Lemma open_transaction_kept_witness :
  dirty toy_trx = true /\
  get_or_create_trx true TDB_ISOLATION_READ_COMMITTED (Some toy_trx, (([1] : list Z), (∅ : gset bytes)))
  = (true, (Some toy_trx, ([1], ∅))).
Proof.
  split; [reflexivity|].
  apply (open_transaction_kept (([1] : list Z), (∅ : gset bytes)) toy_trx (mk_toy TDB_TXN_STATE_ACTIVE [7] [])).
  - exact toy_trx_reachable.
  - reflexivity.
  - reflexivity.
Defined.

Lemma two_phase_commit_witness :
  exists c, tidesdb_prepare true true toy_xid_1 (Some toy_trx, (([1] : list Z), (∅ : gset bytes))) = (HA_OK, c) /\
    data c.2 = [1] /\ data (tidesdb_commit true true c).2.2 = [7; 1] /\ data (tidesdb_rollback true true c).2.2 = [1].
Proof.
  destruct (tidesdb_prepare true true toy_xid_1 (Some toy_trx, (([1] : list Z), (∅ : gset bytes)))) as [rc c] eqn:Hp.
  destruct (two_phase_commit toy_trx (mk_toy TDB_TXN_STATE_ACTIVE [7] []) (([1] : list Z), (∅ : gset bytes))
              toy_xid_1 (xid_layout 1 1 2 [9; 8; 7]) true true rc c eq_refl eq_refl eq_refl ltac:(vm_compute; reflexivity)
              ltac:(set_solver) Hp) as (H1 & _ & H3).
  assert (rc = HA_OK) as -> by (vm_compute in Hp; congruence).
  destruct (H3 eq_refl) as [H4 H5]. exists c. split; [reflexivity|]. split; [exact H1|]. split; [|apply (H5 true)].
  destruct (tidesdb_commit true true c) as [rc2 c2] eqn:Hc. pose proof (H4 true rc2 c2 eq_refl Hc) as H6.
  assert (rc2 = HA_OK) as ->.
  { vm_compute in Hp. simplify_eq. vm_compute in Hc. congruence. }
  destruct H6 as [H6 _]. exact H6.
Defined.

Lemma commit_outcome_witness :
  exists c, tidesdb_commit true true (Some toy_trx, (([1] : list Z), (∅ : gset bytes))) = (HA_OK, c) /\
    data c.2 = [7; 1].
Proof.
  destruct (tidesdb_commit true true (Some toy_trx, (([1] : list Z), (∅ : gset bytes)))) as [rc c] eqn:Hc.
  destruct (commit_outcome toy_trx (mk_toy TDB_TXN_STATE_ACTIVE [7] []) (([1] : list Z), (∅ : gset bytes))
              true true rc c eq_refl eq_refl ltac:(discriminate) Hc) as [Hd _].
  assert (rc = HA_OK) as -> by (vm_compute in Hc; congruence). exists c. split; [reflexivity|]. exact Hd.
Defined.

(** ** A reset flag that outlives its handle *)

(** The backup command frees the handle of a connection that has committed before
    without clearing its reset flag.  The next transaction gets a fresh handle with
    the flag still set, so its second statement resets the handle: what the first
    statement wrote is gone, although no statement failed. *)
Theorem backup_then_statement_lost :
  exists c1 c2 c3 : conn,
    write_statement true TDB_ISOLATION_SNAPSHOT (mk_toy TDB_TXN_STATE_ACTIVE [8] []) 0
      (backup_free_txn (tidesdb_commit true true (Some toy_trx, (([1] : list Z), (∅ : gset bytes)))).2) = Some c1 /\
    get_or_create_trx true TDB_ISOLATION_SNAPSHOT c1 = (true, c2) /\
    tidesdb_commit true true c2 = (HA_OK, c3) /\
    data c3.2 = [7; 1].
Proof. eexists _, _, _. repeat split. Qed.

