(* ===== verification/XaRecovery.v ===== *)
(** * Recovery of prepared transactions (ha_tidesdb.cc 2552-2715)

    The list of transactions found prepared at startup, the batches in which the
    server asks for their XIDs, and the decision on each.  The list is under one
    mutex, so its operations are atomic; the engine is the interface of Txn.v. *)

From Stdlib Require Import ZArith Lia.
From stdpp Require Import base tactics list numbers gmap sets.
From S2P Require Import Prelude Errors Xid Options Txn.

Inductive xa_status_code := XA_OK | XAER_NOTA | XAER_RMERR.

Section Recovery.

Context {E T D : Type} `{TxnEngine E T D}.

(** [g_indoubt] and [g_indoubt_cursor]. *)
Record indoubt := mk_indoubt { entries : list (bytes * T); cursor : nat }.

(** Lines 2583-2618: what the two calls of the engine return ([None]: an error
    code); a record without handle or XID is skipped. *)
Definition usable (f : option T * option bytes) : option (bytes * T) :=
  match f with
  | (Some t, Some (b :: bs)) => Some (b :: bs, t)
  | _ => None
  end.

Definition tidesdb_collect_prepared (db_open : bool) (count : option Z)
    (found : option (list (option T * option bytes))) (st : indoubt) : indoubt :=
  if negb db_open then st
  else match count with
       | None => st
       | Some n =>
         if n <=? 0 then st
         else match found with
              | None => st
              | Some fs => mk_indoubt (omap usable fs) 0
              end
       end.

(** Lines 2624-2631. *)
Definition tidesdb_release_indoubt (st : indoubt) (e : E) : indoubt * E :=
  (mk_indoubt [] 0, foldl (fun e en => txn_free en.2 e) e (entries st)).

(** The XID handed to the server: [set_data] copies the meaningful prefix. *)
Definition server_xid (x : xid) : xid :=
  mk_xid (xid_format_id x) (xid_gtrid_len x) (xid_bqual_len x)
    (take (Z.to_nat (xid_gtrid_len x + xid_bqual_len x)) (xid_data x)).

Definition decode (b : bytes) : option xid :=
  server_xid <$> tdb_xid_deserialize (Some b) (Z.of_nat (length b)) true.

(** The loop of lines 2640-2665 over the entries from the cursor on: the XIDs
    written and the number of entries passed. *)
Fixpoint recover_loop (rest : list (bytes * T)) (len : nat) : list xid * nat :=
  match len, rest with
  | S len', en :: rest' =>
    match decode en.1 with
    | None => let '(xs, n) := recover_loop rest' len in (xs, S n)
    | Some x => let '(xs, n) := recover_loop rest' len' in (x :: xs, S n)
    end
  | _, _ => ([], 0%nat)
  end.

Definition tidesdb_xa_recover (xid_list : bool) (len : nat) (st : indoubt) : list xid * indoubt :=
  if negb xid_list || Nat.eqb len 0 then ([], st)
  else
    let '(xs, n) := recover_loop (drop (cursor st) (entries st)) len in
    (xs, mk_indoubt (entries st) (cursor st + n)).

(** Lines 2679-2704: the first entry with the key, and what becomes of it. *)
Fixpoint find_entry (key : bytes) (es : list (bytes * T)) : option (nat * T) :=
  match es with
  | [] => None
  | en :: rest =>
    if bool_decide (en.1 = key) then Some (0%nat, en.2)
    else match find_entry key rest with Some (i, t) => Some (S i, t) | None => None end
  end.

Definition tidesdb_resolve_by_xid (x : option xid) (fn : T -> E -> (tdb_rc * T) * E) (st : indoubt) (e : E)
    : xa_status_code * indoubt * E :=
  match x with
  | None => (XAER_NOTA, st, e)
  | Some x =>
    match encoded_xid x with
    | None => (XAER_NOTA, st, e)
    | Some key =>
      match find_entry key (entries st) with
      | None => (XAER_NOTA, st, e)
      | Some (i, t) =>
        let '(rc, t', e) := fn t e in
        if bool_decide (rc = TDB_SUCCESS)
        then (XA_OK, mk_indoubt (delete i (entries st)) (if Nat.ltb i (cursor st) then pred (cursor st) else cursor st),
              txn_free t' e)
        else (XAER_RMERR, mk_indoubt (<[i := (key, t')]> (entries st)) (cursor st), e)
      end
    end
  end.

Definition tidesdb_commit_by_xid (x : option xid) := tidesdb_resolve_by_xid x txn_commit_prepared.
Definition tidesdb_rollback_by_xid (x : option xid) := tidesdb_resolve_by_xid x txn_rollback_prepared.

(** The server's use of the recover hook: full batches until a short one. *)
Fixpoint recover_all (fuel len : nat) (st : indoubt) : list xid * indoubt :=
  match fuel with
  | O => ([], st)
  | S fuel' =>
    let '(xs, st) := tidesdb_xa_recover true len st in
    if Nat.ltb (length xs) len then (xs, st)
    else let '(ys, st) := recover_all fuel' len st in (xs ++ ys, st)
  end.

(** ** Batches *)

Lemma omap_step {A B} (f : A -> option B) a l :
  omap f (a :: l) = match f a with Some b => b :: omap f l | None => omap f l end.
Proof. done. Qed.

Lemma recover_loop_spec rest len :
  let '(xs, n) := recover_loop rest len in
  (n <= length rest)%nat /\ xs = omap (fun en => decode en.1) (take n rest) /\ (length xs <= len)%nat /\
  ((length xs < len)%nat -> n = length rest) /\ (length xs <= n)%nat.
Proof.
  revert len. induction rest as [|en rest IH]; intros [|len]; cbn [recover_loop].
  1-3: repeat split; cbn; lia.
  destruct (decode en.1) as [x|] eqn:Hd.
  - specialize (IH len). destruct (recover_loop rest len) as [xs n]. destruct IH as (H1 & -> & H3 & H4 & H5).
    change (take (S n) (en :: rest)) with (en :: take n rest). rewrite omap_step, Hd. cbn [length].
    split; [lia|]. split; [done|]. split; [lia|]. split; [|lia]. intros Hl. f_equal. apply H4. lia.
  - specialize (IH (S len)). destruct (recover_loop rest (S len)) as [xs n].
    destruct IH as (H1 & -> & H3 & H4 & H5). change (take (S n) (en :: rest)) with (en :: take n rest).
    rewrite omap_step, Hd. cbn [length]. split; [lia|]. split; [done|]. split; [lia|]. split; [|lia].
    intros Hl. f_equal. apply H4. lia.
Qed.

Lemma recover_all_spec fuel len st :
  (0 < len)%nat -> (length (entries st) - cursor st < fuel)%nat -> (cursor st <= length (entries st))%nat ->
  recover_all fuel len st =
    (omap (fun en => decode en.1) (drop (cursor st) (entries st)), mk_indoubt (entries st) (length (entries st))).
Proof.
  intros Hlen. revert st. induction fuel as [|fuel IH]; intros st Hf Hc; [lia|]. cbn [recover_all].
  unfold tidesdb_xa_recover. cbn [negb orb]. rewrite (proj2 (Nat.eqb_neq len 0)) by lia.
  set (rest := drop (cursor st) (entries st)). assert (Lr : length rest = (length (entries st) - cursor st)%nat)
    by apply length_drop.
  pose proof (recover_loop_spec rest len) as Hs. destruct (recover_loop rest len) as [xs n].
  destruct Hs as (H1 & Hxs & H3 & H4 & H5). destruct (Nat.ltb_spec (length xs) len) as [Hlt|Hge].
  - rewrite (H4 Hlt) in *. rewrite firstn_all in Hxs. rewrite Hxs. f_equal. f_equal. lia.
  - rewrite IH by (cbn; lia). cbn [entries cursor]. rewrite Hxs, <- omap_app. f_equal. f_equal.
    rewrite <- (take_drop n rest) at 2. f_equal. unfold rest. by rewrite drop_drop.
Qed.

(** ** Decisions *)

Lemma encoded_decode b x : bytes_ok b -> decode b = Some x -> encoded_xid x = Some b.
Proof.
  unfold decode. intros Hb Hx. destruct (tdb_xid_deserialize _ _ _) as [y|] eqn:Hy; [|done]. cbn in Hx.
  apply (inj Some) in Hx. subst x. destruct (decode_is_layout _ _ Hb Hy) as (Hf & Hl & Hv & Hi).
  pose proof (proj1 (lengths_valid_spec _ _) Hv) as Hgb.
  unfold encoded_xid, server_xid. cbn [xid_format_id xid_gtrid_len xid_bqual_len xid_data].
  set (k := Z.to_nat (xid_gtrid_len y + xid_bqual_len y)) in *.
  rewrite serialize_spec; [|done|unfold TDB_XID_MAX_SERIALIZED, TDB_XID_HEADER_SIZE, TDB_XID_DATA_SIZE; lia| |].
  2: { rewrite length_replicate. unfold TDB_XID_MAX_SERIALIZED, TDB_XID_HEADER_SIZE, TDB_XID_DATA_SIZE. lia. }
  2: { rewrite length_take. lia. }
  destruct (Z.eqb_spec (16 + (xid_gtrid_len y + xid_bqual_len y)) 0); [lia|]. f_equal. cbn [default].
  fold k. rewrite take_take, Nat.min_id, <- Hi. apply take_app_exact.
  rewrite Hi, layout_length, length_take. lia.
Qed.

Lemma find_entry_nodup i b t (es : list (bytes * T)) :
  NoDup es.*1 -> es !! i = Some (b, t) -> find_entry b es = Some (i, t).
Proof.
  revert i. induction es as [|en es IH]; intros i Hnd Hi; [done|]. cbn [fmap list_fmap] in Hnd.
  apply NoDup_cons in Hnd as [Hni Hnd]. destruct i as [|i]; cbn in Hi |- *.
  - simplify_eq. by rewrite bool_decide_true.
  - rewrite bool_decide_false; [by rewrite (IH i)|]. intros He. apply Hni. rewrite He.
    apply list_elem_of_fmap. exists (b, t). split; [done|]. by eapply list_elem_of_lookup_2.
Qed.

(** The entries still to be handed out are the same ones after a removal. *)
Lemma drop_delete i (es : list (bytes * T)) c :
  (i < length es)%nat -> (i < c)%nat -> drop (pred c) (delete i es) = drop c es.
Proof.
  intros Hi Hc. rewrite delete_take_drop. rewrite drop_app, length_take, Nat.min_l by lia.
  rewrite drop_ge by (rewrite length_take; lia). cbn. rewrite drop_drop. f_equal. lia.
Qed.

(** What the engine delivers at startup: prepared handles under distinct XIDs. *)
Record indoubt_ok (st : indoubt) : Prop := {
  io_keys : NoDup (entries st).*1;
  io_bytes : Forall (fun en => bytes_ok en.1) (entries st);
  io_state : Forall (fun en => txn_state en.2 = Some TDB_TXN_STATE_PREPARED /\ txn_xid en.2 = en.1) (entries st);
  io_cursor : (cursor st <= length (entries st))%nat
}.

(** A decision on an entry, whichever way it goes. *)
Lemma resolve_spec fn st (e : E) i b t x :
  indoubt_ok st -> entries st !! i = Some (b, t) -> decode b = Some x ->
  tidesdb_resolve_by_xid (Some x) fn st e =
    (let '(rc, t', e') := fn t e in
     if bool_decide (rc = TDB_SUCCESS)
     then (XA_OK, mk_indoubt (delete i (entries st)) (if Nat.ltb i (cursor st) then pred (cursor st) else cursor st),
           txn_free t' e')
     else (XAER_RMERR, mk_indoubt (<[i := (b, t')]> (entries st)) (cursor st), e')).
Proof.
  intros [Hk Hb _ _] Hi Hx. unfold tidesdb_resolve_by_xid.
  rewrite (encoded_decode b x); [|by apply (Forall_lookup_1 _ _ _ _ Hb Hi)|done].
  by rewrite (find_entry_nodup i b t).
Qed.

Lemma pending_kept st i b t :
  entries st !! i = Some (b, t) -> (i < cursor st)%nat ->
  let st' := mk_indoubt (delete i (entries st)) (if Nat.ltb i (cursor st) then pred (cursor st) else cursor st) in
  drop (cursor st') (entries st') = drop (cursor st) (entries st).
Proof.
  intros Hi Hc. cbn [cursor entries]. cbv zeta. cbn [cursor entries]. rewrite (proj2 (Nat.ltb_lt _ _)) by done. apply drop_delete; [|done].
  by eapply lookup_lt_Some.
Qed.

(** C12: Recovery reports every undecided transaction once.  Asking in batches of any
    positive size until a batch is short ends after at most one call more than there
    are entries, and yields the XIDs of all entries from the cursor on that this
    build can decode, in order and without repetition, leaving the cursor at the end. *)
Theorem recovery_reports_all (st : indoubt) (len : nat) :
  (0 < len)%nat -> (cursor st <= length (entries st))%nat ->
  recover_all (S (length (entries st))) len st =
    (omap (fun en => decode en.1) (drop (cursor st) (entries st)), mk_indoubt (entries st) (length (entries st))).
Proof. intros Hl Hc. apply recover_all_spec; lia. Qed.

(** Recovery decides the right transaction.  For an XID that recovery reported,
    commit-by-XID applies exactly the writes of the transaction prepared under it and
    takes it out of doubt, or fails and leaves data, in-doubt set and list alone;
    rollback-by-XID leaves the data alone.  A decision on an entry already reported
    does not disturb which entries are still to be reported. *)
Theorem recovered_xid_decided (st : indoubt) (e : E) (i : nat) b t x (Hlaws : TxnLaws E T D) :
  indoubt_ok st -> entries st !! i = Some (b, t) -> decode b = Some x -> (i < cursor st)%nat ->
  (exists st' e', tidesdb_commit_by_xid (Some x) st e = (XA_OK, st', e') /\
     entries st' = delete i (entries st) /\ drop (cursor st') (entries st') = drop (cursor st) (entries st) /\
     data e' = effect t (data e) /\ in_doubt e' = in_doubt e ∖ {[b]}
   \/ tidesdb_commit_by_xid (Some x) st e = (XAER_RMERR, st', e') /\ st' = st /\ kept e e') /\
  (exists rc st' e', tidesdb_rollback_by_xid (Some x) st e = (rc, st', e') /\ data e' = data e /\
     (rc = XA_OK /\ entries st' = delete i (entries st) /\ in_doubt e' = in_doubt e ∖ {[b]} /\
        drop (cursor st') (entries st') = drop (cursor st) (entries st) \/
      rc = XAER_RMERR /\ st' = st /\ in_doubt e' = in_doubt e)).
Proof.
  intros Hst Hi Hx Hc. destruct (Forall_lookup_1 _ _ _ _ (io_state _ Hst) Hi) as [Hs Hid]. cbn [fst snd] in Hs, Hid.
  unfold tidesdb_commit_by_xid, tidesdb_rollback_by_xid. rewrite !(resolve_spec _ _ _ i b t x) by done. split.
  - destruct (txn_commit_prepared t e) as [[rc t'] e'] eqn:Ef.
    destruct (commit_prepared_law _ _ _ _ _ Hs Ef) as [Hok Hno]. case_bool_decide as Hrc.
    + destruct (Hok Hrc) as (H1 & H2 & _). destruct (free_law t' e') as [F1 F2]. eexists _, _. left.
      split; [done|]. split; [done|]. split; [by eapply pending_kept|]. rewrite F1, F2, <- Hid. done.
    + destruct (Hno Hrc) as [Hk ->]. eexists _, _. right. split; [done|]. split; [|done].
      rewrite list_insert_id by done. by destruct st.
  - destruct (txn_rollback_prepared t e) as [[rc t'] e'] eqn:Ef.
    destruct (rollback_prepared_law _ _ _ _ _ Hs Ef) as (Hd & Hok & Hno). case_bool_decide as Hrc.
    + destruct (Hok Hrc) as (H1 & _). destruct (free_law t' e') as [F1 F2]. eexists _, _, _. split; [done|].
      split; [congruence|]. left. do 2 (split; [done|]). split; [congruence|by eapply pending_kept].
    + destruct (Hno Hrc) as [H1 ->]. eexists _, _, _. split; [done|]. split; [done|]. right.
      split; [done|]. split; [|done]. rewrite list_insert_id by done. by destruct st.
Qed.

End Recovery.

(** ** Witnesses: one transaction in doubt *)

Definition demo_xid_bytes : bytes := xid_layout 1 1 2 [9; 8; 7].
Definition demo_indoubt : indoubt (T := toy_txn) :=
  tidesdb_collect_prepared true (Some 2)
    (Some [(Some (mk_toy TDB_TXN_STATE_PREPARED [7] demo_xid_bytes), Some demo_xid_bytes); (None, None)])
    (mk_indoubt [] 0).

Lemma recovery_reports_all_witness :
  recover_all 2 1 demo_indoubt = ([mk_xid 1 1 2 [9; 8; 7]], mk_indoubt (entries demo_indoubt) 1).
Proof.
  exact (recovery_reports_all demo_indoubt 1 ltac:(lia) ltac:(cbn; lia)).
Defined.

Definition demo_reported : indoubt (T := toy_txn) := (tidesdb_xa_recover true 4 demo_indoubt).2.

Lemma demo_reported_ok : indoubt_ok demo_reported.
Proof.
  assert (He : entries demo_reported = [(demo_xid_bytes, mk_toy TDB_TXN_STATE_PREPARED [7] demo_xid_bytes)])
    by reflexivity.
  split; rewrite ?He.
  - cbn. apply NoDup_singleton.
  - apply Forall_singleton. apply bytes_okb_ok. reflexivity.
  - apply Forall_singleton. by split.
  - apply Nat.leb_le. reflexivity.
Qed.

Lemma recovered_xid_decided_witness :
  exists st' e', tidesdb_commit_by_xid (Some (mk_xid 1 1 2 [9; 8; 7])) demo_reported
    (([1] : list Z), ({[demo_xid_bytes]} : gset bytes)) = (XA_OK, st', e') /\ entries st' = [] /\ data e' = [7; 1].
Proof.
  destruct (recovered_xid_decided demo_reported (([1] : list Z), ({[demo_xid_bytes]} : gset bytes)) 0 demo_xid_bytes
              (mk_toy TDB_TXN_STATE_PREPARED [7] demo_xid_bytes) (mk_xid 1 1 2 [9; 8; 7]) toy_laws
              demo_reported_ok ltac:(reflexivity) ltac:(vm_compute; reflexivity) ltac:(vm_compute; lia))
    as [(st' & e' & [(H1 & H2 & _ & H3 & _)|(H1 & _)]) _].
  - exists st', e'. split; [exact H1|]. split; [rewrite H2; reflexivity|exact H3].
  - vm_compute in H1. discriminate H1.
Defined.
