(* ===== verification/Fts.v ===== *)
(** * Full-text index entries and statistics (tidesdb_fts.cc 135-215)

    The key and value of an entry of the inverted index, the term frequencies of
    a document, and the per-index totals kept in the data column family. *)

From Stdlib Require Import ZArith Lia.
From stdpp Require Import base tactics list numbers gmap.
From S2P Require Import Prelude Errors.

Definition FTS_MAX_TERM_BYTES : nat := 512.
Definition FTS_META_VALUE_LEN : nat := 16.
Definition FTS_META_KEY_TAG : bytes := [70; 84; 83; 0].

(** [out] from its start: two length bytes, the term cut to its maximum, the key. *)
Definition fts_build_key (term pk : bytes) : bytes :=
  let term := take FTS_MAX_TERM_BYTES term in
  le_split 2 (Z.of_nat (length term)) ++ term ++ pk.

Definition fts_build_value (tf doc_len : Z) : bytes := le_split 2 tf ++ le_split 4 doc_len.

(** [tf_map[tok.word]++] over the tokens; the counters are 16-bit. *)
Definition tf_map (tokens : list bytes) : gmap bytes Z :=
  foldl (fun m w => <[w := u16 (default 0 (m !! w) + 1)]> m) ∅ tokens.

(** ** Totals *)

Definition fts_meta_key (keynr : nat) : bytes := 0 :: FTS_META_KEY_TAG ++ [u8 (Z.of_nat keynr)].

Definition s64_at (v : bytes) (off : nat) : Z := i64 (le_combine (take 8 (drop off v))).

(** The stored totals; zeros when the entry is missing, short or unreadable. *)
Definition fts_load_meta (stored : option bytes) : Z * Z :=
  match stored with
  | Some v => if Nat.leb FTS_META_VALUE_LEN (length v) then (s64_at v 0, s64_at v 8) else (0, 0)
  | None => (0, 0)
  end.

(** The value written for a change of the totals. *)
Definition fts_meta_value (stored : option bytes) (delta_docs delta_words : Z) : bytes :=
  let '(docs, words) := fts_load_meta stored in
  let docs := i64 (docs + delta_docs) in
  let words := i64 (words + delta_words) in
  let docs := if docs <? 0 then 0 else docs in
  let words := if words <? 0 then 0 else words in
  le_split 8 (u64 docs) ++ le_split 8 (u64 words).

(** ** Entries of different rows have different keys *)

Lemma app_inj_len {A} (a b c d : list A) : length a = length c -> a ++ b = c ++ d -> a = c /\ b = d.
Proof. intros Hl He. by apply app_inj_1 in He. Qed.

Lemma fts_build_key_inj t1 t2 p1 p2 : fts_build_key t1 p1 = fts_build_key t2 p2 ->
  take FTS_MAX_TERM_BYTES t1 = take FTS_MAX_TERM_BYTES t2 /\ p1 = p2.
Proof.
  unfold fts_build_key. set (a := take FTS_MAX_TERM_BYTES t1). set (b := take FTS_MAX_TERM_BYTES t2).
  intros He. apply app_inj_len in He as [Hlen He]; [|by rewrite !le_split_length].
  assert (Ha : (length a <= 512)%nat) by (unfold a, FTS_MAX_TERM_BYTES; rewrite length_take; lia).
  assert (Hb : (length b <= 512)%nat) by (unfold b, FTS_MAX_TERM_BYTES; rewrite length_take; lia).
  apply le_split_inj in Hlen; [|change (2 ^ (8 * Z.of_nat 2)) with 65536; lia..].
  apply app_inj_len in He; [done|lia].
Qed.

Lemma s64_split z rest pre : fits_i64 z -> s64_at (pre ++ le_split 8 (u64 z) ++ rest) (length pre) = z.
Proof.
  intros Hz. unfold s64_at. rewrite drop_app_exact by done. rewrite take_app_exact by apply le_split_length.
  rewrite le_combine_split. change (2 ^ (8 * Z.of_nat 8)) with (2 ^ 64).
  pose proof (u64_fits z) as Hf. rewrite Z.mod_small by (unfold fits_u64 in Hf; lia). by apply i64_u64.
Qed.

(** What is written is what is read back, as long as the totals do not leave the
    64-bit range: the stored totals follow the sum of the changes. *)
Lemma fts_meta_roundtrip stored dd dw docs words :
  fts_load_meta stored = (docs, words) -> 0 <= docs + dd < 2 ^ 63 -> 0 <= words + dw < 2 ^ 63 ->
  fts_load_meta (Some (fts_meta_value stored dd dw)) = (docs + dd, words + dw).
Proof.
  intros Hl Hd Hw. unfold fts_meta_value. rewrite Hl.
  assert (E : forall z, 0 <= z < 2 ^ 63 -> i64 z = z).
  { intros z Hz. unfold i64. rewrite Z.mod_small; lia. }
  rewrite !E by done. destruct (Z.ltb_spec (docs + dd) 0); [lia|]. destruct (Z.ltb_spec (words + dw) 0); [lia|].
  unfold fts_load_meta. rewrite length_app, !le_split_length. change (Nat.leb FTS_META_VALUE_LEN (8 + 8)) with true.
  cbn iota. f_equal.
  - apply (s64_split _ _ []). unfold fits_i64. lia.
  - rewrite <- (app_nil_r (le_split 8 (u64 (words + dw)))).
    rewrite <- (le_split_length 8 (u64 (docs + dd))) at 2. apply s64_split. unfold fits_i64. lia.
Qed.
