(* ===== verification/Dml.v ===== *)
(** * Row changes (ha_tidesdb.cc 5535-5910, 6850-7435)

    [write_row], [update_row] and [delete_row]: the data row, the entries of the
    regular, full-text and spatial indexes, the duplicate checks, the full-text
    totals and the batches of the bulk statements.  The handler's state holds the
    column families as the transaction sees them; the results the engine will give
    are a list of codes, consumed one per call (an empty list: no further failure).
    A handler method is a function in an error and state monad.  What a record
    contributes to each index comes from the table's codec, an interface with the
    laws that the key encoding promises. *)

From Stdlib Require Import ZArith Lia.
From stdpp Require Import base tactics list numbers gmap sets.
From S2P Require Import Prelude Errors KeyCodec RowCodec Fts Scan.

Definition TIDESDB_BULK_INSERT_BATCH_OPS : Z := 500.
Definition FTS_DOC_DELTA_ADD : Z := 1.
Definition FTS_DOC_DELTA_DEL : Z := -1.
Definition tdb_empty_val : bytes := [0].

(** ** The table *)

Inductive index_kind := Regular | Fulltext | Spatial.

Record index := mk_index {
  ix_kind : index_kind;
  ix_unique : bool;                 (* HA_NOSAME *)
  ix_fields : list nat;             (* the columns of the key parts *)
  ix_cf : bool                      (* share->idx_cfs[i] is not null *)
}.

Record share := mk_share {
  has_user_pk : bool;
  pk_index : nat;
  pk_fields : list nat;
  keys : list index;
  encrypted : bool;
  has_ttl : bool;
  default_ttl : Z;
  ref_length : nat
}.

(** The table's codec: what the fields of a record become. *)
Class TableCodec (Rec : Type) := {
  serialize : Rec -> bytes;                         (* [serialize_row]; empty when encryption fails *)
  pk_bytes : Rec -> bytes;                          (* [pk_from_record], user primary key *)
  idx_prefix : nat -> Rec -> bytes;                 (* [make_comparable_key] of all parts *)
  fts_tokens : nat -> Rec -> list bytes;            (* [fts_extract_and_tokenize] *)
  spatial_entry : nat -> Rec -> option (bytes * bytes); (* Hilbert bytes and stored MBR *)
  ttl_field : Rec -> option Z
}.

(** The statement: session variables, bitmaps, and what the calls into the server
    and the lock manager return. *)
Record stmt_env := mk_env {
  en_autoinc : option (Z * ha_rc * Z);  (* next_number_field: value, update result, value after *)
  en_ensure : ha_rc;
  en_pessimistic : bool;
  en_lock : ha_rc;
  en_skip_unique : bool;
  en_sess_ttl : Z;
  en_write_can_replace : bool;
  en_write_set : gset nat;
  en_bulk_insert : bool;
  en_bulk_update : bool;
  en_bulk_delete : bool;
  en_compact_min_rows : Z;
  en_single_delete_primary : bool;      (* cached_single_delete_primary_ *)
  en_iter_live : bool;                  (* an iterator sees writes made after it was created *)
  en_seek : nat -> tdb_rc;              (* what the seek of the unique check of an index returns *)
  en_stray : nat -> option bytes;       (* the key an iterator is left on by a seek that fails *)
  en_key : nat -> tdb_rc                (* what reading the key under that iterator returns *)
}.

(** ** The handler *)

Notation cf := (gmap bytes (bytes * Z)).             (* value and lifetime *)

(** The kinds of writes of the engine. *)
Inductive wop := OpPut | OpDelete | OpSingleDelete.

Record hstate := mk_h {
  cfs : gmap (option nat) cf;           (* [None]: the data, [Some i]: index i *)
  faults : list tdb_rc;
  current_pk : bytes;
  next_row_id : Z;
  auto_inc_val : Z;
  errkey : option nat;
  dup_ref : bytes;
  dup_iter : gmap nat cf;               (* cached iterators of the unique checks *)
  fts_delta : gmap nat (Z * Z);
  bulk_ops : Z;
  bulk_bounds : option (bytes * bytes); (* touched range of a bulk delete *)
  history : list (option nat * bytes * wop)  (* ghost: the writes the engine accepted, newest first *)
}.

Definition set_cfs (f : gmap (option nat) cf -> gmap (option nat) cf) (s : hstate) : hstate :=
  mk_h (f (cfs s)) (faults s) (current_pk s) (next_row_id s) (auto_inc_val s) (errkey s) (dup_ref s) (dup_iter s)
    (fts_delta s) (bulk_ops s) (bulk_bounds s) (history s).
Definition set_faults (f : list tdb_rc) (s : hstate) : hstate :=
  mk_h (cfs s) f (current_pk s) (next_row_id s) (auto_inc_val s) (errkey s) (dup_ref s) (dup_iter s)
    (fts_delta s) (bulk_ops s) (bulk_bounds s) (history s).
Definition set_pk (p : bytes) (s : hstate) : hstate :=
  mk_h (cfs s) (faults s) p (next_row_id s) (auto_inc_val s) (errkey s) (dup_ref s) (dup_iter s)
    (fts_delta s) (bulk_ops s) (bulk_bounds s) (history s).
Definition set_counters (row_id ai : Z) (s : hstate) : hstate :=
  mk_h (cfs s) (faults s) (current_pk s) row_id ai (errkey s) (dup_ref s) (dup_iter s)
    (fts_delta s) (bulk_ops s) (bulk_bounds s) (history s).
Definition set_dup (k : nat) (r : bytes) (s : hstate) : hstate :=
  mk_h (cfs s) (faults s) (current_pk s) (next_row_id s) (auto_inc_val s) (Some k) r (dup_iter s)
    (fts_delta s) (bulk_ops s) (bulk_bounds s) (history s).
Definition set_iters (d : gmap nat cf) (s : hstate) : hstate :=
  mk_h (cfs s) (faults s) (current_pk s) (next_row_id s) (auto_inc_val s) (errkey s) (dup_ref s) d
    (fts_delta s) (bulk_ops s) (bulk_bounds s) (history s).
Definition set_delta (d : gmap nat (Z * Z)) (s : hstate) : hstate :=
  mk_h (cfs s) (faults s) (current_pk s) (next_row_id s) (auto_inc_val s) (errkey s) (dup_ref s) (dup_iter s)
    d (bulk_ops s) (bulk_bounds s) (history s).
Definition set_bulk (n : Z) (b : option (bytes * bytes)) (s : hstate) : hstate :=
  mk_h (cfs s) (faults s) (current_pk s) (next_row_id s) (auto_inc_val s) (errkey s) (dup_ref s) (dup_iter s)
    (fts_delta s) n b (history s).
Definition log_write (c : option nat) (k : bytes) (o : wop) (s : hstate) : hstate :=
  mk_h (cfs s) (faults s) (current_pk s) (next_row_id s) (auto_inc_val s) (errkey s) (dup_ref s) (dup_iter s)
    (fts_delta s) (bulk_ops s) (bulk_bounds s) ((c, k, o) :: history s).

(** *** The monad *)

Definition M (A : Type) : Type := hstate -> (ha_rc + A) * hstate.
Definition ret {A} (a : A) : M A := fun s => (inr a, s).
Definition fail {A} (rc : ha_rc) : M A := fun s => (inl rc, s).
Definition bind {A B} (m : M A) (k : A -> M B) : M B :=
  fun s => match m s with (inl rc, s') => (inl rc, s') | (inr a, s') => k a s' end.
Definition modify (f : hstate -> hstate) : M unit := fun s => (inr tt, f s).
Definition when (b : bool) (m : M unit) : M unit := if b then m else ret tt.

Declare Scope dml_scope.
Notation "'let!' x := m 'in' k" := (bind m (fun x => k)) (at level 200, x name, right associativity) : dml_scope.
Notation "m ;; k" := (bind m (fun _ => k)) (at level 100, right associativity) : dml_scope.
Open Scope dml_scope.

Fixpoint mfor {A} (f : A -> M unit) (l : list A) : M unit :=
  match l with [] => ret tt | a :: l => f a ;; mfor f l end.

(** *** Engine calls *)

Definition next_rc (s : hstate) : tdb_rc * hstate :=
  match faults s with [] => (TDB_SUCCESS, s) | f :: r => (f, set_faults r s) end.

Definition cf_of (c : option nat) (s : hstate) : cf := default ∅ (cfs s !! c).

Definition upd_cf (c : option nat) (f : cf -> cf) (s : hstate) : hstate :=
  set_cfs (fun m => <[c := f (default ∅ (m !! c))]> m) s.

Definition tidesdb_txn_put (c : option nat) (k v : bytes) (ttl : Z) (s : hstate) : tdb_rc * hstate :=
  let '(rc, s) := next_rc s in
  (rc, if bool_decide (rc = TDB_SUCCESS) then log_write c k OpPut (upd_cf c <[k := (v, ttl)]> s) else s).

(** A single delete hides the key as a delete does, on the condition that the key was put at
    most once since it was last deleted. *)
Definition tidesdb_txn_delete_cf (single : bool) (c : option nat) (k : bytes) (s : hstate) : tdb_rc * hstate :=
  let '(rc, s) := next_rc s in
  (rc, if bool_decide (rc = TDB_SUCCESS)
       then log_write c k (if single then OpSingleDelete else OpDelete) (upd_cf c (delete k) s) else s).

(** A get reports a missing key as such; other codes are failures. *)
Definition tdb_txn_get (c : option nat) (k : bytes) (s : hstate) : tdb_rc * option bytes * hstate :=
  let '(rc, s) := next_rc s in
  match rc with
  | TDB_SUCCESS | TDB_ERR_NOT_FOUND =>
    match cf_of c s !! k with
    | Some v => (TDB_SUCCESS, Some v.1, s)
    | None => (TDB_ERR_NOT_FOUND, None, s)
    end
  | _ => (rc, None, s)
  end.

(** [if (rc != TDB_SUCCESS) goto err], and a call whose code is dropped. *)
Definition checked (op : hstate -> tdb_rc * hstate) : M unit :=
  fun s => let '(rc, s) := op s in
           if bool_decide (rc = TDB_SUCCESS) then (inr tt, s) else (inl (ha_of_rc rc), s).
Definition unchecked (op : hstate -> tdb_rc * hstate) : M unit := fun s => (inr tt, (op s).2).

Definition fts_update_meta (keynr : nat) (docs words : Z) (s : hstate) : tdb_rc * hstate :=
  let '(_, stored, s) := tdb_txn_get None (fts_meta_key keynr) s in
  tidesdb_txn_put None (fts_meta_key keynr) (fts_meta_value stored docs words) TIDESDB_TTL_NONE s.

(** [maybe_bulk_commit] as the handler sees it: the transaction sees the same data
    through a fresh handle, and the cached iterators are gone. *)
Definition bulk_commit : M unit := checked next_rc ;; modify (set_iters ∅).

Definition count_bulk (on : bool) (n : Z) : M unit :=
  when on (modify (fun s => set_bulk (bulk_ops s + n) (bulk_bounds s) s) ;;
           fun s => if TIDESDB_BULK_INSERT_BATCH_OPS <=? bulk_ops s
                    then (bulk_commit ;; modify (fun s => set_bulk 0 (bulk_bounds s) s)) s
                    else (inr tt, s)).

(** ** The row operations *)

Section Rows.

Context {Rec : Type} `{TableCodec Rec}.
Variable sh : share.
Variable en : stmt_env.

(** The indexes a row operation maintains, with their numbers. *)
Definition active (e : nat * index) : bool :=
  negb (has_user_pk sh && Nat.eqb e.1 (pk_index sh)) && ix_cf e.2.
Definition numbered : list (nat * index) := imap (fun i k => (i, k)) (keys sh).
Definition active_indexes : list (nat * index) := List.filter active numbered.

(** Every column family counts, that of the primary key's index never exists. *)
Definition num_secondary_indexes : nat := length active_indexes.

Definition row_ttl (rec : Rec) : Z :=
  if has_ttl sh || (0 <? en_sess_ttl en)
  then compute_row_ttl (ttl_field rec) (en_sess_ttl en) (default_ttl sh) else TIDESDB_TTL_NONE.

(** [sec_idx_key]: the suffix is [pk_from_record], which for a hidden key is the
    current one. *)
Definition sec_key (i : nat) (rec : Rec) (pk : bytes) : bytes :=
  idx_prefix i rec ++ (if has_user_pk sh then pk_bytes rec else pk).

(** *** write_row *)

(** Lines 5547-5574. *)
Definition auto_increment : M bool :=
  match en_autoinc en with
  | None => ret false
  | Some (before, rc, after) =>
    let generated := (before =? 0) && has_user_pk sh && Nat.eqb (length (pk_fields sh)) 1 in
    if negb (bool_decide (rc = HA_OK)) then fail rc
    else modify (fun s => set_counters (next_row_id s) (Z.max (auto_inc_val s) after) s) ;; ret generated
  end.

(** Lines 5576-5589. *)
Definition new_pk (rec : Rec) : M bytes :=
  if has_user_pk sh then ret (pk_bytes rec)
  else fun s => (inr (encode_be64 (next_row_id s)), set_counters (u64 (next_row_id s + 1)) (auto_inc_val s) s).

(** Lines 5659-5680. *)
Definition pk_dup_check (skip : bool) (pk : bytes) : M unit :=
  if has_user_pk sh && negb skip && negb (en_write_can_replace en && Nat.eqb num_secondary_indexes 0) then
    fun s =>
      let '(grc, _, s) := tdb_txn_get None (build_data_key pk) s in
      match grc with
      | TDB_SUCCESS => (inl HA_ERR_FOUND_DUPP_KEY, set_dup (pk_index sh) pk s)
      | TDB_ERR_NOT_FOUND => (inr tt, s)
      | _ => (inl (ha_of_rc grc), s)
      end
  else ret tt.

(** Lines 5709-5756: the cached iterator of the index, its seek, and the key under it. *)
Definition iter_view (i : nat) (s : hstate) : cf :=
  if en_iter_live en then cf_of (Some i) s else default (cf_of (Some i) s) (dup_iter s !! i).

(** [tdb_iter_seek_r]: the least key that is not before the prefix. *)
Definition seek_key (p : bytes) (c : cf) : option bytes :=
  foldr (fun k best => match bytes_compare k p, best with
                       | Lt, _ => best
                       | _, None => Some k
                       | _, Some b => match bytes_compare k b with Lt => Some k | _ => best end
                       end) None (map fst (map_to_list c)).

(** The key the check looks at: the result of the seek is not tested, so a seek that fails
    leaves the iterator where it is; a key that cannot be read is no key. *)
Definition key_under (i : nat) (p : bytes) (s : hstate) : option bytes :=
  match (if bool_decide (en_seek en i = TDB_SUCCESS) then seek_key p (iter_view i s) else en_stray en i) with
  | Some fk => if bool_decide (en_key en i = TDB_SUCCESS) then Some fk else None
  | None => None
  end.

Definition unique_check_one (rec : Rec) (e : nat * index) : M unit :=
  let '(i, ix) := e in
  if match ix_kind ix with Regular => ix_unique ix | _ => false end then
    (fun s => match dup_iter s !! i with
              | Some _ => (inr tt, s)
              | None => (checked next_rc ;; modify (fun s => set_iters (<[i := cf_of (Some i) s]> (dup_iter s)) s)) s
              end) ;;
    (fun s => match key_under i (idx_prefix i rec) s with
              | Some fk =>
                if bool_decide (take (length (idx_prefix i rec)) fk = idx_prefix i rec) then
                  let sfx := drop (length (idx_prefix i rec)) fk in
                  (inl HA_ERR_FOUND_DUPP_KEY,
                   set_dup i (if Nat.ltb 0 (length sfx) && Nat.leb (length sfx) (ref_length sh) then sfx else dup_ref s) s)
                else (inr tt, s)
              | None => (inr tt, s)
              end)
  else ret tt.

Definition unique_check (rec : Rec) : M unit :=
  if en_skip_unique en then ret tt else mfor (unique_check_one rec) active_indexes.

(** Lines 5787-5883: one index. *)
Definition fts_puts (i : nat) (pk : bytes) (wc ttl : Z) (terms : list (bytes * Z)) : M unit :=
  mfor (fun t => checked (tidesdb_txn_put (Some i) (fts_build_key t.1 pk) (fts_build_value t.2 wc) ttl)) terms.

Definition fts_dels (i : nat) (pk : bytes) (terms : list (bytes * Z)) : M unit :=
  mfor (fun t => unchecked (tidesdb_txn_delete_cf true (Some i) (fts_build_key t.1 pk))) terms.

Definition insert_entry (rec : Rec) (pk : bytes) (ttl : Z) (e : nat * index) : M unit :=
  let '(i, ix) := e in
  match ix_kind ix with
  | Fulltext =>
    let tokens := fts_tokens i rec in
    let wc := Z.of_nat (length tokens) in
    fts_puts i pk wc ttl (map_to_list (tf_map tokens)) ;;
    if en_bulk_insert en
    then modify (fun s => let '(d, w) := default (0, 0) (fts_delta s !! i) in
                          set_delta (<[i := (d + FTS_DOC_DELTA_ADD, w + wc)]> (fts_delta s)) s)
    else unchecked (fts_update_meta i FTS_DOC_DELTA_ADD wc)
  | Spatial =>
    match spatial_entry i rec with
    | Some (h, mbr) => checked (tidesdb_txn_put (Some i) (h ++ pk) mbr ttl)
    | None => ret tt
    end
  | Regular => checked (tidesdb_txn_put (Some i) (sec_key i rec pk) tdb_empty_val ttl)
  end.

Definition write_row (rec : Rec) : M unit :=
  let! generated := auto_increment in
  let! pk := new_pk rec in
  let row := serialize rec in
  (if encrypted sh && bool_decide (row = []) then fail HA_ERR_GENERIC else ret tt) ;;
  (if bool_decide (en_ensure en = HA_OK) then ret tt else fail (en_ensure en)) ;;
  (if en_pessimistic en && has_user_pk sh && negb (bool_decide (en_lock en = HA_OK))
   then fail (en_lock en) else ret tt) ;;
  pk_dup_check (en_skip_unique en || generated) pk ;;
  when (negb (Nat.eqb num_secondary_indexes 0)) (unique_check rec) ;;
  checked (tidesdb_txn_put None (build_data_key pk) row (row_ttl rec)) ;;
  modify (set_pk pk) ;;
  mfor (insert_entry rec pk (row_ttl rec)) active_indexes ;;
  count_bulk (en_bulk_insert en) (1 + Z.of_nat num_secondary_indexes).

(** *** delete_row *)

(** Lines 7296-7324. *)
Definition track_bounds (dk : bytes) (b : option (bytes * bytes)) : option (bytes * bytes) :=
  match b with
  | None => Some (dk, dk)
  | Some (lo, hi) =>
    Some (match bytes_compare dk lo with Lt => dk | _ => lo end,
          match bytes_compare dk hi with Gt => dk | _ => hi end)
  end.

Definition delete_entry (rec : Rec) (pk : bytes) (e : nat * index) : M unit :=
  let '(i, ix) := e in
  match ix_kind ix with
  | Fulltext =>
    let tokens := fts_tokens i rec in
    fts_dels i pk (map_to_list (tf_map tokens)) ;;
    unchecked (fts_update_meta i FTS_DOC_DELTA_DEL (- Z.of_nat (length tokens)))
  | Spatial =>
    match spatial_entry i rec with
    | Some (h, _) => unchecked (tidesdb_txn_delete_cf true (Some i) (h ++ pk))
    | None => ret tt
    end
  | Regular => checked (tidesdb_txn_delete_cf true (Some i) (sec_key i rec pk))
  end.

Definition delete_row (rec : Rec) : M unit :=
  (if bool_decide (en_ensure en = HA_OK) then ret tt else fail (en_ensure en)) ;;
  fun s0 =>
  let pk := current_pk s0 in
  let dk := build_data_key pk in
  (when (en_bulk_delete en && (0 <? en_compact_min_rows en))
     (modify (fun s => set_bulk (bulk_ops s) (track_bounds dk (bulk_bounds s)) s)) ;;
   checked (tidesdb_txn_delete_cf (en_single_delete_primary en) None dk) ;;
   mfor (delete_entry rec pk) active_indexes ;;
   count_bulk (en_bulk_delete en) (1 + Z.of_nat num_secondary_indexes)) s0.

(** *** update_row *)

Definition touches (fields : list nat) : bool := existsb (fun f => bool_decide (f ∈ en_write_set en)) fields.

(** Lines 7063-7102: the primary key is stable. *)
Definition fts_diff (i : nat) (pk : bytes) (ttl old_wc new_wc : Z) (old_tf new_tf : gmap bytes Z) : M unit :=
  fts_dels i pk (List.filter (fun t => bool_decide (new_tf !! t.1 = None)) (map_to_list old_tf)) ;;
  fts_puts i pk new_wc ttl
    (List.filter (fun t => match old_tf !! t.1 with
                           | None => true
                           | Some n => negb (old_wc =? new_wc) || negb (n =? t.2)
                           end) (map_to_list new_tf)).

(** Lines 6990-7109: the full-text index. *)
Definition fts_update (i : nat) (ix : index) (old new : Rec) (old_pk new_pk : bytes) (ttl : Z) : M unit :=
  when (touches (ix_fields ix))
    (let ot := fts_tokens i old in let nt := fts_tokens i new in
     let old_wc := Z.of_nat (length ot) in let new_wc := Z.of_nat (length nt) in
     (if negb (bool_decide (old_pk = new_pk))
      then fts_dels i old_pk (map_to_list (tf_map ot)) ;;
           fts_puts i new_pk new_wc ttl (map_to_list (tf_map nt))
      else fts_diff i old_pk ttl old_wc new_wc (tf_map ot) (tf_map nt)) ;;
     when (negb (new_wc - old_wc =? 0)) (unchecked (fts_update_meta i 0 (new_wc - old_wc)))).

(** Lines 7110-7159: the spatial index. *)
Definition spatial_update (i : nat) (ix : index) (old new : Rec) (old_pk new_pk : bytes) (ttl : Z) : M unit :=
  when (match ix_fields ix with f :: _ => bool_decide (f ∈ en_write_set en) | [] => false end)
    ((match spatial_entry i old with
      | Some (h, _) => unchecked (tidesdb_txn_delete_cf true (Some i) (h ++ old_pk))
      | None => ret tt
      end) ;;
     match spatial_entry i new with
     | Some (h, mbr) => checked (tidesdb_txn_put (Some i) (h ++ new_pk) mbr ttl)
     | None => ret tt
     end).

(** Lines 7160-7204: a regular index. *)
Definition regular_update (i : nat) (ix : index) (old new : Rec) (old_pk new_pk : bytes) (ttl : Z) : M unit :=
  when (negb (bool_decide (old_pk = new_pk)) || touches (ix_fields ix))
    (let old_ik := idx_prefix i old ++ old_pk in let new_ik := sec_key i new new_pk in
     modify (set_pk new_pk) ;;
     when (negb (bool_decide (old_ik = new_ik)))
       (checked (tidesdb_txn_delete_cf true (Some i) old_ik) ;;
        checked (tidesdb_txn_put (Some i) new_ik tdb_empty_val ttl))).

Definition update_entry (old new : Rec) (old_pk new_pk : bytes) (ttl : Z) (e : nat * index) : M unit :=
  match ix_kind e.2 with
  | Fulltext => fts_update e.1 e.2 old new old_pk new_pk ttl
  | Spatial => spatial_update e.1 e.2 old new old_pk new_pk ttl
  | Regular => regular_update e.1 e.2 old new old_pk new_pk ttl
  end.

Definition update_row (old new : Rec) : M unit := fun s0 =>
  let old_pk := current_pk s0 in
  let new_pk := if has_user_pk sh && touches (pk_fields sh) then pk_bytes new else old_pk in
  let row := serialize new in
  ((if encrypted sh && bool_decide (row = []) then fail HA_ERR_GENERIC else ret tt) ;;
   (if bool_decide (en_ensure en = HA_OK) then ret tt else fail (en_ensure en)) ;;
   when (negb (bool_decide (old_pk = new_pk))) (checked (tidesdb_txn_delete_cf (en_single_delete_primary en) None (build_data_key old_pk))) ;;
   checked (tidesdb_txn_put None (build_data_key new_pk) row (row_ttl new)) ;;
   mfor (update_entry old new old_pk new_pk (row_ttl new)) active_indexes ;;
   modify (set_pk new_pk) ;;
   count_bulk (en_bulk_update en) (1 + 2 * Z.of_nat num_secondary_indexes)) s0.

End Rows.

(** ** Effects of the engine calls *)

Definition kv (i : nat) (s : hstate) : gmap bytes bytes := fst <$> cf_of (Some i) s.

(** What an operation on index [i] may change: that index, and entries of the data
    column family that are not rows. *)
Definition only_index (i : nat) (s s' : hstate) : Prop :=
  (forall j, j <> i -> cf_of (Some j) s' = cf_of (Some j) s) /\
  (forall pk, cf_of None s' !! build_data_key pk = cf_of None s !! build_data_key pk).

Lemma only_index_refl i s : only_index i s s.
Proof. by split. Qed.

Lemma only_index_trans i s1 s2 s3 : only_index i s1 s2 -> only_index i s2 s3 -> only_index i s1 s3.
Proof. intros [A1 B1] [A2 B2]. split; intros; [rewrite A2|rewrite B2]; auto. Qed.

Lemma next_rc_spec s rc s' : next_rc s = (rc, s') ->
  cfs s' = cfs s /\ current_pk s' = current_pk s /\ dup_iter s' = dup_iter s /\ next_row_id s' = next_row_id s /\
  (faults s = [] -> rc = TDB_SUCCESS /\ s' = s).
Proof. unfold next_rc. destruct (faults s) eqn:E; intros [= <- <-]; cbn; by rewrite ?E. Qed.

Lemma cf_upd_same c f s : cf_of c (upd_cf c f s) = f (cf_of c s).
Proof. unfold cf_of, upd_cf. cbn. by rewrite lookup_insert_eq. Qed.

Lemma cf_upd_other c c' f s : c <> c' -> cf_of c' (upd_cf c f s) = cf_of c' s.
Proof. intros Hne. unfold cf_of, upd_cf. cbn. by rewrite lookup_insert_ne. Qed.

Lemma cf_of_cfs c s s' : cfs s' = cfs s -> cf_of c s' = cf_of c s.
Proof. unfold cf_of. by intros ->. Qed.

Lemma cf_log c k o c' s : cf_of c' (log_write c k o s) = cf_of c' s.
Proof. done. Qed.

Lemma put_spec c k v ttl s rc s' : tidesdb_txn_put c k v ttl s = (rc, s') ->
  (forall c', c' <> c -> cf_of c' s' = cf_of c' s) /\ current_pk s' = current_pk s /\
  cf_of c s' = (if bool_decide (rc = TDB_SUCCESS) then <[k := (v, ttl)]> (cf_of c s) else cf_of c s) /\
  (faults s = [] -> rc = TDB_SUCCESS /\ faults s' = []).
Proof.
  unfold tidesdb_txn_put. destruct (next_rc s) as [rc1 s1] eqn:En.
  destruct (next_rc_spec _ _ _ En) as (H1 & H2 & _ & _ & H5). intros [= <- <-]. case_bool_decide.
  - split; [intros c' Hc; rewrite cf_log, cf_upd_other by done; by apply cf_of_cfs|]. split; [done|].
    rewrite cf_log, cf_upd_same, (cf_of_cfs _ _ _ H1). split; [done|]. intros Hf. by destruct (H5 Hf) as [-> ->].
  - split; [intros c' Hc; by apply cf_of_cfs|]. split; [done|]. split; [by apply cf_of_cfs|].
    intros Hf. by destruct (H5 Hf) as [-> ->].
Qed.

Lemma delete_spec b c k s rc s' : tidesdb_txn_delete_cf b c k s = (rc, s') ->
  (forall c', c' <> c -> cf_of c' s' = cf_of c' s) /\ current_pk s' = current_pk s /\
  cf_of c s' = (if bool_decide (rc = TDB_SUCCESS) then delete k (cf_of c s) else cf_of c s) /\
  (faults s = [] -> rc = TDB_SUCCESS /\ faults s' = []).
Proof.
  unfold tidesdb_txn_delete_cf. destruct (next_rc s) as [rc1 s1] eqn:En.
  destruct (next_rc_spec _ _ _ En) as (H1 & H2 & _ & _ & H5). intros [= <- <-]. case_bool_decide.
  - split; [intros c' Hc; rewrite cf_log, cf_upd_other by done; by apply cf_of_cfs|]. split; [done|].
    rewrite cf_log, cf_upd_same, (cf_of_cfs _ _ _ H1). split; [done|]. intros Hf. by destruct (H5 Hf) as [-> ->].
  - split; [intros c' Hc; by apply cf_of_cfs|]. split; [done|]. split; [by apply cf_of_cfs|].
    intros Hf. by destruct (H5 Hf) as [-> ->].
Qed.

Lemma checked_ok op s s' : checked op s = (inr tt, s') -> op s = (TDB_SUCCESS, s').
Proof. unfold checked. destruct (op s) as [rc s1]. case_bool_decide; [|done]. subst. by intros [= <-]. Qed.

(** A checked put into an index. *)
Lemma put_index i k v ttl s s' : checked (tidesdb_txn_put (Some i) k v ttl) s = (inr tt, s') ->
  only_index i s s' /\ current_pk s' = current_pk s /\ kv i s' = <[k := v]> (kv i s) /\
  (faults s = [] -> faults s' = []).
Proof.
  intros Hc. apply checked_ok in Hc. destruct (put_spec _ _ _ _ _ _ _ Hc) as (H1 & H2 & H3 & H4).
  rewrite bool_decide_true in H3 by done. split; [|split; [done|split; [|by intros Hf; apply H4]]].
  - split; intros; rewrite H1 by congruence; done.
  - unfold kv. by rewrite H3, fmap_insert.
Qed.

Lemma del_index i k s : faults s = [] ->
  let s' := (tidesdb_txn_delete_cf true (Some i) k s).2 in
  only_index i s s' /\ current_pk s' = current_pk s /\ kv i s' = delete k (kv i s) /\ faults s' = [] /\
  (tidesdb_txn_delete_cf true (Some i) k s).1 = TDB_SUCCESS.
Proof.
  intros Hf. destruct (tidesdb_txn_delete_cf true (Some i) k s) as [rc s'] eqn:Ed. cbn.
  destruct (delete_spec _ _ _ _ _ _ Ed) as (H1 & H2 & H3 & H4). destruct (H4 Hf) as [-> Hf'].
  rewrite bool_decide_true in H3 by done. split; [|split; [done|split; [|done]]].
  - split; intros; rewrite H1 by congruence; done.
  - unfold kv. by rewrite H3, fmap_delete.
Qed.

Lemma meta_not_data i pk : fts_meta_key i <> build_data_key pk.
Proof. done. Qed.

Lemma meta_update i d w s :
  let s' := (fts_update_meta i d w s).2 in
  (forall j, cf_of (Some j) s' = cf_of (Some j) s) /\
  (forall pk, cf_of None s' !! build_data_key pk = cf_of None s !! build_data_key pk) /\
  current_pk s' = current_pk s /\ (faults s = [] -> faults s' = []).
Proof.
  unfold fts_update_meta, tdb_txn_get. destruct (next_rc s) as [rc s1] eqn:En.
  destruct (next_rc_spec _ _ _ En) as (H1 & H2 & _ & _ & H5).
  assert (Hput : forall st, let s' := (tidesdb_txn_put None (fts_meta_key i) (fts_meta_value st d w) TIDESDB_TTL_NONE s1).2 in
    (forall j, cf_of (Some j) s' = cf_of (Some j) s) /\
    (forall pk, cf_of None s' !! build_data_key pk = cf_of None s !! build_data_key pk) /\
    current_pk s' = current_pk s /\ (faults s = [] -> faults s' = [])).
  { intros st. destruct (tidesdb_txn_put None _ _ _ s1) as [rc2 s2] eqn:Ep. cbn.
    destruct (put_spec _ _ _ _ _ _ _ Ep) as (P1 & P2 & P3 & P4).
    split; [intros j; rewrite P1 by done; by apply cf_of_cfs|]. split; [|split; [congruence|]].
    - intros pk. rewrite P3, (cf_of_cfs _ _ _ H1). case_bool_decide; [|done].
      by rewrite lookup_insert_ne by apply meta_not_data.
    - intros Hf. destruct (H5 Hf) as [_ ->]. by apply P4. }
  destruct rc; try apply Hput; destruct (cf_of None s1 !! fts_meta_key i); apply Hput.
Qed.

(** A list of puts into an index, under distinct keys. *)
Lemma puts_index {A} i (kf vf : A -> bytes) ttl (l : list A) s s' :
  NoDup (kf <$> l) ->
  mfor (fun a => checked (tidesdb_txn_put (Some i) (kf a) (vf a) ttl)) l s = (inr tt, s') ->
  only_index i s s' /\ current_pk s' = current_pk s /\
  kv i s' = list_to_map ((fun a => (kf a, vf a)) <$> l) ∪ kv i s /\ (faults s = [] -> faults s' = []).
Proof.
  revert s. induction l as [|a l IH]; intros s Hnd Hm; cbn [mfor] in Hm.
  { unfold ret in Hm. simplify_eq. split; [apply only_index_refl|]. split; [done|]. split; [|done].
    cbn. by rewrite (left_id_L ∅ _). }
  unfold bind in Hm. destruct (checked _ s) as [[rc|[]] s1] eqn:Ec; [done|].
  destruct (put_index _ _ _ _ _ _ Ec) as (P1 & P2 & P3 & P4). rewrite fmap_cons in Hnd.
  apply NoDup_cons in Hnd as [Hni Hnd]. destruct (IH s1 Hnd Hm) as (Q1 & Q2 & Q3 & Q4).
  split; [by eapply only_index_trans|]. split; [congruence|]. split; [|auto].
  rewrite Q3, P3, fmap_cons. cbn [list_to_map foldr]. rewrite <- insert_union_l.
  rewrite <- insert_union_r; [done|]. apply not_elem_of_list_to_map_1. rewrite <- list_fmap_compose. done.
Qed.

(** A list of deletes. *)
Lemma dels_index {A} i (kf : A -> bytes) (l : list A) s :
  faults s = [] ->
  exists s', mfor (fun a => unchecked (tidesdb_txn_delete_cf true (Some i) (kf a))) l s = (inr tt, s') /\
  only_index i s s' /\ current_pk s' = current_pk s /\ faults s' = [] /\
  forall k, kv i s' !! k = if bool_decide (k ∈ kf <$> l) then None else kv i s !! k.
Proof.
  revert s. induction l as [|a l IH]; intros s Hf.
  { exists s. split; [done|]. split; [apply only_index_refl|]. split; [done|]. split; [done|]. done. }
  destruct (del_index i (kf a) s Hf) as (P1 & P2 & P3 & P4 & _).
  destruct (IH _ P4) as (s' & Hm & Q1 & Q2 & Q3 & Q4). exists s'. cbn [mfor]. unfold bind, unchecked at 1.
  split; [done|]. split; [by eapply only_index_trans|]. split; [congruence|]. split; [done|].
  intros k. rewrite Q4, P3. rewrite fmap_cons. repeat case_bool_decide; try done.
  - set_solver.
  - destruct (decide (k = kf a)); [subst; by rewrite lookup_delete_eq|set_solver].
  - rewrite lookup_delete_ne; [done|]. set_solver.
Qed.

(** ** What the indexes should hold *)

(** The key columns of an index have a fixed width, and so does a Hilbert value; a term has
    at most the bytes that its key stores, as with [tidesdb_fts_max_word_len] characters of
    at most [512 / mbmaxlen] (the default, 84, in UTF-8). *)
Class TableLaws (Rec : Type) `{TableCodec Rec} := {
  idx_len : nat -> nat;
  prefix_length i r : length (idx_prefix i r) = idx_len i;
  spatial_length i r h m : spatial_entry i r = Some (h, m) -> length h = 8%nat;
  token_length i r : Forall (fun w => (length w <= FTS_MAX_TERM_BYTES)%nat) (fts_tokens i r)
}.

Section Consistency.

Context {Rec : Type} `{TableCodec Rec} `{!TableLaws Rec}.
Variable sh : share.

Definition fts_terms (i : nat) (rec : Rec) : list (bytes * Z) := map_to_list (tf_map (fts_tokens i rec)).

Definition fts_wc (i : nat) (rec : Rec) : Z := Z.of_nat (length (fts_tokens i rec)).

(** The entries of a row in an index. *)
Definition entries (e : nat * index) (rec : Rec) (pk : bytes) : gmap bytes bytes :=
  let '(i, ix) := e in
  match ix_kind ix with
  | Regular => {[idx_prefix i rec ++ pk := tdb_empty_val]}
  | Spatial => match spatial_entry i rec with Some (h, m) => {[h ++ pk := m]} | None => ∅ end
  | Fulltext => list_to_map ((fun t => (fts_build_key t.1 pk, fts_build_value t.2 (fts_wc i rec))) <$> fts_terms i rec)
  end.

(** The column families hold exactly the rows and, in each index, exactly the
    entries of the rows. *)
Record consistent (s : hstate) (rows : gmap bytes Rec) : Prop := {
  c_data pk : fst <$> cf_of None s !! build_data_key pk = serialize <$> rows !! pk;
  c_index e : e ∈ active_indexes sh ->
    forall k v, kv e.1 s !! k = Some v <-> exists pk rec, rows !! pk = Some rec /\ entries e rec pk !! k = Some v;
  c_pk pk rec : rows !! pk = Some rec -> has_user_pk sh = true -> pk = pk_bytes rec
}.

Lemma tf_map_elem_gen (w : bytes) n ts : forall (m : gmap bytes Z),
  foldl (fun m w => <[w := u16 (default 0 (m !! w) + 1)]> m) m ts !! w = Some n -> w ∈ ts \/ is_Some (m !! w).
Proof.
  induction ts as [|t ts IH]; intros m Hl; cbn [foldl] in Hl; [right; eauto|].
  apply IH in Hl as [Hl|[x Hl]]; [left; set_solver|].
  destruct (decide (w = t)) as [->|Hne]; [left; set_solver|]. rewrite lookup_insert_ne in Hl by done. right. eauto.
Qed.

Lemma tf_map_elem tokens w n : tf_map tokens !! w = Some n -> w ∈ tokens.
Proof. intros Hl. apply tf_map_elem_gen in Hl as [|[x Hx]]; [done|]. by rewrite lookup_empty in Hx. Qed.

Lemma term_length i rec t : t ∈ fts_terms i rec -> (length t.1 <= FTS_MAX_TERM_BYTES)%nat.
Proof.
  destruct t as [w n]. intros Ht%elem_of_map_to_list. apply tf_map_elem in Ht.
  pose proof (token_length i rec) as Hall. rewrite Forall_forall in Hall. by apply Hall.
Qed.

Lemma term_key_inj t1 t2 p1 p2 :
  (length t1 <= FTS_MAX_TERM_BYTES)%nat -> (length t2 <= FTS_MAX_TERM_BYTES)%nat ->
  fts_build_key t1 p1 = fts_build_key t2 p2 -> t1 = t2 /\ p1 = p2.
Proof. intros H1 H2 He. apply fts_build_key_inj in He. by rewrite !take_ge in He by lia. Qed.

(** Entries of two rows never share a key. *)
Lemma entries_apart e r1 r2 p1 p2 k v1 v2 :
  entries e r1 p1 !! k = Some v1 -> entries e r2 p2 !! k = Some v2 -> p1 = p2.
Proof.
  destruct e as [i ix]. unfold entries. destruct (ix_kind ix).
  - intros [<- <-]%lookup_singleton_Some [He <-]%lookup_singleton_Some.
    apply app_inj_len in He as [_ ->]; [done|]. by rewrite !prefix_length.
  - intros H1%elem_of_list_to_map_2 H2%elem_of_list_to_map_2.
    apply list_elem_of_fmap in H1 as (t1 & E1 & _), H2 as (t2 & E2 & _).
    apply (f_equal fst) in E1, E2. cbn [fst] in E1, E2. rewrite E1 in E2.
    by apply fts_build_key_inj in E2 as [_ ->].
  - destruct (spatial_entry i r1) as [[h1 m1]|] eqn:E1; [|by rewrite lookup_empty].
    destruct (spatial_entry i r2) as [[h2 m2]|] eqn:E2; [|by rewrite lookup_empty].
    intros [<- <-]%lookup_singleton_Some [He <-]%lookup_singleton_Some.
    apply app_inj_len in He as [_ ->]; [done|]. by rewrite (spatial_length _ _ _ _ E1), (spatial_length _ _ _ _ E2).
Qed.

Lemma term_keys_nodup pk (l : list (bytes * Z)) :
  NoDup l.*1 -> Forall (fun t => (length t.1 <= FTS_MAX_TERM_BYTES)%nat) l ->
  NoDup ((fun t => fts_build_key t.1 pk) <$> l).
Proof.
  induction l as [|t l IH]; intros Hnd Hlen; [constructor|]. rewrite !fmap_cons in *.
  apply NoDup_cons in Hnd as [Hni Hnd]. apply List.Forall_cons_iff in Hlen as [Ht Hl].
  apply NoDup_cons. split; [|by apply IH]. intros Hin. apply list_elem_of_fmap in Hin as (t' & He & Hin).
  apply term_key_inj in He as [He _]; [|done|by rewrite Forall_forall in Hl; apply Hl].
  apply Hni. apply list_elem_of_fmap. by exists t'.
Qed.

Lemma fts_terms_ok i rec f :
  NoDup (List.filter f (fts_terms i rec)).*1 /\
  Forall (fun t => (length t.1 <= FTS_MAX_TERM_BYTES)%nat) (List.filter f (fts_terms i rec)).
Proof.
  split.
  - pose proof (NoDup_fst_map_to_list (tf_map (fts_tokens i rec))) as Hnd. fold (fts_terms i rec) in Hnd.
    induction (fts_terms i rec) as [|t l IH]; [constructor|]. rewrite fmap_cons in Hnd.
    apply NoDup_cons in Hnd as [Hni Hnd]. cbn. destruct (f t); [|by apply IH]. rewrite fmap_cons.
    apply NoDup_cons. split; [|by apply IH]. intros Hin. apply Hni.
    apply list_elem_of_fmap in Hin as (t' & He & Hin). apply list_elem_of_fmap. exists t'. split; [done|].
    apply list_elem_of_In. apply list_elem_of_In, filter_In in Hin. tauto.
  - apply List.Forall_forall. intros t Ht. apply filter_In in Ht as [Ht _]. eapply term_length.
    by apply list_elem_of_In.
Qed.

Lemma filter_true_id {A} (l : list A) : List.filter (fun _ => true) l = l.
Proof. induction l as [|a l IH]; [done|]. cbn. by rewrite IH. Qed.

Lemma fts_keys_nodup i rec pk f : NoDup ((fun t => fts_build_key t.1 pk) <$> List.filter f (fts_terms i rec)).
Proof. destruct (fts_terms_ok i rec f). by apply term_keys_nodup. Qed.

(** ** One index *)

Lemma bind_ok {A B} (m : M A) (k : A -> M B) s b s' :
  bind m k s = (inr b, s') -> exists a s1, m s = (inr a, s1) /\ k a s1 = (inr b, s').
Proof. unfold bind. destruct (m s) as [[rc|a] s1]; [done|]. eauto. Qed.

Lemma bind_run {A B} (m : M A) (k : A -> M B) s a s1 : m s = (inr a, s1) -> bind m k s = k a s1.
Proof. unfold bind. by intros ->. Qed.

Lemma unchecked_ok op s s' : unchecked op s = (inr tt, s') -> s' = (op s).2.
Proof. unfold unchecked. by intros [= <-]. Qed.

Lemma meta_only i s d w s' : unchecked (fts_update_meta i d w) s = (inr tt, s') ->
  only_index i s s' /\ current_pk s' = current_pk s /\ kv i s' = kv i s /\ (faults s = [] -> faults s' = []).
Proof.
  intros ->%unchecked_ok. destruct (meta_update i d w s) as (M1 & M2 & M3 & M4).
  split; [by split|]. split; [done|]. split; [|done]. unfold kv. by rewrite M1.
Qed.

Lemma fts_puts_spec i pk rec ttl f wc s s' :
  fts_puts i pk wc ttl (List.filter f (fts_terms i rec)) s = (inr tt, s') ->
  only_index i s s' /\ current_pk s' = current_pk s /\
  kv i s' = list_to_map ((fun t => (fts_build_key t.1 pk, fts_build_value t.2 wc)) <$> List.filter f (fts_terms i rec)) ∪ kv i s /\
  (faults s = [] -> faults s' = []).
Proof. intros Hp. by apply (puts_index i _ _ ttl) in Hp; [|apply fts_keys_nodup]. Qed.

(** The key of a row: what [sec_idx_key] appends. *)
Definition keyed (rec : Rec) (pk : bytes) : Prop := has_user_pk sh = true -> pk = pk_bytes rec.

Lemma sec_key_keyed i rec pk : keyed rec pk -> sec_key sh i rec pk = idx_prefix i rec ++ pk.
Proof. unfold keyed, sec_key. destruct (has_user_pk sh); [|done]. intros ->; done. Qed.

Lemma insert_entry_spec en rec pk ttl e s s' :
  keyed rec pk -> insert_entry sh en rec pk ttl e s = (inr tt, s') ->
  only_index e.1 s s' /\ current_pk s' = current_pk s /\ kv e.1 s' = entries e rec pk ∪ kv e.1 s /\
  (faults s = [] -> faults s' = []).
Proof.
  intros Hk. destruct e as [i ix]. unfold insert_entry, entries. cbn [fst]. destruct (ix_kind ix).
  - intros Hp. apply put_index in Hp as (P1 & P2 & P3 & P4). rewrite (sec_key_keyed i rec pk Hk) in P3.
    split; [done|]. split; [done|]. split; [|done]. by rewrite P3, <- insert_union_singleton_l.
  - intros ([] & s1 & Hp & Hrest)%bind_ok.
    change (map_to_list (tf_map (fts_tokens i rec))) with (fts_terms i rec) in Hp.
    rewrite <- (filter_true_id (fts_terms i rec)) in Hp.
    apply fts_puts_spec in Hp as (P1 & P2 & P3 & P4). rewrite filter_true_id in P3. fold (fts_wc i rec) in P3.
    assert (Hr : only_index i s1 s' /\ current_pk s' = current_pk s1 /\ kv i s' = kv i s1 /\ (faults s1 = [] -> faults s' = [])).
    { destruct (en_bulk_insert en).
      - unfold modify in Hrest. destruct (default (0, 0) _). by simplify_eq.
      - by apply meta_only in Hrest. }
    destruct Hr as (R1 & R2 & R3 & R4). split; [by eapply only_index_trans|]. split; [congruence|].
    split; [|auto]. by rewrite R3, P3.
  - destruct (spatial_entry i rec) as [[h m]|].
    + intros Hp. apply put_index in Hp as (P1 & P2 & P3 & P4). split; [done|]. split; [done|]. split; [|done].
      by rewrite P3, <- insert_union_singleton_l.
    + unfold ret. intros Hp. simplify_eq. split; [apply only_index_refl|]. split; [done|]. split; [|done].
      by rewrite (left_id_L ∅ _).
Qed.

(** Removing the entries of a row. *)
Definition without (e : nat * index) (rec : Rec) (pk : bytes) (m m' : gmap bytes bytes) : Prop :=
  forall k, m' !! k = match entries e rec pk !! k with Some _ => None | None => m !! k end.

Lemma term_keys_lookup i rec pk k wc :
  (list_to_map ((fun t => (fts_build_key t.1 pk, fts_build_value t.2 wc)) <$> fts_terms i rec) : gmap bytes bytes) !! k = None <->
  k ∉ (fun t => fts_build_key t.1 pk) <$> fts_terms i rec.
Proof.
  rewrite <- not_elem_of_list_to_map. rewrite <- list_fmap_compose. done.
Qed.

Lemma delete_entry_spec rec pk e s s' :
  keyed rec pk -> faults s = [] -> delete_entry sh rec pk e s = (inr tt, s') ->
  only_index e.1 s s' /\ current_pk s' = current_pk s /\ without e rec pk (kv e.1 s) (kv e.1 s') /\ faults s' = [].
Proof.
  intros Hk Hf. destruct e as [i ix]. unfold delete_entry, without, entries. cbn [fst]. destruct (ix_kind ix).
  - intros Hd%checked_ok. rewrite (sec_key_keyed i rec pk Hk) in Hd.
    destruct (del_index i (idx_prefix i rec ++ pk) s Hf) as (D1 & D2 & D3 & D4 & _).
    rewrite Hd in D1, D2, D3, D4. cbn [snd] in *. split; [done|]. split; [done|]. split; [|done].
    intros k. rewrite D3. destruct (decide (k = idx_prefix i rec ++ pk)) as [->|Hne].
    + by rewrite lookup_singleton_eq, lookup_delete_eq.
    + by rewrite lookup_singleton_ne, lookup_delete_ne by congruence.
  - intros ([] & s1 & Hd & Hrest)%bind_ok.
    change (map_to_list (tf_map (fts_tokens i rec))) with (fts_terms i rec) in Hd.
    destruct (dels_index i (fun t : bytes * Z => fts_build_key t.1 pk) (fts_terms i rec) s Hf) as (s2 & Hm & D1 & D2 & D3 & D4).
    unfold fts_dels in Hd. rewrite Hm in Hd. simplify_eq. apply meta_only in Hrest as (R1 & R2 & R3 & R4).
    split; [by eapply only_index_trans|]. split; [congruence|]. split; [|auto].
    intros k. rewrite R3, D4. fold (fts_wc i rec). case_bool_decide as Hin.
    + destruct (list_to_map _ !! k) eqn:E; [done|]. by apply term_keys_lookup in E.
    + by rewrite (proj2 (term_keys_lookup i rec pk k _) Hin).
  - destruct (spatial_entry i rec) as [[h m]|].
    + intros ->%unchecked_ok. destruct (del_index i (h ++ pk) s Hf) as (D1 & D2 & D3 & D4 & _).
      split; [done|]. split; [done|]. split; [|done]. intros k. rewrite D3.
      destruct (decide (k = h ++ pk)) as [->|Hne].
      * by rewrite lookup_singleton_eq, lookup_delete_eq.
      * by rewrite lookup_singleton_ne, lookup_delete_ne by congruence.
    + unfold ret. intros Hp. simplify_eq. split; [apply only_index_refl|]. split; [done|]. split; [|done].
      intros k. by rewrite lookup_empty.
Qed.

(** ** The loop over the indexes *)

Lemma mfor_indexes (f : nat * index -> M unit) (P : hstate -> Prop)
    (Pre : nat * index -> gmap bytes bytes -> Prop) (R : nat * index -> gmap bytes bytes -> gmap bytes bytes -> Prop) l :
  NoDup l.*1 ->
  (forall e s s', e ∈ l -> P s -> Pre e (kv e.1 s) -> f e s = (inr tt, s') ->
     only_index e.1 s s' /\ P s' /\ R e (kv e.1 s) (kv e.1 s')) ->
  forall s s', P s -> (forall e, e ∈ l -> Pre e (kv e.1 s)) -> mfor f l s = (inr tt, s') ->
  P s' /\ (forall pk, cf_of None s' !! build_data_key pk = cf_of None s !! build_data_key pk) /\
  (forall e, e ∈ l -> R e (kv e.1 s) (kv e.1 s')) /\ (forall j, j ∉ l.*1 -> cf_of (Some j) s' = cf_of (Some j) s).
Proof.
  intros Hnd Hf. revert Hnd. induction l as [|e l IH]; intros Hnd s s' HP Hpre Hm; cbn [mfor] in Hm.
  { unfold ret in Hm. simplify_eq. split; [done|]. split; [done|]. split; [|done]. intros e He. by apply not_elem_of_nil in He. }
  rewrite fmap_cons in Hnd. apply NoDup_cons in Hnd as [Hni Hnd].
  apply bind_ok in Hm as ([] & s1 & He & Hrest).
  destruct (Hf e s s1 ltac:(set_solver) HP (Hpre e ltac:(set_solver)) He) as ([O1 O2] & HP1 & HR).
  assert (Hkv : forall j, j <> e.1 -> kv j s1 = kv j s) by (intros j Hj; unfold kv; by rewrite O1).
  assert (Hin : forall e', e' ∈ l -> e'.1 <> e.1).
  { intros e' He' E. apply Hni. apply list_elem_of_fmap. exists e'. split; [congruence|done]. }
  destruct (IH ltac:(intros; eapply Hf; eauto; set_solver) Hnd s1 s' HP1) as (A1 & A2 & A3 & A4); [|exact Hrest|].
  { intros e' He'. rewrite Hkv by auto. apply Hpre. set_solver. }
  split; [done|]. split; [intros pk; by rewrite A2, O2|]. split.
  - intros e' He'. apply elem_of_cons in He' as [->|He'].
    + unfold kv at 2. rewrite A4 by done. done.
    + rewrite <- Hkv by auto. by apply A3.
  - intros j Hj. rewrite fmap_cons in Hj. rewrite A4 by set_solver. apply O1. set_solver.
Qed.

Lemma active_nodup : NoDup (active_indexes sh).*1.
Proof.
  unfold active_indexes, numbered.
  assert (Hgen : forall (ks : list index) n,
    NoDup (List.filter (active sh) (imap (fun i k => ((n + i)%nat, k)) ks)).*1 /\
    Forall (fun j => (n <= j)%nat) (List.filter (active sh) (imap (fun i k => ((n + i)%nat, k)) ks)).*1).
  { induction ks as [|k ks IH]; intros n; [split; constructor|]. cbn [imap].
    rewrite (imap_ext _ (fun i k => ((S n + i)%nat, k))) by (intros; unfold compose; f_equal; lia).
    destruct (IH (S n)) as [H1 H2].
    assert (H3 : Forall (fun j => (n <= j)%nat) (List.filter (active sh) (imap (fun i k => ((S n + i)%nat, k)) ks)).*1)
      by (eapply Forall_impl; [exact H2|]; intros; cbn in *; lia).
    cbn [List.filter]. rewrite Nat.add_0_r. destruct (active sh (n, k)); [|done]. rewrite fmap_cons. split.
    - apply NoDup_cons. split; [|done]. intros Hin. rewrite Forall_forall in H2. apply H2 in Hin. cbn in Hin. lia.
    - constructor; [cbn; lia|done]. }
  apply (Hgen (keys sh) 0%nat).
Qed.

(** ** Consistency of abstract contents *)

Definition data_of (s : hstate) (pk : bytes) : option bytes := fst <$> cf_of None s !! build_data_key pk.

Record good (d : bytes -> option bytes) (m : nat * index -> gmap bytes bytes) (rows : gmap bytes Rec) : Prop := {
  g_data pk : d pk = serialize <$> rows !! pk;
  g_index e : e ∈ active_indexes sh ->
    forall k v, m e !! k = Some v <-> exists pk rec, rows !! pk = Some rec /\ entries e rec pk !! k = Some v;
  g_pk pk rec : rows !! pk = Some rec -> keyed rec pk
}.

Lemma consistent_good s rows : consistent s rows <-> good (data_of s) (fun e => kv e.1 s) rows.
Proof. split; intros [H1 H2 H3]; split; auto. Qed.

Lemma good_insert d d' m m' rows pk rec :
  good d m rows -> rows !! pk = None \/ active_indexes sh = [] -> keyed rec pk ->
  (forall p, d' p = if decide (p = pk) then Some (serialize rec) else d p) ->
  (forall e, e ∈ active_indexes sh -> m' e = entries e rec pk ∪ m e) ->
  good d' m' (<[pk := rec]> rows).
Proof.
  intros [Hd Hm Hp] Hnew Hk Hd' Hm'. split.
  - intros p. rewrite Hd'. case_decide as E; [subst; by rewrite lookup_insert_eq|]. rewrite lookup_insert_ne by done. apply Hd.
  - intros e He k v. destruct Hnew as [Hnew|Hnil]; [|rewrite Hnil in He; by apply not_elem_of_nil in He].
    rewrite Hm', lookup_union_Some_raw by done. split.
    + intros [Hv|[_ Hv]].
      * exists pk, rec. by rewrite lookup_insert_eq.
      * apply Hm in Hv as (p & r & Hr & Hv); [|done]. exists p, r. split; [|done].
        rewrite lookup_insert_ne; [done|]. intros ->. congruence.
    + intros (p & r & Hr & Hv). destruct (decide (p = pk)) as [->|Hne].
      * rewrite lookup_insert_eq in Hr. simplify_eq. by left.
      * rewrite lookup_insert_ne in Hr by done. right. split; [|apply Hm; [done|]; eauto].
        destruct (entries e rec pk !! k) eqn:E; [|done]. exfalso. apply Hne. by eapply entries_apart.
  - intros p r Hr. destruct (decide (p = pk)) as [->|Hne].
    + rewrite lookup_insert_eq in Hr. by simplify_eq.
    + rewrite lookup_insert_ne in Hr by done. by apply Hp.
Qed.

Lemma good_delete d d' m m' rows pk rec :
  good d m rows -> rows !! pk = Some rec ->
  (forall p, d' p = if decide (p = pk) then None else d p) ->
  (forall e, e ∈ active_indexes sh -> m' e = m e ∖ entries e rec pk) ->
  good d' m' (delete pk rows).
Proof.
  intros [Hd Hm Hp] Hrow Hd' Hm'. split.
  - intros p. rewrite Hd'. case_decide as E; [subst; by rewrite lookup_delete_eq|]. rewrite lookup_delete_ne by done. apply Hd.
  - intros e He k v. rewrite Hm', lookup_difference_Some by done. split.
    + intros [Hv Hno]. apply Hm in Hv as (p & r & Hr & Hv); [|done]. exists p, r. split; [|done].
      rewrite lookup_delete_ne; [done|]. intros <-. simplify_eq.
    + intros (p & r & Hr & Hv). apply lookup_delete_Some in Hr as [Hne Hr]. split; [apply Hm; eauto|].
      destruct (entries e rec pk !! k) eqn:E; [|done]. exfalso. apply Hne. by eapply entries_apart.
  - intros p r Hr. apply lookup_delete_Some in Hr as [_ Hr]. by apply Hp.
Qed.

Lemma good_update d d' m m' rows old_pk new_pk old new :
  good d m rows -> rows !! old_pk = Some old -> new_pk = old_pk \/ rows !! new_pk = None -> keyed new new_pk ->
  (forall p, d' p = if decide (p = new_pk) then Some (serialize new) else if decide (p = old_pk) then None else d p) ->
  (forall e, e ∈ active_indexes sh -> m' e = entries e new new_pk ∪ (m e ∖ entries e old old_pk)) ->
  good d' m' (<[new_pk := new]> (delete old_pk rows)).
Proof.
  intros Hg Hrow Hpk Hk Hd' Hm'.
  eapply (good_insert (fun p => if decide (p = old_pk) then None else d p) d' (fun e => m e ∖ entries e old old_pk) m').
  - by eapply good_delete.
  - left. apply lookup_delete_None. destruct Hpk as [->|Hn]; auto.
  - done.
  - done.
  - done.
Qed.

Lemma without_difference e rec pk m m' : without e rec pk m m' -> m' = m ∖ entries e rec pk.
Proof. intros Hw. apply map_eq. intros k. rewrite Hw, lookup_difference. by destruct (entries e rec pk !! k). Qed.

(** Calls that leave the column families alone. *)
Definition quiet (m : M unit) : Prop := forall s r s', m s = (r, s') ->
  cfs s' = cfs s /\ current_pk s' = current_pk s /\ (faults s = [] -> r = inr tt /\ faults s' = []).

Lemma quiet_bulk on n : quiet (count_bulk on n).
Proof.
  intros s r s'. unfold count_bulk, when. destruct on; [|unfold ret; intros Hr; by simplify_eq].
  unfold bind, modify. cbn [bulk_ops set_bulk]. case_match.
  - unfold bulk_commit, bind, checked. destruct (next_rc _) as [rc s1] eqn:En.
    destruct (next_rc_spec _ _ _ En) as (H1 & H2 & _ & _ & H5). case_bool_decide; intros Hr; unfold modify in Hr; simplify_eq; cbn.
    + split; [done|]. split; [done|]. intros Hf. split; [done|]. by destruct (H5 Hf) as [_ ->].
    + split; [done|]. split; [done|]. intros Hf. by destruct (H5 Hf) as [-> _].
  - intros Hr. by simplify_eq.
Qed.

Lemma quiet_cf m s r s' c : quiet m -> m s = (r, s') -> cf_of c s' = cf_of c s.
Proof. intros Hq Hm. apply cf_of_cfs. by eapply Hq. Qed.

(** ** write_row *)

Definition pk_generated (en : stmt_env) : bool :=
  match en_autoinc en with
  | Some (before, _, _) => (before =? 0) && has_user_pk sh && Nat.eqb (length (pk_fields sh)) 1
  | None => false
  end.

(** The key the row gets. *)
Definition row_pk (s : hstate) (rec : Rec) : bytes :=
  if has_user_pk sh then pk_bytes rec else encode_be64 (next_row_id s).

(** Whether the primary key is looked up before the insert. *)
Definition pk_checked (en : stmt_env) : bool :=
  has_user_pk sh && negb (en_skip_unique en || pk_generated en) &&
  negb (en_write_can_replace en && Nat.eqb (num_secondary_indexes sh) 0).

Lemma auto_increment_ok en s g s1 : auto_increment sh en s = (inr g, s1) ->
  g = pk_generated en /\ cfs s1 = cfs s /\ next_row_id s1 = next_row_id s /\ dup_iter s1 = dup_iter s /\ faults s1 = faults s.
Proof.
  unfold auto_increment, pk_generated. destruct (en_autoinc en) as [[[b rc] a]|]; [|intros [= <- <-]; done].
  case_bool_decide; [|done]. intros [= <- <-]. done.
Qed.

Lemma new_pk_ok rec s pk s1 : new_pk sh rec s = (inr pk, s1) ->
  pk = row_pk s rec /\ cfs s1 = cfs s /\ dup_iter s1 = dup_iter s /\ faults s1 = faults s.
Proof. unfold new_pk, row_pk. destruct (has_user_pk sh); intros [= <- <-]; done. Qed.

Lemma pk_dup_check_ok en skip pk s s1 : pk_dup_check sh en skip pk s = (inr tt, s1) ->
  cfs s1 = cfs s /\ dup_iter s1 = dup_iter s /\
  (has_user_pk sh && negb skip && negb (en_write_can_replace en && Nat.eqb (num_secondary_indexes sh) 0) = true ->
   cf_of None s !! build_data_key pk = None).
Proof.
  unfold pk_dup_check. case_match; [|intros [= <-]; done]. unfold tdb_txn_get.
  destruct (next_rc s) as [rc s2] eqn:En. destruct (next_rc_spec _ _ _ En) as (H1 & _ & H3 & _ & _).
  rewrite <- (cf_of_cfs None s s2 H1).
  destruct rc; try done; destruct (cf_of None s2 !! build_data_key pk); try done; intros [= <-]; done.
Qed.

(** The seek finds a key with the prefix when there is one. *)
Lemma seek_key_spec (p : bytes) (c : cf) (k : bytes) : is_Some (c !! k) -> bytes_compare k p <> Lt ->
  exists b, seek_key p c = Some b /\ bytes_compare b p <> Lt /\ (b = k \/ bytes_lt b k).
Proof.
  intros [v Hv%elem_of_map_to_list] Hk. unfold seek_key.
  assert (Hin : In k (map fst (map_to_list c))) by (apply in_map_iff; exists (k, v); split; [done|by apply list_elem_of_In]).
  clear Hv. induction (map fst (map_to_list c)) as [|a l IH]; [done|]. cbn [foldr]. set (best := foldr _ None l) in *.
  assert (Hbest : forall b, best = Some b -> bytes_compare b p <> Lt).
  { clear. unfold best. clear best. induction l as [|a l IH]; cbn [foldr]; [done|]. set (best := foldr _ None l) in *. intros b.
    destruct (bytes_compare a p) eqn:Ea; [| by apply IH |]; destruct best as [b0|]; try (intros [= <-]; congruence);
      (destruct (bytes_compare a b0); [by apply IH | intros [= <-]; congruence | by apply IH]). }
  destruct Hin as [->|Hin].
  - destruct best as [b|]; [|destruct (bytes_compare k p) eqn:Ek; [|done|]; exists k; rewrite Ek; auto].
    specialize (Hbest b eq_refl). destruct (bytes_compare k p) eqn:Ek; [|done|]; (destruct (bytes_compare k b) eqn:Ekb;
      [apply bytes_compare_eq in Ekb as ->; exists b; auto
      |exists k; rewrite Ek; auto
      |exists b; split; [done|]; split; [done|]; right; unfold bytes_lt; by rewrite bytes_compare_antisym, Ekb]).
  - destruct (IH Hin) as (b & E & Hb & Hle). rewrite E. destruct (bytes_compare a p) eqn:Ea; [|by exists b|];
      (destruct (bytes_compare a b) eqn:Eab; [by exists b| |by exists b]; exists a; split; [done|]; split; [congruence|]; right;
       destruct Hle as [<-|Hle]; [done|by eapply bytes_lt_trans]).
Qed.

Lemma seek_finds_prefix (p : bytes) (c : cf) (k : bytes) : is_Some (c !! k) -> take (length p) k = p ->
  exists b, seek_key p c = Some b /\ take (length p) b = p.
Proof.
  intros Hk Ht. assert (Hp : has_prefix p k = true) by (unfold has_prefix; by rewrite bool_decide_true).
  destruct (seek_key_spec p c k Hk (has_prefix_not_lt _ _ Hp)) as (b & E & Hb & Hle). exists b. split; [done|].
  destruct Hle as [->|Hle]; [done|]. pose proof (has_prefix_between p b k Hb Hle Hp) as Hx. unfold has_prefix in Hx. by apply bool_decide_eq_true in Hx.
Qed.

Definition checks_unique (ix : index) : bool := match ix_kind ix with Regular => ix_unique ix | _ => false end.

(** The check of an index sees the index as it is: its iterator shows later writes or is new,
    and the seek and the read of the key succeed. *)
Definition check_reads (en : stmt_env) (s : hstate) (i : nat) : Prop :=
  (en_iter_live en = true \/ dup_iter s !! i = None) /\ en_seek en i = TDB_SUCCESS /\ en_key en i = TDB_SUCCESS.

Definition absent (rec : Rec) (s : hstate) (e : nat * index) : Prop :=
  checks_unique e.2 = true -> forall k v, cf_of (Some e.1) s !! k = Some v -> take (length (idx_prefix e.1 rec)) k <> idx_prefix e.1 rec.

Lemma unique_one_ok en rec e s s1 : unique_check_one sh en rec e s = (inr tt, s1) ->
  cfs s1 = cfs s /\ (forall j, j <> e.1 -> dup_iter s1 !! j = dup_iter s !! j) /\ (check_reads en s e.1 -> absent rec s e).
Proof.
  destruct e as [i ix]. unfold unique_check_one, absent, checks_unique, check_reads. cbn [fst snd].
  set (b := match ix_kind ix with Regular => ix_unique ix | _ => false end). destruct b; [|intros [= <-]; done].
  intros ([] & s2 & Hit & Hchk)%bind_ok. revert Hchk.
  assert (Hs2 : cfs s2 = cfs s /\ (forall j, j <> i -> dup_iter s2 !! j = dup_iter s !! j) /\
    (en_iter_live en = true \/ dup_iter s !! i = None -> iter_view en i s2 = cf_of (Some i) s)).
  { destruct (dup_iter s !! i) eqn:Ed.
    - simplify_eq. split; [done|]. split; [done|]. intros [Hl|]; [|done]. unfold iter_view. by rewrite Hl.
    - apply bind_ok in Hit as ([] & s3 & Hc & Hm). apply checked_ok in Hc. unfold modify in Hm. simplify_eq.
      destruct (next_rc_spec _ _ _ Hc) as (H1 & _ & H3 & _ & _). split; [done|]. split.
      + intros j Hj. cbn. rewrite lookup_insert_ne by done. by rewrite H3.
      + intros _. unfold iter_view. cbn [dup_iter set_iters]. rewrite lookup_insert_eq. cbn [default].
        change (cf_of (Some i) (set_iters _ s3)) with (cf_of (Some i) s3). rewrite (cf_of_cfs _ _ _ H1). by case_match. }
  destruct Hs2 as (H1 & H2 & H3). unfold key_under. intros Hchk.
  assert (Hs1 : s1 = s2) by (repeat case_match; by simplify_eq). subst s1. split; [done|]. split; [done|].
  intros (Hl & Hseek & Hkey) _ k v Hk Ht. rewrite (H3 Hl) in Hchk.
  destruct (seek_finds_prefix _ _ _ (mk_is_Some _ _ Hk) Ht) as (b & E & Hb).
  rewrite !bool_decide_true in Hchk by done. rewrite E in Hchk. by rewrite bool_decide_true in Hchk.
Qed.

Lemma unique_check_ok en rec (l : list (nat * index)) s s1 :
  NoDup l.*1 -> mfor (unique_check_one sh en rec) l s = (inr tt, s1) ->
  cfs s1 = cfs s /\ forall e, e ∈ l -> check_reads en s e.1 -> absent rec s e.
Proof.
  revert s. induction l as [|e l IH]; intros s Hnd Hm; cbn [mfor] in Hm.
  { unfold ret in Hm. simplify_eq. split; [done|]. intros e He. by apply not_elem_of_nil in He. }
  rewrite fmap_cons in Hnd. apply NoDup_cons in Hnd as [Hni Hnd]. apply bind_ok in Hm as ([] & s2 & H1 & Hm).
  destruct (unique_one_ok _ _ _ _ _ H1) as (A1 & A2 & A3). destruct (IH s2 Hnd Hm) as (B1 & B2).
  split; [congruence|]. intros e' He' Hr. apply elem_of_cons in He' as [->|He']; [by apply A3|].
  assert (Hab : absent rec s2 e').
  { apply B2; [done|]. destruct Hr as (Hl & Hr). split; [|done]. rewrite A2; [done|].
    intros E. apply Hni. apply list_elem_of_fmap. by exists e'. }
  intros Hc k v. rewrite <- (cf_of_cfs _ s s2 A1). by apply Hab.
Qed.

(** No two rows agree on the columns of a unique index. *)
Definition distinct_on (e : nat * index) (rows : gmap bytes Rec) : Prop :=
  forall p1 p2 r1 r2, rows !! p1 = Some r1 -> rows !! p2 = Some r2 -> idx_prefix e.1 r1 = idx_prefix e.1 r2 -> p1 = p2.

Lemma when_ok b (m : M unit) s s' : when b m s = (inr tt, s') -> (b = true /\ m s = (inr tt, s')) \/ (b = false /\ s' = s).
Proof. unfold when, ret. destruct b; [auto|]. intros [= <-]. auto. Qed.

Lemma guard_ok (b : bool) rc s s' : (if b then fail rc else ret tt) s = (inr tt, s') -> b = false /\ s' = s.
Proof. destruct b; [done|]. by intros [= <-]. Qed.

Lemma guard_ok' (b : bool) rc s s' : (if b then ret tt else fail rc) s = (inr tt, s') -> b = true /\ s' = s.
Proof. destruct b; [|done]. by intros [= <-]. Qed.

(** What a successful insert has checked and done. *)
Lemma write_row_effect en rec s s' :
  write_row sh en rec s = (inr tt, s') ->
  let pk := row_pk s rec in
  keyed rec pk /\
  (pk_checked en = true -> cf_of None s !! build_data_key pk = None) /\
  (en_skip_unique en = false -> forall e, e ∈ active_indexes sh -> check_reads en s e.1 -> absent rec s e) /\
  (forall p, data_of s' p = if decide (p = pk) then Some (serialize rec) else data_of s p) /\
  (forall e, e ∈ active_indexes sh -> kv e.1 s' = entries e rec pk ∪ kv e.1 s) /\
  current_pk s' = pk.
Proof.
  intros Hw. unfold write_row in Hw.
  apply bind_ok in Hw as (g & s1 & Ha & Hw). apply auto_increment_ok in Ha as (-> & C1 & N1 & D1 & _).
  apply bind_ok in Hw as (pk & s2 & Hn & Hw). apply new_pk_ok in Hn as (Hpk & C2 & D2 & _).
  assert (Epk : pk = row_pk s rec) by (rewrite Hpk; unfold row_pk; by rewrite N1). clear Hpk. cbv zeta. rewrite <- Epk.
  apply bind_ok in Hw as ([] & s3 & Hg & Hw). apply guard_ok in Hg as [_ ->].
  apply bind_ok in Hw as ([] & s3 & Hg & Hw). apply guard_ok' in Hg as [_ ->].
  apply bind_ok in Hw as ([] & s3 & Hg & Hw). apply guard_ok in Hg as [_ ->].
  apply bind_ok in Hw as ([] & s4 & Hdup & Hw). apply pk_dup_check_ok in Hdup as (C4 & D4 & Hnone).
  apply bind_ok in Hw as ([] & s5 & Huniq & Hw).
  assert (Hk : keyed rec pk) by (intros Hu; rewrite Epk; unfold row_pk; by rewrite Hu).
  assert (C25 : cfs s5 = cfs s4 /\ (en_skip_unique en = false -> forall e, e ∈ active_indexes sh -> check_reads en s e.1 -> absent rec s e)).
  { apply when_ok in Huniq as [[_ Hu]|[Hz ->]].
    - unfold unique_check in Hu. destruct (en_skip_unique en); [unfold ret in Hu; by simplify_eq|].
      apply unique_check_ok in Hu as [Hc Hab]; [|apply active_nodup]. split; [done|]. intros _ e He Hit.
      assert (Hae : absent rec s4 e).
      { apply Hab; [done|]. unfold check_reads. by rewrite D4, D2, D1. }
      intros Hc' k v. rewrite <- (cf_of_cfs _ s s4) by congruence. by apply Hae.
    - split; [done|]. intros _ e He _. apply negb_false_iff, Nat.eqb_eq in Hz. unfold num_secondary_indexes in Hz.
      apply length_zero_iff_nil in Hz. rewrite Hz in He. by apply not_elem_of_nil in He. }
  destruct C25 as [C5 Habs]. assert (Cs : cfs s5 = cfs s) by congruence.
  apply bind_ok in Hw as ([] & s6 & Hput & Hw). apply checked_ok, put_spec in Hput as (P1 & P2 & P3 & _).
  rewrite bool_decide_true in P3 by done.
  apply bind_ok in Hw as ([] & s7 & Hm & Hw). unfold modify in Hm. apply (f_equal snd) in Hm. cbn [snd] in Hm. subst s7.
  apply bind_ok in Hw as ([] & s8 & Hloop & Hw). apply quiet_bulk in Hw as (Q1 & Q2 & _).
  assert (Hloop' := mfor_indexes (insert_entry sh en rec pk (row_ttl sh en rec)) (fun s => current_pk s = pk) (fun _ _ => True)
    (fun e m m' => m' = entries e rec pk ∪ m) (active_indexes sh) active_nodup).
  destruct (Hloop' ltac:(intros e t t' _ Ht _ He; apply insert_entry_spec in He as (A1 & A2 & A3 & _); [|done]; split; [done|]; split; [congruence|done])
              (set_pk pk s6) s8 eq_refl ltac:(done) Hloop) as (A1 & A2 & A3 & _).
  split; [done|]. split; [|split; [exact Habs|split; [|split]]].
  - intros Hc. specialize (Hnone Hc). rewrite <- (cf_of_cfs None s s2) by congruence. exact Hnone.
  - intros p. unfold data_of. rewrite (cf_of_cfs _ _ _ Q1), A2.
    change (cf_of None (set_pk pk s6)) with (cf_of None s6). rewrite P3, (cf_of_cfs _ _ _ Cs).
    destruct (decide (p = pk)) as [->|Hne]; [by rewrite lookup_insert_eq|].
    rewrite lookup_insert_ne; [done|]. unfold build_data_key. congruence.
  - intros e He. unfold kv at 1. rewrite (cf_of_cfs _ _ _ Q1). fold (kv e.1 s8). rewrite (A3 e He). f_equal.
    unfold kv. change (cf_of (Some e.1) (set_pk pk s6)) with (cf_of (Some e.1) s6). rewrite P1 by done.
    by rewrite (cf_of_cfs _ _ _ Cs).
  - congruence.
Qed.

(** ** delete_row *)

Lemma mfor_total {A} (f : A -> M unit) (l : list A) :
  (forall a s, a ∈ l -> faults s = [] -> exists s', f a s = (inr tt, s') /\ faults s' = []) ->
  forall s, faults s = [] -> exists s', mfor f l s = (inr tt, s') /\ faults s' = [].
Proof.
  induction l as [|a l IH]; intros Hf s Hs; cbn [mfor]; [by exists s|].
  destruct (Hf a s ltac:(set_solver) Hs) as (s1 & H1 & H2).
  destruct (IH ltac:(intros; apply Hf; [set_solver|done]) s1 H2) as (s2 & H3 & H4).
  exists s2. unfold bind. by rewrite H1.
Qed.

Lemma checked_put_total c k v ttl s : faults s = [] ->
  exists s', checked (tidesdb_txn_put c k v ttl) s = (inr tt, s') /\ faults s' = [].
Proof.
  intros Hf. unfold checked. destruct (tidesdb_txn_put c k v ttl s) as [rc s'] eqn:E.
  destruct (put_spec _ _ _ _ _ _ _ E) as (_ & _ & _ & H4). destruct (H4 Hf) as [-> Hf']. by exists s'.
Qed.

Lemma checked_delete_total b c k s : faults s = [] ->
  exists s', checked (tidesdb_txn_delete_cf b c k) s = (inr tt, s') /\ faults s' = [].
Proof.
  intros Hf. unfold checked. destruct (tidesdb_txn_delete_cf b c k s) as [rc s'] eqn:E.
  destruct (delete_spec _ _ _ _ _ _ E) as (_ & _ & _ & H4). destruct (H4 Hf) as [-> Hf']. by exists s'.
Qed.

Lemma unchecked_delete_total b c k s : faults s = [] ->
  exists s', unchecked (tidesdb_txn_delete_cf b c k) s = (inr tt, s') /\ faults s' = [].
Proof.
  intros Hf. unfold unchecked. destruct (tidesdb_txn_delete_cf b c k s) as [rc s'] eqn:E.
  destruct (delete_spec _ _ _ _ _ _ E) as (_ & _ & _ & H4). destruct (H4 Hf) as [-> Hf']. by exists s'.
Qed.

Lemma meta_total i d w s : faults s = [] ->
  exists s', unchecked (fts_update_meta i d w) s = (inr tt, s') /\ faults s' = [].
Proof. intros Hf. eexists. split; [done|]. by apply meta_update. Qed.

Lemma bind_total {B} (m : M unit) (k : unit -> M B) (b : B) s :
  (exists s1, m s = (inr tt, s1) /\ faults s1 = []) ->
  (forall s1, faults s1 = [] -> exists s2, k tt s1 = (inr b, s2) /\ faults s2 = []) ->
  exists s2, bind m k s = (inr b, s2) /\ faults s2 = [].
Proof. intros (s1 & H1 & H2) Hk. destruct (Hk s1 H2) as (s2 & H3 & H4). exists s2. unfold bind. by rewrite H1. Qed.

Lemma when_total b (m : M unit) s : faults s = [] -> (exists s', m s = (inr tt, s') /\ faults s' = []) ->
  exists s', when b m s = (inr tt, s') /\ faults s' = [].
Proof. intros Hf Hm. destruct b; [done|]. by exists s. Qed.

Lemma bulk_total on n s : faults s = [] -> exists s', count_bulk on n s = (inr tt, s') /\ faults s' = [].
Proof.
  intros Hf. destruct (count_bulk on n s) as [r s'] eqn:E. destruct (quiet_bulk on n s r s' E) as (_ & _ & H3).
  destruct (H3 Hf) as [-> Hf']. by exists s'.
Qed.

Lemma delete_entry_total rec pk e s : faults s = [] ->
  exists s', delete_entry sh rec pk e s = (inr tt, s') /\ faults s' = [].
Proof.
  intros Hf. destruct e as [i ix]. unfold delete_entry. destruct (ix_kind ix).
  - by apply checked_delete_total.
  - apply bind_total; [|intros; by apply meta_total]. unfold fts_dels. apply mfor_total; [|done].
    intros; by apply unchecked_delete_total.
  - destruct (spatial_entry i rec) as [[h m]|]; [by apply unchecked_delete_total|by exists s].
Qed.

Lemma delete_row_effect en rec s :
  faults s = [] -> en_ensure en = HA_OK -> keyed rec (current_pk s) ->
  exists s', delete_row sh en rec s = (inr tt, s') /\ faults s' = [] /\
  (forall p, data_of s' p = if decide (p = current_pk s) then None else data_of s p) /\
  (forall e, e ∈ active_indexes sh -> kv e.1 s' = kv e.1 s ∖ entries e rec (current_pk s)).
Proof.
  intros Hf Hen Hk. unfold delete_row. rewrite bool_decide_true by done. set (pk := current_pk s) in *.
  set (dk := build_data_key pk).
  assert (Htrack : exists s1, when (en_bulk_delete en && (0 <? en_compact_min_rows en))
     (modify (fun s => set_bulk (bulk_ops s) (track_bounds dk (bulk_bounds s)) s)) s = (inr tt, s1) /\ faults s1 = [] /\ cfs s1 = cfs s).
  { unfold when, modify, ret. case_match; by eexists. }
  destruct Htrack as (s1 & T1 & T2 & T3).
  destruct (checked_delete_total (en_single_delete_primary en) None dk s1 T2) as (s2 & D1 & D2).
  destruct (mfor_total (delete_entry sh rec pk) (active_indexes sh) ltac:(intros; by apply delete_entry_total) s2 D2) as (s3 & L1 & L2).
  destruct (bulk_total (en_bulk_delete en) (1 + Z.of_nat (num_secondary_indexes sh)) s3 L2) as (s4 & B1 & B2).
  exists s4. split; [|split; [done|]].
  { unfold bind, ret at 1. fold pk. fold dk. rewrite T1, D1, L1. exact B1. }
  apply quiet_bulk in B1 as (Q1 & _). apply checked_ok, delete_spec in D1 as (P1 & _ & P3 & _).
  rewrite bool_decide_true in P3 by done.
  destruct (mfor_indexes (delete_entry sh rec pk) (fun s => faults s = []) (fun _ _ => True)
    (fun e m m' => m' = m ∖ entries e rec pk) (active_indexes sh) active_nodup
    ltac:(intros e t t' _ Ht _ He; apply delete_entry_spec in He as (A1 & A2 & A3 & A4); [|done|done];
          split; [done|]; split; [done|]; by apply without_difference)
    s2 s3 D2 ltac:(done) L1) as (_ & A2 & A3 & _).
  split.
  - intros p. unfold data_of. rewrite (cf_of_cfs _ _ _ Q1), A2, P3, (cf_of_cfs _ _ _ T3). unfold dk.
    destruct (decide (p = pk)) as [->|Hne]; [by rewrite lookup_delete_eq|].
    rewrite lookup_delete_ne; [done|]. unfold build_data_key. congruence.
  - intros e He. unfold kv at 1. rewrite (cf_of_cfs _ _ _ Q1). fold (kv e.1 s3). rewrite (A3 e He). f_equal.
    unfold kv. rewrite P1 by done. by rewrite (cf_of_cfs _ _ _ T3).
Qed.

(** ** update_row *)

Definition entry_touched (en : stmt_env) (ix : index) : bool :=
  match ix_kind ix with
  | Spatial => match ix_fields ix with f :: _ => bool_decide (f ∈ en_write_set en) | [] => false end
  | _ => touches en (ix_fields ix)
  end.

(** Columns outside the write set keep their values. *)
Definition same_source (e : nat * index) (old new : Rec) : Prop :=
  match ix_kind e.2 with
  | Regular => idx_prefix e.1 old = idx_prefix e.1 new
  | Fulltext => fts_tokens e.1 old = fts_tokens e.1 new
  | Spatial => spatial_entry e.1 old = spatial_entry e.1 new
  end.

Lemma same_entries e old new pk : same_source e old new -> entries e new pk = entries e old pk.
Proof.
  destruct e as [i ix]. unfold same_source, entries, fts_terms, fts_wc. cbn [fst snd].
  destruct (ix_kind ix); by intros <-.
Qed.

Definition moved (e : nat * index) (old new : Rec) (old_pk new_pk : bytes) (m m' : gmap bytes bytes) : Prop :=
  m' = entries e new new_pk ∪ (m ∖ entries e old old_pk).

Lemma moved_same e old new pk m : entries e old pk ⊆ m -> entries e new pk = entries e old pk ->
  moved e old new pk pk m m.
Proof. intros Hs He. unfold moved. rewrite He. symmetry. by apply map_difference_union. Qed.

Lemma union_Some_left {A} (a : A) (o : option A) : Some a ∪ o = Some a.
Proof. by destruct o. Qed.

Lemma fts_map_lookup i rec pk wc f k v :
  (list_to_map ((fun t => (fts_build_key t.1 pk, fts_build_value t.2 wc)) <$> List.filter f (fts_terms i rec)) : gmap bytes bytes) !! k = Some v
  <-> exists t, t ∈ fts_terms i rec /\ f t = true /\ k = fts_build_key t.1 pk /\ v = fts_build_value t.2 wc.
Proof.
  rewrite <- elem_of_list_to_map.
  2: { rewrite <- list_fmap_compose. apply fts_keys_nodup. }
  rewrite list_elem_of_fmap. split.
  - intros (t & [= -> ->] & Hin). exists t. apply list_elem_of_In, filter_In in Hin as [Hin Hf].
    apply list_elem_of_In in Hin. auto.
  - intros (t & Hin & Hf & -> & ->). exists t. split; [done|]. apply list_elem_of_In, filter_In.
    split; [by apply list_elem_of_In|done].
Qed.

Lemma fts_entries_lookup i rec pk k v :
  (list_to_map ((fun t => (fts_build_key t.1 pk, fts_build_value t.2 (fts_wc i rec))) <$> fts_terms i rec) : gmap bytes bytes) !! k = Some v
  <-> exists t, t ∈ fts_terms i rec /\ k = fts_build_key t.1 pk /\ v = fts_build_value t.2 (fts_wc i rec).
Proof.
  pose proof (fts_map_lookup i rec pk (fts_wc i rec) (fun _ => true) k v) as Hl. rewrite filter_true_id in Hl.
  rewrite Hl. split.
  - intros (t & ? & _ & ? & ?). eauto.
  - intros (t & ? & ? & ?). eauto.
Qed.

Lemma term_tf i r (t : bytes * Z) : t ∈ fts_terms i r -> tf_map (fts_tokens i r) !! t.1 = Some t.2.
Proof. destruct t. intros Ht. by apply elem_of_map_to_list in Ht. Qed.

(** The terms that an update of a text deletes and those it writes. *)
Definition dropped_terms (i : nat) (old new : Rec) : list (bytes * Z) :=
  List.filter (fun t => bool_decide (tf_map (fts_tokens i new) !! t.1 = None)) (fts_terms i old).

Definition written_terms (i : nat) (old new : Rec) : list (bytes * Z) :=
  List.filter (fun t => match tf_map (fts_tokens i old) !! t.1 with
                        | None => true | Some n => negb (fts_wc i old =? fts_wc i new) || negb (n =? t.2) end) (fts_terms i new).

Lemma elem_dropped i old new t : t ∈ dropped_terms i old new <-> t ∈ fts_terms i old /\ tf_map (fts_tokens i new) !! t.1 = None.
Proof. unfold dropped_terms. rewrite list_elem_of_In, filter_In, <- list_elem_of_In. by rewrite bool_decide_eq_true. Qed.

(** Entries that stay are those of the old text. *)
Lemma kept_term i old new t : t ∈ fts_terms i new -> t ∉ written_terms i old new ->
  tf_map (fts_tokens i old) !! t.1 = Some t.2 /\ fts_wc i old = fts_wc i new.
Proof.
  unfold written_terms. rewrite !list_elem_of_In, filter_In. intros Ht Hn.
  destruct (tf_map (fts_tokens i old) !! t.1) as [n|]; [|by destruct Hn].
  destruct (Z.eqb_spec (fts_wc i old) (fts_wc i new)), (Z.eqb_spec n t.2); cbn in Hn; try (by destruct Hn). by subst.
Qed.

Definition term_entries (i : nat) (r : Rec) (pk : bytes) (l : list (bytes * Z)) : gmap bytes bytes :=
  list_to_map ((fun t : bytes * Z => (fts_build_key t.1 pk, fts_build_value t.2 (fts_wc i r))) <$> l).

(** What the deletes and the puts leave under a key. *)
Lemma fts_diff_lookup (i : nat) (old new : Rec) (pk : bytes) (m m1 : gmap bytes bytes) (k : bytes) :
  term_entries i old pk (fts_terms i old) ⊆ m ->
  m1 !! k = (if bool_decide (k ∈ (fun t : bytes * Z => fts_build_key t.1 pk) <$> dropped_terms i old new) then None else m !! k) ->
  (term_entries i new pk (written_terms i old new) ∪ m1) !! k =
  (term_entries i new pk (fts_terms i new) ∪ m ∖ term_entries i old pk (fts_terms i old)) !! k.
Proof.
  intros Hsub K1. rewrite !lookup_union, lookup_difference, K1. clear K1.
  destruct (term_entries i new pk (written_terms i old new) !! k) as [v|] eqn:Ep; [apply fts_map_lookup in Ep as (t & Ht & Hfp & -> & ->)|].
  { unfold term_entries. rewrite (proj2 (fts_entries_lookup i new pk _ _)) by eauto. by rewrite !union_Some_left. }
  rewrite (left_id_L None _). destruct (term_entries i new pk (fts_terms i new) !! k) as [v|] eqn:En.
  - apply fts_entries_lookup in En as (t & Ht & -> & ->). destruct (kept_term i old new t Ht) as [Ho Hwc].
    { intros Hw. apply list_elem_of_In, filter_In in Hw as [_ Hw]. assert (Hs : term_entries i new pk (written_terms i old new) !! fts_build_key t.1 pk
        = Some (fts_build_value t.2 (fts_wc i new))) by (apply fts_map_lookup; eauto). by rewrite Hs in Ep. }
    rewrite bool_decide_false.
    + assert (Hm : m !! fts_build_key t.1 pk = Some (fts_build_value t.2 (fts_wc i new))).
      { eapply lookup_weaken; [|exact Hsub]. apply fts_entries_lookup. exists (t.1, t.2). rewrite Hwc.
        split; [by apply elem_of_map_to_list|done]. }
      by rewrite Hm, union_Some_left.
    + intros (t' & He & [Hin Hd]%elem_dropped)%list_elem_of_fmap. eapply term_key_inj in He; [|by eapply term_length..].
      destruct He as [He _]. rewrite <- He, (term_tf i new t Ht) in Hd. done.
  - rewrite (left_id_L None _). destruct (term_entries i old pk (fts_terms i old) !! k) as [v|] eqn:Eo.
    + apply fts_entries_lookup in Eo as (t & Ht & -> & ->). rewrite bool_decide_true; [done|].
      apply list_elem_of_fmap. exists t. split; [done|]. apply elem_dropped. split; [done|].
      destruct (tf_map (fts_tokens i new) !! t.1) as [n|] eqn:E; [|done]. exfalso.
      assert (Hs : term_entries i new pk (fts_terms i new) !! fts_build_key t.1 pk = Some (fts_build_value n (fts_wc i new))).
      { apply fts_entries_lookup. exists (t.1, n). split; [by apply elem_of_map_to_list|done]. }
      by rewrite Hs in En.
    + rewrite bool_decide_false; [done|]. intros (t' & He & [Hin _]%elem_dropped)%list_elem_of_fmap.
      assert (Hs : term_entries i old pk (fts_terms i old) !! k = Some (fts_build_value t'.2 (fts_wc i old))) by (apply fts_entries_lookup; eauto).
      by rewrite Hs in Eo.
Qed.

Lemma fts_diff_spec i old new pk ttl ix s :
  ix_kind ix = Fulltext -> faults s = [] -> entries (i, ix) old pk ⊆ kv i s ->
  exists s', fts_diff i pk ttl (fts_wc i old) (fts_wc i new) (tf_map (fts_tokens i old)) (tf_map (fts_tokens i new)) s = (inr tt, s') /\
  only_index i s s' /\ current_pk s' = current_pk s /\ faults s' = [] /\ moved (i, ix) old new pk pk (kv i s) (kv i s').
Proof.
  intros Hkind Hf Hsub. unfold fts_diff. fold (fts_terms i old) (fts_terms i new). fold (dropped_terms i old new) (written_terms i old new).
  destruct (dels_index i (fun t : bytes * Z => fts_build_key t.1 pk) (dropped_terms i old new) s Hf) as (s1 & M1 & O1 & C1 & F1 & K1).
  destruct (mfor_total (fun t => checked (tidesdb_txn_put (Some i) (fts_build_key t.1 pk) (fts_build_value t.2 (fts_wc i new)) ttl))
              (written_terms i old new) ltac:(intros; by apply checked_put_total) s1 F1) as (s2 & M2 & F2).
  exists s2. split; [unfold bind, fts_dels; rewrite M1; exact M2|].
  apply fts_puts_spec in M2 as (O2 & C2 & K2 & _). split; [by eapply only_index_trans|]. split; [congruence|]. split; [done|].
  unfold moved. rewrite K2. apply map_eq. intros k. unfold entries in Hsub |- *. rewrite Hkind in Hsub |- *.
  by apply fts_diff_lookup.
Qed.

Lemma fts_dels_all i ix rec pk s :
  ix_kind ix = Fulltext -> faults s = [] ->
  exists s', fts_dels i pk (fts_terms i rec) s = (inr tt, s') /\ only_index i s s' /\ faults s' = [] /\
    kv i s' = kv i s ∖ entries (i, ix) rec pk.
Proof.
  intros Hkind Hf.
  destruct (dels_index i (fun t : bytes * Z => fts_build_key t.1 pk) (fts_terms i rec) s Hf) as (s' & M1 & O1 & _ & F1 & K1).
  exists s'. split; [done|]. split; [done|]. split; [done|]. apply map_eq. intros k. rewrite K1, lookup_difference.
  unfold entries. rewrite Hkind. case_bool_decide as Hin.
  - destruct (list_to_map _ !! k) eqn:E; [done|]. by apply term_keys_lookup in E.
  - by rewrite (proj2 (term_keys_lookup i rec pk k _) Hin).
Qed.

Lemma fts_puts_all i rec pk ttl s :
  faults s = [] ->
  exists s', fts_puts i pk (fts_wc i rec) ttl (fts_terms i rec) s = (inr tt, s') /\ only_index i s s' /\ faults s' = [] /\
    kv i s' = list_to_map ((fun t => (fts_build_key t.1 pk, fts_build_value t.2 (fts_wc i rec))) <$> fts_terms i rec) ∪ kv i s.
Proof.
  intros Hf.
  destruct (mfor_total (fun t => checked (tidesdb_txn_put (Some i) (fts_build_key t.1 pk) (fts_build_value t.2 (fts_wc i rec)) ttl))
              (fts_terms i rec) ltac:(intros; by apply checked_put_total) s Hf) as (s' & M & F).
  exists s'. split; [done|]. rewrite <- (filter_true_id (fts_terms i rec)) in M.
  apply fts_puts_spec in M as (O & _ & K & _). rewrite filter_true_id in K. done.
Qed.

Section Update.

Variables (en : stmt_env) (old new : Rec) (old_pk new_pk : bytes) (ttl : Z).
Hypothesis Hkeyed : keyed new new_pk.

(** What an update may assume of an index: its untouched columns are the same, and
    a change of the primary key comes with a change of a full-text or spatial column. *)
Definition index_ready (e : nat * index) : Prop :=
  (entry_touched en e.2 = false -> same_source e old new) /\
  (ix_kind e.2 <> Regular -> old_pk <> new_pk -> entry_touched en e.2 = true).

(** Whether [update_row] looks at an index at all. *)
Definition index_written (e : nat * index) : bool :=
  entry_touched en e.2 || (match ix_kind e.2 with Regular => true | _ => false end && negb (bool_decide (old_pk = new_pk))).

(** Entries move in the indexes it looks at, the others stay as they are. *)
Definition entry_effect (e : nat * index) (m m' : gmap bytes bytes) : Prop :=
  if index_written e then moved e old new old_pk new_pk m m' else m' = m.

Definition entry_done (e : nat * index) (s : hstate) : Prop :=
  exists s', update_entry sh en old new old_pk new_pk ttl e s = (inr tt, s') /\ only_index e.1 s s' /\ faults s' = [] /\
  entry_effect e (kv e.1 s) (kv e.1 s').

Lemma effect_moved e m m' : entries e old old_pk ⊆ m -> index_ready e -> entry_effect e m m' -> moved e old new old_pk new_pk m m'.
Proof.
  intros Hsub [Hsame Hpk]. unfold entry_effect, index_written. destruct (entry_touched en e.2) eqn:Et; [done|]. cbn [orb].
  destruct (decide (old_pk = new_pk)) as [<-|Hne].
  - rewrite (bool_decide_true (old_pk = old_pk)), andb_false_r by done. intros ->. apply moved_same; [done|]. by apply same_entries, Hsame.
  - rewrite bool_decide_false by done. destruct (ix_kind e.2) eqn:Ek; [done| |]; cbn; intros _; by specialize (Hpk ltac:(done) Hne).
Qed.

Lemma update_untouched e s : faults s = [] -> index_written e = false ->
  exists s', (ret tt : M unit) s = (inr tt, s') /\ only_index e.1 s s' /\ faults s' = [] /\ entry_effect e (kv e.1 s) (kv e.1 s').
Proof.
  intros Hf Hw. exists s. split; [done|]. split; [apply only_index_refl|]. split; [done|]. unfold entry_effect. by rewrite Hw.
Qed.

Lemma update_regular i ix s :
  ix_kind ix = Regular -> faults s = [] -> entries (i, ix) old old_pk ⊆ kv i s -> entry_done (i, ix) s.
Proof.
  intros Hkind Hf Hsub. unfold entry_done, update_entry. cbn [fst snd] in *. rewrite Hkind. unfold regular_update.
  assert (Ew : index_written (i, ix) = negb (bool_decide (old_pk = new_pk)) || touches en (ix_fields ix)).
  { unfold index_written, entry_touched. cbn [snd]. rewrite Hkind. apply orb_comm. }
  destruct (negb (bool_decide (old_pk = new_pk)) || touches en (ix_fields ix)) eqn:Et; cbn [when]; [|by apply (update_untouched (i, ix))].
  unfold entry_effect. rewrite Ew.
  rewrite (sec_key_keyed i new new_pk Hkeyed). unfold bind, modify at 1.
  set (s0 := set_pk new_pk s). assert (Hs0 : forall c, cf_of c s0 = cf_of c s) by done.
  assert (Hk0 : kv i s0 = kv i s) by done.
  unfold moved, entries in Hsub |- *. rewrite Hkind in Hsub |- *.
  destruct (bool_decide (idx_prefix i old ++ old_pk = idx_prefix i new ++ new_pk)) eqn:Eb; cbn [negb when].
  { apply bool_decide_eq_true in Eb. exists s0. split; [done|]. split; [by split|]. split; [done|].
    rewrite Hk0, <- Eb. symmetry. by apply map_difference_union. }
  destruct (checked_delete_total true (Some i) (idx_prefix i old ++ old_pk) s0 Hf) as (s1 & D1 & F1).
  destruct (checked_put_total (Some i) (idx_prefix i new ++ new_pk) tdb_empty_val ttl s1 F1) as (s2 & P1 & F2).
  exists s2. split; [by rewrite D1|]. apply checked_ok in D1.
  destruct (del_index i (idx_prefix i old ++ old_pk) s0 Hf) as (O1 & _ & K1 & _). rewrite D1 in O1, K1. cbn [snd] in *.
  apply put_index in P1 as (O2 & _ & K2 & _). split; [|split; [done|]].
  { eapply only_index_trans; [|exact O2]. destruct O1 as [A B]. split; [intros; by rewrite A|intros; by rewrite B]. }
  rewrite K2, K1, Hk0, <- insert_union_singleton_l. f_equal. apply map_eq. intros k. rewrite lookup_difference.
  destruct (decide (k = idx_prefix i old ++ old_pk)) as [->|Hne].
  - by rewrite lookup_delete_eq, lookup_singleton_eq.
  - by rewrite lookup_delete_ne, lookup_singleton_ne by congruence.
Qed.

Lemma update_fulltext i ix s :
  ix_kind ix = Fulltext -> faults s = [] -> entries (i, ix) old old_pk ⊆ kv i s -> entry_done (i, ix) s.
Proof.
  intros Hkind Hf Hsub. unfold entry_done, update_entry. cbn [fst snd] in *. rewrite Hkind. unfold fts_update.
  assert (Ew : index_written (i, ix) = touches en (ix_fields ix)).
  { unfold index_written, entry_touched. cbn [snd]. rewrite Hkind. apply orb_false_r. }
  destruct (touches en (ix_fields ix)) eqn:Et; cbn [when]; [|by apply (update_untouched (i, ix))].
  unfold entry_effect. rewrite Ew.
  assert (Hmain : exists s1,
    (if negb (bool_decide (old_pk = new_pk))
     then fts_dels i old_pk (fts_terms i old) ;; fts_puts i new_pk (fts_wc i new) ttl (fts_terms i new)
     else fts_diff i old_pk ttl (fts_wc i old) (fts_wc i new) (tf_map (fts_tokens i old)) (tf_map (fts_tokens i new))) s = (inr tt, s1) /\
    only_index i s s1 /\ faults s1 = [] /\ moved (i, ix) old new old_pk new_pk (kv i s) (kv i s1)).
  { case_bool_decide as Heq; cbn [negb].
    - destruct (fts_diff_spec i old new old_pk ttl ix s Hkind Hf Hsub) as (s1 & A & B & _ & C & D'). exists s1. rewrite <- Heq. auto.
    - destruct (fts_dels_all i ix old old_pk s Hkind Hf) as (s1 & A1 & B1 & C1 & D1).
      destruct (fts_puts_all i new new_pk ttl s1 C1) as (s2 & A2 & B2 & C2 & D2).
      exists s2. split; [unfold bind; by rewrite A1|]. split; [by eapply only_index_trans|]. split; [done|].
      unfold moved. rewrite D2, D1. f_equal. unfold entries. by rewrite Hkind. }
  destruct Hmain as (s1 & M1 & O1 & F1 & V1). fold (fts_terms i old) (fts_terms i new) (fts_wc i old) (fts_wc i new).
  destruct (negb (fts_wc i new - fts_wc i old =? 0)); cbn [when].
  - destruct (meta_total i 0 (fts_wc i new - fts_wc i old) s1 F1) as (s2 & M2 & F2). exists s2.
    split; [unfold bind at 1; rewrite M1; exact M2|]. apply meta_only in M2 as (O2 & _ & K2 & _).
    split; [by eapply only_index_trans|]. split; [done|]. by rewrite K2.
  - exists s1. split; [unfold bind at 1; rewrite M1; done|]. auto.
Qed.

Lemma update_spatial i ix s :
  ix_kind ix = Spatial -> faults s = [] -> entries (i, ix) old old_pk ⊆ kv i s -> entry_done (i, ix) s.
Proof.
  intros Hkind Hf Hsub. unfold entry_done, update_entry. cbn [fst snd] in *. rewrite Hkind. unfold spatial_update.
  set (touched := match ix_fields ix with f :: _ => bool_decide (f ∈ en_write_set en) | [] => false end) in *.
  assert (Ew : index_written (i, ix) = touched).
  { unfold index_written, entry_touched. cbn [snd]. rewrite Hkind. apply orb_false_r. }
  destruct touched eqn:Et; cbn [when]; [|by apply (update_untouched (i, ix))].
  unfold entry_effect. rewrite Ew. unfold moved, entries. rewrite Hkind.
  assert (Hdel : exists s1, (match spatial_entry i old with
        | Some (h, _) => unchecked (tidesdb_txn_delete_cf true (Some i) (h ++ old_pk)) | None => ret tt end) s = (inr tt, s1) /\
      only_index i s s1 /\ faults s1 = [] /\
      kv i s1 = kv i s ∖ match spatial_entry i old with Some (h, m) => {[h ++ old_pk := m]} | None => ∅ end).
  { destruct (spatial_entry i old) as [[h m]|].
    - destruct (del_index i (h ++ old_pk) s Hf) as (O1 & _ & K1 & F1 & _). eexists. split; [done|]. split; [done|].
      split; [done|]. rewrite K1. apply map_eq. intros k. rewrite lookup_difference.
      destruct (decide (k = h ++ old_pk)) as [->|Hne].
      + by rewrite lookup_delete_eq, lookup_singleton_eq.
      + by rewrite lookup_delete_ne, lookup_singleton_ne by congruence.
    - exists s. split; [done|]. split; [apply only_index_refl|]. split; [done|]. by rewrite map_difference_empty. }
  destruct Hdel as (s1 & D1 & O1 & F1 & K1). destruct (spatial_entry i new) as [[h m]|].
  - destruct (checked_put_total (Some i) (h ++ new_pk) m ttl s1 F1) as (s2 & P2 & F2). exists s2.
    split; [unfold bind at 1; rewrite D1; exact P2|]. apply put_index in P2 as (O2 & _ & K2 & _).
    split; [by eapply only_index_trans|]. split; [done|]. by rewrite K2, K1, <- insert_union_singleton_l.
  - exists s1. split; [unfold bind at 1; rewrite D1; done|]. split; [done|]. split; [done|].
    by rewrite K1, (left_id_L ∅ _).
Qed.

Lemma update_entry_spec e s :
  faults s = [] -> entries e old old_pk ⊆ kv e.1 s -> entry_done e s.
Proof.
  destruct e as [i ix]. intros Hf Hsub. destruct (ix_kind ix) eqn:Hk.
  - by apply update_regular.
  - by apply update_fulltext.
  - by apply update_spatial.
Qed.

End Update.

(** The key of the updated row. *)
Definition updated_pk (en : stmt_env) (s : hstate) (new : Rec) : bytes :=
  if has_user_pk sh && touches en (pk_fields sh) then pk_bytes new else current_pk s.

(** The row leaves its old key when the key changes. *)
Lemma delete_old_row en old_pk new_pk s : faults s = [] ->
  exists s1, when (negb (bool_decide (old_pk = new_pk))) (checked (tidesdb_txn_delete_cf (en_single_delete_primary en) None (build_data_key old_pk))) s
    = (inr tt, s1) /\ faults s1 = [] /\ (forall j, cf_of (Some j) s1 = cf_of (Some j) s) /\
    forall p, p <> new_pk -> data_of s1 p = if decide (p = old_pk) then None else data_of s p.
Proof.
  intros Hf. destruct (decide (old_pk = new_pk)) as [Heq|Heq];
    [rewrite bool_decide_true by done|rewrite bool_decide_false by done]; cbn [negb when].
  - exists s. do 3 (split; [done|]). intros p Hp. rewrite decide_False by congruence. done.
  - destruct (checked_delete_total (en_single_delete_primary en) None (build_data_key old_pk) s Hf) as (s1 & D1 & F1). exists s1.
    split; [done|]. split; [done|]. apply checked_ok, delete_spec in D1 as (P1 & _ & P3 & _).
    rewrite bool_decide_true in P3 by done. split; [intros j; by apply P1|]. intros p Hp. unfold data_of. rewrite P3.
    destruct (decide (p = old_pk)) as [->|Hne]; [by rewrite lookup_delete_eq|].
    rewrite lookup_delete_ne; [done|]. unfold build_data_key. congruence.
Qed.

(** The loop over the indexes of an update runs to its end. *)
Lemma update_loop_total en old new old_pk new_pk ttl l t : keyed new new_pk -> NoDup l.*1 -> faults t = [] ->
  (forall e, e ∈ l -> entries e old old_pk ⊆ kv e.1 t) ->
  exists t', mfor (update_entry sh en old new old_pk new_pk ttl) l t = (inr tt, t') /\ faults t' = [].
Proof.
  intros Hk. revert t. induction l as [|e l IH]; intros t Hnd Ht Hp; cbn [mfor]; [by exists t|]. rewrite fmap_cons in Hnd.
  apply NoDup_cons in Hnd as [Hni Hnd]. pose proof (Hp e ltac:(set_solver)) as Hsub.
  destruct (update_entry_spec en old new old_pk new_pk ttl Hk e t Ht Hsub) as (t1 & U1 & [U2 _] & U3 & _).
  destruct (IH t1 Hnd U3) as (t2 & L1 & L2).
  { intros e' He'. unfold kv. rewrite U2; [apply Hp; set_solver|]. intros E. apply Hni.
    apply list_elem_of_fmap. by exists e'. }
  exists t2. unfold bind. by rewrite U1.
Qed.

Lemma update_row_effect en old new s :
  let old_pk := current_pk s in let new_pk := updated_pk en s new in
  faults s = [] -> en_ensure en = HA_OK -> encrypted sh && bool_decide (serialize new = []) = false ->
  keyed new new_pk ->
  (forall e, e ∈ active_indexes sh -> entries e old old_pk ⊆ kv e.1 s) ->
  exists s', update_row sh en old new s = (inr tt, s') /\ current_pk s' = new_pk /\
  (forall p, data_of s' p = if decide (p = new_pk) then Some (serialize new) else if decide (p = old_pk) then None else data_of s p) /\
  (forall e, e ∈ active_indexes sh -> entry_effect en old new old_pk new_pk e (kv e.1 s) (kv e.1 s')).
Proof.
  intros old_pk new_pk Hf Hen Henc Hk Hidx. unfold update_row. fold old_pk. fold (updated_pk en s new). fold new_pk.
  rewrite Henc. rewrite (bool_decide_true (en_ensure en = HA_OK)) by done.
  destruct (delete_old_row en old_pk new_pk s Hf) as (s1 & D1 & F1 & C1 & V1).
  destruct (checked_put_total None (build_data_key new_pk) (serialize new) (row_ttl sh en new) s1 F1) as (s2 & P2 & F2).
  pose proof P2 as P2'. apply checked_ok, put_spec in P2' as (Q1 & _ & Q3 & _). rewrite bool_decide_true in Q3 by done.
  assert (Hkv2 : forall j, kv j s2 = kv j s) by (intros j; unfold kv; by rewrite Q1, C1).
  set (f := update_entry sh en old new old_pk new_pk (row_ttl sh en new)).
  set (Pre := fun (e : nat * index) m => entries e old old_pk ⊆ m).
  assert (Hpre2 : forall e, e ∈ active_indexes sh -> Pre e (kv e.1 s2)) by (intros e He; rewrite Hkv2; by apply Hidx).
  destruct (update_loop_total en old new old_pk new_pk (row_ttl sh en new) _ s2 Hk active_nodup F2 Hpre2) as (s3 & L1 & L2).
  destruct (mfor_indexes f (fun s => faults s = []) Pre (entry_effect en old new old_pk new_pk) (active_indexes sh) active_nodup
    ltac:(intros e t t' _ Ht Hsub He; destruct (update_entry_spec en old new old_pk new_pk (row_ttl sh en new) Hk e t Ht Hsub)
            as (t1 & U1 & U2 & U3 & U4); unfold f in He; rewrite U1 in He; simplify_eq; done)
    s2 s3 F2 Hpre2 L1) as (_ & A2 & A3 & _).
  destruct (bulk_total (en_bulk_update en) (1 + 2 * Z.of_nat (num_secondary_indexes sh)) (set_pk new_pk s3) L2) as (s4 & B1 & B2).
  exists s4. split.
  { rewrite !(bind_run (ret tt) _ s tt s eq_refl), (bind_run _ _ _ _ _ D1), (bind_run _ _ _ _ _ P2), (bind_run _ _ _ _ _ L1).
    exact B1. }
  apply quiet_bulk in B1 as (R1 & R2 & _). split; [done|]. split.
  - intros p. unfold data_of. rewrite (cf_of_cfs _ _ _ R1). change (cf_of None (set_pk new_pk s3)) with (cf_of None s3).
    rewrite A2, Q3. destruct (decide (p = new_pk)) as [->|Hne]; [by rewrite lookup_insert_eq|].
    rewrite lookup_insert_ne by (unfold build_data_key; congruence). by apply V1.
  - intros e He. unfold kv at 2. rewrite (cf_of_cfs _ _ _ R1). change (cf_of (Some e.1) (set_pk new_pk s3)) with (cf_of (Some e.1) s3).
    fold (kv e.1 s3). specialize (A3 e He). by rewrite Hkv2 in A3.
Qed.

(** ** The properties *)

Lemma write_keeps en rec s s' rows :
  consistent s rows -> write_row sh en rec s = (inr tt, s') ->
  (pk_checked en = false -> rows !! row_pk s rec = None \/ active_indexes sh = []) ->
  consistent s' (<[row_pk s rec := rec]> rows) /\ current_pk s' = row_pk s rec /\
  (pk_checked en = true -> rows !! row_pk s rec = None).
Proof.
  intros Hc Hw Hfree. destruct (write_row_effect en rec s s' Hw) as (Hk & Hnone & _ & Hd & Hi & Hpk).
  assert (Hrow : pk_checked en = true -> rows !! row_pk s rec = None).
  { intros Hck. specialize (Hnone Hck). pose proof (c_data _ _ Hc (row_pk s rec)) as Hdata. rewrite Hnone in Hdata.
    by destruct (rows !! row_pk s rec). }
  split; [|done]. apply consistent_good. apply consistent_good in Hc. eapply good_insert; try done.
  destruct (pk_checked en) eqn:E; [left; by apply Hrow|by apply Hfree].
Qed.

(** C1: INSERT keeps every index in step with the table.  When [write_row] reports
    success the data column family holds one row more, under the key of the row, and
    every regular, full-text and spatial index holds exactly the entries of all rows;
    the key was not taken whenever the code looked it up, and where it does not look
    (a generated or unchecked key) it suffices that it was free.  Terms are no longer than
    the 512 bytes an index key holds, as [TableLaws] says. *)
Theorem write_row_consistent en rec s s' rows :
  consistent s rows -> write_row sh en rec s = (inr tt, s') ->
  (pk_checked en = false -> rows !! row_pk s rec = None \/ active_indexes sh = []) ->
  consistent s' (<[row_pk s rec := rec]> rows) /\ current_pk s' = row_pk s rec /\
  (pk_checked en = true -> rows !! row_pk s rec = None).
Proof. apply write_keeps. Qed.

(** C4: INSERT enforces unique indexes.  With unique checks on, a successful [write_row] leaves
    no two rows that agree on the columns of a unique index, for every index whose check read
    the index: the iterator shows it as it is, and its seek and the read of the key succeeded
    (otherwise a duplicate can get in: [failed_read_admits_duplicate],
    [stale_iterator_admits_duplicate]).  Other calls of the engine may fail. *)
Theorem write_row_unique en rec s s' rows e :
  consistent s rows -> write_row sh en rec s = (inr tt, s') -> en_skip_unique en = false ->
  e ∈ active_indexes sh -> checks_unique e.2 = true -> check_reads en s e.1 ->
  distinct_on e rows -> distinct_on e (<[row_pk s rec := rec]> rows).
Proof.
  intros Hc Hw Hsk He Hu Hrd Hdist. destruct (write_row_effect en rec s s' Hw) as (_ & _ & Habs & _).
  specialize (Habs Hsk e He Hrd Hu).
  assert (Hfresh : forall p r, rows !! p = Some r -> idx_prefix e.1 r <> idx_prefix e.1 rec).
  { destruct e as [i ix]. intros p r Hr Heq. cbn [fst snd] in *.
    assert (Hent : kv i s !! (idx_prefix i r ++ p) = Some tdb_empty_val).
    { apply (c_index _ _ Hc (i, ix) He). exists p, r. split; [done|]. unfold entries. unfold checks_unique in Hu.
      destruct (ix_kind ix); try done. by rewrite lookup_singleton_eq. }
    unfold kv in Hent. rewrite lookup_fmap in Hent. destruct (cf_of (Some i) s !! _) as [v|] eqn:Ev; [|done].
    apply (Habs _ _ Ev). rewrite <- Heq. by apply take_app_exact. }
  intros p1 p2 r1 r2 H1 H2 Heq.
  apply lookup_insert_Some in H1 as [[<- <-]|[Hn1 H1]], H2 as [[<- <-]|[Hn2 H2]]; try done.
  - exfalso. by eapply Hfresh.
  - exfalso. by eapply Hfresh.
  - by eapply Hdist.
Qed.

Lemma delete_keeps en rec s rows :
  consistent s rows -> rows !! current_pk s = Some rec -> faults s = [] -> en_ensure en = HA_OK ->
  exists s', delete_row sh en rec s = (inr tt, s') /\ consistent s' (delete (current_pk s) rows).
Proof.
  intros Hc Hr Hf Hen. destruct (delete_row_effect en rec s Hf Hen (c_pk _ _ Hc _ _ Hr)) as (s' & Hd & _ & H1 & H2).
  exists s'. split; [done|]. apply consistent_good. apply consistent_good in Hc. by eapply good_delete.
Qed.

(** C3: DELETE removes the row and every index entry of it and nothing else: with the
    handler positioned on a row and an engine that does not fail, [delete_row]
    succeeds and the column families hold exactly the other rows and their entries. *)
Theorem delete_row_consistent en rec s rows :
  consistent s rows -> rows !! current_pk s = Some rec -> faults s = [] -> en_ensure en = HA_OK ->
  exists s', delete_row sh en rec s = (inr tt, s') /\ consistent s' (delete (current_pk s) rows).
Proof. apply delete_keeps. Qed.

(** UPDATE, whatever the new key is. *)
Lemma update_exact en old new s rows :
  consistent s rows -> rows !! current_pk s = Some old -> faults s = [] -> en_ensure en = HA_OK ->
  encrypted sh && bool_decide (serialize new = []) = false ->
  (touches en (pk_fields sh) = false -> pk_bytes old = pk_bytes new) ->
  exists s', update_row sh en old new s = (inr tt, s') /\ current_pk s' = updated_pk en s new /\
    (forall p, data_of s' p = if decide (p = updated_pk en s new) then Some (serialize new)
                              else if decide (p = current_pk s) then None else data_of s p) /\
    (forall e, e ∈ active_indexes sh -> entry_effect en old new (current_pk s) (updated_pk en s new) e (kv e.1 s) (kv e.1 s')) /\
    ((forall e, e ∈ active_indexes sh -> index_ready en old new (current_pk s) (updated_pk en s new) e) ->
     updated_pk en s new = current_pk s \/ rows !! updated_pk en s new = None ->
     consistent s' (<[updated_pk en s new := new]> (delete (current_pk s) rows))).
Proof.
  intros Hc Hr Hf Hen Henc Hpk.
  assert (Hk : keyed new (updated_pk en s new)).
  { intros Hu. unfold updated_pk. rewrite Hu. cbn [andb]. destruct (touches en (pk_fields sh)) eqn:Et; [done|].
    rewrite (c_pk _ _ Hc _ _ Hr Hu). by apply Hpk. }
  assert (Hsub : forall e, e ∈ active_indexes sh -> entries e old (current_pk s) ⊆ kv e.1 s).
  { intros e He. apply map_subseteq_spec. intros k v Hv. apply (c_index _ _ Hc e He). eauto. }
  destruct (update_row_effect en old new s Hf Hen Henc Hk Hsub) as (s' & Hu & Hcur & Hd & Hi).
  exists s'. split; [done|]. split; [done|]. split; [done|]. split; [done|]. intros Hready Hfree.
  apply consistent_good. apply consistent_good in Hc. eapply good_update; [done|done|done|done|done|].
  intros e He. eapply effect_moved; auto.
Qed.

Lemma update_keeps en old new s rows :
  consistent s rows -> rows !! current_pk s = Some old -> faults s = [] -> en_ensure en = HA_OK ->
  encrypted sh && bool_decide (serialize new = []) = false ->
  (touches en (pk_fields sh) = false -> pk_bytes old = pk_bytes new) ->
  (forall e, e ∈ active_indexes sh -> index_ready en old new (current_pk s) (updated_pk en s new) e) ->
  updated_pk en s new = current_pk s \/ rows !! updated_pk en s new = None ->
  exists s', update_row sh en old new s = (inr tt, s') /\ current_pk s' = updated_pk en s new /\
    consistent s' (<[updated_pk en s new := new]> (delete (current_pk s) rows)).
Proof.
  intros Hc Hr Hf Hen Henc Hpk Hready Hfree.
  destruct (update_exact en old new s rows Hc Hr Hf Hen Henc Hpk) as (s' & Hu & Hcur & _ & _ & Hcon). eauto.
Qed.

(** C2: what UPDATE does.  With the handler positioned on a row, an engine that does not fail and
    columns outside the write set unchanged, [update_row] succeeds: the data holds the new record
    under the new key and nothing under the old one, and in each index the entries of the old
    record are replaced by those of the new one when the statement writes a column of the index
    or, for a regular index, changes the primary key; the other indexes stay as they are.  If
    moreover the new key is the old one or free, and no change of the key leaves the columns of a
    full-text or spatial index unwritten, the column families hold exactly the rows with the new
    record in place of the old one, and exactly their entries.  The code checks neither
    condition ([update_overwrites_row], [update_leaves_fts_entry]). *)
Theorem update_row_consistent en old new s rows :
  consistent s rows -> rows !! current_pk s = Some old -> faults s = [] -> en_ensure en = HA_OK ->
  encrypted sh && bool_decide (serialize new = []) = false ->
  (touches en (pk_fields sh) = false -> pk_bytes old = pk_bytes new) ->
  exists s', update_row sh en old new s = (inr tt, s') /\ current_pk s' = updated_pk en s new /\
    (forall p, data_of s' p = if decide (p = updated_pk en s new) then Some (serialize new)
                              else if decide (p = current_pk s) then None else data_of s p) /\
    (forall e, e ∈ active_indexes sh -> entry_effect en old new (current_pk s) (updated_pk en s new) e (kv e.1 s) (kv e.1 s')) /\
    ((forall e, e ∈ active_indexes sh -> index_ready en old new (current_pk s) (updated_pk en s new) e) ->
     updated_pk en s new = current_pk s \/ rows !! updated_pk en s new = None ->
     consistent s' (<[updated_pk en s new := new]> (delete (current_pk s) rows))).
Proof. apply update_exact. Qed.

End Consistency.

(** ** A table with a unique and a full-text index *)

Record drow := mk_drow { d_id : Z; d_u : option Z; d_txt : list bytes }.

Definition short_words (l : list bytes) : list bytes := List.filter (fun w => Nat.leb (length w) 512) l.

#[export] Instance drow_codec : TableCodec drow := {
  serialize r := [d_id r; default 0 (d_u r)];
  pk_bytes r := [d_id r];
  idx_prefix _ r := match d_u r with None => [SORT_KEY_NULL; 0] | Some v => [SORT_KEY_NOT_NULL; v] end;
  fts_tokens _ r := short_words (d_txt r);
  spatial_entry _ r := Some (replicate 8 0, [d_id r]);
  ttl_field _ := None
}.

#[export] Instance drow_laws : TableLaws drow.
Proof.
  refine (Build_TableLaws _ _ (fun _ => 2%nat) _ _ _).
  - intros i r. cbn. by destruct (d_u r).
  - intros i r h m. cbn. by intros [= <- <-].
  - intros i r. cbn. apply List.Forall_forall. intros w Hw. apply filter_In in Hw as [_ Hw].
    apply Nat.leb_le in Hw. exact Hw.
Defined.

Definition demo_share : share :=
  mk_share true 0 [0%nat] [mk_index Regular true [0%nat] false; mk_index Regular true [1%nat] true; mk_index Fulltext false [2%nat] true]
    false false 0 8.

(** The statement that writes the given columns. *)
Definition demo_env (ws : gset nat) (live : bool) : stmt_env :=
  mk_env None HA_OK false HA_OK false 0 false ws false false false 0 false live (fun _ => TDB_SUCCESS) (fun _ => None) (fun _ => TDB_SUCCESS).

Definition demo_empty : hstate := mk_h ∅ [] [] 1 0 None [] ∅ ∅ 0 None [].

Lemma demo_empty_consistent : consistent (Rec := drow) demo_share demo_empty ∅.
Proof.
  split.
  - intros pk. by rewrite !lookup_empty.
  - intros e He k v. unfold kv, cf_of. cbn [cfs demo_empty]. rewrite lookup_empty. cbn [default]. rewrite lookup_fmap, lookup_empty.
    split; [done|]. intros (pk & rec & Hr & _). by rewrite lookup_empty in Hr.
  - intros pk rec Hr. by rewrite lookup_empty in Hr.
Qed.

Definition row1 : drow := mk_drow 1 (Some 5) [[97]; [98]].
Definition row2 : drow := mk_drow 2 (Some 6) [[98]].

Definition after1 : hstate := (write_row demo_share (demo_env ∅ true) row1 demo_empty).2.
Definition after2 : hstate := (write_row demo_share (demo_env ∅ true) row2 after1).2.

Lemma after1_run : write_row demo_share (demo_env ∅ true) row1 demo_empty = (inr tt, after1).
Proof. vm_compute. reflexivity. Qed.

Lemma after2_run : write_row demo_share (demo_env ∅ true) row2 after1 = (inr tt, after2).
Proof. vm_compute. reflexivity. Qed.

Lemma after1_consistent : consistent demo_share after1 {[[1] := row1]}.
Proof.
  destruct (write_keeps demo_share (demo_env ∅ true) row1 demo_empty after1 ∅ demo_empty_consistent after1_run) as [Hc _]; [done|].
  exact Hc.
Qed.

Lemma after2_consistent : consistent demo_share after2 (<[[2] := row2]> {[[1] := row1]}).
Proof.
  destruct (write_keeps demo_share (demo_env ∅ true) row2 after1 after2 _ after1_consistent after2_run) as [Hc _]; [done|].
  exact Hc.
Qed.

Lemma write_row_consistent_witness :
  consistent demo_share after2 (<[[2] := row2]> {[[1] := row1]}) /\ current_pk after2 = [2].
Proof.
  destruct (write_row_consistent demo_share (demo_env ∅ true) row2 after1 after2 _ after1_consistent after2_run
              ltac:(discriminate)) as (Hc & Hp & _).
  split; [exact Hc|exact Hp].
Defined.

Lemma write_row_unique_witness : distinct_on (1%nat, mk_index Regular true [1%nat] true) (<[[2] := row2]> {[[1] := row1]}).
Proof.
  apply (write_row_unique demo_share (demo_env ∅ true) row2 after1 after2 {[[1] := row1]} _ after1_consistent after2_run).
  - reflexivity.
  - apply list_elem_of_In. vm_compute. auto.
  - reflexivity.
  - split; [left|split]; reflexivity.
  - intros p1 p2 r1 r2 [<- _]%lookup_singleton_Some [<- _]%lookup_singleton_Some _. reflexivity.
Defined.

Lemma delete_row_consistent_witness :
  exists s', delete_row demo_share (demo_env ∅ true) row2 after2 = (inr tt, s') /\
    consistent demo_share s' (delete [2] (<[[2] := row2]> {[[1] := row1]})).
Proof.
  apply (delete_row_consistent demo_share (demo_env ∅ true) row2 after2 _ after2_consistent).
  - reflexivity.
  - vm_compute. reflexivity.
  - reflexivity.
Defined.

(** Column 2, the text, changes. *)
Definition row2' : drow := mk_drow 2 (Some 6) [[98]; [99]].

Lemma update_row_consistent_witness :
  exists s', update_row demo_share (demo_env {[2%nat]} true) row2 row2' after2 = (inr tt, s') /\
    current_pk s' = [2] /\
    consistent demo_share s' (<[[2] := row2']> (delete [2] (<[[2] := row2]> {[[1] := row1]}))).
Proof.
  assert (Epk : current_pk after2 = [2]) by (vm_compute; reflexivity).
  assert (Eup : updated_pk demo_share (demo_env {[2%nat]} true) after2 row2' = [2]) by (vm_compute; reflexivity).
  destruct (update_row_consistent demo_share (demo_env {[2%nat]} true) row2 row2' after2 _ after2_consistent) as (s' & H1 & H2 & _ & _ & H3).
  - rewrite Epk. reflexivity.
  - vm_compute. reflexivity.
  - reflexivity.
  - reflexivity.
  - reflexivity.
  - exists s'. rewrite Eup in H2, H3. rewrite Epk in H3. split; [exact H1|]. split; [exact H2|]. apply H3; [|by left].
    intros e He. apply list_elem_of_In in He. vm_compute in He. destruct He as [<-|[<-|[]]].
    + split; [intros _; reflexivity|]. intros Hn. by contradiction Hn.
    + split; [|intros _ Hne; by contradiction Hne].
      intros Ht. vm_compute in Ht. discriminate Ht.
Defined.

(** ** Where the checks are missing *)

(** [update_row] does not look up the new key: moving row 1 to key 2 succeeds, the
    row that was there is gone, and its entry stays in the unique index. *)
Theorem update_overwrites_row :
  exists s', update_row demo_share (demo_env {[0%nat]} true) row1 (mk_drow 2 (Some 5) [[97]; [98]]) (set_pk [1] after2) = (inr tt, s') /\
    data_of s' [2] = Some [2; 5] /\ data_of s' [1] = None /\
    kv 1 s' !! [1; 6; 2] = Some tdb_empty_val.
Proof. eexists. split; [vm_compute; reflexivity|]. split; [|split]; vm_compute; reflexivity. Qed.

(** An update of the key alone leaves the full-text entries under the old key. *)
Theorem update_leaves_fts_entry :
  exists s', update_row demo_share (demo_env {[0%nat]} true) row1 (mk_drow 3 (Some 5) [[97]; [98]]) (set_pk [1] after2) = (inr tt, s') /\
    data_of s' [1] = None /\ is_Some (kv 2 s' !! fts_build_key [97] [1]) /\ kv 2 s' !! fts_build_key [97] [3] = None.
Proof. eexists. split; [vm_compute; reflexivity|]. split; [|split]; vm_compute; [reflexivity|eexists; reflexivity|reflexivity]. Qed.

(** Two rows with NULL in a unique column are refused, although NULLs do not conflict. *)
Theorem unique_refuses_second_null :
  let s1 := (write_row demo_share (demo_env ∅ true) (mk_drow 1 None []) demo_empty).2 in
  (write_row demo_share (demo_env ∅ true) (mk_drow 2 None []) s1).1 = inl HA_ERR_FOUND_DUPP_KEY.
Proof. vm_compute. reflexivity. Qed.

(** If iterators do not show later writes, two rows of one statement can agree on a
    unique column. *)
Theorem stale_iterator_admits_duplicate :
  let s1 := (write_row demo_share (demo_env ∅ false) (mk_drow 1 (Some 5) []) demo_empty).2 in
  (write_row demo_share (demo_env ∅ false) (mk_drow 2 (Some 5) []) s1).1 = inr tt.
Proof. vm_compute. reflexivity. Qed.

(** A seek or a read of the key that fails is taken for an index without the entry: the
    duplicate is inserted. *)
Definition blind_env (seek key : tdb_rc) : stmt_env :=
  mk_env None HA_OK false HA_OK false 0 false ∅ false false false 0 false true (fun _ => seek) (fun _ => None) (fun _ => key).

Theorem failed_read_admits_duplicate :
  (write_row demo_share (demo_env ∅ true) (mk_drow 2 (Some 5) []) after1).1 = inl HA_ERR_FOUND_DUPP_KEY /\
  (write_row demo_share (blind_env TDB_ERR_IO TDB_SUCCESS) (mk_drow 2 (Some 5) []) after1).1 = inr tt /\
  (write_row demo_share (blind_env TDB_SUCCESS TDB_ERR_IO) (mk_drow 2 (Some 5) []) after1).1 = inr tt.
Proof. split; [|split]; vm_compute; reflexivity. Qed.
