(* ===== verification/Spatial.v ===== *)
(** * Spatial index (tidesdb_spatial.cc)

    The Hilbert curve, its byte encoding, the order-preserving image of a double,
    the parser that computes the bounding rectangle of a stored geometry, and the
    decomposition of a query box into curve ranges.  A double is its
    64-bit pattern. *)

From Stdlib Require Import ZArith Lia Znumtheory.
From stdpp Require Import base tactics list numbers sorting.
From S2P Require Import Prelude KeyCodec.

Definition HILBERT_ORDER : nat := 32.
Definition IEEE754_DOUBLE_SIGN_MASK : Z := 2 ^ 63.

(** ** Doubles *)

Definition double_to_lex_uint32 (bits : Z) : Z :=
  let bits := if negb ((bits .& IEEE754_DOUBLE_SIGN_MASK) =? 0) then u64 (Z.lnot bits)
              else bits .^ IEEE754_DOUBLE_SIGN_MASK in
  u32 (bits .>> 32).

Definition isfinite (bits : Z) : bool := negb ((bits .>> 52) .& 2047 =? 2047).

Definition isnan (bits : Z) : bool := ((bits .>> 52) .& 2047 =? 2047) && negb (bits .& (2 ^ 52 - 1) =? 0).

(** The order of doubles: by sign and magnitude, both zeros equal; a comparison with
    a NaN is false. *)
Definition double_ord (bits : Z) : Z := if bits <? 2 ^ 63 then bits else 2 ^ 63 - bits.
Definition comparable (a b : Z) : bool := negb (isnan a) && negb (isnan b).
Definition double_lt (a b : Z) : bool := comparable a b && (double_ord a <? double_ord b).
Definition double_le (a b : Z) : bool := comparable a b && (double_ord a <=? double_ord b).
Definition double_eq (a b : Z) : bool := comparable a b && (double_ord a =? double_ord b).

Definition DBL_MAX : Z := 0x7FEFFFFFFFFFFFFF.
Definition NEG_DBL_MAX : Z := 0xFFEFFFFFFFFFFFFF.

(** ** The Hilbert curve *)

Definition hilbert_rot (n x y rx ry : Z) : Z * Z :=
  if ry =? 0 then
    let '(x, y) := if rx =? 1 then (u32 (u32 (n - 1) - x), u32 (u32 (n - 1) - y)) else (x, y) in
    (y, x)
  else (x, y).

(** The loop with [s] from 2^(k-1) down to 1. *)
Fixpoint hilbert_loop (k : nat) (x y d : Z) : Z :=
  match k with
  | O => d
  | S k' =>
    let s := 1 .<< Z.of_nat k' in
    let rx := if 0 <? x .& s then 1 else 0 in
    let ry := if 0 <? y .& s then 1 else 0 in
    let d := u64 (d + u64 (s * s * ((3 * rx) .^ ry))) in
    let '(x, y) := hilbert_rot (s .<< 1) x y rx ry in
    hilbert_loop k' x y d
  end.

Definition hilbert_xy2d_64 (x y : Z) : Z := hilbert_loop HILBERT_ORDER x y 0.

Definition encode_hilbert_be (h : Z) : bytes := (fun i => u8 (h .>> ((7 - Z.of_nat i) * 8))) <$> seq 0 8.
Definition decode_hilbert_be (inp : bytes) : Z := foldl (fun h i => u64 (h .<< 8) .| nth i inp 0) 0 (seq 0 8).

(** ** Bounding rectangles *)

Record tdb_mbr_t := mk_mbr { xmin : Z; ymin : Z; xmax : Z; ymax : Z }.

Definition WKB_MAX_POINTS : Z := 1000000.
Definition WKB_MAX_RINGS : Z := 10000.
Definition WKB_MAX_GEOMS : Z := 100000.
Definition SPATIAL_SRID_SIZE : nat := 4.
Definition SPATIAL_WKB_HEADER_SIZE : nat := 5.

Definition float8get (p : bytes) : Z := le_combine (take 8 p).
Definition uint4get (p : bytes) : Z := le_combine (take 4 p).

Definition expand (m : tdb_mbr_t) (p : Z * Z) : tdb_mbr_t :=
  let '(x, y) := p in
  if isfinite x && isfinite y then
    mk_mbr (if double_lt x (xmin m) then x else xmin m) (if double_lt y (ymin m) then y else ymin m)
           (if double_lt (xmax m) x then x else xmax m) (if double_lt (ymax m) y then y else ymax m)
  else m.

(** A parse step: the input left and the rectangle, [None] when it returns false. *)
Definition wkb_read_point (pp : bytes) (m : tdb_mbr_t) : option (bytes * tdb_mbr_t) :=
  if Nat.ltb (length pp) 16 then None
  else Some (drop 16 pp, expand m (float8get pp, float8get (drop 8 pp))).

Fixpoint repeat_parse (n : nat) (f : bytes -> tdb_mbr_t -> option (bytes * tdb_mbr_t)) (pp : bytes) (m : tdb_mbr_t)
    : option (bytes * tdb_mbr_t) :=
  match n with
  | O => Some (pp, m)
  | S n' => match f pp m with None => None | Some (pp, m) => repeat_parse n' f pp m end
  end.

(** A count, checked against its limit, and that many items. *)
Definition wkb_counted (limit : Z) (f : bytes -> tdb_mbr_t -> option (bytes * tdb_mbr_t)) (pp : bytes) (m : tdb_mbr_t)
    : option (bytes * tdb_mbr_t) :=
  if Nat.ltb (length pp) 4 then None
  else
    let n := uint4get pp in
    if limit <? n then None else repeat_parse (Z.to_nat n) f (drop 4 pp) m.

Definition wkb_read_point_sequence := wkb_counted WKB_MAX_POINTS wkb_read_point.

(** The recursion is on geometries nested in a collection; each has a header of its
    own, so the length of the input bounds the depth. *)
Fixpoint wkb_parse_geometry (fuel : nat) (pp : bytes) (m : tdb_mbr_t) : option (bytes * tdb_mbr_t) :=
  match fuel with
  | O => None
  | S fuel' =>
    if Nat.ltb (length pp) SPATIAL_WKB_HEADER_SIZE then None
    else
      let gt := uint4get (drop 1 pp) in
      let pp := drop 5 pp in
      if gt =? 1 then wkb_read_point pp m
      else if gt =? 2 then wkb_read_point_sequence pp m
      else if gt =? 3 then wkb_counted WKB_MAX_RINGS wkb_read_point_sequence pp m
      else if (4 <=? gt) && (gt <=? 7) then wkb_counted WKB_MAX_GEOMS (wkb_parse_geometry fuel') pp m
      else None
  end.

Definition mbr_start : tdb_mbr_t := mk_mbr DBL_MAX DBL_MAX NEG_DBL_MAX NEG_DBL_MAX.

Definition spatial_compute_mbr (data : bytes) : option tdb_mbr_t :=
  if Nat.ltb (length data) (SPATIAL_SRID_SIZE + SPATIAL_WKB_HEADER_SIZE) then None
  else match wkb_parse_geometry (length data) (drop SPATIAL_SRID_SIZE data) mbr_start with
       | None => None
       | Some (_, m) => if double_le (xmin m) (xmax m) && double_le (ymin m) (ymax m) then Some m else None
       end.

(** ** Index entries and predicates *)

Definition spatial_build_key (cx cy : Z) (pk : bytes) : bytes :=
  encode_hilbert_be (hilbert_xy2d_64 (double_to_lex_uint32 cx) (double_to_lex_uint32 cy)) ++ pk.

Definition spatial_build_value (m : tdb_mbr_t) : bytes :=
  le_split 8 (xmin m) ++ le_split 8 (ymin m) ++ le_split 8 (xmax m) ++ le_split 8 (ymax m).

Definition spatial_parse_query_mbr (key : bytes) : tdb_mbr_t :=
  mk_mbr (float8get key) (float8get (drop 16 key)) (float8get (drop 8 key)) (float8get (drop 24 key)).

Definition mbr_intersects (a b : tdb_mbr_t) : bool :=
  negb (double_lt (xmax a) (xmin b) || double_lt (xmax b) (xmin a) ||
        double_lt (ymax a) (ymin b) || double_lt (ymax b) (ymin a)).
Definition mbr_within (a b : tdb_mbr_t) : bool :=
  double_le (xmin b) (xmin a) && double_le (xmax a) (xmax b) && double_le (ymin b) (ymin a) && double_le (ymax a) (ymax b).
Definition mbr_equals (a b : tdb_mbr_t) : bool :=
  double_eq (xmin a) (xmin b) && double_eq (xmax a) (xmax b) && double_eq (ymin a) (ymin b) && double_eq (ymax a) (ymax b).

Inductive ha_rkey_function :=
| HA_READ_MBR_CONTAIN | HA_READ_MBR_INTERSECT | HA_READ_MBR_WITHIN | HA_READ_MBR_DISJOINT | HA_READ_MBR_EQUAL | HA_READ_OTHER.

Definition spatial_mbr_predicate (mode : ha_rkey_function) (query entry : tdb_mbr_t) : bool :=
  match mode with
  | HA_READ_MBR_INTERSECT => mbr_intersects entry query
  | HA_READ_MBR_CONTAIN => mbr_within entry query
  | HA_READ_MBR_WITHIN => mbr_within entry query
  | HA_READ_MBR_EQUAL => mbr_equals entry query
  | HA_READ_MBR_DISJOINT => negb (mbr_intersects entry query)
  | HA_READ_OTHER => false
  end.

(** ** Range decomposition *)

Definition SPATIAL_DECOMP_BITS : Z := 8.
Definition SPATIAL_DECOMP_N : Z := 256.
Definition decomp_shift : Z := 24.
Definition cell_span : Z := 1 .<< (2 * decomp_shift).

Definition zseq (a b : Z) : list Z := (fun i => a + Z.of_nat i) <$> seq 0 (Z.to_nat (b + 1 - a)).

Fixpoint merge_ranges (lo hi : Z) (cells : list Z) : list (Z * Z) :=
  match cells with
  | [] => [(lo, hi)]
  | c :: cells =>
    let h := u64 (c + cell_span - 1) in
    if c <=? u64 (hi + 1) then merge_ranges lo (if hi <? h then h else hi) cells
    else (lo, hi) :: merge_ranges c h cells
  end.

Definition spatial_decompose_ranges (qx_min qy_min qx_max qy_max : Z) : list (Z * Z) :=
  let gx0 := qx_min .>> decomp_shift in
  let gy0 := qy_min .>> decomp_shift in
  let gx1 := Z.min (qx_max .>> decomp_shift) (SPATIAL_DECOMP_N - 1) in
  let gy1 := Z.min (qy_max .>> decomp_shift) (SPATIAL_DECOMP_N - 1) in
  let cells := zseq gx0 gx1 ≫= (fun gx => (fun gy =>
                 hilbert_xy2d_64 (u32 (gx .<< decomp_shift)) (u32 (gy .<< decomp_shift))) <$> zseq gy0 gy1) in
  match merge_sort Z.le cells with
  | [] => [(0, 2 ^ 64 - 1)]
  | c :: cells => merge_ranges c (u64 (c + cell_span - 1)) cells
  end.

(** ** The curve is the Hilbert curve

    [hilbert_index k] is the curve of order [k] by recursion on the quadrants; the
    loop of the code computes it on the low [k] bits of the coordinates. *)

Fixpoint hilbert_index (k : nat) (x y : Z) : Z :=
  match k with
  | O => 0
  | S k' =>
    let s := 2 ^ Z.of_nat k' in
    if y <? s then
      if x <? s then hilbert_index k' y x
      else 3 * (s * s) + hilbert_index k' (s - 1 - y) (2 * s - 1 - x)
    else
      if x <? s then s * s + hilbert_index k' x (y - s)
      else 2 * (s * s) + hilbert_index k' (x - s) (y - s)
  end.

Definition in_square (k : nat) (x y : Z) : Prop := 0 <= x < 2 ^ Z.of_nat k /\ 0 <= y < 2 ^ Z.of_nat k.

Lemma pow2_S k : 2 ^ Z.of_nat (S k) = 2 * 2 ^ Z.of_nat k.
Proof. rewrite Nat2Z.inj_succ, Z.pow_succ_r by lia. done. Qed.

(** The cases of one level: which quadrant, and the point inside it. *)
Ltac quadrant k :=
  unfold in_square in *; rewrite ?pow2_S in *; pose proof (pow2_pos (Z.of_nat k) ltac:(lia));
  cbn [hilbert_index] in *;
  repeat match goal with
  | |- context [?a <? ?b] => destruct (Z.ltb_spec a b)
  | H : context [?a <? ?b] |- _ => destruct (Z.ltb_spec a b)
  end.

Lemma hilbert_index_bound k x y :
  in_square k x y -> 0 <= hilbert_index k x y < 2 ^ Z.of_nat k * 2 ^ Z.of_nat k.
Proof.
  revert x y. induction k as [|k IH]; intros x y Hxy; [cbn; lia|].
  quadrant k;
    match goal with |- context [hilbert_index k ?a ?b] => pose proof (IH a b ltac:(lia)) end; nia.
Qed.

Lemma hilbert_index_inj k x y x' y' :
  in_square k x y -> in_square k x' y' -> hilbert_index k x y = hilbert_index k x' y' -> x = x' /\ y = y'.
Proof.
  revert x y x' y'. induction k as [|k IH]; intros x y x' y' Hxy Hxy' E; [unfold in_square in *; cbn in *; lia|].
  quadrant k;
    match type of E with context C [hilbert_index k ?a ?b] =>
      match type of E with context [hilbert_index k ?c ?d] =>
        tryif constr_eq a c; constr_eq b d then fail else
        pose proof (hilbert_index_bound k a b ltac:(unfold in_square; lia));
        pose proof (hilbert_index_bound k c d ltac:(unfold in_square; lia));
        try (exfalso; nia); destruct (IH a b c d ltac:(lia) ltac:(lia) ltac:(lia)); lia
      end
    end.
Qed.

(** The curve enters its square at (0, 0) and leaves it at (2^k - 1, 0). *)
Lemma hilbert_index_start k x y : in_square k x y -> hilbert_index k x y = 0 -> x = 0 /\ y = 0.
Proof.
  revert x y. induction k as [|k IH]; intros x y Hxy E; [unfold in_square in *; cbn in *; lia|].
  quadrant k;
    match type of E with context [hilbert_index k ?a ?b] =>
      pose proof (hilbert_index_bound k a b ltac:(unfold in_square; lia));
      first [exfalso; nia | destruct (IH a b ltac:(lia) ltac:(lia)); lia]
    end.
Qed.

Lemma hilbert_index_end k x y :
  in_square k x y -> hilbert_index k x y = 2 ^ Z.of_nat k * 2 ^ Z.of_nat k - 1 -> x = 2 ^ Z.of_nat k - 1 /\ y = 0.
Proof.
  revert x y. induction k as [|k IH]; intros x y Hxy E; [unfold in_square in *; cbn in *; lia|].
  quadrant k;
    match type of E with context [hilbert_index k ?a ?b] =>
      pose proof (hilbert_index_bound k a b ltac:(unfold in_square; lia));
      first [exfalso; nia | destruct (IH a b ltac:(lia) ltac:(lia)); lia]
    end.
Qed.

(** Consecutive positions are neighbouring cells. *)
Lemma hilbert_index_adjacent k x y x' y' :
  in_square k x y -> in_square k x' y' -> hilbert_index k x' y' = hilbert_index k x y + 1 ->
  Z.abs (x' - x) + Z.abs (y' - y) = 1.
Proof.
  revert x y x' y'. induction k as [|k IH]; intros x y x' y' Hxy Hxy' E; [cbn in *; lia|].
  quadrant k;
    match type of E with ?l = ?r =>
      match l with context [hilbert_index k ?a ?b] =>
        match r with context [hilbert_index k ?c ?d] =>
          pose proof (hilbert_index_bound k a b ltac:(unfold in_square; lia));
          pose proof (hilbert_index_bound k c d ltac:(unfold in_square; lia));
          first [ exfalso; nia
                | pose proof (IH c d a b ltac:(lia) ltac:(lia) ltac:(lia)); lia
                | destruct (hilbert_index_start k a b ltac:(unfold in_square; lia) ltac:(nia));
                  destruct (hilbert_index_end k c d ltac:(unfold in_square; lia) ltac:(nia)); lia ]
        end
      end
    end.
Qed.

(** One level of the loop reads bit [k] of each coordinate and keeps the bits below. *)
Lemma land_pow2_pos x k : 0 <= x -> (0 <? x .& (1 .<< Z.of_nat k)) = (2 ^ Z.of_nat k <=? x mod 2 ^ Z.of_nat (S k)).
Proof.
  intros Hx. rewrite Z.shiftl_1_l, pow2_S.
  pose proof (pow2_pos (Z.of_nat k) ltac:(lia)) as Hp.
  assert (E : x .& 2 ^ Z.of_nat k = if Z.testbit x (Z.of_nat k) then 2 ^ Z.of_nat k else 0).
  { apply Z.bits_inj'. intros i Hi. rewrite Z.land_spec, Z.pow2_bits_eqb by lia.
    destruct (Z.eqb_spec (Z.of_nat k) i) as [<-|Hne].
    - destruct (Z.testbit x (Z.of_nat k)); simpl; [by rewrite Z.pow2_bits_true by lia | by rewrite Z.bits_0].
    - rewrite andb_false_r. destruct (Z.testbit x (Z.of_nat k)); [by rewrite Z.pow2_bits_false | by rewrite Z.bits_0]. }
  rewrite E, Z.testbit_odd, Z.shiftr_div_pow2 by lia.
  rewrite (Z.mul_comm 2), Z.rem_mul_r by lia.
  pose proof (Z.mod_pos_bound x (2 ^ Z.of_nat k) ltac:(lia)).
  rewrite Zmod_odd. destruct (Z.odd (x / 2 ^ Z.of_nat k)); lia.
Qed.

Lemma mod_pow2_S x k :
  x mod 2 ^ Z.of_nat k =
  if 2 ^ Z.of_nat k <=? x mod 2 ^ Z.of_nat (S k) then x mod 2 ^ Z.of_nat (S k) - 2 ^ Z.of_nat k
  else x mod 2 ^ Z.of_nat (S k).
Proof.
  rewrite pow2_S. pose proof (pow2_pos (Z.of_nat k) ltac:(lia)) as Hp.
  rewrite (Z.mul_comm 2), Z.rem_mul_r by lia.
  pose proof (Z.mod_pos_bound x (2 ^ Z.of_nat k) ltac:(lia)).
  pose proof (Z.mod_pos_bound (x / 2 ^ Z.of_nat k) 2 ltac:(lia)).
  assert ((x / 2 ^ Z.of_nat k) mod 2 = 0 \/ (x / 2 ^ Z.of_nat k) mod 2 = 1) as [-> | ->] by lia; case_match; lia.
Qed.

(** The wrapped subtraction complements the low bits. *)
Lemma complement_low x k :
  (k < 32)%nat -> u32 (u32 ((1 .<< Z.of_nat k) .<< 1 - 1) - x) mod 2 ^ Z.of_nat k = 2 ^ Z.of_nat k - 1 - x mod 2 ^ Z.of_nat k.
Proof.
  intros Hk. rewrite Z.shiftl_1_l, Z.shiftl_mul_pow2 by lia. unfold u32.
  assert (E : 2 ^ 32 = 2 ^ Z.of_nat k * 2 ^ (32 - Z.of_nat k)) by (rewrite <- Z.pow_add_r by lia; f_equal; lia).
  pose proof (pow2_pos (Z.of_nat k) ltac:(lia)) as Hp. pose proof (pow2_pos (32 - Z.of_nat k) ltac:(lia)) as Hq.
  assert (D : forall z, (z mod 2 ^ 32) mod 2 ^ Z.of_nat k = z mod 2 ^ Z.of_nat k).
  { intros z. symmetry. apply Znumtheory.Zmod_div_mod; [lia..|]. exists (2 ^ (32 - Z.of_nat k)). lia. }
  rewrite D, Zminus_mod, D.
  pose proof (Z.mod_pos_bound x (2 ^ Z.of_nat k) ltac:(lia)).
  replace ((2 ^ Z.of_nat k * 2 ^ 1 - 1) mod 2 ^ Z.of_nat k) with (2 ^ Z.of_nat k - 1).
  2:{ apply Z.mod_unique with 1; lia. }
  apply Z.mod_small. lia.
Qed.

Lemma hilbert_loop_index k x y d :
  (k <= 32)%nat -> fits_u32 x -> fits_u32 y -> 0 <= d -> d + 2 ^ Z.of_nat k * 2 ^ Z.of_nat k <= 2 ^ 64 ->
  hilbert_loop k x y d = d + hilbert_index k (x mod 2 ^ Z.of_nat k) (y mod 2 ^ Z.of_nat k).
Proof.
  revert x y d. induction k as [|k IH]; intros x y d Hk Hx Hy Hd Hmax; [cbn; lia|].
  cbn [hilbert_loop hilbert_index].
  rewrite !land_pow2_pos by (unfold fits_u32 in *; lia).
  pose proof (pow2_pos (Z.of_nat k) ltac:(lia)) as Hp.
  pose proof (mod_pow2_S x k) as Ex. pose proof (mod_pow2_S y k) as Ey.
  pose proof (Z.mod_pos_bound x (2 ^ Z.of_nat k) ltac:(lia)) as Bx.
  pose proof (Z.mod_pos_bound y (2 ^ Z.of_nat k) ltac:(lia)) as By.
  rewrite pow2_S in Hmax. set (s := 2 ^ Z.of_nat k) in *.
  assert (S1 : 1 .<< Z.of_nat k = s) by apply Z.shiftl_1_l.
  assert (Hr : forall q, 0 <= q <= 3 -> u64 (d + u64 ((1 .<< Z.of_nat k) * (1 .<< Z.of_nat k) * q)) = d + q * (s * s)).
  { intros q Hq. rewrite S1, (u64_id (s * s * q)), u64_id; unfold fits_u64; nia. }
  destruct (Z.leb_spec s (x mod 2 ^ Z.of_nat (S k))), (Z.leb_spec s (y mod 2 ^ Z.of_nat (S k)));
    cbn [hilbert_rot Z.eqb Pos.eqb];
    change (3 * 1 .^ 1) with 2; change (3 * 1 .^ 0) with 3; change (3 * 0 .^ 1) with 1; change (3 * 0 .^ 0) with 0;
    (rewrite Hr, IH; [| lia | auto using u32_fits .. | nia | nia | lia]);
    rewrite ?complement_low by lia; fold s; rewrite ?Ex, ?Ey.
  all: repeat match goal with |- context [?a <? ?b] => destruct (Z.ltb_spec a b); try lia end.
  all: match goal with |- ?l = ?r => match l with context [hilbert_index ?n ?a ?b] =>
         match r with context [hilbert_index n ?c ?e] =>
           assert (hilbert_index n a b = hilbert_index n c e) as -> by (f_equal; lia); lia end end end.
Qed.

Lemma hilbert_xy2d_index x y : fits_u32 x -> fits_u32 y -> hilbert_xy2d_64 x y = hilbert_index 32 x y.
Proof.
  intros Hx Hy. unfold hilbert_xy2d_64, HILBERT_ORDER. rewrite hilbert_loop_index by (auto; cbn; lia).
  unfold fits_u32 in *. rewrite !Z.mod_small by (cbn; lia). lia.
Qed.

Lemma div_lt_mult z a t : 0 < t -> (z <? a * t) = (z / t <? a).
Proof.
  intros Ht. pose proof (Z.div_mod z t ltac:(lia)). pose proof (Z.mod_pos_bound z t Ht).
  destruct (Z.ltb_spec z (a * t)), (Z.ltb_spec (z / t) a); nia.
Qed.

Lemma div_sub_mult z a t : 0 < t -> (z - a * t) / t = z / t - a.
Proof. intros Ht. rewrite <- Z.add_opp_r, Zopp_mult_distr_l, Z.div_add by lia. lia. Qed.

Lemma div_complement z a t : 0 < t -> (a * t - 1 - z) / t = a - 1 - z / t.
Proof.
  intros Ht. pose proof (Z.div_mod z t ltac:(lia)). pose proof (Z.mod_pos_bound z t Ht).
  symmetry. apply Z.div_unique with (t - 1 - z mod t); lia.
Qed.

(** A coarse cell of side 2^m is one block of 4^m consecutive positions: the position
    divided by 4^m is the same for every point of the cell. *)
Lemma hilbert_index_cell k m x y x' y' :
  (m <= k)%nat -> in_square k x y -> in_square k x' y' ->
  x / 2 ^ Z.of_nat m = x' / 2 ^ Z.of_nat m -> y / 2 ^ Z.of_nat m = y' / 2 ^ Z.of_nat m ->
  hilbert_index k x y / (2 ^ Z.of_nat m * 2 ^ Z.of_nat m) = hilbert_index k x' y' / (2 ^ Z.of_nat m * 2 ^ Z.of_nat m).
Proof.
  intros Hm. remember (k - m)%nat as j eqn:Ej. revert k x y x' y' Hm Ej.
  induction j as [|j IH]; intros k x y x' y' Hm Ej Hxy Hxy' Ex Ey.
  - assert (k = m) as -> by lia.
    rewrite !Z.div_small by (apply hilbert_index_bound; done). done.
  - destruct k as [|k]; [lia|]. specialize (IH k).
    assert (Ht : 2 ^ Z.of_nat k = 2 ^ Z.of_nat (k - m) * 2 ^ Z.of_nat m)
      by (rewrite <- Z.pow_add_r by lia; f_equal; lia).
    pose proof (pow2_pos (Z.of_nat m) ltac:(lia)) as Hp.
    set (t := 2 ^ Z.of_nat m) in *. set (u := 2 ^ Z.of_nat (k - m)) in *.
    assert (Hq : forall c h, (c * (u * t * (u * t)) + h) / (t * t) = c * (u * u) + h / (t * t)).
    { intros c h. replace (c * (u * t * (u * t)) + h) with (h + (c * (u * u)) * (t * t)) by ring.
      rewrite Z.div_add by nia. lia. }
    unfold in_square in *. rewrite pow2_S, Ht in *. cbn [hilbert_index]. rewrite Ht.
    rewrite !div_lt_mult, <- Ex, <- Ey by done.
    pose proof (div_lt_mult x u t Hp). pose proof (div_lt_mult y u t Hp).
    pose proof (div_lt_mult x' u t Hp). pose proof (div_lt_mult y' u t Hp). rewrite <- ?Ex, <- ?Ey in *.
    replace (2 * (u * t) - 1) with (2 * u * t - 1) by ring.
    assert (Hq1 : forall h, (u * t * (u * t) + h) / (t * t) = u * u + h / (t * t))
      by (intros h; specialize (Hq 1 h); rewrite !Z.mul_1_l in Hq; exact Hq).
    destruct (Z.ltb_spec (y / t) u), (Z.ltb_spec (x / t) u); zbool;
      rewrite ?Hq, ?Hq1; try apply (f_equal2 Z.add eq_refl);
      apply IH; rewrite ?div_sub_mult, ?div_complement; lia.
Qed.

(** ** Keys *)

Lemma encode_hilbert_be_split h : encode_hilbert_be h = be_split 8 h.
Proof. reflexivity. Qed.

Lemma in_square_u32 x y : fits_u32 x -> fits_u32 y -> in_square 32 x y.
Proof. done. Qed.

Lemma hilbert_xy2d_fits x y : fits_u32 x -> fits_u32 y -> fits_u64 (hilbert_xy2d_64 x y).
Proof. intros Hx Hy. rewrite hilbert_xy2d_index by done. apply (hilbert_index_bound 32); done. Qed.

(** C26: the curve of the spatial index on 32-bit coordinates is the Hilbert curve: it
    maps the square of 2^32 by 2^32 points one to one into 64 bits, points at
    consecutive positions are neighbours, every aligned cell of side 2^m is one block
    of 4^m consecutive positions, and the encoded keys compare byte by byte as the
    positions do. *)
Theorem hilbert_curve_spec x y x' y' :
  fits_u32 x -> fits_u32 y -> fits_u32 x' -> fits_u32 y' ->
  (hilbert_xy2d_64 x y = hilbert_xy2d_64 x' y' -> x = x' /\ y = y') /\
  (hilbert_xy2d_64 x' y' = hilbert_xy2d_64 x y + 1 -> Z.abs (x' - x) + Z.abs (y' - y) = 1) /\
  (forall m, (m <= 32)%nat -> x .>> Z.of_nat m = x' .>> Z.of_nat m -> y .>> Z.of_nat m = y' .>> Z.of_nat m ->
     hilbert_xy2d_64 x y .>> (2 * Z.of_nat m) = hilbert_xy2d_64 x' y' .>> (2 * Z.of_nat m)) /\
  bytes_compare (encode_hilbert_be (hilbert_xy2d_64 x y)) (encode_hilbert_be (hilbert_xy2d_64 x' y')) =
    Z.compare (hilbert_xy2d_64 x y) (hilbert_xy2d_64 x' y').
Proof.
  intros Hx Hy Hx' Hy'. split_and!.
  - rewrite !hilbert_xy2d_index by done. by apply (hilbert_index_inj 32).
  - rewrite !hilbert_xy2d_index by done. apply (hilbert_index_adjacent 32); done.
  - intros m Hm Ex Ey. rewrite !hilbert_xy2d_index by done. rewrite !shiftr_div in * by lia.
    replace (2 * Z.of_nat m) with (Z.of_nat m + Z.of_nat m) by lia. rewrite Z.pow_add_r by lia.
    by apply hilbert_index_cell.
  - rewrite !encode_hilbert_be_split. apply be_split_compare; by apply hilbert_xy2d_fits.
Qed.

Lemma hilbert_curve_spec_witness :
  Z.abs (0 - 1) + Z.abs (1 - 1) = 1 /\ hilbert_xy2d_64 1 1 .>> 2 = hilbert_xy2d_64 0 1 .>> 2.
Proof.
  destruct (hilbert_curve_spec 1 1 0 1) as (_ & Hadj & Hcell & _); [done..|].
  split; [apply Hadj; vm_compute; reflexivity | apply (Hcell 1%nat); [lia | reflexivity | reflexivity]].
Defined.

Lemma decode_encode_hilbert h : fits_u64 h -> decode_hilbert_be (encode_hilbert_be h) = h.
Proof.
  intros Hh. unfold decode_hilbert_be. rewrite encode_hilbert_be_split, shift_or_be64 by auto using be_split_ok, be_split_length.
  rewrite be_combine_split. apply Z.mod_small, Hh.
Qed.

(** ** The image of a double *)

Lemma double_to_lex_value a :
  fits_u64 a -> double_to_lex_uint32 a = (if a <? 2 ^ 63 then a + 2 ^ 63 else 2 ^ 64 - 1 - a) / 2 ^ 32.
Proof.
  intros Ha. unfold double_to_lex_uint32, IEEE754_DOUBLE_SIGN_MASK.
  pose proof (land_pow2_pos a 63 (proj1 Ha)) as E. rewrite Z.shiftl_1_l, (Z.mod_small a) in E by apply Ha.
  change (Z.of_nat 63) with 63 in E.
  assert (Hnn : 0 <= a .& 2 ^ 63) by (apply Z.land_nonneg; lia).
  unfold fits_u64 in Ha. rewrite shiftr_div by lia.
  destruct (Z.eqb_spec (a .& 2 ^ 63) 0) as [E0|E0], (Z.ltb_spec a (2 ^ 63)); simpl negb; try lia.
  - rewrite <- Z.add_nocarry_lxor by done. apply u32_id.
    unfold fits_u32. split; [apply Z.div_pos | apply Z.div_lt_upper_bound]; lia.
  - assert (u64 (Z.lnot a) = 2 ^ 64 - 1 - a) as ->.
    { unfold u64, Z.lnot. symmetry. apply Z.mod_unique with (-1); lia. }
    apply u32_id. unfold fits_u32. split; [apply Z.div_pos | apply Z.div_lt_upper_bound]; lia.
Qed.

(** The image keeps the order of doubles, but for the zeros: +0 and -0 are equal and
    have different images. *)
Lemma double_to_lex_mono a b :
  fits_u64 a -> fits_u64 b -> double_le a b = true -> a <> 0 \/ b <> 2 ^ 63 ->
  double_to_lex_uint32 a <= double_to_lex_uint32 b.
Proof.
  intros Ha Hb Hle Hz. rewrite !double_to_lex_value by done. apply Z.div_le_mono; [lia|].
  unfold double_le, double_ord in Hle. apply andb_true_iff in Hle as [_ Hle]. unfold fits_u64 in *.
  destruct (Z.ltb_spec a (2 ^ 63)), (Z.ltb_spec b (2 ^ 63)); lia.
Qed.

(** ** Bounding rectangles of geometries

    A geometry as its tree, with the bytes the server stores for it and the list of
    its coordinate pairs. *)

Inductive geometry :=
| Point (p : Z * Z)
| LineString (ps : list (Z * Z))
| Polygon (rings : list (list (Z * Z)))
| Collection (gt : Z) (gs : list geometry).

Definition wkb_header (gt : Z) : bytes := 1 :: le_split 4 gt.
Definition wkb_point (p : Z * Z) : bytes := le_split 8 p.1 ++ le_split 8 p.2.
Definition wkb_list {A} (enc : A -> bytes) (l : list A) : bytes := le_split 4 (Z.of_nat (length l)) ++ (l ≫= enc).

Fixpoint wkb_of (g : geometry) : bytes :=
  match g with
  | Point p => wkb_header 1 ++ wkb_point p
  | LineString ps => wkb_header 2 ++ wkb_list wkb_point ps
  | Polygon rings => wkb_header 3 ++ wkb_list (wkb_list wkb_point) rings
  | Collection gt gs => wkb_header gt ++ wkb_list wkb_of gs
  end.

Fixpoint points_of (g : geometry) : list (Z * Z) :=
  match g with
  | Point p => [p]
  | LineString ps => ps
  | Polygon rings => mjoin rings
  | Collection _ gs => gs ≫= points_of
  end.

Definition point_ok (p : Z * Z) : Prop := fits_u64 p.1 /\ fits_u64 p.2.
Definition count_ok {A} (limit : Z) (l : list A) : Prop := Z.of_nat (length l) <= limit.

(** Within the limits the parser accepts. *)
Inductive geometry_ok : geometry -> Prop :=
| ok_point p : point_ok p -> geometry_ok (Point p)
| ok_line ps : count_ok WKB_MAX_POINTS ps -> Forall point_ok ps -> geometry_ok (LineString ps)
| ok_polygon rings : count_ok WKB_MAX_RINGS rings ->
    Forall (fun ps => count_ok WKB_MAX_POINTS ps /\ Forall point_ok ps) rings -> geometry_ok (Polygon rings)
| ok_collection gt gs : 4 <= gt <= 7 -> count_ok WKB_MAX_GEOMS gs -> Forall geometry_ok gs ->
    geometry_ok (Collection gt gs).

Fixpoint geometry_depth (g : geometry) : nat :=
  match g with
  | Collection _ gs => S (list_max (map geometry_depth gs))
  | _ => 1
  end.

Lemma geometry_ind' (P : geometry -> Prop) :
  (forall p, P (Point p)) -> (forall ps, P (LineString ps)) -> (forall rings, P (Polygon rings)) ->
  (forall gt gs, Forall P gs -> P (Collection gt gs)) -> forall g, P g.
Proof.
  intros Hp Hl Hr Hc. fix IH 1. intros [p|ps|rings|gt gs]; [apply Hp | apply Hl | apply Hr | apply Hc].
  induction gs as [|g gs IHgs]; constructor; [apply IH | apply IHgs].
Qed.

(** A parser [f] reads the encodings [enc] of the items that satisfy [ok]. *)
Definition parses {A} (f : bytes -> tdb_mbr_t -> option (bytes * tdb_mbr_t)) (enc : A -> bytes)
    (pts : A -> list (Z * Z)) (ok : A -> Prop) : Prop :=
  forall a rest m, ok a -> f (enc a ++ rest) m = Some (rest, foldl expand m (pts a)).

Lemma le4_read n rest : fits_u32 n -> uint4get (le_split 4 n ++ rest) = n.
Proof.
  intros Hn. unfold uint4get. rewrite take_app_exact by apply le_split_length.
  rewrite le_combine_split. apply Z.mod_small, Hn.
Qed.

Lemma wkb_counted_parses {A} limit f (enc : A -> bytes) pts ok :
  0 <= limit < 2 ^ 32 -> parses f enc pts ok ->
  parses (wkb_counted limit f) (wkb_list enc) (fun l => l ≫= pts) (fun l => count_ok limit l /\ Forall ok l).
Proof.
  intros Hlim Hf l rest m [Hc Hok]. unfold count_ok in Hc. unfold wkb_counted, wkb_list. rewrite <- app_assoc.
  replace (Nat.ltb _ 4) with false by (symmetry; apply Nat.ltb_ge; rewrite length_app, le_split_length; lia).
  rewrite le4_read, drop_app_exact by (rewrite ?le_split_length; unfold fits_u32; lia).
  destruct (Z.ltb_spec limit (Z.of_nat (length l))); [lia|]. rewrite Nat2Z.id. clear Hc H.
  revert m. induction Hok as [|a l Ha Hl IH]; intros m; [done|].
  cbn [length repeat_parse mbind list_bind]. rewrite <- app_assoc, Hf by done. rewrite foldl_app. apply IH.
Qed.

Lemma wkb_read_point_parses : parses wkb_read_point wkb_point (fun p => [p]) point_ok.
Proof.
  intros [x y] rest m [Hx Hy]. unfold wkb_read_point, wkb_point, float8get. cbn [fst snd] in *.
  rewrite <- !app_assoc.
  replace (Nat.ltb _ 16) with false by (symmetry; apply Nat.ltb_ge; rewrite !length_app, !le_split_length; lia).
  rewrite !take_app_exact, (app_assoc _ _ rest), !drop_app_exact, <- app_assoc, drop_app_exact, take_app_exact
    by (rewrite ?length_app, ?le_split_length; done).
  rewrite !le_combine_split, !Z.mod_small by done. done.
Qed.

Lemma wkb_read_point_sequence_parses :
  parses wkb_read_point_sequence (wkb_list wkb_point) (fun ps => ps)
    (fun ps => count_ok WKB_MAX_POINTS ps /\ Forall point_ok ps).
Proof.
  intros ps rest m Hok. unfold wkb_read_point_sequence.
  rewrite (wkb_counted_parses WKB_MAX_POINTS _ _ _ _ ltac:(done) wkb_read_point_parses ps rest m Hok).
  assert (ps ≫= (fun p => [p]) = ps) as -> by (clear; induction ps as [|p ps IH]; [done | by rewrite bind_cons, IH]). done.
Qed.

Lemma wkb_header_read gt body :
  fits_u32 gt -> Nat.ltb (length (wkb_header gt ++ body)) SPATIAL_WKB_HEADER_SIZE = false /\
  uint4get (drop 1 (wkb_header gt ++ body)) = gt /\ drop 5 (wkb_header gt ++ body) = body.
Proof.
  intros Hgt. split_and!.
  - apply Nat.ltb_ge. unfold wkb_header. rewrite length_app. cbn [length]. rewrite le_split_length. unfold SPATIAL_WKB_HEADER_SIZE. lia.
  - cbn [wkb_header app drop]. by apply le4_read.
  - apply drop_app_exact. cbn [wkb_header length]. by rewrite le_split_length.
Qed.

Lemma geometry_depth_in gt gs g : g ∈ gs -> (geometry_depth g < geometry_depth (Collection gt gs))%nat.
Proof.
  intros Hg. cbn [geometry_depth]. apply Nat.lt_succ_r.
  pose proof (proj1 (list_max_le (map geometry_depth gs) _) (Nat.le_refl _)) as Hall.
  rewrite List.Forall_forall in Hall. apply Hall, in_map, list_elem_of_In, Hg.
Qed.

(** Every geometry within the limits is read to its end, and the rectangle is extended
    by every one of its points. *)
Lemma wkb_parse_geometry_parses fuel :
  parses (wkb_parse_geometry fuel) wkb_of points_of (fun g => geometry_ok g /\ (geometry_depth g <= fuel)%nat).
Proof.
  induction fuel as [|fuel IH]; intros g rest m [Hok Hd]; [destruct g; cbn in Hd; lia|].
  destruct Hok as [p Hp | ps Hc Hps | rings Hc Hr | gt gs Hgt Hc Hgs]; cbn [wkb_of wkb_parse_geometry points_of];
    rewrite <- app_assoc;
    match goal with |- context [wkb_header ?gt ++ ?body] =>
      destruct (wkb_header_read gt body) as (-> & -> & ->); [unfold fits_u32; lia|] end; cbn [Z.eqb Pos.eqb].
  - by apply wkb_read_point_parses.
  - by apply wkb_read_point_sequence_parses.
  - rewrite (wkb_counted_parses WKB_MAX_RINGS _ _ _ _ ltac:(done) wkb_read_point_sequence_parses); [|done].
    assert (rings ≫= (fun ps => ps) = mjoin rings) as -> by (clear; induction rings as [|r rings IH]; [done | by rewrite bind_cons, IH]). done.
  - destruct (Z.eqb_spec gt 1), (Z.eqb_spec gt 2), (Z.eqb_spec gt 3); try lia.
    replace ((4 <=? gt) && (gt <=? 7)) with true by (symmetry; lia).
    apply (wkb_counted_parses WKB_MAX_GEOMS _ _ _ _ ltac:(done) IH). split; [done|].
    rewrite Forall_forall in *. intros g Hg. split; [auto|].
    pose proof (geometry_depth_in gt gs g Hg). lia.
Qed.

Lemma wkb_of_depth g : (geometry_depth g <= length (wkb_of g))%nat.
Proof.
  induction g as [p|ps|rings|gt gs IH] using geometry_ind'; cbn [wkb_of wkb_header app geometry_depth length]; try lia.
  apply le_n_S. rewrite length_app. apply list_max_le. rewrite List.Forall_forall.
  intros n Hn. apply in_map_iff in Hn as (g & <- & Hg).
  rewrite Forall_forall in IH. specialize (IH g (proj2 (list_elem_of_In _ _) Hg)).
  unfold wkb_list. rewrite length_app, !le_split_length.
  apply list_elem_of_In, list_elem_of_split in Hg as (l1 & l2 & ->).
  rewrite bind_app, bind_cons, !length_app. lia.
Qed.

(** ** The rectangle is the smallest one *)

Definition finite_point (p : Z * Z) : bool := isfinite p.1 && isfinite p.2.

(** [lo] is a minimum of [f] over the finite points, and [hi] a maximum. *)
Definition bounds_axis (f : Z * Z -> Z) (pts : list (Z * Z)) (lo hi : Z) : Prop :=
  (forall p, p ∈ pts -> finite_point p = true -> double_ord lo <= double_ord (f p) <= double_ord hi) /\
  (exists p, p ∈ pts /\ finite_point p = true /\ f p = lo) /\ (exists p, p ∈ pts /\ finite_point p = true /\ f p = hi).

Definition is_mbr (pts : list (Z * Z)) (m : tdb_mbr_t) : Prop :=
  bounds_axis fst pts (xmin m) (xmax m) /\ bounds_axis snd pts (ymin m) (ymax m).

Lemma isfinite_ord a : fits_u64 a -> isfinite a = true -> - DBL_MAX <= double_ord a <= DBL_MAX.
Proof.
  unfold isfinite, double_ord, DBL_MAX, fits_u64. intros Ha Hf. zbool.
  rewrite shiftr_div in Hf by lia. change 2047 with (Z.ones 11) in Hf at 1. rewrite Z.land_ones in Hf by lia.
  pose proof (Z.div_mod a (2 ^ 52) ltac:(lia)). pose proof (Z.mod_pos_bound a (2 ^ 52) ltac:(lia)).
  destruct (Z.ltb_spec a (2 ^ 63)).
  - rewrite Z.mod_small in Hf; [lia|]. split; [apply Z.div_pos | apply Z.div_lt_upper_bound]; lia.
  - replace ((a / 2 ^ 52) mod 2 ^ 11) with (a / 2 ^ 52 - 2 ^ 11) in Hf; [lia|].
    apply Z.mod_unique with 1; lia.
Qed.

Lemma double_lt_ord a b : isfinite a = true -> isfinite b = true -> double_lt a b = (double_ord a <? double_ord b).
Proof.
  unfold isfinite, double_lt, comparable, isnan. intros Ha Hb. apply negb_true_iff in Ha, Hb. by rewrite Ha, Hb.
Qed.

Lemma double_ord_inj a b : fits_u64 a -> fits_u64 b -> double_ord a = double_ord b -> double_ord a <> 0 -> a = b.
Proof. unfold double_ord, fits_u64. intros. case_ifs; lia. Qed.

Lemma DBL_MAX_finite : isfinite DBL_MAX = true /\ isfinite NEG_DBL_MAX = true /\ fits_u64 DBL_MAX /\ fits_u64 NEG_DBL_MAX.
Proof. done. Qed.

(** No finite point yet and the start values, or the bounds of those read. *)
Definition axis_state (f : Z * Z -> Z) (pts : list (Z * Z)) (lo hi : Z) : Prop :=
  (forall p, p ∈ pts -> finite_point p = false) /\ lo = DBL_MAX /\ hi = NEG_DBL_MAX \/ bounds_axis f pts lo hi.

Lemma axis_state_skip f pts lo hi p : finite_point p = false -> axis_state f pts lo hi -> axis_state f (pts ++ [p]) lo hi.
Proof.
  intros Hp [(Hno & -> & ->) | (Hin & (a & ? & ? & ?) & (b & ? & ? & ?))]; [left | right].
  - split_and!; [|done..]. intros q [Hq | ->%list_elem_of_singleton]%elem_of_app; auto.
  - split_and!.
    + intros q [Hq | ->%list_elem_of_singleton]%elem_of_app ?; [auto | congruence].
    + exists a. rewrite elem_of_app. auto.
    + exists b. rewrite elem_of_app. auto.
Qed.

Lemma axis_state_expand f pts lo hi p :
  (f = fst \/ f = snd) -> Forall point_ok pts -> point_ok p -> finite_point p = true -> axis_state f pts lo hi ->
  bounds_axis f (pts ++ [p]) (if double_lt (f p) lo then f p else lo) (if double_lt hi (f p) then f p else hi).
Proof.
  intros Hf Hok Hp Hfin Hst.
  assert (Hproj : forall q, point_ok q -> finite_point q = true -> fits_u64 (f q) /\ isfinite (f q) = true).
  { intros q [? ?] [? ?]%andb_true_iff. destruct Hf as [-> | ->]; auto. }
  destruct (Hproj p Hp Hfin) as [Hpu Hpf]. pose proof (isfinite_ord (f p) Hpu Hpf) as Hpb.
  destruct DBL_MAX_finite as (F1 & F2 & U1 & U2). rewrite List.Forall_forall in Hok.
  assert (Hend : p ∈ pts ++ [p]) by (rewrite elem_of_app, list_elem_of_singleton; auto).
  destruct Hst as [(Hno & -> & ->) | (Hin & (a & Ha & Hfa & <-) & (b & Hb & Hfb & <-))].
  - rewrite !double_lt_ord by done.
    assert (Elo : (if double_ord (f p) <? double_ord DBL_MAX then f p else DBL_MAX) = f p).
    { match goal with |- (if ?a <? ?b then _ else _) = _ => destruct (Z.ltb_spec a b) end; [done|]. symmetry. apply double_ord_inj; auto; change (double_ord DBL_MAX) with DBL_MAX in *; unfold DBL_MAX in *; lia. }
    assert (Ehi : (if double_ord NEG_DBL_MAX <? double_ord (f p) then f p else NEG_DBL_MAX) = f p).
    { match goal with |- (if ?a <? ?b then _ else _) = _ => destruct (Z.ltb_spec a b) end; [done|]. symmetry. apply double_ord_inj; auto; change (double_ord NEG_DBL_MAX) with (- DBL_MAX) in *; unfold DBL_MAX in *; lia. }
    rewrite Elo, Ehi. split_and!; [|eauto..].
    intros q [Hq | ->%list_elem_of_singleton]%elem_of_app Hq'; [rewrite Hno in Hq' by done; discriminate | lia].
  - destruct (Hproj a (Hok a (proj1 (list_elem_of_In _ _) Ha)) Hfa) as [_ Haf].
    destruct (Hproj b (Hok b (proj1 (list_elem_of_In _ _) Hb)) Hfb) as [_ Hbf].
    rewrite !double_lt_ord by done. pose proof (Hin a Ha Hfa). pose proof (Hin b Hb Hfb).
    split_and!.
    + intros q [Hq | ->%list_elem_of_singleton]%elem_of_app Hq'; [pose proof (Hin q Hq Hq')|]; case_ifs; lia.
    + case_ifs; [eauto|]. exists a. rewrite elem_of_app. auto.
    + case_ifs; [eauto|]. exists b. rewrite elem_of_app. auto.
Qed.

Lemma expand_all_state pts :
  Forall point_ok pts ->
  let m := foldl expand mbr_start pts in axis_state fst pts (xmin m) (xmax m) /\ axis_state snd pts (ymin m) (ymax m).
Proof.
  induction pts as [|p pts IH] using rev_ind; intros Hok.
  - split; left; (split_and!; [|done..]); intros q Hq; by apply not_elem_of_nil in Hq.
  - apply Forall_app in Hok as [Hok Hp]. apply List.Forall_cons_iff in Hp as [Hp _].
    destruct (IH Hok) as [Hx Hy]. cbv zeta. rewrite foldl_app. cbn [foldl].
    set (m := foldl expand mbr_start pts) in *. destruct p as [x y]. unfold expand.
    change (isfinite x && isfinite y) with (finite_point (x, y)).
    destruct (finite_point (x, y)) eqn:Hfin; cbn [xmin xmax ymin ymax].
    + split; right; [apply (axis_state_expand fst) | apply (axis_state_expand snd)]; auto.
    + split; by apply axis_state_skip.
Qed.

Lemma points_of_ok g : geometry_ok g -> Forall point_ok (points_of g).
Proof.
  induction g as [p|ps|rings|gt gs IH] using geometry_ind'; inversion 1; subst; cbn [points_of]; auto.
  - apply List.Forall_forall. intros p Hp. apply list_elem_of_In, list_elem_of_join in Hp as (ps & Hp & Hps).
    rewrite Forall_forall in *. edestruct H2 as [_ H4]; [exact Hps|]. rewrite Forall_forall in H4. auto.
  - apply Forall_forall. intros p Hp. apply list_elem_of_bind in Hp as (g & Hp & Hg).
    pose proof (proj1 (Forall_forall _ _) IH g Hg (proj1 (Forall_forall _ _) H4 g Hg)) as Hpts.
    by apply (proj1 (Forall_forall _ _) Hpts).
Qed.

(** for every geometry within the limits of the parser, stored as its SRID and its
    WKB bytes, [spatial_compute_mbr] succeeds exactly when some point of it has finite
    coordinates, and the rectangle it gives is the smallest one that holds every such
    point: no finite point is outside and each side passes through one. *)
Theorem compute_mbr_spec srid g rest :
  length srid = SPATIAL_SRID_SIZE -> geometry_ok g ->
  match spatial_compute_mbr (srid ++ wkb_of g ++ rest) with
  | Some m => is_mbr (points_of g) m
  | None => forall p, p ∈ points_of g -> finite_point p = false
  end.
Proof.
  intros Hs Hg. unfold spatial_compute_mbr.
  pose proof (wkb_of_depth g) as Hd.
  assert (Hlen : (5 <= length (wkb_of g))%nat)
    by (destruct g; cbn [wkb_of wkb_header app length]; rewrite length_app, le_split_length; lia).
  replace (Nat.ltb _ _) with false by (symmetry; apply Nat.ltb_ge; rewrite !length_app, Hs; unfold SPATIAL_WKB_HEADER_SIZE; lia).
  rewrite drop_app_exact by done.
  rewrite wkb_parse_geometry_parses by (rewrite !length_app; split; [done | lia]).
  destruct (expand_all_state (points_of g) (points_of_ok g Hg)) as [Hx Hy].
  set (m := foldl expand mbr_start (points_of g)) in *.
  destruct Hx as [(Hno & Ex & Ey) | Hx]; [by rewrite Ex, Ey|].
  destruct Hx as (Hin & Hmin & Hmax). pose proof Hmin as (p & Hp & Hfp & _).
  destruct Hy as [(Hno & _ & _) | Hy]; [rewrite (Hno p Hp) in Hfp; discriminate Hfp|].
  assert (Hcmp : forall f lo hi, (f = fst \/ f = snd) -> bounds_axis f (points_of g) lo hi -> double_le lo hi = true).
  { intros f lo hi Hf (Hb & (a & Ha & Hfa & <-) & (b & Hb' & Hfb & <-)). unfold double_le, comparable, isnan.
    specialize (Hb a Ha Hfa). apply andb_true_iff in Hfa as [? ?], Hfb as [? ?]. unfold isfinite in *.
    destruct Hf as [-> | ->]; zbool; repeat match goal with H : (?a =? 2047) = false |- _ => rewrite H end;
      cbn; lia. }
  rewrite (Hcmp fst), (Hcmp snd) by (auto; split_and!; auto). split; [split_and!; auto | exact Hy].
Qed.

(** A polygon from (0, 0) to (4, 2), and a point that is not a number. *)
Lemma compute_mbr_spec_witness :
  let g := Collection 7 [Polygon [[(0, 0); (0x4010000000000000, 0); (0x4010000000000000, 0x4000000000000000); (0, 0)]];
                         Point (0x7FF8000000000000, 0)] in
  is_mbr (points_of g) (mk_mbr 0 0 0x4010000000000000 0x4000000000000000).
Proof.
  intros g.
  assert (Hg : geometry_ok g)
    by (repeat first [constructor | done | unfold count_ok; cbn; lia]).
  exact (compute_mbr_spec [0; 0; 0; 0] g [] eq_refl Hg).
Defined.

(** ** What the ranges miss

    The range of a coarse cell starts at the position of its low corner, which is not
    the first position of the cell where the curve enters it elsewhere. *)

Definition spatial_ranges_of_query (q : tdb_mbr_t) : list (Z * Z) :=
  spatial_decompose_ranges (double_to_lex_uint32 (xmin q)) (double_to_lex_uint32 (ymin q))
    (double_to_lex_uint32 (xmax q)) (double_to_lex_uint32 (ymax q)).

Definition in_ranges (h : Z) (rs : list (Z * Z)) : bool := existsb (fun r => (r.1 <=? h) && (h <=? r.2)) rs.

(** The point (5, 1.25) lies in the box from (4, 1) to (6, 1.5), and no range of the
    box holds its position. *)
Theorem query_ranges_miss_point :
  let q := mk_mbr 0x4010000000000000 0x3FF0000000000000 0x4018000000000000 0x3FF8000000000000 in
  let p := mk_mbr 0x4014000000000000 0x3FF4000000000000 0x4014000000000000 0x3FF4000000000000 in
  spatial_mbr_predicate HA_READ_MBR_INTERSECT q p = true /\
  in_ranges (hilbert_xy2d_64 (double_to_lex_uint32 (xmin p)) (double_to_lex_uint32 (ymin p))) (spatial_ranges_of_query q) = false.
Proof. split; vm_compute; reflexivity. Qed.
