(* ===== verification/Sdi.v ===== *)
(** * Serialized dictionary information (tidesdb_atomic_ddl.cc, tidesdb_atomic_ddl_pure.cc)

    The store of dictionary blobs in the column family [__tidesdb_sdi]: its packed
    keys, the four operations of [SdiStore] with the one-shot transaction each of them
    runs, and the six handlerton callbacks that route to it.  The column family is its
    entries in key order. *)

From Stdlib Require Import ZArith Lia String Sorting.Sorted.
From stdpp Require Import base tactics list numbers gmap fin_maps.
From S2P Require Import Prelude Errors Scan Paths CfNames.

Record sdi_key_t := mk_sdi_key { sdi_type : Z; sdi_id : Z }.

#[export] Instance sdi_key_eq_dec : EqDecision sdi_key_t.
Proof. solve_decision. Defined.
#[export] Instance sdi_key_countable : Countable sdi_key_t.
Proof.
  apply (inj_countable' (fun k => (sdi_type k, sdi_id k)) (fun p => mk_sdi_key p.1 p.2)). by intros [].
Defined.

Definition kTidesdbTablespace : bytes := of_string "tidesdb_system".
Definition kSdiCfName : bytes := of_string "__tidesdb_sdi".
Definition kSdiPackedKeyLen : nat := 12.

Definition pack_key (k : sdi_key_t) : bytes :=
  [u8 (sdi_type k .>> 24); u8 (sdi_type k .>> 16); u8 (sdi_type k .>> 8); u8 (sdi_type k)] ++
  ((fun i => u8 (sdi_id k .>> ((7 - Z.of_nat i) * 8))) <$> seq 0 8).

(** The inverse, in [list_keys]. *)
Definition unpack_key (k : bytes) : sdi_key_t :=
  mk_sdi_key
    (u32 (nth 0 k 0 .<< 24) .| u32 (nth 1 k 0 .<< 16) .| u32 (nth 2 k 0 .<< 8) .| nth 3 k 0)
    (foldl (fun id i => u64 (id .<< 8) .| nth (4 + i) k 0) 0 (seq 0 8)).

(** ** The store *)

(** What the engine calls of one operation return, and where [tidesdb_iter_key] fails. *)
Record sdi_env := mk_sdi_env { rc_begin : tdb_rc; rc_op : tdb_rc; rc_commit : tdb_rc; iter_stop : option nat }.

Definition ok_rc (rc : tdb_rc) : bool := bool_decide (rc = TDB_SUCCESS).

(** [cf_]: [None] until [init] has bound it. *)
Notation sdi_store := (option (list (bytes * bytes))) (only parsing).

(** [first] and [second] are what looking the column family up yields before and after
    the creation. *)
Definition SdiStore_init (engine : bool) (first second : sdi_store) (create_rc : tdb_rc) : bool * sdi_store :=
  if negb engine then (false, None)
  else match first with
       | Some cf => (true, Some cf)
       | None =>
         if negb (ok_rc create_rc) && negb (bool_decide (create_rc = TDB_ERR_EXISTS)) then (false, None)
         else match second with Some cf => (true, Some cf) | None => (false, None) end
       end.

Definition SdiStore_put (env : sdi_env) (k : sdi_key_t) (blob : bytes) (s : sdi_store) : bool * sdi_store :=
  match s with
  | None => (false, s)
  | Some cf =>
    if negb (ok_rc (rc_begin env)) then (false, s)
    else if negb (ok_rc (rc_op env)) then (false, s)
    else if negb (ok_rc (rc_commit env)) then (false, s)
    else (true, Some (schema_put (pack_key k) blob cf))
  end.

(** The caller's buffer and length; the result, the length and the buffer after. *)
Definition SdiStore_get (env : sdi_env) (k : sdi_key_t) (out : option bytes) (len : option Z) (s : sdi_store)
    : bool * option Z * option bytes :=
  match s, len with
  | Some cf, Some n =>
    if negb (ok_rc (rc_begin env)) then (false, len, out)
    else if negb (ok_rc (rc_op env)) then (false, len, out)
    else match schema_get (pack_key k) cf with
         | None => (false, len, out)
         | Some val =>
           let val_len := Z.of_nat (length val) in
           match out with
           | None => (true, Some val_len, out)
           | Some buf =>
             if n <? val_len then (false, Some val_len, out)
             else (true, Some val_len, Some (memcpy_at buf 0 val))
           end
         end
  | _, _ => (false, len, out)
  end.

Definition SdiStore_del (env : sdi_env) (k : sdi_key_t) (s : sdi_store) : bool * sdi_store :=
  match s with
  | None => (false, s)
  | Some cf =>
    if negb (ok_rc (rc_begin env)) then (false, s)
    else if negb (done_rc (rc_op env)) then (false, s)
    else if negb (ok_rc (rc_commit env)) then (false, s)
    else (true, Some (if ok_rc (rc_op env) then schema_del (pack_key k) cf else cf))
  end.

Definition SdiStore_list_keys (env : sdi_env) (s : sdi_store) : bool * list sdi_key_t :=
  match s with
  | None => (false, [])
  | Some cf =>
    if negb (ok_rc (rc_begin env)) then (false, [])
    else if negb (ok_rc (rc_op env)) then (false, [])
    else
      let seen := match iter_stop env with Some n => take n cf | None => cf end in
      (true, unpack_key <$> List.filter (fun k => Nat.eqb (length k) kSdiPackedKeyLen) seen.*1)
  end.

(** ** The handlerton callbacks; false is success *)

Definition ours (ts : bytes) : bool := bool_decide (ts = kTidesdbTablespace).

Definition tidesdb_sdi_create (ts : option bytes) : bool := false.
Definition tidesdb_sdi_drop (ts : option bytes) : bool := false.

(** The store is the outer option: [None] when [g_engine_ctx.sdi] is null. *)
Definition tidesdb_sdi_get_keys (env : sdi_env) (ts : bytes) (sdi : option sdi_store) : bool * list sdi_key_t :=
  if negb (ours ts) then (false, [])
  else match sdi with
       | None => (false, [])
       | Some s => let '(ok, ks) := SdiStore_list_keys env s in (negb ok, ks)
       end.

Definition tidesdb_sdi_get (env : sdi_env) (ts : bytes) (k : option sdi_key_t) (blob : option bytes) (len : option Z)
    (sdi : option sdi_store) : bool * option Z * option bytes :=
  if negb (ours ts) then (false, len, blob)
  else match sdi, k, len with
       | Some s, Some k, Some _ => let '(ok, len, blob) := SdiStore_get env k blob len s in (negb ok, len, blob)
       | _, _, _ => (false, len, blob)
       end.

Definition tidesdb_sdi_set (env : sdi_env) (ts : bytes) (k : option sdi_key_t) (blob : option bytes)
    (sdi : option sdi_store) : bool * option sdi_store :=
  if negb (ours ts) then (false, sdi)
  else match sdi, k, blob with
       | Some s, Some k, Some b => let '(ok, s) := SdiStore_put env k b s in (negb ok, Some s)
       | _, _, _ => (true, sdi)
       end.

Definition tidesdb_sdi_delete (env : sdi_env) (ts : bytes) (k : option sdi_key_t)
    (sdi : option sdi_store) : bool * option sdi_store :=
  if negb (ours ts) then (false, sdi)
  else match sdi, k with
       | Some s, Some k => let '(ok, s) := SdiStore_del env k s in (negb ok, Some s)
       | _, _ => (true, sdi)
       end.

(** ** Keys *)

Definition sdi_key_ok (k : sdi_key_t) : Prop := fits_u32 (sdi_type k) /\ fits_u64 (sdi_id k).

Lemma pack_key_split k : pack_key k = be_split 4 (sdi_type k) ++ be_split 8 (sdi_id k).
Proof. destruct k as [t i]. cbn. by rewrite Z.shiftr_0_r. Qed.

Lemma pack_key_length k : length (pack_key k) = kSdiPackedKeyLen.
Proof. reflexivity. Qed.

(** Keys sort by type and then by id. *)
Definition key_compare (a b : sdi_key_t) : comparison :=
  match sdi_type a ?= sdi_type b with Eq => sdi_id a ?= sdi_id b | c => c end.

Lemma pack_key_compare a b :
  sdi_key_ok a -> sdi_key_ok b -> bytes_compare (pack_key a) (pack_key b) = key_compare a b.
Proof.
  intros [Ha1 Ha2] [Hb1 Hb2]. rewrite !pack_key_split, bytes_compare_blocks by (by rewrite !be_split_length).
  rewrite !be_split_compare by done. reflexivity.
Qed.

Lemma unpack_pack k : sdi_key_ok k -> unpack_key (pack_key k) = k.
Proof.
  intros [Ht Hi]. destruct k as [t i]. cbn [sdi_type sdi_id] in *. unfold unpack_key. f_equal.
  - cbn [pack_key sdi_type app nth]. pose proof (be_combine_split 4 t) as E.
    pose proof (be_split_ok 4 t) as Hok. cbn [be_split] in E, Hok. change (8 * Z.of_nat 3) with 24 in *.
    change (8 * Z.of_nat 2) with 16 in *. change (8 * Z.of_nat 1) with 8 in *. change (8 * Z.of_nat 0) with 0 in *.
    rewrite Z.shiftr_0_r, (Z.mod_small t) in E by apply Ht. rewrite Z.shiftr_0_r in Hok.
    unfold bytes_ok in Hok. rewrite !List.Forall_cons_iff in Hok. unfold fits_u8 in Hok. destruct_and! Hok.
    unfold be_combine in E. cbn [fold_left] in E.
    set (b0 := u8 (t .>> 24)) in *. set (b1 := u8 (t .>> 16)) in *. set (b2 := u8 (t .>> 8)) in *. set (b3 := u8 t) in *.
    rewrite !u32_id by (unfold fits_u32; rewrite shiftl_mul by lia; lia).
    rewrite (lor_shiftl_add b0 (b1 .<< 16) 24) by (rewrite ?shiftl_mul; lia).
    replace (b0 * 2 ^ 24 + b1 .<< 16) with ((b0 * 2 ^ 8 + b1) .<< 16) by (rewrite !shiftl_mul; lia).
    rewrite (lor_shiftl_add _ (b2 .<< 8) 16) by (rewrite ?shiftl_mul; lia).
    replace ((b0 * 2 ^ 8 + b1) * 2 ^ 16 + b2 .<< 8) with (((b0 * 2 ^ 8 + b1) * 2 ^ 8 + b2) .<< 8) by (rewrite !shiftl_mul; lia).
    rewrite lor_shiftl_add by lia. lia.
  - transitivity (be_combine (be_split 8 i)); [|rewrite be_combine_split; apply Z.mod_small, Hi].
    rewrite <- shift_or_be64 by auto using be_split_length, be_split_ok. reflexivity.
Qed.

Lemma pack_key_inj a b : sdi_key_ok a -> sdi_key_ok b -> pack_key a = pack_key b -> a = b.
Proof. intros Ha Hb E. by rewrite <- (unpack_pack a), E, unpack_pack. Qed.

#[local] Opaque pack_key.

(** ** The store is a finite map *)

(** The column family holds the packed entries of the map, in key order. *)
Definition represents (s : sdi_store) (m : gmap sdi_key_t bytes) : Prop :=
  exists cf, s = Some cf /\ sorted_cf fst cf /\ (forall k b, m !! k = Some b -> sdi_key_ok k) /\
    (forall e, e ∈ cf <-> exists k b, e = (pack_key k, b) /\ m !! k = Some b).

Lemma represents_get s m cf k :
  represents s m -> s = Some cf -> sdi_key_ok k -> schema_get (pack_key k) cf = m !! k.
Proof.
  intros (cf' & -> & Hs & Hok & Hin) [= ->] Hk. destruct (m !! k) as [b|] eqn:Hm.
  - apply schema_get_iff; [done|]. apply Hin. eauto.
  - destruct (schema_get (pack_key k) cf) as [b|] eqn:Hg; [|done].
    apply schema_get_iff, Hin in Hg as (k' & b' & [E <-]%pair_equal_spec & Hm'); [|done].
    apply pack_key_inj in E; eauto. congruence.
Qed.

Lemma represents_put cf m k b :
  represents (Some cf) m -> sdi_key_ok k -> represents (Some (schema_put (pack_key k) b cf)) (<[k := b]> m).
Proof.
  intros (? & [= <-] & Hs & Hok & Hin) Hk. eexists. split; [done|]. split; [by apply schema_put_sorted|]. split.
  - intros k' b'. destruct (decide (k = k')) as [->|]; [done|]. rewrite lookup_insert_ne by done. eauto.
  - intros e. rewrite schema_put_elem, Hin by done. split.
    + intros [->|[(k' & b' & -> & Hm) Hne]]; [exists k, b; by rewrite lookup_insert_eq|].
      exists k', b'. rewrite lookup_insert_ne by (intros ->; done). done.
    + intros (k' & b' & -> & Hm). destruct (decide (k = k')) as [<-|Hne].
      * rewrite lookup_insert_eq in Hm. left. congruence.
      * rewrite lookup_insert_ne in Hm by done. right. split; [eauto|]. cbn. intros E.
        apply pack_key_inj in E; eauto.
Qed.

Lemma represents_del cf m k :
  represents (Some cf) m -> sdi_key_ok k -> represents (Some (schema_del (pack_key k) cf)) (delete k m).
Proof.
  intros (? & [= <-] & Hs & Hok & Hin) Hk. eexists. split; [done|]. split; [by apply schema_del_sorted|]. split.
  - intros k' b' [_ Hm]%lookup_delete_Some. eauto.
  - intros e. unfold schema_del. rewrite list_elem_of_filter, Hin. split.
    + intros [Hne (k' & b' & -> & Hm)]. exists k', b'. split; [done|].
      rewrite lookup_delete_ne by (intros ->; done). done.
    + intros (k' & b' & -> & [Hne Hm]%lookup_delete_Some). split; [|eauto]. cbn. intros E.
      apply pack_key_inj in E; eauto.
Qed.

Lemma represents_packed cf m (l : list (bytes * bytes)) : represents (Some cf) m -> (forall e, e ∈ l -> e ∈ cf) ->
  List.filter (fun k => Nat.eqb (length k) kSdiPackedKeyLen) l.*1 = l.*1.
Proof.
  intros (? & [= <-] & _ & _ & Hin) Hl. apply forallb_filter_id. apply forallb_forall. intros k Hk%list_elem_of_In.
  apply list_elem_of_fmap in Hk as (e & -> & He). apply Hl, Hin in He as (k' & b & -> & _).
  cbn [fst]. by rewrite pack_key_length.
Qed.

Lemma represents_keys cf m :
  represents (Some cf) m ->
  let ks := unpack_key <$> List.filter (fun k => Nat.eqb (length k) kSdiPackedKeyLen) cf.*1 in
  (forall k, k ∈ ks <-> is_Some (m !! k)) /\ StronglySorted (fun a b => key_compare a b = Lt) ks.
Proof.
  intros Hr. pose proof (represents_packed cf m cf Hr ltac:(done)) as Hall. destruct Hr as (? & [= <-] & Hs & Hok & Hin).
  cbv zeta. rewrite Hall. split.
  - intros k. rewrite !list_elem_of_fmap. split.
    + intros (p & -> & Hp). apply list_elem_of_fmap in Hp as (e & -> & He). apply Hin in He as (k' & b & -> & Hm).
      cbn. rewrite unpack_pack by eauto. eauto.
    + intros [b Hm]. exists (pack_key k). split; [by rewrite unpack_pack by eauto|].
      apply list_elem_of_fmap. exists (pack_key k, b). split; [done|]. apply Hin. eauto.
  - assert (Hp : forall e, e ∈ cf -> exists k, sdi_key_ok k /\ e.1 = pack_key k).
    { intros e He. apply Hin in He as (k & b & -> & Hm). eauto. }
    clear Hin Hall Hok. induction Hs as [|e cf Hs IH Hlt]; [constructor|].
    cbn [fmap list_fmap]. constructor; [apply IH; intros; apply Hp; by right|].
    rewrite List.Forall_forall in *. intros k Hk%list_elem_of_In.
    apply list_elem_of_fmap in Hk as (p & -> & Hpe). apply list_elem_of_fmap in Hpe as (e' & -> & He').
    destruct (Hp e) as (k1 & Hk1 & E1); [by left|]. destruct (Hp e') as (k2 & Hk2 & E2); [by right|].
    specialize (Hlt e' (proj1 (list_elem_of_In _ _) He')). cbn in Hlt. unfold bytes_lt in Hlt.
    rewrite E1, E2 in *. rewrite !unpack_pack by done. by rewrite <- pack_key_compare.
Qed.

(** What a read of the store gives: the size on a probe, the blob when the buffer holds
    it, the size needed and the buffer left alone otherwise. *)
Definition read_blob (m : gmap sdi_key_t bytes) (k : sdi_key_t) (out : option bytes) (len : Z) : bool * option Z * option bytes :=
  match m !! k, out with
  | None, _ => (false, Some len, out)
  | Some b, None => (true, Some (Z.of_nat (length b)), None)
  | Some b, Some buf =>
    if len <? Z.of_nat (length b) then (false, Some (Z.of_nat (length b)), out)
    else (true, Some (Z.of_nat (length b)), Some (b ++ drop (length b) buf))
  end.

(** C33: the store of dictionary blobs implements a finite map from type and id to a
    blob.  A put or a delete that reports success has the effect of the map operation, and
    one that reports failure leaves the store as it was; the engine says that a key to
    delete is not found only of a key that is not there.  A read gives what the map holds,
    by [read_blob], when its transaction begins and the get succeeds, and fails with
    nothing changed otherwise.  The listing fails when its transaction or its iterator
    does; else it gives the keys of the map in order of type and id, all of them unless a
    key cannot be read, where it ends early and still reports success
    ([listing_cut_short]). *)
Theorem sdi_store_refines (env : sdi_env) (s : sdi_store) (m : gmap sdi_key_t bytes) (k : sdi_key_t) :
  represents s m -> sdi_key_ok k ->
  (forall b, let '(ok, s') := SdiStore_put env k b s in
     ok = ok_rc (rc_begin env) && ok_rc (rc_op env) && ok_rc (rc_commit env) /\ represents s' (if ok then <[k := b]> m else m)) /\
  ((rc_op env = TDB_ERR_NOT_FOUND -> m !! k = None) ->
   let '(ok, s') := SdiStore_del env k s in
     ok = ok_rc (rc_begin env) && done_rc (rc_op env) && ok_rc (rc_commit env) /\ represents s' (if ok then delete k m else m)) /\
  (forall out len, (forall buf, out = Some buf -> len = Z.of_nat (length buf)) ->
   SdiStore_get env k out (Some len) s =
     if ok_rc (rc_begin env) && ok_rc (rc_op env) then read_blob m k out len else (false, Some len, out)) /\
  (exists ks, (forall k', k' ∈ ks <-> is_Some (m !! k')) /\ StronglySorted (fun a b => key_compare a b = Lt) ks /\
   SdiStore_list_keys env s =
     if ok_rc (rc_begin env) && ok_rc (rc_op env)
     then (true, match iter_stop env with Some n => take n ks | None => ks end) else (false, [])).
Proof.
  intros Hr Hk. pose proof Hr as (cf & Es & _). subst s.
  pose proof (represents_get _ _ cf k Hr eq_refl Hk) as Hg. split_and!.
  - intros b. unfold SdiStore_put, ok_rc. repeat case_bool_decide; cbn; auto using represents_put.
  - unfold SdiStore_del, done_rc, ok_rc. intros Hnf. repeat case_bool_decide; cbn; auto using represents_del.
    split; [done|]. by rewrite delete_id by auto.
  - intros out len Hlen. unfold SdiStore_get, read_blob. rewrite Hg.
    destruct (ok_rc (rc_begin env)); [|done]. destruct (ok_rc (rc_op env)); [|done]. cbn.
    destruct (m !! k) as [b|]; [|done]. destruct out as [buf|]; [|done]. by rewrite memcpy_at_0.
  - destruct (represents_keys cf m Hr) as [Hin Hs]. eexists. split; [exact Hin|]. split; [exact Hs|]. unfold SdiStore_list_keys.
    destruct (ok_rc (rc_begin env)); [|done]. destruct (ok_rc (rc_op env)); [|done]. cbn. f_equal.
    destruct (iter_stop env) as [n|]; [|done].
    rewrite !(represents_packed cf m) by (done || intros e He; by eapply elem_of_take in He as (? & ? & _); eapply list_elem_of_lookup_2).
    by rewrite !fmap_take.
Qed.

Definition good_sdi : sdi_env := mk_sdi_env TDB_SUCCESS TDB_SUCCESS TDB_SUCCESS None.

Lemma represents_empty : represents (Some []) ∅.
Proof.
  exists []. split_and!; [done | constructor | intros k b; by rewrite lookup_empty |].
  intros e. split; [by intros ?%not_elem_of_nil|]. intros (k & b & _ & Hm). by rewrite lookup_empty in Hm.
Qed.

Lemma sdi_store_refines_witness :
  let '(ok, s') := SdiStore_put good_sdi (mk_sdi_key 1 7) [5] (Some []) in
  ok = true /\ represents s' {[mk_sdi_key 1 7 := [5]]}.
Proof.
  destruct (sdi_store_refines good_sdi (Some []) ∅ (mk_sdi_key 1 7)) as [Hp _]; [exact represents_empty | done |].
  exact (Hp [5]).
Defined.

(** A key that cannot be read ends the listing, which reports success. *)
Lemma listing_cut_short :
  let s := (SdiStore_put good_sdi (mk_sdi_key 1 8) [6] (SdiStore_put good_sdi (mk_sdi_key 1 7) [5] (Some [])).2).2 in
  SdiStore_list_keys good_sdi s = (true, [mk_sdi_key 1 7; mk_sdi_key 1 8]) /\
  SdiStore_list_keys (mk_sdi_env TDB_SUCCESS TDB_SUCCESS TDB_SUCCESS (Some 1%nat)) s = (true, [mk_sdi_key 1 7]).
Proof. vm_compute. split; reflexivity. Qed.
