(* ===== verification/AtomicDdl.v ===== *)
(** * Atomic DDL (tidesdb_atomic_ddl.cc, tidesdb_atomic_ddl_pure.cc)

    The reconciler that compares the tables of the data dictionary with the column
    families of the engine, and the bookkeeping kept in the [se_private_data] of a
    dictionary table: written by CREATE, carried by RENAME and ALTER, checked by OPEN.
    The digest, the checksum, the JSON library and the text form of dictionary
    properties belong to the server and are parameters. *)

From Stdlib Require Import ZArith Lia String Sorting.Sorted.
From stdpp Require Import base tactics list numbers gmap fin_maps.
From S2P Require Import Prelude Errors Scan Paths CfNames Sdi.

(** ** Decimal numbers: std::to_string and strtoull *)

Fixpoint digits (fuel : nat) (z : Z) (acc : bytes) : bytes :=
  match fuel with
  | O => acc
  | S fuel' => if z <? 10 then (48 + z) :: acc else digits fuel' (z / 10) ((48 + z mod 10) :: acc)
  end.

(** Twenty digits hold every 64-bit number. *)
Definition to_string (z : Z) : bytes := if z <? 0 then 45 :: digits 20 (- z) [] else digits 20 z [].

Definition isdigit (c : Z) : bool := (48 <=? c) && (c <=? 57).
Definition isspace (c : Z) : bool := (c =? 32) || ((9 <=? c) && (c <=? 13)).

Fixpoint skip_space (s : bytes) : bytes :=
  match s with c :: rest => if isspace c then skip_space rest else s | [] => [] end.

Fixpoint read_digits (acc : Z) (s : bytes) : Z :=
  match s with
  | c :: rest => if isdigit c then read_digits (acc * 10 + (c - 48)) rest else acc
  | [] => acc
  end.

Definition strtoull (s : bytes) : Z :=
  let s := skip_space s in
  let '(neg, s) := match s with
                   | c :: rest => if c =? 45 then (true, rest) else if c =? 43 then (false, rest) else (false, s)
                   | [] => (false, s)
                   end in
  let v := read_digits 0 s in
  if 2 ^ 64 <=? v then 2 ^ 64 - 1 else if neg then u64 (- v) else v.

(** ** Dictionary objects *)

Record dd_column := mk_col {
  col_name : bytes; col_type : Z; col_char_length : Z; col_is_nullable : bool; col_collation_id : Z }.

Notation properties := (gmap bytes bytes) (only parsing).

Record dd_table := mk_dd {
  dd_id : Z; dd_schema_id : Z; dd_name : bytes; dd_engine : bytes; dd_columns : list dd_column;
  dd_engine_attribute : option bytes; dd_se_private_data : properties }.

Definition set_private (t : dd_table) (p : properties) : dd_table :=
  mk_dd (dd_id t) (dd_schema_id t) (dd_name t) (dd_engine t) (dd_columns t) (dd_engine_attribute t) p.

(** [None] where a fetch fails or a pointer is null. *)
Record dd_schema := mk_schema { sch_name : bytes; sch_tables : option (list (option dd_table)) }.
Definition dictionary : Type := option (list (option dd_schema)).

Definition toupper (c : Z) : Z := if (97 <=? c) && (c <=? 122) then c - 32 else c.

Definition dd_engine_is_tidesdb (engine : bytes) : bool := bool_decide (toupper <$> engine = of_string "TIDESDB").

(** ** The reconciler *)

(** [std::set<std::string>]: its elements in order. *)
Fixpoint set_insert (k : bytes) (s : list bytes) : list bytes :=
  match s with
  | [] => [k]
  | k' :: rest =>
    match bytes_compare k k' with Lt => k :: s | Eq => s | Gt => k' :: set_insert k rest end
  end.

Record ReconcileDelta := mk_delta { orphan_cfs : list bytes; orphan_dd_tables : list bytes }.

Definition kReconcilerSkipPrefix : bytes := of_string "__".

Definition compute_delta_pure (expected_cfs actual_cfs : list bytes) : ReconcileDelta :=
  mk_delta
    (filter (fun a => has_prefix kReconcilerSkipPrefix a = false /\ a ∉ expected_cfs) actual_cfs)
    (filter (fun e => e ∉ actual_cfs) expected_cfs).

(** The names the dictionary gives for its TidesDB tables. *)
Definition expected_of (dc : option dictionary) : list bytes :=
  match dc with
  | Some (Some schemas) =>
    foldl (fun exp sch =>
      match sch with
      | Some sch =>
        match sch_tables sch with
        | Some tables =>
          foldl (fun exp t =>
            match t with
            | Some t => if dd_engine_is_tidesdb (dd_engine t)
                        then set_insert (sch_name sch ++ of_string "__" ++ dd_name t) exp else exp
            | None => exp
            end) exp tables
        | None => exp
        end
      | None => exp
      end) [] schemas
  | _ => []
  end.

Inductive OrphanAction := Drop | Quarantine | LogOnly.

Section Reconciler.
Context {E D : Type} `{CfEngine E D}.

Definition actual_of (engine : option E) : list bytes :=
  match engine with
  | Some e => match list_column_families e with Some names => foldl (fun s n => set_insert n s) [] names | None => [] end
  | None => []
  end.

Definition compute_delta (dc : option dictionary) (engine : option E) : ReconcileDelta :=
  compute_delta_pure (expected_of dc) (actual_of engine).

(** snprintf into a buffer of 256: at most 255 characters and the terminator. *)
Definition orphan_target (now : Z) (cf : bytes) : bytes :=
  take 255 (of_string "__orphan_" ++ to_string now ++ of_string "_" ++ take 200 cf).

(** One orphan; [now] is the clock at that moment. *)
Definition apply_orphan (action : OrphanAction) (now : Z) (st : bool * option E) (cf : bytes) : bool * option E :=
  let '(ok, engine) := st in
  match action, engine with
  | Drop, Some e =>
    let '(rc, e) := drop_column_family cf e in
    (if ok_rc rc then ok else false, Some e)
  | Quarantine, Some e =>
    let '(rc, e) := rename_column_family cf (orphan_target now cf) e in
    (if ok_rc rc then ok else false, Some e)
  | LogOnly, _ => (ok, engine)
  | _, None => (false, None)
  end.

Fixpoint apply_orphans (action : OrphanAction) (clock : nat -> Z) (i : nat) (cfs : list bytes) (st : bool * option E)
    : bool * option E :=
  match cfs with
  | [] => st
  | cf :: rest => apply_orphans action clock (S i) rest (apply_orphan action (clock i) st cf)
  end.

(** Orphan dictionary tables are only logged. *)
Definition apply_delta (action : OrphanAction) (clock : nat -> Z) (d : ReconcileDelta) (engine : option E)
    : bool * option E :=
  apply_orphans action clock 0 (orphan_cfs d) (true, engine).

End Reconciler.

(** ** The bridge *)

Definition hex_digit (d : Z) : Z := if d <? 10 then 48 + d else 97 + (d - 10).
Definition to_hex (digest : bytes) : bytes := digest ≫= (fun b => [hex_digit ((b .>> 4) .& 15); hex_digit (b .& 15)]).

(** The canonical form of one column: name, type, length, nullability, collation. *)
Definition column_bytes (c : dd_column) : bytes :=
  col_name c ++ [124; u8 (col_type c); 124] ++ le_split 8 (col_char_length c) ++
  [124; if col_is_nullable c then 1 else 0; 124] ++ le_split 8 (col_collation_id c) ++ [10].

Section Bridge.
Context (SHA_EVP256 : bytes -> bytes) (my_checksum : bytes -> Z) (json_canonical : bytes -> option bytes).
Context (raw_string : properties -> bytes) (insert_values : bytes -> option properties).

Definition compute_schema_fingerprint (t : dd_table) : bytes := to_hex (SHA_EVP256 (dd_columns t ≫= column_bytes)).

Definition compute_options_checksum (t : dd_table) : Z :=
  match dd_engine_attribute t with
  | None | Some [] => 0
  | Some attr => match json_canonical attr with Some canon => my_checksum canon | None => 0 end
  end.

Definition K (s : string) : bytes := of_string s.

Definition prepare_create (now : Z) (new_table_def : option dd_table) (cf_name : option bytes) : bool * option dd_table :=
  match new_table_def, cf_name with
  | Some t, Some cf =>
    let p := dd_se_private_data t in
    let p := <[K "cf_name" := cf]> p in
    let p := <[K "fingerprint" := compute_schema_fingerprint t]> p in
    let p := <[K "options_csum" := to_string (compute_options_checksum t)]> p in
    let p := <[K "atomic_ddl" := K "1"]> p in
    let p := <[K "created_at" := to_string now]> p in
    (true, Some (set_private t p))
  | _, _ => (false, new_table_def)
  end.

Definition SDI_TYPE_TABLE : Z := 1.

Definition prepare_drop (env : sdi_env) (table_def : option dd_table) (sdi : option (option (list (bytes * bytes))))
    : bool * option (option (list (bytes * bytes))) :=
  match table_def, sdi with
  | Some t, Some s => (true, Some (SdiStore_del env (mk_sdi_key SDI_TYPE_TABLE (u64 (dd_id t))) s).2)
  | _, _ => (true, sdi)
  end.

Definition validate_open (strict : bool) (table_def : option dd_table) (path_inferred_cf : option bytes) : bool :=
  match table_def, path_inferred_cf with
  | Some t, Some cf =>
    if negb strict then true
    else
      let p := dd_se_private_data t in
      match p !! K "cf_name", p !! K "atomic_ddl" with
      | Some persisted_cf, Some _ => bool_decide (persisted_cf = cf)
      | _, _ => false
      end
  | _, _ => true
  end.

(** The new definition first, then the old one. *)
Definition read_key (old_def : option dd_table) (new_def : dd_table) (k : bytes) : option bytes :=
  match dd_se_private_data new_def !! k with
  | Some v => Some v
  | None => old_def ≫= (fun t => dd_se_private_data t !! k)
  end.

Definition recompute_se_private_data (now : Z) (old_def : option dd_table) (new_def : dd_table) : bool * bytes :=
  let tmp : properties := ∅ in
  let tmp := <[K "cf_name" := default [] (read_key old_def new_def (K "cf_name"))]> tmp in
  let tmp := <[K "fingerprint" := compute_schema_fingerprint new_def]> tmp in
  let tmp := <[K "options_csum" := to_string (compute_options_checksum new_def)]> tmp in
  let tmp := <[K "atomic_ddl" := K "1"]> tmp in
  let created := default [] (read_key old_def new_def (K "created_at")) in
  let created := match created with [] => to_string now | _ => created end in
  let tmp := <[K "created_at" := created]> tmp in
  let schema_version := match read_key old_def new_def (K "schema_version") with Some sv => strtoull sv | None => 0 end in
  let tmp := <[K "schema_version" := to_string (u64 (schema_version + 1))]> tmp in
  (true, raw_string tmp).

(** rename_table, the dictionary part (ha_tidesdb.cc 9499-9510). *)
Definition rename_binding (to_table_def : option dd_table) (new_cf : bytes) : option dd_table :=
  match to_table_def with
  | None => None
  | Some t =>
    let p := <[K "cf_name" := new_cf]> (dd_se_private_data t) in
    Some (set_private t (match p !! K "atomic_ddl" with Some _ => p | None => <[K "atomic_ddl" := K "1"]> p end))
  end.

(** commit_inplace_alter_table, the dictionary part (tidesdb_inplace_alter.cc 910-934):
    the result is true on failure. *)
Definition stamp_private_data (new_table_def : option dd_table) (serialized : bytes) : bool * option dd_table :=
  match new_table_def, serialized with
  | None, _ | _, [] => (false, new_table_def)
  | Some t, _ =>
    let t := set_private t ∅ in
    match insert_values serialized with
    | Some p => (false, Some (set_private t p))
    | None => (true, Some t)
    end
  end.

(** ** The dictionary record of a table over its life *)

(** RENAME gives the new path; an in-place ALTER gives the new definition the server
    builds, whose private data is empty or carried over. *)
Inductive dd_op :=
| OpRename (to_path : bytes)
| OpAlter (now : Z) (columns : list dd_column) (attr : option bytes) (carried : bool).

(** The path of the table and its dictionary record; [None] when the statement fails. *)
Definition dd_step (o : dd_op) (st : bytes * dd_table) : option (bytes * dd_table) :=
  let '(path, t) := st in
  match o with
  | OpRename to_path => t' ← rename_binding (Some t) (path_to_cf_name to_path); Some (to_path, t')
  | OpAlter now columns attr carried =>
    let new_def := mk_dd (dd_id t) (dd_schema_id t) (dd_name t) (dd_engine t) columns attr
                     (if carried then dd_se_private_data t else ∅) in
    let '(_, serialized) := recompute_se_private_data now (Some t) new_def in
    match stamp_private_data (Some new_def) serialized with
    | (false, Some t') => Some (path, t')
    | _ => None
    end
  end.

Fixpoint dd_run (os : list dd_op) (st : bytes * dd_table) : option (bytes * dd_table) :=
  match os with
  | [] => Some st
  | o :: os => st ← dd_step o st; dd_run os st
  end.

End Bridge.

(** ** Decimal numbers *)

Lemma read_digits_app acc ds rest :
  Forall (fun c => isdigit c = true) ds ->
  read_digits acc (ds ++ rest) = read_digits (read_digits acc ds) rest.
Proof.
  intros H. revert acc. induction H as [|c ds Hc _ IH]; intros acc; [done|]. cbn [app read_digits].
  rewrite Hc. apply IH.
Qed.

Lemma isdigit_mod z : isdigit (48 + z mod 10) = true.
Proof. pose proof (Z.mod_pos_bound z 10). unfold isdigit. lia. Qed.

Lemma digits_acc fuel z acc : digits fuel z acc = digits fuel z [] ++ acc.
Proof.
  revert z acc. induction fuel as [|fuel IH]; intros z acc; [done|]. cbn [digits].
  destruct (z <? 10); [done|]. rewrite IH, (IH _ [_]), <- app_assoc. done.
Qed.

Lemma digits_ok fuel z : 0 <= z -> Forall (fun c => isdigit c = true) (digits fuel z []).
Proof.
  revert z. induction fuel as [|fuel IH]; intros z Hz; [constructor|]. cbn [digits].
  destruct (Z.ltb_spec z 10).
  - repeat constructor. unfold isdigit. lia.
  - rewrite digits_acc. apply Forall_app. split; [apply IH, Z.div_pos; lia|]. repeat constructor. apply isdigit_mod.
Qed.

Lemma digits_length fuel z : (length (digits fuel z []) <= fuel)%nat.
Proof.
  revert z. induction fuel as [|fuel IH]; intros z; [done|]. cbn [digits].
  destruct (z <? 10); cbn; [lia|]. rewrite digits_acc, length_app. cbn. specialize (IH (z / 10)). lia.
Qed.

Lemma read_digits_digits fuel z : 0 <= z < 10 ^ Z.of_nat fuel -> read_digits 0 (digits fuel z []) = z.
Proof.
  revert z. induction fuel as [|fuel IH]; intros z Hz; [cbn in *; lia|]. cbn [digits].
  rewrite Nat2Z.inj_succ, Z.pow_succ_r in Hz by lia.
  destruct (Z.ltb_spec z 10) as [Hlt|Hge].
  - cbn [read_digits]. replace (isdigit (48 + z)) with true by (symmetry; unfold isdigit; lia). cbn. lia.
  - assert (0 <= z / 10 < 10 ^ Z.of_nat fuel) by (split; [apply Z.div_pos | apply Z.div_lt_upper_bound]; lia).
    rewrite digits_acc, read_digits_app, IH by (try apply digits_ok; lia). cbn [read_digits].
    rewrite isdigit_mod. pose proof (Z.div_mod z 10). lia.
Qed.

Lemma to_string_digits z : 0 <= z -> Forall (fun c => isdigit c = true) (to_string z).
Proof. intros Hz. unfold to_string. destruct (Z.ltb_spec z 0); [lia|]. by apply digits_ok. Qed.

Lemma digits_nonempty fuel z acc : digits (S fuel) z acc <> [].
Proof.
  revert z acc. induction fuel as [|fuel IH]; intros z acc; cbn [digits]; destruct (z <? 10); try done.
  apply IH.
Qed.

Lemma to_string_nonempty z : to_string z <> [].
Proof. unfold to_string. destruct (z <? 0); [done|]. apply digits_nonempty. Qed.

Lemma strtoull_to_string z : fits_u64 z -> strtoull (to_string z) = z.
Proof.
  intros Hz. unfold fits_u64 in Hz. pose proof (to_string_digits z (proj1 Hz)) as Hd.
  unfold strtoull. destruct (to_string z) as [|c s] eqn:Es; [by destruct (to_string_nonempty z)|].
  apply List.Forall_cons_iff in Hd as [Hc Hs]. unfold isdigit in Hc.
  assert (Hsp : isspace c = false) by (unfold isspace; lia). cbn [skip_space]. rewrite Hsp.
  destruct (Z.eqb_spec c 45), (Z.eqb_spec c 43); try lia. rewrite <- Es.
  unfold to_string. destruct (Z.ltb_spec z 0); [lia|].
  rewrite read_digits_digits by (cbn; lia). destruct (Z.leb_spec (2 ^ 64) z); lia.
Qed.

(** The decimal before the separator is determined. *)
Lemma to_string_sep_inj a b s t :
  0 <= a -> 0 <= b -> to_string a ++ 95 :: s = to_string b ++ 95 :: t -> to_string a = to_string b /\ s = t.
Proof.
  intros Ha Hb. pose proof (to_string_digits a Ha) as Da. pose proof (to_string_digits b Hb) as Db.
  revert Da Db. generalize (to_string a) (to_string b). clear.
  intros x. induction x as [|c x IH]; intros [|d y] Da Db E; cbn in E.
  - by injection E.
  - injection E as <- _. apply List.Forall_cons_iff in Db as [Hd _]. discriminate Hd.
  - injection E as -> _. apply List.Forall_cons_iff in Da as [Hd _]. discriminate Hd.
  - injection E as <- E. apply List.Forall_cons_iff in Da as [_ Da], Db as [_ Db].
    destruct (IH y Da Db E) as [-> ->]. done.
Qed.

(** ** Ordered sets *)

Lemma set_insert_elem k s n : n ∈ set_insert k s <-> n = k \/ n ∈ s.
Proof.
  induction s as [|k' s IH]; cbn [set_insert].
  - rewrite list_elem_of_singleton. split; [tauto|]. intros [|?%not_elem_of_nil]; done.
  - destruct (bytes_compare k k') eqn:Hc; rewrite !elem_of_cons.
    + apply bytes_compare_eq in Hc as <-. tauto.
    + tauto.
    + rewrite IH. tauto.
Qed.

Lemma set_insert_sorted k s : sorted_cf id s -> sorted_cf id (set_insert k s).
Proof.
  induction s as [|k' s IH]; intros Hs; [repeat constructor|].
  pose proof (StronglySorted_inv Hs) as [Hs' Hall]. cbn [set_insert]. destruct (bytes_compare k k') eqn:Hc; [done| |].
  - constructor; [done|]. constructor; [done|]. eapply List.Forall_impl; [|exact Hall]. intros e He.
    by eapply bytes_lt_trans.
  - constructor; [by apply IH|]. apply List.Forall_forall. intros e He%list_elem_of_In.
    apply set_insert_elem in He as [->|He].
    + cbn. unfold bytes_lt. by rewrite bytes_compare_antisym, Hc.
    + rewrite List.Forall_forall in Hall. by apply Hall, list_elem_of_In.
Qed.

Lemma sorted_NoDup (s : list bytes) : sorted_cf id s -> NoDup s.
Proof.
  induction 1 as [|k s Hs IH Hall]; constructor; [|done]. intros Hk%list_elem_of_In.
  rewrite List.Forall_forall in Hall. specialize (Hall k Hk). unfold bytes_lt in Hall.
  cbn in Hall. by rewrite (proj2 (bytes_compare_eq k k)) in Hall.
Qed.

Lemma foldl_set_insert ns s :
  sorted_cf id s ->
  sorted_cf id (foldl (fun s n => set_insert n s) s ns) /\
  forall n, n ∈ foldl (fun s n => set_insert n s) s ns <-> n ∈ s \/ n ∈ ns.
Proof.
  revert s. induction ns as [|k ns IH]; intros s Hs; cbn [foldl].
  - split; [done|]. intros n. split; [tauto|]. intros [|?%not_elem_of_nil]; done.
  - destruct (IH (set_insert k s)) as [H1 H2]; [by apply set_insert_sorted|]. split; [done|].
    intros n. rewrite H2, set_insert_elem, elem_of_cons. tauto.
Qed.

(** ** The tables of the dictionary *)

(** A TidesDB table [t] of schema [db]. *)
Definition live_table (dc : option dictionary) (db t : bytes) : Prop :=
  exists schemas sch tables tbl, dc = Some (Some schemas) /\ Some sch ∈ schemas /\ sch_tables sch = Some tables /\
    Some tbl ∈ tables /\ dd_engine_is_tidesdb (dd_engine tbl) = true /\ sch_name sch = db /\ dd_name tbl = t.

(** A name whose file name is itself: letters, digits and underscores. *)
Definition plain_name (n : bytes) : Prop :=
  Forall (fun c : Z => 48 <= c <= 57 \/ 65 <= c <= 90 \/ c = 95 \/ 97 <= c <= 122) n.

Lemma plain_path db t : plain_name db -> plain_name t -> path_to_cf_name (rel_path db t) = db ++ of_string "__" ++ t.
Proof.
  intros Hd Ht. assert (Hn : forall n, plain_name n -> no_slash n) by (intros n; apply List.Forall_impl; lia).
  destruct (split_paths [] db t (Hn _ Hd) (Hn _ Ht)) as [E1 _]. unfold path_to_cf_name. rewrite E1.
  assert (Hm : forall n, plain_name n -> mark <$> n = n).
  { intros n Hp. rewrite <- (list_fmap_id n) at 2. apply Forall_fmap_ext_1. revert Hp. apply List.Forall_impl. intros c Hc. unfold mark.
    destruct (Z.eqb_spec c MARIADB_TEMP_NAME_MARKER) as [->|]; [|done]. unfold MARIADB_TEMP_NAME_MARKER in Hc. lia. }
  rewrite !fmap_app, (Hm db Hd), (Hm t Ht). done.
Qed.

Lemma foldl_elem {A} (f : list bytes -> A -> list bytes) (P : A -> bytes -> Prop) (l : list A) s n :
  (forall s a, n ∈ f s a <-> n ∈ s \/ P a n) -> n ∈ foldl f s l <-> n ∈ s \/ exists a, a ∈ l /\ P a n.
Proof.
  intros Hf. revert s. induction l as [|a l IH]; intros s; cbn [foldl]; [set_solver|]. rewrite IH, Hf. set_solver.
Qed.

Lemma expected_of_elem dc n : n ∈ expected_of dc <-> exists db t, live_table dc db t /\ n = db ++ of_string "__" ++ t.
Proof.
  unfold live_table. destruct dc as [[schemas|]|]; cbn [expected_of];
    [|split; [by intros ?%not_elem_of_nil|intros (db & t & (? & ? & ? & ? & ? & _) & _); done]..].
  rewrite (foldl_elem _ (fun sch n => exists s tables t, sch = Some s /\ sch_tables s = Some tables /\ Some t ∈ tables /\
    dd_engine_is_tidesdb (dd_engine t) = true /\ n = sch_name s ++ of_string "__" ++ dd_name t)).
  { rewrite elem_of_nil. naive_solver. }
  intros exp [s|]; [|naive_solver]. destruct (sch_tables s) as [tables|] eqn:Et; [|naive_solver].
  rewrite (foldl_elem _ (fun t n => exists tbl, t = Some tbl /\ dd_engine_is_tidesdb (dd_engine tbl) = true /\
    n = sch_name s ++ of_string "__" ++ dd_name tbl)).
  { split; (intros [?|Hr]; [by left|right]).
    - destruct Hr as (? & Hin & tbl & -> & He & ->). by exists s, tables, tbl.
    - destruct Hr as (s' & ts & t & [= <-] & Et' & Hin & He & ->). replace ts with tables in * by congruence.
      exists (Some t). split; [done|]. by exists t. }
  intros exp' [t|]; [|naive_solver]. destruct (dd_engine_is_tidesdb (dd_engine t)) eqn:Ee.
  - rewrite set_insert_elem. split; [intros [->|?]; [right; by exists t|by left]|]. intros [?|(? & [= <-] & _ & ->)]; [by right|by left].
  - split; [by left|]. intros [?|(? & [= <-] & ? & _)]; [done|congruence].
Qed.

(** ** What the reconciler does *)

Section ReconcilerProofs.
Context {E D : Type} `{CfLaws E D}.

Lemma actual_of_elem (e : E) names : list_column_families e = Some names ->
  sorted_cf id (actual_of (Some e)) /\ forall n, n ∈ actual_of (Some e) <-> is_Some (cf_map e !! n).
Proof.
  intros Hl. unfold actual_of. rewrite Hl.
  destruct (foldl_set_insert names [] ltac:(constructor)) as [H1 H2]. split; [done|].
  intros n. rewrite H2, (list_names e names n Hl). split; [|auto]. intros [?%not_elem_of_nil|]; done.
Qed.

Lemma orphan_cfs_elem dc (e : E) names n : list_column_families e = Some names ->
  n ∈ orphan_cfs (compute_delta dc (Some e)) <->
  is_Some (cf_map e !! n) /\ has_prefix kReconcilerSkipPrefix n = false /\ n ∉ expected_of dc.
Proof.
  intros Hl. cbn [orphan_cfs compute_delta compute_delta_pure].
  rewrite list_elem_of_filter, (proj2 (actual_of_elem e names Hl) n). tauto.
Qed.

Lemma orphan_cfs_NoDup dc (e : E) names : list_column_families e = Some names ->
  NoDup (orphan_cfs (compute_delta dc (Some e))).
Proof.
  intros Hl. apply NoDup_filter, sorted_NoDup, (actual_of_elem e names Hl).
Qed.

(** The quarantine name: no truncation, reserved prefix, and it determines the orphan. *)
Lemma orphan_target_eq now cf :
  0 <= now -> orphan_target now cf = of_string "__orphan_" ++ to_string now ++ 95 :: take 200 cf.
Proof.
  intros Hn. unfold orphan_target. apply take_ge. change (of_string "_") with [95].
  rewrite !length_app. unfold to_string. destruct (Z.ltb_spec now 0); [lia|].
  pose proof (digits_length 20 now). cbn [length of_string]. rewrite length_take.
  change (length (of_string "__orphan_")) with 9%nat. lia.
Qed.

Lemma orphan_target_skipped now cf : 0 <= now -> has_prefix kReconcilerSkipPrefix (orphan_target now cf) = true.
Proof.
  intros Hn. rewrite orphan_target_eq by done. apply has_prefix_iff.
  exists (of_string "orphan_" ++ to_string now ++ 95 :: take 200 cf). rewrite app_assoc. done.
Qed.

Lemma orphan_target_inj t1 t2 a b :
  0 <= t1 -> 0 <= t2 -> (length a <= 200)%nat -> (length b <= 200)%nat ->
  orphan_target t1 a = orphan_target t2 b -> a = b.
Proof.
  intros H1 H2 Ha Hb. rewrite !orphan_target_eq by done. intros Et%app_inv_head.
  apply to_string_sep_inj in Et as [_ Et]; try done. by rewrite !take_ge in Et.
Qed.

Lemma apply_orphans_false action clock i cfs (st : option E) : (apply_orphans action clock i cfs (false, st)).1 = false.
Proof.
  revert i st. induction cfs as [|cf cfs IH]; intros i st; [done|]. cbn [apply_orphans apply_orphan].
  destruct action, st as [e|]; try apply IH.
  - destruct (drop_column_family cf e) as [rc e']. destruct (ok_rc rc); apply IH.
  - destruct (rename_column_family cf _ e) as [rc e']. destruct (ok_rc rc); apply IH.
Qed.

Lemma quarantine_loop clock cfs i (e e' : E) :
  (forall j, 0 <= clock j) -> NoDup cfs ->
  Forall (fun n => (length n <= 200)%nat /\ has_prefix kReconcilerSkipPrefix n = false) cfs ->
  (forall n j, n ∈ cfs -> cf_map e !! orphan_target (clock j) n = None) ->
  apply_orphans Quarantine clock i cfs (true, Some e) = (true, Some e') ->
  (forall n, n ∉ cfs -> (forall j cf, cfs !! j = Some cf -> n <> orphan_target (clock (i + j)%nat) cf) ->
     cf_map e' !! n = cf_map e !! n) /\
  (forall j cf, cfs !! j = Some cf ->
     cf_map e' !! cf = None /\ cf_map e' !! orphan_target (clock (i + j)%nat) cf = cf_map e !! cf).
Proof.
  intros Hclock. revert i e. induction cfs as [|cf cfs IH]; intros i e Hnd Hok Hfree Hrun.
  { cbn in Hrun. injection Hrun as <-. split; [done|]. intros j cf Hj. by rewrite lookup_nil in Hj. }
  apply NoDup_cons in Hnd as [Hnin Hnd]. apply List.Forall_cons_iff in Hok as [[Hlen Hskip] Hok].
  cbn [apply_orphans apply_orphan] in Hrun. set (tgt := orphan_target (clock i) cf) in *.
  assert (Hne : cf <> tgt).
  { intros E1. unfold tgt in E1. rewrite E1, orphan_target_skipped in Hskip by done. done. }
  pose proof (rename_done cf tgt e Hne (Hfree cf i ltac:(left))) as Hren.
  destruct (rename_column_family cf tgt e) as [rc e1]. cbn in Hren.
  destruct (ok_rc rc) eqn:Hrc.
  2:{ apply (f_equal fst) in Hrun. rewrite apply_orphans_false in Hrun. discriminate Hrun. }
  specialize (Hren ltac:(unfold ok_rc in Hrc; unfold done_rc; by rewrite Hrc)).
  assert (H1 : forall n, n <> cf -> n <> tgt -> cf_map e1 !! n = cf_map e !! n).
  { intros n Hn Ht. rewrite Hren. destruct (cf_map e !! cf); [|done].
    by rewrite lookup_insert_ne, lookup_delete_ne by congruence. }
  assert (H2 : cf_map e1 !! cf = None).
  { rewrite Hren. destruct (cf_map e !! cf) eqn:Hc; [|done]. by rewrite lookup_insert_ne, lookup_delete_eq by congruence. }
  assert (H3 : cf_map e1 !! tgt = cf_map e !! cf).
  { rewrite Hren. destruct (cf_map e !! cf) eqn:Hc; [by rewrite lookup_insert_eq | by apply Hfree; left]. }
  rewrite List.Forall_forall in Hok.
  assert (Htgt : forall n j, n ∈ cfs -> orphan_target (clock j) n <> tgt).
  { intros n j Hn Et. destruct (Hok n (proj1 (list_elem_of_In _ _) Hn)) as [Hl _].
    apply orphan_target_inj in Et; [congruence|auto..]. }
  destruct (IH (S i) e1) as [Hother Hmoved]; [done | by apply List.Forall_forall | | done |].
  { intros n j Hn. rewrite H1; [apply Hfree; by right | | by apply Htgt].
    intros E1. destruct (Hok n (proj1 (list_elem_of_In _ _) Hn)) as [_ Hp].
    rewrite <- E1, orphan_target_skipped in Hskip by done. done. }
  assert (Hcf : forall j c, cfs !! j = Some c -> cf <> orphan_target (clock (S i + j)%nat) c).
  { intros j c Hj E1. rewrite E1, orphan_target_skipped in Hskip by done. done. }
  split.
  - intros n Hn Hnt. rewrite Hother.
    + apply H1; [set_solver|]. intros ->. apply (Hnt 0%nat cf eq_refl). by rewrite Nat.add_0_r.
    + set_solver.
    + intros j c Hj. rewrite Nat.add_succ_comm. by apply (Hnt (S j) c).
  - intros [|j] c Hj; cbn in Hj.
    + injection Hj as <-. rewrite Nat.add_0_r. split; [by rewrite Hother, H2|].
      rewrite Hother; [done | |].
      * intros Hin. destruct (Hok tgt (proj1 (list_elem_of_In _ _) Hin)) as [_ Hp].
        unfold tgt in Hp. by rewrite orphan_target_skipped in Hp.
      * intros j c Hj E1. eapply Htgt; [eapply list_elem_of_lookup_2, Hj | symmetry; exact E1].
    + rewrite <- Nat.add_succ_comm. destruct (Hmoved j c Hj) as [Ha Hb]. split; [done|].
      rewrite Hb. apply list_elem_of_lookup_2 in Hj. apply H1; [congruence|]. intros ->.
      destruct (Hok tgt (proj1 (list_elem_of_In _ _) Hj)) as [_ Hp]. unfold tgt in Hp. by rewrite orphan_target_skipped in Hp.
Qed.

(** C32: a quarantine sweep that reports success.  A column family stays as it is when its
    name has the reserved prefix or is [<db>__<table>] for a TidesDB table of the
    dictionary, as is the data family of a table whose names need no encoding in a path.
    Every other family is moved, with its data, to a quarantine name: that is what becomes
    of the families of dropped tables, but also of the families of secondary indexes and
    of tables with encoded names ([index_cf_is_orphan], [encoded_name_is_orphan]).  The
    next sweep finds nothing to do.  The engine is the interface [CfLaws]; names are at
    most 200 bytes, which is what the quarantine name keeps, and the quarantine names are
    free. *)
Theorem quarantine_sweep (dc : option dictionary) (clock : nat -> Z) (e e' : E) (names : list bytes) :
  (forall j, 0 <= clock j) -> list_column_families e = Some names ->
  Forall (fun n => (length n <= 200)%nat) names ->
  (forall n j, n ∈ names -> cf_map e !! orphan_target (clock j) n = None) ->
  apply_delta Quarantine clock (compute_delta dc (Some e)) (Some e) = (true, Some e') ->
  (forall db t d, live_table dc db t -> plain_name db -> plain_name t ->
     cf_map e !! path_to_cf_name (rel_path db t) = Some d -> cf_map e' !! path_to_cf_name (rel_path db t) = Some d) /\
  (forall n d, cf_map e !! n = Some d ->
     if decide (has_prefix kReconcilerSkipPrefix n = true) then cf_map e' !! n = Some d
     else (exists db t, live_table dc db t /\ n = db ++ of_string "__" ++ t) /\ cf_map e' !! n = Some d \/
          (~ exists db t, live_table dc db t /\ n = db ++ of_string "__" ++ t) /\ cf_map e' !! n = None /\
            exists j, cf_map e' !! orphan_target (clock j) n = Some d) /\
  (forall names', list_column_families e' = Some names' -> orphan_cfs (compute_delta dc (Some e')) = []).
Proof.
  intros Hclock Hl Hlen Hfree Hrun. set (cfs := orphan_cfs (compute_delta dc (Some e))) in *.
  pose proof (fun n => orphan_cfs_elem dc e names n Hl) as Horph. fold cfs in Horph.
  assert (Hnames : forall n, n ∈ cfs -> n ∈ names) by (intros n [Hn _]%Horph; by apply (list_names e names n Hl)).
  rewrite List.Forall_forall in Hlen.
  destruct (quarantine_loop clock cfs 0 e e') as [Hother Hmoved]; [done | by apply (orphan_cfs_NoDup dc e names) | | auto | done |].
  { apply List.Forall_forall. intros n Hn%list_elem_of_In. split; [by apply Hlen, list_elem_of_In, Hnames | by apply Horph]. }
  assert (Hkeep : forall n, is_Some (cf_map e !! n) -> n ∉ cfs -> cf_map e' !! n = cf_map e !! n).
  { intros n Hn Hnc. apply Hother; [done|]. intros j cf Hj ->. apply list_elem_of_lookup_2, Hnames in Hj.
    rewrite (Hfree cf _ Hj) in Hn. by destruct Hn. }
  split_and!.
  - intros db t d Hlive Hd Ht. rewrite plain_path by done. intros Hn. rewrite Hkeep; [done|by eexists|].
    intros (_ & _ & He)%Horph. apply He, expected_of_elem. by exists db, t.
  - intros n d Hn. destruct (decide (n ∈ cfs)) as [Hin|Hnin].
    + pose proof Hin as (_ & Hp & He)%Horph. rewrite decide_False by congruence. right. split; [by rewrite <- expected_of_elem|].
      apply list_elem_of_lookup_1 in Hin as [j Hj]. destruct (Hmoved j n Hj) as [Hm0 Hm]. split; [done|]. exists j. by rewrite <- Hn.
    + rewrite (Hkeep n) by (done || by eexists). destruct (decide (has_prefix kReconcilerSkipPrefix n = true)) as [Hp|Hp]; [done|].
      left. split; [|done]. apply not_true_is_false in Hp. apply expected_of_elem. destruct (decide (n ∈ expected_of dc)) as [|Hne]; [done|].
      destruct Hnin. apply Horph. split; [by eexists|done].
  - intros names' Hl'. destruct (orphan_cfs (compute_delta dc (Some e'))) as [|n rest] eqn:Eo; [done|]. exfalso.
    assert (Hn : n ∈ orphan_cfs (compute_delta dc (Some e'))) by (rewrite Eo; left).
    apply (orphan_cfs_elem dc e' names' n Hl') in Hn as (Hn & Hp & He).
    destruct (decide (n ∈ cfs)) as [Hin|Hnin].
    + apply list_elem_of_lookup_1 in Hin as [j Hj]. destruct (Hmoved j n Hj) as [Hm _]. rewrite Hm in Hn. by destruct Hn.
    + apply Hnin, Horph. split; [|done]. rewrite <- (Hother n Hnin); [done|].
      intros j cf Hj ->. by rewrite orphan_target_skipped in Hp.
Qed.

End ReconcilerProofs.

(** ** The binding of a table *)

Section BridgeProofs.
Context (SHA_EVP256 : bytes -> bytes) (my_checksum : bytes -> Z) (json_canonical : bytes -> option bytes).
Context (raw_string : gmap bytes bytes -> bytes) (insert_values : bytes -> option (gmap bytes bytes)).
Hypothesis raw_nonempty : forall p, p <> ∅ -> raw_string p <> [].
Hypothesis raw_roundtrip : forall p, insert_values (raw_string p) = Some p.

(** What the record of a table holds between statements; [n] ALTERs have been made. *)
Definition bound (created : bytes) (n : Z) (st : bytes * dd_table) : Prop :=
  let p := dd_se_private_data st.2 in
  p !! K "cf_name" = Some (path_to_cf_name st.1) /\ p !! K "atomic_ddl" = Some (K "1") /\
  p !! K "created_at" = Some created /\
  p !! K "schema_version" = (if n =? 0 then None else Some (to_string n)).

Definition is_alter (o : dd_op) : Z := match o with OpAlter _ _ _ _ => 1 | OpRename _ => 0 end.

Ltac lookups := repeat first [rewrite lookup_insert_eq | rewrite lookup_insert_ne by (vm_compute; discriminate)].

Lemma dd_step_bound created n o st :
  created <> [] -> 0 <= n < 2 ^ 64 - 1 -> bound created n st ->
  exists st', dd_step SHA_EVP256 my_checksum json_canonical raw_string insert_values o st = Some st' /\
    bound created (n + is_alter o) st'.
Proof.
  intros Hc Hn (B1 & B2 & B3 & B4). destruct st as [path t]. cbn [fst snd] in *. destruct o as [to_path|now cols attr carried].
  - eexists. split; [reflexivity|]. unfold bound. cbn [fst snd set_private dd_se_private_data].
    rewrite lookup_insert_ne, B2 by (vm_compute; discriminate). cbn [is_alter]. rewrite Z.add_0_r.
    split_and!; lookups; auto.
  - cbn [dd_step recompute_se_private_data stamp_private_data].
    set (new_def := mk_dd _ _ _ _ cols attr _).
    assert (Hrk : forall k v, dd_se_private_data t !! k = v -> read_key (Some t) new_def k = v).
    { intros k v <-. unfold read_key, new_def. cbn [dd_se_private_data]. destruct carried; [|by rewrite lookup_empty].
      cbn. by destruct (dd_se_private_data t !! k). }
    rewrite (Hrk _ _ B1), (Hrk _ _ B3), (Hrk _ _ B4). cbn [default].
    match goal with |- context [raw_string ?p] => pose proof (raw_nonempty p) as Hne; pose proof (raw_roundtrip p) as Hrt end.
    destruct (raw_string _) as [|c s] eqn:Er.
    { destruct Hne; [|done]. intros E. apply (f_equal (lookup (K "atomic_ddl"))) in E. revert E. lookups.
      by rewrite lookup_empty. }
    rewrite Hrt. eexists. split; [reflexivity|]. unfold bound. cbn [fst snd set_private dd_se_private_data is_alter].
    split_and!; lookups.
    + done.
    + done.
    + by destruct created.
    + destruct (Z.eqb_spec (n + 1) 0); [lia|]. destruct (Z.eqb_spec n 0) as [->|].
      * done.
      * rewrite strtoull_to_string by (unfold fits_u64; lia). rewrite u64_id by (unfold fits_u64; lia). done.
Qed.

(** C31: a table stays bound to its column family.  After CREATE and any sequence of
    RENAME and in-place ALTER statements the strict check of OPEN accepts the table
    under its current path, the creation time is the original one and the schema
    version counts the ALTERs.  The text form of dictionary properties reads back what
    was written. *)
Theorem binding_survives (now : Z) (t : dd_table) (path : bytes) (ops : list dd_op) :
  dd_se_private_data t = ∅ -> Z.of_nat (length ops) < 2 ^ 64 - 1 ->
  exists t0 path' t',
    prepare_create SHA_EVP256 my_checksum json_canonical now (Some t) (Some (path_to_cf_name path)) = (true, Some t0) /\
    dd_run SHA_EVP256 my_checksum json_canonical raw_string insert_values ops (path, t0) = Some (path', t') /\
    validate_open true (Some t') (Some (path_to_cf_name path')) = true /\
    bound (to_string now) (foldr (fun o n => is_alter o + n) 0 ops) (path', t').
Proof.
  intros Hp Hlen.
  assert (Hc : exists t0, prepare_create SHA_EVP256 my_checksum json_canonical now (Some t) (Some (path_to_cf_name path)) =
      (true, Some t0) /\ bound (to_string now) 0 (path, t0)).
  { eexists. split; [reflexivity|]. unfold bound. cbn [fst snd set_private dd_se_private_data]. rewrite Hp.
    split_and!; lookups; auto. }
  destruct Hc as (t0 & Hc & Hb0).
  assert (Hrun : forall ops st n, 0 <= n -> n + Z.of_nat (length ops) < 2 ^ 64 - 1 -> bound (to_string now) n st ->
    exists st', dd_run SHA_EVP256 my_checksum json_canonical raw_string insert_values ops st = Some st' /\
      bound (to_string now) (n + foldr (fun o n => is_alter o + n) 0 ops) st').
  { clear Hp Hlen ops. intros ops. induction ops as [|o ops IH]; intros st n Hn Hlen Hb.
    - exists st. cbn [foldr]. by rewrite Z.add_0_r.
    - cbn [length] in Hlen. destruct (dd_step_bound _ n o st (to_string_nonempty now) ltac:(lia) Hb) as (st1 & H1 & Hb1).
      assert (0 <= is_alter o <= 1) by (destruct o; cbn; lia).
      destruct (IH st1 (n + is_alter o) ltac:(lia) ltac:(lia) Hb1) as (st' & H2 & Hb2).
      exists st'. cbn [dd_run]. rewrite H1. cbn [mbind option_bind foldr]. split; [done|]. by rewrite Z.add_assoc. }
  destruct (Hrun ops (path, t0) 0) as ([path' t'] & H1 & Hb); [lia | lia | done |].
  exists t0, path', t'. split_and!; [done | done | | exact Hb].
  destruct Hb as (B1 & B2 & _). unfold validate_open. cbn [fst snd] in B1, B2. rewrite B1, B2. cbn.
  by apply bool_decide_eq_true.
Qed.

End BridgeProofs.

(** ** Witnesses and findings *)

(** A text form of properties that reads back. *)
Definition demo_raw (p : gmap bytes bytes) : bytes := [Z.pos (encode p)].
Definition demo_insert (s : bytes) : option (gmap bytes bytes) :=
  match s with [Z.pos q] => decode q | _ => None end.

Definition demo_table : dd_table := mk_dd 7 1 (of_string "t") (of_string "TidesDB") [] None ∅.

Lemma binding_survives_witness :
  exists t0 path' t',
    prepare_create id (fun _ => 0) (fun _ => None) 1700000000 (Some demo_table)
      (Some (path_to_cf_name (of_string "./db/t"))) = (true, Some t0) /\
    dd_run id (fun _ => 0) (fun _ => None) demo_raw demo_insert
      [OpAlter 1700000100 [] None false; OpRename (of_string "./db/u"); OpAlter 1700000200 [] None true]
      (of_string "./db/t", t0) = Some (path', t') /\
    validate_open true (Some t') (Some (path_to_cf_name path')) = true /\
    bound (to_string 1700000000) 2 (path', t').
Proof.
  apply (binding_survives id (fun _ => 0) (fun _ => None) demo_raw demo_insert).
  - discriminate.
  - intros p. apply decode_encode.
  - reflexivity.
  - reflexivity.
Defined.

Definition demo_dd : option dictionary :=
  Some (Some [Some (mk_schema (of_string "db") (Some [Some demo_table]))]).

(** A family left behind by a failed CREATE, beside the table and the dictionary store. *)
Definition demo_engine : gmap bytes nat :=
  list_to_map [(of_string "db__t", 1%nat); (of_string "db__gone", 2%nat); (kSdiCfName, 3%nat)].

Definition demo_swept : gmap bytes nat :=
  default ∅ (apply_delta Quarantine (fun _ => 1700000000) (compute_delta demo_dd (Some demo_engine)) (Some demo_engine)).2.

Definition demo_names : list bytes := (map_to_list demo_engine).*1.

Lemma demo_names_ok :
  forallb (fun n => Nat.leb (length n) 200 && bool_decide (demo_engine !! orphan_target 1700000000 n = None)) demo_names = true.
Proof. vm_compute. reflexivity. Qed.

Lemma demo_sweep_runs :
  apply_delta Quarantine (fun _ => 1700000000) (compute_delta demo_dd (Some demo_engine)) (Some demo_engine) =
  (true, Some demo_swept).
Proof. vm_compute. reflexivity. Qed.

Lemma quarantine_sweep_witness :
  cf_map (D := nat) demo_swept !! path_to_cf_name (rel_path (of_string "db") (of_string "t")) = Some 1%nat /\
  cf_map (D := nat) demo_swept !! kSdiCfName = Some 3%nat /\
  cf_map (D := nat) demo_swept !! of_string "db__gone" = None.
Proof.
  pose proof demo_names_ok as Hok. rewrite forallb_forall in Hok.
  destruct (quarantine_sweep (D := nat) demo_dd (fun _ => 1700000000) demo_engine demo_swept demo_names) as (Hlive & Hall & _).
  - intros; lia.
  - reflexivity.
  - apply List.Forall_forall. intros n Hn. specialize (Hok n Hn). apply andb_true_iff in Hok as [Hl _]. by apply Nat.leb_le.
  - intros n j Hn%list_elem_of_In. specialize (Hok n Hn). apply andb_true_iff in Hok as [_ Hf].
    by apply bool_decide_eq_true in Hf.
  - exact demo_sweep_runs.
  - split; [|split].
    + apply Hlive; [|apply List.Forall_forall; intros c Hc; vm_compute in Hc; naive_solver lia..|reflexivity].
      eexists _, _, _, _. split; [reflexivity|]. split; [left|]. split; [reflexivity|]. split; [left|]. done.
    + exact (Hall kSdiCfName 3%nat eq_refl).
    + destruct (Hall (of_string "db__gone") 2%nat eq_refl) as [[Hin _]|(_ & Hn & _)]; [|exact Hn].
      apply expected_of_elem, list_elem_of_In in Hin. vm_compute in Hin. destruct Hin as [Hin|[]]. discriminate Hin.
Defined.

(** The column family of a secondary index of a live table counts as an orphan. *)
Theorem index_cf_is_orphan :
  let e : gmap bytes nat := list_to_map [(of_string "db__t", 1%nat); (idx_cf_name (of_string "db__t") (of_string "k"), 2%nat)] in
  orphan_cfs (compute_delta demo_dd (Some e)) = [idx_cf_name (of_string "db__t") (of_string "k")].
Proof. vm_compute. reflexivity. Qed.

(** So does the column family of a table whose name the server encodes in its path. *)
Theorem encoded_name_is_orphan :
  let dd := Some (Some [Some (mk_schema (of_string "db")
              (Some [Some (mk_dd 7 1 (of_string "my-t") (of_string "TidesDB") [] None ∅)]))]) in
  let cf := path_to_cf_name (of_string "./db/my@002dt") in
  compute_delta dd (Some ({[cf := 1%nat]} : gmap bytes nat)) = mk_delta [cf] [of_string "db__my-t"].
Proof. vm_compute. reflexivity. Qed.
