(* ===== verification/InplaceAlter.v ===== *)
(** * In-place ALTER TABLE (tidesdb_inplace_alter.cc)

    The classification of an ALTER, and its three phases: [prepare_inplace_alter_table]
    creates the column families of the new indexes, [inplace_alter_table] fills them
    from the rows in batches, [commit_inplace_alter_table] drops the old families and
    rebuilds the share, or drops the new ones.  The engine is its column families by
    name, with those the open transaction sees and the codes its next calls return;
    the rows are the entries of the data family in key order, which the shared lock
    keeps as they are.  What a row contributes to an index is the codec of the row
    changes. *)

From Stdlib Require Import ZArith Lia Sorting.Sorted.
From stdpp Require Import base tactics list numbers gmap sets sorting.
From S2P Require Import Prelude Errors Scan KeyCodec RowCodec Fts CfNames Dml.

(** ** Classification *)

Inductive alter_flag :=
| ALTER_COLUMN_NAME | ALTER_COLUMN_DEFAULT | CHANGE_CREATE_OPTION | DROP_CHECK_CONSTRAINT
| ALTER_VIRTUAL_GCOL_EXPR | ALTER_RENAME | RENAME_INDEX | CHANGE_INDEX_OPTION | ADD_COLUMN | DROP_COLUMN
| ALTER_STORED_COLUMN_ORDER | ALTER_VIRTUAL_COLUMN_ORDER
| ADD_INDEX | DROP_INDEX | ADD_UNIQUE_INDEX | DROP_UNIQUE_INDEX | ADD_SPATIAL_INDEX
| ADD_PK_INDEX | DROP_PK_INDEX | OTHER_ALTER_FLAG.

#[export] Instance alter_flag_eq_dec : EqDecision alter_flag.
Proof. solve_decision. Defined.

Inductive enum_alter_inplace_result :=
| HA_ALTER_ERROR | HA_ALTER_INPLACE_NOT_SUPPORTED | HA_ALTER_INPLACE_SHARED_LOCK | HA_ALTER_INPLACE_INSTANT.

Definition TIDESDB_INSTANT : list alter_flag :=
  [ALTER_COLUMN_NAME; ALTER_COLUMN_DEFAULT; CHANGE_CREATE_OPTION; DROP_CHECK_CONSTRAINT; ALTER_VIRTUAL_GCOL_EXPR;
   ALTER_RENAME; RENAME_INDEX; CHANGE_INDEX_OPTION; ADD_COLUMN; DROP_COLUMN; ALTER_STORED_COLUMN_ORDER;
   ALTER_VIRTUAL_COLUMN_ORDER].

Definition TIDESDB_INPLACE_INDEX : list alter_flag :=
  [ADD_INDEX; DROP_INDEX; ADD_UNIQUE_INDEX; DROP_UNIQUE_INDEX; ADD_SPATIAL_INDEX].

Definition flag_in (l : list alter_flag) (f : alter_flag) : bool := bool_decide (f ∈ l).

(** The column loop: the names of the altered table against those of the table. *)
Fixpoint trailing_drop (altered old : list bytes) : bool :=
  match altered, old with
  | [], _ => true
  | a :: altered, o :: old => bool_decide (a = o) && trailing_drop altered old
  | _ :: _, [] => false
  end.

Definition check_if_supported_inplace_alter (legacy_ok : bool) (flags : list alter_flag) (old altered : list bytes)
    : enum_alter_inplace_result :=
  if negb legacy_ok then HA_ALTER_ERROR
  else if forallb (flag_in TIDESDB_INSTANT) flags then
    if flag_in flags DROP_COLUMN && negb (trailing_drop altered old) then HA_ALTER_INPLACE_NOT_SUPPORTED
    else HA_ALTER_INPLACE_INSTANT
  else if forallb (flag_in (TIDESDB_INSTANT ++ TIDESDB_INPLACE_INDEX)) flags then
    if flag_in flags ADD_PK_INDEX || flag_in flags DROP_PK_INDEX then HA_ALTER_INPLACE_NOT_SUPPORTED
    else HA_ALTER_INPLACE_SHARED_LOCK
  else HA_ALTER_INPLACE_NOT_SUPPORTED.

(** ** The engine *)

Notation cf := (gmap bytes (bytes * Z)).

Record alter := mk_alter {
  al_cfs : gmap bytes cf;     (* committed *)
  al_work : gmap bytes cf;    (* as the transaction sees them *)
  al_rcs : list tdb_rc        (* what the next calls return; success when empty *)
}.

Definition call (st : alter) : tdb_rc * alter :=
  match al_rcs st with [] => (TDB_SUCCESS, st) | rc :: r => (rc, mk_alter (al_cfs st) (al_work st) r) end.

Definition is_ok (rc : tdb_rc) : bool := bool_decide (rc = TDB_SUCCESS).

(** DDL acts at once. *)
Definition on_cfs (f : gmap bytes cf -> gmap bytes cf) (st : alter) : alter := mk_alter (f (al_cfs st)) (al_work st) (al_rcs st).

Definition drop_cf (name : bytes) (st : alter) : tdb_rc * alter :=
  let '(rc, st) := call st in (rc, if is_ok rc then on_cfs (delete name) st else st).

Definition create_cf (name : bytes) (st : alter) : tdb_rc * alter :=
  match al_cfs st !! name with
  | Some _ => (TDB_ERR_EXISTS, st)
  | None => let '(rc, st) := call st in (rc, if is_ok rc then on_cfs <[name := ∅]> st else st)
  end.

Definition begin_txn (st : alter) : tdb_rc * alter :=
  let '(rc, st) := call st in (rc, mk_alter (al_cfs st) (al_cfs st) (al_rcs st)).

(** A commit that fails is followed by a rollback. *)
Definition commit_txn (st : alter) : tdb_rc * alter :=
  let '(rc, st) := call st in
  (rc, if is_ok rc then mk_alter (al_work st) (al_work st) (al_rcs st) else mk_alter (al_cfs st) (al_cfs st) (al_rcs st)).

Definition rollback_txn (st : alter) : alter := mk_alter (al_cfs st) (al_cfs st) (al_rcs st).

Definition put_txn (name k v : bytes) (ttl : Z) (st : alter) : tdb_rc * alter :=
  let '(rc, st) := call st in
  (rc, if is_ok rc
       then mk_alter (al_cfs st) (<[name := <[k := (v, ttl)]> (default ∅ (al_work st !! name))]> (al_work st)) (al_rcs st)
       else st).

Definition get_txn (name k : bytes) (st : alter) : option bytes * alter :=
  let '(rc, st) := call st in
  (if is_ok rc then fst <$> default ∅ (al_work st !! name) !! k else None, st).

(** ** Prepare *)

(** An added index: its number in the altered table, name, shape, and whether it is the
    primary key. *)
Record add_index := mk_add { ad_num : nat; ad_name : bytes; ad_ix : index; ad_pk : bool }.

Record ha_tidesdb_inplace_ctx := mk_ctx { add_cfs : list (bytes * (nat * index)); drop_cf_names : list bytes }.

(** The error return is true; the context holds what was created. *)
Fixpoint prepare_adds (base_cf : bytes) (adds : list add_index) (ctx : list (bytes * (nat * index))) (st : alter)
    : bool * list (bytes * (nat * index)) * alter :=
  match adds with
  | [] => (false, ctx, st)
  | ad :: adds =>
    if ad_pk ad then prepare_adds base_cf adds ctx st
    else
      let idx_cf := idx_cf_name base_cf (ad_name ad) in
      let '(_, st) := drop_cf idx_cf st in
      let '(rc, st) := create_cf idx_cf st in
      if negb (is_ok rc) then (true, ctx, st)
      else match al_cfs st !! idx_cf with
           | None => (true, ctx, st)
           | Some _ => prepare_adds base_cf adds (ctx ++ [(idx_cf, (ad_num ad, ad_ix ad))]) st
           end
  end.

(** The families of removed indexes, by their numbers in the old table. *)
Definition dropped_names (idx_cf_names : list bytes) (drops : list nat) : list bytes :=
  List.filter (fun n => negb (bool_decide (n = []))) (omap (fun d => idx_cf_names !! d) drops).

(** [staged] is what [recompute_se_private_data] answers, [None] without a definition of
    the altered table. *)
Definition prepare_inplace_alter_table (base_cf : bytes) (idx_cf_names : list bytes) (adds : list add_index)
    (drops : list nat) (staged : option bool) (st : alter) : bool * ha_tidesdb_inplace_ctx * alter :=
  let '(err, ctx, st) := prepare_adds base_cf adds [] st in
  if (err : bool) then (true, mk_ctx ctx [], st)
  else
    let ctx := mk_ctx ctx (dropped_names idx_cf_names drops) in
    if bool_decide (staged = Some false) then (true, ctx, st) else (false, ctx, st).

(** ** Fill *)

Definition TIDESDB_INDEX_BUILD_BATCH : Z := 100.
Definition DATA_KEY_BUF_LEN : nat := 3074.

Inductive alter_error := ER_INTERNAL_ERROR | ER_DUP_ENTRY (key_num : nat) | ER_QUERY_INTERRUPTED.

Section Fill.

Context {Rec : Type} `{TableCodec Rec}.
(** [deserialize_row], and the key columns of an index as this file writes them. *)
Variable decode_row : bytes -> Rec.
Variable alter_prefix : nat -> Rec -> bytes.

Record fill := mk_fill {
  fl_engine : alter;
  fl_seen : gmap bytes (gset bytes);      (* prefixes seen, per unique index *)
  fl_acc : gmap bytes (Z * Z);            (* documents and words, per full-text index *)
  fl_rows : Z;
  fl_last : bytes
}.

Definition with_engine (f : alter -> alter) (st : fill) : fill :=
  mk_fill (f (fl_engine st)) (fl_seen st) (fl_acc st) (fl_rows st) (fl_last st).

(** A put whose failure is only logged. *)
Definition put_logged (name k v : bytes) (st : fill) : fill :=
  with_engine (fun e => (put_txn name k v TIDESDB_TTL_NONE e).2) st.

Definition index_row_one (rec : Rec) (pk : bytes) (e : bytes * (nat * index)) (st : fill) : alter_error * alter + fill :=
  let '(name, (key_num, ix)) := e in
  match ix_kind ix with
  | Fulltext =>
    let tokens := fts_tokens key_num rec in
    let word_count := Z.of_nat (length tokens) in
    let st := foldl (fun st t => put_logged name (fts_build_key t.1 pk) (fts_build_value t.2 word_count) st) st
                (map_to_list (tf_map tokens)) in
    let '(d, w) := default (0, 0) (fl_acc st !! name) in
    inr (mk_fill (fl_engine st) (fl_seen st) (<[name := (d + FTS_DOC_DELTA_ADD, w + word_count)]> (fl_acc st))
           (fl_rows st) (fl_last st))
  | Spatial => inr st
  | Regular =>
    let prefix := alter_prefix key_num rec in
    let seen := default ∅ (fl_seen st !! name) in
    if ix_unique ix && bool_decide (prefix ∈ seen) then inl (ER_DUP_ENTRY key_num, fl_engine st)
    else
      let st := if ix_unique ix
                then mk_fill (fl_engine st) (<[name := {[prefix]} ∪ seen]> (fl_seen st)) (fl_acc st) (fl_rows st) (fl_last st)
                else st in
      inr (put_logged name (prefix ++ pk) tdb_empty_val st)
  end.

Fixpoint index_row (rec : Rec) (pk : bytes) (adds : list (bytes * (nat * index))) (st : fill) : alter_error * alter + fill :=
  match adds with
  | [] => inr st
  | e :: adds => match index_row_one rec pk e st with inl err => inl err | inr st => index_row rec pk adds st end
  end.

(** The end of a batch: commit, a fresh handle and a fresh iterator.  The scan goes on
    ([inr (st, true)]) or stops early because the seek failed. *)
Definition end_batch (st : fill) : alter_error * alter + fill * bool :=
  let '(_, e) := commit_txn (fl_engine st) in
  let '(rrc, e) := begin_txn e in
  let '(rc, e) := if is_ok rrc then (TDB_SUCCESS, e) else begin_txn e in
  if negb (is_ok rc) then inl (ER_INTERNAL_ERROR, e)
  else
    let '(irc, e) := call e in
    if negb (is_ok irc) then inl (ER_INTERNAL_ERROR, e)
    else let '(src, e) := call e in inr (with_engine (fun _ => e) st, is_ok src).

(** [data] is the data family, [rest] what is ahead of the iterator.  [killed n] is what
    [thd_killed] answers after [n] rows.  An error comes with the engine after the
    rollback of the open transaction. *)
Fixpoint fill_loop (fuel : nat) (killed : Z -> bool) (adds : list (bytes * (nat * index)))
    (data rest : list (bytes * bytes)) (st : fill) : alter_error * alter + fill :=
  match fuel with
  | O => inr st
  | S fuel =>
    match rest with
    | [] => inr st
    | (k, v) :: rest =>
      let '(rc, e) := call (fl_engine st) in
      let st := with_engine (fun _ => e) st in
      if negb (is_ok rc) then fill_loop fuel killed adds data rest st
      else if negb (is_data_key k) then fill_loop fuel killed adds data rest st
      else
        let st := mk_fill (fl_engine st) (fl_seen st) (fl_acc st) (fl_rows st)
                    (if Nat.leb (length k) DATA_KEY_BUF_LEN then k else fl_last st) in
        match index_row (decode_row v) (drop 1 k) adds st with
        | inl (err, e) => inl (err, rollback_txn e)
        | inr st =>
          let st := mk_fill (fl_engine st) (fl_seen st) (fl_acc st) (fl_rows st + 1) (fl_last st) in
          if fl_rows st mod TIDESDB_INDEX_BUILD_BATCH =? 0 then
            if killed (fl_rows st) then inl (ER_QUERY_INTERRUPTED, rollback_txn (fl_engine st))
            else match end_batch st with
                 | inl err => inl err
                 | inr (st, false) => inr st
                 | inr (st, true) => fill_loop fuel killed adds data (drop 1 (seek fst (fl_last st) data)) st
                 end
          else fill_loop fuel killed adds data rest st
        end
    end
  end.

(** [fts_update_meta] in the transaction of the totals. *)
Definition flush_one (base_cf : bytes) (acc : gmap bytes (Z * Z)) (e : alter) (a : bytes * (nat * index)) : alter :=
  let '(d, w) := default (0, 0) (acc !! a.1) in
  if (d =? 0) && (w =? 0) then e
  else
    let '(stored, e) := get_txn base_cf (fts_meta_key a.2.1) e in
    (put_txn base_cf (fts_meta_key a.2.1) (fts_meta_value stored d w) TIDESDB_TTL_NONE e).2.

Definition flush_totals (base_cf : bytes) (adds : list (bytes * (nat * index))) (acc : gmap bytes (Z * Z)) (e : alter) : alter :=
  if forallb (fun a => let '(d, w) := default (0, 0) (acc !! a.1) in (d =? 0) && (w =? 0)) adds then e
  else
    let '(rc, e) := begin_txn e in
    if negb (is_ok rc) then e else (commit_txn (foldl (flush_one base_cf acc) e adds)).2.

Definition inplace_alter_table (base_cf : bytes) (killed : Z -> bool) (adds : list (bytes * (nat * index)))
    (data : list (bytes * bytes)) (e : alter) : option alter_error * alter :=
  match adds with
  | [] => (None, e)
  | _ =>
    let '(rc, e) := begin_txn e in
    if negb (is_ok rc) then (Some ER_INTERNAL_ERROR, e)
    else
      let '(irc, e) := call e in
      if negb (is_ok irc) then (Some ER_INTERNAL_ERROR, e)
      else
        match fill_loop (S (length data)) killed adds data data (mk_fill e ∅ ∅ 0 []) with
        | inl (err, e) => (Some err, e)
        | inr st =>
          let '(rc, e) := commit_txn (fl_engine st) in
          if negb (is_ok rc) then (Some ER_INTERNAL_ERROR, e) else (None, flush_totals base_cf adds (fl_acc st) e)
        end
  end.

End Fill.

(** ** Commit or roll back *)

(** The names and the presence of the families of the keys of the altered table. *)
Definition rebuild_idx (base_cf : bytes) (pk_index : option nat) (key_names : list bytes) (cfs : gmap bytes cf)
    : list (bytes * bool) :=
  imap (fun i name => if bool_decide (pk_index = Some i) then ([], false)
                      else let n := idx_cf_name base_cf name in (n, bool_decide (is_Some (cfs !! n)))) key_names.

Definition drop_all (names : list bytes) (st : alter) : alter := foldl (fun st n => (drop_cf n st).2) st names.

Definition commit_inplace_alter_table (commit : bool) (base_cf : bytes) (ctx : ha_tidesdb_inplace_ctx)
    (pk_index : option nat) (key_names : list bytes) (idx : list (bytes * bool)) (st : alter)
    : list (bytes * bool) * alter :=
  if negb commit then (idx, drop_all (add_cfs ctx).*1 st)
  else
    let st := drop_all (drop_cf_names ctx) st in
    (rebuild_idx base_cf pk_index key_names (al_cfs st), st).

(** ** Key columns as the fill writes them *)

Section AlterKey.
Variable make_sort_key : Field -> bytes -> Z -> bytes.

(** Lines 495-516: every type goes through [make_sort_key]. *)
Definition alter_put_part (kp : KEY_PART_INFO) (v : option bytes) (out : bytes) (pos : Z) : option (bytes * Z) :=
  let field := kp_field kp in
  match v with
  | None =>
    if is_nullable field then
      out ← put out pos [SORT_KEY_NULL];
      out ← bzero out (pos + 1) (kp_length kp);
      Some (out, pos + 1 + kp_length kp)
    else None
  | Some data =>
    '(out, pos) ← (if is_nullable field
                   then out ← put out pos [SORT_KEY_NOT_NULL]; Some (out, pos + 1)
                   else Some (out, pos));
    out ← bzero out pos (kp_length kp);
    out ← put out pos (make_sort_key field data (kp_length kp));
    Some (out, pos + kp_length kp)
  end.

Fixpoint alter_put_parts (kps : list KEY_PART_INFO) (rec : record) (out : bytes) (pos : Z) : option (bytes * Z) :=
  match kps with
  | [] => Some (out, pos)
  | kp :: rest => '(out, pos) ← alter_put_part kp (rec (fieldnr kp)) out pos; alter_put_parts rest rec out pos
  end.

End AlterKey.

(** ** The engine when no call fails *)

Lemma call_ok st : al_rcs st = [] -> call st = (TDB_SUCCESS, st).
Proof. unfold call. by intros ->. Qed.

Definition work_of (name : bytes) (st : alter) : cf := default ∅ (al_work st !! name).

Lemma put_txn_ok name k v ttl st : al_rcs st = [] ->
  let st' := (put_txn name k v ttl st).2 in
  al_rcs st' = [] /\ al_cfs st' = al_cfs st /\ work_of name st' = <[k := (v, ttl)]> (work_of name st) /\
  (forall n, n <> name -> al_work st' !! n = al_work st !! n).
Proof.
  intros Hr. unfold put_txn, work_of. rewrite call_ok by done. change (is_ok TDB_SUCCESS) with true. cbn.
  split_and!; try done.
  - by rewrite lookup_insert_eq.
  - intros n Hn. by rewrite lookup_insert_ne.
Qed.

Section FillProofs.

Context {Rec : Type} `{TableCodec Rec} `{!TableLaws Rec}.
Variable decode_row : bytes -> Rec.
Variable alter_prefix : nat -> Rec -> bytes.

Notation adds_t := (list (bytes * (nat * index))).

(** The fixed width of the key columns of an index. *)
Hypothesis alter_width : forall i r1 r2, length (alter_prefix i r1) = length (alter_prefix i r2).

(** What the fill writes for a row, without expiry: the key columns and the row's key for
    a regular index, the terms for a full-text one, nothing for a spatial one. *)
Definition fill_values (e : nat * index) (rec : Rec) (pk : bytes) : gmap bytes bytes :=
  match ix_kind e.2 with
  | Regular => {[alter_prefix e.1 rec ++ pk := tdb_empty_val]}
  | Fulltext => entries e rec pk
  | Spatial => ∅
  end.

Definition fill_entries (e : nat * index) (rec : Rec) (pk : bytes) : cf :=
  (fun v => (v, TIDESDB_TTL_NONE)) <$> fill_values e rec pk.

(** An index for whose rows the fill writes what the row changes write. *)
Definition same_writer (e : nat * index) : Prop :=
  ix_kind e.2 <> Spatial /\ (ix_kind e.2 = Regular -> forall rec, alter_prefix e.1 rec = idx_prefix e.1 rec).

Lemma same_values e rec pk : same_writer e -> fill_values e rec pk = entries e rec pk.
Proof.
  destruct e as [i ix]. unfold same_writer, fill_values, entries. cbn [fst snd]. intros [Hs Hp].
  destruct (ix_kind ix); [by rewrite Hp|done|done].
Qed.

Definition checks (ix : index) : bool := match ix_kind ix with Regular => ix_unique ix | _ => false end.

Lemma puts_logged name (l : list (bytes * bytes)) (st : fill) :
  al_rcs (fl_engine st) = [] -> NoDup l.*1 ->
  let st' := foldl (fun st t => put_logged name t.1 t.2 st) st l in
  al_rcs (fl_engine st') = [] /\ al_cfs (fl_engine st') = al_cfs (fl_engine st) /\
  work_of name (fl_engine st') = ((fun v => (v, TIDESDB_TTL_NONE)) <$> list_to_map l) ∪ work_of name (fl_engine st) /\
  (forall n, n <> name -> al_work (fl_engine st') !! n = al_work (fl_engine st) !! n) /\
  fl_seen st' = fl_seen st /\ fl_acc st' = fl_acc st /\ fl_rows st' = fl_rows st /\ fl_last st' = fl_last st.
Proof.
  revert st. induction l as [|[k v] l IH]; intros st Hr Hnd.
  { cbn. rewrite fmap_empty, (left_id_L ∅ _). done. }
  rewrite fmap_cons in Hnd. apply NoDup_cons in Hnd as [Hni Hnd]. cbn [foldl fst snd].
  destruct (put_txn_ok name k v TIDESDB_TTL_NONE (fl_engine st) Hr) as (P1 & P2 & P3 & P4).
  destruct (IH (put_logged name k v st) P1 Hnd) as (Q1 & Q2 & Q3 & Q4 & Q5).
  split_and!; try apply Q5; try done.
  - by rewrite Q2.
  - rewrite Q3. cbn [put_logged with_engine fl_engine]. rewrite P3. cbn [list_to_map foldr fst snd].
    rewrite fmap_insert, <- insert_union_l, <- insert_union_r; [done|].
    rewrite lookup_fmap, fmap_None. by apply not_elem_of_list_to_map_1.
  - intros n Hn. by rewrite Q4, P4.
Qed.

(** One row and one index. *)
Record indexed (name : bytes) (e : nat * index) (rec : Rec) (pk : bytes) (st st' : fill) : Prop := {
  ixd_rcs : al_rcs (fl_engine st') = [];
  ixd_cfs : al_cfs (fl_engine st') = al_cfs (fl_engine st);
  ixd_work : work_of name (fl_engine st') = fill_entries e rec pk ∪ work_of name (fl_engine st);
  ixd_other n : n <> name -> al_work (fl_engine st') !! n = al_work (fl_engine st) !! n;
  ixd_seen : default ∅ (fl_seen st' !! name) =
    (if checks e.2 then {[alter_prefix e.1 rec]} ∪ default ∅ (fl_seen st !! name) else default ∅ (fl_seen st !! name));
  ixd_seen_other n : n <> name -> fl_seen st' !! n = fl_seen st !! n;
  ixd_rows : fl_rows st' = fl_rows st /\ fl_last st' = fl_last st
}.

Lemma index_row_one_ok rec pk name e (st : fill) :
  al_rcs (fl_engine st) = [] ->
  match index_row_one alter_prefix rec pk (name, e) st with
  | inl (err, e') => err = ER_DUP_ENTRY e.1 /\ e' = fl_engine st /\ checks e.2 = true /\
                     alter_prefix e.1 rec ∈ default ∅ (fl_seen st !! name)
  | inr st' => indexed name e rec pk st st' /\
               (checks e.2 = true -> alter_prefix e.1 rec ∉ default ∅ (fl_seen st !! name))
  end.
Proof.
  intros Hr. destruct e as [kn ix]. unfold index_row_one, checks. cbn [fst snd] in *.
  destruct (ix_kind ix) eqn:Hk.
  - destruct (ix_unique ix && bool_decide _) eqn:Hd.
    + apply andb_true_iff in Hd as [Hu Hb%bool_decide_eq_true]. by rewrite Hu.
    + destruct (put_txn_ok name (alter_prefix kn rec ++ pk) tdb_empty_val TIDESDB_TTL_NONE (fl_engine st) Hr) as (P1 & P2 & P3 & P4).
      split.
      * destruct (ix_unique ix) eqn:Hu; (split; [done | done | | done | | | done]); cbn [put_logged with_engine fl_engine fl_seen].
        -- rewrite P3. unfold fill_entries, fill_values. cbn [fst snd]. by rewrite Hk, map_fmap_singleton, <- insert_union_singleton_l.
        -- unfold checks. cbn. rewrite Hk, Hu. by rewrite lookup_insert_eq.
        -- intros n Hn. by rewrite lookup_insert_ne.
        -- rewrite P3. unfold fill_entries, fill_values. cbn [fst snd]. by rewrite Hk, map_fmap_singleton, <- insert_union_singleton_l.
        -- unfold checks. cbn. by rewrite Hk, Hu.
        -- done.
      * intros Hu. rewrite Hu in Hd. cbn in Hd. by apply bool_decide_eq_false in Hd.
  - pose proof (puts_logged name ((fun t => (fts_build_key t.1 pk, fts_build_value t.2 (fts_wc kn rec))) <$> fts_terms kn rec) st Hr) as HP.
    rewrite <- list_fmap_compose in HP.
    specialize (HP ltac:(pose proof (fts_keys_nodup kn rec pk (fun _ => true)) as Hnd; rewrite filter_true_id in Hnd; exact Hnd)).
    cbv zeta in HP. rewrite foldl_fmap in HP. cbn [fst snd] in HP. unfold fts_terms, fts_wc in HP.
    set (st1 := foldl _ st _) in HP |- *. destruct HP as (Q1 & Q2 & Q3 & Q4 & Q5 & Q6 & Q7 & Q8).
    destruct (default (0, 0) (fl_acc st1 !! name)) as [d w]. split; [|done].
    split; cbn [fl_engine fl_seen fl_rows fl_last]; try done.
    + rewrite Q3. unfold fill_entries, fill_values, entries. cbn [fst snd]. by rewrite Hk.
    + rewrite Q5. unfold checks. cbn. by rewrite Hk.
    + intros n Hn. by rewrite Q5.
  - split; [|done]. split; try done; unfold fill_entries, fill_values, checks; cbn [fst snd]; rewrite Hk; [by rewrite fmap_empty, (left_id_L ∅ _) | done].
Qed.

(** One row and all indexes. *)
Lemma index_row_ok rec pk (l : adds_t) (st : fill) :
  al_rcs (fl_engine st) = [] -> NoDup l.*1 ->
  match index_row alter_prefix rec pk l st with
  | inl (err, _) => exists name e, (name, e) ∈ l /\ err = ER_DUP_ENTRY e.1 /\ checks e.2 = true /\
                      alter_prefix e.1 rec ∈ default ∅ (fl_seen st !! name)
  | inr st' =>
      al_rcs (fl_engine st') = [] /\ al_cfs (fl_engine st') = al_cfs (fl_engine st) /\
      (forall name e, (name, e) ∈ l ->
         work_of name (fl_engine st') = fill_entries e rec pk ∪ work_of name (fl_engine st) /\
         default ∅ (fl_seen st' !! name) =
           (if checks e.2 then {[alter_prefix e.1 rec]} ∪ default ∅ (fl_seen st !! name) else default ∅ (fl_seen st !! name)) /\
         (checks e.2 = true -> alter_prefix e.1 rec ∉ default ∅ (fl_seen st !! name))) /\
      (forall n, n ∉ l.*1 -> al_work (fl_engine st') !! n = al_work (fl_engine st) !! n /\ fl_seen st' !! n = fl_seen st !! n) /\
      fl_rows st' = fl_rows st /\ fl_last st' = fl_last st
  end.
Proof.
  revert st. induction l as [|[name e] l IH]; intros st Hr Hnd; cbn [index_row].
  { split_and!; try done. intros name e ?%not_elem_of_nil. done. }
  rewrite fmap_cons in Hnd. apply NoDup_cons in Hnd as [Hni Hnd]. cbn [fst] in Hni.
  pose proof (index_row_one_ok rec pk name e st Hr) as H1.
  destruct (index_row_one alter_prefix rec pk (name, e) st) as [[err e']|st1].
  { destruct H1 as (-> & _ & Hc & Hin). exists name, e. split; [left|done]. }
  destruct H1 as [[R1 R2 R3 R4 R5 R6 [R7 R8]] Hnew].
  assert (Hne : forall n e', (n, e') ∈ l -> n <> name).
  { intros n e' Hin ->. apply Hni, list_elem_of_fmap. by exists (name, e'). }
  specialize (IH st1 R1 Hnd).
  destruct (index_row alter_prefix rec pk l st1) as [[err e']|st'].
  { destruct IH as (n & e1 & Hin & -> & Hc & Hs). exists n, e1. rewrite R6 in Hs by eauto. split; [by right|done]. }
  destruct IH as (Q1 & Q2 & Q3 & Q4 & Q5 & Q6). split_and!; try congruence.
  - intros n e' [[= -> ->]|Hin]%elem_of_cons.
    + destruct (Q4 name Hni) as [Qw Qs]. unfold work_of in *. by rewrite Qw, Qs, R3, R5.
    + destruct (Q3 n e' Hin) as (S1 & S2 & S3). specialize (Hne n e' Hin). unfold work_of in *.
      rewrite R4 in S1 by done. rewrite R6 in S2, S3 by done. done.
  - intros n Hn. rewrite fmap_cons, not_elem_of_cons in Hn. destruct Hn as [Hn1 Hn2].
    destruct (Q4 n Hn2) as [-> ->]. by rewrite R4, R6.
Qed.

(** ** The loop *)

Definition rows_of (l : list (bytes * bytes)) : list (bytes * Rec) :=
  omap (fun e => if is_data_key e.1 then Some (drop 1 e.1, decode_row e.2) else None) l.

(** After the rows [ds]; [base] is the engine before the fill. *)
Record filled (adds : adds_t) (base : gmap bytes cf) (ds : list (bytes * Rec)) (st : fill) : Prop := {
  fd_rcs : al_rcs (fl_engine st) = [];
  fd_work name e : (name, e) ∈ adds -> forall k w,
    work_of name (fl_engine st) !! k = Some w <-> exists pk rec, (pk, rec) ∈ ds /\ fill_entries e rec pk !! k = Some w;
  fd_seen name e : (name, e) ∈ adds -> checks e.2 = true -> forall p,
    p ∈ default ∅ (fl_seen st !! name) <-> p ∈ (fun d => alter_prefix e.1 d.2) <$> ds;
  fd_unique name e : (name, e) ∈ adds -> checks e.2 = true -> NoDup ((fun d => alter_prefix e.1 d.2) <$> ds);
  fd_other n : n ∉ adds.*1 -> al_work (fl_engine st) !! n = base !! n /\ al_cfs (fl_engine st) !! n = base !! n
}.

Lemma fill_entries_apart e r1 r2 p1 p2 k w1 w2 :
  fill_entries e r1 p1 !! k = Some w1 -> fill_entries e r2 p2 !! k = Some w2 -> p1 = p2.
Proof.
  unfold fill_entries, fill_values. rewrite !lookup_fmap. intros (v1 & H1 & _)%fmap_Some (v2 & H2 & _)%fmap_Some.
  destruct (ix_kind e.2); [|by eapply entries_apart|by rewrite lookup_empty in H1].
  apply lookup_singleton_Some in H1 as [<- _], H2 as [He _]. by apply app_inj_len in He as [_ ->].
Qed.

Lemma filled_snoc adds base ds st st' pk rec :
  NoDup adds.*1 -> filled adds base ds st -> pk ∉ ds.*1 ->
  index_row alter_prefix rec pk adds st = inr st' -> filled adds base (ds ++ [(pk, rec)]) st'.
Proof.
  intros Hnd [Hr Hw Hs Hu Ho] Hpk Hrun.
  pose proof (index_row_ok rec pk adds st Hr Hnd) as H1. rewrite Hrun in H1.
  destruct H1 as (Q1 & Q2 & Q3 & Q4 & _). split; [done| | | |].
  - intros name e Hin k w. destruct (Q3 name e Hin) as (-> & _). rewrite lookup_union_Some_raw, (Hw name e Hin).
    setoid_rewrite elem_of_app. setoid_rewrite list_elem_of_singleton. split.
    + intros [Hk|[_ (p & r & Hd & Hk)]]; [exists pk, rec; auto | exists p, r; auto].
    + intros (p & r & [Hd|[= -> ->]] & Hk); [|by left]. right. split; [|eauto].
      destruct (fill_entries e rec pk !! k) as [w'|] eqn:E; [|done]. exfalso. apply Hpk, list_elem_of_fmap.
      exists (p, r). split; [by eapply fill_entries_apart | done].
  - intros name e Hin Hc p. destruct (Q3 name e Hin) as (_ & -> & _). rewrite Hc, elem_of_union, elem_of_singleton.
    rewrite (Hs name e Hin Hc), fmap_app, elem_of_app. cbn. rewrite list_elem_of_singleton. tauto.
  - intros name e Hin Hc. destruct (Q3 name e Hin) as (_ & _ & Hnew). specialize (Hnew Hc).
    rewrite (Hs name e Hin Hc) in Hnew. rewrite fmap_app. apply NoDup_app. split; [eauto|]. split; [|apply NoDup_singleton].
    intros p Hp Hp'. cbn in Hp'. apply list_elem_of_singleton in Hp' as ->. done.
  - intros n Hn. destruct (Q4 n Hn) as [-> _]. rewrite Q2. by apply Ho.
Qed.

Lemma seek_at k v (pre rest : list (bytes * bytes)) :
  sorted_cf fst (pre ++ (k, v) :: rest) -> seek fst k (pre ++ (k, v) :: rest) = (k, v) :: rest.
Proof.
  induction pre as [|[k' v'] pre IH]; cbn [app seek fst].
  - intros _. by rewrite (proj2 (bytes_compare_eq k k)).
  - intros [Hs Hall]%StronglySorted_inv. rewrite List.Forall_forall in Hall.
    specialize (Hall (k, v) ltac:(apply in_or_app; right; by left)). unfold bytes_lt in Hall. cbn in Hall.
    rewrite Hall. by apply IH.
Qed.

Lemma end_batch_ok adds base ds st :
  filled adds base ds st -> exists st', end_batch st = inr (st', true) /\ filled adds base ds st' /\
    fl_rows st' = fl_rows st /\ fl_last st' = fl_last st.
Proof.
  intros [Hr Hw Hs Hu Ho]. unfold end_batch, commit_txn, begin_txn. rewrite (call_ok (fl_engine st)) by done.
  change (is_ok TDB_SUCCESS) with true. cbn [negb]. rewrite call_ok by done. cbn [al_cfs al_work al_rcs].
  change (is_ok TDB_SUCCESS) with true. cbn [negb]. rewrite call_ok by done. change (is_ok TDB_SUCCESS) with true. cbn [negb].
  rewrite call_ok by done. eexists. split; [reflexivity|]. split; [|done]. split; try done.
  intros n Hn. cbn. destruct (Ho n Hn). done.
Qed.

Lemma rows_of_app a b : rows_of (a ++ b) = rows_of a ++ rows_of b.
Proof. apply omap_app. Qed.

Lemma is_data_key_cons k : is_data_key k = true -> k = KEY_NS_DATA :: drop 1 k.
Proof. destruct k as [|c k]; [done|]. cbn. intros ->%Z.eqb_eq. done. Qed.

Lemma fresh_pk (pre rest : list (bytes * bytes)) k v :
  sorted_cf fst (pre ++ (k, v) :: rest) -> is_data_key k = true -> drop 1 k ∉ (rows_of pre).*1.
Proof.
  intros Hs Hk Hin. apply list_elem_of_fmap in Hin as ([pk rec] & Epk & Hin). cbn [fst] in Epk. subst pk.
  apply list_elem_of_omap in Hin as ([k' v'] & Hin & E). cbn [fst snd] in E.
  destruct (is_data_key k') eqn:Hk'; [|done]. injection E as E _.
  assert (k' = k) as -> by (rewrite (is_data_key_cons k Hk), (is_data_key_cons k' Hk'); cbn; by rewrite E).
  apply list_elem_of_split in Hin as (l1 & l2 & ->). rewrite <- app_assoc in Hs.
  apply StronglySorted_app_1_r in Hs. apply StronglySorted_inv in Hs as [_ Hall]. rewrite List.Forall_forall in Hall.
  specialize (Hall (k, v) ltac:(apply in_or_app; right; by left)). unfold bytes_lt in Hall. cbn in Hall.
  by rewrite (proj2 (bytes_compare_eq k k)) in Hall.
Qed.

Lemma filled_eq adds base ds st st' :
  filled adds base ds st -> fl_engine st' = fl_engine st -> fl_seen st' = fl_seen st -> filled adds base ds st'.
Proof. intros [] E1 E2. split; rewrite ?E1; try setoid_rewrite E2; auto. Qed.

Definition duplicates (adds : adds_t) (ds : list (bytes * Rec)) (kn : nat) : Prop :=
  exists name e, (name, e) ∈ adds /\ e.1 = kn /\ checks e.2 = true /\ ~ NoDup ((fun d => alter_prefix kn d.2) <$> ds).

Lemma fill_loop_ok killed adds base data :
  sorted_cf fst data -> Forall (fun e => (length e.1 <= DATA_KEY_BUF_LEN)%nat) data ->
  NoDup adds.*1 ->
  forall fuel pre rest st, data = pre ++ rest -> (length rest <= fuel)%nat -> filled adds base (rows_of pre) st ->
  match fill_loop decode_row alter_prefix fuel killed adds data rest st with
  | inr st' => filled adds base (rows_of data) st'
  | inl (ER_DUP_ENTRY kn, _) => duplicates adds (rows_of data) kn
  | inl (ER_QUERY_INTERRUPTED, _) => exists n, killed n = true /\ n mod TIDESDB_INDEX_BUILD_BATCH = 0
  | inl (ER_INTERNAL_ERROR, _) => False
  end.
Proof.
  intros Hsort Hlen Hnd. induction fuel as [|fuel IH]; intros pre rest st Hdata Hfuel Hf.
  { destruct rest; cbn in Hfuel; [|lia]. rewrite app_nil_r in Hdata. by subst pre. }
  destruct rest as [|[k v] rest]; cbn [fill_loop].
  { rewrite app_nil_r in Hdata. by subst pre. }
  rewrite call_ok by apply Hf. change (is_ok TDB_SUCCESS) with true. cbn [negb].
  assert (Hdata' : data = (pre ++ [(k, v)]) ++ rest) by (by rewrite <- app_assoc).
  cbn [length] in Hfuel.
  destruct (is_data_key k) eqn:Hk; cbn [negb].
  2:{ apply (IH (pre ++ [(k, v)])); [done|lia|]. rewrite rows_of_app. cbn. rewrite Hk, app_nil_r. by eapply filled_eq. }
  assert (Hlk : Nat.leb (length k) DATA_KEY_BUF_LEN = true).
  { apply Nat.leb_le. rewrite Hdata, Forall_app, List.Forall_cons_iff in Hlen. apply Hlen. }
  rewrite Hlk. cbn [with_engine fl_engine fl_seen fl_acc fl_rows].
  set (st1 := mk_fill (fl_engine st) (fl_seen st) (fl_acc st) (fl_rows st) k).
  assert (Hf1 : filled adds base (rows_of pre) st1) by (by eapply filled_eq).
  assert (Hrows : rows_of data = rows_of pre ++ (drop 1 k, decode_row v) :: rows_of rest).
  { rewrite Hdata, rows_of_app. cbn. by rewrite Hk. }
  pose proof (index_row_ok (decode_row v) (drop 1 k) adds st1 (fd_rcs _ _ _ _ Hf1) Hnd) as Hrow.
  destruct (index_row alter_prefix (decode_row v) (drop 1 k) adds st1) as [[err e']|st2] eqn:Hrun.
  { destruct Hrow as (name & e & Hin & -> & Hc & Hs). exists name, e. split_and!; try done.
    apply (fd_seen _ _ _ _ Hf1 name e Hin Hc) in Hs. rewrite Hrows, fmap_app. intros Hnd'%NoDup_app.
    destruct Hnd' as (_ & Hdis & _). apply (Hdis _ Hs). cbn. left. }
  destruct Hrow as (_ & _ & _ & _ & _ & Hlast).
  assert (Hf2 : filled adds base (rows_of (pre ++ [(k, v)])) st2).
  { rewrite rows_of_app. cbn. rewrite Hk. eapply filled_snoc; eauto. rewrite Hdata in Hsort. by eapply fresh_pk. }
  set (st3 := mk_fill (fl_engine st2) (fl_seen st2) (fl_acc st2) (fl_rows st2 + 1) (fl_last st2)).
  assert (Hf3 : filled adds base (rows_of (pre ++ [(k, v)])) st3) by (by eapply filled_eq).
  cbv zeta. change (fl_rows st2 + 1) with (fl_rows st3). destruct (Z.eqb_spec (fl_rows st3 mod TIDESDB_INDEX_BUILD_BATCH) 0) as [Hb|Hb]; [|apply (IH (pre ++ [(k, v)])); [done|lia|done]].
  destruct (killed (fl_rows st3)) eqn:Ek; [by exists (fl_rows st3)|]. destruct (end_batch_ok adds base _ st3 Hf3) as (st4 & -> & Hf4 & _ & Hl4).
  rewrite Hl4. cbn [st3 fl_last]. rewrite Hlast. cbn [st1 fl_last].
  replace (drop 1 (seek fst k data)) with rest.
  2:{ rewrite Hdata in Hsort |- *. by rewrite seek_at. }
  apply (IH (pre ++ [(k, v)])); [done|lia|done].
Qed.

Lemma flush_one_ok base acc e a : al_rcs e = [] ->
  al_rcs (flush_one base acc e a) = [] /\ forall n, n <> base -> al_work (flush_one base acc e a) !! n = al_work e !! n.
Proof.
  intros Hr. unfold flush_one, get_txn. destruct (default _ _) as [d w]. destruct (_ && _); [done|].
  rewrite call_ok by done. change (is_ok TDB_SUCCESS) with true.
  match goal with |- context [put_txn ?n ?k ?v ?t ?e] => destruct (put_txn_ok n k v t e Hr) as (P1 & _ & _ & P4) end.
  split; [done|]. intros n Hn. by apply P4.
Qed.

Lemma flush_totals_ok base adds acc e : al_rcs e = [] ->
  forall n, n <> base -> al_cfs (flush_totals base adds acc e) !! n = al_cfs e !! n.
Proof.
  intros Hr n Hn. unfold flush_totals. destruct (forallb _ _); [done|]. unfold begin_txn at 1.
  rewrite call_ok by done. change (is_ok TDB_SUCCESS) with true. cbn [negb].
  assert (Hfold : forall l e0, al_rcs e0 = [] ->
    al_rcs (foldl (flush_one base acc) e0 l) = [] /\ al_work (foldl (flush_one base acc) e0 l) !! n = al_work e0 !! n).
  { induction l as [|a l IH]; intros e0 H0; [done|]. cbn [foldl].
    destruct (flush_one_ok base acc e0 a H0) as [F1 F2]. destruct (IH _ F1) as [-> ->]. split; [done|]. by apply F2. }
  destruct (Hfold adds (mk_alter (al_cfs e) (al_cfs e) (al_rcs e)) Hr) as [F1 F2].
  unfold commit_txn. rewrite call_ok by done. change (is_ok TDB_SUCCESS) with true. cbn. by rewrite F2.
Qed.

Lemma filled_start adds (e : alter) : al_rcs e = [] -> (forall name ix, (name, ix) ∈ adds -> al_cfs e !! name = Some ∅) ->
  filled adds (al_cfs e) (rows_of []) (mk_fill (mk_alter (al_cfs e) (al_cfs e) (al_rcs e)) ∅ ∅ 0 []).
Proof.
  intros Hr Hempty. split; cbn.
  - done.
  - intros name ix Hin k w. unfold work_of. cbn. rewrite (Hempty name ix Hin). cbn. rewrite lookup_empty.
    split; [done|]. intros (pk & rec & ?%not_elem_of_nil & _). done.
  - intros name ix Hin Hc p. rewrite lookup_empty. cbn. split; [set_solver | by intros ?%not_elem_of_nil].
  - intros. constructor.
  - done.
Qed.

(** The entries of a family are what [f] gives for the rows. *)
Definition holds_exactly (f : Rec -> bytes -> gmap bytes bytes) (ds : list (bytes * Rec)) (c : cf) : Prop :=
  forall k v, fst <$> c !! k = Some v <-> exists pk rec, (pk, rec) ∈ ds /\ f rec pk !! k = Some v.

Lemma filled_exactly (ix : nat * index) (ds : list (bytes * Rec)) (c : cf) :
  (forall k w, c !! k = Some w <-> exists pk rec, (pk, rec) ∈ ds /\ fill_entries ix rec pk !! k = Some w) ->
  holds_exactly (fill_values ix) ds c.
Proof.
  intros Hc k v. rewrite fmap_Some. setoid_rewrite Hc. unfold fill_entries. setoid_rewrite lookup_fmap. setoid_rewrite fmap_Some.
  split; [intros (w & (pk & rec & Hd & v' & Hv & ->) & ->); by exists pk, rec|].
  intros (pk & rec & Hd & Hv). exists (v, TIDESDB_TTL_NONE). split; [|done]. exists pk, rec. split; [done|]. by exists v.
Qed.


End FillProofs.

(** ** Rolling back *)

Section Rollback.

Context {Rec : Type} `{TableCodec Rec}.
Variable decode_row : bytes -> Rec.
Variable alter_prefix : nat -> Rec -> bytes.

(** Committed families and those in sight agree outside the new ones. *)
Definition in_step (news : list bytes) (base : gmap bytes cf) (e : alter) : Prop :=
  forall n, n ∉ news -> al_cfs e !! n = base !! n /\ al_work e !! n = base !! n.

Lemma call_in_step news base e rc e' : call e = (rc, e') -> in_step news base e -> in_step news base e'.
Proof. unfold call. destruct (al_rcs e); intros [= <- <-]; done. Qed.

Lemma put_in_step news base name k v ttl e :
  name ∈ news -> in_step news base e -> in_step news base (put_txn name k v ttl e).2.
Proof.
  intros Hn Hs. unfold put_txn. destruct (call e) as [rc e1] eqn:Ec. apply (call_in_step _ _ _ _ _ Ec) in Hs.
  destruct (is_ok rc); [|done]. intros n Hne. cbn. rewrite lookup_insert_ne by (intros ->; done). by apply Hs.
Qed.

Lemma begin_in_step news base e : in_step news base e -> in_step news base (begin_txn e).2.
Proof.
  intros Hs. unfold begin_txn. destruct (call e) as [rc e1] eqn:Ec. apply (call_in_step _ _ _ _ _ Ec) in Hs.
  intros n Hn. cbn. split; by apply Hs.
Qed.

Lemma commit_in_step news base e : in_step news base e -> in_step news base (commit_txn e).2.
Proof.
  intros Hs. unfold commit_txn. destruct (call e) as [rc e1] eqn:Ec. apply (call_in_step _ _ _ _ _ Ec) in Hs.
  destruct (is_ok rc); intros n Hn; cbn; split; by apply Hs.
Qed.

Lemma rollback_in_step news base e : in_step news base e -> in_step news base (rollback_txn e).
Proof. intros Hs n Hn. cbn. split; by apply Hs. Qed.

Lemma index_row_in_step news base rec pk adds (st : fill) :
  (forall a, a ∈ adds -> a.1 ∈ news) -> in_step news base (fl_engine st) ->
  match index_row alter_prefix rec pk adds st with
  | inl (_, e) => in_step news base e
  | inr st' => in_step news base (fl_engine st')
  end.
Proof.
  revert st. induction adds as [|[name [kn ix]] adds IH]; intros st Hnew Hs; [done|].
  assert (Hin : name ∈ news) by (apply (Hnew (name, (kn, ix))); left).
  specialize (fun st => IH st ltac:(intros a Ha; apply Hnew; by right)).
  cbn [index_row index_row_one]. destruct (ix_kind ix).
  - destruct (ix_unique ix && _); [done|]. apply IH. destruct (ix_unique ix); by apply put_in_step.
  - destruct (default _ _) as [d w]. apply IH. cbn [fl_engine].
    generalize (map_to_list (tf_map (fts_tokens kn rec))). intros l. revert st Hs.
    induction l as [|t l IHl]; intros st Hs; [done|]. cbn [foldl]. apply IHl. by apply put_in_step.
  - by apply IH.
Qed.

Lemma end_batch_in_step news base (st : fill) :
  in_step news base (fl_engine st) ->
  match end_batch st with
  | inl (_, e) => in_step news base e
  | inr (st', _) => in_step news base (fl_engine st')
  end.
Proof.
  intros Hs. unfold end_batch. apply commit_in_step in Hs. destruct (commit_txn (fl_engine st)) as [rc e]. cbn [snd] in Hs.
  apply begin_in_step in Hs. destruct (begin_txn e) as [rrc e1]. cbn [snd] in Hs.
  assert (Hs2 : in_step news base (if is_ok rrc then (TDB_SUCCESS, e1) else begin_txn e1).2)
    by (destruct (is_ok rrc); [done | by apply begin_in_step]).
  destruct (if is_ok rrc then (TDB_SUCCESS, e1) else begin_txn e1) as [rc2 e2]. cbn [snd] in Hs2.
  destruct (negb (is_ok rc2)); [done|]. destruct (call e2) as [irc e3] eqn:Ec. apply (call_in_step _ _ _ _ _ Ec) in Hs2.
  destruct (negb (is_ok irc)); [done|]. destruct (call e3) as [src e4] eqn:Ec2. by apply (call_in_step _ _ _ _ _ Ec2) in Hs2.
Qed.

Lemma fill_loop_in_step news base fuel killed adds data rest (st : fill) :
  (forall a, a ∈ adds -> a.1 ∈ news) -> in_step news base (fl_engine st) ->
  match fill_loop decode_row alter_prefix fuel killed adds data rest st with
  | inl (_, e) => in_step news base e
  | inr st' => in_step news base (fl_engine st')
  end.
Proof.
  intros Hnew. revert rest st. induction fuel as [|fuel IH]; intros rest st Hs; [done|].
  destruct rest as [|[k v] rest]; [done|]. cbn [fill_loop].
  destruct (call (fl_engine st)) as [rc e] eqn:Ec. apply (call_in_step _ _ _ _ _ Ec) in Hs.
  destruct (negb (is_ok rc)); [by apply IH|]. destruct (negb (is_data_key k)); [by apply IH|].
  set (st1 := mk_fill _ _ _ _ _).
  pose proof (index_row_in_step news base (decode_row v) (drop 1 k) adds st1 Hnew Hs) as Hrow.
  destruct (index_row _ _ _ adds st1) as [[err e1]|st2]; [by apply rollback_in_step|].
  set (st3 := mk_fill _ _ _ (fl_rows st2 + 1) _). cbv zeta.
  match goal with |- context [if ?b then _ else _] => destruct b end; [|by apply IH].
  destruct (killed (fl_rows st3)); [by apply rollback_in_step|].
  pose proof (end_batch_in_step news base st3 Hrow) as Hb.
  destruct (end_batch st3) as [[err e1]|[st4 []]]; [done | by apply IH | done].
Qed.

Lemma drop_cf_in_step news base name e : name ∈ news -> in_step news base e -> in_step news base (drop_cf name e).2.
Proof.
  intros Hn Hs. unfold drop_cf. destruct (call e) as [rc e1] eqn:Ec. apply (call_in_step _ _ _ _ _ Ec) in Hs.
  destruct (is_ok rc); [|done]. intros n Hne. cbn. rewrite lookup_delete_ne by (intros ->; done). by apply Hs.
Qed.

Lemma create_cf_in_step news base name e : name ∈ news -> in_step news base e -> in_step news base (create_cf name e).2.
Proof.
  intros Hn Hs. unfold create_cf. destruct (al_cfs e !! name); [done|].
  destruct (call e) as [rc e1] eqn:Ec. apply (call_in_step _ _ _ _ _ Ec) in Hs.
  destruct (is_ok rc); [|done]. intros n Hne. cbn. rewrite lookup_insert_ne by (intros ->; done). by apply Hs.
Qed.

Lemma prepare_adds_in_step news base base_cf adds ctx e :
  (forall ad, ad ∈ adds -> idx_cf_name base_cf (ad_name ad) ∈ news) -> (forall a, a ∈ ctx -> a.1 ∈ news) ->
  in_step news base e ->
  let '(_, ctx', e') := prepare_adds base_cf adds ctx e in in_step news base e' /\ forall a, a ∈ ctx' -> a.1 ∈ news.
Proof.
  revert ctx e. induction adds as [|ad adds IH]; intros ctx e Hnew Hctx Hs; cbn [prepare_adds]; [done|].
  assert (Hin : idx_cf_name base_cf (ad_name ad) ∈ news) by (apply Hnew; left).
  specialize (fun ctx e => IH ctx e ltac:(intros a Ha; apply Hnew; by right)).
  destruct (ad_pk ad); [by apply IH|].
  apply (drop_cf_in_step news base _ _ Hin) in Hs. destruct (drop_cf _ e) as [rc0 e0]. cbn [snd] in Hs.
  apply (create_cf_in_step news base _ _ Hin) in Hs. destruct (create_cf _ e0) as [rc e1]. cbn [snd] in Hs.
  destruct (negb (is_ok rc)); [done|]. destruct (al_cfs e1 !! _); [|done]. apply IH; [|done].
  intros a [Ha| ->%list_elem_of_singleton]%elem_of_app; [auto | done].
Qed.

Lemma drop_all_in_step news base names e :
  (forall n, n ∈ names -> n ∈ news) -> in_step news base e -> in_step news base (drop_all names e).
Proof.
  revert e. induction names as [|n names IH]; intros e Hn Hs; [done|]. cbn. apply IH; [set_solver|].
  apply drop_cf_in_step; [set_solver | done].
Qed.

(** The calls the server makes for an ALTER it rolls back: the error that stopped the
    fill (none when it is rolled back for another reason), the indexes of the share and
    the engine. *)
Definition alter_and_roll_back (base_cf : bytes) (idx_cf_names : list bytes) (adds : list add_index) (drops : list nat)
    (staged : option bool) (killed : Z -> bool) (data : list (bytes * bytes)) (idx : list (bytes * bool)) (e0 : alter)
    : option alter_error * list (bytes * bool) * alter :=
  let '(err, ctx, e1) := prepare_inplace_alter_table base_cf idx_cf_names adds drops staged e0 in
  let '(res, e2) := if (err : bool) then (Some ER_INTERNAL_ERROR, e1)
                    else inplace_alter_table decode_row alter_prefix base_cf killed (add_cfs ctx) data e1 in
  let '(idx, e3) := commit_inplace_alter_table false base_cf ctx None [] idx e2 in
  (res, idx, e3).

(** C28: an ALTER that fails leaves the table as it was.  Whatever the engine calls
    return, whenever the statement is killed and whatever the rows hold: if the fill ends
    in an error, or is never reached, then after the rollback every column family other
    than those of the new indexes, the data with its totals included, is what it was
    before the statement, and the share keeps its indexes. *)
Theorem failed_alter_leaves_table base_cf idx_cf_names adds drops staged killed data idx e0 err idx' e' :
  al_work e0 = al_cfs e0 ->
  alter_and_roll_back base_cf idx_cf_names adds drops staged killed data idx e0 = (Some err, idx', e') ->
  idx' = idx /\
  forall n, n ∉ (fun ad => idx_cf_name base_cf (ad_name ad)) <$> adds -> al_cfs e' !! n = al_cfs e0 !! n.
Proof.
  intros Hsync. set (news := (fun ad => idx_cf_name base_cf (ad_name ad)) <$> adds).
  assert (Hs0 : in_step news (al_cfs e0) e0) by (intros n Hn; by rewrite Hsync).
  unfold alter_and_roll_back, prepare_inplace_alter_table.
  pose proof (prepare_adds_in_step news (al_cfs e0) base_cf adds [] e0
    ltac:(intros ad Had; unfold news; apply list_elem_of_fmap; eauto) ltac:(by intros a ?%not_elem_of_nil) Hs0) as Hp.
  destruct (prepare_adds base_cf adds [] e0) as [[perr ctx] e1]. destruct Hp as [Hs1 Hctx].
  assert (Hroll : forall res e2 l, in_step news (al_cfs e0) e2 ->
    (let '(i, e3) := commit_inplace_alter_table false base_cf (mk_ctx ctx l) None [] idx e2 in (res, i, e3)) = (Some err, idx', e') ->
    idx' = idx /\ forall n, n ∉ news -> al_cfs e' !! n = al_cfs e0 !! n).
  { intros res e2 l Hs. cbn. intros [= _ <- <-]. split; [done|].
    eapply drop_all_in_step in Hs; [intros n Hn; by apply Hs|]. intros n (a & -> & Ha)%list_elem_of_fmap. auto. }
  destruct perr; [by apply Hroll|]. destruct (bool_decide (staged = Some false)); [by apply Hroll|]. cbn [add_cfs].
  unfold inplace_alter_table. destruct ctx as [|a ctx0] eqn:Ectx; [by cbn; intros [=]|]. rewrite <- Ectx in *. clear Ectx.
  apply begin_in_step in Hs1. destruct (begin_txn e1) as [rc e2]. cbn [snd] in Hs1.
  destruct (negb (is_ok rc)); [by apply Hroll|].
  destruct (call e2) as [irc e3] eqn:Ec. apply (call_in_step _ _ _ _ _ Ec) in Hs1.
  destruct (negb (is_ok irc)); [by apply Hroll|].
  pose proof (fill_loop_in_step news (al_cfs e0) (S (length data)) killed ctx data data (mk_fill e3 ∅ ∅ 0 []) Hctx Hs1) as Hl.
  destruct (fill_loop _ _ _ _ _ _ _ _) as [[ferr e4]|st]; [by apply Hroll|].
  apply commit_in_step in Hl. destruct (commit_txn (fl_engine st)) as [rc2 e5]. cbn [snd] in Hl.
  destruct (negb (is_ok rc2)); [by apply Hroll|]. cbn. intros [=].
Qed.

End Rollback.

(** ** Classification *)

Lemma trailing_drop_take altered old : trailing_drop altered old = true <-> altered = take (length altered) old.
Proof.
  revert old. induction altered as [|a altered IH]; intros [|o old]; cbn; try done.
  rewrite andb_true_iff, bool_decide_eq_true, IH. split; [intros [-> E]; congruence | intros E; injection E; auto].
Qed.

(** A metadata-only DROP COLUMN removes columns at the end of the table, so that rows
    stored before it decode as the row codec promises. *)
Theorem instant_drop_is_trailing flags old altered :
  check_if_supported_inplace_alter true flags old altered = HA_ALTER_INPLACE_INSTANT -> DROP_COLUMN ∈ flags ->
  altered = take (length altered) old.
Proof.
  unfold check_if_supported_inplace_alter. cbn [negb]. intros Hc Hd.
  assert (Hf : flag_in flags DROP_COLUMN = true) by (by apply bool_decide_eq_true).
  rewrite Hf in Hc. cbn [andb] in Hc. apply trailing_drop_take.
  destruct (forallb (flag_in TIDESDB_INSTANT) flags).
  - by destruct (trailing_drop altered old).
  - destruct (forallb _ _); [|done]. by destruct (flag_in flags ADD_PK_INDEX || flag_in flags DROP_PK_INDEX).
Qed.

(** ** Key columns *)

(** Without VARBINARY parts the fill writes the keys that the row changes write. *)
Theorem alter_key_agrees make_sort_key kps rec out pos :
  Forall (fun kp => is_varbinary (kp_field kp) = false) kps ->
  alter_put_parts make_sort_key kps rec out pos = put_parts make_sort_key kps rec out pos.
Proof.
  intros Hnv. revert out pos. induction Hnv as [|kp kps Hk _ IH]; intros out pos; [done|]. cbn [alter_put_parts put_parts].
  assert (Hp : alter_put_part make_sort_key kp (rec (fieldnr kp)) out pos = put_part make_sort_key kp (rec (fieldnr kp)) out pos)
    by (unfold alter_put_part, put_part; by rewrite Hk).
  rewrite Hp. destruct (put_part _ _ _ _ _) as [[out1 pos1]|]; [|done]. apply IH.
Qed.

(** ** Witnesses *)

Definition demo_decode (v : bytes) : drow :=
  match v with [i; u] => mk_drow i (Some u) [[97]; [98]] | _ => mk_drow 0 None [] end.

Definition demo_data : list (bytes * bytes) := [([1; 1], [1; 5]); ([1; 2], [2; 6])].

Definition demo_adds : list (bytes * (nat * index)) :=
  [([10], (1%nat, mk_index Regular true [1%nat] true)); ([11], (2%nat, mk_index Fulltext false [2%nat] true))].

Definition demo_base : bytes := [9].

Definition demo_alter : alter := mk_alter {[[9] := ∅; [10] := ∅; [11] := ∅]} {[[9] := ∅; [10] := ∅; [11] := ∅]} [].


Definition demo_new : list add_index := [mk_add 1 [107] (mk_index Regular true [1%nat] true) false].

(** The second row is read as the first: the ALTER is refused for the duplicate. *)
Definition demo_failed : option alter_error * list (bytes * bool) * alter :=
  alter_and_roll_back (fun _ => row1) (fun i r => idx_prefix i r) demo_base [] demo_new [] (Some true) (fun _ => false) demo_data []
    (mk_alter {[[9] := ∅]} {[[9] := ∅]} []).

Lemma failed_alter_leaves_table_witness :
  demo_failed.1.1 = Some (ER_DUP_ENTRY 1) /\ al_cfs demo_failed.2 !! [9] = Some ∅.
Proof.
  split; [vm_compute; reflexivity|].
  destruct (failed_alter_leaves_table (fun _ => row1) (fun i r => idx_prefix i r) demo_base [] demo_new [] (Some true) (fun _ => false) demo_data []
    (mk_alter {[[9] := ∅]} {[[9] := ∅]} []) (ER_DUP_ENTRY 1) [] demo_failed.2) as [_ Hkeep].
  - reflexivity.
  - vm_compute. reflexivity.
  - rewrite Hkeep; [reflexivity|]. intros Hin%list_elem_of_In. vm_compute in Hin. destruct Hin as [Hin|[]]. discriminate Hin.
Defined.

(** ** Findings *)

Definition three : list bytes := [[97]; [98]; [99]].

(** A column added or moved in the middle is accepted as a metadata change, although
    stored rows are decoded by position. *)
Theorem instant_accepts_moved_columns :
  check_if_supported_inplace_alter true [ADD_COLUMN; ALTER_STORED_COLUMN_ORDER] [[97]; [98]] [[97]; [120]; [98]] = HA_ALTER_INPLACE_INSTANT /\
  check_if_supported_inplace_alter true [ALTER_STORED_COLUMN_ORDER] three [[98]; [97]; [99]] = HA_ALTER_INPLACE_INSTANT.
Proof. split; vm_compute; reflexivity. Qed.

(** A column dropped from the middle is refused alone and accepted with an index change. *)
Theorem drop_with_index_skips_check :
  check_if_supported_inplace_alter true [DROP_COLUMN] three [[97]; [99]] = HA_ALTER_INPLACE_NOT_SUPPORTED /\
  check_if_supported_inplace_alter true [DROP_COLUMN; ADD_INDEX] three [[97]; [99]] = HA_ALTER_INPLACE_SHARED_LOCK.
Proof. split; vm_compute; reflexivity. Qed.

(** RENAME INDEX is a metadata change; the family keeps the old name and is not found. *)
Theorem renamed_index_is_lost :
  check_if_supported_inplace_alter true [RENAME_INDEX] three three = HA_ALTER_INPLACE_INSTANT /\
  rebuild_idx demo_base None [[107; 50]] {[idx_cf_name demo_base [107] := ∅]} = [(idx_cf_name demo_base [107; 50], false)].
Proof. split; vm_compute; reflexivity. Qed.

(** A put that fails (the third call after beginning and opening the iterator, reading
    a row first) is only logged: the ALTER succeeds and the row has no entry. *)
Theorem failed_put_is_ignored :
  let e := mk_alter {[[9] := ∅; [10] := ∅]} {[[9] := ∅; [10] := ∅]} [TDB_SUCCESS; TDB_SUCCESS; TDB_SUCCESS; TDB_ERR_IO] in
  let '(res, e') := inplace_alter_table demo_decode (fun i r => idx_prefix i r) demo_base (fun _ => false) (take 1 demo_adds) demo_data e in
  res = None /\ al_cfs e' !! [10] = Some {[[1; 6; 2] := (tdb_empty_val, TIDESDB_TTL_NONE)]}.
Proof. vm_compute. split; reflexivity. Qed.

(** The rows of a table are not entered into a new spatial index. *)
Theorem spatial_index_starts_empty :
  let adds := [([10], (1%nat, mk_index Spatial false [1%nat] true))] in
  let e := mk_alter {[[9] := ∅; [10] := ∅]} {[[9] := ∅; [10] := ∅]} [] in
  let '(res, e') := inplace_alter_table demo_decode (fun i r => idx_prefix i r) demo_base (fun _ => false) adds demo_data e in
  res = None /\ al_cfs e' !! [10] = Some ∅.
Proof. vm_compute. split; reflexivity. Qed.

(** When the server rolls back after a successful fill, the full-text totals stay. *)
Theorem rollback_keeps_totals :
  let adds := drop 1 demo_adds in
  let '(_, e') := inplace_alter_table demo_decode (fun i r => idx_prefix i r) demo_base (fun _ => false) adds demo_data demo_alter in
  let '(_, e'') := commit_inplace_alter_table false demo_base (mk_ctx adds []) None [] [] e' in
  (fun c => fts_load_meta (fst <$> c !! fts_meta_key 2)) <$> al_cfs e'' !! demo_base = Some (2, 4).
Proof. vm_compute. reflexivity. Qed.

(** [Field_varstring::make_sort_key] of a binary column, as the comment at ha_tidesdb.cc
    4016 describes it: the data cut and padded, then the length. *)
Definition sort_string_binary (f : Field) (data : bytes) (len : Z) : bytes :=
  let space := Z.to_nat (len - 1) in
  take space data ++ replicate (space - length data) 0 ++ [Z.of_nat (length data)].

(** For a value that fills a VARBINARY column the two writers disagree. *)
Theorem alter_key_differs_for_varbinary :
  let kp := mk_part 0 (mk_field MYSQL_TYPE_VARCHAR false false my_charset_bin 3 4) 3 in
  let rec := fun _ : nat => Some [65; 66; 67] in
  fst <$> alter_put_parts sort_string_binary [kp] rec (replicate 3 0) 0 = Some [65; 66; 3] /\
  fst <$> put_parts sort_string_binary [kp] rec (replicate 3 0) 0 = Some [65; 66; 67].
Proof. split; vm_compute; reflexivity. Qed.
