(* ===== verification/Reads.v ===== *)
(** * Reading rows (ha_tidesdb.cc 5402-5441, 5493-5531, 5972-6846)

    The scans of the handler: the table scan, the lookups and walks on the primary key
    and on secondary indexes in both directions, index condition pushdown and covering
    reads, and the reuse of the scan iterator across them.  The engine is an interface:
    the iterator and its operations with the laws its documentation gives, and, per
    call, what the server, the lock manager and the transaction return. *)

From Stdlib Require Import ZArith Lia Sorting.Sorted.
From stdpp Require Import base tactics list numbers sorting.
From S2P Require Import Prelude Errors KeyCodec Scan.

(** ** The engine's iterator *)

Class IterOps (It : Type) := {
  tidesdb_iter_valid : It -> bool;
  tidesdb_iter_key : It -> tdb_rc * bytes;
  tidesdb_iter_value : It -> tdb_rc * bytes;
  tidesdb_iter_key_value : It -> tdb_rc * (bytes * bytes);
  tdb_iter_next : It -> It;
  tdb_iter_prev : It -> It;
  tdb_iter_seek : bytes -> It -> It;
  tdb_iter_seek_for_prev : bytes -> It -> It;
  tdb_iter_seek_to_first : It -> It;
  tdb_iter_seek_to_last : It -> It;
  iter_fuel : It -> nat               (* a bound on the entries of the family *)
}.

(** ** The handler *)

(** A column family of the table: the data, or an index by its number. *)
Notation cf_id := (option nat).

Inductive scan_dir_t := DIR_NONE | DIR_FORWARD | DIR_BACKWARD.

(** [scan_iter] with the family, transaction and generation it was made for. *)
Record iter_slot (It : Type) := mk_slot { sl_it : It; sl_cf : cf_id; sl_txn : Z; sl_gen : Z }.
Arguments mk_slot {It}.
Arguments sl_it {It}.
Arguments sl_cf {It}.
Arguments sl_txn {It}.
Arguments sl_gen {It}.

(** What the calls out of the handler return during one call of it. *)
Record read_env (It : Type) := mk_renv {
  en_killed : bool;
  en_ensure : ha_rc;                          (* ensure_stmt_txn *)
  en_stmt_txn : Z;                            (* stmt_txn after it *)
  en_gen : Z;                                 (* cached_trx_->txn_generation *)
  en_iter_new : cf_id -> tdb_rc * It;         (* tdb_iter_new_r on the transaction *)
  en_get : bytes -> tdb_rc * bytes;           (* tdb_txn_get_r on the data family *)
  en_lock : option (bytes -> ha_rc)           (* row_lock_acquire, when the statement locks rows *)
}.
Arguments mk_renv {It}.
Arguments en_killed {It}.
Arguments en_ensure {It}.
Arguments en_stmt_txn {It}.
Arguments en_gen {It}.
Arguments en_iter_new {It}.
Arguments en_get {It}.
Arguments en_lock {It}.

(** What the table's share knows. *)
Record read_share := mk_rshare {
  rs_has_user_pk : bool;
  rs_pk_index : nat;
  rs_has_cf : nat -> bool;                    (* share->idx_cfs[i] is present *)
  rs_comp_len : nat -> nat;                   (* share->idx_comp_key_len *)
  rs_pk_key_len : nat
}.

(** The codec of the rows: [deserialize_row], [try_keyread_from_index] and
    [icp_check_secondary]; the pushed condition is that of the given key number. *)
Class RowReads (Rec : Type) := {
  decode_row : bytes -> Rec;
  keyread : nat -> bytes -> option Rec;
  icp_check : option nat -> nat -> bytes -> check_result_t
}.

Record hread (It Rec : Type) := mk_hread {
  active_index : nat;
  is_pk_ : bool;
  idx_pk_exact_done_ : bool;
  scan_dir_ : scan_dir_t;
  scan_txn : option Z;
  scan_cf_ : option cf_id;
  scan_iter : option (iter_slot It);
  scan_iter_last_err : option (ha_rc * option cf_id * option Z);
  current_pk_buf : bytes;
  idx_search_comp : bytes;
  pushed_idx_cond_keyno : option nat;         (* with the condition *)
  in_range_check_pushed_down : bool;
  keyread_only_ : bool;
  row_buf : option Rec
}.
Arguments mk_hread {It Rec}.
Arguments active_index {It Rec}.
Arguments is_pk_ {It Rec}.
Arguments idx_pk_exact_done_ {It Rec}.
Arguments scan_dir_ {It Rec}.
Arguments scan_txn {It Rec}.
Arguments scan_cf_ {It Rec}.
Arguments scan_iter {It Rec}.
Arguments scan_iter_last_err {It Rec}.
Arguments current_pk_buf {It Rec}.
Arguments idx_search_comp {It Rec}.
Arguments pushed_idx_cond_keyno {It Rec}.
Arguments in_range_check_pushed_down {It Rec}.
Arguments keyread_only_ {It Rec}.
Arguments row_buf {It Rec}.

Section Reads.

Context {It Rec : Type} `{IterOps It, RowReads Rec}.
Variable sh : read_share.

Notation state := (hread It Rec).
Notation env := (read_env It).
Implicit Types (st : state) (en : env).

Definition set_index (i : nat) (pk : bool) (st : state) : state :=
  mk_hread i pk (idx_pk_exact_done_ st) (scan_dir_ st) (scan_txn st) (scan_cf_ st) (scan_iter st) (scan_iter_last_err st)
    (current_pk_buf st) (idx_search_comp st) (pushed_idx_cond_keyno st) (in_range_check_pushed_down st) (keyread_only_ st) (row_buf st).
Definition set_exact (b : bool) (st : state) : state :=
  mk_hread (active_index st) (is_pk_ st) b (scan_dir_ st) (scan_txn st) (scan_cf_ st) (scan_iter st) (scan_iter_last_err st)
    (current_pk_buf st) (idx_search_comp st) (pushed_idx_cond_keyno st) (in_range_check_pushed_down st) (keyread_only_ st) (row_buf st).
Definition set_dir (d : scan_dir_t) (st : state) : state :=
  mk_hread (active_index st) (is_pk_ st) (idx_pk_exact_done_ st) d (scan_txn st) (scan_cf_ st) (scan_iter st) (scan_iter_last_err st)
    (current_pk_buf st) (idx_search_comp st) (pushed_idx_cond_keyno st) (in_range_check_pushed_down st) (keyread_only_ st) (row_buf st).
Definition set_scan (t : option Z) (c : option cf_id) (st : state) : state :=
  mk_hread (active_index st) (is_pk_ st) (idx_pk_exact_done_ st) (scan_dir_ st) t c (scan_iter st) (scan_iter_last_err st)
    (current_pk_buf st) (idx_search_comp st) (pushed_idx_cond_keyno st) (in_range_check_pushed_down st) (keyread_only_ st) (row_buf st).
Definition set_iter (i : option (iter_slot It)) (st : state) : state :=
  mk_hread (active_index st) (is_pk_ st) (idx_pk_exact_done_ st) (scan_dir_ st) (scan_txn st) (scan_cf_ st) i (scan_iter_last_err st)
    (current_pk_buf st) (idx_search_comp st) (pushed_idx_cond_keyno st) (in_range_check_pushed_down st) (keyread_only_ st) (row_buf st).
Definition set_err (e : option (ha_rc * option cf_id * option Z)) (st : state) : state :=
  mk_hread (active_index st) (is_pk_ st) (idx_pk_exact_done_ st) (scan_dir_ st) (scan_txn st) (scan_cf_ st) (scan_iter st) e
    (current_pk_buf st) (idx_search_comp st) (pushed_idx_cond_keyno st) (in_range_check_pushed_down st) (keyread_only_ st) (row_buf st).
Definition set_row (pk : bytes) (r : option Rec) (st : state) : state :=
  mk_hread (active_index st) (is_pk_ st) (idx_pk_exact_done_ st) (scan_dir_ st) (scan_txn st) (scan_cf_ st) (scan_iter st)
    (scan_iter_last_err st) pk (idx_search_comp st) (pushed_idx_cond_keyno st) (in_range_check_pushed_down st) (keyread_only_ st) r.
Definition set_search (k : bytes) (st : state) : state :=
  mk_hread (active_index st) (is_pk_ st) (idx_pk_exact_done_ st) (scan_dir_ st) (scan_txn st) (scan_cf_ st) (scan_iter st)
    (scan_iter_last_err st) (current_pk_buf st) k (pushed_idx_cond_keyno st) (in_range_check_pushed_down st) (keyread_only_ st) (row_buf st).
Definition set_pushed (k : option nat) (b : bool) (st : state) : state :=
  mk_hread (active_index st) (is_pk_ st) (idx_pk_exact_done_ st) (scan_dir_ st) (scan_txn st) (scan_cf_ st) (scan_iter st)
    (scan_iter_last_err st) (current_pk_buf st) (idx_search_comp st) k b (keyread_only_ st) (row_buf st).

(** Move the scan iterator. *)
Definition move (f : It -> It) (st : state) : state :=
  match scan_iter st with
  | Some s => set_iter (Some (mk_slot (f (sl_it s)) (sl_cf s) (sl_txn s) (sl_gen s))) st
  | None => st
  end.

(** *** Rows *)

Definition fetch_row_by_pk (en : env) (pk : bytes) (st : state) : ha_rc * state :=
  let '(rc, v) := en_get en (build_data_key pk) in
  match rc with
  | TDB_SUCCESS => (HA_OK, set_row pk (Some (decode_row v)) st)
  | TDB_ERR_NOT_FOUND => (HA_ERR_KEY_NOT_FOUND, st)
  | _ => (ha_of_rc rc, st)
  end.

Fixpoint iter_read_loop (fuel : nat) (st : state) : ha_rc * state :=
  match fuel, scan_iter st with
  | S fuel, Some s =>
    if tidesdb_iter_valid (sl_it s) then
      let '(rc, (key, value)) := tidesdb_iter_key_value (sl_it s) in
      match rc with
      | TDB_SUCCESS =>
        if is_data_key key then (HA_OK, set_row (drop KEY_NAMESPACE_LEN key) (Some (decode_row value)) st)
        else iter_read_loop fuel (move tdb_iter_next st)
      | _ => (HA_ERR_END_OF_FILE, st)
      end
    else (HA_ERR_END_OF_FILE, st)
  | _, _ => (HA_ERR_END_OF_FILE, st)
  end.

Definition fuel_of (st : state) : nat := match scan_iter st with Some s => S (iter_fuel (sl_it s)) | None => 0 end.

Definition iter_read_current (st : state) : ha_rc * state := iter_read_loop (fuel_of st) st.

(** A read that sets the direction when it found a row. *)
Definition dir_if_ok (d : scan_dir_t) (r : ha_rc * state) : ha_rc * state :=
  if bool_decide (r.1 = HA_OK) then (r.1, set_dir d r.2) else r.

(** *** The scan iterator *)

(** Free a cached iterator that was made for something else. *)
Definition keep_iter (en : env) (c : cf_id) (st : state) : state :=
  match scan_iter st with
  | Some s =>
    if negb (bool_decide (sl_cf s = c)) || negb (bool_decide (Some (sl_txn s) = scan_txn st)) || negb (sl_gen s =? en_gen en)
    then set_iter None st else st
  | None => st
  end.

Definition ensure_scan_iter (en : env) (st : state) : ha_rc * state :=
  match scan_iter st with
  | Some _ => (HA_OK, st)
  | None =>
    let fresh :=
      match scan_txn st, scan_cf_ st with
      | Some t, Some c =>
        let '(rc, it) := en_iter_new en c in
        match rc with
        | TDB_SUCCESS => (HA_OK, set_err None (set_iter (Some (mk_slot it c t (en_gen en))) st))
        | _ => (ha_of_rc rc, set_err (Some (ha_of_rc rc, scan_cf_ st, scan_txn st)) st)
        end
      | _, _ => (HA_ERR_INTERNAL_ERROR, set_err (Some (HA_ERR_INTERNAL_ERROR, scan_cf_ st, scan_txn st)) st)
      end in
    match scan_iter_last_err st with
    | Some (err, c, t) => if bool_decide (c = scan_cf_ st /\ t = scan_txn st) then (err, st) else fresh
    | None => fresh
    end
  end.

(** [if (irc) return irc;] *)
Definition with_iter (en : env) (k : state -> ha_rc * state) (st : state) : ha_rc * state :=
  let '(irc, st) := ensure_scan_iter en st in
  match irc with HA_OK => k st | _ => (irc, st) end.

(** *** The table scan *)

Definition rnd_init (en : env) (st : state) : ha_rc * state :=
  let st := set_dir DIR_NONE (set_row [] (row_buf st) st) in
  match en_ensure en with
  | HA_OK =>
    let st := keep_iter en None (set_scan (Some (en_stmt_txn en)) (scan_cf_ st) st) in
    match scan_iter st with
    | Some _ => (HA_OK, move (tdb_iter_seek [KEY_NS_DATA]) st)
    | None =>
      let '(rc, it) := en_iter_new en None in
      match rc with
      | TDB_SUCCESS =>
        (HA_OK, move (tdb_iter_seek [KEY_NS_DATA]) (set_iter (Some (mk_slot it None (en_stmt_txn en) (en_gen en))) st))
      | _ => (ha_of_rc rc, set_scan None (scan_cf_ st) st)
      end
    end
  | erc => (erc, st)
  end.

Definition rnd_end (st : state) : ha_rc * state := (HA_OK, set_scan None (scan_cf_ st) st).

Definition advance_unless_first (f : It -> It) (st : state) : state :=
  match scan_dir_ st with DIR_NONE => st | _ => move f st end.

Definition rnd_next (en : env) (st : state) : ha_rc * state :=
  if en_killed en then (HA_ERR_ABORTED_BY_USER, st)
  else dir_if_ok DIR_FORWARD (iter_read_current (advance_unless_first tdb_iter_next st)).

(** [position] copies the current key into [ref]; [rnd_pos] reads [ref_length] bytes of
    it back, which is the length of every primary key of the table. *)
Definition position (st : state) : bytes := current_pk_buf st.

Definition rnd_pos (en : env) (pos : bytes) (st : state) : ha_rc * state :=
  match en_ensure en with HA_OK => fetch_row_by_pk en pos st | erc => (erc, st) end.

(** *** Index scans *)

Definition index_init (en : env) (idx : nat) (st : state) : ha_rc * state :=
  let st := set_dir DIR_NONE (set_exact false (set_index idx (is_pk_ st) st)) in
  let st := if bool_decide (pushed_idx_cond_keyno st <> None /\ pushed_idx_cond_keyno st <> Some idx) ||
               (bool_decide (pushed_idx_cond_keyno st = None) && in_range_check_pushed_down st)
            then set_pushed None false st else st in
  let pk := rs_has_user_pk sh && Nat.eqb idx (rs_pk_index sh) in
  let st := set_index idx pk st in
  match en_ensure en with
  | HA_OK =>
    if pk || rs_has_cf sh idx then
      let target := if pk then None else Some idx in
      (HA_OK, keep_iter en target (set_scan (Some (en_stmt_txn en)) (Some target) st))
    else (HA_ERR_GENERIC, set_scan None None st)
  | erc => (erc, st)
  end.

Definition index_end (max_key : nat) (st : state) : ha_rc * state :=
  (HA_OK, set_scan None (scan_cf_ st) (set_index max_key (is_pk_ st) st)).

(** The loop of the secondary index reads: [nf] is what a missing or foreign entry
    gives, [same] the prefix an entry must have.  The flag says that an entry was
    reached and its row asked for. *)
Fixpoint sec_loop (fuel : nat) (en : env) (back : bool) (nf : ha_rc) (same : option bytes) (st : state)
    : ha_rc * bool * state :=
  match fuel, scan_iter st with
  | S fuel, Some s =>
    if negb (tidesdb_iter_valid (sl_it s)) then (nf, false, st)
    else
      let '(rc, ik) := tidesdb_iter_key (sl_it s) in
      match rc with
      | TDB_SUCCESS =>
        if match same with Some p => negb (has_prefix p ik) | None => false end then (nf, false, st)
        else if Nat.leb (length ik) (rs_comp_len sh (active_index st)) then (nf, false, st)
        else
          match icp_check (pushed_idx_cond_keyno st) (active_index st) ik with
          | CHECK_NEG => sec_loop fuel en back nf same (move (if back then tdb_iter_prev else tdb_iter_next) st)
          | CHECK_OUT_OF_RANGE => (HA_ERR_END_OF_FILE, false, st)
          | CHECK_POS =>
            let pk := drop (rs_comp_len sh (active_index st)) ik in
            match if keyread_only_ st then keyread (active_index st) ik else None with
            | Some r => (HA_OK, true, set_row pk (Some r) st)
            | None => let '(ret, st) := fetch_row_by_pk en pk st in (ret, true, st)
            end
          end
      | _ => (nf, false, st)
      end
  | _, _ => (nf, false, st)
  end.

Definition sec_read (en : env) (back : bool) (nf : ha_rc) (same : option bytes) (st : state) : ha_rc * bool * state :=
  sec_loop (fuel_of st) en back nf same st.

(** [scan_dir_] is set once an entry was reached. *)
Definition dir_if_reached (d : scan_dir_t) (r : ha_rc * bool * state) : ha_rc * state :=
  let '(ret, reached, st) := r in (ret, if reached : bool then set_dir d st else st).

Definition dir_if_found (d : scan_dir_t) (r : ha_rc * bool * state) : ha_rc * state :=
  let '(ret, _, st) := r in dir_if_ok d (ret, st).

Inductive find_flag :=
| HA_READ_KEY_EXACT | HA_READ_KEY_OR_NEXT | HA_READ_KEY_OR_PREV | HA_READ_AFTER_KEY | HA_READ_BEFORE_KEY
| HA_READ_PREFIX | HA_READ_PREFIX_LAST | HA_READ_PREFIX_LAST_OR_PREV.

Definition KEY_INF_HI_BYTE : Z := 255.

(** The key under the iterator is [k]. *)
Definition on_key (k : bytes) (it : It) : bool :=
  tidesdb_iter_valid it &&
  match tidesdb_iter_key it with (TDB_SUCCESS, ik) => bool_decide (ik = k) | _ => false end.

Definition skip_key (k : bytes) (step : It -> It) (st : state) : state :=
  match scan_iter st with Some s => if on_key k (sl_it s) then move step st else st | None => st end.

(** The iterator stands on an entry outside the group of [p]. *)
Definition outside_group (p : bytes) (st : state) : bool :=
  match scan_iter st with
  | Some s => tidesdb_iter_valid (sl_it s) &&
              match tidesdb_iter_key (sl_it s) with (TDB_SUCCESS, ik) => negb (has_prefix p ik) | _ => true end
  | None => false
  end.

(** Lines 6229-6364. *)
Definition read_map_pk (en : env) (comp_key : bytes) (flag : find_flag) (st : state) : ha_rc * state :=
  let seek_key := build_data_key comp_key in
  let full_pk_comp_len := rs_comp_len sh (rs_pk_index sh) in
  let forward st := dir_if_ok DIR_FORWARD (iter_read_current (move (tdb_iter_seek seek_key) st)) in
  match flag with
  | HA_READ_KEY_EXACT =>
    if Nat.leb full_pk_comp_len (length comp_key) then
      match match en_lock en with Some lock => lock comp_key | None => HA_OK end with
      | HA_OK =>
        let '(ret, st) := fetch_row_by_pk en comp_key st in
        (ret, if bool_decide (ret = HA_OK) then set_exact true st else st)
      | lrc => (lrc, st)
      end
    else with_iter en forward st
  | HA_READ_AFTER_KEY =>
    with_iter en (fun st =>
      dir_if_ok DIR_FORWARD (iter_read_current (skip_key seek_key tdb_iter_next (move (tdb_iter_seek seek_key) st)))) st
  | HA_READ_KEY_OR_PREV | HA_READ_BEFORE_KEY | HA_READ_PREFIX_LAST | HA_READ_PREFIX_LAST_OR_PREV =>
    with_iter en (fun st =>
      if Nat.ltb (length comp_key) full_pk_comp_len then
        let upper := seek_key ++ replicate (full_pk_comp_len - length comp_key) KEY_INF_HI_BYTE in
        let st := move (tdb_iter_seek_for_prev upper) st in
        match flag with
        | HA_READ_PREFIX_LAST =>
          if outside_group seek_key st then (HA_ERR_KEY_NOT_FOUND, st) else dir_if_ok DIR_BACKWARD (iter_read_current st)
        | _ => dir_if_ok DIR_BACKWARD (iter_read_current st)
        end
      else
        let st := move (tdb_iter_seek_for_prev seek_key) st in
        let st := match flag with HA_READ_BEFORE_KEY => skip_key seek_key tdb_iter_prev st | _ => st end in
        dir_if_ok DIR_BACKWARD (iter_read_current st)) st
  | HA_READ_KEY_OR_NEXT | HA_READ_PREFIX => with_iter en forward st
  end.

(** Lines 6426-6435: pass the entries of the group. *)
Fixpoint skip_group (fuel : nat) (p : bytes) (st : state) : state :=
  match fuel, scan_iter st with
  | S fuel, Some s =>
    if tidesdb_iter_valid (sl_it s) then
      match tidesdb_iter_key (sl_it s) with
      | (TDB_SUCCESS, ik) => if has_prefix p ik then skip_group fuel p (move tdb_iter_next st) else st
      | _ => st
      end
    else st
  | _, _ => st
  end.

Definition is_backward (flag : find_flag) : bool :=
  match flag with
  | HA_READ_KEY_OR_PREV | HA_READ_BEFORE_KEY | HA_READ_PREFIX_LAST | HA_READ_PREFIX_LAST_OR_PREV => true
  | _ => false
  end.

(** Lines 6415-6505. *)
Definition read_map_sec (en : env) (comp_key : bytes) (flag : find_flag) (st : state) : ha_rc * state :=
  with_iter en (fun st =>
    let st :=
      match flag with
      | HA_READ_AFTER_KEY => let st := move (tdb_iter_seek comp_key) st in skip_group (fuel_of st) comp_key st
      | HA_READ_KEY_OR_PREV | HA_READ_BEFORE_KEY | HA_READ_PREFIX_LAST | HA_READ_PREFIX_LAST_OR_PREV =>
        move (tdb_iter_seek_for_prev (comp_key ++ replicate (rs_pk_key_len sh) KEY_INF_HI_BYTE)) st
      | _ => move (tdb_iter_seek comp_key) st
      end in
    let same := match flag with HA_READ_KEY_EXACT => Some comp_key | _ => None end in
    dir_if_found (if is_backward flag then DIR_BACKWARD else DIR_FORWARD)
      (sec_read en (is_backward flag) HA_ERR_KEY_NOT_FOUND same st)) st.

(** [comp_key] is the search key in comparable form.  The branch of the spatial
    predicates is in the file of the spatial scan. *)
Definition index_read_map (en : env) (comp_key : bytes) (flag : find_flag) (st : state) : ha_rc * state :=
  let st := set_search comp_key st in
  if is_pk_ st then read_map_pk en comp_key flag st else read_map_sec en comp_key flag st.

Definition index_read_last_map (en : env) (comp_key : bytes) (st : state) : ha_rc * state :=
  index_read_map en comp_key HA_READ_PREFIX_LAST st.

Definition index_next (en : env) (st : state) : ha_rc * state :=
  if en_killed en then (HA_ERR_ABORTED_BY_USER, st)
  else
    let read st :=
      if is_pk_ st then let '(ret, st) := iter_read_current st in (ret, set_dir DIR_FORWARD st)
      else dir_if_reached DIR_FORWARD (sec_read en false HA_ERR_END_OF_FILE None st) in
    if idx_pk_exact_done_ st then
      with_iter en (fun st =>
        let st := move (tdb_iter_seek (build_data_key (current_pk_buf st))) st in
        read (match scan_iter st with
              | Some s => if tidesdb_iter_valid (sl_it s) then move tdb_iter_next st else st
              | None => st
              end)) (set_exact false st)
    else with_iter en (fun st => read (advance_unless_first tdb_iter_next st)) st.

(** Backwards over keys that are not data keys. *)
Fixpoint skip_meta_back (fuel : nat) (st : state) : ha_rc + state :=
  match fuel, scan_iter st with
  | S fuel, Some s =>
    if tidesdb_iter_valid (sl_it s) then
      match tidesdb_iter_key (sl_it s) with
      | (TDB_SUCCESS, key) => if is_data_key key then inr st else skip_meta_back fuel (move tdb_iter_prev st)
      | _ => inl HA_ERR_END_OF_FILE
      end
    else inr st
  | _, _ => inr st
  end.

Definition read_back_pk (st : state) : ha_rc * state :=
  match skip_meta_back (fuel_of st) st with
  | inl rc => (rc, st)
  | inr st => iter_read_current (set_dir DIR_BACKWARD st)
  end.

Definition index_prev (en : env) (st : state) : ha_rc * state :=
  if en_killed en then (HA_ERR_ABORTED_BY_USER, st)
  else
    let read st :=
      let st := move tdb_iter_prev st in
      if is_pk_ st then read_back_pk st
      else dir_if_reached DIR_BACKWARD (sec_read en true HA_ERR_END_OF_FILE None st) in
    if idx_pk_exact_done_ st then
      with_iter en (fun st => read (move (tdb_iter_seek (build_data_key (current_pk_buf st))) st)) (set_exact false st)
    else with_iter en read st.

Definition index_first (en : env) (st : state) : ha_rc * state :=
  with_iter en (fun st =>
    if is_pk_ st then dir_if_ok DIR_FORWARD (iter_read_current (move (tdb_iter_seek [KEY_NS_DATA]) st))
    else index_next en (set_dir DIR_NONE (move tdb_iter_seek_to_first st))) (set_exact false st).

(** Lines 6746-6757. *)
Definition read_last_sec (en : env) (st : state) : ha_rc * state :=
  match scan_iter st with
  | Some s =>
    if tidesdb_iter_valid (sl_it s) then
      match tidesdb_iter_key (sl_it s) with
      | (TDB_SUCCESS, ik) =>
        let len := rs_comp_len sh (active_index st) in
        if Nat.leb (length ik) len then (HA_ERR_END_OF_FILE, st)
        else fetch_row_by_pk en (drop len ik) (set_dir DIR_BACKWARD st)
      | _ => (HA_ERR_END_OF_FILE, st)
      end
    else (HA_ERR_END_OF_FILE, st)
  | None => (HA_ERR_END_OF_FILE, st)
  end.

Definition index_last (en : env) (st : state) : ha_rc * state :=
  with_iter en (fun st =>
    let st := move tdb_iter_seek_to_last st in
    if is_pk_ st then read_back_pk st else read_last_sec en st) (set_exact false st).

(** Lines 6775-6845. *)
Definition index_next_same (en : env) (st : state) : ha_rc * state :=
  if en_killed en then (HA_ERR_ABORTED_BY_USER, st)
  else if is_pk_ st then
    if Nat.leb (rs_comp_len sh (rs_pk_index sh)) (length (idx_search_comp st)) then (HA_ERR_END_OF_FILE, st)
    else
      match scan_iter (move tdb_iter_next st) with
      | None => (HA_ERR_END_OF_FILE, st)
      | Some s =>
        let st := move tdb_iter_next st in
        if tidesdb_iter_valid (sl_it s) then
          match tidesdb_iter_key (sl_it s) with
          | (TDB_SUCCESS, ik) =>
            if has_prefix (idx_search_comp st) (drop KEY_NAMESPACE_LEN ik) &&
               Nat.leb (KEY_NAMESPACE_LEN + length (idx_search_comp st)) (length ik)
            then dir_if_ok DIR_FORWARD (iter_read_current st) else (HA_ERR_END_OF_FILE, st)
          | _ => (HA_ERR_END_OF_FILE, st)
          end
        else (HA_ERR_END_OF_FILE, st)
      end
  else
    let '(ret, _, st) := sec_read en false HA_ERR_END_OF_FILE (Some (idx_search_comp st)) (move tdb_iter_next st) in
    (ret, st).

End Reads.
