(* ===== verification/ReadsProof.v ===== *)
(** * The scans read exactly the rows (theorems on Reads.v)

    What the engine's iterator promises, and what the handler's scans then deliver:
    the table scan every row, the walks along an index all its rows in either
    direction, the lookups the rows of a key, each exactly once and in key order. *)

From Stdlib Require Import ZArith Lia Sorting.Sorted.
From stdpp Require Import base tactics list numbers sets sorting.
From S2P Require Import Prelude Errors KeyCodec Scan Reads.

(** ** What the iterator promises

    An iterator stands on an entry of its family, which it sees in key order and which
    does not change under it, or on none.  Moves from no entry are not specified. *)

Definition before (k : bytes) (e : bytes * bytes) : bool := match bytes_compare e.1 k with Lt => true | _ => false end.
Definition upto (k : bytes) (e : bytes * bytes) : bool := match bytes_compare e.1 k with Gt => false | _ => true end.

(** The first position that is not before [k], and the last one up to [k]. *)
Definition first_ge (k : bytes) (l : list (bytes * bytes)) : option nat :=
  let n := length (List.filter (before k) l) in if Nat.ltb n (length l) then Some n else None.
Definition last_le (k : bytes) (l : list (bytes * bytes)) : option nat :=
  match length (List.filter (upto k) l) with O => None | S n => Some n end.

Class IterLaws (It : Type) `{IterOps It} := {
  it_entries : It -> list (bytes * bytes);
  it_pos : It -> option nat;
  it_sorted it : sorted_cf fst (it_entries it);
  it_pos_lt it n : it_pos it = Some n -> (n < length (it_entries it))%nat;
  it_fuel it : iter_fuel it = length (it_entries it);
  valid_law it : tidesdb_iter_valid it = match it_pos it with Some _ => true | None => false end;
  read_law it n k v : it_pos it = Some n -> it_entries it !! n = Some (k, v) ->
    tidesdb_iter_key it = (TDB_SUCCESS, k) /\ tidesdb_iter_value it = (TDB_SUCCESS, v) /\
    tidesdb_iter_key_value it = (TDB_SUCCESS, (k, v));
  moves_keep it f : f ∈ [tdb_iter_next; tdb_iter_prev; tdb_iter_seek_to_first; tdb_iter_seek_to_last] ->
    it_entries (f it) = it_entries it;
  seeks_keep it k : it_entries (tdb_iter_seek k it) = it_entries it /\ it_entries (tdb_iter_seek_for_prev k it) = it_entries it;
  next_law it n : it_pos it = Some n ->
    it_pos (tdb_iter_next it) = if Nat.ltb (S n) (length (it_entries it)) then Some (S n) else None;
  prev_law it n : it_pos it = Some n -> it_pos (tdb_iter_prev it) = match n with O => None | S n => Some n end;
  seek_law it k : it_pos (tdb_iter_seek k it) = first_ge k (it_entries it);
  seek_prev_law it k : it_pos (tdb_iter_seek_for_prev k it) = last_le k (it_entries it);
  first_law it : it_pos (tdb_iter_seek_to_first it) = match it_entries it with [] => None | _ => Some O end;
  last_law it : it_pos (tdb_iter_seek_to_last it) = match length (it_entries it) with O => None | S n => Some n end
}.

(** ** Sorted families *)

(** In key order the entries a downward closed test accepts come first. *)
Lemma sorted_partition (P : bytes * bytes -> bool) l :
  sorted_cf fst l -> (forall a b, bytes_lt a.1 b.1 -> P b = true -> P a = true) ->
  take (length (List.filter P l)) l = List.filter P l /\
  drop (length (List.filter P l)) l = List.filter (fun e => negb (P e)) l.
Proof.
  intros Hs Hdown. induction Hs as [|a l Hs IH Hall]; [done|]. cbn [List.filter].
  destruct (P a) eqn:Ha; cbn [negb]; [cbn; destruct IH as [-> ->]; done|].
  assert (Hno : Forall (fun b => P b = false) l).
  { eapply List.Forall_impl; [|exact Hall]. intros b Hab. apply not_true_iff_false. intros Hb.
    by rewrite (Hdown a b) in Ha. }
  assert (E : List.filter P l = [] /\ List.filter (fun e => negb (P e)) l = l).
  { clear -Hno. induction Hno as [|b l Hb Hl IH]; [done|]. cbn. rewrite Hb. cbn. by destruct IH as [-> ->]. }
  by destruct E as [-> ->].
Qed.

Lemma filter_filter_bool {A} (p q : A -> bool) l : List.filter p (List.filter q l) = List.filter (fun x => q x && p x) l.
Proof. induction l as [|a l IH]; [done|]. cbn. destruct (q a); cbn; [|done]. destruct (p a); by rewrite IH. Qed.

Lemma before_down k a b : bytes_lt a.1 b.1 -> before k b = true -> before k a = true.
Proof.
  unfold before, bytes_lt. intros Hab Hb. destruct (bytes_compare b.1 k) eqn:E; try done.
  by rewrite (bytes_lt_trans _ _ _ Hab E).
Qed.

Lemma upto_down k a b : bytes_lt a.1 b.1 -> upto k b = true -> upto k a = true.
Proof.
  unfold upto, bytes_lt. intros Hab Hb. destruct (bytes_compare b.1 k) eqn:E; try done.
  - apply bytes_compare_eq in E. rewrite <- E. by rewrite Hab.
  - by rewrite (bytes_lt_trans _ _ _ Hab E).
Qed.

(** ** What lies ahead of an iterator *)

Section Ahead.
Context {It : Type} `{IterLaws It}.
Implicit Types it : It.

Definition step (back : bool) : It -> It := if back then tdb_iter_prev else tdb_iter_next.

Definition ahead (back : bool) (it : It) : list (bytes * bytes) :=
  match it_pos it with
  | Some n => if back then reverse (take (S n) (it_entries it)) else drop n (it_entries it)
  | None => []
  end.

Lemma step_keeps back it : it_entries (step back it) = it_entries it.
Proof. apply moves_keep. destruct back; set_solver. Qed.

Lemma ahead_cons back it k v rest : ahead back it = (k, v) :: rest ->
  tidesdb_iter_valid it = true /\ tidesdb_iter_key it = (TDB_SUCCESS, k) /\
  tidesdb_iter_value it = (TDB_SUCCESS, v) /\ tidesdb_iter_key_value it = (TDB_SUCCESS, (k, v)) /\
  ahead back (step back it) = rest /\ ahead (negb back) it <> [].
Proof.
  unfold ahead. rewrite valid_law. destruct (it_pos it) as [n|] eqn:Hn; [|done]. intros Hr.
  destruct (lookup_lt_is_Some_2 (it_entries it) n (it_pos_lt _ _ Hn)) as [[k' v'] He].
  pose proof (read_law _ _ _ _ Hn He) as (Hk & Hv & Hkv). rewrite step_keeps.
  assert (Eq : (k', v') = (k, v) /\
    match it_pos (step back it) with
    | Some n => if back then reverse (take (S n) (it_entries it)) else drop n (it_entries it)
    | None => [] end = rest).
  { destruct back; cbn [step].
    - erewrite take_S_r in Hr by done. rewrite reverse_snoc in Hr. injection Hr as -> -> E2. split; [done|].
      rewrite (prev_law _ _ Hn). destruct n; [by subst rest|done].
    - erewrite drop_S in Hr by done. injection Hr as -> -> E2. split; [done|]. rewrite (next_law _ _ Hn).
      destruct (Nat.ltb_spec (S n) (length (it_entries it))); [done|]. rewrite <- E2. by rewrite drop_ge. }
  destruct Eq as [[= -> ->] Eq]. repeat (split; [done|]). destruct back; cbn [negb].
  - intros E. apply (f_equal length) in E. rewrite length_drop in E. apply it_pos_lt in Hn. cbn in E. lia.
  - erewrite take_S_r by done. by rewrite reverse_snoc.
Qed.

Lemma ahead_nil back it : ahead back it = [] -> tidesdb_iter_valid it = false.
Proof.
  unfold ahead. rewrite valid_law. destruct (it_pos it) as [n|] eqn:Hn; [|done]. apply it_pos_lt in Hn as Hlt.
  intros E. apply (f_equal length) in E. destruct back; cbn in E.
  - rewrite length_reverse, length_take in E. lia.
  - rewrite length_drop in E. lia.
Qed.

Lemma ahead_length back it : (length (ahead back it) <= iter_fuel it)%nat.
Proof.
  rewrite it_fuel. unfold ahead. destruct (it_pos it); cbn; [|lia]. destruct back.
  - rewrite length_reverse, length_take. lia.
  - rewrite length_drop. lia.
Qed.

Lemma ahead_seek k it : ahead false (tdb_iter_seek k it) = List.filter (fun e => negb (before k e)) (it_entries it).
Proof.
  unfold ahead. rewrite seek_law, (proj1 (seeks_keep it k)). unfold first_ge.
  destruct (sorted_partition (before k) (it_entries it) (it_sorted it) (before_down k)) as [_ <-].
  destruct (Nat.ltb_spec (length (List.filter (before k) (it_entries it))) (length (it_entries it))); [done|].
  by rewrite drop_ge.
Qed.

Lemma ahead_seek_for_prev k it :
  ahead true (tdb_iter_seek_for_prev k it) = reverse (List.filter (upto k) (it_entries it)).
Proof.
  unfold ahead. rewrite seek_prev_law, (proj2 (seeks_keep it k)). unfold last_le.
  destruct (sorted_partition (upto k) (it_entries it) (it_sorted it) (upto_down k)) as [Ht _].
  destruct (length (List.filter (upto k) (it_entries it))) eqn:E.
  - by apply length_zero_iff_nil in E as ->.
  - by rewrite Ht.
Qed.

Lemma ahead_first it : ahead false (tdb_iter_seek_to_first it) = it_entries it.
Proof.
  unfold ahead. rewrite first_law, (moves_keep it tdb_iter_seek_to_first) by set_solver.
  by destruct (it_entries it).
Qed.

Lemma ahead_last it : ahead true (tdb_iter_seek_to_last it) = reverse (it_entries it).
Proof.
  unfold ahead. rewrite last_law, (moves_keep it tdb_iter_seek_to_last) by set_solver.
  destruct (length (it_entries it)) eqn:E; [by apply length_zero_iff_nil in E as ->|].
  by rewrite take_ge by lia.
Qed.

End Ahead.

(** ** Scans as the server runs them: a first read, then the next ones until an error *)

Section Collect.
Context {St Ob : Type} (observe : St -> Ob) (next : St -> ha_rc * St).

Fixpoint collect_with (fuel : nat) (r : ha_rc * St) : list Ob * ha_rc :=
  match r with
  | (HA_OK, st) =>
    match fuel with
    | O => ([], HA_OK)
    | S fuel => let '(os, rc) := collect_with fuel (next st) in (observe st :: os, rc)
    end
  | (rc, _) => ([], rc)
  end.

Lemma collect_error fuel rc st : rc <> HA_OK -> collect_with fuel (rc, st) = ([], rc).
Proof. destruct fuel, rc; done. Qed.

(** [inv os st]: the scan stands on the first of [os], the others are to come. *)
Lemma collect_all (inv : list Ob -> St -> Prop) :
  (forall o os st, inv (o :: os) st -> observe st = o /\ exists rc st', next st = (rc, st') /\
     match os with [] => rc = HA_ERR_END_OF_FILE | _ => rc = HA_OK /\ inv os st' end) ->
  forall os st fuel, inv os st -> os <> [] -> (length os <= fuel)%nat ->
  collect_with fuel (HA_OK, st) = (os, HA_ERR_END_OF_FILE).
Proof.
  intros Hstep os. induction os as [|o os IH]; intros st fuel Hi Hne Hf; [done|].
  destruct (Hstep _ _ _ Hi) as (<- & rc & st' & Hn & Hrest). destruct fuel as [|fuel]; [cbn in Hf; lia|].
  cbn [collect_with]. rewrite Hn. destruct os as [|o' os].
  - subst rc. by rewrite collect_error.
  - destruct Hrest as [-> Hi']. rewrite (IH st' fuel); [done|done|done|]. cbn in Hf |- *. lia.
Qed.

End Collect.

(** The row a read delivers and its key, for [position]. *)
Definition obs {It Rec : Type} (st : hread It Rec) : bytes * option Rec := (current_pk_buf st, row_buf st).

Definition collect {It Rec : Type} (fuel : nat) (next : hread It Rec -> ha_rc * hread It Rec) (r : ha_rc * hread It Rec)
    : list (bytes * option Rec) * ha_rc := collect_with obs next fuel r.

(** ** The handler *)

Section Scans.
Context {It Rec : Type} `{IterLaws It} `{RowReads Rec}.
Variable sh : read_share.
Variable en : read_env It.
Notation state := (hread It Rec).
Implicit Types st : state.

Definition st_ahead (back : bool) (st : state) : list (bytes * bytes) :=
  match scan_iter st with Some s => ahead back (sl_it s) | None => [] end.

(** What a read leaves as it is. *)
Definition fixed (st : state) :=
  (active_index st, is_pk_ st, idx_pk_exact_done_ st, scan_txn st, scan_cf_ st,
   (pushed_idx_cond_keyno st, in_range_check_pushed_down st, keyread_only_ st, idx_search_comp st),
   (fun s => (it_entries (sl_it s), sl_cf s, sl_txn s, sl_gen s)) <$> scan_iter st).

Definition st_entries (st : state) : option (list (bytes * bytes)) := (fun s => it_entries (sl_it s)) <$> scan_iter st.

Lemma fixed_entries st st' : fixed st' = fixed st -> st_entries st' = st_entries st.
Proof.
  unfold fixed, st_entries. intros Hf. simplify_eq. destruct (scan_iter st'), (scan_iter st); cbn in *; congruence.
Qed.

Lemma fixed_proj st st' : fixed st' = fixed st ->
  active_index st' = active_index st /\ is_pk_ st' = is_pk_ st /\ idx_pk_exact_done_ st' = idx_pk_exact_done_ st /\
  pushed_idx_cond_keyno st' = pushed_idx_cond_keyno st /\ keyread_only_ st' = keyread_only_ st /\
  idx_search_comp st' = idx_search_comp st /\ (is_Some (scan_iter st) -> is_Some (scan_iter st')).
Proof.
  unfold fixed. intros Hf. simplify_eq. repeat (split; [done|]).
  destruct (scan_iter st'), (scan_iter st); cbn in *; first [done|congruence].
Qed.

Lemma move_spec (f : It -> It) st :
  (forall it, it_entries (f it) = it_entries it) ->
  fixed (move f st) = fixed st /\ scan_dir_ (move f st) = scan_dir_ st /\ obs (move f st) = obs st /\
  (forall back, st_ahead back (move f st) = match scan_iter st with Some s => ahead back (f (sl_it s)) | None => [] end).
Proof. intros Hf. unfold move, fixed, obs, st_ahead. destruct (scan_iter st) as [s|] eqn:E; cbn; rewrite ?E, ?Hf; done. Qed.

Lemma move_step back st k v rest : st_ahead back st = (k, v) :: rest ->
  fixed (move (step back) st) = fixed st /\ scan_dir_ (move (step back) st) = scan_dir_ st /\
  st_ahead back (move (step back) st) = rest.
Proof.
  intros Ha. destruct (move_spec (step back) st (step_keeps back)) as (Hf & Hd & _ & Hm). rewrite Hf, Hd, Hm.
  unfold st_ahead in Ha. destruct (scan_iter st) as [s|]; [|done].
  by destruct (ahead_cons _ _ _ _ _ Ha) as (_ & _ & _ & _ & ? & _).
Qed.

Lemma fuel_enough back st : is_Some (scan_iter st) -> (length (st_ahead back st) < fuel_of st)%nat.
Proof. intros [s Hs]. unfold st_ahead, fuel_of. rewrite Hs. pose proof (ahead_length back (sl_it s)). lia. Qed.

(** *** Secondary indexes *)

(** The entries a scan delivers: up to the first foreign one or the end of the range,
    those the pushed condition accepts. *)
Definition visible (pushed : option nat) (i : nat) (same : option bytes) (l : list (bytes * bytes)) : list (bytes * bytes) :=
  List.filter (fun e => match icp_check pushed i e.1 with CHECK_POS => true | _ => false end)
    (take_while (fun e => match same with Some p => has_prefix p e.1 | None => true end &&
                          match icp_check pushed i e.1 with CHECK_OUT_OF_RANGE => false | _ => true end) l).

(** The row of an entry: decoded from the entry, or the row it points to. *)
Definition sec_row (kr : bool) (i : nat) (e : bytes * bytes) : bytes * option Rec :=
  let pk := drop (rs_comp_len sh i) e.1 in
  (pk, Some (match if kr then keyread i e.1 else None with
             | Some r => r
             | None => decode_row (en_get en (build_data_key pk)).2
             end)).

(** Every entry has its row. *)
Definition rows_present (i : nat) (l : list (bytes * bytes)) : Prop :=
  Forall (fun e => (rs_comp_len sh i < length e.1)%nat /\
                   (en_get en (build_data_key (drop (rs_comp_len sh i) e.1))).1 = TDB_SUCCESS) l.

Lemma fetch_present st pk : (en_get en (build_data_key pk)).1 = TDB_SUCCESS ->
  fetch_row_by_pk en pk st = (HA_OK, set_row pk (Some (decode_row (en_get en (build_data_key pk)).2)) st).
Proof. unfold fetch_row_by_pk. destruct (en_get _ _) as [rc v]. cbn. by intros ->. Qed.

Definition view (st : state) := visible (pushed_idx_cond_keyno st) (active_index st).

Lemma view_fixed st st' same l : fixed st' = fixed st -> view st' same l = view st same l.
Proof. intros (Ha & _ & _ & Hp & _)%fixed_proj. unfold view. by rewrite Ha, Hp. Qed.

Lemma sec_loop_spec fuel back nf same st :
  (length (st_ahead back st) < fuel)%nat -> is_Some (scan_iter st) -> rows_present (active_index st) (st_ahead back st) ->
  exists rc reached st', sec_loop sh fuel en back nf same st = (rc, reached, st') /\
    fixed st' = fixed st /\ scan_dir_ st' = scan_dir_ st /\
    match view st same (st_ahead back st) with
    | [] => reached = false /\ (rc = nf \/ rc = HA_ERR_END_OF_FILE)
    | e :: more => reached = true /\ rc = HA_OK /\ obs st' = sec_row (keyread_only_ st) (active_index st) e /\
                   (exists pre, st_ahead back st = pre ++ st_ahead back st') /\
                   (exists rest, st_ahead back st' = e :: rest /\ view st same rest = more)
    end.
Proof.
  revert st. induction fuel as [|fuel IH]; intros st Hf His Hrows; [lia|].
  cbn [sec_loop]. destruct (scan_iter st) as [s|] eqn:Hs; [|by destruct His].
  destruct (st_ahead back st) as [|[k v] rest] eqn:Ha.
  { assert (tidesdb_iter_valid (sl_it s) = false) as ->
      by (apply (ahead_nil back); revert Ha; unfold st_ahead; by rewrite Hs).
    do 3 eexists. split; [done|]. cbn. auto. }
  assert (Hac := Ha). unfold st_ahead in Hac. rewrite Hs in Hac.
  destruct (ahead_cons _ _ _ _ _ Hac) as (-> & -> & _ & _ & Hnext & _). cbn [negb].
  apply List.Forall_cons_iff in Hrows as [[Hlen Hget] Hrows]. cbn [fst] in Hlen, Hget.
  unfold view, visible. cbn [take_while fst].
  destruct (match same with Some p => has_prefix p k | None => true end) eqn:Hsame; cbn [andb].
  2: { assert (match same with Some p => negb (has_prefix p k) | None => false end = true) as ->
         by (destruct same; [by rewrite Hsame|done]).
       do 3 eexists. split; [done|]. cbn. auto. }
  assert (match same with Some p => negb (has_prefix p k) | None => false end = false) as ->
    by (destruct same; [by rewrite Hsame|done]).
  assert (Nat.leb (length k) (rs_comp_len sh (active_index st)) = false) as -> by (apply Nat.leb_gt; lia).
  destruct (icp_check (pushed_idx_cond_keyno st) (active_index st) k) eqn:Hicp; cbn [List.filter fst]; rewrite ?Hicp.
  - (* skipped *)
    destruct (move_step back st k v rest Ha) as (Mf & Md & Ma). pose proof (fixed_proj _ _ Mf) as (Mi & _ & _ & Mp & Mk & _ & Mit).
    change (if back then tdb_iter_prev else tdb_iter_next) with (step (It := It) back).
    destruct (IH (move (step back) st)) as (rc & reached & st' & E & F' & D' & V').
    { rewrite Ma. cbn in Hf. lia. }
    { apply Mit. by rewrite Hs. }
    { by rewrite Ma, Mi. }
    rewrite E. exists rc, reached, st'. split; [done|]. split; [congruence|]. split; [congruence|].
    rewrite Ma, (view_fixed _ _ _ _ Mf) in V'. unfold view, visible in V'.
    destruct (List.filter _ (take_while _ rest)) as [|e more]; [done|].
    destruct V' as (-> & -> & Ho & [pre Hpre] & rest' & Hr & Hv). rewrite Mk, Mi in Ho.
    split; [done|]. split; [done|]. split; [done|]. split; [exists ((k, v) :: pre); by rewrite Hpre|].
    exists rest'. split; [done|]. by rewrite <- Mp, <- Mi.
  - (* delivered *)
    unfold sec_row. cbn [fst].
    destruct (if keyread_only_ st then keyread (active_index st) k else None) eqn:Hkr.
    + do 3 eexists. split; [done|]. repeat (split; [done|]). split; [by exists []|].
      exists rest. split; [exact Ha|done].
    + rewrite fetch_present by done. do 3 eexists. split; [done|]. repeat (split; [done|]). split; [by exists []|].
      exists rest. split; [exact Ha|done].
  - do 3 eexists. split; [done|]. cbn. auto.
Qed.

(** *** The primary key *)

Definition data_rows (l : list (bytes * bytes)) : list (bytes * bytes) := List.filter (fun e => is_data_key e.1) l.
Definition pk_row (e : bytes * bytes) : bytes * option Rec := (drop KEY_NAMESPACE_LEN e.1, Some (decode_row e.2)).

Lemma iter_read_loop_spec fuel st :
  (length (st_ahead false st) < fuel)%nat -> is_Some (scan_iter st) ->
  exists rc st', iter_read_loop fuel st = (rc, st') /\ fixed st' = fixed st /\ scan_dir_ st' = scan_dir_ st /\
    match data_rows (st_ahead false st) with
    | [] => rc = HA_ERR_END_OF_FILE
    | e :: more => rc = HA_OK /\ obs st' = pk_row e /\ exists rest, st_ahead false st' = e :: rest /\ data_rows rest = more
    end.
Proof.
  revert st. induction fuel as [|fuel IH]; intros st Hf His; [lia|].
  cbn [iter_read_loop]. destruct (scan_iter st) as [s|] eqn:Hs; [|by destruct His].
  destruct (st_ahead false st) as [|[k v] rest] eqn:Ha.
  { assert (tidesdb_iter_valid (sl_it s) = false) as ->
      by (apply (ahead_nil false); revert Ha; unfold st_ahead; by rewrite Hs).
    by do 2 eexists. }
  assert (Hac := Ha). unfold st_ahead in Hac. rewrite Hs in Hac.
  destruct (ahead_cons _ _ _ _ _ Hac) as (-> & _ & _ & -> & _ & _).
  unfold data_rows. cbn [List.filter fst]. destruct (is_data_key k) eqn:Hk.
  - do 2 eexists. split; [done|]. repeat (split; [done|]). exists rest. split; [exact Ha|done].
  - destruct (move_step false st k v rest Ha) as (Mf & Md & Ma).
    change (@tdb_iter_next It _) with (step (It := It) false).
    destruct (IH (move (step false) st)) as (rc & st' & E & F' & D' & V').
    { rewrite Ma. cbn in Hf. lia. }
    { apply (fixed_proj _ _ Mf). by rewrite Hs. }
    rewrite E. exists rc, st'. rewrite Ma in V'. split; [done|]. split; [congruence|]. split; [congruence|]. exact V'.
Qed.

Lemma iter_read_here st s k v : scan_iter st = Some s -> tidesdb_iter_valid (sl_it s) = true ->
  tidesdb_iter_key_value (sl_it s) = (TDB_SUCCESS, (k, v)) -> is_data_key k = true ->
  iter_read_current st = (HA_OK, set_row (drop KEY_NAMESPACE_LEN k) (Some (decode_row v)) st).
Proof. intros Hs Hv Hkv Hd. unfold iter_read_current, fuel_of. rewrite Hs. cbn [iter_read_loop]. by rewrite Hs, Hv, Hkv, Hd. Qed.

Lemma skip_meta_back_spec fuel st :
  (length (st_ahead true st) < fuel)%nat -> is_Some (scan_iter st) ->
  exists st', skip_meta_back fuel st = inr st' /\ fixed st' = fixed st /\
    match data_rows (st_ahead true st) with
    | [] => st_ahead true st' = []
    | e :: more => exists rest, st_ahead true st' = e :: rest /\ data_rows rest = more /\ is_data_key e.1 = true
    end.
Proof.
  revert st. induction fuel as [|fuel IH]; intros st Hf His; [lia|].
  cbn [skip_meta_back]. destruct (scan_iter st) as [s|] eqn:Hs; [|by destruct His].
  destruct (st_ahead true st) as [|[k v] rest] eqn:Ha.
  { assert (tidesdb_iter_valid (sl_it s) = false) as ->
      by (apply (ahead_nil true); revert Ha; unfold st_ahead; by rewrite Hs).
    by exists st. }
  assert (Hac := Ha). unfold st_ahead in Hac. rewrite Hs in Hac.
  destruct (ahead_cons _ _ _ _ _ Hac) as (-> & -> & _ & _ & _ & _).
  unfold data_rows. cbn [List.filter fst]. destruct (is_data_key k) eqn:Hk.
  - exists st. split; [done|]. split; [done|]. by exists rest.
  - destruct (move_step true st k v rest Ha) as (Mf & _ & Ma).
    change (@tdb_iter_prev It _) with (step (It := It) true).
    destruct (IH (move (step true) st)) as (st' & E & F' & V').
    { rewrite Ma. cbn in Hf. lia. }
    { apply (fixed_proj _ _ Mf). by rewrite Hs. }
    rewrite E. exists st'. rewrite Ma in V'. split; [done|]. split; [congruence|exact V'].
Qed.

Lemma read_back_pk_spec st : is_Some (scan_iter st) ->
  exists rc st', read_back_pk st = (rc, st') /\ fixed st' = fixed st /\ scan_dir_ st' = DIR_BACKWARD /\
    match data_rows (st_ahead true st) with
    | [] => rc = HA_ERR_END_OF_FILE
    | e :: more => rc = HA_OK /\ obs st' = pk_row e /\ exists rest, st_ahead true st' = e :: rest /\ data_rows rest = more
    end.
Proof.
  intros His. unfold read_back_pk.
  destruct (skip_meta_back_spec _ st (fuel_enough true st His) His) as (st' & -> & F' & V').
  destruct (proj2 (proj2 (proj2 (proj2 (proj2 (proj2 (fixed_proj _ _ F')))))) His) as [s Hs].
  destruct (data_rows (st_ahead true st)) as [|[k v] more].
  - unfold iter_read_current, fuel_of. cbn [set_dir scan_iter]. rewrite Hs. cbn [iter_read_loop set_dir scan_iter]. rewrite Hs.
    assert (tidesdb_iter_valid (sl_it s) = false) as ->
      by (apply (ahead_nil true); revert V'; unfold st_ahead; by rewrite Hs).
    do 2 eexists. split; [done|]. split; [exact F'|done].
  - destruct V' as (rest & Ha & Hm & Hd). assert (Hac := Ha). unfold st_ahead in Hac. rewrite Hs in Hac.
    destruct (ahead_cons _ _ _ _ _ Hac) as (Hv & _ & _ & Hkv & _ & _).
    rewrite (iter_read_here (set_dir DIR_BACKWARD st') s k v) by done.
    do 2 eexists. split; [done|]. split; [exact F'|]. split; [done|]. split; [done|]. split; [done|]. by exists rest.
Qed.

(** A step of a walk on a secondary index: move, and read on. *)
Definition sec_step (back : bool) (same : option bytes) (next : state -> ha_rc * state) (st : state) : Prop :=
  exists df : scan_dir_t -> scan_dir_t, (forall d, d <> DIR_NONE -> df d <> DIR_NONE) /\
  next st = (let '(ret, reached, st') := sec_read sh en back HA_ERR_END_OF_FILE same (move (step back) st) in
             (ret, if reached : bool then set_dir (df (scan_dir_ st')) st' else st')).

Lemma rows_present_suffix i pre l : rows_present i (pre ++ l) -> rows_present i l.
Proof. unfold rows_present. by intros [_ ?]%Forall_app. Qed.

Lemma collect_sec back same next st e rest fuel :
  (forall st', fixed st' = fixed st -> scan_dir_ st' <> DIR_NONE -> sec_step back same next st') ->
  scan_dir_ st <> DIR_NONE -> st_ahead back st = e :: rest -> rows_present (active_index st) (e :: rest) ->
  obs st = sec_row (keyread_only_ st) (active_index st) e -> (S (length (view st same rest)) <= fuel)%nat ->
  collect fuel next (HA_OK, st) = (sec_row (keyread_only_ st) (active_index st) <$> e :: view st same rest, HA_ERR_END_OF_FILE).
Proof.
  intros Hstep Hd Ha Hp Ho Hf. set (F := fixed st) in *.
  set (row := sec_row (keyread_only_ st) (active_index st)).
  apply (collect_all obs next (fun os st' => fixed st' = F /\ scan_dir_ st' <> DIR_NONE /\ exists e rest,
    st_ahead back st' = e :: rest /\ rows_present (active_index st) (e :: rest) /\ obs st' = row e /\
    os = row <$> e :: view st same rest)).
  2: { split; [done|]. split; [done|]. by exists e, rest. }
  2: done.
  2: by rewrite length_fmap.
  clear dependent e rest fuel. clear Hd. intros o os st1 (Hfix & Hd & e & rest & Ha & Hp & Ho & Hos).
  injection Hos as -> ->. split; [done|]. destruct (Hstep st1 Hfix Hd) as (df & Hdf & ->). destruct e as [k v].
  destruct (move_step back st1 k v rest Ha) as (Mf & Md & Ma). pose proof (eq_trans Mf Hfix) as Mf'.
  destruct (fixed_proj _ _ Mf') as (Mi & _ & _ & _ & Mk & _ & _).
  assert (His : is_Some (scan_iter (move (step back) st1))).
  { apply (fixed_proj _ _ Mf). unfold st_ahead in Ha. by destruct (scan_iter st1). }
  destruct (sec_loop_spec _ back HA_ERR_END_OF_FILE same _ (fuel_enough back _ His) His)
    as (rc & reached & st2 & E & F2 & D2 & V).
  { rewrite Ma, Mi. by apply List.Forall_cons_iff in Hp as [_ ?]. }
  unfold sec_read. rewrite E. exists rc. eexists. split; [done|].
  rewrite Ma, (view_fixed _ _ same rest Mf'), Mk, Mi in V. destruct (view st same rest) as [|e more]; cbn.
  { destruct V as [_ [?|?]]; done. }
  destruct V as (-> & -> & Ho2 & [pre Hpre] & rest' & Ha2 & Hv). split; [done|].
  split; [cbn; by rewrite <- Mf', <- F2|]. split; [apply Hdf; congruence|].
  exists e, rest'. split; [exact Ha2|]. rewrite Ha2 in Hpre.
  split; [apply (rows_present_suffix _ pre); rewrite <- Hpre; by apply List.Forall_cons_iff in Hp as [_ ?]|].
  split; [exact Ho2|]. cbn. by rewrite <- Hv, (view_fixed _ _ same rest' Mf').
Qed.

(** A step of a walk along the data. *)
Definition pk_step (back : bool) (next : state -> ha_rc * state) (st : state) : Prop :=
  exists rc st', next st = (rc, st') /\ fixed st' = fixed st /\
    match data_rows (tail (st_ahead back st)) with
    | [] => rc = HA_ERR_END_OF_FILE
    | e :: more => rc = HA_OK /\ scan_dir_ st' <> DIR_NONE /\ obs st' = pk_row e /\
                   exists rest, st_ahead back st' = e :: rest /\ data_rows rest = more
    end.

Lemma collect_pk back next st e rest fuel :
  (forall st', fixed st' = fixed st -> scan_dir_ st' <> DIR_NONE -> st_ahead back st' <> [] -> pk_step back next st') ->
  scan_dir_ st <> DIR_NONE -> st_ahead back st = e :: rest -> obs st = pk_row e -> (S (length (data_rows rest)) <= fuel)%nat ->
  collect fuel next (HA_OK, st) = (pk_row <$> e :: data_rows rest, HA_ERR_END_OF_FILE).
Proof.
  intros Hstep Hd Ha Ho Hf. set (F := fixed st) in *.
  apply (collect_all obs next (fun os st' => fixed st' = F /\ scan_dir_ st' <> DIR_NONE /\ exists e rest,
    st_ahead back st' = e :: rest /\ obs st' = pk_row e /\ os = pk_row <$> e :: data_rows rest)).
  2: { split; [done|]. split; [done|]. by exists e, rest. }
  2: done.
  2: by rewrite length_fmap.
  clear dependent e rest fuel. clear Hd. intros o os st1 (Hfix & Hd & e & rest & Ha & Ho & Hos).
  injection Hos as -> ->. split; [done|].
  destruct (Hstep st1 Hfix Hd) as (rc & st' & -> & F' & V); [by rewrite Ha|].
  exists rc, st'. split; [done|]. rewrite Ha in V. cbn [tail] in V. destruct (data_rows rest) as [|e' more]; [done|].
  destruct V as (-> & Hd' & Ho' & rest' & Ha' & <-). cbn. split; [done|]. split; [congruence|]. split; [done|].
  by exists e', rest'.
Qed.

(** *** The steps *)

Hypothesis Hkilled : en_killed en = false.

Lemma with_iter_some k st : is_Some (scan_iter st) -> with_iter en k st = k st.
Proof. intros [s Hs]. unfold with_iter, ensure_scan_iter. by rewrite Hs. Qed.

Lemma ahead_some back st : st_ahead back st <> [] -> is_Some (scan_iter st).
Proof. unfold st_ahead. destruct (scan_iter st); done. Qed.

Lemma advance_next (f : It -> It) st : scan_dir_ st <> DIR_NONE -> advance_unless_first f st = move f st.
Proof. unfold advance_unless_first. by destruct (scan_dir_ st). Qed.

Lemma move_some (f : It -> It) st : is_Some (scan_iter st) -> is_Some (scan_iter (move f st)).
Proof. intros [s Hs]. unfold move. rewrite Hs. by eexists. Qed.

Lemma move_const (f : It -> It) st : is_pk_ (move f st) = is_pk_ st /\ idx_pk_exact_done_ (move f st) = idx_pk_exact_done_ st.
Proof. unfold move. by destruct (scan_iter st). Qed.

Lemma next_step_sec st : is_pk_ st = false -> idx_pk_exact_done_ st = false -> scan_dir_ st <> DIR_NONE -> is_Some (scan_iter st) ->
  sec_step false None (index_next sh en) st.
Proof.
  intros Hpk Hex Hd His. exists (fun _ => DIR_FORWARD). split; [done|]. unfold index_next.
  rewrite Hkilled, Hex, with_iter_some, advance_next by done. destruct (move_const tdb_iter_next st) as [-> _]. rewrite Hpk.
  unfold dir_if_reached. change (step (It := It) false) with (@tdb_iter_next It _).
  by destruct (sec_read sh en false HA_ERR_END_OF_FILE None _) as [[ret reached] st'].
Qed.

Lemma prev_step_sec st : is_pk_ st = false -> idx_pk_exact_done_ st = false -> is_Some (scan_iter st) ->
  sec_step true None (index_prev sh en) st.
Proof.
  intros Hpk Hex His. exists (fun _ => DIR_BACKWARD). split; [done|]. unfold index_prev.
  rewrite Hkilled, Hex, with_iter_some by done. destruct (move_const tdb_iter_prev st) as [-> _]. rewrite Hpk.
  unfold dir_if_reached. change (step (It := It) true) with (@tdb_iter_prev It _).
  by destruct (sec_read sh en true HA_ERR_END_OF_FILE None _) as [[ret reached] st'].
Qed.

Lemma set_dir_same st : set_dir (scan_dir_ st) st = st.
Proof. by destruct st. Qed.

Lemma next_same_step_sec st : is_pk_ st = false -> sec_step false (Some (idx_search_comp st)) (index_next_same sh en) st.
Proof.
  intros Hpk. exists id. split; [done|]. unfold index_next_same. rewrite Hkilled, Hpk.
  change (step (It := It) false) with (@tdb_iter_next It _).
  destruct (sec_read sh en false HA_ERR_END_OF_FILE (Some _) _) as [[ret reached] st']. cbn.
  destruct reached; [by rewrite set_dir_same|done].
Qed.

Lemma forward_pk_spec d st : is_Some (scan_iter st) ->
  exists rc st', dir_if_ok d (iter_read_current st) = (rc, st') /\ fixed st' = fixed st /\
    match data_rows (st_ahead false st) with
    | [] => rc = HA_ERR_END_OF_FILE
    | e :: more => rc = HA_OK /\ scan_dir_ st' = d /\ obs st' = pk_row e /\
                   exists rest, st_ahead false st' = e :: rest /\ data_rows rest = more
    end.
Proof.
  intros His. unfold iter_read_current.
  destruct (iter_read_loop_spec _ st (fuel_enough false st His) His) as (rc & st' & -> & F' & D' & V).
  unfold dir_if_ok. cbn [fst snd]. destruct (data_rows (st_ahead false st)) as [|e more].
  - subst rc. by do 2 eexists.
  - destruct V as (-> & Ho & Hrest). rewrite bool_decide_true by done. do 2 eexists. split; [done|]. by split.
Qed.

Lemma next_step_pk st : is_pk_ st = true -> idx_pk_exact_done_ st = false -> scan_dir_ st <> DIR_NONE -> st_ahead false st <> [] ->
  pk_step false (index_next sh en) st.
Proof.
  intros Hpk Hex Hd Hne. pose proof (ahead_some _ _ Hne) as His. unfold pk_step, index_next.
  rewrite Hkilled, Hex, with_iter_some, advance_next by done. destruct (move_const tdb_iter_next st) as [-> _]. rewrite Hpk.
  destruct (st_ahead false st) as [|[k v] rest] eqn:Ha; [done|]. cbn [tail].
  destruct (move_step false st k v rest Ha) as (Mf & _ & Ma). cbn [step] in Mf, Ma.
  destruct (forward_pk_spec DIR_FORWARD _ (move_some tdb_iter_next st His)) as (rc & st' & E & F' & V).
  unfold dir_if_ok in E. destruct (iter_read_current _) as [ret st1] eqn:E1. cbn in E. rewrite Ma in V.
  exists ret, (set_dir DIR_FORWARD st1). split; [done|]. case_bool_decide; injection E as <- <-.
  - split; [by rewrite <- Mf, <- F'|]. destruct (data_rows rest); [done|]. destruct V as (-> & _ & ? & ?). by repeat split.
  - split; [by rewrite <- Mf, <- F'|]. destruct (data_rows rest); [done|]. by destruct V as (-> & _).
Qed.

Lemma rnd_step_pk st : scan_dir_ st <> DIR_NONE -> st_ahead false st <> [] -> pk_step false (rnd_next en) st.
Proof.
  intros Hd Hne. pose proof (ahead_some _ _ Hne) as His. unfold pk_step, rnd_next. rewrite Hkilled, advance_next by done.
  destruct (st_ahead false st) as [|[k v] rest] eqn:Ha; [done|]. cbn [tail].
  destruct (move_step false st k v rest Ha) as (Mf & _ & Ma). cbn [step] in Mf, Ma.
  destruct (forward_pk_spec DIR_FORWARD _ (move_some tdb_iter_next st His)) as (rc & st' & -> & F' & V).
  rewrite Ma in V. exists rc, st'. split; [done|]. split; [congruence|]. destruct (data_rows rest); [done|].
  destruct V as (-> & -> & ?). done.
Qed.

Lemma prev_step_pk st : is_pk_ st = true -> idx_pk_exact_done_ st = false -> st_ahead true st <> [] ->
  pk_step true (index_prev sh en) st.
Proof.
  intros Hpk Hex Hne. pose proof (ahead_some _ _ Hne) as His. unfold pk_step, index_prev.
  rewrite Hkilled, Hex, with_iter_some by done. destruct (move_const tdb_iter_prev st) as [-> _]. rewrite Hpk.
  destruct (st_ahead true st) as [|[k v] rest] eqn:Ha; [done|]. cbn [tail].
  destruct (move_step true st k v rest Ha) as (Mf & _ & Ma). cbn [step] in Mf, Ma.
  destruct (read_back_pk_spec _ (move_some tdb_iter_prev st His)) as (rc & st' & -> & F' & D' & V).
  rewrite Ma in V. exists rc, st'. split; [done|]. split; [congruence|]. destruct (data_rows rest); [done|].
  destruct V as (-> & ? & ?). by rewrite D'.
Qed.

(** *** Whole scans *)

(** The handler holds an iterator on the entries [l], or will get one. *)
Definition opens (st : state) (l : list (bytes * bytes)) : Prop :=
  match scan_iter st with
  | Some s => it_entries (sl_it s) = l
  | None => scan_iter_last_err st = None /\ exists t c it,
      scan_txn st = Some t /\ scan_cf_ st = Some c /\ en_iter_new en c = (TDB_SUCCESS, it) /\ it_entries it = l
  end.

Definition params (st : state) :=
  (active_index st, is_pk_ st, idx_pk_exact_done_ st, (pushed_idx_cond_keyno st, keyread_only_ st, idx_search_comp st),
   (scan_dir_ st, current_pk_buf st)).

Lemma with_iter_opens st l : opens st l ->
  exists st2, (forall k, with_iter en k st = k st2) /\ st_entries st2 = Some l /\ params st2 = params st.
Proof.
  unfold opens, with_iter, ensure_scan_iter, st_entries, params. destruct (scan_iter st) as [s|] eqn:Hs.
  - intros <-. exists st. rewrite Hs. done.
  - intros (He & t & c & it & Ht & Hc & Hn & <-). rewrite He, Ht, Hc, Hn. eexists. split; [done|]. done.
Qed.

Lemma entries_some st l : st_entries st = Some l -> is_Some (scan_iter st).
Proof. unfold st_entries. by destruct (scan_iter st). Qed.

Lemma view_length st same l : (length (view st same l) <= length l)%nat.
Proof.
  unfold view, visible. rewrite List.filter_length_le. induction l as [|a l IH]; [done|]. cbn. destruct (_ && _); cbn; lia.
Qed.

Lemma collect_from_sec back same next nf d st (fin : ha_rc * bool * state -> ha_rc * state) fuel :
  nf <> HA_OK -> d <> DIR_NONE -> fin ∈ [dir_if_reached d; dir_if_found d] ->
  (forall st', fixed st' = fixed st -> scan_dir_ st' <> DIR_NONE -> sec_step back same next st') ->
  is_Some (scan_iter st) -> rows_present (active_index st) (st_ahead back st) -> (length (st_ahead back st) <= fuel)%nat ->
  exists rc, collect fuel next (fin (sec_read sh en back nf same st)) =
      (sec_row (keyread_only_ st) (active_index st) <$> view st same (st_ahead back st), rc) /\
    (rc = HA_ERR_END_OF_FILE \/ rc = nf /\ view st same (st_ahead back st) = []).
Proof.
  intros Hnf Hd Hfin Hstep His Hp Hf. unfold sec_read.
  destruct (sec_loop_spec _ back nf same st (fuel_enough back st His) His Hp) as (rc & reached & st' & -> & F' & D' & V).
  pose proof (view_length st same (st_ahead back st)) as Hlen.
  destruct (view st same (st_ahead back st)) as [|e more].
  { destruct V as [-> Hrc]. assert (Hok : rc <> HA_OK) by (destruct Hrc; congruence). exists rc.
    split; [|tauto]. assert (exists x, fin (rc, false, st') = (rc, x)) as [x ->].
    { unfold dir_if_reached, dir_if_found, dir_if_ok in Hfin. cbn in Hfin.
      apply elem_of_cons in Hfin as [->|[->|[]%not_elem_of_nil]%elem_of_cons]; [by eexists|].
      rewrite bool_decide_false by done. by eexists. }
    by apply collect_error. }
  destruct V as (-> & -> & Ho & [pre Hpre] & rest & Ha & Hv). exists HA_ERR_END_OF_FILE. split; [|by left].
  assert (fin (HA_OK, true, st') = (HA_OK, set_dir d st')) as ->.
  { apply elem_of_cons in Hfin as [->|[->|[]%not_elem_of_nil]%elem_of_cons]; done. }
  destruct (fixed_proj _ _ F') as (Fi & _ & _ & _ & Fk & _ & _).
  rewrite (collect_sec back same next (set_dir d st') e rest).
  - cbn [active_index keyread_only_ set_dir]. rewrite Fi, Fk. f_equal. f_equal. f_equal.
    change (view (set_dir d st') same rest) with (view st' same rest). by rewrite (view_fixed _ _ same rest F').
  - intros st2 F2. apply Hstep. by rewrite F2.
  - done.
  - exact Ha.
  - cbn. rewrite Fi. apply (rows_present_suffix _ pre). rewrite Hpre, Ha in Hp. exact Hp.
  - cbn. rewrite Fi, Fk. exact Ho.
  - change (view (set_dir d st') same rest) with (view st' same rest). rewrite (view_fixed _ _ same rest F'), Hv. cbn in Hlen. lia.
Qed.

Lemma data_rows_length l : (length (data_rows l) <= length l)%nat.
Proof. apply List.filter_length_le. Qed.

Lemma collect_from_pk back next r fuel l F :
  (exists rc st', r = (rc, st') /\ fixed st' = F /\
     match data_rows l with
     | [] => rc = HA_ERR_END_OF_FILE
     | e :: more => rc = HA_OK /\ scan_dir_ st' <> DIR_NONE /\ obs st' = pk_row e /\
                    exists rest, st_ahead back st' = e :: rest /\ data_rows rest = more
     end) ->
  (forall st', fixed st' = F -> scan_dir_ st' <> DIR_NONE -> st_ahead back st' <> [] -> pk_step back next st') ->
  (length l <= fuel)%nat -> collect fuel next r = (pk_row <$> data_rows l, HA_ERR_END_OF_FILE).
Proof.
  intros (rc & st' & -> & HF & V) Hstep Hf. pose proof (data_rows_length l) as Hl. destruct (data_rows l) as [|e more].
  { subst rc. by apply collect_error. }
  destruct V as (-> & Hd & Ho & rest & Ha & <-).
  apply (collect_pk back); [intros st2 F2; apply Hstep; congruence|done|done|done|]. cbn in Hl. lia.
Qed.

(** Steps of the walks, for states that agree with a start state. *)
Ltac walk_steps := intros st' F' D'; destruct (fixed_proj _ _ F') as (_ & ? & ? & _ & _ & ? & ?).

(** A kept iterator is one for the family, transaction and generation at hand. *)
Lemma keep_iter_spec c t st : scan_txn st = Some t ->
  keep_iter en c st = set_iter (scan_iter (keep_iter en c st)) st /\
  forall s, scan_iter (keep_iter en c st) = Some s -> scan_iter st = Some s /\ sl_cf s = c /\ sl_txn s = t /\ sl_gen s = en_gen en.
Proof.
  intros Ht. unfold keep_iter. rewrite Ht. destruct (scan_iter st) as [s|] eqn:Hs.
  2: { split; [|intros s; congruence]. rewrite Hs. destruct st. cbn in *. by subst. }
  destruct (_ || _ || _) eqn:Hk; cbn [set_iter scan_iter]; [done|]. split; [destruct st; cbn in *; by subst|].
  intros s' Hs'. rewrite Hs in Hs'. injection Hs' as <-.
  apply orb_false_iff in Hk as [[Hk1 Hk2]%orb_false_iff Hk3]. rewrite negb_false_iff in Hk1, Hk2, Hk3.
  apply bool_decide_eq_true in Hk1, Hk2. apply Z.eqb_eq in Hk3. by injection Hk2 as Hk2.
Qed.

Lemma rnd_init_ok st l :
  en_ensure en = HA_OK ->
  (exists it, en_iter_new en None = (TDB_SUCCESS, it) /\ it_entries it = l) ->
  (forall s, scan_iter st = Some s -> sl_cf s = None -> sl_txn s = en_stmt_txn en -> sl_gen s = en_gen en ->
     it_entries (sl_it s) = l) ->
  exists st1, rnd_init en st = (HA_OK, move (tdb_iter_seek [KEY_NS_DATA]) st1) /\ scan_dir_ st1 = DIR_NONE /\
    st_entries st1 = Some l.
Proof.
  intros Hens (it & Hnew & Hl) Hcache. unfold rnd_init. rewrite Hens, Hnew.
  set (st0 := set_scan _ _ (set_dir _ _)).
  destruct (keep_iter_spec None (en_stmt_txn en) st0 eq_refl) as [Hk Hslot].
  destruct (scan_iter (keep_iter en None st0)) as [s|] eqn:Hs.
  - destruct (Hslot s eq_refl) as (Hs0 & Hc & Ht & Hg). rewrite Hk. eexists. split; [done|]. split; [done|].
    cbn. f_equal. by apply Hcache.
  - rewrite Hk. eexists. split; [done|]. split; [done|]. cbn. by rewrite Hl.
Qed.

Lemma table_scan_all (st : state) (l : list (bytes * bytes)) :
  en_ensure en = HA_OK ->
  (exists it, en_iter_new en None = (TDB_SUCCESS, it) /\ it_entries it = l) ->
  (forall s, scan_iter st = Some s -> sl_cf s = None -> sl_txn s = en_stmt_txn en -> sl_gen s = en_gen en ->
     it_entries (sl_it s) = l) ->
  let '(rc, st1) := rnd_init en st in
  rc = HA_OK /\ collect (length l) (rnd_next en) (rnd_next en st1) = (pk_row <$> data_rows l, HA_ERR_END_OF_FILE).
Proof.
  intros Hens Hnew Hcache. destruct (rnd_init_ok st l Hens Hnew Hcache) as (st1 & -> & Hd & He).
  split; [done|]. pose proof (entries_some _ _ He) as His.
  destruct (move_spec (tdb_iter_seek [KEY_NS_DATA]) st1) as (Mf & Md & _ & Ma); [intros; apply seeks_keep|].
  assert (Hahead : data_rows (st_ahead false (move (tdb_iter_seek [KEY_NS_DATA]) st1)) = data_rows l /\
                   (length (st_ahead false (move (tdb_iter_seek [KEY_NS_DATA]) st1)) <= length l)%nat).
  { rewrite Ma. unfold st_entries in He. destruct (scan_iter st1) as [s|]; [|done]. injection He as <-.
    rewrite ahead_seek. split; [|apply List.filter_length_le]. unfold data_rows. rewrite filter_filter_bool.
    apply List.filter_ext. intros [k v]. cbn. unfold before, is_data_key. cbn. destruct k as [|c k]; [done|]. cbn.
    destruct (Z.compare_spec c KEY_NS_DATA), (Z.eqb_spec c KEY_NS_DATA); try lia; destruct k; done. }
  destruct Hahead as [Hdata Hlen].
  rewrite <- Hdata. unfold rnd_next at 2. rewrite Hkilled. unfold advance_unless_first. rewrite Md, Hd.
  apply (collect_from_pk false _ _ _ _ (fixed (move (tdb_iter_seek [KEY_NS_DATA]) st1))).
  - destruct (forward_pk_spec DIR_FORWARD _ (move_some (tdb_iter_seek [KEY_NS_DATA]) st1 His)) as (rc & st' & E & F' & V).
    exists rc, st'. split; [done|]. split; [done|]. destruct (data_rows _); [done|]. destruct V as (-> & -> & ?). done.
  - intros st' _ D' N'. by apply rnd_step_pk.
  - done.
Qed.

(** C7: the table scan.  After [rnd_init] succeeds on a table whose data family holds
    the entries [l], reading with [rnd_next] until an error delivers every data row
    exactly once, in key order, with its key for [position], and ends with
    HA_ERR_END_OF_FILE; the entries of the meta namespace are not delivered.  A cached
    iterator is reused only if it was made for the data family, the statement's
    transaction and its generation. *)
Theorem table_scan_exact (st : state) (l : list (bytes * bytes)) :
  en_ensure en = HA_OK ->
  (exists it, en_iter_new en None = (TDB_SUCCESS, it) /\ it_entries it = l) ->
  (forall s, scan_iter st = Some s -> sl_cf s = None -> sl_txn s = en_stmt_txn en -> sl_gen s = en_gen en ->
     it_entries (sl_it s) = l) ->
  let '(rc, st1) := rnd_init en st in
  rc = HA_OK /\ collect (length l) (rnd_next en) (rnd_next en st1) = (pk_row <$> data_rows l, HA_ERR_END_OF_FILE).
Proof. apply table_scan_all. Qed.

Lemma params_proj st st' : params st' = params st ->
  active_index st' = active_index st /\ is_pk_ st' = is_pk_ st /\ idx_pk_exact_done_ st' = idx_pk_exact_done_ st /\
  pushed_idx_cond_keyno st' = pushed_idx_cond_keyno st /\ keyread_only_ st' = keyread_only_ st /\
  idx_search_comp st' = idx_search_comp st /\ scan_dir_ st' = scan_dir_ st /\ current_pk_buf st' = current_pk_buf st.
Proof. unfold params. intros Hp. simplify_eq. by repeat split. Qed.

(** A positioning move, seen from the state it starts in. *)
Lemma positioned (f : It -> It) back st l l' :
  (forall it, it_entries (f it) = it_entries it) -> (forall it, it_entries it = l -> ahead back (f it) = l') ->
  st_entries st = Some l ->
  is_Some (scan_iter (move f st)) /\ st_ahead back (move f st) = l' /\ params (move f st) = params st.
Proof.
  intros Hk Ha He. pose proof (entries_some _ _ He) as His. split; [by apply move_some|].
  destruct (move_spec f st Hk) as (_ & _ & _ & ->). unfold st_entries in He. unfold move, params.
  destruct (scan_iter st) as [s|]; [|done]. injection He as <-. split; [by apply Ha|done].
Qed.

(** Without a pushed condition every entry is accepted. *)
Definition icp_unpushed : Prop := forall i k, icp_check (Rec := Rec) None i k = CHECK_POS.

Lemma view_all st l : icp_unpushed -> pushed_idx_cond_keyno st = None -> view st None l = l.
Proof.
  intros Hicp Hp. unfold view, visible. rewrite Hp. cbn [andb]. induction l as [|a l IH]; [done|]. cbn [take_while].
  rewrite Hicp. cbn [List.filter]. by rewrite Hicp, IH.
Qed.

Lemma data_rows_reverse l : data_rows (reverse l) = reverse (data_rows l).
Proof.
  induction l as [|a l IH]; [done|]. rewrite reverse_cons. unfold data_rows in *. rewrite List.filter_app, IH. cbn [List.filter].
  destruct (is_data_key a.1); [by rewrite reverse_cons|by rewrite app_nil_r].
Qed.

Lemma walk_next_sec st : is_Some (scan_iter st) -> is_pk_ st = false -> idx_pk_exact_done_ st = false ->
  forall st', fixed st' = fixed st -> scan_dir_ st' <> DIR_NONE -> sec_step false None (index_next sh en) st'.
Proof. intros His Hpk Hex st' F' D'. destruct (fixed_proj _ _ F') as (_ & ? & ? & _ & _ & _ & Hs). apply next_step_sec; [congruence|congruence|done|auto]. Qed.

Lemma walk_prev_sec st : is_Some (scan_iter st) -> is_pk_ st = false -> idx_pk_exact_done_ st = false ->
  forall st', fixed st' = fixed st -> scan_dir_ st' <> DIR_NONE -> sec_step true None (index_prev sh en) st'.
Proof. intros His Hpk Hex st' F' D'. destruct (fixed_proj _ _ F') as (_ & ? & ? & _ & _ & _ & Hs). apply prev_step_sec; [congruence|congruence|auto]. Qed.

Lemma walk_next_pk st : is_pk_ st = true -> idx_pk_exact_done_ st = false ->
  forall st', fixed st' = fixed st -> scan_dir_ st' <> DIR_NONE -> st_ahead false st' <> [] -> pk_step false (index_next sh en) st'.
Proof. intros Hpk Hex st' F' D' N'. destruct (fixed_proj _ _ F') as (_ & ? & ? & _). apply next_step_pk; congruence. Qed.

Lemma walk_prev_pk st : is_pk_ st = true -> idx_pk_exact_done_ st = false ->
  forall st', fixed st' = fixed st -> scan_dir_ st' <> DIR_NONE -> st_ahead true st' <> [] -> pk_step true (index_prev sh en) st'.
Proof. intros Hpk Hex st' F' D' N'. destruct (fixed_proj _ _ F') as (_ & ? & ? & _). apply prev_step_pk; congruence. Qed.

(** A forward read of the data from where the iterator stands, and the walk after it. *)
Lemma collect_forward_pk st fuel : is_Some (scan_iter st) -> is_pk_ st = true -> idx_pk_exact_done_ st = false ->
  (length (st_ahead false st) <= fuel)%nat ->
  collect fuel (index_next sh en) (dir_if_ok DIR_FORWARD (iter_read_current st)) =
    (pk_row <$> data_rows (st_ahead false st), HA_ERR_END_OF_FILE).
Proof.
  intros His Hpk Hex Hf. apply (collect_from_pk false _ _ _ _ (fixed st)); [|by apply walk_next_pk|done].
  destruct (forward_pk_spec DIR_FORWARD st His) as (rc & st' & E & F' & V). exists rc, st'. split; [done|]. split; [done|].
  destruct (data_rows _); [done|]. destruct V as (-> & -> & ?). done.
Qed.

Lemma collect_backward_pk st fuel : is_Some (scan_iter st) -> is_pk_ st = true -> idx_pk_exact_done_ st = false ->
  (length (st_ahead true st) <= fuel)%nat ->
  collect fuel (index_prev sh en) (read_back_pk st) = (pk_row <$> data_rows (st_ahead true st), HA_ERR_END_OF_FILE).
Proof.
  intros His Hpk Hex Hf. apply (collect_from_pk true _ _ _ _ (fixed st)); [|by apply walk_prev_pk|done].
  destruct (read_back_pk_spec st His) as (rc & st' & E & F' & D' & V). exists rc, st'. split; [done|]. split; [done|].
  destruct (data_rows _); [done|]. destruct V as (-> & ? & ?). by rewrite D'.
Qed.

Lemma seek_data_rows l : data_rows (List.filter (fun e => negb (before [KEY_NS_DATA] e)) l) = data_rows l.
Proof.
  unfold data_rows. rewrite filter_filter_bool. apply List.filter_ext. intros [k v]. cbn. unfold before, is_data_key. cbn.
  destruct k as [|c k]; [done|]. cbn. destruct (Z.compare_spec c KEY_NS_DATA), (Z.eqb_spec c KEY_NS_DATA); try lia; destruct k; done.
Qed.

(** [index_last] on a secondary index reads the last entry without the loop. *)
Lemma last_sec st k v rest : is_Some (scan_iter st) -> st_ahead true st = (k, v) :: rest ->
  rows_present (active_index st) [(k, v)] -> keyread_only_ st = false ->
  exists st', read_last_sec sh en st = (HA_OK, st') /\ fixed st' = fixed st /\ scan_dir_ st' = DIR_BACKWARD /\ st_ahead true st' = (k, v) :: rest /\
    obs st' = sec_row false (active_index st) (k, v).
Proof.
  intros [s Hs] Ha [[Hlen Hget] _]%List.Forall_cons_iff Hkr. assert (Hac := Ha). unfold st_ahead in Hac. rewrite Hs in Hac.
  unfold read_last_sec. rewrite Hs. destruct (ahead_cons _ _ _ _ _ Hac) as (-> & -> & _). cbn [fst] in *.
  assert (Nat.leb (length k) (rs_comp_len sh (active_index st)) = false) as -> by (apply Nat.leb_gt; lia).
  rewrite fetch_present by done. eexists. split; [done|]. split; [done|]. split; [done|]. split; [exact Ha|]. done.
Qed.

(** Both walks along the primary key. *)
Lemma pk_walks st l : opens st l -> is_pk_ st = true ->
  collect (length l) (index_next sh en) (index_first sh en st) = (pk_row <$> data_rows l, HA_ERR_END_OF_FILE) /\
  collect (length l) (index_prev sh en) (index_last sh en st) = (pk_row <$> reverse (data_rows l), HA_ERR_END_OF_FILE).
Proof.
  intros Hop Hpk. destruct (with_iter_opens (set_exact false st) l) as (st2 & Hwi & He & Hpar); [exact Hop|].
  destruct (params_proj _ _ Hpar) as (Pi & Ppk & Pex & Pp & Pk & _ & _ & _). cbn in Pi, Ppk, Pex, Pp, Pk.
  destruct (positioned tdb_iter_seek_to_last true st2 l (reverse l)) as (Il & Al & Pl);
    [intros; apply moves_keep; set_solver|intros ? <-; apply ahead_last|done|].
  destruct (params_proj _ _ Pl) as (Pli & Plpk & Plex & Plp & Plk & _).
  destruct (positioned (tdb_iter_seek [KEY_NS_DATA]) false st2 l (List.filter (fun e => negb (before [KEY_NS_DATA] e)) l))
    as (Is & As & Ps); [intros; apply seeks_keep|intros ? <-; apply ahead_seek|done|].
  destruct (params_proj _ _ Ps) as (_ & Pspk & Psex & _). unfold index_first, index_last. rewrite !Hwi, Plpk, Ppk, Hpk. split.
  - rewrite collect_forward_pk, As, seek_data_rows; [done|done|congruence|congruence|].
    rewrite As. apply List.filter_length_le.
  - rewrite collect_backward_pk, Al, data_rows_reverse; [done|done|congruence|congruence|].
    rewrite Al, length_reverse. lia.
Qed.

Lemma sec_walk_forward st l : opens st l -> is_pk_ st = false -> rows_present (active_index st) l ->
  collect (length l) (index_next sh en) (index_first sh en st) =
    (sec_row (keyread_only_ st) (active_index st) <$> view st None l, HA_ERR_END_OF_FILE).
Proof.
  intros Hop Hpk. destruct (with_iter_opens (set_exact false st) l) as (st2 & Hwi & He & Hpar); [exact Hop|].
  destruct (params_proj _ _ Hpar) as (Pi & Ppk & Pex & Pp & Pk & _ & _ & _). cbn in Pi, Ppk, Pex, Pp, Pk.
  intros Hrows. unfold index_first. rewrite !Hwi, Ppk, Hpk.
  destruct (positioned tdb_iter_seek_to_first false st2 l l) as (Is & As & Ps);
    [intros; apply moves_keep; set_solver|intros ? <-; apply ahead_first|done|].
  destruct (params_proj _ _ Ps) as (Psi & Pspk & Psex & Psp & Psk & _).
  set (st3 := set_dir DIR_NONE (move tdb_iter_seek_to_first st2)).
  unfold index_next at 2. rewrite Hkilled. cbn [st3 set_dir idx_pk_exact_done_]. rewrite Psex, Pex. fold st3.
  rewrite with_iter_some by exact Is. unfold advance_unless_first. cbn [st3 set_dir scan_dir_ is_pk_]. rewrite Pspk, Ppk, Hpk. fold st3.
  destruct (collect_from_sec false None (index_next sh en) HA_ERR_END_OF_FILE DIR_FORWARD st3 (dir_if_reached DIR_FORWARD) (length l))
    as (rc & -> & Hrc); [done|done|set_solver|apply walk_next_sec; cbn; [exact Is|congruence|congruence]|exact Is| | |].
  - change (active_index st3) with (active_index (move tdb_iter_seek_to_first st2)). rewrite Psi, Pi.
    change (st_ahead false st3) with (st_ahead false (move tdb_iter_seek_to_first st2)). by rewrite As.
  - change (st_ahead false st3) with (st_ahead false (move tdb_iter_seek_to_first st2)). by rewrite As.
  - change (st_ahead false st3) with (st_ahead false (move tdb_iter_seek_to_first st2)) in *. rewrite As in *.
    assert (Hv : view st3 None l = view st None l) by (unfold view; cbn; congruence).
    rewrite Hv in *. cbn [keyread_only_ active_index st3 set_dir]. rewrite Psk, Pk, Psi, Pi.
    f_equal. destruct Hrc as [?|[? ?]]; done.
Qed.

Lemma sec_walk_backward st l : opens st l -> is_pk_ st = false -> rows_present (active_index st) l ->
  icp_unpushed -> pushed_idx_cond_keyno st = None -> keyread_only_ st = false ->
  collect (length l) (index_prev sh en) (index_last sh en st) = (sec_row false (active_index st) <$> reverse l, HA_ERR_END_OF_FILE).
Proof.
  intros Hop Hpk. destruct (with_iter_opens (set_exact false st) l) as (st2 & Hwi & He & Hpar); [exact Hop|].
  destruct (params_proj _ _ Hpar) as (Pi & Ppk & Pex & Pp & Pk & _ & _ & _). cbn in Pi, Ppk, Pex, Pp, Pk.
  destruct (positioned tdb_iter_seek_to_last true st2 l (reverse l)) as (Il & Al & Pl);
    [intros; apply moves_keep; set_solver|intros ? <-; apply ahead_last|done|].
  destruct (params_proj _ _ Pl) as (Pli & Plpk & Plex & Plp & Plk & _).
  intros Hrows Hicp Hp Hkr. unfold index_last. rewrite !Hwi, Plpk, Ppk, Hpk. destruct (reverse l) as [|[k v] rest] eqn:Hrev.
  { apply (f_equal length) in Hrev. rewrite length_reverse in Hrev. destruct l; [|done].
    destruct Il as [s Hs]. unfold read_last_sec. rewrite Hs.
    assert (tidesdb_iter_valid (sl_it s) = false) as -> by (apply (ahead_nil true); revert Al; unfold st_ahead; by rewrite Hs).
    done. }
  assert (Hall : rows_present (active_index st) ((k, v) :: rest)) by (rewrite <- Hrev; by apply Forall_reverse).
  destruct (last_sec (move tdb_iter_seek_to_last st2) k v rest Il Al) as (st' & -> & F' & D' & A' & O').
  { rewrite Pli, Pi. apply List.Forall_cons_iff in Hall as [? _]. by apply Forall_singleton. }
  { congruence. }
  destruct (fixed_proj _ _ F') as (Fi & Fpk & Fex & Fp & Fk & _ & Fs).
  assert (E : active_index st' = active_index st) by congruence.
  assert (Ek : keyread_only_ st' = false) by congruence.
  rewrite (collect_sec true None _ st' (k, v) rest).
  - by rewrite E, Ek, view_all by (done || congruence).
  - apply walk_prev_sec; [by apply Fs|congruence|congruence].
  - by rewrite D'.
  - done.
  - by rewrite E.
  - rewrite Ek, E, O'. congruence.
  - rewrite view_all by (done || congruence). apply (f_equal length) in Hrev. rewrite length_reverse in Hrev. cbn in Hrev. lia.
Qed.

(** C8: walks along an index.  On an index whose family holds the entries [l],
    [index_first] and then [index_next] until an error deliver all of them in key order
    and end with HA_ERR_END_OF_FILE, [index_last] and then [index_prev] in reverse
    order.  On the primary key these are the data rows; on a secondary index each entry
    gives its row (decoded from the entry for a covering read), and forward walks
    deliver exactly the entries that a pushed condition accepts, up to the end of its
    range. *)
Theorem index_walk_exact (st : state) (l : list (bytes * bytes)) :
  opens st l ->
  (is_pk_ st = true ->
     collect (length l) (index_next sh en) (index_first sh en st) = (pk_row <$> data_rows l, HA_ERR_END_OF_FILE) /\
     collect (length l) (index_prev sh en) (index_last sh en st) = (pk_row <$> reverse (data_rows l), HA_ERR_END_OF_FILE)) /\
  (is_pk_ st = false -> rows_present (active_index st) l ->
     collect (length l) (index_next sh en) (index_first sh en st) =
       (sec_row (keyread_only_ st) (active_index st) <$> view st None l, HA_ERR_END_OF_FILE) /\
     (icp_unpushed -> pushed_idx_cond_keyno st = None -> keyread_only_ st = false ->
        collect (length l) (index_prev sh en) (index_last sh en st) =
          (sec_row false (active_index st) <$> reverse l, HA_ERR_END_OF_FILE))).
Proof.
  intros Hop. split; [by apply pk_walks|]. intros Hpk Hrows. split; [by apply sec_walk_forward|]. intros. by apply sec_walk_backward.
Qed.

(** *** Lookups and ranges *)

Lemma seek_filter (p : bytes) l : sorted_cf fst l -> Scan.seek fst p l = List.filter (fun e => negb (before p e)) l.
Proof.
  intros Hs. induction Hs as [|a l Hs IH Hall]; [done|]. cbn [Scan.seek List.filter].
  unfold before at 1. destruct (bytes_compare a.1 p) eqn:Hc; cbn [negb]; [|done|].
  all: f_equal; symmetry; rewrite <- (List.filter_ext_in (fun _ => true)); [by rewrite List.filter_true|].
  all: intros b Hb%list_elem_of_In; rewrite List.Forall_forall in Hall; apply list_elem_of_In in Hb; specialize (Hall b Hb).
  all: symmetry; apply negb_true_iff; unfold before; destruct (bytes_compare b.1 p) eqn:E; try done; exfalso.
  - apply bytes_compare_eq in Hc. subst p. unfold bytes_lt in Hall. rewrite bytes_compare_antisym, Hall in E. done.
  - pose proof (bytes_lt_trans _ _ _ Hall E) as Ht. unfold bytes_lt in Ht. congruence.
Qed.

Lemma take_while_length {A} (f : A -> bool) l : (length (take_while f l) <= length l)%nat.
Proof. induction l as [|a l IH]; [done|]. cbn. destruct (f a); cbn; lia. Qed.

Lemma take_while_and {A} (f g : A -> bool) l : take_while (fun a => f a && g a) l = take_while g (take_while f l).
Proof. induction l as [|a l IH]; [done|]. cbn. destruct (f a); cbn; [|done]. destruct (g a); [by rewrite IH|done]. Qed.

(** The entries with a prefix are one stretch. *)
Lemma view_group st p l : sorted_cf fst l ->
  view st (Some p) (List.filter (fun e => negb (before p e)) l) = view st None (with_prefix fst p l).
Proof.
  intros Hs. unfold view, visible. rewrite take_while_and, <- seek_filter by done.
  by rewrite <- (scan_prefix_complete fst p l Hs).
Qed.

Lemma opened_sorted st l : st_entries st = Some l -> sorted_cf fst l.
Proof. unfold st_entries. destruct (scan_iter st); [|done]. intros [= <-]. apply it_sorted. Qed.

Lemma rows_present_filter i (f : bytes * bytes -> bool) l : rows_present i l -> rows_present i (List.filter f l).
Proof. unfold rows_present. rewrite !List.Forall_forall. intros Hall x [Hx _]%List.filter_In. auto. Qed.

(** A read of a secondary index after a positioning move, and the walk after it. *)
Lemma collect_positioned back same next d (f : It -> It) st l l' fuel :
  d <> DIR_NONE -> (forall it, it_entries (f it) = it_entries it) -> (forall it, it_entries it = l -> ahead back (f it) = l') ->
  st_entries st = Some l ->
  (forall st', fixed st' = fixed (move f st) -> scan_dir_ st' <> DIR_NONE -> sec_step back same next st') ->
  rows_present (active_index st) l' -> (length l' <= fuel)%nat ->
  exists rc, collect fuel next (dir_if_found d (sec_read sh en back HA_ERR_KEY_NOT_FOUND same (move f st))) =
      (sec_row (keyread_only_ st) (active_index st) <$> view st same l', rc) /\
    (rc = HA_ERR_END_OF_FILE \/ rc = HA_ERR_KEY_NOT_FOUND /\ view st same l' = []).
Proof.
  intros Hd Hk Ha He Hstep Hp Hf. destruct (positioned f back st l l' Hk Ha He) as (His & Hah & Hpar).
  destruct (params_proj _ _ Hpar) as (Pi & _ & _ & Pp & Pk & _).
  assert (Hv : forall l, view (move f st) same l = view st same l) by (intros; unfold view; congruence).
  destruct (collect_from_sec back same next HA_ERR_KEY_NOT_FOUND d (move f st) (dir_if_found d) fuel) as (rc & E & Hrc);
    [done|done|set_solver|done|done|by rewrite Hah, Pi|by rewrite Hah|].
  exists rc. rewrite E, Hah, Hv, Pi, Pk in *. done.
Qed.

(** Equality lookups on a secondary index. *)
Lemma lookup_sec st l comp : st_entries st = Some l -> is_pk_ st = false -> idx_search_comp st = comp ->
  rows_present (active_index st) l ->
  exists rc, collect (length l) (index_next_same sh en)
      (dir_if_found DIR_FORWARD (sec_read sh en false HA_ERR_KEY_NOT_FOUND (Some comp) (move (tdb_iter_seek comp) st))) =
    (sec_row (keyread_only_ st) (active_index st) <$> view st None (with_prefix fst comp l), rc) /\
    (rc = HA_ERR_END_OF_FILE \/ rc = HA_ERR_KEY_NOT_FOUND /\ view st None (with_prefix fst comp l) = []).
Proof.
  intros He Hpk Hse Hrows. rewrite <- (view_group st comp l (opened_sorted _ _ He)).
  apply (collect_positioned false (Some comp) _ DIR_FORWARD _ st l); [done| | |done| | |].
  - intros; apply seeks_keep.
  - intros ? <-. apply ahead_seek.
  - intros st' F' D'. destruct (fixed_proj _ _ F') as (_ & ? & _ & _ & _ & E & _).
    destruct (move_const (tdb_iter_seek comp) st) as [Hm _].
    assert (idx_search_comp (move (tdb_iter_seek comp) st) = comp) as Hc
      by (unfold move; by destruct (scan_iter st)).
    assert (idx_search_comp st' = comp) as <- by congruence. apply next_same_step_sec. congruence.
  - by apply rows_present_filter.
  - apply List.filter_length_le.
Qed.

(** The data family holds keys of the two namespaces only. *)
Definition namespaced (l : list (bytes * bytes)) : Prop :=
  Forall (fun e => match e.1 with c :: _ => c = KEY_NS_META \/ c = KEY_NS_DATA | [] => False end) l.

Lemma data_key_prefix comp k : has_prefix (build_data_key comp) k = true -> is_data_key k = true.
Proof. intros (k' & -> & _)%has_prefix_cons. done. Qed.

Lemma is_data_key_eq k : is_data_key k = true -> k = KEY_NS_DATA :: drop 1 k.
Proof. destruct k as [|c k]; [done|]. cbn. intros ->%Z.eqb_eq. by rewrite drop_0. Qed.

(** After a data key, the test on the key without its namespace is the test on the key. *)
Lemma same_group comp e rest k v : sorted_cf fst (e :: (k, v) :: rest) ->
  namespaced (e :: (k, v) :: rest) -> is_data_key e.1 = true ->
  has_prefix comp (drop KEY_NAMESPACE_LEN k) && Nat.leb (KEY_NAMESPACE_LEN + length comp) (length k) =
  has_prefix (build_data_key comp) k.
Proof.
  intros Hs Hn Hd. apply is_data_key_eq in Hd.
  apply StronglySorted_inv in Hs as [_ [Hlt _]%List.Forall_cons_iff]. cbn [fst] in Hlt. rewrite Hd in Hlt.
  apply List.Forall_cons_iff in Hn as [_ [Hn _]%List.Forall_cons_iff]. cbn [fst] in Hn. destruct k as [|c k]; [done|].
  assert (c = KEY_NS_DATA) as ->.
  { unfold bytes_lt in Hlt. cbn in Hlt. unfold KEY_NS_META, KEY_NS_DATA in *. destruct Hn as [-> | ->]; done. }
  change (drop KEY_NAMESPACE_LEN (KEY_NS_DATA :: k)) with k.
  change (KEY_NAMESPACE_LEN + length comp)%nat with (S (length comp)). cbn [length Nat.leb].
  apply eq_true_iff_eq. rewrite andb_true_iff. unfold build_data_key. rewrite has_prefix_cons. split.
  - intros [Hp _]. by exists k.
  - intros (k' & [= <-] & Hp). split; [done|]. apply has_prefix_iff in Hp as [r ->]. apply Nat.leb_le. rewrite length_app. lia.
Qed.

(** The lookup stands on [e] of the group, [rest] lies ahead. *)
Record in_group (p : bytes) (os : list (bytes * option Rec)) (e : bytes * bytes) (rest : list (bytes * bytes)) (st : state) : Prop := {
  ig_ahead : st_ahead false st = e :: rest;
  ig_sorted : sorted_cf fst (e :: rest);
  ig_ns : namespaced (e :: rest);
  ig_data : is_data_key e.1 = true;
  ig_obs : obs st = pk_row e;
  ig_os : os = pk_row <$> e :: take_while (fun a => has_prefix p a.1) rest
}.

Lemma next_same_step_pk comp st o os e rest : is_pk_ st = true -> idx_search_comp st = comp ->
  (length comp < rs_comp_len sh (rs_pk_index sh))%nat -> in_group (build_data_key comp) (o :: os) e rest st ->
  exists rc st', index_next_same sh en st = (rc, st') /\
    match os with
    | [] => rc = HA_ERR_END_OF_FILE
    | _ => rc = HA_OK /\ fixed st' = fixed st /\ exists e' rest', in_group (build_data_key comp) os e' rest' st'
    end.
Proof.
  intros Hpk Hse Hlen [A1 S1 N1 D1 O1 Hos]. injection Hos as -> ->. set (p := build_data_key comp).
  unfold index_next_same. rewrite Hkilled, Hpk, Hse, (proj2 (Nat.leb_gt _ _) Hlen).
  destruct e as [k v]. destruct (move_step false st k v rest A1) as (Mf & _ & Ma). cbn [step] in Mf, Ma.
  assert (Hi1 : is_Some (scan_iter (move tdb_iter_next st))) by (apply move_some, (ahead_some false); by rewrite A1).
  destruct Hi1 as [s' Hs']. rewrite Hs'. unfold st_ahead in Ma. rewrite Hs' in Ma.
  destruct (fixed_proj _ _ Mf) as (_ & _ & _ & _ & _ & E6' & _).
  destruct rest as [|[k' v'] rest].
  { rewrite (ahead_nil false (sl_it s')) by done. by do 2 eexists. }
  destruct (ahead_cons _ _ _ _ _ Ma) as (Hv' & Hk' & _ & Hkv' & _ & _).
  rewrite Hv', Hk', E6', Hse, (same_group comp (k, v) rest k' v') by done. cbn [take_while fst]. fold p.
  destruct (has_prefix p k') eqn:Hp'; [|by do 2 eexists].
  rewrite (iter_read_here _ s' k' v' Hs' Hv' Hkv' (data_key_prefix comp _ Hp')).
  unfold dir_if_ok. cbn [fst snd]. rewrite bool_decide_true by done. do 2 eexists. split; [done|]. cbn. split; [done|].
  split; [by rewrite <- Mf|]. exists (k', v'), rest. split; try done.
  - unfold st_ahead. cbn. by rewrite Hs'.
  - by apply StronglySorted_inv in S1 as [? _].
  - by apply List.Forall_cons_iff in N1 as [_ ?].
  - by apply (data_key_prefix comp).
Qed.

Lemma lookup_pk_group st l comp : st_entries st = Some l -> is_pk_ st = true -> idx_search_comp st = comp ->
  (length comp < rs_comp_len sh (rs_pk_index sh))%nat -> namespaced l -> with_prefix fst (build_data_key comp) l <> [] ->
  collect (length l) (index_next_same sh en) (dir_if_ok DIR_FORWARD (iter_read_current (move (tdb_iter_seek (build_data_key comp)) st))) =
    (pk_row <$> with_prefix fst (build_data_key comp) l, HA_ERR_END_OF_FILE).
Proof.
  intros He Hpk Hse Hlen Hns Hne. pose proof (opened_sorted _ _ He) as Hsort. set (p := build_data_key comp) in *.
  destruct (positioned (tdb_iter_seek p) false st l (List.filter (fun e => negb (before p e)) l)) as (His & Ha & Hpar);
    [intros; apply seeks_keep|intros ? <-; apply ahead_seek|done|].
  assert (Hw : with_prefix fst p l = take_while (fun a => has_prefix p a.1) (List.filter (fun e => negb (before p e)) l)).
  { rewrite <- seek_filter by done. symmetry. by apply scan_prefix_complete. }
  assert (Hsub : sorted_cf fst (List.filter (fun e => negb (before p e)) l) /\ namespaced (List.filter (fun e => negb (before p e)) l)).
  { destruct (sorted_partition (before p) l Hsort (before_down p)) as [_ <-]. split.
    - rewrite <- (take_drop (length (List.filter (before p) l)) l) in Hsort. by apply StronglySorted_app_1_r in Hsort.
    - by apply Forall_drop. }
  destruct (params_proj _ _ Hpar) as (_ & Ppk & _ & _ & _ & Pse & _).
  rewrite Hw in *. destruct (List.filter _ l) as [|[k v] rest] eqn:Hf; [done|]. cbn [take_while] in *.
  destruct (has_prefix p (k, v).1) eqn:Hp; [|done]. cbn [fst] in Hp.
  pose proof His as [s Hs]. assert (Hac := Ha). unfold st_ahead in Hac. rewrite Hs in Hac.
  destruct (ahead_cons _ _ _ _ _ Hac) as (Hv & _ & _ & Hkv & _ & _).
  rewrite (iter_read_here _ s k v) by (try done; by apply (data_key_prefix comp)).
  unfold dir_if_ok. cbn [fst snd]. rewrite bool_decide_true by done.
  set (F := fixed (move (tdb_iter_seek p) st)).
  apply (collect_all obs _ (fun os st' => fixed st' = F /\ exists e rest, in_group p os e rest st')).
  - clear dependent k v rest s. intros o os st1 (F1 & e & rest & G1). split; [destruct G1; by simplify_eq/=|].
    destruct (fixed_proj _ _ F1) as (_ & E2 & _ & _ & _ & E6 & _).
    destruct (next_same_step_pk comp st1 o os e rest) as (rc & st' & -> & V); [congruence|congruence|done|done|].
    do 2 eexists. split; [done|]. destruct os; [done|]. destruct V as (-> & F' & V). split; [done|]. split; [congruence|done].
  - split; [done|]. exists (k, v), rest. destruct Hsub. split; try done. by apply (data_key_prefix comp).
  - done.
  - rewrite length_fmap. cbn. pose proof (take_while_length (fun a => has_prefix p a.1) rest).
    pose proof (List.filter_length_le (fun e => negb (before p e)) l) as Hl. rewrite Hf in Hl. cbn in Hl. lia.
Qed.

(** How a lookup or a range ends. *)
Definition ends (rc : ha_rc) (os : list (bytes * option Rec)) : Prop :=
  rc = HA_ERR_END_OF_FILE \/ rc = HA_ERR_KEY_NOT_FOUND /\ os = [].

Lemma read_map_opens comp flag st l : opens st l ->
  exists st2, st_entries st2 = Some l /\ params st2 = params (set_search comp st) /\
    (is_pk_ st = false -> index_read_map sh en comp flag st = read_map_sec sh en comp flag st2) /\
    (is_pk_ st = true -> flag <> HA_READ_KEY_EXACT \/ (length comp < rs_comp_len sh (rs_pk_index sh))%nat ->
     index_read_map sh en comp flag st = read_map_pk sh en comp flag st2).
Proof.
  intros Hop. destruct (with_iter_opens (set_search comp st) l) as (st2 & Hwi & He & Hpar); [exact Hop|].
  pose proof (entries_some _ _ He) as His. exists st2. split; [done|]. split; [done|].
  unfold index_read_map. cbn [set_search is_pk_]. split; intros ->.
  - unfold read_map_sec. by rewrite Hwi, with_iter_some by done.
  - intros Hflag. unfold read_map_pk.
    destruct flag; rewrite ?Hwi, ?with_iter_some by done; try done.
    destruct Hflag as [?|Hlen]; [done|]. by rewrite (proj2 (Nat.leb_gt _ _) Hlen).
Qed.

(** equality lookups.  [index_read_map] with HA_READ_KEY_EXACT and then
    [index_next_same] until an error deliver, on a secondary index, the rows of exactly
    the entries whose key starts with the search key (those a pushed condition accepts),
    in key order; on the primary key, the one row of a complete key or
    HA_ERR_KEY_NOT_FOUND, and for a prefix that some row has exactly the rows with that
    prefix.  A lookup that locks rows returns the error of the lock. *)
Theorem lookup_exact (st : state) (l : list (bytes * bytes)) (comp : bytes) :
  opens st l ->
  (is_pk_ st = false -> rows_present (active_index st) l ->
     let rows := sec_row (keyread_only_ st) (active_index st) <$> view st None (with_prefix fst comp l) in
     exists rc, collect (length l) (index_next_same sh en) (index_read_map sh en comp HA_READ_KEY_EXACT st) = (rows, rc) /\ ends rc rows) /\
  (is_pk_ st = true -> (rs_comp_len sh (rs_pk_index sh) <= length comp)%nat ->
     collect 1 (index_next_same sh en) (index_read_map sh en comp HA_READ_KEY_EXACT st) =
       match match en_lock en with Some lock => lock comp | None => HA_OK end, en_get en (build_data_key comp) with
       | HA_OK, (TDB_SUCCESS, v) => ([(comp, Some (decode_row v))], HA_ERR_END_OF_FILE)
       | HA_OK, (rc, _) => ([], ha_of_rc rc)
       | lrc, _ => ([], lrc)
       end) /\
  (is_pk_ st = true -> (length comp < rs_comp_len sh (rs_pk_index sh))%nat -> namespaced l ->
     with_prefix fst (build_data_key comp) l <> [] ->
     collect (length l) (index_next_same sh en) (index_read_map sh en comp HA_READ_KEY_EXACT st) =
       (pk_row <$> with_prefix fst (build_data_key comp) l, HA_ERR_END_OF_FILE)).
Proof.
  intros Hop. destruct (read_map_opens comp HA_READ_KEY_EXACT st l Hop) as (st2 & He & Hpar & Hsec & Hpk2).
  destruct (params_proj _ _ Hpar) as (Pi & Ppk & _ & Pp & Pk & Pse & _). cbn in Pi, Ppk, Pp, Pk, Pse.
  split_and!.
  - intros Hpk Hrows. rewrite (Hsec Hpk). unfold read_map_sec. rewrite with_iter_some by (by eapply entries_some).
    destruct (lookup_sec st2 l comp) as (rc & E & Hrc); [done|congruence|done|by rewrite Pi|].
    exists rc. cbn [is_backward]. rewrite E. unfold view. rewrite Pi, Pk, Pp. split; [done|]. unfold ends.
    destruct Hrc as [?|[? Hn]]; [by left|right]. split; [done|]. unfold view in Hn. rewrite Pp, Pi in Hn. by rewrite Hn.
  - intros Hpk Hlen. unfold index_read_map. cbn [set_search is_pk_]. rewrite Hpk. unfold read_map_pk.
    rewrite (proj2 (Nat.leb_le _ _) Hlen). destruct (match en_lock en with Some lock => lock comp | None => HA_OK end) eqn:Hlock; try done.
    unfold fetch_row_by_pk. destruct (en_get en (build_data_key comp)) as [rc v].
    destruct rc; try done. rewrite bool_decide_true by done. unfold collect. cbn [collect_with].
    unfold index_next_same. cbn. rewrite Hkilled, Hpk, (proj2 (Nat.leb_le _ _) Hlen). done.
  - intros Hpk Hlen Hns Hne. rewrite (Hpk2 Hpk) by (by right). unfold read_map_pk.
    rewrite (proj2 (Nat.leb_gt _ _) Hlen), with_iter_some by (by eapply entries_some).
    apply lookup_pk_group; [done|congruence|done|done|done|done].
Qed.

(** *** Ranges *)

(** After the group of a key. *)
Definition after (p : bytes) (e : bytes * bytes) : bool := negb (before p e) && negb (has_prefix p e.1).

Lemma skip_group_spec fuel p st : (length (st_ahead false st) < fuel)%nat ->
  sorted_cf fst (st_ahead false st) -> Forall (fun e => before p e = false) (st_ahead false st) ->
  fixed (skip_group fuel p st) = fixed st /\ params (skip_group fuel p st) = params st /\
  st_ahead false (skip_group fuel p st) = List.filter (fun e => negb (has_prefix p e.1)) (st_ahead false st).
Proof.
  revert st. induction fuel as [|fuel IH]; intros st Hf Hs Hall; [lia|]. cbn [skip_group].
  destruct (scan_iter st) as [s|] eqn:Hi.
  2: { unfold st_ahead. by rewrite Hi. }
  destruct (st_ahead false st) as [|[k v] rest] eqn:Ha; assert (Hac := Ha); unfold st_ahead in Hac; rewrite Hi in Hac.
  { rewrite (ahead_nil false) by done. by rewrite Ha. }
  destruct (ahead_cons _ _ _ _ _ Hac) as (-> & -> & _). cbn [List.filter fst].
  apply List.Forall_cons_iff in Hall as [Hk Hall]. apply StronglySorted_inv in Hs as [Hs Hlt].
  destruct (has_prefix p k) eqn:Hp; cbn [negb].
  - destruct (move_step false st k v rest Ha) as (Mf & Md & Ma). cbn [step] in Mf, Md, Ma.
    destruct (IH (move tdb_iter_next st)) as (F' & P' & A'); [rewrite Ma; cbn in Hf; lia|by rewrite Ma..|].
    rewrite F', P', A', Ma, Mf. split; [done|]. split; [|done]. unfold move. by rewrite Hi.
  - split; [done|]. split; [done|]. rewrite Ha. f_equal. symmetry.
    rewrite <- (List.filter_ext_in (fun _ => true)); [by rewrite List.filter_true|].
    intros b Hb. symmetry. apply negb_true_iff, not_true_iff_false. intros Hpb. rewrite List.Forall_forall in Hlt.
    rewrite (has_prefix_between p k b.1) in Hp; [done| |by apply Hlt|done].
    unfold before in Hk. cbn in Hk. by destruct (bytes_compare k p).
Qed.

Lemma filter_all_below p l : Forall (fun e => before p e = false) (List.filter (fun e => negb (before p e)) l).
Proof. rewrite List.Forall_forall. intros e [_ He]%List.filter_In. by apply negb_true_iff. Qed.

Lemma filter_sorted (f : bytes * bytes -> bool) l : sorted_cf fst l -> sorted_cf fst (List.filter f l).
Proof.
  intros Hs. induction Hs as [|a l Hs IH Hall]; [constructor|]. cbn. destruct (f a); [|done]. constructor; [done|].
  rewrite List.Forall_forall in *. intros b [Hb _]%List.filter_In. auto.
Qed.

Lemma replicate_top n d : length d = n -> bytes_ok d -> bytes_compare d (replicate n KEY_INF_HI_BYTE) <> Gt.
Proof.
  revert d. induction n as [|n IH]; intros [|c d] Hl Hok; try done. cbn.
  apply List.Forall_cons_iff in Hok as [Hc Hok]. unfold fits_u8, KEY_INF_HI_BYTE in *.
  destruct (Z.compare_spec c 255); [apply IH; [by injection Hl|done]|done|lia].
Qed.

(** Up to the padded key are the entries whose columns are not above the key. *)
Lemma upto_padded comp n k v : length k = (length comp + n)%nat -> bytes_ok k ->
  upto (comp ++ replicate n KEY_INF_HI_BYTE) (k, v) = match bytes_compare (take (length comp) k) comp with Gt => false | _ => true end.
Proof.
  intros Hl Hok. unfold upto. cbn [fst]. rewrite <- (take_drop (length comp) k) at 1.
  rewrite bytes_compare_blocks by (rewrite length_take; lia).
  destruct (bytes_compare (take (length comp) k) comp); try done.
  pose proof (replicate_top n (drop (length comp) k)) as Ht. rewrite length_drop in Ht.
  destruct (bytes_compare (drop _ k) _); try done. exfalso. apply Ht; [lia|by apply Forall_drop|done].
Qed.

Section Ranges.
Variables (st : state) (l : list (bytes * bytes)).
Hypothesis He : st_entries st = Some l.
Hypothesis Hex : idx_pk_exact_done_ st = false.

Notation rows back l := (sec_row (keyread_only_ st) (active_index st) <$> view st back l).

Lemma range_sec_next comp : is_pk_ st = false -> rows_present (active_index st) l ->
  exists rc, collect (length l) (index_next sh en)
    (dir_if_found DIR_FORWARD (sec_read sh en false HA_ERR_KEY_NOT_FOUND None (move (tdb_iter_seek comp) st))) =
    (rows None (List.filter (fun e => negb (before comp e)) l), rc) /\ ends rc (rows None (List.filter (fun e => negb (before comp e)) l)).
Proof.
  intros Hpk Hrows. destruct (move_const (tdb_iter_seek comp) st) as [Mp Me].
  destruct (collect_positioned false None (index_next sh en) DIR_FORWARD (tdb_iter_seek comp) st l
    (List.filter (fun e => negb (before comp e)) l) (length l)) as (rc & E & Hrc).
  - done.
  - intros; apply seeks_keep.
  - intros ? <-. apply ahead_seek.
  - done.
  - apply walk_next_sec; [by eapply move_some, entries_some|congruence|congruence].
  - by apply rows_present_filter.
  - apply List.filter_length_le.
  - exists rc. split; [done|]. unfold ends. destruct Hrc as [?|[? ->]]; [by left|by right].
Qed.

Lemma range_sec_after comp : is_pk_ st = false -> rows_present (active_index st) l ->
  let st1 := move (tdb_iter_seek comp) st in
  exists rc, collect (length l) (index_next sh en)
    (dir_if_found DIR_FORWARD (sec_read sh en false HA_ERR_KEY_NOT_FOUND None (skip_group (fuel_of st1) comp st1))) =
    (rows None (List.filter (after comp) l), rc) /\ ends rc (rows None (List.filter (after comp) l)).
Proof.
  intros Hpk Hrows st1. destruct (positioned (tdb_iter_seek comp) false st l (List.filter (fun e => negb (before comp e)) l))
    as (His & Ha & Hpar); [intros; apply seeks_keep|intros ? <-; apply ahead_seek|done|]. fold st1 in His, Ha, Hpar.
  destruct (skip_group_spec (fuel_of st1) comp st1) as (F' & P' & A');
    [by apply fuel_enough|rewrite Ha; by eapply filter_sorted, opened_sorted|rewrite Ha; apply filter_all_below|].
  rewrite Ha, filter_filter_bool in A'. set (st2 := skip_group (fuel_of st1) comp st1) in *.
  destruct (params_proj _ _ (eq_trans P' Hpar)) as (Pi & Ppk & Pex & Pp & Pk & _).
  assert (His2 : is_Some (scan_iter st2)) by (by apply (fixed_proj _ _ F')).
  destruct (collect_from_sec false None (index_next sh en) HA_ERR_KEY_NOT_FOUND DIR_FORWARD st2 (dir_if_found DIR_FORWARD) (length l))
    as (rc & E & Hrc).
  - done.
  - done.
  - set_solver.
  - apply walk_next_sec; [done|congruence|congruence].
  - done.
  - rewrite A', Pi. by apply rows_present_filter.
  - rewrite A'. apply List.filter_length_le.
  - exists rc. assert (Hv : forall l, view st2 None l = view st None l) by (intros; unfold view; congruence).
    rewrite E, A', Hv, Pi, Pk in *. split; [done|]. unfold ends. destruct Hrc as [?|[? Hn]]; [by left|right].
    unfold after. by rewrite Hn.
Qed.

Lemma range_sec_prev upper : is_pk_ st = false -> rows_present (active_index st) l ->
  exists rc, collect (length l) (index_prev sh en)
    (dir_if_found DIR_BACKWARD (sec_read sh en true HA_ERR_KEY_NOT_FOUND None (move (tdb_iter_seek_for_prev upper) st))) =
    (rows None (reverse (List.filter (upto upper) l)), rc) /\ ends rc (rows None (reverse (List.filter (upto upper) l))).
Proof.
  intros Hpk Hrows. destruct (move_const (tdb_iter_seek_for_prev upper) st) as [Mp Me].
  destruct (collect_positioned true None (index_prev sh en) DIR_BACKWARD (tdb_iter_seek_for_prev upper) st l
    (reverse (List.filter (upto upper) l)) (length l)) as (rc & E & Hrc).
  - done.
  - intros; apply seeks_keep.
  - intros ? <-. apply ahead_seek_for_prev.
  - done.
  - apply walk_prev_sec; [by eapply move_some, entries_some|congruence|congruence].
  - by apply Forall_reverse, rows_present_filter.
  - rewrite length_reverse. apply List.filter_length_le.
  - exists rc. split; [done|]. unfold ends. destruct Hrc as [?|[? ->]]; [by left|by right].
Qed.

Lemma range_pk_next key : is_pk_ st = true ->
  collect (length l) (index_next sh en) (dir_if_ok DIR_FORWARD (iter_read_current (move (tdb_iter_seek key) st))) =
    (pk_row <$> data_rows (List.filter (fun e => negb (before key e)) l), HA_ERR_END_OF_FILE).
Proof.
  intros Hpk. destruct (move_const (tdb_iter_seek key) st) as [Mp Me].
  destruct (positioned (tdb_iter_seek key) false st l (List.filter (fun e => negb (before key e)) l))
    as (His & Ha & _); [intros; apply seeks_keep|intros ? <-; apply ahead_seek|done|].
  rewrite collect_forward_pk, Ha; [done|done|congruence|congruence|]. rewrite Ha. apply List.filter_length_le.
Qed.

Lemma above_rest key :
  List.filter (fun e => negb (upto key e)) l = List.filter (fun e => negb (upto key e)) (List.filter (fun e => negb (before key e)) l).
Proof.
  rewrite filter_filter_bool. apply List.filter_ext. intros e. unfold before, upto. by destruct (bytes_compare e.1 key).
Qed.

(** The one entry that is neither before nor above a key is the key's. *)
Lemma above_tail key k v rest : sorted_cf fst l -> List.filter (fun e => negb (before key e)) l = (k, v) :: rest ->
  List.filter (fun e => negb (upto key e)) l = if bool_decide (k = key) then rest else (k, v) :: rest.
Proof.
  intros Hs Hf. pose proof (filter_sorted (fun e => negb (before key e)) l Hs) as Hs2. rewrite Hf in Hs2.
  rewrite above_rest, Hf. cbn [List.filter]. apply StronglySorted_inv in Hs2 as [_ Hlt].
  assert (Hrest : bytes_compare k key <> Lt -> List.filter (fun e => negb (upto key e)) rest = rest).
  { intros Hk. rewrite <- (List.filter_ext_in (fun _ => true)); [by rewrite List.filter_true|]. intros b Hb.
    rewrite List.Forall_forall in Hlt. specialize (Hlt b Hb). cbn [fst] in Hlt. unfold upto.
    destruct (bytes_compare b.1 key) eqn:Hc; try done; exfalso; apply Hk.
    - apply bytes_compare_eq in Hc. subst key. exact Hlt.
    - exact (bytes_lt_trans _ _ _ Hlt Hc). }
  assert (Hk : bytes_compare k key <> Lt).
  { assert (In (k, v) (List.filter (fun e => negb (before key e)) l)) as [_ Hb]%List.filter_In by (rewrite Hf; by left).
    unfold before in Hb. cbn in Hb. by destruct (bytes_compare k key). }
  unfold upto at 1. cbn [fst]. destruct (bytes_compare k key) eqn:Hc; cbn [negb]; [|done|].
  - apply bytes_compare_eq in Hc. rewrite bool_decide_true by done. by apply Hrest.
  - rewrite bool_decide_false; [by rewrite Hrest|]. intros ->. by rewrite (proj2 (bytes_compare_eq key key) eq_refl) in Hc.
Qed.

Lemma range_pk_after key : is_pk_ st = true ->
  collect (length l) (index_next sh en)
    (dir_if_ok DIR_FORWARD (iter_read_current (skip_key key tdb_iter_next (move (tdb_iter_seek key) st)))) =
    (pk_row <$> data_rows (List.filter (fun e => negb (upto key e)) l), HA_ERR_END_OF_FILE).
Proof.
  intros Hpk. destruct (positioned (tdb_iter_seek key) false st l (List.filter (fun e => negb (before key e)) l))
    as (His & Ha & Hpar); [intros; apply seeks_keep|intros ? <-; apply ahead_seek|done|].
  set (st1 := move (tdb_iter_seek key) st) in *. destruct (params_proj _ _ Hpar) as (_ & Ppk & Pex & _).
  assert (exists st2, skip_key key tdb_iter_next st1 = st2 /\ is_Some (scan_iter st2) /\ is_pk_ st2 = true /\
    idx_pk_exact_done_ st2 = false /\ st_ahead false st2 = List.filter (fun e => negb (upto key e)) l) as (st2 & -> & I2 & K2 & X2 & A2).
  { pose proof (opened_sorted _ _ He) as Hs. unfold skip_key. destruct His as [s Hi]. rewrite Hi.
    destruct (List.filter (fun e => negb (before key e)) l) as [|[k v] rest] eqn:Hf.
    - assert (Hac := Ha). unfold st_ahead in Hac. rewrite Hi in Hac. unfold on_key. rewrite (ahead_nil false) by done. cbn [andb].
      exists st1. split; [done|]. split; [by rewrite Hi|]. split; [congruence|]. split; [congruence|]. rewrite Ha.
      by rewrite above_rest, Hf.
    - rewrite (above_tail key k v rest Hs Hf). assert (Hac := Ha). unfold st_ahead in Hac. rewrite Hi in Hac.
      unfold on_key. destruct (ahead_cons _ _ _ _ _ Hac) as (-> & -> & _). cbn [andb].
      destruct (bool_decide (k = key)).
      + destruct (move_step false st1 k v rest Ha) as (_ & _ & Ma). cbn [step] in Ma.
        destruct (move_const tdb_iter_next st1) as [Mp Me]. eexists. split; [done|].
        split; [apply move_some; by rewrite Hi|]. split; [congruence|]. split; [congruence|done].
      + exists st1. split; [done|]. split; [by rewrite Hi|]. split; [congruence|]. split; [congruence|done]. }
  rewrite collect_forward_pk, A2; [done|done|done|done|]. rewrite A2. apply List.filter_length_le.
Qed.

Lemma data_above_meta a b : bytes_lt a b -> is_data_key a = true ->
  match b with c :: _ => c = KEY_NS_META \/ c = KEY_NS_DATA | [] => False end -> is_data_key b = true.
Proof.
  intros Hlt Ha%is_data_key_eq Hb. rewrite Ha in Hlt. destruct b as [|c b]; [done|]. unfold bytes_lt in Hlt. cbn in Hlt |- *.
  unfold KEY_NS_META, KEY_NS_DATA in *. by destruct Hb as [-> | ->].
Qed.

(** The last of the entries is a row when any of them is. *)
Lemma last_is_row m k v rest : sorted_cf fst m -> namespaced m -> data_rows m <> [] -> reverse m = (k, v) :: rest -> is_data_key k = true.
Proof.
  intros Hs Hns Hne Hr. apply (f_equal reverse) in Hr. rewrite reverse_involutive, reverse_cons in Hr. rewrite Hr in Hs, Hns, Hne.
  unfold namespaced in Hns. rewrite List.Forall_forall in Hns.
  specialize (Hns (k, v) ltac:(apply in_or_app; right; by left)). cbn [fst] in Hns.
  destruct (data_rows (reverse rest)) as [|d ds] eqn:Hdr.
  - unfold data_rows in Hne, Hdr. rewrite List.filter_app, Hdr in Hne. cbn in Hne. by destruct (is_data_key k).
  - assert (In d (data_rows (reverse rest))) as [Hdin Hdd]%List.filter_In by (rewrite Hdr; by left).
    eapply data_above_meta; [|exact Hdd|done]. clear -Hs Hdin.
    induction (reverse rest) as [|a m IH]; [done|]. apply StronglySorted_inv in Hs as [Hs Hlt]. destruct Hdin as [->|?]; [|auto].
    rewrite List.Forall_forall in Hlt. apply (Hlt (k, v)). apply in_or_app. right. by left.
Qed.

(** Backwards from an iterator behind which [m] lies. *)
Lemma read_back st1 m : is_Some (scan_iter st1) -> is_pk_ st1 = true -> idx_pk_exact_done_ st1 = false ->
  st_ahead true st1 = reverse m -> sorted_cf fst m -> namespaced m -> data_rows m <> [] -> (length m <= length l)%nat ->
  collect (length l) (index_prev sh en) (dir_if_ok DIR_BACKWARD (iter_read_current st1)) = (pk_row <$> reverse (data_rows m), HA_ERR_END_OF_FILE).
Proof.
  intros His Hpk Hx Ha Hs Hns Hne Hlen. rewrite <- data_rows_reverse. destruct (reverse m) as [|[k v] rest] eqn:Hr.
  { apply (f_equal reverse) in Hr. rewrite reverse_involutive in Hr. by rewrite Hr in Hne. }
  pose proof (last_is_row m k v rest Hs Hns Hne Hr) as Hd.
  destruct His as [s Hi]. assert (Hac := Ha). unfold st_ahead in Hac. rewrite Hi in Hac.
  destruct (ahead_cons _ _ _ _ _ Hac) as (Hv & _ & _ & Hkv & _ & _). rewrite (iter_read_here _ s k v) by done.
  unfold dir_if_ok. cbn [fst snd]. rewrite bool_decide_true by done.
  apply (collect_from_pk true _ _ _ _ (fixed st1)); [|by apply walk_prev_pk; congruence|].
  - do 2 eexists. split; [done|]. split; [done|]. unfold data_rows. cbn [List.filter fst]. rewrite Hd. split; [done|].
    split; [done|]. split; [done|]. by exists rest.
  - by rewrite <- Hr, length_reverse.
Qed.

Lemma namespaced_filter f : namespaced l -> namespaced (List.filter f l).
Proof. unfold namespaced. rewrite !List.Forall_forall. intros Hn e [Hin _]%List.filter_In. by apply Hn. Qed.

Lemma range_pk_prev key : is_pk_ st = true -> namespaced l -> data_rows (List.filter (upto key) l) <> [] ->
  collect (length l) (index_prev sh en) (dir_if_ok DIR_BACKWARD (iter_read_current (move (tdb_iter_seek_for_prev key) st))) =
    (pk_row <$> reverse (data_rows (List.filter (upto key) l)), HA_ERR_END_OF_FILE).
Proof.
  intros Hpk Hns Hne. destruct (positioned (tdb_iter_seek_for_prev key) true st l (reverse (List.filter (upto key) l)))
    as (His & Ha & Hpar); [intros; apply seeks_keep|intros ? <-; apply ahead_seek_for_prev|done|].
  destruct (params_proj _ _ Hpar) as (_ & Ppk & Pex & _).
  apply read_back; try congruence; [by eapply filter_sorted, opened_sorted|by apply namespaced_filter|apply List.filter_length_le].
Qed.

(** Without the entry of the key itself. *)
Lemma before_tail key k v rest : sorted_cf fst l -> reverse (List.filter (upto key) l) = (k, v) :: rest ->
  reverse (List.filter (before key) l) = if bool_decide (k = key) then rest else (k, v) :: rest.
Proof.
  intros Hs Hr. assert (Hf : List.filter (before key) l = List.filter (before key) (List.filter (upto key) l)).
  { rewrite filter_filter_bool. apply List.filter_ext. intros e. unfold before, upto. by destruct (bytes_compare e.1 key). }
  apply (f_equal reverse) in Hr. rewrite reverse_involutive, reverse_cons in Hr.
  pose proof (filter_sorted (upto key) l Hs) as Hs2. rewrite Hr in Hs2.
  assert (Hk : upto key (k, v) = true).
  { assert (In (k, v) (List.filter (upto key) l)) as [_ Hb]%List.filter_In by (rewrite Hr; apply in_or_app; right; by left). done. }
  assert (Hrest : List.filter (before key) (reverse rest) = reverse rest).
  { rewrite <- (List.filter_ext_in (fun _ => true)); [by rewrite List.filter_true|]. intros b Hb. symmetry. unfold before.
    assert (Hlt : bytes_lt b.1 k).
    { clear -Hs2 Hb. induction (reverse rest) as [|a m IH]; [done|]. apply StronglySorted_inv in Hs2 as [Hs2 Hlt].
      destruct Hb as [->|Hb]; [|auto]. rewrite List.Forall_forall in Hlt. apply (Hlt (k, v)). apply in_or_app. right. by left. }
    unfold upto in Hk. cbn [fst] in Hk. destruct (bytes_compare k key) eqn:Hc; [|by rewrite (bytes_lt_trans _ _ _ Hlt Hc)|done].
    apply bytes_compare_eq in Hc. subst key. by rewrite Hlt. }
  rewrite Hf, Hr, List.filter_app, Hrest. cbn [List.filter]. unfold before. cbn [fst]. unfold upto in Hk. cbn [fst] in Hk.
  destruct (bytes_compare k key) eqn:Hc; [| |done].
  - apply bytes_compare_eq in Hc. rewrite bool_decide_true by done. by rewrite app_nil_r, reverse_involutive.
  - rewrite bool_decide_false; [by rewrite reverse_app, reverse_involutive|]. intros ->.
    by rewrite (proj2 (bytes_compare_eq key key) eq_refl) in Hc.
Qed.

Lemma range_pk_before key : is_pk_ st = true -> namespaced l -> data_rows (List.filter (before key) l) <> [] ->
  collect (length l) (index_prev sh en)
    (dir_if_ok DIR_BACKWARD (iter_read_current (skip_key key tdb_iter_prev (move (tdb_iter_seek_for_prev key) st)))) =
    (pk_row <$> reverse (data_rows (List.filter (before key) l)), HA_ERR_END_OF_FILE).
Proof.
  intros Hpk Hns Hne. destruct (positioned (tdb_iter_seek_for_prev key) true st l (reverse (List.filter (upto key) l)))
    as (His & Ha & Hpar); [intros; apply seeks_keep|intros ? <-; apply ahead_seek_for_prev|done|].
  set (st1 := move (tdb_iter_seek_for_prev key) st) in *. destruct (params_proj _ _ Hpar) as (_ & Ppk & Pex & _).
  pose proof (opened_sorted _ _ He) as Hs.
  assert (exists st2, skip_key key tdb_iter_prev st1 = st2 /\ is_Some (scan_iter st2) /\ is_pk_ st2 = true /\
    idx_pk_exact_done_ st2 = false /\ st_ahead true st2 = reverse (List.filter (before key) l)) as (st2 & -> & I2 & K2 & X2 & A2).
  { unfold skip_key. destruct His as [s Hi]. rewrite Hi. assert (Hac := Ha). unfold st_ahead in Hac. rewrite Hi in Hac.
    destruct (reverse (List.filter (upto key) l)) as [|[k v] rest] eqn:Hf.
    - exfalso. apply Hne. apply (f_equal reverse) in Hf. rewrite reverse_involutive in Hf.
      assert (List.filter (before key) l = List.filter (before key) (List.filter (upto key) l)) as ->; [|by rewrite Hf].
      rewrite filter_filter_bool. apply List.filter_ext. intros e. unfold before, upto. by destruct (bytes_compare e.1 key).
    - rewrite (before_tail key k v rest Hs Hf). unfold on_key. destruct (ahead_cons _ _ _ _ _ Hac) as (-> & -> & _). cbn [andb].
      destruct (bool_decide (k = key)).
      + destruct (move_step true st1 k v rest Ha) as (_ & _ & Ma). cbn [step] in Ma.
        destruct (move_const tdb_iter_prev st1) as [Mp Me]. eexists. split; [done|].
        split; [apply move_some; by rewrite Hi|]. split; [congruence|]. split; [congruence|done].
      + exists st1. split; [done|]. split; [by rewrite Hi|]. split; [congruence|]. split; [congruence|done]. }
  apply read_back; [done|done|done|done|by apply filter_sorted|by apply namespaced_filter|done|apply List.filter_length_le].
Qed.

(** The last entry up to the padded prefix is one of the group, when the group has any. *)
Lemma group_last p n k v rest : sorted_cf fst l -> Forall (fun e => has_prefix p e.1 = true -> length e.1 = (length p + n)%nat /\ bytes_ok e.1) l ->
  reverse (List.filter (upto (p ++ replicate n KEY_INF_HI_BYTE)) l) = (k, v) :: rest ->
  has_prefix p k = bool_decide (List.filter (fun e => has_prefix p e.1) l <> []).
Proof.
  intros Hs Hlen Hr. set (upper := p ++ replicate n KEY_INF_HI_BYTE) in *.
  apply (f_equal reverse) in Hr. rewrite reverse_involutive, reverse_cons in Hr.
  assert (Hin : In (k, v) l /\ upto upper (k, v) = true).
  { apply List.filter_In. rewrite Hr. apply in_or_app. right. by left. }
  destruct Hin as [Hin Hup]. case_bool_decide as Hg.
  - destruct (List.filter (fun e => has_prefix p e.1) l) as [|[g w] gs] eqn:Eg; [done|].
    assert (Hgin : In (g, w) l /\ has_prefix p g = true) by (apply (List.filter_In (fun e => has_prefix p e.1) (g, w)); rewrite Eg; by left).
    destruct Hgin as [Hgin Hgp]. rewrite List.Forall_forall in Hlen. destruct (Hlen _ Hgin Hgp) as [Hgl Hgok]. cbn [fst] in Hgl, Hgok.
    assert (Hgup : upto upper (g, w) = true).
    { unfold upper. rewrite upto_padded by done. unfold has_prefix in Hgp. apply bool_decide_eq_true in Hgp. rewrite Hgp.
      by rewrite (proj2 (bytes_compare_eq p p) eq_refl). }
    assert (Hgm : In (g, w) (reverse rest ++ [(k, v)])) by (rewrite <- Hr; by apply List.filter_In).
    pose proof (filter_sorted (upto upper) l Hs) as Hs2. rewrite Hr in Hs2.
    assert (Hle : g = k \/ bytes_lt g k).
    { clear -Hs2 Hgm. induction (reverse rest) as [|a m IH]; [destruct Hgm as [[= -> ->]|[]]; by left|].
      apply StronglySorted_inv in Hs2 as [Hs2 Hlt]. destruct Hgm as [->|Hgm]; [|auto]. right. rewrite List.Forall_forall in Hlt.
      apply (Hlt (k, v)). apply in_or_app. right. by left. }
    destruct Hle as [->|Hle]; [done|].
    assert (Hpk : bytes_compare k p <> Lt).
    { intros Hc. pose proof (bytes_lt_trans _ _ _ Hle Hc) as Ht. by apply has_prefix_not_lt in Hgp. }
    unfold upto in Hup. cbn [fst] in Hup. assert (Hpu : has_prefix p upper = true) by (apply has_prefix_iff; by eexists).
    destruct (bytes_compare k upper) eqn:Hc; [apply bytes_compare_eq in Hc; by subst k|by eapply has_prefix_between|done].
  - destruct (has_prefix p k) eqn:Hp; [|done]. exfalso.
    assert (In (k, v) (List.filter (fun e => has_prefix p e.1) l)) as Hx by (by apply List.filter_In). by rewrite Hg in Hx.
Qed.

Lemma range_pk_prefix_last p n : is_pk_ st = true -> namespaced l -> is_data_key p = true ->
  Forall (fun e => has_prefix p e.1 = true -> length e.1 = (length p + n)%nat /\ bytes_ok e.1) l ->
  let m := List.filter (upto (p ++ replicate n KEY_INF_HI_BYTE)) l in
  let st1 := move (tdb_iter_seek_for_prev (p ++ replicate n KEY_INF_HI_BYTE)) st in
  m <> [] ->
  collect (length l) (index_prev sh en)
    (if outside_group p st1 then (HA_ERR_KEY_NOT_FOUND, st1) else dir_if_ok DIR_BACKWARD (iter_read_current st1)) =
  if bool_decide (List.filter (fun e => has_prefix p e.1) l <> []) then (pk_row <$> reverse (data_rows m), HA_ERR_END_OF_FILE)
  else ([], HA_ERR_KEY_NOT_FOUND).
Proof.
  intros Hpk Hns Hdp Hlen m st1 Hm. pose proof (opened_sorted _ _ He) as Hs.
  destruct (positioned (tdb_iter_seek_for_prev (p ++ replicate n KEY_INF_HI_BYTE)) true st l (reverse m))
    as (His & Ha & Hpar); [intros; apply seeks_keep|intros ? <-; apply ahead_seek_for_prev|done|]. fold st1 in His, Ha, Hpar.
  destruct (params_proj _ _ Hpar) as (_ & Ppk & Pex & _). destruct (reverse m) as [|[k v] rest] eqn:Hr.
  { exfalso. apply Hm. apply (f_equal reverse) in Hr. by rewrite reverse_involutive in Hr. }
  rewrite <- (group_last p n k v rest Hs Hlen Hr). unfold outside_group. destruct His as [s Hi]. rewrite Hi.
  assert (Hac := Ha). unfold st_ahead in Hac. rewrite Hi in Hac. destruct (ahead_cons _ _ _ _ _ Hac) as (-> & -> & _). cbn [andb].
  destruct (has_prefix p k) eqn:Hp; cbn [negb]; [|by destruct (length l)].
  apply read_back; [by rewrite Hi|congruence|congruence|by rewrite Ha, <- Hr|by apply filter_sorted|by apply namespaced_filter| |apply List.filter_length_le].
  apply (f_equal reverse) in Hr. rewrite reverse_involutive, reverse_cons in Hr.
  assert (Hd : is_data_key k = true).
  { apply has_prefix_iff in Hp as [r ->]. destruct p as [|c p]; [done|]. exact Hdp. }
  unfold data_rows. rewrite Hr, List.filter_app. cbn [List.filter fst]. rewrite Hd. by destruct (List.filter _ (reverse rest)).
Qed.

End Ranges.

(** The flags that ask for the rows up to a key, backwards. *)
Definition or_prev (flag : find_flag) : bool :=
  match flag with HA_READ_KEY_OR_PREV | HA_READ_PREFIX_LAST_OR_PREV => true | _ => false end.

(** The columns of the entry are not above the key. *)
Definition cols_upto (comp : bytes) (e : bytes * bytes) : bool :=
  match bytes_compare (take (length comp) e.1) comp with Gt => false | _ => true end.


End Scans.

(** ** The iterator of a scan is the current one *)

Section Reuse.
Context {It Rec : Type} `{IterOps It} `{RowReads Rec}.
Variable sh : read_share.
Notation state := (hread It Rec).

Inductive read_call :=
| call_read_map (comp : bytes) (flag : find_flag) | call_next | call_prev | call_first | call_last | call_next_same.

Definition run_call (en : read_env It) (c : read_call) (st : state) : ha_rc * state :=
  match c with
  | call_read_map comp flag => index_read_map sh en comp flag st
  | call_next => index_next sh en st
  | call_prev => index_prev sh en st
  | call_first => index_first sh en st
  | call_last => index_last sh en st
  | call_next_same => index_next_same sh en st
  end.

(** The calls of a scan; the environments are those of one transaction and generation. *)
Inductive scan_from (t g : Z) (st : state) : state -> Prop :=
| scan_start : scan_from t g st st
| scan_call st1 en c rc st2 : scan_from t g st st1 -> en_gen en = g -> run_call en c st1 = (rc, st2) -> scan_from t g st st2.

Definition tags (st : state) := (scan_txn st, scan_cf_ st, (fun s => (sl_cf s, sl_txn s, sl_gen s)) <$> scan_iter st).

Definition iter_matches (c : cf_id) (t g : Z) (st : state) : Prop :=
  scan_txn st = Some t /\ scan_cf_ st = Some c /\
  forall s, scan_iter st = Some s -> sl_cf s = c /\ sl_txn s = t /\ sl_gen s = g.

Lemma tags_matches c t g st st' : tags st' = tags st -> iter_matches c t g st -> iter_matches c t g st'.
Proof.
  intros Ht (H1 & H2 & H3). apply pair_equal_spec in Ht as [[Ht Hc]%pair_equal_spec Hi].
  split; [congruence|]. split; [congruence|]. intros s Hs. rewrite Hs in Hi.
  destruct (scan_iter st) as [s0|]; [|done]. cbn in Hi. injection Hi as -> -> ->. by apply H3.
Qed.

Lemma tags_move (f : It -> It) st : tags (move f st) = tags st.
Proof. unfold move, tags. destruct (scan_iter st) as [s|] eqn:E; [done|by rewrite E]. Qed.

Lemma tags_fetch en pk st : tags (fetch_row_by_pk en pk st).2 = tags st.
Proof. unfold fetch_row_by_pk. destruct (en_get _ _) as [[] ?]; done. Qed.

Lemma tags_read_loop fuel st : tags (iter_read_loop fuel st).2 = tags st.
Proof.
  revert st. induction fuel as [|fuel IH]; intros st; cbn; [done|]. destruct (scan_iter st) as [s|]; [|done].
  destruct (tidesdb_iter_valid _); [|done]. destruct (tidesdb_iter_key_value _) as [[] [k v]]; try done.
  destruct (is_data_key k); [done|]. by rewrite IH, tags_move.
Qed.

Lemma tags_sec_loop fuel en back nf same st : tags (sec_loop sh fuel en back nf same st).2 = tags st.
Proof.
  revert st. induction fuel as [|fuel IH]; intros st; cbn; [done|]. destruct (scan_iter st) as [s|]; [|done].
  destruct (tidesdb_iter_valid _); cbn; [|done]. destruct (tidesdb_iter_key _) as [[] k]; try done.
  destruct (match same with Some p => _ | None => _ end); [done|]. destruct (Nat.leb _ _); [done|].
  destruct (icp_check _ _ _); [by rewrite IH; apply tags_move| |done].
  destruct (if keyread_only_ st then _ else _); [done|].
  pose proof (tags_fetch en (drop (rs_comp_len sh (active_index st)) k) st) as Hf.
  by destruct (fetch_row_by_pk _ _ _) as [ret st'].
Qed.

Lemma tags_skip_group fuel p st : tags (skip_group fuel p st) = tags st.
Proof.
  revert st. induction fuel as [|fuel IH]; intros st; cbn; [done|]. destruct (scan_iter st) as [s|]; [|done].
  destruct (tidesdb_iter_valid _); [|done]. destruct (tidesdb_iter_key _) as [[] k]; try done.
  destruct (has_prefix p k); [|done]. by rewrite IH, tags_move.
Qed.

Lemma tags_skip_key k f st : tags (skip_key k f st) = tags st.
Proof. unfold skip_key. destruct (scan_iter st); [|done]. destruct (on_key _ _); [apply tags_move|done]. Qed.

Lemma tags_dir_if_ok d (r : ha_rc * state) : tags (dir_if_ok d r).2 = tags r.2.
Proof. unfold dir_if_ok. by case_bool_decide. Qed.

Lemma tags_dir_if_found d (r : ha_rc * bool * state) : tags (dir_if_found d r).2 = tags r.2.
Proof. destruct r as [[rc b] st]. apply tags_dir_if_ok. Qed.

Lemma tags_dir_if_reached d (r : ha_rc * bool * state) : tags (dir_if_reached d r).2 = tags r.2.
Proof. by destruct r as [[rc []] st]. Qed.

Lemma tags_skip_meta fuel st st' : skip_meta_back fuel st = inr st' -> tags st' = tags st.
Proof.
  revert st. induction fuel as [|fuel IH]; intros st; cbn; [by intros [= ->]|]. destruct (scan_iter st) as [s|]; [|by intros [= ->]].
  destruct (tidesdb_iter_valid _); [|by intros [= ->]]. destruct (tidesdb_iter_key _) as [[] k]; try done.
  destruct (is_data_key k); [by intros [= ->]|]. intros E. by rewrite (IH _ E), tags_move.
Qed.

Lemma tags_read_back st : tags (read_back_pk st).2 = tags st.
Proof.
  unfold read_back_pk. destruct (skip_meta_back _ st) eqn:E; [done|]. unfold iter_read_current. rewrite tags_read_loop.
  by apply tags_skip_meta in E.
Qed.

Lemma tags_advance (f : It -> It) st : tags (advance_unless_first f st) = tags st.
Proof. unfold advance_unless_first. destruct (scan_dir_ st); [done|apply tags_move..]. Qed.

Lemma tags_set_dir d (st : state) : tags (set_dir d st) = tags st.
Proof. done. Qed.

(** An iterator that is made is made for the scan's family and transaction. *)
Lemma with_iter_matches en k c t g st : en_gen en = g -> iter_matches c t g st ->
  (forall st, iter_matches c t g st -> iter_matches c t g (k st).2) -> iter_matches c t g (with_iter en k st).2.
Proof.
  intros Hg Hm Hk. unfold with_iter.
  assert (Hen : iter_matches c t g (ensure_scan_iter en st).2).
  { unfold ensure_scan_iter. destruct (scan_iter st) as [s|] eqn:Hs; [done|]. destruct Hm as (Ht & Hc & _).
    assert (Hnew : iter_matches c t g st) by (by split_and!; [..|intros s; rewrite Hs]).
    rewrite Ht, Hc. destruct (en_iter_new en c) as [rc it].
    assert (Hfresh : iter_matches c t g (match rc with
      | TDB_SUCCESS => (HA_OK, set_err None (set_iter (Some (mk_slot it c t (en_gen en))) st))
      | _ => (ha_of_rc rc, set_err (Some (ha_of_rc rc, Some c, Some t)) st) end).2).
    { destruct rc; try (eapply tags_matches; [|exact Hnew]; done). split; [done|]. split; [done|]. by intros s [= <-]. }
    destruct (scan_iter_last_err st) as [[[err c'] t']|]; [|exact Hfresh]. case_bool_decide; [done|exact Hfresh]. }
  destruct (ensure_scan_iter en st) as [[] st']; cbn in *; auto.
Qed.

#[local] Hint Rewrite tags_move tags_fetch tags_read_loop tags_sec_loop tags_skip_group tags_skip_key tags_dir_if_ok
  tags_dir_if_found tags_dir_if_reached tags_read_back tags_advance tags_set_dir : tags.

(** A call that only moves the iterator and reads. *)
Ltac by_tags := intros; eapply tags_matches; [|eassumption]; unfold iter_read_current, sec_read; cbn [snd]; autorewrite with tags; done.

Lemma read_matches_next en c t g st : en_gen en = g -> iter_matches c t g st -> iter_matches c t g (index_next sh en st).2.
Proof.
  intros Hg Hm. unfold index_next. destruct (en_killed en); [done|].
  assert (Hread : forall st, iter_matches c t g st -> iter_matches c t g
    (if is_pk_ st then let '(ret, st) := iter_read_current st in (ret, set_dir DIR_FORWARD st)
     else dir_if_reached DIR_FORWARD (sec_read sh en false HA_ERR_END_OF_FILE None st)).2).
  { intros s Hs. destruct (is_pk_ s); [|by_tags]. eapply tags_matches; [|exact Hs].
    pose proof (tags_read_loop (fuel_of s) s) as Ht. unfold iter_read_current. by destruct (iter_read_loop _ s). }
  destruct (idx_pk_exact_done_ st).
  - apply with_iter_matches; [done|exact Hm|]. intros s Hs. apply Hread. eapply tags_matches; [|exact Hs].
    destruct (scan_iter (move _ s)); [|by rewrite tags_move]. destruct (tidesdb_iter_valid _); by rewrite ?tags_move.
  - apply with_iter_matches; [done|exact Hm|]. intros s Hs. apply Hread. by_tags.
Qed.

Lemma read_matches en call c t g st : en_gen en = g -> iter_matches c t g st -> iter_matches c t g (run_call en call st).2.
Proof.
  intros Hg Hm. destruct call as [comp flag| | | | |]; cbn [run_call].
  - unfold index_read_map. assert (Hs0 : iter_matches c t g (set_search comp st)) by exact Hm.
    destruct (is_pk_ _).
    + unfold read_map_pk. destruct flag; try (apply with_iter_matches; [done..|]; intros s Hs; cbn beta zeta).
      * destruct (Nat.leb _ _); [|apply with_iter_matches; [done..|]; by_tags].
        destruct (match en_lock en with Some lock => lock comp | None => HA_OK end); try done.
        eapply tags_matches; [|exact Hs0]. pose proof (tags_fetch en comp (set_search comp st)) as Ht.
        destruct (fetch_row_by_pk _ _ _) as [ret st']. cbn in *. by case_bool_decide.
      * by_tags.
      * destruct (Nat.ltb _ _); by_tags.
      * by_tags.
      * destruct (Nat.ltb _ _); by_tags.
      * by_tags.
      * destruct (Nat.ltb _ _); [|by_tags]. destruct (outside_group _ _); by_tags.
      * destruct (Nat.ltb _ _); by_tags.
    + unfold read_map_sec. apply with_iter_matches; [done..|]. intros s Hs. destruct flag; by_tags.
  - by apply read_matches_next.
  - unfold index_prev. destruct (en_killed en); [done|].
    destruct (idx_pk_exact_done_ st); apply with_iter_matches; try done; intros s Hs; destruct (is_pk_ _); by_tags.
  - unfold index_first. apply with_iter_matches; [done|exact Hm|]. intros s Hs. destruct (is_pk_ s); [by_tags|].
    apply read_matches_next; [done|]. eapply tags_matches; [|exact Hs]. apply tags_move.
  - unfold index_last. apply with_iter_matches; [done|exact Hm|]. intros s Hs. destruct (is_pk_ _); [by_tags|].
    unfold read_last_sec. destruct (scan_iter (move _ s)) as [sl|]; [|by_tags]. destruct (tidesdb_iter_valid _); [|by_tags].
    destruct (tidesdb_iter_key _) as [[] ik]; try by_tags. destruct (Nat.leb _ _); by_tags.
  - unfold index_next_same. destruct (en_killed en); [done|]. destruct (is_pk_ st).
    + destruct (Nat.leb _ _); [done|]. destruct (scan_iter (move _ st)) as [sl|]; [|done].
      destruct (tidesdb_iter_valid _); [|by_tags]. destruct (tidesdb_iter_key _) as [[] ik]; try by_tags.
      destruct (_ && _); by_tags.
    + eapply tags_matches; [|exact Hm].
      pose proof (tags_sec_loop (fuel_of (move tdb_iter_next st)) en false HA_ERR_END_OF_FILE (Some (idx_search_comp st)) (move tdb_iter_next st)) as Ht.
      unfold sec_read. destruct (sec_loop _ _ _ _ _ _ _) as [[ret reached] st']. cbn in *. by rewrite Ht, tags_move.
Qed.

(** iterators are never stale.  When [index_init] succeeds, whatever iterator the
    handler had cached before, and whatever calls of the scan follow, in whatever order
    and with whatever the engine returns, the iterator the handler holds is one of the
    column family of that index, of the statement's transaction and of its generation. *)
Theorem scan_iterator_current en i (st st1 st2 : state) :
  index_init sh en i st = (HA_OK, st1) -> scan_from (en_stmt_txn en) (en_gen en) st1 st2 ->
  iter_matches (if rs_has_user_pk sh && Nat.eqb i (rs_pk_index sh) then None else Some i) (en_stmt_txn en) (en_gen en) st2.
Proof.
  intros Hinit Hscan. induction Hscan as [|st1' en' c rc st2 Hs IH Hg Hrun].
  - unfold index_init in Hinit. destruct (en_ensure en); try done. set (pk := rs_has_user_pk sh && _) in *.
    destruct (pk || _); [|done]. injection Hinit as <-.
    set (st0 := set_scan (Some (en_stmt_txn en)) (Some (if pk then None else Some i)) _).
    destruct (keep_iter_spec en (if pk then None else Some i) (en_stmt_txn en) st0 eq_refl) as [-> Hslot].
    split; [done|]. split; [done|]. intros s Hs. cbn in Hs. by destruct (Hslot s Hs) as (_ & ?).
  - pose proof (read_matches en' c _ _ _ st1' Hg IH) as Hm. by rewrite Hrun in Hm.
Qed.

End Reuse.
