(* ===== verification/ReadsExamples.v ===== *)
(** * A table to read: instances and examples of the scans

    A column family as a sorted list is an iterator of the interface, which shows that
    its laws can be had; a small table then instantiates the theorems on the scans, and
    the flags whose result is not the row asked for are shown on it. *)

From Stdlib Require Import ZArith Lia Sorting.Sorted.
From stdpp Require Import base tactics list numbers sets sorting.
From S2P Require Import Prelude Errors KeyCodec Scan Reads ReadsProof.

(** ** A sorted list as an iterator *)

Fixpoint sortedb (l : list (bytes * bytes)) : bool :=
  match l with
  | a :: (b :: _) as rest => match bytes_compare a.1 b.1 with Lt => sortedb rest | _ => false end
  | _ => true
  end.

Lemma sortedb_ok l : sortedb l = true -> sorted_cf fst l.
Proof.
  intros Hs. apply Sorted_StronglySorted; [intros ???; apply bytes_lt_trans|].
  induction l as [|a [|b l] IH]; [by repeat constructor..|]. cbn in Hs. destruct (bytes_compare a.1 b.1) eqn:E; try done.
  constructor; [by apply IH|]. by constructor.
Qed.

Record list_iter := mk_li { li_list : list (bytes * bytes); li_at : option nat; li_sorted : sortedb li_list = true }.

Definition li_pos (it : list_iter) : option nat :=
  match li_at it with Some n => if Nat.ltb n (length (li_list it)) then Some n else None | None => None end.

Definition li_move (f : list (bytes * bytes) -> option nat -> option nat) (it : list_iter) : list_iter :=
  mk_li (li_list it) (f (li_list it) (li_pos it)) (li_sorted it).

Definition li_entry (it : list_iter) : tdb_rc * (bytes * bytes) :=
  match n ← li_pos it; li_list it !! n with Some e => (TDB_SUCCESS, e) | None => (TDB_ERR_INVALID_ARGS, ([], [])) end.

#[export] Instance list_iter_ops : IterOps list_iter := {
  tidesdb_iter_valid it := match li_pos it with Some _ => true | None => false end;
  tidesdb_iter_key it := ((li_entry it).1, (li_entry it).2.1);
  tidesdb_iter_value it := ((li_entry it).1, (li_entry it).2.2);
  tidesdb_iter_key_value it := li_entry it;
  tdb_iter_next := li_move (fun _ p => S <$> p);
  tdb_iter_prev := li_move (fun _ p => match p with Some (S n) => Some n | _ => None end);
  tdb_iter_seek k := li_move (fun l _ => first_ge k l);
  tdb_iter_seek_for_prev k := li_move (fun l _ => last_le k l);
  tdb_iter_seek_to_first := li_move (fun _ _ => Some O);
  tdb_iter_seek_to_last := li_move (fun l _ => match length l with O => None | S n => Some n end);
  iter_fuel it := length (li_list it)
}.

Lemma li_pos_some it n : li_pos it = Some n -> (n < length (li_list it))%nat.
Proof. unfold li_pos. destruct (li_at it); [|done]. destruct (Nat.ltb_spec n0 (length (li_list it))); [|done]. by intros [= <-]. Qed.

Lemma filter_length_lt (f : bytes * bytes -> bool) l n : length (List.filter f l) = S n -> (n < length l)%nat.
Proof. pose proof (List.filter_length_le f l). lia. Qed.

#[export] Instance list_iter_laws : IterLaws list_iter.
Proof.
  refine {| it_entries := li_list; it_pos := li_pos |}.
  - intros it. apply sortedb_ok, li_sorted.
  - exact li_pos_some.
  - done.
  - done.
  - intros it n k v Hp He. cbn. unfold li_entry. rewrite Hp. cbn. by rewrite He.
  - intros it f Hf. set_unfold in Hf. destruct_or! Hf; by subst f.
  - done.
  - intros it n Hn. change (li_pos (li_move (fun _ p => S <$> p) it) = if Nat.ltb (S n) (length (li_list it)) then Some (S n) else None).
    unfold li_move. rewrite Hn. done.
  - intros it n Hn. change (li_pos (li_move (fun _ p => match p with Some (S n) => Some n | _ => None end) it) = match n with O => None | S n => Some n end).
    unfold li_move. rewrite Hn. apply li_pos_some in Hn. destruct n as [|n]; [done|]. unfold li_pos. cbn [li_at li_list].
    by rewrite (proj2 (Nat.ltb_lt n _)) by lia.
  - intros it k. cbn [tdb_iter_seek list_iter_ops]. unfold li_pos, li_move, first_ge. cbn [li_at li_list]. destruct (Nat.ltb _ _) eqn:E; [|done]. by rewrite E.
  - intros it k. cbn [tdb_iter_seek_for_prev list_iter_ops]. unfold li_pos, li_move, last_le. cbn [li_at li_list]. destruct (length (List.filter _ _)) eqn:E; [done|].
    by rewrite (proj2 (Nat.ltb_lt n _)) by (by eapply filter_length_lt).
  - intros it. cbn. unfold li_pos. cbn. by destruct (li_list it).
  - intros it. cbn [tdb_iter_seek_to_last list_iter_ops]. unfold li_pos, li_move. cbn [li_at li_list].
    destruct (length (li_list it)) eqn:E; [done|]. by rewrite (proj2 (Nat.ltb_lt n _)) by lia.
Defined.

(** ** A table

    Rows 1, 2 and 3 with one column each, indexed by it; the data family also holds an
    entry of the meta namespace. *)

Definition demo_data : list (bytes * bytes) := [([0; 7], [9]); ([1; 1], [5]); ([1; 2], [6]); ([1; 3], [5])].
Definition demo_index : list (bytes * bytes) := [([5; 1], [0]); ([5; 3], [0]); ([6; 2], [0])].

#[export] Instance demo_reads : RowReads bytes := {
  decode_row v := v;
  keyread _ _ := None;
  icp_check pushed i k := if bool_decide (pushed = Some i) then if bool_decide (take 1 k = [5]) then CHECK_POS else CHECK_NEG else CHECK_POS
}.

Definition demo_iter (l : list (bytes * bytes)) (H : sortedb l = true) : list_iter := mk_li l None H.
Definition iter_on (data index : list_iter) (c : cf_id) : tdb_rc * list_iter :=
  match c with None => (TDB_SUCCESS, data) | Some _ => (TDB_SUCCESS, index) end.
Definition get_from (l : list (bytes * bytes)) (k : bytes) : tdb_rc * bytes :=
  match List.find (fun e => bool_decide (e.1 = k)) l with Some e => (TDB_SUCCESS, e.2) | None => (TDB_ERR_NOT_FOUND, []) end.

Definition demo_env (data index : list (bytes * bytes)) (H1 : sortedb data = true) (H2 : sortedb index = true) : read_env list_iter :=
  mk_renv false HA_OK 70 1 (iter_on (demo_iter data H1) (demo_iter index H2)) (get_from data) None.

Definition demo_share (pk_len : nat) : read_share := mk_rshare true 0 (fun i => Nat.eqb i 1) (fun i => if Nat.eqb i 0 then pk_len else 1%nat) pk_len.
Definition start : hread list_iter bytes := mk_hread 0 false false DIR_NONE None None None None [] [] None false false None.

Definition env1 := demo_env demo_data demo_index eq_refl eq_refl.
Definition on_pk := (index_init (demo_share 1) env1 0 start).2.
Definition on_sec := (index_init (demo_share 1) env1 1 start).2.


Lemma demo_rows : rows_present (demo_share 1) env1 1 demo_index.
Proof. repeat constructor; vm_compute; reflexivity. Qed.

Lemma demo_opens_pk : opens env1 on_pk demo_data.
Proof. split; [done|]. by do 3 eexists. Qed.

Lemma demo_opens_sec : opens env1 on_sec demo_index.
Proof. split; [done|]. by do 3 eexists. Qed.

Lemma table_scan_exact_witness :
  let '(rc, st1) := rnd_init env1 start in
  rc = HA_OK /\ collect 4 (rnd_next env1) (rnd_next env1 st1) =
    ([([1], Some [5]); ([2], Some [6]); ([3], Some [5])], HA_ERR_END_OF_FILE).
Proof.
  refine (table_scan_exact env1 eq_refl start demo_data eq_refl _ _).
  - by eexists.
  - done.
Defined.

Lemma index_walk_exact_witness :
  collect 3 (index_next (demo_share 1) env1) (index_first (demo_share 1) env1 on_sec) =
    ([([1], Some [5]); ([3], Some [5]); ([2], Some [6])], HA_ERR_END_OF_FILE) /\
  collect 4 (index_prev (demo_share 1) env1) (index_last (demo_share 1) env1 on_pk) =
    ([([3], Some [5]); ([2], Some [6]); ([1], Some [5])], HA_ERR_END_OF_FILE).
Proof.
  split.
  - exact (proj1 (proj2 (index_walk_exact (demo_share 1) env1 eq_refl on_sec demo_index demo_opens_sec) eq_refl demo_rows)).
  - exact (proj2 (proj1 (index_walk_exact (demo_share 1) env1 eq_refl on_pk demo_data demo_opens_pk) eq_refl)).
Defined.

Lemma lookup_exact_witness :
  (exists rc, collect 3 (index_next_same (demo_share 1) env1) (index_read_map (demo_share 1) env1 [5] HA_READ_KEY_EXACT on_sec) =
    ([([1], Some [5]); ([3], Some [5])], rc) /\ ends rc [([1], Some [5]); ([3], Some [5])]) /\
  collect 1 (index_next_same (demo_share 1) env1) (index_read_map (demo_share 1) env1 [2] HA_READ_KEY_EXACT on_pk) =
    ([([2], Some [6])], HA_ERR_END_OF_FILE).
Proof.
  split.
  - exact (proj1 (lookup_exact (demo_share 1) env1 eq_refl on_sec demo_index [5] demo_opens_sec) eq_refl demo_rows).
  - exact (proj1 (proj2 (lookup_exact (demo_share 1) env1 eq_refl on_pk demo_data [2] demo_opens_pk)) eq_refl (le_n 1)).
Defined.


Lemma with_code {A B} (r : A * B) a : r.1 = a -> r = (a, r.2).
Proof. destruct r. by intros <-. Qed.

(** An iterator left from a table scan is not the one of the index scan. *)
Lemma scan_iterator_current_witness :
  let st := (rnd_init env1 start).2 in
  let st1 := (index_init (demo_share 1) env1 1 st).2 in
  iter_matches (Some 1%nat) 70 1 (index_first (demo_share 1) env1 st1).2.
Proof.
  apply (scan_iterator_current (demo_share 1) env1 1 (rnd_init env1 start).2 (index_init (demo_share 1) env1 1 (rnd_init env1 start).2).2).
  - apply with_code. vm_compute. reflexivity.
  - apply (scan_call _ _ _ _ (index_init (demo_share 1) env1 1 (rnd_init env1 start).2).2 env1 call_first HA_OK);
      [constructor|reflexivity|]. apply with_code. vm_compute. reflexivity.
Defined.

(** ** Findings *)

(** A composite primary key of two one-byte columns. *)
Definition pair_data : list (bytes * bytes) := [([0; 7], [9]); ([1; 3; 1], [5]); ([1; 3; 2], [6])].
Definition env2 := demo_env pair_data demo_index eq_refl eq_refl.
Definition on_pair := (index_init (demo_share 2) env2 0 start).2.

(** A lookup of a key prefix that no row has returns the next row. *)
Theorem prefix_lookup_leaks_row :
  index_read_map (demo_share 2) env2 [2] HA_READ_KEY_EXACT on_pair =
    (HA_OK, (index_read_map (demo_share 2) env2 [2] HA_READ_KEY_EXACT on_pair).2) /\
  obs (index_read_map (demo_share 2) env2 [2] HA_READ_KEY_EXACT on_pair).2 = ([3; 1], Some [5]).
Proof. split; vm_compute; reflexivity. Qed.

(** HA_READ_AFTER_KEY with a prefix of the primary key returns a row that has it. *)
Theorem after_prefix_returns_group :
  obs (index_read_map (demo_share 2) env2 [3] HA_READ_AFTER_KEY on_pair).2 = ([3; 1], Some [5]).
Proof. vm_compute. reflexivity. Qed.

(** On a secondary index HA_READ_PREFIX_LAST returns a row without the prefix when no
    row has it, and HA_READ_BEFORE_KEY a row that has the key. *)
Theorem prefix_last_leaks_row :
  obs (index_read_last_map (demo_share 1) env1 [7] on_sec).2 = ([2], Some [6]) /\
  (index_read_last_map (demo_share 1) env1 [7] on_sec).1 = HA_OK /\
  obs (index_read_map (demo_share 1) env1 [6] HA_READ_BEFORE_KEY on_sec).2 = ([2], Some [6]).
Proof. split_and!; vm_compute; reflexivity. Qed.

(** When only an entry of the meta namespace lies below a key, searching backwards for
    it returns the next row above it. *)
Theorem backward_search_goes_forward :
  obs (index_read_map (demo_share 1) env1 [0] HA_READ_KEY_OR_PREV on_pk).2 = ([1], Some [5]) /\
  (index_read_map (demo_share 1) env1 [0] HA_READ_KEY_OR_PREV on_pk).1 = HA_OK.
Proof. split; vm_compute; reflexivity. Qed.
