(* ===== verification/SpatialScan.v ===== *)
(** * Spatial queries (ha_tidesdb.cc 6367-6413, 6537-6543, 6768-6773, 8684-8775)

    A query with a bounding rectangle walks the ranges of the Hilbert curve that cover
    it and delivers the entries whose rectangle satisfies the predicate. *)

From Stdlib Require Import ZArith Lia Sorting.Sorted.
From stdpp Require Import base tactics list numbers sets sorting.
From S2P Require Import Prelude Errors KeyCodec Scan Spatial Reads ReadsProof ReadsExamples.

Definition SPATIAL_HILBERT_KEY_LEN : nat := 8.
Definition SPATIAL_MBR_VALUE_LEN : nat := 32.
Definition HILBERT_RANGE_FULL_LO : Z := 0.
Definition HILBERT_RANGE_FULL_HI : Z := 2 ^ 64 - 1.

(** The spatial members of the handler; [sp_rest] is [spatial_ranges_] from
    [spatial_range_idx_] on. *)
Record spatial_scan := mk_sp {
  spatial_scan_active_ : bool;
  sp_rest : list (Z * Z);
  spatial_qmbr_ : tdb_mbr_t;
  spatial_mode_ : ha_rkey_function
}.

(** [memcpy(&entry_mbr, val, SPATIAL_MBR_VALUE_LEN)]. *)
Definition entry_mbr (v : bytes) : tdb_mbr_t :=
  mk_mbr (float8get v) (float8get (drop 8 v)) (float8get (drop 16 v)) (float8get (drop 24 v)).

Section SpatialScan.
Context {It Rec : Type} `{IterOps It, RowReads Rec}.
Variable sh : read_share.
Notation state := (hread It Rec).
Notation env := (read_env It).

(** Lines 8698-8762: a row or an error, or the end of the range. *)
Fixpoint range_loop (fuel : nat) (en : env) (sp : spatial_scan) (cur_hi : Z) (st : state) : ha_rc * state + state :=
  match fuel, scan_iter st with
  | S fuel, Some s =>
    if negb (tidesdb_iter_valid (sl_it s)) then inr st
    else if en_killed en then inl (HA_ERR_ABORTED_BY_USER, st)
    else
      let again st := range_loop fuel en sp cur_hi (move tdb_iter_next st) in
      match tidesdb_iter_key (sl_it s) with
      | (TDB_SUCCESS, ik) =>
        if Nat.leb (length ik) SPATIAL_HILBERT_KEY_LEN then again st
        else if cur_hi <? decode_hilbert_be ik then inr st
        else
          match tidesdb_iter_value (sl_it s) with
          | (TDB_SUCCESS, val) =>
            if Nat.ltb (length val) SPATIAL_MBR_VALUE_LEN then again st
            else if negb (spatial_mbr_predicate (spatial_mode_ sp) (spatial_qmbr_ sp) (entry_mbr val)) then again st
            else
              match fetch_row_by_pk en (drop SPATIAL_HILBERT_KEY_LEN ik) st with
              | (HA_ERR_KEY_NOT_FOUND, st) => again st
              | (HA_OK, st) => inl (HA_OK, set_dir DIR_FORWARD st)
              | (ret, st) => inl (ret, st)
              end
          | _ => again st
          end
      | _ => inr st
      end
  | _, _ => inr st
  end.

(** Lines 8694-8772. *)
Fixpoint ranges_loop (en : env) (sp : spatial_scan) (rs : list (Z * Z)) (st : state) : ha_rc * list (Z * Z) * state :=
  match rs with
  | [] => (HA_ERR_END_OF_FILE, [], st)
  | (_, cur_hi) :: rest =>
    match range_loop (fuel_of st) en sp cur_hi st with
    | inl (rc, st) => (rc, rs, st)
    | inr st =>
      ranges_loop en sp rest (match rest with (lo, _) :: _ => move (tdb_iter_seek (encode_hilbert_be lo)) st | [] => st end)
    end
  end.

Definition spatial_scan_next (en : env) (r : spatial_scan * state) : ha_rc * (spatial_scan * state) :=
  let '(sp, st) := r in
  let '(rc, rest, st) := ranges_loop en sp (sp_rest sp) st in
  (rc, (mk_sp (spatial_scan_active_ sp) rest (spatial_qmbr_ sp) (spatial_mode_ sp), st)).

(** The ranges of a query (lines 6389-6401). *)
Definition query_ranges (mode : ha_rkey_function) (q : tdb_mbr_t) : list (Z * Z) :=
  match mode with
  | HA_READ_MBR_DISJOINT => [(HILBERT_RANGE_FULL_LO, HILBERT_RANGE_FULL_HI)]
  | _ => spatial_ranges_of_query q
  end.

(** The spatial branch of [index_read_map]; [key] is the key as the server gives it. *)
Definition spatial_read_map (en : env) (key : bytes) (mode : ha_rkey_function) (r : spatial_scan * state)
    : ha_rc * (spatial_scan * state) :=
  let '(sp, st) := r in
  let q := spatial_parse_query_mbr key in
  let '(irc, st) := ensure_scan_iter en st in
  match irc with
  | HA_OK =>
    let rs := query_ranges mode q in
    let st := match rs with (lo, _) :: _ => move (tdb_iter_seek (encode_hilbert_be lo)) st | [] => st end in
    spatial_scan_next en (mk_sp true rs q mode, st)
  | _ => (irc, (mk_sp true (sp_rest sp) q mode, st))
  end.

(** The continuations in [index_next] and [index_next_same]. *)
Definition spatial_index_next (en : env) (r : spatial_scan * state) : ha_rc * (spatial_scan * state) :=
  let '(sp, st) := r in
  if en_killed en then (HA_ERR_ABORTED_BY_USER, r)
  else if spatial_scan_active_ sp then
    let '(irc, st) := ensure_scan_iter en st in
    match irc with HA_OK => spatial_scan_next en (sp, advance_unless_first tdb_iter_next st) | _ => (irc, (sp, st)) end
  else let '(rc, st) := index_next sh en st in (rc, (sp, st)).

Definition spatial_index_next_same (en : env) (r : spatial_scan * state) : ha_rc * (spatial_scan * state) :=
  let '(sp, st) := r in
  if en_killed en then (HA_ERR_ABORTED_BY_USER, r)
  else if spatial_scan_active_ sp then
    match scan_iter st with
    | Some _ => spatial_scan_next en (sp, move tdb_iter_next st)
    | None => (HA_ERR_END_OF_FILE, r)
    end
  else let '(rc, st) := index_next_same sh en st in (rc, (sp, st)).

End SpatialScan.

(** ** What a query delivers *)

Section Exact.
Context {It Rec : Type} `{IterLaws It} `{RowReads Rec}.
Variable sh : read_share.
Variable en : read_env It.
Hypothesis Hkilled : en_killed en = false.
Notation state := (hread It Rec).
Implicit Types (st : state) (e : bytes * bytes) (l m : list (bytes * bytes)).

(** An entry as the row changes write it: a position, the key of its row, a rectangle;
    and its row is there. *)
Definition entry_ok e : Prop := exists h pk, e.1 = encode_hilbert_be h ++ pk /\ fits_u64 h /\ pk <> [] /\
  (SPATIAL_MBR_VALUE_LEN <= length e.2)%nat /\ (en_get en (build_data_key pk)).1 = TDB_SUCCESS.

Definition hpos e : Z := decode_hilbert_be e.1.
Definition accepts (sp : spatial_scan) e : bool := spatial_mbr_predicate (spatial_mode_ sp) (spatial_qmbr_ sp) (entry_mbr e.2).
Definition srow e : bytes * option Rec :=
  let pk := drop SPATIAL_HILBERT_KEY_LEN e.1 in (pk, Some (decode_row (en_get en (build_data_key pk)).2)).

Definition upto_hit sp (hi : Z) m := List.filter (fun e => (hpos e <=? hi) && accepts sp e) m.
Definition range_hits sp (r : Z * Z) l := List.filter (fun e => (r.1 <=? hpos e) && (hpos e <=? r.2) && accepts sp e) l.

Lemma encode_length h : length (encode_hilbert_be h) = 8%nat.
Proof. by rewrite encode_hilbert_be_split, be_split_length. Qed.

Lemma decode_key h pk : fits_u64 h -> decode_hilbert_be (encode_hilbert_be h ++ pk) = h.
Proof.
  intros Hh. rewrite <- (decode_encode_hilbert h Hh) at 2. unfold decode_hilbert_be.
  assert (Hn : forall i, (i < 8)%nat -> nth i (encode_hilbert_be h ++ pk) 0 = nth i (encode_hilbert_be h) 0).
  { intros i Hi. apply app_nth1. by rewrite encode_length. }
  cbn [foldl seq]. by rewrite !Hn by lia.
Qed.

Lemma entry_facts e : entry_ok e ->
  (8 < length e.1)%nat /\ fits_u64 (hpos e) /\ e.1 = encode_hilbert_be (hpos e) ++ drop 8 e.1 /\ drop 8 e.1 <> [] /\
  (SPATIAL_MBR_VALUE_LEN <= length e.2)%nat /\ (en_get en (build_data_key (drop 8 e.1))).1 = TDB_SUCCESS.
Proof.
  intros (h & pk & Hk & Hh & Hne & Hv & Hg). unfold hpos. rewrite Hk, decode_key by done.
  rewrite drop_app_exact by apply encode_length. rewrite length_app, encode_length. split_and!; try done.
  destruct pk; [done|]. cbn. lia.
Qed.

Lemma pos_compare e1 e2 : entry_ok e1 -> entry_ok e2 -> bytes_lt e1.1 e2.1 -> hpos e1 <= hpos e2.
Proof.
  intros (_ & F1 & E1 & _)%entry_facts (_ & F2 & E2 & _)%entry_facts Hlt. rewrite E1, E2 in Hlt. unfold bytes_lt in Hlt.
  rewrite bytes_compare_blocks in Hlt by (by rewrite !encode_length).
  rewrite !encode_hilbert_be_split, be_split_compare in Hlt by done. unfold fits_u64 in *.
  destruct (Z.compare_spec (hpos e1) (hpos e2)); [lia|lia|done].
Qed.

Lemma before_pos lo e : fits_u64 lo -> entry_ok e -> before (encode_hilbert_be lo) e = (hpos e <? lo).
Proof.
  intros Hlo (_ & F & E & Hne & _)%entry_facts. unfold before. rewrite E, <- (app_nil_r (encode_hilbert_be lo)).
  rewrite bytes_compare_blocks by (by rewrite !encode_length).
  rewrite !encode_hilbert_be_split, be_split_compare by done.
  destruct (Z.compare_spec (hpos e) lo), (Z.ltb_spec (hpos e) lo); try lia; try done. by destruct (drop 8 e.1).
Qed.

Lemma range_loop_spec fuel sp hi st :
  (length (st_ahead false st) < fuel)%nat -> is_Some (scan_iter st) -> sorted_cf fst (st_ahead false st) ->
  Forall entry_ok (st_ahead false st) ->
  match upto_hit sp hi (st_ahead false st) with
  | [] => exists st', range_loop fuel en sp hi st = inr st' /\ fixed st' = fixed st
  | e :: more => exists st' rest, range_loop fuel en sp hi st = inl (HA_OK, st') /\ fixed st' = fixed st /\
      scan_dir_ st' = DIR_FORWARD /\ obs st' = srow e /\ st_ahead false st' = e :: rest /\ upto_hit sp hi rest = more /\
      exists pre, st_ahead false st = pre ++ e :: rest
  end.
Proof.
  revert st. induction fuel as [|fuel IH]; intros st Hf [s Hs] Hsort Hok; [lia|]. cbn [range_loop]. rewrite Hs.
  destruct (st_ahead false st) as [|[k v] rest] eqn:Ha; assert (Hac := Ha); unfold st_ahead in Hac; rewrite Hs in Hac.
  { rewrite (ahead_nil false) by done. by exists st. }
  destruct (ahead_cons _ _ _ _ _ Hac) as (-> & -> & -> & _). cbn [negb]. rewrite Hkilled.
  apply List.Forall_cons_iff in Hok as [Hk Hok]. apply StronglySorted_inv in Hsort as [Hsort Hlt].
  destruct (entry_facts _ Hk) as (Hlen & Hfit & Hkey & Hne & Hv & Hget). cbn [fst snd] in *.
  rewrite (proj2 (Nat.leb_gt _ _)) by (unfold SPATIAL_HILBERT_KEY_LEN; lia).
  unfold upto_hit. cbn [List.filter]. replace (decode_hilbert_be k) with (hpos (k, v)) by reflexivity.
  destruct (Z.ltb_spec hi (hpos (k, v))) as [Hgt|Hle].
  { rewrite (proj2 (Z.leb_gt _ _)) by lia. cbn [andb].
    assert (List.filter (fun e => (hpos e <=? hi) && accepts sp e) rest = []) as ->; [|by exists st].
    apply List.length_zero_iff_nil. destruct (List.filter _ rest) as [|b bs] eqn:Hb; [done|]. exfalso.
    assert (In b (List.filter (fun e => (hpos e <=? hi) && accepts sp e) rest)) as [Hin [Hbh _]%andb_true_iff]%List.filter_In
      by (rewrite Hb; by left).
    rewrite List.Forall_forall in Hlt, Hok. pose proof (pos_compare (k, v) b Hk (Hok _ Hin) (Hlt _ Hin)). lia. }
  rewrite (proj2 (Z.leb_le _ _)) by lia. cbn [andb]. rewrite (proj2 (Nat.ltb_ge _ _)) by done.
  replace (spatial_mbr_predicate (spatial_mode_ sp) (spatial_qmbr_ sp) (entry_mbr v)) with (accepts sp (k, v)) by reflexivity.
  destruct (accepts sp (k, v)) eqn:Hacc; cbn [negb].
  - rewrite fetch_present by done. eexists _, rest. split; [done|]. split; [done|]. split; [done|]. split; [done|].
    split; [exact Ha|]. split; [done|]. by exists [].
  - destruct (move_step false st k v rest Ha) as (Mf & _ & Ma). cbn [step] in Mf, Ma.
    assert (Hi : is_Some (scan_iter (move tdb_iter_next st))) by (apply move_some; by rewrite Hs).
    pose proof (IH (move tdb_iter_next st)) as IH'. rewrite Ma in IH'. specialize (IH' ltac:(cbn in Hf; lia) Hi Hsort Hok).
    unfold upto_hit in IH'. destruct (List.filter _ rest) as [|e more].
    + destruct IH' as (st' & -> & F'). exists st'. split; [done|congruence].
    + destruct IH' as (st' & rest' & -> & F' & D' & O' & A' & V' & pre & Hpre). exists st', rest'. split_and!; try done; [congruence|].
      exists ((k, v) :: pre). by rewrite Hpre.
Qed.

(** What is left of a query: the rest of the current range, then the other ranges. *)
Definition left_of sp l (rs : list (Z * Z)) m : list (bytes * bytes) :=
  match rs with [] => [] | (_, hi) :: rest => upto_hit sp hi m ++ concat ((fun r => range_hits sp r l) <$> rest) end.

Lemma seek_range sp l st lo hi : st_entries st = Some l -> Forall entry_ok l -> fits_u64 lo ->
  let st1 := move (tdb_iter_seek (encode_hilbert_be lo)) st in
  is_Some (scan_iter st1) /\ st_entries st1 = Some l /\ sorted_cf fst (st_ahead false st1) /\ Forall entry_ok (st_ahead false st1) /\
  params st1 = params st /\ upto_hit sp hi (st_ahead false st1) = range_hits sp (lo, hi) l.
Proof.
  intros He Hok Hlo st1.
  destruct (positioned (tdb_iter_seek (encode_hilbert_be lo)) false st l (List.filter (fun e => negb (before (encode_hilbert_be lo) e)) l))
    as (His & Ha & Hpar); [intros; apply seeks_keep|intros ? <-; apply ahead_seek|done|].
  destruct (move_spec (tdb_iter_seek (encode_hilbert_be lo)) st) as (Mf & _); [intros; apply seeks_keep|].
  pose proof (fixed_entries _ _ Mf) as Me. fold st1 in His, Ha, Hpar, Me. rewrite Ha. split_and!; try done.
  - congruence.
  - by eapply filter_sorted, opened_sorted.
  - rewrite List.Forall_forall in *. intros e [Hin _]%List.filter_In. auto.
  - unfold upto_hit, range_hits. rewrite filter_filter_bool. apply List.filter_ext_in. intros e Hin.
    rewrite List.Forall_forall in Hok. rewrite before_pos by auto. cbn [fst snd]. rewrite <- Z.leb_antisym. by rewrite andb_assoc.
Qed.

Lemma ranges_loop_spec sp l rs st :
  st_entries st = Some l -> Forall entry_ok l -> Forall (fun r => fits_u64 r.1) rs ->
  sorted_cf fst (st_ahead false st) -> Forall entry_ok (st_ahead false st) ->
  exists rc rs' st', ranges_loop en sp rs st = (rc, rs', st') /\ st_entries st' = Some l /\
    match left_of sp l rs (st_ahead false st) with
    | [] => rc = HA_ERR_END_OF_FILE
    | e :: more => rc = HA_OK /\ scan_dir_ st' = DIR_FORWARD /\ obs st' = srow e /\ exists rest, st_ahead false st' = e :: rest /\
        sorted_cf fst rest /\ Forall entry_ok rest /\ Forall (fun r => fits_u64 r.1) rs' /\ left_of sp l rs' rest = more
    end.
Proof.
  revert st. induction rs as [|[lo hi] rs IH]; intros st He Hok Hrs Hsort Hah.
  { exists HA_ERR_END_OF_FILE, [], st. done. }
  cbn [ranges_loop left_of]. pose proof (entries_some _ _ He) as His.
  pose proof (range_loop_spec _ sp hi st (fuel_enough false st His) His Hsort Hah) as Hloop.
  destruct (upto_hit sp hi (st_ahead false st)) as [|e more].
  - destruct Hloop as (st' & -> & F'). pose proof (fixed_entries _ _ F') as E'. apply List.Forall_cons_iff in Hrs as [_ Hrs].
    destruct rs as [|[lo' hi'] rs].
    { exists HA_ERR_END_OF_FILE, [], st'. split; [done|]. split; [congruence|done]. }
    assert (Hlo : fits_u64 lo') by (by apply List.Forall_cons_iff in Hrs as [? _]).
    destruct (seek_range sp l st' lo' hi') as (I1 & E1 & S1 & O1 & _ & V1); [congruence|done|done|].
    destruct (IH (move (tdb_iter_seek (encode_hilbert_be lo')) st') E1 Hok Hrs S1 O1) as (rc & rs' & st2 & E2 & E3 & V2).
    exists rc, rs', st2. split; [done|]. split; [done|]. cbn [left_of] in V2. rewrite V1 in V2. exact V2.
  - destruct Hloop as (st' & rest & -> & F' & D' & O' & A' & V' & pre & Hpre). pose proof (fixed_entries _ _ F') as E'.
    exists HA_OK, ((lo, hi) :: rs), st'. split; [done|]. split; [congruence|]. cbn. split; [done|]. split; [done|]. split; [done|].
    exists rest. rewrite Hpre in Hsort, Hah. split; [done|].
    split; [apply StronglySorted_app_1_r in Hsort; by apply StronglySorted_inv in Hsort as [? _]|].
    split; [apply Forall_app in Hah as [_ Hah]; by apply List.Forall_cons_iff in Hah as [_ ?]|].
    split; [done|]. by rewrite V'.
Qed.

(** The query of a scan and what it delivers in the end. *)
Definition query_rows (mode : ha_rkey_function) (q : tdb_mbr_t) l : list (bytes * bytes) :=
  concat ((fun r => range_hits (mk_sp true [] q mode) r l) <$> query_ranges mode q).

(** The query [sp0] stands on [e], with [rest] ahead. *)
Record in_query (sp0 : spatial_scan) l e (rest : list (bytes * bytes)) (x : spatial_scan * state) : Prop := {
  iq_active : spatial_scan_active_ x.1 = true;
  iq_query : spatial_qmbr_ x.1 = spatial_qmbr_ sp0 /\ spatial_mode_ x.1 = spatial_mode_ sp0;
  iq_entries : st_entries x.2 = Some l;
  iq_ahead : st_ahead false x.2 = e :: rest;
  iq_dir : scan_dir_ x.2 = DIR_FORWARD;
  iq_obs : obs x.2 = srow e;
  iq_rest : sorted_cf fst rest /\ Forall entry_ok rest;
  iq_ranges : Forall (fun r => fits_u64 r.1) (sp_rest x.1)
}.

Lemma left_of_query sp0 sp l rs m : spatial_qmbr_ sp = spatial_qmbr_ sp0 -> spatial_mode_ sp = spatial_mode_ sp0 ->
  left_of sp l rs m = left_of sp0 l rs m.
Proof. destruct sp, sp0. cbn. by intros -> ->. Qed.

(** A read of the query from where the iterator stands. *)
Lemma first_hit sp l st : st_entries st = Some l -> Forall entry_ok l -> Forall (fun r => fits_u64 r.1) (sp_rest sp) ->
  sp_rest sp = [] \/ sorted_cf fst (st_ahead false st) /\ Forall entry_ok (st_ahead false st) ->
  exists rc x, spatial_scan_next en (sp, st) = (rc, x) /\
    match left_of sp l (sp_rest sp) (st_ahead false st) with
    | [] => rc = HA_ERR_END_OF_FILE
    | e :: more => rc = HA_OK /\ exists rest, (spatial_scan_active_ sp = true -> in_query sp l e rest x) /\
                   left_of sp l (sp_rest x.1) rest = more
    end.
Proof.
  intros He Hok Hrs [Hnil|[Hsort Hah]].
  { unfold spatial_scan_next. rewrite Hnil. cbn. by do 2 eexists. }
  destruct (ranges_loop_spec sp l (sp_rest sp) st He Hok Hrs Hsort Hah) as (rc & rs' & st' & E & E' & V).
  unfold spatial_scan_next. rewrite E. do 2 eexists. split; [done|]. destruct (left_of _ _ _ _) as [|e more]; [done|].
  destruct V as (-> & D' & O' & rest & A' & S' & K' & R' & V'). split; [done|]. exists rest. by split.
Qed.

Lemma next_hit sp0 l e rest x : Forall entry_ok l -> in_query sp0 l e rest x ->
  exists rc y, spatial_index_next sh en x = (rc, y) /\
    match srow <$> left_of sp0 l (sp_rest x.1) rest with
    | [] => rc = HA_ERR_END_OF_FILE
    | os => rc = HA_OK /\ exists e' rest', in_query sp0 l e' rest' y /\ os = srow <$> e' :: left_of sp0 l (sp_rest y.1) rest'
    end.
Proof.
  intros Hok [Hact [Hq Hm] He Ha Hd Ho [Hs Hr] Hrs]. destruct x as [sp st], e as [k v]. cbn [fst snd] in *.
  unfold spatial_index_next. rewrite Hkilled, Hact. destruct (entries_some _ _ He) as [s Hi].
  unfold ensure_scan_iter. rewrite Hi. rewrite advance_next by (by rewrite Hd).
  destruct (move_step false st k v rest Ha) as (Mf & _ & Ma). cbn [step] in Mf, Ma. pose proof (fixed_entries _ _ Mf) as Me.
  destruct (first_hit sp l (move tdb_iter_next st)) as (rc & y & -> & V); [congruence|done|done|right; by rewrite Ma|].
  rewrite Ma, (left_of_query sp0 sp) in V by done. exists rc, y. split; [done|].
  destruct (left_of sp0 l (sp_rest sp) rest) as [|e' more]; [done|]. destruct V as (-> & rest' & Hin & Hl).
  cbn. split; [done|]. exists e', rest'. destruct (Hin Hact) as [? [Hq1 Hm1] ? ? ? ? ? ?].
  rewrite (left_of_query sp0 sp) in Hl by done. split; [|by rewrite Hl]. split; try done. split; congruence.
Qed.

(** C25: spatial queries.  Reading the first row of a spatial query and then with
    [index_next] until an error delivers, range by range of the query, exactly the rows
    of the entries that lie in the range and whose stored rectangle satisfies the
    predicate, and ends with HA_ERR_END_OF_FILE.  For HA_READ_MBR_DISJOINT, whose range
    is the whole curve, these are all entries that satisfy it, each once. *)
Theorem spatial_query_exact (st : state) (sp : spatial_scan) (l : list (bytes * bytes)) (key : bytes) (mode : ha_rkey_function) :
  opens en st l -> Forall entry_ok l -> Forall (fun r => fits_u64 r.1) (query_ranges mode (spatial_parse_query_mbr key)) ->
  let q := spatial_parse_query_mbr key in
  let rows := query_rows mode q l in
  collect_with (obs ∘ snd) (spatial_index_next sh en) (length rows) (spatial_read_map en key mode (sp, st)) =
    (srow <$> rows, HA_ERR_END_OF_FILE) /\
  (mode = HA_READ_MBR_DISJOINT -> rows = List.filter (fun e => spatial_mbr_predicate mode q (entry_mbr e.2)) l).
Proof.
  intros Hop Hok Hrs q rows. split.
  2: { intros Hmode. unfold rows, query_rows. rewrite Hmode. cbn [query_ranges fmap list_fmap concat]. rewrite app_nil_r.
       apply List.filter_ext_in. intros e Hin. rewrite List.Forall_forall in Hok.
       destruct (entry_facts e (Hok e Hin)) as (_ & Hfit & _). unfold fits_u64, HILBERT_RANGE_FULL_LO, HILBERT_RANGE_FULL_HI in *. cbn [fst snd].
       rewrite (proj2 (Z.leb_le _ _)), (proj2 (Z.leb_le _ _)) by lia. done. }
  destruct (with_iter_opens en st l Hop) as (st2 & Hwi & He & Hpar).
  unfold spatial_read_map. pose proof (Hwi (fun st => (HA_OK, st))) as Hw. unfold with_iter in Hw.
  destruct (ensure_scan_iter en st) as [irc st1]. destruct irc; try done. injection Hw as ->.
  fold q. set (sp0 := mk_sp true (query_ranges mode q) q mode).
  set (st3 := match query_ranges mode q with (lo, _) :: _ => move (tdb_iter_seek (encode_hilbert_be lo)) st2 | [] => st2 end).
  assert (Hstart : st_entries st3 = Some l /\ (query_ranges mode q = [] \/ sorted_cf fst (st_ahead false st3) /\ Forall entry_ok (st_ahead false st3)) /\
    left_of sp0 l (query_ranges mode q) (st_ahead false st3) = rows).
  { unfold st3, rows, query_rows. destruct (query_ranges mode q) as [|[lo hi] rs] eqn:Hq; [split_and!; [done|by left|done]|].
    fold q in Hrs. rewrite Hq in Hrs. apply List.Forall_cons_iff in Hrs as [Hlo _].
    destruct (seek_range sp0 l st2 lo hi He Hok Hlo) as (I1 & E1 & S1 & O1 & _ & V1). split_and!; [done|by right|].
    cbn [left_of]. by rewrite V1. }
  destruct Hstart as (He3 & Hs3 & Hrows).
  destruct (first_hit sp0 l st3 He3 Hok Hrs Hs3) as (rc & x & Hnext & V). rewrite Hnext. cbn [sp_rest sp0] in V.
  rewrite Hrows in V. destruct rows as [|e more]; [subst rc; by rewrite collect_error|]. destruct V as (-> & rest & Hq & Hleft).
  rewrite <- Hleft. apply (collect_all (obs ∘ snd) _ (fun os x => exists e rest, in_query sp0 l e rest x /\
    os = srow <$> e :: left_of sp0 l (sp_rest x.1) rest)).
  - intros o os y (e' & rest' & Hq' & Hos). injection Hos as -> ->. split; [apply Hq'|].
    destruct (next_hit sp0 l e' rest' y Hok Hq') as (rc & z & Hz & Hrest). exists rc, z. split; [exact Hz|].
    change (list_fmap _ _ srow (left_of sp0 l (sp_rest y.1) rest')) with (srow <$> left_of sp0 l (sp_rest y.1) rest').
    by destruct (srow <$> left_of sp0 l (sp_rest y.1) rest').
  - exists e, rest. by split; [apply Hq|].
  - done.
  - rewrite length_fmap. cbn. by rewrite Hleft.
Qed.

End Exact.

(** ** A query *)

Definition one : Z := 0x3FF0000000000000.
Definition four : Z := 0x4010000000000000.
Definition hundred : Z := 0x4059000000000000.

Definition points : list (bytes * bytes) :=
  [(encode_hilbert_be 5 ++ [1], spatial_build_value (mk_mbr one one one one));
   (encode_hilbert_be 9 ++ [2], spatial_build_value (mk_mbr four four four four))].
Definition point_rows : list (bytes * bytes) := [([1; 1], [11]); ([1; 2], [22])].

Definition env3 : read_env list_iter := demo_env point_rows points eq_refl eq_refl.
Definition on_points : hread list_iter bytes := (index_init (demo_share 1) env3 1 start).2.
Definition no_query : spatial_scan := mk_sp false [] (mk_mbr 0 0 0 0) HA_READ_OTHER.

(** The box from (4, 4) to (100, 100), as the server passes it. *)
Definition box : bytes := le_split 8 four ++ le_split 8 hundred ++ le_split 8 four ++ le_split 8 hundred.

Lemma points_ok : Forall (entry_ok env3) points.
Proof.
  repeat apply List.Forall_cons; [|  |constructor].
  - exists 5, [1]. split_and!; vm_compute; first [done|reflexivity|lia|discriminate].
  - exists 9, [2]. split_and!; vm_compute; first [done|reflexivity|lia|discriminate].
Qed.

Lemma points_open : opens env3 on_points points.
Proof. split; [done|]. by do 3 eexists. Qed.

Lemma disjoint_ranges_fit : Forall (fun r => fits_u64 r.1) (query_ranges HA_READ_MBR_DISJOINT (spatial_parse_query_mbr box)).
Proof. constructor; [vm_compute; split; [discriminate|reflexivity]|constructor]. Qed.

Lemma disjoint_answer :
  srow (Rec := bytes) env3 <$> query_rows HA_READ_MBR_DISJOINT (spatial_parse_query_mbr box) points = [([1], Some [11])].
Proof. vm_compute. reflexivity. Qed.

Lemma spatial_query_exact_witness :
  collect_with (obs ∘ snd) (spatial_index_next (demo_share 1) env3)
    (length (query_rows HA_READ_MBR_DISJOINT (spatial_parse_query_mbr box) points))
    (spatial_read_map env3 box HA_READ_MBR_DISJOINT (no_query, on_points)) = ([([1], Some [11])], HA_ERR_END_OF_FILE).
Proof.
  rewrite <- disjoint_answer.
  exact (proj1 (spatial_query_exact (demo_share 1) env3 eq_refl on_points no_query points box HA_READ_MBR_DISJOINT
    points_open points_ok disjoint_ranges_fit)).
Defined.
