(* ===== verification/Mrr.v ===== *)
(** * Multi-range reads (ha_tidesdb.cc 7800-7967)

    A sequence of point lookups, typically of an IN list, is accepted when every range
    is one, sorted by key, and delivered in that order. *)

From Stdlib Require Import ZArith Lia Sorting.Sorted.
From stdpp Require Import base tactics list numbers sets sorting.
From S2P Require Import Prelude Errors KeyCodec Scan Reads ReadsProof ReadsExamples.

Definition MRR_ACCEPT_MIN_RANGES : nat := 2.

(** A range of the sequence: its flags, its start key in comparable form, and what the
    server associates with it. *)
Record KEY_MULTI_RANGE := mk_range {
  rg_unique : bool;          (* UNIQUE_RANGE *)
  rg_null : bool;            (* NULL_RANGE *)
  rg_eq : bool;              (* EQ_RANGE *)
  rg_key : bytes;
  rg_ptr : Z
}.

Record tdb_mrr_entry := mk_mrr { comp_key : bytes; mrr_ptr : Z }.

(** Whether HA_MRR_USE_DEFAULT_IMPL is cleared; [rows] is what the server's own costing
    returns ([None]: HA_POS_ERROR). *)
Fixpoint all_points (seq : list KEY_MULTI_RANGE) (count : nat) : bool * nat :=
  match seq with
  | [] => (true, count)
  | r :: seq =>
    if negb (rg_unique r) || rg_null r || negb (rg_eq r) then (false, S count) else all_points seq (S count)
  end.

Definition multi_range_read_info_const (rows : option Z) (partitioned : bool) (seq : list KEY_MULTI_RANGE) : option Z * bool :=
  match rows with
  | None => (None, false)
  | Some _ =>
    if partitioned then (rows, false)
    else let '(all_point, count) := all_points seq 0 in (rows, all_point && Nat.leb MRR_ACCEPT_MIN_RANGES count)
  end.

Definition key_le (a b : tdb_mrr_entry) : Prop := bytes_compare (comp_key a) (comp_key b) <> Gt.
#[export] Instance key_le_dec : RelDecision key_le.
Proof. intros a b. unfold key_le. apply _. Defined.

(** The sorted lookups; [std::sort] puts equal keys in any order. *)
Definition multi_range_read_init (seq : list KEY_MULTI_RANGE) : list tdb_mrr_entry :=
  merge_sort key_le ((fun r => mk_mrr (rg_key r) (rg_ptr r)) <$> seq).

Section Mrr.
Context {It Rec : Type} `{IterOps It, RowReads Rec}.
Variable sh : read_share.
Variable mrr_keyno_ : nat.
Variable mrr_no_assoc_ : bool.
Notation state := (hread It Rec).

(** The entries still to be read, the last association, and the handler. *)
Record mrr := mk_mrrst { mr_rest : list tdb_mrr_entry; range_info : option Z; mr_handler : state }.

(** One lookup: [None] when the loop goes on with the next entry. *)
Definition mrr_lookup (en : read_env It) (e : tdb_mrr_entry) (st : state) : option ha_rc * state :=
  if rs_has_user_pk sh && Nat.eqb mrr_keyno_ (rs_pk_index sh) then
    let '(rc, st) := fetch_row_by_pk en (comp_key e) st in
    (match rc with HA_ERR_KEY_NOT_FOUND => None | _ => Some rc end, st)
  else if negb (rs_has_cf sh mrr_keyno_) then (None, st)
  else
    let st := set_scan (scan_txn st) (Some (Some mrr_keyno_)) st in
    let '(irc, st) := ensure_scan_iter en st in
    match irc with
    | HA_OK =>
      let st := move (tdb_iter_seek (comp_key e)) st in
      match scan_iter st with
      | Some s =>
        if negb (tidesdb_iter_valid (sl_it s)) then (None, st)
        else
          match tidesdb_iter_key (sl_it s) with
          | (TDB_SUCCESS, ik) =>
            let idx_col_len := rs_comp_len sh mrr_keyno_ in
            if negb (has_prefix (comp_key e) ik) then (None, st)
            else if Nat.leb (length ik) idx_col_len then (None, st)
            else
              match if keyread_only_ st then keyread mrr_keyno_ ik else None with
              | Some r => (Some HA_OK, set_row (drop idx_col_len ik) (Some r) st)
              | None =>
                let '(rc, st) := fetch_row_by_pk en (drop idx_col_len ik) st in
                (match rc with HA_ERR_KEY_NOT_FOUND => None | _ => Some rc end, st)
              end
          | _ => (None, st)
          end
      | None => (None, st)
      end
    | _ => (Some irc, st)
    end.

Fixpoint mrr_loop (en : read_env It) (es : list tdb_mrr_entry) (info : option Z) (st : state) : ha_rc * mrr :=
  match es with
  | [] => (HA_ERR_END_OF_FILE, mk_mrrst [] info st)
  | e :: es =>
    let info := if mrr_no_assoc_ then info else Some (mrr_ptr e) in
    match mrr_lookup en e st with
    | (Some rc, st) => (rc, mk_mrrst es info st)
    | (None, st) => mrr_loop en es info st
    end
  end.

Definition multi_range_read_next (en : read_env It) (m : mrr) : ha_rc * mrr :=
  if en_killed en then (HA_ERR_ABORTED_BY_USER, m)
  else
    match en_ensure en with
    | HA_OK =>
      let st := mr_handler m in
      let st := match scan_txn st with None => set_scan (Some (en_stmt_txn en)) (scan_cf_ st) st | Some _ => st end in
      mrr_loop en (mr_rest m) (range_info m) st
    | erc => (erc, m)
    end.

End Mrr.

(** ** Every point gets its row *)

Lemma key_le_order : Transitive key_le /\ Total key_le.
Proof.
  split.
  - intros a b c. unfold key_le. intros Hab Hbc Hac.
    destruct (bytes_compare (comp_key a) (comp_key b)) eqn:E1; try done.
    + apply bytes_compare_eq in E1. by rewrite E1 in Hac.
    + destruct (bytes_compare (comp_key b) (comp_key c)) eqn:E2; try done.
      * apply bytes_compare_eq in E2. rewrite E2 in E1. congruence.
      * pose proof (bytes_lt_trans _ _ _ E1 E2) as Ht. unfold bytes_lt in Ht. congruence.
  - intros a b. unfold key_le. rewrite (bytes_compare_antisym (comp_key a)).
    destruct (bytes_compare (comp_key a) (comp_key b)); cbn; auto.
Qed.

(** The lookups are those of the sequence, in key order. *)
Lemma mrr_init_sorted seq :
  multi_range_read_init seq ≡ₚ ((fun r => mk_mrr (rg_key r) (rg_ptr r)) <$> seq) /\ StronglySorted key_le (multi_range_read_init seq).
Proof.
  destruct key_le_order. unfold multi_range_read_init. split; [apply merge_sort_Permutation|].
  apply Sorted_StronglySorted; [done|]. by apply Sorted_merge_sort.
Qed.

Section Exact.
Context {It Rec : Type} `{IterLaws It} `{RowReads Rec}.
Variable sh : read_share.
Variable keyno : nat.
Variable en : read_env It.
Hypothesis Hkilled : en_killed en = false.
Hypothesis Hensure : en_ensure en = HA_OK.
Notation state := (hread It Rec).

(** What the server sees after a read: the range and the row. *)
Definition mrr_obs (m : mrr (It := It) (Rec := Rec)) : option Z * (bytes * option Rec) := (range_info m, obs (mr_handler m)).

(** A lookup that answers from the table alone. *)
Definition answers (answer : tdb_mrr_entry -> option (bytes * option Rec)) (good : state -> Prop) (es : list tdb_mrr_entry) : Prop :=
  forall e st, e ∈ es -> good st -> exists st', good st' /\
    match answer e with
    | Some o => mrr_lookup sh keyno en e st = (Some HA_OK, st') /\ obs st' = o
    | None => mrr_lookup sh keyno en e st = (None, st')
    end.

Definition delivered (answer : tdb_mrr_entry -> option (bytes * option Rec)) (es : list tdb_mrr_entry) : list (option Z * (bytes * option Rec)) :=
  omap (fun e => (fun o => (Some (mrr_ptr e), o)) <$> answer e) es.

Lemma mrr_loop_spec answer good es info st : answers answer good es -> good st ->
  exists rc m, mrr_loop sh keyno false en es info st = (rc, m) /\ good (mr_handler m) /\
    match delivered answer es with
    | [] => rc = HA_ERR_END_OF_FILE
    | o :: more => rc = HA_OK /\ mrr_obs m = o /\ delivered answer (mr_rest m) = more /\ mr_rest m ⊆ es
    end.
Proof.
  revert info st. induction es as [|e es IH]; intros info st Ha Hg.
  { cbn. by do 2 eexists. }
  destruct (Ha e st) as (st' & Hg' & Hl); [by left|done|]. cbn [mrr_loop]. unfold delivered. cbn [omap list_omap].
  destruct (answer e) as [o|] eqn:Hans; cbn.
  - destruct Hl as [-> Ho]. do 2 eexists. split; [done|]. split; [done|]. split; [done|]. split; [cbn; unfold mrr_obs; cbn; by rewrite Ho|].
    split; [done|]. cbn. set_solver.
  - rewrite Hl. destruct (IH (Some (mrr_ptr e)) st') as (rc & m & E & Gm & V); [intros ???; by apply Ha; right|done|].
    rewrite E. do 2 eexists. split; [done|]. split; [done|]. unfold delivered in V. destruct (omap _ es); [done|].
    destruct V as (? & ? & ? & ?). split_and!; try done. set_solver.
Qed.

Lemma mrr_collect answer good es info st fuel :
  answers answer good es -> good st -> (forall st, good st -> is_Some (scan_txn st)) -> (length es <= fuel)%nat ->
  collect_with mrr_obs (multi_range_read_next sh keyno false en) fuel (multi_range_read_next sh keyno false en (mk_mrrst es info st)) =
    (delivered answer es, HA_ERR_END_OF_FILE).
Proof.
  intros Ha Hg Htx Hf.
  assert (Hstep : forall m, good (mr_handler m) -> multi_range_read_next sh keyno false en m =
    mrr_loop sh keyno false en (mr_rest m) (range_info m) (mr_handler m)).
  { intros m Hm. unfold multi_range_read_next. rewrite Hkilled, Hensure. by destruct (Htx _ Hm) as [t ->]. }
  rewrite Hstep by done. cbn [mr_rest range_info mr_handler].
  assert (Hlen : (length (delivered answer es) <= length es)%nat).
  { unfold delivered. clear. induction es as [|e es IH]; [done|]. cbn. destruct (answer e); cbn; lia. }
  destruct (mrr_loop_spec answer good es info st Ha Hg) as (rc & m & -> & Gm & V).
  destruct (delivered answer es) as [|o more]; [subst rc; by rewrite collect_error|]. destruct V as (-> & Ho & Hm & Hsub).
  apply (collect_all mrr_obs _ (fun os m => good (mr_handler m) /\ mr_rest m ⊆ es /\ exists o, mrr_obs m = o /\ os = o :: delivered answer (mr_rest m))).
  - intros o' os m' (G' & S' & o2 & O2 & Hos). injection Hos as -> ->. split; [done|]. rewrite Hstep by done.
    destruct (mrr_loop_spec answer good (mr_rest m') (range_info m') (mr_handler m')) as (rc & m2 & E & G2 & V2); [|done|].
    { intros e s He. apply Ha. set_solver. }
    exists rc, m2. split; [done|]. destruct (delivered answer (mr_rest m')) as [|o3 more3]; [done|].
    destruct V2 as (-> & O3 & <- & S3). split; [done|]. split; [done|]. split; [set_solver|]. by eexists.
  - split; [done|]. split; [done|]. exists o. by rewrite Hm.
  - done.
  - cbn in Hlen |- *. lia.
Qed.

(** The states between the lookups on a secondary index. *)
Definition mrr_ready (l : list (bytes * bytes)) (t : Z) (kr : bool) (s : state) : Prop :=
  opens en (set_scan (Some t) (Some (Some keyno)) s) l /\ scan_txn s = Some t /\ keyread_only_ s = kr.

Lemma mrr_lookup_sec l t kr e s :
  rs_has_user_pk sh && Nat.eqb keyno (rs_pk_index sh) = false -> rs_has_cf sh keyno = true -> rows_present sh en keyno l ->
  mrr_ready l t kr s ->
  exists s', mrr_ready l t kr s' /\
    match sec_row sh en kr keyno <$> head (with_prefix fst (comp_key e) l) with
    | Some o => mrr_lookup sh keyno en e s = (Some HA_OK, s') /\ obs s' = o
    | None => mrr_lookup sh keyno en e s = (None, s')
    end.
Proof.
  intros Hpk Hcf Hrows (Hos & Hts & Hks). unfold mrr_lookup. rewrite Hpk, Hcf, Hts. cbn [negb].
  destruct (with_iter_opens en _ l Hos) as (s2 & Hwi & Hes & Hpar). pose proof (Hwi (fun st => (HA_OK, st))) as Hw. unfold with_iter in Hw.
  assert (Htx : scan_txn (ensure_scan_iter en (set_scan (Some t) (Some (Some keyno)) s)).2 = Some t).
  { unfold ensure_scan_iter. cbn. destruct (scan_iter s); [done|]. destruct (en_iter_new en (Some keyno)) as [[] ?];
      destruct (scan_iter_last_err s) as [[[? ?] ?]|]; try case_bool_decide; done. }
  destruct (ensure_scan_iter en (set_scan (Some t) (Some (Some keyno)) s)) as [irc s1]. destruct irc; try done. injection Hw as ->. cbn in Htx.
  destruct (positioned (tdb_iter_seek (comp_key e)) false s2 l (List.filter (fun x => negb (before (comp_key e) x)) l))
    as ([sl Hsl] & Ha & Hp2); [intros; apply seeks_keep|intros ? <-; apply ahead_seek|done|].
  destruct (move_spec (tdb_iter_seek (comp_key e)) s2) as (Mf & _); [intros; apply seeks_keep|].
  pose proof (fixed_entries _ _ Mf) as Me. set (s3 := move (tdb_iter_seek (comp_key e)) s2) in *. rewrite Hsl.
  assert (Hgood : opens en (set_scan (Some t) (Some (Some keyno)) s3) l /\ scan_txn s3 = Some t /\ keyread_only_ s3 = kr).
  { split_and!.
    - unfold opens. cbn. rewrite Hsl. unfold st_entries in Me, Hes. rewrite Hsl in Me. cbn in Me. congruence.
    - unfold s3, move. by destruct (scan_iter s2).
    - destruct (params_proj _ _ (eq_trans Hp2 Hpar)) as (_ & _ & _ & _ & Hk & _). cbn in Hk. congruence. }
  assert (Hw2 : with_prefix fst (comp_key e) l = take_while (fun a => has_prefix (comp_key e) a.1) (List.filter (fun x => negb (before (comp_key e) x)) l)).
  { rewrite <- seek_filter by (by eapply opened_sorted). symmetry. apply scan_prefix_complete. by eapply opened_sorted. }
  rewrite Hw2. assert (Hac := Ha). unfold st_ahead in Hac. rewrite Hsl in Hac.
  pose proof (rows_present_filter sh en keyno (fun x => negb (before (comp_key e) x)) l Hrows) as Hrows'.
  destruct (List.filter _ l) as [|[k v] rest].
  { rewrite (ahead_nil false) by done. exists s3. by split. }
  destruct (ahead_cons _ _ _ _ _ Hac) as (-> & -> & _). cbn [negb take_while fst].
  destruct (has_prefix (comp_key e) k) eqn:Hpre; cbn [negb]; [|exists s3; by split].
  apply List.Forall_cons_iff in Hrows' as [[Hlen Hget] _]. cbn [fst] in Hlen, Hget.
  rewrite (proj2 (Nat.leb_gt _ _)) by lia. destruct Hgood as (G1 & G2 & G3). cbn [head fmap option_fmap option_map].
  unfold sec_row. cbn [fst]. rewrite G3. destruct (if kr then keyread keyno k else None).
  + eexists. split; [|split; [done|done]]. by split_and!.
  + rewrite fetch_present by done. eexists. split; [|split; [done|done]]. by split_and!.
Qed.

(** multi-range reads.  The lookups of an accepted sequence are the given points in
    key order.  Reading them until an error delivers, with the association of its range,
    the row of every point that has one, and skips the others: on the primary key the
    row with the key, on a secondary index the row of the first entry with the key. *)
Theorem multi_range_exact (seq : list KEY_MULTI_RANGE) (st : state) (l : list (bytes * bytes)) (t : Z) :
  let es := multi_range_read_init seq in
  scan_txn st = Some t ->
  es ≡ₚ ((fun r => mk_mrr (rg_key r) (rg_ptr r)) <$> seq) /\ StronglySorted key_le es /\
  (rs_has_user_pk sh && Nat.eqb keyno (rs_pk_index sh) = true ->
     (forall e, e ∈ es -> (en_get en (build_data_key (comp_key e))).1 ∈ [TDB_SUCCESS; TDB_ERR_NOT_FOUND]) ->
     collect_with mrr_obs (multi_range_read_next sh keyno false en) (length es) (multi_range_read_next sh keyno false en (mk_mrrst es None st)) =
       (delivered (fun e => match en_get en (build_data_key (comp_key e)) with
                            | (TDB_SUCCESS, v) => Some (comp_key e, Some (decode_row v)) | _ => None end) es, HA_ERR_END_OF_FILE)) /\
  (rs_has_user_pk sh && Nat.eqb keyno (rs_pk_index sh) = false -> rs_has_cf sh keyno = true ->
     opens en (set_scan (Some t) (Some (Some keyno)) st) l -> rows_present sh en keyno l ->
     collect_with mrr_obs (multi_range_read_next sh keyno false en) (length es) (multi_range_read_next sh keyno false en (mk_mrrst es None st)) =
       (delivered (fun e => sec_row sh en (keyread_only_ st) keyno <$> head (with_prefix fst (comp_key e) l)) es, HA_ERR_END_OF_FILE)).
Proof.
  intros es Ht. destruct (mrr_init_sorted seq) as [Hperm Hsorted]. split; [done|]. split; [done|]. split.
  - intros Hpk Hget. apply (mrr_collect _ (fun st => is_Some (scan_txn st))); [|by rewrite Ht|done|done].
    intros e s He Hs. unfold mrr_lookup. rewrite Hpk. unfold fetch_row_by_pk. specialize (Hget e He).
    destruct (en_get en (build_data_key (comp_key e))) as [rc v]. cbn in Hget. set_unfold in Hget.
    destruct Hget as [-> | [-> | []]]; (eexists; split; [|try split; reflexivity]; exact Hs).
  - intros Hpk Hcf Hop Hrows.
    apply (mrr_collect _ (mrr_ready l t (keyread_only_ st))); [|done|by intros s (_ & -> & _)|done].
    intros e s _ Hs. by apply mrr_lookup_sec.
Qed.

End Exact.

(** ** Examples *)

(** An IN list on the primary key of three values, one of which no row has. *)
Definition in_list : list KEY_MULTI_RANGE := [mk_range true false true [3] 30; mk_range true false true [8] 80; mk_range true false true [1] 10].

Lemma multi_range_exact_witness :
  collect_with mrr_obs (multi_range_read_next (demo_share 1) 0 false env1) 3
    (multi_range_read_next (demo_share 1) 0 false env1 (mk_mrrst (multi_range_read_init in_list) None on_pk)) =
  ([(Some 10, ([1], Some [5])); (Some 30, ([3], Some [5]))], HA_ERR_END_OF_FILE).
Proof.
  refine (proj1 (proj2 (proj2 (multi_range_exact (demo_share 1) 0 env1 eq_refl eq_refl in_list on_pk [] 70 eq_refl))) eq_refl _).
  intros e He. apply list_elem_of_In in He. vm_compute in He. destruct He as [<-|[<-|[<-|[]]]]; vm_compute; set_solver.
Defined.

(** The statement locks rows: a single lookup by the primary key asks the lock manager
    and returns its error, the same lookup in a list of two does not ask it. *)
Theorem multi_range_skips_row_lock :
  let en := mk_renv false HA_OK 70 1 (en_iter_new env1) (en_get env1) (Some (fun _ => HA_ERR_LOCK_WAIT_TIMEOUT)) in
  let seq := [mk_range true false true [1] 10; mk_range true false true [3] 30] in
  (index_read_map (demo_share 1) en [1] HA_READ_KEY_EXACT on_pk).1 = HA_ERR_LOCK_WAIT_TIMEOUT /\
  multi_range_read_info_const (Some 2) false seq = (Some 2, true) /\
  (multi_range_read_next (demo_share 1) 0 false en (mk_mrrst (multi_range_read_init seq) None on_pk)).1 = HA_OK.
Proof. split_and!; vm_compute; reflexivity. Qed.
