(* ===== verification/Table.v ===== *)
(** * The table the server sees

    The row changes keep the column families in step with an abstract table, a map from
    keys to rows; the scans read column families.  Here both meet: on the families the
    row changes leave, the scans of the handler deliver the rows of the table. *)

From Stdlib Require Import ZArith Lia Sorting.Sorted.
From stdpp Require Import base tactics list numbers gmap sets sorting.
From S2P Require Import Prelude Errors KeyCodec Scan Dml Reads ReadsProof ReadsExamples.

Section Table.
Context {It Rec : Type} `{IterLaws It} `{TableLaws Rec} `{RowReads Rec}.
Variable sh : Dml.share.
Variable rsh : read_share.
Variable en : read_env It.

(** The reads of a transaction see the families as the row changes left them. *)
Record env_reads (s : hstate) : Prop := {
  er_running : Reads.en_killed en = false;
  er_ensure : Reads.en_ensure en = HA_OK;
  er_get k : en_get en k = match cf_of None s !! k with Some v => (TDB_SUCCESS, v.1) | None => (TDB_ERR_NOT_FOUND, []) end;
  er_iter c : c = None \/ (exists i ix, c = Some i /\ (i, ix) ∈ active_indexes sh) -> exists it, en_iter_new en c = (TDB_SUCCESS, it) /\
                forall k v, (k, v) ∈ it_entries it <-> fst <$> cf_of c s !! k = Some v
}.

(** A codec that reads back what it writes, and a pushed condition that is not there. *)
Class ReadsBack : Prop := {
  decode_serialize rec : decode_row (Rec := Rec) (serialize rec) = rec;
  icp_without i k : icp_check (Rec := Rec) None i k = CHECK_POS
}.
Context `{ReadsBack}.

(** The handler of a statement that reads: no cached iterator, no pushed condition. *)
Definition fresh (st : hread It Rec) : Prop :=
  scan_iter st = None /\ scan_iter_last_err st = None /\ pushed_idx_cond_keyno st = None /\ keyread_only_ st = false.

Lemma sorted_keys_nodup (l : list (bytes * bytes)) : sorted_cf fst l -> NoDup l.*1.
Proof.
  intros Hs. induction Hs as [|a l Hs IH Hall]; [constructor|]. cbn. apply NoDup_cons. split; [|done].
  intros (b & Hb & Hin)%list_elem_of_fmap. rewrite Forall_forall in Hall. specialize (Hall b Hin).
  unfold bytes_lt in Hall. rewrite Hb in Hall. by rewrite (proj2 (bytes_compare_eq b.1 b.1) eq_refl) in Hall.
Qed.

(** *** The whole table *)

Lemma data_row_elem s rows (l : list (bytes * bytes)) pk o : consistent sh s rows ->
  (forall k v, (k, v) ∈ l <-> fst <$> cf_of None s !! k = Some v) ->
  (pk, o) ∈ (pk_row (Rec := Rec) <$> data_rows l) <-> exists rec, rows !! pk = Some rec /\ o = Some rec.
Proof.
  intros Hc Hl. rewrite list_elem_of_fmap. split.
  - intros ([k v] & [= -> ->] & Hin). unfold data_rows in Hin. apply list_elem_of_In, List.filter_In in Hin as [Hin Hd].
    cbn [fst snd] in *. apply is_data_key_eq in Hd. apply list_elem_of_In, Hl in Hin. rewrite Hd in Hin.
    pose proof (c_data _ _ _ Hc (drop 1 k)) as Hdata. unfold build_data_key in Hdata. rewrite Hin in Hdata.
    destruct (rows !! drop 1 k) as [rec|] eqn:Hr; [|done]. cbn in Hdata. injection Hdata as ->.
    exists rec. split; [done|]. by rewrite decode_serialize.
  - intros (rec & Hr & ->). exists (build_data_key pk, serialize rec). unfold pk_row. cbn [fst snd]. rewrite decode_serialize.
    split; [done|]. unfold data_rows. apply list_elem_of_In, List.filter_In. split; [|done].
    apply list_elem_of_In, Hl. by rewrite (c_data _ _ _ Hc), Hr.
Qed.

(** *** An index *)

Lemma index_entry s rows i ix k v : consistent sh s rows -> (i, ix) ∈ active_indexes sh -> ix_kind ix = Regular ->
  fst <$> cf_of (Some i) s !! k = Some v <-> exists pk rec, rows !! pk = Some rec /\ k = idx_prefix i rec ++ pk /\ v = tdb_empty_val.
Proof.
  intros Hc He Hk. pose proof (c_index _ _ _ Hc (i, ix) He k v) as Hi. unfold kv in Hi. rewrite lookup_fmap in Hi.
  rewrite Hi. unfold entries. rewrite Hk. setoid_rewrite lookup_singleton_Some. naive_solver.
Qed.

Lemma has_prefix_app p a b : (length p <= length a)%nat -> has_prefix p (a ++ b) = has_prefix p a.
Proof. intros Hl. unfold has_prefix. by rewrite take_app_le. Qed.

Lemma with_prefix_elem (p : bytes) (l : list (bytes * bytes)) e : e ∈ with_prefix fst p l <-> e ∈ l /\ has_prefix p e.1 = true.
Proof. unfold with_prefix. rewrite list_elem_of_filter. tauto. Qed.

Lemma sorted_nodup (l : list (bytes * bytes)) : sorted_cf fst l -> NoDup l.
Proof. intros Hs%sorted_keys_nodup. by eapply NoDup_fmap_1. Qed.

Lemma key_functional s c (l : list (bytes * bytes)) k v1 v2 :
  (forall k v, (k, v) ∈ l <-> fst <$> cf_of c s !! k = Some v) -> (k, v1) ∈ l -> (k, v2) ∈ l -> v1 = v2.
Proof. intros Hl Hx1%Hl Hx2%Hl. congruence. Qed.

Lemma scan_rows_once s (l : list (bytes * bytes)) : sorted_cf fst l ->
  (forall k v, (k, v) ∈ l <-> fst <$> cf_of None s !! k = Some v) -> NoDup (pk_row (Rec := Rec) <$> data_rows l).*1.
Proof.
  intros Hs Hl. rewrite <- list_fmap_compose. apply NoDup_fmap_2_strong.
  2: { unfold data_rows. apply base.NoDup_ListNoDup, List.NoDup_filter, base.NoDup_ListNoDup. by apply sorted_nodup. }
  intros [k1 v1] [k2 v2] Hx1 Hx2 Heq. cbn in Heq. unfold data_rows in Hx1, Hx2.
  apply list_elem_of_In, List.filter_In in Hx1 as [Hx1 D1], Hx2 as [Hx2 D2]. cbn [fst] in D1, D2.
  apply is_data_key_eq in D1, D2. assert (k1 = k2) as -> by congruence.
  f_equal. by apply (key_functional s None l k2); [|apply list_elem_of_In..].
Qed.

Lemma table_scan_sees s rows (st : hread It Rec) : consistent sh s rows -> env_reads s -> fresh st ->
  exists n os, let '(rc, st1) := rnd_init en st in
     rc = HA_OK /\ collect n (Reads.rnd_next en) (Reads.rnd_next en st1) = (os, HA_ERR_END_OF_FILE) /\ NoDup os.*1 /\
     forall pk o, (pk, o) ∈ os <-> exists rec, rows !! pk = Some rec /\ o = Some rec.
Proof.
  intros Hc Hen Hfr. destruct (er_iter _ Hen None (or_introl eq_refl)) as (it & Hnew & Hl).
  exists (length (it_entries it)), (pk_row <$> data_rows (it_entries it)).
  pose proof (table_scan_all en (er_running _ Hen) st (it_entries it) (er_ensure _ Hen) (ex_intro _ it (conj Hnew eq_refl))) as Hscan.
  destruct (rnd_init en st) as [rc st1]. destruct Hscan as [-> Hcol].
  { intros sl Hsl. destruct Hfr as (Hnone & _). congruence. }
  split; [done|]. split; [exact Hcol|]. split; [apply (scan_rows_once s); [apply it_sorted|done]|].
  intros pk o. by apply (data_row_elem s).
Qed.

Lemma pk_lookup_sees s rows (st : hread It Rec) pk : consistent sh s rows -> env_reads s ->
  Reads.en_lock en = None -> (rs_comp_len rsh (rs_pk_index rsh) <= length pk)%nat -> is_pk_ st = true ->
  collect 1 (index_next_same rsh en) (index_read_map rsh en pk HA_READ_KEY_EXACT st) =
    match rows !! pk with Some rec => ([(pk, Some rec)], HA_ERR_END_OF_FILE) | None => ([], HA_ERR_KEY_NOT_FOUND) end.
Proof.
  intros Hc Hen Hlk Hlen Hpk. pose proof (c_data _ _ _ Hc pk) as Hdata.
  unfold index_read_map. cbn [set_search is_pk_]. rewrite Hpk. unfold read_map_pk. rewrite (proj2 (Nat.leb_le _ _) Hlen), Hlk.
  unfold fetch_row_by_pk. rewrite (er_get _ Hen).
  destruct (cf_of None s !! build_data_key pk) as [v|]; destruct (rows !! pk) as [rec|]; try done.
  cbn in Hdata. injection Hdata as Hv. rewrite Hv, decode_serialize, bool_decide_true by done.
  unfold collect. cbn [collect_with]. unfold index_next_same. cbn.
  by rewrite (er_running _ Hen), Hpk, (proj2 (Nat.leb_le _ _) Hlen).
Qed.

(** The entries of an index point to rows that are there. *)
Lemma index_rows_present s rows i ix (l : list (bytes * bytes)) : consistent sh s rows -> env_reads s ->
  (i, ix) ∈ active_indexes sh -> ix_kind ix = Regular -> rs_comp_len rsh i = idx_len i ->
  (forall pk, is_Some (rows !! pk) -> pk <> []) ->
  (forall k v, (k, v) ∈ l <-> fst <$> cf_of (Some i) s !! k = Some v) -> rows_present rsh en i l.
Proof.
  intros Hc Hen He Hk Hlen Hne Hl. apply Forall_forall. intros [k v] Hin. cbn [fst].
  apply Hl, (index_entry s rows i ix k v Hc He Hk) in Hin as (pk & rec & Hr & -> & _).
  rewrite Hlen, length_app, prefix_length, drop_app_exact by apply prefix_length.
  split; [|rewrite (er_get _ Hen); pose proof (c_data _ _ _ Hc pk) as Hd; rewrite Hr in Hd; by destruct (cf_of None s !! build_data_key pk)].
  specialize (Hne pk (mk_is_Some _ _ Hr)). destruct pk; [done|]. cbn. lia.
Qed.

Lemma sec_row_elem s rows i ix comp (l : list (bytes * bytes)) : consistent sh s rows -> env_reads s ->
  (i, ix) ∈ active_indexes sh -> ix_kind ix = Regular -> rs_comp_len rsh i = idx_len i -> (length comp <= idx_len i)%nat ->
  (forall k v, (k, v) ∈ l <-> fst <$> cf_of (Some i) s !! k = Some v) ->
  forall pk o, (pk, o) ∈ (sec_row (Rec := Rec) rsh en false i <$> with_prefix fst comp l) <->
    exists rec, rows !! pk = Some rec /\ has_prefix comp (idx_prefix i rec) = true /\ o = Some rec.
Proof.
  intros Hc Hen He Hk Hlen Hcomp Hl pk o. rewrite list_elem_of_fmap.
  assert (Hrow : forall rec p v, rows !! p = Some rec -> sec_row rsh en false i (idx_prefix i rec ++ p, v) = (p, Some rec)).
  { intros rec p v Hr. unfold sec_row. cbn [fst]. rewrite Hlen, drop_app_exact by apply prefix_length. do 2 f_equal.
    rewrite (er_get _ Hen). pose proof (c_data _ _ _ Hc p) as Hd. rewrite Hr in Hd.
    destruct (cf_of None s !! build_data_key p); [|done]. cbn in Hd |- *. injection Hd as ->. apply decode_serialize. }
  split.
  - intros ([k v] & Heq & [Hin Hp]%with_prefix_elem). cbn [fst] in Hp.
    apply Hl, (index_entry s rows i ix k v Hc He Hk) in Hin as (p & rec & Hr & -> & _).
    rewrite (Hrow rec p v Hr) in Heq. injection Heq as -> ->. exists rec. split; [done|]. split; [|done].
    by rewrite has_prefix_app in Hp by (by rewrite prefix_length).
  - intros (rec & Hr & Hp & ->). exists (idx_prefix i rec ++ pk, tdb_empty_val). split; [by rewrite (Hrow rec)|].
    apply with_prefix_elem. split; [|cbn; by rewrite has_prefix_app by (by rewrite prefix_length)].
    apply Hl, (index_entry s rows i ix _ _ Hc He Hk). by exists pk, rec.
Qed.

Lemma lookup_rows_once s rows i ix comp (l : list (bytes * bytes)) : consistent sh s rows ->
  (i, ix) ∈ active_indexes sh -> ix_kind ix = Regular -> rs_comp_len rsh i = idx_len i -> sorted_cf fst l ->
  (forall k v, (k, v) ∈ l <-> fst <$> cf_of (Some i) s !! k = Some v) ->
  NoDup (sec_row (Rec := Rec) rsh en false i <$> with_prefix fst comp l).*1.
Proof.
  intros Hc He Hk Hlen Hs Hl. rewrite <- list_fmap_compose. apply NoDup_fmap_2_strong.
  2: { unfold with_prefix. apply NoDup_filter. by apply sorted_nodup. }
  intros [k1 v1] [k2 v2] [Hx1 _]%with_prefix_elem [Hx2 _]%with_prefix_elem Heq. cbn in Heq.
  apply Hl, (index_entry s rows i ix _ _ Hc He Hk) in Hx1 as (p1 & r1 & R1 & -> & ->), Hx2 as (p2 & r2 & R2 & -> & ->).
  rewrite Hlen, !drop_app_exact in Heq by apply prefix_length. subst p2. congruence.
Qed.

Lemma index_init_fresh i st st1 : fresh st -> rs_has_user_pk rsh && Nat.eqb i (rs_pk_index rsh) = false ->
  index_init rsh en i st = (HA_OK, st1) ->
  fresh st1 /\ is_pk_ st1 = false /\ active_index st1 = i /\ scan_txn st1 = Some (en_stmt_txn en) /\ scan_cf_ st1 = Some (Some i).
Proof.
  intros (Hi & He & Hp & Hk) Hpk. unfold index_init. rewrite Hpk. cbn -[keep_iter]. rewrite Hp.
  destruct (Reads.en_ensure en); try done. destruct (rs_has_cf rsh i); [|done]. intros [= <-]. unfold keep_iter.
  match goal with |- context [if ?b then set_pushed _ _ _ else _] => destruct b end; cbn; rewrite ?Hi; cbn; by repeat split.
Qed.

Lemma index_lookup_sees s rows i ix comp (st st1 : hread It Rec) : consistent sh s rows -> env_reads s -> fresh st ->
  (forall pk, is_Some (rows !! pk) -> pk <> []) ->
  (i, ix) ∈ active_indexes sh -> ix_kind ix = Regular -> rs_comp_len rsh i = idx_len i ->
  (length comp <= idx_len i)%nat -> rs_has_user_pk rsh && Nat.eqb i (rs_pk_index rsh) = false ->
  index_init rsh en i st = (HA_OK, st1) ->
  exists n os rc, collect n (index_next_same rsh en) (index_read_map rsh en comp HA_READ_KEY_EXACT st1) = (os, rc) /\ ends rc os /\
    NoDup os.*1 /\
    forall pk o, (pk, o) ∈ os <-> exists rec, rows !! pk = Some rec /\ has_prefix comp (idx_prefix i rec) = true /\ o = Some rec.
Proof.
  intros Hc Hen Hfr Hne He Hk Hlen Hcomp Hpk Hinit.
  destruct (index_init_fresh i st st1 Hfr Hpk Hinit) as ((Hi & Her & Hp & Hkr) & Hpk1 & Hact & Htx & Hcf).
  destruct (er_iter _ Hen (Some i)) as (it & Hnew & Hl); [right; by exists i, ix|]. set (l := it_entries it) in *.
  assert (Hop : opens en st1 l).
  { unfold opens. rewrite Hi. split; [done|]. by exists (en_stmt_txn en), (Some i), it. }
  destruct (read_map_opens rsh en comp HA_READ_KEY_EXACT st1 l Hop) as (st2 & He2 & Hpar & Hsec & _).
  destruct (params_proj _ _ Hpar) as (Pi & Ppk & _ & Pp & Pk & Pse & _). cbn in Pi, Ppk, Pp, Pk, Pse.
  rewrite (Hsec Hpk1). unfold read_map_sec. rewrite with_iter_some by (by eapply entries_some). cbn [is_backward].
  destruct (lookup_sec rsh en (er_running _ Hen) st2 l comp He2) as (rc & E & Hrc); [congruence|done| |].
  { rewrite Pi, Hact. by eapply index_rows_present. }
  rewrite view_all in E, Hrc by (try exact icp_without; congruence). rewrite Pk, Hkr, Pi, Hact in E.
  eexists _, _, rc. split; [exact E|]. split; [destruct Hrc as [?|[? ->]]; [by left|by right]|].
  split; [eapply lookup_rows_once; try done; apply it_sorted|]. by eapply sec_row_elem.
Qed.

(** C6: the reads see the table.  When the column families hold exactly the rows of a
    table and their index entries, as the row changes keep them, then through any
    engine iterator that keeps its promises: a table scan delivers every row of the
    table once and nothing else; a lookup by the primary key delivers the row with that
    key, or none; and a lookup by a key, or a prefix of one, of a regular secondary
    index delivers exactly the rows of the table whose columns start with it, each
    once. *)
Theorem reads_see_table (s : hstate) (rows : gmap bytes Rec) (st : hread It Rec) :
  consistent sh s rows -> env_reads s -> fresh st ->
  (forall pk, is_Some (rows !! pk) -> pk <> []) ->
  (exists n os, let '(rc, st1) := rnd_init en st in
     rc = HA_OK /\ collect n (Reads.rnd_next en) (Reads.rnd_next en st1) = (os, HA_ERR_END_OF_FILE) /\ NoDup os.*1 /\
     forall pk o, (pk, o) ∈ os <-> exists rec, rows !! pk = Some rec /\ o = Some rec) /\
  (forall pk, Reads.en_lock en = None -> (rs_comp_len rsh (rs_pk_index rsh) <= length pk)%nat -> is_pk_ st = true ->
     collect 1 (index_next_same rsh en) (index_read_map rsh en pk HA_READ_KEY_EXACT st) =
       match rows !! pk with Some rec => ([(pk, Some rec)], HA_ERR_END_OF_FILE) | None => ([], HA_ERR_KEY_NOT_FOUND) end) /\
  (forall i ix comp st1, (i, ix) ∈ active_indexes sh -> ix_kind ix = Regular -> rs_comp_len rsh i = idx_len i ->
     (length comp <= idx_len i)%nat -> rs_has_user_pk rsh && Nat.eqb i (rs_pk_index rsh) = false ->
     index_init rsh en i st = (HA_OK, st1) ->
     exists n os rc, collect n (index_next_same rsh en) (index_read_map rsh en comp HA_READ_KEY_EXACT st1) = (os, rc) /\ ends rc os /\
       NoDup os.*1 /\
       forall pk o, (pk, o) ∈ os <-> exists rec, rows !! pk = Some rec /\ has_prefix comp (idx_prefix i rec) = true /\ o = Some rec).
Proof.
  intros Hc Hen Hfr Hne. split_and!.
  - by apply (table_scan_sees s).
  - intros pk Hlk Hlen Hpk. by apply (pk_lookup_sees s).
  - intros i ix comp st1 He Hk Hlen Hcomp Hpk Hinit. by eapply index_lookup_sees.
Qed.

End Table.

(** ** Reading a state

    The families of a state, read through sorted lists. *)

Definition key_le (a b : bytes * bytes) : Prop := bytes_compare a.1 b.1 <> Gt.
#[export] Instance key_le_dec : RelDecision key_le.
Proof. intros a b. unfold key_le. destruct (bytes_compare a.1 b.1); [left; done|left; done|right; auto]. Defined.
#[export] Instance key_le_total : Total key_le.
Proof. intros a b. unfold key_le. rewrite (bytes_compare_antisym a.1 b.1). destruct (bytes_compare a.1 b.1); cbn; auto. Qed.

Lemma sortedb_of l : Sorted key_le l -> NoDup l.*1 -> sortedb l = true.
Proof.
  induction 1 as [|a l Hs IH Ha]; intros Hnd; [done|]. rewrite fmap_cons in Hnd. apply NoDup_cons in Hnd as [Hni Hnd].
  destruct l as [|b l]; [done|]. cbn [sortedb]. inv Ha. unfold key_le in *. rewrite fmap_cons in Hni.
  destruct (bytes_compare a.1 b.1) eqn:E; [|by apply IH|done]. apply bytes_compare_eq in E. exfalso. apply Hni. rewrite E. by left.
Qed.

Definition family (c : cf_id) (s : hstate) : list (bytes * bytes) := (fun e => (e.1, e.2.1)) <$> map_to_list (cf_of c s).

Lemma family_sorted c s : sortedb (merge_sort key_le (family c s)) = true.
Proof.
  apply sortedb_of; [apply Sorted_merge_sort; apply _|]. rewrite merge_sort_Permutation. unfold family.
  rewrite <- list_fmap_compose. apply (NoDup_fst_map_to_list (cf_of c s)).
Qed.

Definition family_iter (c : cf_id) (s : hstate) : list_iter := mk_li (merge_sort key_le (family c s)) None (family_sorted c s).
Definition state_get (s : hstate) (k : bytes) : tdb_rc * bytes :=
  match cf_of None s !! k with Some v => (TDB_SUCCESS, v.1) | None => (TDB_ERR_NOT_FOUND, []) end.
Definition state_env (s : hstate) : read_env list_iter :=
  mk_renv false HA_OK 70 1 (fun c => (TDB_SUCCESS, family_iter c s)) (state_get s) None.

Lemma state_env_reads {Rec} `{TableCodec Rec} sh s : env_reads sh (state_env s) s.
Proof.
  split; [done..|]. intros c _. exists (family_iter c s). split; [done|]. intros k v.
  change (it_entries (family_iter c s)) with (merge_sort key_le (family c s)). rewrite merge_sort_Permutation. unfold family.
  rewrite list_elem_of_fmap, fmap_Some. split.
  - intros ([k' [v' t]] & [= -> ->] & Hin%elem_of_map_to_list). by exists (v', t).
  - intros ([v' t] & Hin & ->). exists (k, (v', t)). split; [done|]. by apply elem_of_map_to_list.
Qed.

(** *** States that row changes reach *)

Definition empty_table : hstate := mk_h ∅ [] [] 1 0 None [] ∅ ∅ 0 None [].
Definition write {Rec} `{TableCodec Rec} (sh : Dml.share) (r : Rec) (s : hstate) : hstate := (write_row sh (Dml.demo_env ∅ true) r s).2.

Lemma empty_consistent {Rec} `{TableLaws Rec} sh : consistent (Rec := Rec) sh empty_table ∅.
Proof.
  split.
  - intros pk. by rewrite !lookup_empty.
  - intros e He k v. unfold kv, cf_of. cbn [cfs empty_table]. rewrite lookup_empty. cbn [default]. rewrite lookup_fmap, lookup_empty.
    split; [done|]. intros (pk & rec & Hr & _). by rewrite lookup_empty in Hr.
  - intros pk rec Hr. by rewrite lookup_empty in Hr.
Qed.

Lemma write_consistent {Rec} `{TableLaws Rec} sh (r : Rec) s rows pk : consistent sh s rows ->
  (write_row sh (Dml.demo_env ∅ true) r s).1 = inr tt -> pk_checked sh (Dml.demo_env ∅ true) = true ->
  row_pk sh s r = pk -> consistent sh (write sh r s) (<[pk := r]> rows).
Proof.
  intros Hc Hok Hck <-. unfold write. destruct (write_row sh (Dml.demo_env ∅ true) r s) as [res s'] eqn:E. cbn in Hok |- *. subst res.
  by destruct (write_keeps sh (Dml.demo_env ∅ true) r s s' rows Hc E) as [Hc' _]; [by rewrite Hck|].
Qed.

(** ** A table of pairs *)

#[export] Instance pair_codec : TableCodec (Z * Z) := {
  serialize r := [r.1; r.2];
  pk_bytes r := [r.1];
  idx_prefix _ r := [r.2];
  fts_tokens _ _ := [];
  spatial_entry _ _ := None;
  ttl_field _ := None
}.

#[export] Instance pair_laws : TableLaws (Z * Z).
Proof. by refine (Build_TableLaws _ _ (fun _ => 1%nat) _ _ _). Defined.

#[export] Instance pair_reads : RowReads (Z * Z) := {
  decode_row v := match v with [a; b] => (a, b) | _ => (0, 0) end;
  keyread _ _ := None;
  icp_check _ _ _ := CHECK_POS
}.

#[export] Instance pair_back : ReadsBack (Rec := Z * Z).
Proof. by split; [intros []|]. Qed.

Definition pair_share : Dml.share :=
  Dml.mk_share true 0 [0%nat] [mk_index Regular true [0%nat] false; mk_index Regular false [1%nat] true] false false 0 8.
Definition pair_rshare : read_share := mk_rshare true 0 (fun i => Nat.eqb i 1) (fun _ => 1%nat) 1.
Definition three_rows : hstate := write pair_share (3, 5) (write pair_share (2, 6) (write pair_share (1, 5) empty_table)).
Definition three_map : gmap bytes (Z * Z) := <[[3] := (3, 5)]> (<[[2] := (2, 6)]> (<[[1] := (1, 5)]> ∅)).

Lemma three_consistent : consistent pair_share three_rows three_map.
Proof. repeat (apply write_consistent; [|vm_compute; reflexivity|reflexivity|reflexivity]). apply empty_consistent. Qed.

Lemma three_keys pk : is_Some (three_map !! pk) -> pk <> [].
Proof. intros Hr ->. by apply (is_Some_None (A := Z * Z)). Qed.

Definition table_env : read_env list_iter := state_env three_rows.
Definition pair_start : hread list_iter (Z * Z) := mk_hread 0 false false DIR_NONE None None None None [] [] None false false None.
Definition pair_index_start : hread list_iter (Z * Z) := (index_init pair_rshare table_env 1 pair_start).2.

Lemma reads_see_table_witness :
  (exists n os, let '(rc, st1) := rnd_init table_env pair_start in
     rc = HA_OK /\ collect n (Reads.rnd_next table_env) (Reads.rnd_next table_env st1) = (os, HA_ERR_END_OF_FILE) /\ NoDup os.*1 /\
     forall pk o, (pk, o) ∈ os <-> exists rec, three_map !! pk = Some rec /\ o = Some rec) /\
  (exists n os rc, collect n (index_next_same pair_rshare table_env) (index_read_map pair_rshare table_env [5] HA_READ_KEY_EXACT pair_index_start) = (os, rc) /\
     forall pk o, (pk, o) ∈ os <-> exists rec, three_map !! pk = Some rec /\ has_prefix [5] [rec.2] = true /\ o = Some rec).
Proof.
  assert (Hf : fresh pair_start) by (by repeat split).
  destruct (reads_see_table pair_share pair_rshare table_env three_rows three_map pair_start three_consistent (state_env_reads pair_share three_rows) Hf three_keys)
    as (Hscan & _ & Hidx).
  split; [exact Hscan|].
  destruct (Hidx 1%nat (mk_index Regular false [1%nat] true) [5] pair_index_start) as (n & os & rc & Hcol & _ & _ & Hos);
    [by left|reflexivity|reflexivity|simpl; lia|reflexivity|reflexivity|].
  exists n, os, rc. by split.
Defined.
