(* ===== verification/Tokenizer.v ===== *)
(** * Words of a document and of a query (tidesdb_fts.cc 213-718)

    The tokenizer of the full-text index, its stop words and blended characters, the
    parser of boolean queries and the test for a phrase.  The character set is the
    server's: which bytes start a multi-byte character, which are letters or digits,
    and how a word is lowered are operations of a class. *)

From Stdlib Require Import ZArith Lia Strings.String.
From stdpp Require Import base tactics list numbers gmap sets.
From S2P Require Import Prelude Errors Scan Paths CfNames Fts.

Open Scope list_scope.

(** [my_ismbchar] of the bytes from a position to the end of the text: the length of
    the multi-byte character there, 0 when there is none. *)
Class Charset := {
  my_ismbchar : bytes -> nat;
  my_isalnum : Z -> bool;
  casedn : bytes -> bytes
}.

(** The settings of the tokenizer. *)
Record fts_globals := mk_fts {
  srv_fts_min_word_len : nat;
  srv_fts_max_word_len : nat;
  tdb_stopwords : gset bytes;
  tdb_blend_char_map : list bool
}.

(** ** Blended characters *)

Definition TDB_BLEND_MAP_SIZE : nat := 256.

(** [NULL] is the empty string; the string ends at its first zero. *)
Definition tdb_rebuild_blend_map (chars : bytes) : list bool :=
  foldl (fun m c => <[Z.to_nat c := true]> m) (replicate TDB_BLEND_MAP_SIZE false) chars.

Definition tdb_fts_blend_chars_update (new_val : bytes) (g : fts_globals) : fts_globals :=
  mk_fts (srv_fts_min_word_len g) (srv_fts_max_word_len g) (tdb_stopwords g) (tdb_rebuild_blend_map new_val).

(** ** Stop words *)

Definition tdb_default_stopwords : list bytes := of_string <$>
  ["a"; "about"; "an"; "are"; "as"; "at"; "be"; "by"; "com"; "de";
   "en"; "for"; "from"; "how"; "i"; "in"; "is"; "it"; "la"; "of";
   "on"; "or"; "that"; "the"; "this"; "to"; "was"; "what"; "when"; "where";
   "who"; "will"; "with"; "und"; "the"; "www"]%string.

Definition tdb_load_default_stopwords_into : gset bytes := list_to_set tdb_default_stopwords.

Definition ROW_HEADER_SIZE : nat := 5.
Definition NULL_BITMAP_SINGLE_FIELD : nat := 1.
Definition FIELD_VARCHAR_LEN_PREFIX : nat := 2.

(** [::tolower] in the C locale. *)
Definition tolower (c : Z) : Z := if (65 <=? c) && (c <=? 90) then c + 32 else c.

(** The word of a row of the stop-word table (lines 362-393). *)
Definition stopword_of_row (val : bytes) : option bytes :=
  if Nat.eqb (length val) 0 then None
  else
    let data := if Nat.ltb ROW_HEADER_SIZE (length val)
                then let d := drop ROW_HEADER_SIZE val in
                     if Nat.ltb NULL_BITMAP_SINGLE_FIELD (length d) then drop NULL_BITMAP_SINGLE_FIELD d else d
                else val in
    if Nat.leb FIELD_VARCHAR_LEN_PREFIX (length data)
    then let str_len := le_combine (take 2 data) in
         if (str_len <=? Z.of_nat (length data - FIELD_VARCHAR_LEN_PREFIX)) && (0 <? str_len)
         then Some (tolower <$> take (Z.to_nat str_len) (drop FIELD_VARCHAR_LEN_PREFIX data))
         else None
    else None.

(** What the load of a stop-word table asks of the session and of the engine: the
    security context, the privilege on a database, the values of a column family in
    key order ([None] where a value cannot be read), [txn_begin] and [iter_new]. *)
Record stopword_env := mk_sw {
  sw_context : bool;
  sw_check_access : bytes -> bool;
  sw_column_family : bytes -> option (list (option bytes));
  sw_txn_begin : bool;
  sw_iter_new : bool
}.

Fixpoint split_slash (s : bytes) : option (bytes * bytes) :=
  match s with
  | [] => None
  | c :: r => if c =? 47 then Some ([], r)
              else match split_slash r with Some (a, b) => Some (c :: a, b) | None => None end
  end.

Definition tdb_load_stopwords_from_table_spec_into (en : stopword_env) (table_spec : bytes) : option (gset bytes) :=
  match split_slash table_spec with
  | None => None
  | Some (db_name, tbl_name) =>
    if negb (sw_context en) then None
    else if negb (sw_check_access en db_name) then None
    else match sw_column_family en (db_name ++ [47] ++ tbl_name) with
         | None => None
         | Some vals =>
           if negb (sw_txn_begin en) then None
           else if negb (sw_iter_new en) then None
           else Some (list_to_set (omap (fun v => v ≫= stopword_of_row) vals))
         end
  end.

(** The new setting and the value of the variable. *)
Definition tdb_ft_stopword_table_update (en : stopword_env) (new_val : bytes) (g : fts_globals) : fts_globals * bytes :=
  let set s := mk_fts (srv_fts_min_word_len g) (srv_fts_max_word_len g) s (tdb_blend_char_map g) in
  let loaded := match new_val with
                | [] => Some tdb_load_default_stopwords_into
                | _ => tdb_load_stopwords_from_table_spec_into en new_val
                end in
  (match loaded with Some s => set s | None => g end, new_val).

Definition tdb_fts_init (min_len max_len : nat) (srv_fts_blend_chars : bytes) : fts_globals :=
  mk_fts min_len max_len tdb_load_default_stopwords_into (tdb_rebuild_blend_map srv_fts_blend_chars).

(** ** The tokenizer *)

Section Tokenizer.
Context `{Charset}.
Variable g : fts_globals.

Definition blend (c : Z) : bool := default false (tdb_blend_char_map g !! Z.to_nat c).
Definition has_blend : bool := existsb id (tdb_blend_char_map g).

Definition tdb_is_stopword_locked (w : bytes) : bool := bool_decide (w ∈ tdb_stopwords g).

Definition fts_emit_token (word : bytes) (char_count : nat) : list bytes :=
  if Nat.ltb char_count (srv_fts_min_word_len g) || Nat.ltb (srv_fts_max_word_len g) char_count then []
  else let w := casedn word in if tdb_is_stopword_locked w then [] else [w].

(** The character of a word at the start of [s]: its length, and whether it is a
    blended one. *)
Definition word_char (s : bytes) : option (nat * bool) :=
  match s with
  | [] => None
  | c :: _ =>
    let mblen := my_ismbchar s in
    if Nat.ltb 0 mblen then Some (mblen, false)
    else if my_isalnum c then Some (1%nat, false)
    else if has_blend && blend c then Some (1%nat, true)
    else None
  end.

(** Lines 484-491. *)
Fixpoint skip_separators (s : bytes) : bytes :=
  match s with
  | [] => []
  | _ :: r => match word_char s with Some _ => s | None => skip_separators r end
  end.

(** Lines 498-521: the bytes and characters of the word, and whether it has a blended
    character. *)
Fixpoint word_loop (fuel : nat) (s : bytes) : nat * nat * bool :=
  match fuel with
  | O => (0%nat, 0%nat, false)
  | S fuel =>
    match word_char s with
    | None => (0%nat, 0%nat, false)
    | Some (n, b) => let '(len, count, bl) := word_loop fuel (drop n s) in ((n + len)%nat, S count, b || bl)
    end
  end.

(** Lines 533-550: [sub] is the part from [sub_start] on, [sub_chars] its count. *)
Fixpoint sub_parts (word sub : bytes) (sub_chars : nat) : list bytes :=
  let emit := if Nat.ltb 0 (length sub) then fts_emit_token sub sub_chars else [] in
  match word with
  | [] => emit
  | c :: r => if blend c then emit ++ sub_parts r [] 0 else sub_parts r (sub ++ [c]) (S sub_chars)
  end.

(** Lines 524-551. *)
Definition word_tokens (word : bytes) (char_count : nat) (contains_blend : bool) : list bytes :=
  if contains_blend then fts_emit_token word char_count ++ sub_parts word [] 0
  else fts_emit_token word char_count.

Fixpoint tokenize_loop (fuel : nat) (s : bytes) : list bytes :=
  match fuel with
  | O => []
  | S fuel =>
    let s := skip_separators s in
    match s with
    | [] => []
    | _ :: _ =>
      let '(len, count, bl) := word_loop (length s) s in
      word_tokens (take len s) count bl ++ tokenize_loop fuel (drop len s)
    end
  end.

Definition fts_tokenize (text : bytes) : list bytes := tokenize_loop (length text) text.

(** The columns of the key in their order, [None] for NULL. *)
Definition fts_document (fields : list (option bytes)) : bytes :=
  foldl (fun doc f => match f with
                      | None => doc
                      | Some v => (if Nat.ltb 0 (length doc) then doc ++ [32] else doc) ++ v
                      end) [] fields.

Definition fts_extract_and_tokenize (fields : list (option bytes)) : list bytes := fts_tokenize (fts_document fields).

(** ** Boolean queries *)

Definition FTS_TERM_REQUIRED : Z := 1.
Definition FTS_TERM_EXCLUDED : Z := -1.
Definition FTS_TERM_NEUTRAL : Z := 0.
Definition FTS_BOOL_OP_REQUIRED : Z := 43.
Definition FTS_BOOL_OP_EXCLUDED : Z := 45.
Definition FTS_BOOL_OP_PHRASE : Z := 34.
Definition FTS_BOOL_OP_TRUNC : Z := 42.

Record fts_query_term_t := mk_term {
  term : bytes;
  yesno : Z;
  trunc : bool;
  is_phrase : bool;
  phrase_words : list bytes
}.

Fixpoint skip_spaces (s : bytes) : bytes :=
  match s with
  | [] => []
  | c :: r => if c =? 32 then skip_spaces r else s
  end.

(** The phrase up to the closing quote, and the rest after it. *)
Fixpoint until_quote (s : bytes) : bytes * bytes :=
  match s with
  | [] => ([], [])
  | c :: r => if c =? FTS_BOOL_OP_PHRASE then ([], r) else let '(p, rest) := until_quote r in (c :: p, rest)
  end.

Definition phrase_terms (yn : Z) (phrase : bytes) : list fts_query_term_t :=
  match phrase with
  | [] => []
  | _ =>
    match fts_tokenize phrase with
    | [] => []
    | w :: ws =>
      mk_term w (if yn =? 0 then FTS_TERM_REQUIRED else yn) false true (w :: ws) ::
      ((fun w => mk_term w FTS_TERM_REQUIRED false false []) <$> ws)
    end
  end.

(** The character of a query word at the start of [s] (lines 653-654, 660-672). *)
Definition query_char (s : bytes) : option nat :=
  match s with
  | [] => None
  | c :: _ =>
    let mblen := my_ismbchar s in
    if Nat.ltb 0 mblen then Some mblen
    else if my_isalnum c || (c =? FTS_BOOL_OP_TRUNC) then Some 1%nat
    else None
  end.

Fixpoint skip_to_word (s : bytes) : bytes :=
  match s with
  | [] => []
  | _ :: r => match query_char s with Some _ => s | None => skip_to_word r end
  end.

Fixpoint query_word_len (fuel : nat) (s : bytes) : nat :=
  match fuel with
  | O => O
  | S fuel => match query_char s with Some n => (n + query_word_len fuel (drop n s))%nat | None => O end
  end.

(** Lines 674-693. *)
Definition word_term (yn : Z) (word : bytes) : list fts_query_term_t :=
  let '(word, tr) := match last word with
                     | Some c => if c =? FTS_BOOL_OP_TRUNC then (take (length word - 1) word, true) else (word, false)
                     | None => (word, false)
                     end in
  match word with
  | [] => []
  | _ => [mk_term (casedn word) yn tr false []]
  end.

Definition query_op (s : bytes) : Z * bytes :=
  match s with
  | c :: r => if c =? FTS_BOOL_OP_REQUIRED then (FTS_TERM_REQUIRED, r)
              else if c =? FTS_BOOL_OP_EXCLUDED then (FTS_TERM_EXCLUDED, r)
              else (FTS_TERM_NEUTRAL, s)
  | [] => (FTS_TERM_NEUTRAL, s)
  end.

Fixpoint parse_loop (fuel : nat) (s : bytes) : list fts_query_term_t :=
  match fuel with
  | O => []
  | S fuel =>
    match skip_spaces s with
    | [] => []
    | s =>
      let '(yn, s) := query_op s in
      match skip_spaces s with
      | [] => []
      | (c :: r) as s =>
        if c =? FTS_BOOL_OP_PHRASE
        then let '(phrase, rest) := until_quote r in phrase_terms yn phrase ++ parse_loop fuel rest
        else
          let s := skip_to_word s in
          match s with
          | [] => []
          | _ :: _ =>
            let wlen := query_word_len (length s) s in
            word_term yn (take wlen s) ++ parse_loop fuel (drop wlen s)
          end
      end
    end
  end.

Definition fts_parse_boolean (query : bytes) : list fts_query_term_t := parse_loop (length query) query.

End Tokenizer.

(** ** Phrases *)

(** [match] of the inner loop at one position. *)
Fixpoint words_at (doc_tokens phrase : list bytes) : bool :=
  match phrase, doc_tokens with
  | [], _ => true
  | w :: ws, d :: ds => if bool_decide (d = w) then words_at ds ws else false
  | _ :: _, [] => false
  end.

(** The positions from the first to the limit. *)
Fixpoint phrase_loop (count : nat) (doc_tokens phrase : list bytes) : bool :=
  if words_at doc_tokens phrase then true
  else match count with O => false | S count => phrase_loop count (drop 1 doc_tokens) phrase end.

Definition fts_phrase_in_tokens (doc_tokens phrase : list bytes) : bool :=
  match phrase with
  | [] => true
  | _ => if Nat.ltb (length doc_tokens) (length phrase) then false
         else phrase_loop (length doc_tokens - length phrase) doc_tokens phrase
  end.

(** ** What the tokenizer computes *)

(** What the plugin relies on: a multi-byte character is inside the text and no longer
    than the character set's maximum, lowering happens in place, an ASCII byte is a
    character of its own and so never part of another one, and the operators are not
    letters. *)
Class CharsetLaws `{Charset} := {
  mbmaxlen : nat;
  mbmaxlen_pos : (1 <= mbmaxlen)%nat;
  mb_in_text s : (my_ismbchar s <= length s)%nat;
  mb_max s : (my_ismbchar s <= mbmaxlen)%nat;
  casedn_length w : (length (casedn w) <= length w)%nat;
  ascii_alone c t : 0 <= c < 128 -> my_ismbchar (c :: t) = O;
  ascii_ends s c t : s <> [] -> 0 <= c < 128 -> my_ismbchar (s ++ c :: t) = my_ismbchar s;
  operator_not_alnum c : c ∈ [32; FTS_BOOL_OP_PHRASE; FTS_BOOL_OP_TRUNC; FTS_BOOL_OP_REQUIRED; FTS_BOOL_OP_EXCLUDED] ->
    my_isalnum c = false
}.

(** The characters of a text. *)
Inductive tchar := Wide (b : bytes) | Narrow (c : Z).
Definition tbytes (c : tchar) : bytes := match c with Wide b => b | Narrow c => [c] end.

Section Reference.
Context `{CharsetLaws}.
Variable g : fts_globals.

Fixpoint chars_from (fuel : nat) (s : bytes) : list tchar :=
  match fuel, s with
  | S fuel, c :: r => if Nat.ltb 0 (my_ismbchar s) then Wide (take (my_ismbchar s) s) :: chars_from fuel (drop (my_ismbchar s) s)
                      else Narrow c :: chars_from fuel r
  | _, _ => []
  end.
Definition chars (s : bytes) : list tchar := chars_from (length s) s.

Definition in_word (c : tchar) : bool := match c with Wide _ => true | Narrow c => my_isalnum c || blend g c end.
Definition blended (c : tchar) : bool := match c with Wide _ => false | Narrow c => negb (my_isalnum c) && blend g c end.

(** The words: the longest runs of characters of words. *)
Definition flush {A} (w : list A) : list (list A) := match w with [] => [] | _ => [w] end.
Fixpoint runs {A} (f : A -> bool) (cur l : list A) : list (list A) :=
  match l with
  | [] => flush cur
  | c :: r => if f c then runs f (cur ++ [c]) r else flush cur ++ runs f [] r
  end.

(** The tokens of a word: the word, and when it has blended characters its parts
    between them. *)
Definition parts (word : bytes) : list bytes := runs (fun c => negb (blend g c)) [] word.
Definition tokens_of (w : list tchar) : list bytes :=
  let word := concat (tbytes <$> w) in
  fts_emit_token g word (length w) ++
  (if existsb blended w then concat ((fun p => fts_emit_token g p (length p)) <$> parts word) else []).

(** The tokens of a text, by its characters and words. *)
Definition tokens (text : bytes) : list bytes := concat (tokens_of <$> runs in_word [] (chars text)).

(** *** The words of a list of characters *)

Lemma runs_word {A} (f : A -> bool) (cur l : list A) :
  runs f cur l = flush (cur ++ take_while f l) ++ runs f [] (drop (length (take_while f l)) l).
Proof.
  revert cur. induction l as [|c l IH]; intros cur; cbn [runs take_while]; [by rewrite (app_nil_r cur), drop_nil, app_nil_r|].
  destruct (f c) eqn:E; [rewrite IH, <- (assoc_L (++)); reflexivity|].
  cbn [length drop runs]. by rewrite E, app_nil_r.
Qed.

Lemma runs_app {A} (f : A -> bool) (cur a b : list A) x : f x = false ->
  runs f cur (a ++ x :: b) = runs f cur a ++ runs f [] b.
Proof.
  intros Hx. revert cur. induction a as [|c a IH]; intros cur; cbn; [by rewrite Hx|].
  destruct (f c); [apply IH|]. by rewrite IH, (assoc_L (++)).
Qed.

Lemma runs_all {A} (f : A -> bool) (l : list A) : Forall (fun x => f x = true) l -> runs f [] l = flush l.
Proof.
  intros Hall. rewrite runs_word.
  assert (E : take_while f l = l) by (induction Hall as [|x l Hx Hl IH]; [done|]; cbn; rewrite Hx; by f_equal).
  rewrite E, drop_all, app_nil_r. done.
Qed.

(** *** The characters of a text *)

Lemma chars_fuel n s : (length s <= n)%nat -> chars_from n s = chars s.
Proof.
  revert s. induction n as [n IH] using lt_wf_ind. intros s Hn. unfold chars.
  destruct n as [|n]; [destruct s; [done|cbn in Hn; lia]|]. destruct s as [|c r]; [done|].
  cbn [chars_from length]. destruct (Nat.ltb_spec 0 (my_ismbchar (c :: r))) as [Hm|Hm].
  - rewrite !IH; [done| | |lia|]; rewrite ?length_drop; cbn [length] in *; lia.
  - rewrite !IH; [done| | |lia|]; cbn [length] in *; lia.
Qed.

Lemma chars_cons c r : chars (c :: r) =
  if Nat.ltb 0 (my_ismbchar (c :: r)) then Wide (take (my_ismbchar (c :: r)) (c :: r)) :: chars (drop (my_ismbchar (c :: r)) (c :: r))
  else Narrow c :: chars r.
Proof.
  unfold chars at 1. cbn [length chars_from]. destruct (Nat.ltb_spec 0 (my_ismbchar (c :: r))); [|done].
  rewrite chars_fuel; [done|]. rewrite length_drop. cbn [length]. lia.
Qed.

Lemma blend_any c : blend g c = true -> has_blend g = true.
Proof.
  unfold blend, has_blend. destruct (tdb_blend_char_map g !! Z.to_nat c) as [b|] eqn:E; [|done]. cbn. intros ->.
  apply existsb_exists. exists true. split; [|done]. apply list_elem_of_In. by eapply list_elem_of_lookup_2.
Qed.

Lemma word_char_spec c r : word_char g (c :: r) =
  match chars (c :: r) with
  | x :: _ => if in_word x then Some (length (tbytes x), blended x) else None
  | [] => None
  end.
Proof.
  rewrite chars_cons. unfold word_char. pose proof (mb_in_text (c :: r)) as Hm.
  destruct (Nat.ltb_spec 0 (my_ismbchar (c :: r))); cbn [in_word tbytes blended].
  - rewrite length_take, Nat.min_l by done. done.
  - destruct (my_isalnum c); cbn; [done|]. destruct (blend g c) eqn:Hb; [by rewrite (blend_any c)|by rewrite andb_false_r].
Qed.

Lemma chars_next c r x cs : chars (c :: r) = x :: cs ->
  tbytes x = take (length (tbytes x)) (c :: r) /\ (0 < length (tbytes x) <= length (c :: r))%nat /\ cs = chars (drop (length (tbytes x)) (c :: r)).
Proof.
  rewrite chars_cons. pose proof (mb_in_text (c :: r)) as Hm.
  destruct (Nat.ltb_spec 0 (my_ismbchar (c :: r))) as [Hp|Hp]; intros [= <- <-]; cbn [tbytes].
  - rewrite length_take, Nat.min_l by done. split_and!; auto.
  - split_and!; cbn; auto; lia.
Qed.

Lemma chars_nonempty c r : exists x cs, chars (c :: r) = x :: cs.
Proof. rewrite chars_cons. destruct (Nat.ltb _ _); eauto. Qed.

(** *** The loops *)

Lemma word_loop_spec n s : (length s <= n)%nat ->
  let w := take_while in_word (chars s) in
  let len := length (concat (tbytes <$> w)) in
  word_loop g n s = (len, length w, existsb blended w) /\ take len s = concat (tbytes <$> w) /\ (len <= length s)%nat /\
  chars (drop len s) = drop (length w) (chars s).
Proof.
  revert s. induction n as [|n IH]; intros s Hn.
  { by destruct s; [|cbn in Hn; lia]. }
  destruct s as [|c r]; [done|]. cbn [word_loop]. rewrite word_char_spec.
  destruct (chars_nonempty c r) as (x & cs & E). destruct (chars_next c r x cs E) as (Hx & Hlen & Hcs).
  rewrite E. cbn [take_while]. destruct (in_word x).
  2: { cbn [fmap list_fmap concat existsb length take drop]. rewrite E. auto with lia. }
  set (m := length (tbytes x)) in *. assert (Hd : (length (drop m (c :: r)) <= n)%nat) by (rewrite length_drop; cbn [length] in *; lia).
  destruct (IH _ Hd) as (Hl & Ht & Hle & Hc). rewrite <- Hcs in *. rewrite Hl.
  cbn [fmap list_fmap concat existsb length]. rewrite length_app. fold m.
  split; [done|]. split; [|split].
  - by rewrite <- take_take_drop, Ht, <- Hx.
  - rewrite length_drop in Hle. cbn [length] in *. lia.
  - by rewrite <- drop_drop, Hc.
Qed.

Lemma skip_spec s : runs in_word [] (chars (skip_separators g s)) = runs in_word [] (chars s) /\
  (length (skip_separators g s) <= length s)%nat /\
  match skip_separators g s with [] => True | c :: r => exists x cs, chars (c :: r) = x :: cs /\ in_word x = true end.
Proof.
  induction s as [|c r IH]; [done|]. cbn [skip_separators]. rewrite word_char_spec.
  destruct (chars_nonempty c r) as (x & cs & E). rewrite E. destruct (in_word x) eqn:Hx; [rewrite E; split_and!; eauto|].
  destruct IH as (IH & Hl & Hm). split_and!; [|cbn; lia|done]. rewrite IH. clear IH. cbn [runs]. rewrite Hx. cbn.
  rewrite chars_cons in E. destruct (Nat.ltb 0 (my_ismbchar (c :: r))); [by injection E as <- <-|]. by injection E as <- <-.
Qed.

Lemma sub_parts_spec word sub n : length sub = n ->
  sub_parts g word sub n = concat ((fun p => fts_emit_token g p (length p)) <$> runs (fun c => negb (blend g c)) sub word).
Proof.
  revert sub n. induction word as [|c r IH]; intros sub n Hn; cbn [sub_parts runs].
  - destruct sub; cbn [length] in *; subst n; [done|]. cbn. by rewrite app_nil_r.
  - destruct (blend g c); cbn [negb].
    + rewrite fmap_app, concat_app, IH by done. f_equal. destruct sub; cbn [length] in *; subst n; [done|]. cbn. by rewrite app_nil_r.
    + apply IH. rewrite length_app. cbn. lia.
Qed.

Lemma word_tokens_spec w : word_tokens g (concat (tbytes <$> w)) (length w) (existsb blended w) = tokens_of w.
Proof.
  unfold word_tokens, tokens_of, parts. destruct (existsb blended w); [|by rewrite app_nil_r].
  by rewrite sub_parts_spec.
Qed.

Lemma tokenize_loop_spec n s : (length s <= n)%nat -> tokenize_loop g n s = tokens s.
Proof.
  revert s. induction n as [|n IH]; intros s Hn; [by destruct s; [|cbn in Hn; lia]|].
  cbn [tokenize_loop]. destruct (skip_spec s) as (Hr & Hl & Hw). unfold tokens. rewrite <- Hr.
  destruct (skip_separators g s) as [|c r] eqn:Es; [done|]. destruct Hw as (x & cs & E & Hx).
  destruct (word_loop_spec (length (c :: r)) (c :: r) (Nat.le_refl _)) as (Hwl & Ht & Hle & Hc).
  rewrite Hwl, Ht, word_tokens_spec, runs_word, <- Hc, fmap_app, concat_app. f_equal.
  - rewrite E. cbn [take_while]. rewrite Hx. cbn. by rewrite app_nil_r.
  - apply IH. rewrite length_drop. destruct (chars_next c r x cs E) as (_ & Hpos & _).
    rewrite E. cbn [take_while]. rewrite Hx. cbn [fmap list_fmap concat]. rewrite length_app. cbn [length] in *. lia.
Qed.

Lemma tokenize_tokens text : fts_tokenize g text = tokens text.
Proof. by apply tokenize_loop_spec. Qed.

(** *** Documents of several columns *)

Lemma chars_ascii s c' t : 0 <= c' < 128 -> chars (s ++ c' :: t) = chars s ++ Narrow c' :: chars t.
Proof.
  intros Hc. induction s as [s IH] using (induction_ltof1 _ (@length Z)). unfold ltof in IH.
  destruct s as [|c r]; cbn [app]; [by rewrite chars_cons, ascii_alone|].
  rewrite !chars_cons. change (c :: r ++ c' :: t) with ((c :: r) ++ c' :: t). rewrite ascii_ends by done.
  pose proof (mb_in_text (c :: r)) as Hm. destruct (Nat.ltb_spec 0 (my_ismbchar (c :: r))).
  - rewrite take_app_le, drop_app_le, IH by (rewrite ?length_drop; cbn [length] in *; lia). done.
  - rewrite IH by (cbn; lia). done.
Qed.

Lemma tokens_space s t : blend g 32 = false -> tokens (s ++ 32 :: t) = tokens s ++ tokens t.
Proof.
  intros Hb. unfold tokens. rewrite chars_ascii by lia. rewrite runs_app, fmap_app, concat_app; [done|].
  cbn. rewrite Hb, operator_not_alnum by (by left). done.
Qed.

Lemma document_loop fields doc : blend g 32 = false ->
  tokens (foldl (fun doc f => match f with
                      | None => doc
                      | Some v => (if Nat.ltb 0 (length doc) then doc ++ [32] else doc) ++ v
                      end) doc fields) = tokens doc ++ concat (tokens <$> omap id fields).
Proof.
  intros Hb. revert doc. induction fields as [|[v|] fields IH]; intros doc; cbn [foldl omap list_omap id]; [by rewrite app_nil_r| |apply IH].
  rewrite IH. cbn [fmap list_fmap concat]. rewrite (assoc_L (++)). f_equal.
  destruct doc as [|c doc]; [done|]. cbn [length Nat.ltb Nat.leb]. rewrite <- (assoc_L (++)). by apply tokens_space.
Qed.

(** *** Lengths *)

Lemma wide_length s : Forall (fun c => (length (tbytes c) <= mbmaxlen)%nat) (chars s).
Proof.
  pose proof mbmaxlen_pos as Hpos. induction s as [s IH] using (induction_ltof1 _ (@length Z)). unfold ltof in IH.
  destruct s as [|c r]; [constructor|]. rewrite chars_cons. pose proof (mb_max (c :: r)) as Hm.
  destruct (Nat.ltb_spec 0 (my_ismbchar (c :: r))); constructor; cbn [tbytes length]; rewrite ?length_take; try lia;
    apply IH; rewrite ?length_drop; cbn [length]; lia.
Qed.

Lemma flush_forall {A} (P : A -> Prop) (w : list A) : Forall P w -> Forall (Forall P) (flush w).
Proof. destruct w; [constructor|]. by constructor. Qed.

Lemma runs_forall {A} (P : A -> Prop) f (cur l : list A) : Forall P cur -> Forall P l -> Forall (Forall P) (runs f cur l).
Proof.
  intros Hcur Hl. revert cur Hcur. induction Hl as [|c l Hc Hl IH]; intros cur Hcur; cbn [runs].
  - by apply flush_forall.
  - destruct (f c); [apply IH, Forall_app; auto|]. apply Forall_app. split; [by apply flush_forall|by apply IH].
Qed.

Lemma word_length w : Forall (fun c => (length (tbytes c) <= mbmaxlen)%nat) w ->
  (length (concat (tbytes <$> w)) <= length w * mbmaxlen)%nat.
Proof. induction 1 as [|c w Hc Hw IH]; [done|]. cbn. rewrite length_app. lia. Qed.

(** What is emitted is no stop word, and as long as its characters allow. *)
Lemma emit_fits word n m t : (length word <= n * m)%nat -> t ∈ fts_emit_token g word n ->
  t ∉ tdb_stopwords g /\ (length t <= srv_fts_max_word_len g * m)%nat.
Proof.
  unfold fts_emit_token, tdb_is_stopword_locked. intros Hl.
  destruct (Nat.ltb n (srv_fts_min_word_len g)) eqn:E1; [by rewrite elem_of_nil|].
  destruct (Nat.ltb_spec (srv_fts_max_word_len g) n) as [Hn|Hn]; cbn; [by rewrite elem_of_nil|].
  case_bool_decide as Hs; [by rewrite elem_of_nil|]. rewrite list_elem_of_singleton. intros ->.
  split; [done|]. pose proof (casedn_length word). nia.
Qed.

Lemma token_fits text t : t ∈ tokens text -> t ∉ tdb_stopwords g /\ (length t <= srv_fts_max_word_len g * mbmaxlen)%nat.
Proof.
  pose proof mbmaxlen_pos as Hpos. unfold tokens. rewrite list_elem_of_In, in_concat. intros (ts & Hts & Ht).
  apply list_elem_of_In, list_elem_of_fmap in Hts as (w & -> & Hw). apply list_elem_of_In in Ht. unfold tokens_of in Ht.
  pose proof (runs_forall _ in_word [] (chars text) (Forall_nil_2 _) (wide_length text)) as Hall.
  rewrite Forall_forall in Hall. specialize (Hall w Hw). apply elem_of_app in Ht as [Ht|Ht].
  - eapply emit_fits; [|exact Ht]. by apply word_length.
  - destruct (existsb blended w); [|by rewrite elem_of_nil in Ht]. apply list_elem_of_In, in_concat in Ht as (ps & Hps & Ht).
    apply list_elem_of_In, list_elem_of_fmap in Hps as (p & -> & _). apply list_elem_of_In in Ht.
    eapply (emit_fits _ _ mbmaxlen); [|exact Ht]. nia.
Qed.

End Reference.

(** *** Phrases *)

Lemma words_at_spec doc ph : words_at doc ph = true <-> exists post, doc = ph ++ post.
Proof.
  revert doc. induction ph as [|w ph IH]; intros doc; [cbn; split; [by exists doc|by destruct doc]|].
  destruct doc as [|d doc]; cbn [words_at]; [split; [done|by intros [? ?]]|].
  case_bool_decide as E; [subst d; rewrite IH|]; split.
  - intros [post ->]. by exists post.
  - intros [post [= ->]]. by exists post.
  - done.
  - intros [post [= -> ->]]. done.
Qed.

Lemma phrase_loop_spec n doc ph : phrase_loop n doc ph = true <-> exists i, (i <= n)%nat /\ words_at (drop i doc) ph = true.
Proof.
  revert doc. induction n as [|n IH]; intros doc; cbn [phrase_loop]; destruct (words_at doc ph) eqn:E.
  - split; [|done]. intros _. exists O. by rewrite drop_0.
  - split; [done|]. intros (i & Hi & Hw). assert (i = O) as -> by lia. by rewrite drop_0, E in Hw.
  - split; [|done]. intros _. exists O. rewrite drop_0. split; [lia|done].
  - rewrite IH. split.
    + intros (i & Hi & Hw). exists (S i). rewrite drop_drop in Hw. split; [lia|]. by rewrite <- Hw.
    + intros ([|i] & Hi & Hw); [by rewrite drop_0, E in Hw|]. exists i. rewrite drop_drop. split; [lia|]. by rewrite <- Hw.
Qed.

Lemma phrase_in_tokens_spec doc ph : fts_phrase_in_tokens doc ph = true <-> exists pre post, doc = pre ++ ph ++ post.
Proof.
  unfold fts_phrase_in_tokens. destruct ph as [|w ph]; [split; [by exists [], doc|done]|].
  destruct (Nat.ltb_spec (length doc) (length (w :: ph))) as [Hl|Hl].
  { split; [done|]. intros (pre & post & ->). rewrite !length_app in Hl. lia. }
  rewrite phrase_loop_spec. setoid_rewrite words_at_spec. split.
  - intros (i & Hi & post & Hd). exists (take i doc), post. by rewrite <- Hd, take_drop.
  - intros (pre & post & ->). exists (length pre). rewrite drop_app_length, !length_app. split; [lia|by exists post].
Qed.

(** ** Printing and parsing queries *)

(** An item of a boolean query: a word, or a phrase, with its operator. *)
Inductive query_item := QWord (op : Z) (w : bytes) (tr : bool) | QPhrase (op : Z) (text : bytes).

Definition print_op (op : Z) : bytes :=
  if op =? FTS_TERM_REQUIRED then [FTS_BOOL_OP_REQUIRED] else if op =? FTS_TERM_EXCLUDED then [FTS_BOOL_OP_EXCLUDED] else [].
Definition print_item (i : query_item) : bytes :=
  match i with
  | QWord op w tr => print_op op ++ w ++ (if tr then [FTS_BOOL_OP_TRUNC] else [])
  | QPhrase op text => print_op op ++ FTS_BOOL_OP_PHRASE :: text ++ [FTS_BOOL_OP_PHRASE]
  end.
Fixpoint print_query (q : list query_item) : bytes :=
  match q with
  | [] => []
  | i :: q => print_item i ++ match q with [] => [] | _ => 32 :: print_query q end
  end.

Section Parse.
Context `{CharsetLaws}.
Variable g : fts_globals.

(** A word of letters, digits and multi-byte characters. *)
Definition plain (w : bytes) : Prop :=
  w <> [] /\ Forall (fun c => match c with Wide _ => True | Narrow c => my_isalnum c = true end) (chars w).
Definition op_ok (op : Z) : Prop := op ∈ [FTS_TERM_REQUIRED; FTS_TERM_EXCLUDED; FTS_TERM_NEUTRAL].
Definition item_ok (i : query_item) : Prop :=
  match i with
  | QWord op w _ => op_ok op /\ plain w
  | QPhrase op text => op_ok op /\ FTS_BOOL_OP_PHRASE ∉ text
  end.

(** The terms of an item: a word lowered, or the words of a phrase, which are all
    required but for the first when an operator was given. *)
Definition item_terms (i : query_item) : list fts_query_term_t :=
  match i with
  | QWord op w tr => [mk_term (casedn w) op tr false []]
  | QPhrase op text => phrase_terms g op text
  end.

Definition query_len (s : bytes) : nat := query_word_len (length s) s.

Lemma query_char_len s n : query_char s = Some n -> (0 < n <= length s)%nat.
Proof.
  unfold query_char. destruct s as [|c r]; [done|]. pose proof (mb_in_text (c :: r)) as Hm.
  destruct (Nat.ltb_spec 0 (my_ismbchar (c :: r))); [intros [= <-]; lia|]. destruct (my_isalnum c || _); [|done].
  intros [= <-]. cbn. lia.
Qed.

Lemma query_word_fuel n s : (length s <= n)%nat -> query_word_len n s = query_len s.
Proof.
  revert s. induction n as [n IH] using lt_wf_ind. intros s Hn. unfold query_len.
  destruct n as [|n]; [destruct s; [done|cbn in Hn; lia]|]. destruct s as [|c r]; [done|]. cbn [query_word_len length].
  destruct (query_char (c :: r)) as [m|] eqn:E; [|done]. apply query_char_len in E. cbn [length] in *.
  rewrite !IH; [done|..]; rewrite ?length_drop; cbn [length]; lia.
Qed.

Lemma query_len_step s : query_len s = match query_char s with Some n => (n + query_len (drop n s))%nat | None => O end.
Proof.
  unfold query_len at 1. destruct s as [|c r]; [done|]. cbn [length query_word_len].
  destruct (query_char (c :: r)) as [m|] eqn:E; [|done]. apply query_char_len in E. f_equal. apply query_word_fuel.
  rewrite length_drop. cbn [length] in *. lia.
Qed.

Lemma query_len_le s : (query_len s <= length s)%nat.
Proof.
  induction s as [s IH] using (induction_ltof1 _ (@length Z)). unfold ltof in IH. rewrite query_len_step.
  destruct (query_char s) as [n|] eqn:E; [|lia]. apply query_char_len in E.
  specialize (IH (drop n s)). rewrite length_drop in IH. lia.
Qed.

(** *** Every turn of the parser consumes a part of the query *)

Lemma skip_spaces_le s : (length (skip_spaces s) <= length s)%nat.
Proof. induction s as [|c r IH]; [done|]. cbn [skip_spaces]. destruct (c =? 32); cbn [length] in *; lia. Qed.

Lemma query_op_le s : (length (query_op s).2 <= length s)%nat.
Proof. destruct s as [|c r]; [done|]. unfold query_op. repeat destruct (_ =? _); cbn; lia. Qed.

Lemma until_quote_le s : (length (until_quote s).2 <= length s)%nat.
Proof.
  induction s as [|c r IH]; [done|]. cbn [until_quote]. destruct (c =? FTS_BOOL_OP_PHRASE); [cbn; lia|].
  destruct (until_quote r). cbn in *. lia.
Qed.

Lemma skip_to_word_spec s : (length (skip_to_word s) <= length s)%nat /\
  (skip_to_word s <> [] -> is_Some (query_char (skip_to_word s))).
Proof.
  induction s as [|c r [IH1 IH2]]; [done|]. cbn [skip_to_word]. destruct (query_char (c :: r)) as [n|] eqn:E.
  - split; [done|]. intros _. by rewrite E.
  - split; [cbn; lia|done].
Qed.

Lemma parse_fuel n m s : (length s <= n)%nat -> (length s <= m)%nat -> parse_loop g n s = parse_loop g m s.
Proof.
  revert m s. induction n as [|n IH]; intros m s Hn Hm.
  { destruct s; [by destruct m|cbn in Hn; lia]. }
  destruct m as [|m]; [destruct s; [done|cbn in Hm; lia]|]. cbn [parse_loop].
  pose proof (skip_spaces_le s) as H1. destruct (skip_spaces s) as [|c1 s1]; [done|].
  pose proof (query_op_le (c1 :: s1)) as H2. destruct (query_op (c1 :: s1)) as [yn s2]. cbn [snd] in H2.
  pose proof (skip_spaces_le s2) as H3. destruct (skip_spaces s2) as [|c3 s3]; [done|]. cbn [length] in *.
  destruct (c3 =? FTS_BOOL_OP_PHRASE).
  - pose proof (until_quote_le s3) as H4. destruct (until_quote s3) as [p rest]. cbn [snd] in H4. f_equal. apply IH; lia.
  - destruct (skip_to_word_spec (c3 :: s3)) as [H4 H5]. destruct (skip_to_word (c3 :: s3)) as [|c5 s5]; [done|].
    destruct (H5 ltac:(done)) as [k Hk]. f_equal. fold (query_len (c5 :: s5)). pose proof (query_len_step (c5 :: s5)) as H6.
    rewrite Hk in H6. apply query_char_len in Hk. pose proof (query_len_le (c5 :: s5)) as H7.
    apply IH; rewrite length_drop; cbn [length] in *; lia.
Qed.

(** *** One item *)

Lemma plain_first c r : plain (c :: r) ->
  c ∉ [32; FTS_BOOL_OP_PHRASE; FTS_BOOL_OP_TRUNC; FTS_BOOL_OP_REQUIRED; FTS_BOOL_OP_EXCLUDED] /\
  (my_ismbchar (c :: r) = O -> my_isalnum c = true) /\ Forall (fun c => match c with Wide _ => True | Narrow c => my_isalnum c = true end)
    (chars (drop (if Nat.ltb 0 (my_ismbchar (c :: r)) then my_ismbchar (c :: r) else 1%nat) (c :: r))).
Proof.
  intros [_ Hp]. rewrite chars_cons in Hp. split_and!.
  - intros Hop. rewrite ascii_alone in Hp by (set_unfold; unfold FTS_BOOL_OP_PHRASE, FTS_BOOL_OP_TRUNC, FTS_BOOL_OP_REQUIRED, FTS_BOOL_OP_EXCLUDED in Hop; lia).
    apply List.Forall_cons_iff in Hp as [Hp _]. by rewrite operator_not_alnum in Hp.
  - intros E. rewrite E in Hp. by apply List.Forall_cons_iff in Hp as [? _].
  - destruct (Nat.ltb 0 (my_ismbchar (c :: r))); by apply List.Forall_cons_iff in Hp as [_ ?].
Qed.

(** What follows a word: nothing, or an ASCII byte. *)
Definition ends_word (t : bytes) : Prop := match t with [] => True | c :: _ => 0 <= c < 128 end.

Lemma mb_ends s t : s <> [] -> ends_word t -> my_ismbchar (s ++ t) = my_ismbchar s.
Proof. intros Hs Ht. destruct t as [|c t]; [by rewrite app_nil_r|by apply ascii_ends]. Qed.

Lemma query_char_plain c r t : plain (c :: r) -> ends_word t ->
  query_char ((c :: r) ++ t) = Some (if Nat.ltb 0 (my_ismbchar (c :: r)) then my_ismbchar (c :: r) else 1%nat).
Proof.
  intros Hp Ht. destruct (plain_first c r Hp) as (_ & Ha & _). cbn [app query_char].
  change (c :: r ++ t) with ((c :: r) ++ t). rewrite mb_ends by done.
  destruct (Nat.ltb_spec 0 (my_ismbchar (c :: r))); [done|]. by rewrite Ha by lia.
Qed.

Lemma query_len_word w t : Forall (fun c => match c with Wide _ => True | Narrow c => my_isalnum c = true end) (chars w) ->
  ends_word t -> query_len (w ++ t) = (length w + query_len t)%nat.
Proof.
  intros Hp Ht. induction w as [w IH] using (induction_ltof1 _ (@length Z)). unfold ltof in IH.
  destruct w as [|c r]; [done|]. assert (Hpl : plain (c :: r)) by done. rewrite query_len_step, query_char_plain by done.
  destruct (plain_first c r Hpl) as (_ & _ & Hrest). pose proof (mb_in_text (c :: r)) as Hm.
  set (n := if Nat.ltb 0 (my_ismbchar (c :: r)) then my_ismbchar (c :: r) else 1%nat) in *.
  assert (Hn : (0 < n <= length (c :: r))%nat) by (unfold n; destruct (Nat.ltb_spec 0 (my_ismbchar (c :: r))); cbn [length] in *; lia).
  rewrite drop_app_le, IH by first [done | rewrite ?length_drop; lia]. rewrite length_drop. lia.
Qed.

Lemma not_operator c (l : list Z) k : c ∉ l -> k ∈ l -> (c =? k) = false.
Proof. intros Hc Hk. apply Z.eqb_neq. by intros ->. Qed.

Lemma skip_spaces_first s : match s with [] => True | c :: _ => c <> 32 end -> skip_spaces s = s.
Proof. destruct s as [|c r]; [done|]. intros Hc. cbn. by destruct (Z.eqb_spec c 32). Qed.

Lemma print_op_parsed op s : op_ok op -> (match s with [] => True | c :: _ => c ∉ [FTS_BOOL_OP_REQUIRED; FTS_BOOL_OP_EXCLUDED] end) ->
  query_op (print_op op ++ s) = (op, s).
Proof.
  intros Hop Hs. unfold op_ok in Hop. repeat (apply elem_of_cons in Hop as [->|Hop]; [try done|]); [|by rewrite elem_of_nil in Hop].
  cbn. destruct s as [|c s]; [done|]. unfold query_op.
  rewrite !(not_operator c [FTS_BOOL_OP_REQUIRED; FTS_BOOL_OP_EXCLUDED]) by first [done | repeat constructor]. done.
Qed.

Lemma print_op_nospace op s : op_ok op -> match s with [] => True | c :: _ => c <> 32 end -> skip_spaces (print_op op ++ s) = print_op op ++ s.
Proof.
  intros Hop Hs. apply skip_spaces_first. unfold op_ok in Hop.
  repeat (apply elem_of_cons in Hop as [->|Hop]; [by try done|]). by rewrite elem_of_nil in Hop.
Qed.

(** A turn of the parser on an operator and a body that is neither a space nor an operator. *)
Lemma parse_turn op c r : op_ok op -> c ∉ [32; FTS_BOOL_OP_REQUIRED; FTS_BOOL_OP_EXCLUDED] ->
  fts_parse_boolean g (print_op op ++ c :: r) =
    if c =? FTS_BOOL_OP_PHRASE
    then let '(phrase, rest) := until_quote r in phrase_terms g op phrase ++ fts_parse_boolean g rest
    else match skip_to_word (c :: r) with
         | [] => []
         | s => word_term op (take (query_len s) s) ++ fts_parse_boolean g (drop (query_len s) s)
         end.
Proof.
  intros Hop Hc. assert (Hsp : c <> 32) by set_solver. unfold fts_parse_boolean at 1.
  rewrite (parse_fuel _ (S (length (print_op op ++ c :: r)))) by lia. cbn [parse_loop].
  rewrite print_op_nospace by done. destruct (print_op op ++ c :: r) as [|c' r'] eqn:E; [by destruct (print_op op)|].
  rewrite <- E. rewrite print_op_parsed by first [done | set_solver]. rewrite skip_spaces_first by done.
  assert (Hl : (S (length r) <= length (print_op op ++ c :: r))%nat) by (rewrite length_app; cbn; lia). rewrite E in Hl |- *.
  destruct (c =? FTS_BOOL_OP_PHRASE).
  - pose proof (until_quote_le r) as Hq. destruct (until_quote r) as [p rest]. cbn in Hq. f_equal. apply parse_fuel; [lia|done].
  - destruct (skip_to_word_spec (c :: r)) as [Hw _]. cbn [length] in Hw. destruct (skip_to_word (c :: r)) as [|c5 s5]; [done|].
    fold (query_len (c5 :: s5)). f_equal. apply parse_fuel; rewrite ?length_drop; [|done]. lia.
Qed.

Lemma until_quote_spec text rest : FTS_BOOL_OP_PHRASE ∉ text -> until_quote (text ++ FTS_BOOL_OP_PHRASE :: rest) = (text, rest).
Proof.
  induction text as [|c r IH]; intros Hq; [done|]. cbn [app until_quote].
  rewrite (proj2 (Z.eqb_neq c FTS_BOOL_OP_PHRASE)) by set_solver. by rewrite IH by set_solver.
Qed.

(** The end of a query or a space. *)
Definition item_end (t : bytes) : Prop := match t with [] => True | c :: _ => c = 32 end.

Lemma query_len_end (tr : bool) t : item_end t ->
  query_len ((if tr then [FTS_BOOL_OP_TRUNC] else []) ++ t) = if tr then 1%nat else O.
Proof.
  intros Ht. assert (Hz : query_len t = O).
  { destruct t as [|c t]; [done|]. cbn in Ht. subst c. rewrite query_len_step. cbn [query_char].
    by rewrite ascii_alone, operator_not_alnum by (by left || lia). }
  destruct tr; [|done]. cbn [app]. rewrite query_len_step. cbn [query_char]. rewrite ascii_alone by (unfold FTS_BOOL_OP_TRUNC; lia).
  cbn [Nat.ltb Nat.leb]. rewrite Z.eqb_refl, orb_true_r. cbn [drop]. by rewrite drop_0, Hz.
Qed.

Lemma last_plain w : plain w -> last w <> Some FTS_BOOL_OP_TRUNC.
Proof.
  intros [Hne Hp] [s ->]%last_Some. rewrite (chars_ascii s FTS_BOOL_OP_TRUNC []) in Hp by (unfold FTS_BOOL_OP_TRUNC; lia).
  apply Forall_app in Hp as [_ [Hp _]%List.Forall_cons_iff]. rewrite operator_not_alnum in Hp; [done|]. by do 2 right; left.
Qed.

Lemma word_term_plain op w (tr : bool) : plain w ->
  word_term op (w ++ (if tr then [FTS_BOOL_OP_TRUNC] else [])) = [mk_term (casedn w) op tr false []].
Proof.
  intros Hp. pose proof (last_plain w Hp) as Hl. destruct Hp as [Hne _]. unfold word_term. destruct tr.
  - rewrite last_snoc, Z.eqb_refl, length_app, Nat.add_sub, take_app_length. by destruct w.
  - rewrite app_nil_r. destruct (last w) as [c|]; [|by destruct w].
    rewrite (proj2 (Z.eqb_neq c FTS_BOOL_OP_TRUNC)) by congruence. by destruct w.
Qed.

Lemma item_end_ascii (tr : bool) t : item_end t -> ends_word ((if tr then [FTS_BOOL_OP_TRUNC] else []) ++ t).
Proof. intros Ht. destruct tr; [cbn; unfold FTS_BOOL_OP_TRUNC; lia|]. destruct t; [done|]. cbn in *. lia. Qed.

Lemma parse_item i t : item_ok i -> item_end t ->
  fts_parse_boolean g (print_item i ++ t) = item_terms i ++ fts_parse_boolean g t.
Proof.
  intros Hi Ht. destruct i as [op w tr|op text]; destruct Hi as [Hop Hi]; cbn [print_item item_terms]; rewrite <- !(assoc_L (++)).
  - destruct w as [|c r] eqn:Ew; [by destruct Hi|]. cbn [app]. destruct (plain_first c r Hi) as (Hc & _).
    rewrite parse_turn by first [done | set_solver]. rewrite (not_operator c _ FTS_BOOL_OP_PHRASE Hc) by (by right; left).
    set (tl := (if tr then [FTS_BOOL_OP_TRUNC] else []) ++ t). change (c :: r ++ tl) with ((c :: r) ++ tl).
    assert (Hend : ends_word tl) by by apply item_end_ascii.
    replace (skip_to_word ((c :: r) ++ tl)) with ((c :: r) ++ tl) by (cbn [app skip_to_word]; change (c :: r ++ tl) with ((c :: r) ++ tl); by rewrite query_char_plain).
    cbn [app]. change (c :: r ++ tl) with ((c :: r) ++ tl).
    rewrite query_len_word by first [done | by apply Hi]. unfold tl. rewrite query_len_end by done.
    rewrite take_app_add, <- drop_drop, drop_app_length. pose proof (word_term_plain op (c :: r) tr Hi) as Hw.
    destruct tr; cbn [app take drop] in *; rewrite ?take_0, ?drop_0; by rewrite Hw.
  - cbn [app]. rewrite <- (assoc_L (++)). cbn [app]. rewrite parse_turn by first [done | set_solver]. rewrite Z.eqb_refl. by rewrite until_quote_spec.
Qed.

Lemma parse_space t : fts_parse_boolean g (32 :: t) = fts_parse_boolean g t.
Proof.
  unfold fts_parse_boolean. rewrite (parse_fuel (length t) (length (32 :: t)) t) by (cbn; lia). cbn [length parse_loop skip_spaces].
  by rewrite Z.eqb_refl.
Qed.

Lemma parse_printed q : Forall item_ok q -> fts_parse_boolean g (print_query q) = concat (item_terms <$> q).
Proof.
  induction 1 as [|i q Hi Hq IH]; [done|]. cbn [print_query fmap list_fmap concat].
  rewrite parse_item by first [done | by destruct q]. f_equal. destruct q; [done|]. by rewrite parse_space.
Qed.

End Parse.

(** ** Properties *)

(** C24: the tokens of a document.  The single pass over the bytes of the concatenated
    columns computes, in order, for every column that is not NULL, the tokens of its
    words: the words are the longest runs of letters, digits, multi-byte and blended
    characters, each word is kept when its number of characters is within the limits
    and its lowered form is no stop word, and a word with blended characters is followed
    by its parts.  No word spans two columns, no token is a stop word, and none is
    longer than the longest word. *)
Theorem document_tokens `{CharsetLaws} (g : fts_globals) (fields : list (option bytes)) :
  blend g 32 = false ->
  fts_extract_and_tokenize g fields = concat (tokens g <$> omap id fields) /\
  Forall (fun t => t ∉ tdb_stopwords g /\ (length t <= srv_fts_max_word_len g * mbmaxlen)%nat) (fts_extract_and_tokenize g fields).
Proof.
  intros Hb. unfold fts_extract_and_tokenize. rewrite tokenize_tokens. split.
  - unfold fts_document. by rewrite document_loop.
  - apply Forall_forall. intros t. apply token_fits.
Qed.

(** printing and parsing boolean queries.  A query of words, truncated words and
    phrases with their operators, separated by spaces, is parsed into the terms of its
    items in their order: a word is lowered and keeps its operator and its truncation; a
    phrase becomes its words, all required but the first when an operator was given, and
    the first carries the phrase. *)
Theorem parse_print_query `{CharsetLaws} (g : fts_globals) (q : list query_item) :
  Forall item_ok q -> fts_parse_boolean g (print_query q) = concat (item_terms g <$> q).
Proof. apply parse_printed. Qed.

(** ** UTF-8 *)

Definition utf8_follow (lead : Z) : nat :=
  if (194 <=? lead) && (lead <=? 223) then 1 else if (224 <=? lead) && (lead <=? 239) then 2
  else if (240 <=? lead) && (lead <=? 244) then 3 else 0.
Definition utf8_cont (b : Z) : bool := (128 <=? b) && (b <=? 191).
Definition utf8_ismbchar (s : bytes) : nat :=
  match s with
  | [] => 0
  | a :: r => let n := utf8_follow a in
              if Nat.ltb 0 n && Nat.leb n (length r) && forallb utf8_cont (take n r) then S n else 0
  end.
Definition ascii_alnum (c : Z) : bool := ((48 <=? c) && (c <=? 57)) || ((65 <=? c) && (c <=? 90)) || ((97 <=? c) && (c <=? 122)).

#[export] Instance utf8 : Charset := {
  my_ismbchar := utf8_ismbchar;
  my_isalnum := ascii_alnum;
  casedn w := tolower <$> w
}.

Lemma utf8_ascii c : 0 <= c < 128 -> utf8_follow c = O /\ utf8_cont c = false.
Proof. intros Hc. unfold utf8_follow, utf8_cont. case_ifs; lia || split; try lia; done. Qed.

Lemma utf8_ends s c t : s <> [] -> 0 <= c < 128 -> utf8_ismbchar (s ++ c :: t) = utf8_ismbchar s.
Proof.
  intros Hs Hc. destruct s as [|a r]; [done|]. cbn [app utf8_ismbchar]. destruct (Nat.ltb 0 (utf8_follow a)); [|done]. cbn [andb].
  rewrite length_app. cbn [length]. destruct (Nat.leb_spec (utf8_follow a) (length r)) as [Hl|Hl].
  - rewrite (proj2 (Nat.leb_le _ _)) by lia. by rewrite take_app_le.
  - assert (E : forallb utf8_cont (take (utf8_follow a) (r ++ c :: t)) = false).
    { rewrite take_app_ge by lia. destruct (utf8_follow a - length r)%nat as [|k] eqn:Ek; [lia|]. cbn [take].
      rewrite forallb_app. cbn [forallb]. by rewrite (proj2 (utf8_ascii c Hc)), andb_false_r. }
    rewrite E. by rewrite andb_false_r.
Qed.

#[export] Instance utf8_laws : CharsetLaws.
Proof.
  refine {| mbmaxlen := 4 |}; [lia| | | | |exact utf8_ends|].
  - intros [|a r]; [done|]. cbn [my_ismbchar utf8 utf8_ismbchar length]. destruct (Nat.leb_spec (utf8_follow a) (length r)); [|rewrite andb_false_r; cbn; lia].
    destruct (_ && _); lia.
  - intros [|a r]; [cbn; lia|]. cbn [my_ismbchar utf8 utf8_ismbchar]. destruct (_ && _); [|lia]. unfold utf8_follow. case_ifs; lia.
  - intros w. cbn. by rewrite length_fmap.
  - intros c t Hc. cbn [my_ismbchar utf8 utf8_ismbchar]. by rewrite (proj1 (utf8_ascii c Hc)).
  - intros c Hc. repeat (apply elem_of_cons in Hc as [->|Hc]; [done|]). by apply elem_of_nil in Hc.
Defined.

Definition default_fts : fts_globals := tdb_fts_init 3 84 (of_string "-").

Lemma document_tokens_witness :
  fts_extract_and_tokenize default_fts [Some (of_string "The Red-hot chili"); None; Some (of_string "pepper on ICE")] =
    of_string <$> ["red-hot"; "red"; "hot"; "chili"; "pepper"; "ice"]%string.
Proof.
  rewrite (proj1 (document_tokens default_fts [Some (of_string "The Red-hot chili"); None; Some (of_string "pepper on ICE")]
    ltac:(vm_compute; reflexivity))).
  vm_compute. reflexivity.
Defined.

Definition demo_query : list query_item :=
  [QWord FTS_TERM_REQUIRED (of_string "Mysql") false; QWord FTS_TERM_NEUTRAL (of_string "data") true;
   QPhrase FTS_TERM_NEUTRAL (of_string "storage engine"); QWord FTS_TERM_EXCLUDED (of_string "oracle") false].

Lemma demo_query_ok : Forall item_ok demo_query.
Proof. repeat constructor; try done; vm_compute; repeat constructor; intros Hin; inv Hin; repeat match goal with Hq : _ ∈ _ |- _ => inv Hq end. Qed.

Lemma parse_print_query_witness :
  fts_parse_boolean default_fts (print_query demo_query) =
    [mk_term (of_string "mysql") 1 false false []; mk_term (of_string "data") 0 true false [];
     mk_term (of_string "storage") 1 false true [of_string "storage"; of_string "engine"]; mk_term (of_string "engine") 1 false false [];
     mk_term (of_string "oracle") (-1) false false []].
Proof. rewrite (parse_print_query default_fts demo_query demo_query_ok). vm_compute. reflexivity. Defined.

(** ** Where the code and its documentation part *)

(** A term of a boolean query may be longer than the longest term of the index, which
    is the size of the buffer the search copies it to. *)
Lemma boolean_term_unbounded : exists query t,
  fts_parse_boolean default_fts query = [t] /\ (FTS_MAX_TERM_BYTES < length (term t))%nat.
Proof. exists (replicate 600 97). eexists. split; [vm_compute; reflexivity|]. apply Nat.ltb_lt. vm_compute. reflexivity. Qed.

(** With the longest word length that the variable accepts, a token of an ordinary query
    may be as long. *)
Lemma token_unbounded : exists text t,
  fts_tokenize (tdb_fts_init 3 512 []) text = [t] /\ (FTS_MAX_TERM_BYTES < length t)%nat.
Proof. exists (concat (replicate 300 [195; 169])). eexists. split; [vm_compute; reflexivity|]. apply Nat.ltb_lt. vm_compute. reflexivity. Qed.

(** An operator that follows punctuation is skipped with it. *)
Lemma operator_after_comma : yesno <$> fts_parse_boolean default_fts (of_string "apple, -pear") = [FTS_TERM_NEUTRAL; FTS_TERM_NEUTRAL].
Proof. reflexivity. Qed.

(** The words of an excluded phrase after its first are required. *)
Lemma excluded_phrase_requires :
  (fun t => (term t, yesno t)) <$> fts_parse_boolean default_fts (of_string "-" ++ [34] ++ of_string "dead parrot" ++ [34]) =
    [(of_string "dead", FTS_TERM_EXCLUDED); (of_string "parrot", FTS_TERM_REQUIRED)].
Proof. reflexivity. Qed.

(** No table has the column family that the load of stop words asks for. *)
Lemma last_slash_none s : last_slash s = None -> no_slash s.
Proof.
  induction s as [|c s IH]; [constructor|]. cbn. destruct (last_slash s); [done|]. destruct (Z.eqb_spec c 47); [done|]. intros _.
  constructor; [done|]. by apply IH.
Qed.

Lemma after_last_slash s i : last_slash s = Some i -> no_slash (drop (i + 1) s).
Proof.
  revert i. induction s as [|c s IH]; intros i; cbn; [done|]. destruct (last_slash s) as [j|] eqn:E.
  - intros [= <-]. by apply IH.
  - destruct (c =? 47); [|done]. intros [= <-]. cbn. rewrite drop_0. by apply last_slash_none.
Qed.

Lemma cf_name_no_slash path : no_slash (path_to_cf_name path).
Proof.
  unfold path_to_cf_name, split_path. set (p := strip_rel path). destruct (last_slash p) as [ls|] eqn:E; [|by apply last_slash_none].
  assert (Hmark : forall s, no_slash s -> no_slash (mark <$> s)).
  { intros s Hs. unfold no_slash in *. rewrite Forall_fmap. eapply List.Forall_impl; [|exact Hs]. intros c Hc. cbn.
    unfold mark, MARIADB_TEMP_NAME_REPLACEMENT. by destruct (c =? _). }
  apply Hmark. unfold no_slash. rewrite !Forall_app. split_and!; [|by repeat constructor|by apply after_last_slash].
  destruct (last_slash (take ls p)) eqn:E2; [by apply after_last_slash|by apply last_slash_none].
Qed.

Lemma stopword_table_never_found path db tbl : path_to_cf_name path <> db ++ [47] ++ tbl.
Proof.
  intros He. pose proof (cf_name_no_slash path) as Hs. rewrite He in Hs. unfold no_slash in Hs.
  rewrite !Forall_app in Hs. destruct Hs as (_ & Hs & _). by inv Hs.
Qed.

(** A short VARCHAR is packed with one length byte, which the load reads as two. *)
Lemma short_varchar_ignored : stopword_of_row ([254; 0; 0; 0; 0] ++ [0] ++ [3] ++ of_string "und") = None.
Proof. reflexivity. Qed.

(** The variable shows a table whose words were not loaded, and the empty string, said to
    disable the stop words, brings the default ones. *)
Lemma stopword_variable_published en spec g : tdb_load_stopwords_from_table_spec_into en spec = None -> spec <> [] ->
  tdb_ft_stopword_table_update en spec g = (g, spec).
Proof. intros Hl Hs. unfold tdb_ft_stopword_table_update. destruct spec; [done|]. by rewrite Hl. Qed.

Lemma empty_string_enables_stopwords en g : of_string "the" ∈ tdb_stopwords (tdb_ft_stopword_table_update en [] g).1.
Proof.
  cbn [tdb_ft_stopword_table_update fst tdb_stopwords]. unfold tdb_load_default_stopwords_into.
  apply elem_of_list_to_set. by apply list_elem_of_lookup_2 with 23%nat.
Qed.
