(* ===== verification/FtsSearch.v ===== *)
(** * Full-text searches (ha_tidesdb.cc 8779-9141)

    A search parses its query, reads the postings of each term from the inverted index,
    adds up the BM25 scores per document, filters the documents by the operators, checks
    the phrases against the documents and hands the rows out by descending rank. *)

From Stdlib Require Import ZArith Lia Sorting.Sorted.
From stdpp Require Import base tactics list numbers gmap sets sorting.
From S2P Require Import Prelude Errors Scan KeyCodec Fts Tokenizer Reads.

(** The C++ doubles of the scores: their operations, [std::log], the conversion to
    [float] and the comparison. *)
Class Double (D : Type) := {
  of_int : Z -> D;
  dadd : D -> D -> D;
  dsub : D -> D -> D;
  dmul : D -> D -> D;
  ddiv : D -> D -> D;
  dlog : D -> D;
  to_float : D -> D;
  dgt : D -> D -> bool
}.

Record posting_entry := mk_posting { p_pk : bytes; p_tf : Z; p_doc_len : Z }.

(** [FT_INFO]: the results with their ranks by descending rank. *)
Record ft_info (D : Type) := mk_ft {
  keynr : nat;
  results : list (bytes * D);
  current_idx : nat;
  current_rank : D;
  match_count : Z
}.
Arguments mk_ft {D}.
Arguments keynr {D}.
Arguments results {D}.
Arguments current_idx {D}.
Arguments current_rank {D}.
Arguments match_count {D}.

(** The search's surroundings: the iteration order of a hash table, [my_malloc] of the
    copy of a key, and the variables of BM25. *)
Record search_env (D : Type) := mk_search {
  se_order : gmap bytes D -> list (bytes * D);
  se_malloc : bytes -> bool;
  srv_fts_bm25_k1 : D;
  srv_fts_bm25_b : D
}.
Arguments mk_search {D}.
Arguments se_order {D}.
Arguments se_malloc {D}.
Arguments srv_fts_bm25_k1 {D}.
Arguments srv_fts_bm25_b {D}.

Definition FTS_TERM_LEN_PREFIX : nat := 2.
Definition FTS_VALUE_LEN : nat := 6.

(** ** Ranks *)

Section Bm25.
Context {D : Type} `{Double D}.

Definition BM25_IDF_EPSILON : D := ddiv (of_int 1) (of_int 2).
Definition BM25_IDF_NONNEG_SHIFT : D := of_int 1.
Definition BM25_TF_SATURATION_BOOST : D := of_int 1.
Definition BM25_LENGTH_NORM_BASE : D := of_int 1.
Definition BM25_DEFAULT_AVGDL : D := of_int 1.
Definition BM25_MIN_TOTAL_DOCS : Z := 1.

(** [total_docs] and [inv_avgdl] of the stored totals (lines 8855-8862). *)
Definition bm25_totals (totals : Z * Z) : Z * D :=
  let '(total_docs, total_words) := totals in
  let avgdl := if 0 <? total_docs then ddiv (of_int total_words) (of_int total_docs) else BM25_DEFAULT_AVGDL in
  (if total_docs =? 0 then BM25_MIN_TOTAL_DOCS else total_docs, ddiv (of_int 1) avgdl).

Definition bm25_idf (total_docs df : Z) : D :=
  dlog (dadd (ddiv (dadd (dsub (of_int total_docs) (of_int df)) BM25_IDF_EPSILON) (dadd (of_int df) BM25_IDF_EPSILON))
         BM25_IDF_NONNEG_SHIFT).

Definition bm25_score (k1 b inv_avgdl idf : D) (p : posting_entry) : D :=
  let tf_norm := ddiv (dmul (of_int (p_tf p)) (dadd k1 BM25_TF_SATURATION_BOOST))
                   (dadd (of_int (p_tf p))
                      (dmul k1 (dadd (dsub BM25_LENGTH_NORM_BASE b) (dmul (dmul b (of_int (p_doc_len p))) inv_avgdl)))) in
  dmul idf tf_norm.

End Bm25.

(** ** The search *)

Section Search.
Context {It Rec D : Type} `{IterOps It, RowReads Rec, Charset, Double D}.
Variable rsh : read_share.
Variable is_fts_index : nat -> bool.
Variable g : fts_globals.
(** The columns of a full-text index in a row. *)
Variable fts_fields : nat -> Rec -> list (option bytes).

Notation state := (hread It Rec).
Notation env := (read_env It).
Implicit Types (en : env) (se : search_env D) (st : state) (qt : fts_query_term_t).

(** The two walks over postings: on while [still], a posting where [pk_of] finds a key
    and the value is long enough. *)
Fixpoint posting_loop (fuel : nat) (still : bytes -> bool) (pk_of : bytes -> option bytes) (it : It) : list posting_entry * It :=
  match fuel with
  | O => ([], it)
  | S fuel =>
    if tidesdb_iter_valid it then
      match tidesdb_iter_key it with
      | (TDB_SUCCESS, ik) =>
        if still ik then
          let here := match pk_of ik with
                      | None => []
                      | Some pk =>
                        match tidesdb_iter_value it with
                        | (TDB_SUCCESS, iv) =>
                          if Nat.leb FTS_VALUE_LEN (length iv)
                          then [mk_posting pk (le_combine (take 2 iv)) (le_combine (take 4 (drop 2 iv)))] else []
                        | _ => []
                        end
                      end in
          let '(ps, it) := posting_loop fuel still pk_of (tdb_iter_next it) in (here ++ ps, it)
        else ([], it)
      | _ => ([], it)
      end
    else ([], it)
  end.

(** Lines 8874-8880. *)
Definition term_prefix (t : bytes) : bytes := le_split 2 (u16 (Z.of_nat (length t))) ++ t.

(** Lines 8956-8980. *)
Definition exact_still (prefix ik : bytes) : bool :=
  negb (Nat.ltb (length ik) (length prefix)) && bool_decide (take (length prefix) ik = prefix).
Definition exact_pk (prefix ik : bytes) : option bytes := Some (drop (length prefix) ik).
Definition exact_postings (t : bytes) (it : It) : list posting_entry :=
  let prefix := term_prefix t in
  (posting_loop (S (iter_fuel it)) (exact_still prefix) (exact_pk prefix) (tdb_iter_seek prefix it)).1.

(** Lines 8906-8950: the terms of one length. *)
Definition stored_len (ik : bytes) : Z := le_combine (take 2 ik).
Definition bucket_still (t : bytes) (tlen : nat) (ik : bytes) : bool :=
  negb (Nat.ltb (length ik) FTS_TERM_LEN_PREFIX) && (stored_len ik =? Z.of_nat tlen) &&
  negb (Nat.ltb (length ik) (FTS_TERM_LEN_PREFIX + tlen)) && bool_decide (take (length t) (drop FTS_TERM_LEN_PREFIX ik) = t).
Definition bucket_pk (tlen : nat) (ik : bytes) : option bytes :=
  if Nat.leb (length ik) (FTS_TERM_LEN_PREFIX + tlen) then None else Some (drop (FTS_TERM_LEN_PREFIX + tlen) ik).
Definition bucket_seek (t : bytes) (tlen : nat) : bytes := le_split 2 (u16 (Z.of_nat tlen)) ++ t.

Fixpoint bucket_postings (t : bytes) (tlens : list nat) (it : It) : list posting_entry :=
  match tlens with
  | [] => []
  | tlen :: rest =>
    let '(ps, it) := posting_loop (S (iter_fuel it)) (bucket_still t tlen) (bucket_pk tlen) (tdb_iter_seek (bucket_seek t tlen) it) in
    ps ++ bucket_postings t rest it
  end.

(** Lines 8902-8906: the lengths from that of the prefix to the longest word. *)
Definition bucket_lengths (t : bytes) : list nat :=
  let min_len := length t in
  let max_len := Nat.min (srv_fts_max_word_len g) FTS_MAX_TERM_BYTES in
  seq min_len (S max_len - min_len).

Definition term_postings qt (it : It) : list posting_entry :=
  if trunc qt then bucket_postings (term qt) (bucket_lengths (term qt)) it else exact_postings (term qt) it.

(** [doc_scores], [doc_required_hits] and [num_required]. *)
Record tally := mk_tally { doc_scores : gmap bytes D; doc_required_hits : gmap bytes Z; num_required : Z }.

Definition score_posting qt (score : posting_entry -> D) (t : tally) (p : posting_entry) : tally :=
  if yesno qt <? FTS_TERM_NEUTRAL
  then mk_tally (delete (p_pk p) (doc_scores t)) (doc_required_hits t) (num_required t)
  else mk_tally (<[p_pk p := dadd (default (of_int 0) (doc_scores t !! p_pk p)) (score p)]> (doc_scores t))
         (if FTS_TERM_NEUTRAL <? yesno qt
          then <[p_pk p := u32 (default 0 (doc_required_hits t !! p_pk p) + 1)]> (doc_required_hits t)
          else doc_required_hits t)
         (num_required t).

Definition score_term en se (inx : nat) (total_docs : Z) (inv_avgdl : D) (t : tally) qt : tally :=
  let t := if FTS_TERM_NEUTRAL <? yesno qt then mk_tally (doc_scores t) (doc_required_hits t) (u32 (num_required t + 1)) else t in
  match en_iter_new en (Some inx) with
  | (TDB_SUCCESS, it) =>
    let postings := term_postings qt it in
    let df := u32 (Z.of_nat (length postings)) in
    let score := bm25_score (srv_fts_bm25_k1 se) (srv_fts_bm25_b se) inv_avgdl (bm25_idf total_docs df) in
    foldl (score_posting qt score) t postings
  | _ => t
  end.

(** Lines 9011-9021. *)
Definition filter_required (t : tally) : gmap bytes D :=
  if 0 <? num_required t
  then filter (fun e => match doc_required_hits t !! e.1 with
                        | Some hits => negb (hits <? num_required t)
                        | None => false
                        end = true) (doc_scores t)
  else doc_scores t.

(** Lines 9066-9090: the rows of the candidates are fetched into the record. *)
Fixpoint verify_phrases en (inx : nat) (phrases : list fts_query_term_t) (rs : list (bytes * D)) st : list (bytes * D) * state :=
  match rs with
  | [] => ([], st)
  | r :: rs =>
    match fetch_row_by_pk en r.1 st with
    | (HA_OK, st) =>
      let doc_tokens := match row_buf st with Some rec => fts_extract_and_tokenize g (fts_fields inx rec) | None => [] end in
      let '(vs, st) := verify_phrases en inx phrases rs st in
      (if forallb (fun ph => fts_phrase_in_tokens doc_tokens (phrase_words ph)) phrases then r :: vs else vs, st)
    | (_, st) => verify_phrases en inx phrases rs st
    end
  end.

(** [std::sort] by descending rank. *)
Definition by_rank (a b : bytes * D) : Prop := dgt b.2 a.2 = false.
#[global] Instance by_rank_dec : RelDecision by_rank.
Proof. intros a b. unfold by_rank. apply _. Defined.

Definition FT_BOOL : Z := 1.

Definition query_terms (flags : Z) (key : bytes) : list fts_query_term_t :=
  if negb (Z.land flags FT_BOOL =? 0) then fts_parse_boolean g key
  else (fun w => mk_term w FTS_TERM_NEUTRAL false false []) <$> fts_tokenize g key.

(** The rest of [ft_init_ext], for terms that are given. *)
Definition search_terms en se (inx : nat) (terms : list fts_query_term_t) st : ft_info D * state :=
  match terms with
  | [] => (mk_ft inx [] 0 (of_int 0) 0, st)
  | _ =>
    let stored := match en_get en (fts_meta_key inx) with (TDB_SUCCESS, v) => Some v | _ => None end in
    let '(total_docs, inv_avgdl) := bm25_totals (fts_load_meta stored) in
    let t := foldl (score_term en se inx total_docs inv_avgdl) (mk_tally ∅ ∅ 0) terms in
    let rs := (fun r => (r.1, to_float r.2)) <$> List.filter (fun r => se_malloc se r.1) (se_order se (filter_required t)) in
    let phrases := List.filter is_phrase terms in
    let '(rs, st) := match phrases, rs with
                     | [], _ | _, [] => (rs, st)
                     | _, _ => verify_phrases en inx phrases rs st
                     end in
    let rs := merge_sort by_rank rs in
    (mk_ft inx rs 0 (of_int 0) (u64 (Z.of_nat (length rs))), st)
  end.

(** [None] is NULL. *)
Definition ft_init_ext en se (flags : Z) (inx : nat) (key : bytes) st : option (ft_info D) * state :=
  if negb (rs_has_cf rsh inx) || negb (is_fts_index inx) then (None, st)
  else
    match en_ensure en with
    | HA_OK => let '(info, st) := search_terms en se inx (query_terms flags key) st in (Some info, st)
    | _ => (None, st)
    end.

Definition ft_init (ft_handler : option (ft_info D)) : option (ft_info D) :=
  match ft_handler with
  | Some info => Some (mk_ft (keynr info) (results info) 0 (current_rank info) (match_count info))
  | None => None
  end.

(** Lines 9120-9138: [rs] is the results from [current_idx] on. *)
Fixpoint read_loop en (rs : list (bytes * D)) (info : ft_info D) st : ha_rc * ft_info D * state :=
  match rs with
  | [] => (HA_ERR_END_OF_FILE, info, st)
  | r :: rs =>
    let at_idx i := mk_ft (keynr info) (results info) i r.2 (match_count info) in
    match fetch_row_by_pk en r.1 st with
    | (HA_ERR_KEY_NOT_FOUND, st) => read_loop en rs (at_idx (S (current_idx info))) st
    | (HA_OK, st) => (HA_OK, at_idx (S (current_idx info)), st)
    | (err, st) => (err, at_idx (current_idx info), st)
    end
  end.

Definition ft_read en (ft_handler : option (ft_info D)) st : ha_rc * option (ft_info D) * state :=
  if en_killed en then (HA_ERR_ABORTED_BY_USER, ft_handler, st)
  else match ft_handler with
       | None => (HA_ERR_END_OF_FILE, None, st)
       | Some info =>
         match en_ensure en with
         | HA_OK => let '(rc, info, st) := read_loop en (drop (current_idx info) (results info)) info st in (rc, Some info, st)
         | erc => (erc, ft_handler, st)
         end
       end.

(** The callbacks of the server on an open search (tidesdb_fts.cc 88-133). *)
Definition tdb_fts_get_docid (info : ft_info D) : Z :=
  if Nat.ltb 0 (current_idx info) && Nat.leb (current_idx info) (length (results info)) then Z.of_nat (current_idx info) else 0.
Definition tdb_fts_count_matches (info : ft_info D) : Z := match_count info.
Definition tdb_fts_get_relevance (info : ft_info D) : D := current_rank info.
Definition tdb_fts_reinit_search (info : ft_info D) : ft_info D :=
  mk_ft (keynr info) (results info) 0 (current_rank info) (match_count info).

End Search.
