(* ===== verification/FtsExact.v ===== *)
(** * What a full-text search finds

    The postings that the walks read from the inverted index, the tally of a query, and
    the result: the documents that match the query, ranked by BM25. *)

From Stdlib Require Import ZArith Lia Sorting.Sorted Strings.String.
From stdpp Require Import base tactics list numbers gmap sets sorting.
From S2P Require Import Prelude Errors Scan KeyCodec CfNames Fts Tokenizer Dml Reads ReadsProof ReadsExamples Table FtsSearch.

Open Scope list_scope.

(** ** Postings *)

Lemma take_while_ext_in {A} (f f' : A -> bool) l : (forall x, x ∈ l -> f x = f' x) -> take_while f l = take_while f' l.
Proof.
  induction l as [|a l IH]; intros Hf; [done|]. cbn. rewrite (Hf a) by (by left). rewrite IH; [done|].
  intros x Hx. apply Hf. by right.
Qed.

(** The posting of an entry. *)
Definition posting_of (pk_of : bytes -> option bytes) (e : bytes * bytes) : option posting_entry :=
  pk ← pk_of e.1;
  if Nat.leb FTS_VALUE_LEN (length e.2)
  then Some (mk_posting pk (le_combine (take 2 e.2)) (le_combine (take 4 (drop 2 e.2)))) else None.

Section Postings.
Context {It : Type} `{IterLaws It}.
Implicit Types it : It.

Lemma posting_loop_spec fuel still pk_of it : (length (ahead false it) < fuel)%nat ->
  (posting_loop fuel still pk_of it).1 = omap (posting_of pk_of) (take_while (fun e => still e.1) (ahead false it)) /\
  it_entries (posting_loop fuel still pk_of it).2 = it_entries it.
Proof.
  revert it. induction fuel as [|fuel IH]; intros it Hf; [lia|]. cbn [posting_loop].
  destruct (ahead false it) as [|[k v] rest] eqn:Ha.
  { rewrite (ahead_nil false) by done. done. }
  destruct (ahead_cons _ _ _ _ _ Ha) as (-> & -> & -> & _ & Hn & _). cbn [take_while fst]. destruct (still k); [|done].
  cbn [step] in Hn. destruct (IH (tdb_iter_next it)) as [IH1 IH2]; [rewrite Hn; cbn in Hf; lia|].
  destruct (posting_loop fuel still pk_of (tdb_iter_next it)) as [ps it']. cbn [fst snd] in *. rewrite IH1, Hn, IH2.
  split; [|apply (step_keeps false)]. cbn [omap list_omap]. unfold posting_of at 2. cbn [fst snd].
  destruct (pk_of k); cbn [mbind option_bind]; [|reflexivity]. by destruct (Nat.leb FTS_VALUE_LEN (length v)).
Qed.

Lemma walk_prefix still p l : sorted_cf fst l -> (forall e, e ∈ l -> still e.1 = has_prefix p e.1) ->
  take_while (fun e => still e.1) (List.filter (fun e => negb (before p e)) l) = with_prefix fst p l.
Proof.
  intros Hs Hst. rewrite <- seek_filter, <- (scan_prefix_complete fst p l Hs) by done. apply take_while_ext_in. intros e He.
  apply Hst. revert He. rewrite seek_filter by done. intros [He _]%list_elem_of_In%List.filter_In. by apply list_elem_of_In.
Qed.

Lemma exact_still_prefix p k : exact_still p k = has_prefix p k.
Proof.
  unfold exact_still, has_prefix. destruct (Nat.ltb_spec (length k) (length p)) as [Hl|Hl]; [|done]. cbn. symmetry.
  apply bool_decide_eq_false. intros E. apply (f_equal length) in E. rewrite length_take in E. lia.
Qed.

Lemma exact_postings_spec t it :
  exact_postings t it = omap (posting_of (exact_pk (term_prefix t))) (with_prefix fst (term_prefix t) (it_entries it)).
Proof.
  unfold exact_postings. destruct (posting_loop_spec (S (iter_fuel it)) (exact_still (term_prefix t)) (exact_pk (term_prefix t)) (tdb_iter_seek (term_prefix t) it)) as [-> _].
  { rewrite <- Nat.le_succ_l, <- Nat.succ_le_mono. etransitivity; [apply ahead_length|]. by rewrite !it_fuel, (proj1 (seeks_keep it _)). }
  rewrite ahead_seek. f_equal. apply walk_prefix; [apply it_sorted|]. intros. apply exact_still_prefix.
Qed.

(** An entry of the index: a term, a key, counters. *)
Definition fts_entry (e : bytes * bytes) : Prop := exists w pk tf wc,
  e = (fts_build_key w pk, fts_build_value tf wc) /\ (length w <= FTS_MAX_TERM_BYTES)%nat /\ pk <> [].

Lemma build_key_short w pk : (length w <= FTS_MAX_TERM_BYTES)%nat ->
  fts_build_key w pk = le_split 2 (Z.of_nat (length w)) ++ w ++ pk.
Proof. intros Hl. unfold fts_build_key. by rewrite take_ge. Qed.

Lemma len_split n : (n <= FTS_MAX_TERM_BYTES)%nat -> u16 (Z.of_nat n) = Z.of_nat n.
Proof. intros Hn. apply u16_id. unfold fits_u16, FTS_MAX_TERM_BYTES in *. lia. Qed.

Lemma split_len_inj n m : (n <= FTS_MAX_TERM_BYTES)%nat -> (m <= FTS_MAX_TERM_BYTES)%nat ->
  le_split 2 (Z.of_nat n) = le_split 2 (Z.of_nat m) -> n = m.
Proof.
  intros Hn Hm Hs. unfold FTS_MAX_TERM_BYTES in *. apply le_split_inj in Hs; [lia|..]; change (2 ^ (8 * Z.of_nat 2)) with 65536; lia.
Qed.

(** A term and the length it is stored with name the entries of the terms of that length
    that start with it. *)
Lemma key_prefix t tlen w pk : (length t <= tlen <= FTS_MAX_TERM_BYTES)%nat -> (length w <= FTS_MAX_TERM_BYTES)%nat ->
  has_prefix (le_split 2 (u16 (Z.of_nat tlen)) ++ t) (fts_build_key w pk) = true <-> length w = tlen /\ has_prefix t w = true.
Proof.
  intros Ht Hw. rewrite build_key_short, len_split by lia. split.
  - intros [r E]%has_prefix_iff. rewrite <- (assoc_L (++)) in E. apply app_inj_len in E as [E1 E2]; [|by rewrite !le_split_length].
    apply split_len_inj in E1; [|lia..]. split; [done|]. apply has_prefix_iff.
    exists (drop (length t) w). apply (f_equal (take (length t))) in E2. rewrite take_app_le, take_app_length in E2 by lia.
    by rewrite <- E2 at 1; rewrite take_drop.
  - intros [<- [r ->]%has_prefix_iff]. apply has_prefix_iff. exists (r ++ pk). by rewrite <- !(assoc_L (++)).
Qed.

Lemma stored_len_key w pk : (length w <= FTS_MAX_TERM_BYTES)%nat -> stored_len (fts_build_key w pk) = Z.of_nat (length w).
Proof.
  intros Hw. rewrite build_key_short by done. unfold stored_len. rewrite take_app_exact by apply le_split_length.
  rewrite le_combine_split. unfold FTS_MAX_TERM_BYTES in Hw. rewrite Z.mod_small; [done|]. change (2 ^ (8 * Z.of_nat 2)) with 65536. lia.
Qed.

Lemma bucket_still_prefix t tlen e : fts_entry e -> (length t <= tlen <= FTS_MAX_TERM_BYTES)%nat ->
  bucket_still t tlen e.1 = has_prefix (bucket_seek t tlen) e.1.
Proof.
  intros (w & pk & tf & wc & -> & Hw & _) Ht. cbn [fst]. apply eq_true_iff_eq. unfold bucket_seek. rewrite key_prefix by done.
  unfold bucket_still. rewrite stored_len_key by done. rewrite build_key_short by done.
  unfold FTS_TERM_LEN_PREFIX. rewrite drop_app_exact by apply le_split_length.
  rewrite !andb_true_iff, !negb_true_iff, !Nat.ltb_ge, Z.eqb_eq, bool_decide_eq_true, !length_app, le_split_length. unfold has_prefix.
  rewrite bool_decide_eq_true. split.
  - intros [[[_ ?] _] Hp]. assert (length w = tlen) by lia. split; [done|]. by rewrite take_app_le in Hp by lia.
  - intros [? Hp]. rewrite take_app_le by lia. split_and!; [lia|lia|lia|done].
Qed.

Lemma bucket_postings_spec t tlens it : Forall fts_entry (it_entries it) ->
  Forall (fun tlen => length t <= tlen <= FTS_MAX_TERM_BYTES)%nat tlens ->
  bucket_postings t tlens it =
    concat ((fun tlen => omap (posting_of (bucket_pk tlen)) (with_prefix fst (bucket_seek t tlen) (it_entries it))) <$> tlens).
Proof.
  intros Hall Ht. revert it Hall. induction Ht as [|tlen tlens Hlen Ht IH]; intros it Hall; [done|].
  cbn [bucket_postings fmap list_fmap concat].
  destruct (posting_loop_spec (S (iter_fuel it)) (bucket_still t tlen) (bucket_pk tlen) (tdb_iter_seek (bucket_seek t tlen) it)) as [Hp He].
  { rewrite <- Nat.le_succ_l, <- Nat.succ_le_mono. etransitivity; [apply ahead_length|]. by rewrite !it_fuel, (proj1 (seeks_keep it _)). }
  rewrite (proj1 (seeks_keep it _)) in He. destruct (posting_loop _ _ _ _) as [ps it']. cbn [fst snd] in *. rewrite Hp, IH by (by rewrite He).
  rewrite He. f_equal. rewrite ahead_seek. f_equal. apply walk_prefix; [apply it_sorted|]. intros e Hin. apply bucket_still_prefix; [|done].
  rewrite Forall_forall in Hall. by apply Hall.
Qed.

End Postings.

(** ** The postings of a table *)

Lemma tf_fits tokens w n : tf_map tokens !! w = Some n -> fits_u16 n.
Proof.
  unfold tf_map. assert (Hg : forall m : gmap bytes Z, (forall w n, m !! w = Some n -> fits_u16 n) ->
    forall w n, foldl (fun m w => <[w := u16 (default 0 (m !! w) + 1)]> m) m tokens !! w = Some n -> fits_u16 n).
  { induction tokens as [|t ts IH]; intros m Hm; [done|]. cbn [foldl]. apply IH. intros w' n' Hl.
    destruct (decide (w' = t)) as [->|Hne]; [rewrite lookup_insert_eq in Hl; injection Hl as <-; apply u16_fits|].
    rewrite lookup_insert_ne in Hl by done. by eapply Hm. }
  apply Hg. intros ? ? Hl. by rewrite lookup_empty in Hl.
Qed.

Lemma tf_some tokens w : is_Some (tf_map tokens !! w) <-> w ∈ tokens.
Proof.
  split; [intros [n Hn]; by eapply tf_map_elem|]. unfold tf_map.
  assert (Hg : forall m : gmap bytes Z, w ∈ tokens \/ is_Some (m !! w) ->
    is_Some (foldl (fun m w => <[w := u16 (default 0 (m !! w) + 1)]> m) m tokens !! w)).
  { induction tokens as [|t ts IH]; intros m [Hw|Hm]; [by apply elem_of_nil in Hw|done| |]; cbn [foldl]; apply IH.
    - apply elem_of_cons in Hw as [->|Hw]; [right; by rewrite lookup_insert_eq|by left].
    - right. destruct (decide (w = t)) as [->|Hne]; [by rewrite lookup_insert_eq|by rewrite lookup_insert_ne]. }
  intros Hw. apply Hg. by left.
Qed.

Lemma value_counters tf wc : fits_u16 tf -> let v := fts_build_value tf wc in
  Nat.leb FTS_VALUE_LEN (length v) = true /\ le_combine (take 2 v) = tf /\ le_combine (take 4 (drop 2 v)) = u32 wc.
Proof.
  intros Htf. unfold fts_build_value. rewrite length_app, !le_split_length. split; [done|].
  rewrite take_app_exact, drop_app_exact, take_ge by (by rewrite le_split_length).
  rewrite !le_combine_split. split; [|done]. by rewrite Z.mod_small.
Qed.

Section Rows.
Context {It : Type} `{IterLaws It}.
Context {Rec : Type} (rows : gmap bytes Rec) (toks : Rec -> list bytes).
Hypothesis Hkeys : forall pk, is_Some (rows !! pk) -> pk <> [].
Hypothesis Hlen : forall rec, Forall (fun w => (length w <= FTS_MAX_TERM_BYTES)%nat) (toks rec).

Definition word_count (rec : Rec) : Z := Z.of_nat (length (toks rec)).

(** The entries of an index of the rows. *)
Definition indexes (l : list (bytes * bytes)) : Prop := forall k v, (k, v) ∈ l <->
  exists pk rec w n, rows !! pk = Some rec /\ tf_map (toks rec) !! w = Some n /\
    k = fts_build_key w pk /\ v = fts_build_value n (word_count rec).

Lemma token_short rec w n : tf_map (toks rec) !! w = Some n -> (length w <= FTS_MAX_TERM_BYTES)%nat.
Proof. intros Hw%tf_map_elem. pose proof (Hlen rec) as Hl. rewrite Forall_forall in Hl. by apply Hl. Qed.

Lemma indexes_entries l : indexes l -> Forall fts_entry l.
Proof.
  intros Hl. apply Forall_forall. intros [k v] (pk & rec & w & n & Hr & Hw & -> & ->)%Hl.
  exists w, pk, n, (word_count rec). split; [done|]. split; [by eapply token_short|]. apply Hkeys. by rewrite Hr.
Qed.

(** *** One term *)

Definition exact_list (t : bytes) (l : list (bytes * bytes)) : list posting_entry :=
  omap (posting_of (exact_pk (term_prefix t))) (with_prefix fst (term_prefix t) l).

Lemma prefix_key t w pk : (length t <= FTS_MAX_TERM_BYTES)%nat -> (length w <= FTS_MAX_TERM_BYTES)%nat ->
  has_prefix (term_prefix t) (fts_build_key w pk) = true <-> w = t.
Proof.
  intros Ht Hw. unfold term_prefix. rewrite key_prefix by lia. split.
  - intros [E [r ->]%has_prefix_iff]. rewrite length_app in E. destruct r; [by rewrite app_nil_r|cbn in E; lia].
  - intros ->. split; [done|]. apply has_prefix_iff. exists []. by rewrite app_nil_r.
Qed.

Lemma after_prefix t pk : (length t <= FTS_MAX_TERM_BYTES)%nat -> drop (length (term_prefix t)) (fts_build_key t pk) = pk.
Proof.
  intros Ht. rewrite build_key_short by done. unfold term_prefix. rewrite len_split by done.
  rewrite (assoc_L (++)). by rewrite drop_app_length.
Qed.

Lemma exact_elem t l p : indexes l -> (length t <= FTS_MAX_TERM_BYTES)%nat ->
  p ∈ exact_list t l <-> exists pk rec n, rows !! pk = Some rec /\ tf_map (toks rec) !! t = Some n /\ p = mk_posting pk n (u32 (word_count rec)).
Proof.
  intros Hl Ht. unfold exact_list. rewrite list_elem_of_omap. split.
  - intros ([k v] & [(pk & rec & w & n & Hr & Hw & -> & ->)%Hl Hp]%with_prefix_elem & Hpost). cbn [fst] in Hp.
    apply prefix_key in Hp as ->; [|done|by eapply token_short]. unfold posting_of, exact_pk in Hpost. cbn [fst snd mbind option_bind] in Hpost.
    destruct (value_counters n (word_count rec) (tf_fits _ _ _ Hw)) as (E1 & E2 & E3). rewrite E1, E2, E3, after_prefix in Hpost by done.
    injection Hpost as <-. by exists pk, rec, n.
  - intros (pk & rec & n & Hr & Hw & ->). exists (fts_build_key t pk, fts_build_value n (word_count rec)). split.
    + apply with_prefix_elem. split; [apply Hl; by exists pk, rec, t, n|]. by apply prefix_key.
    + unfold posting_of, exact_pk. cbn [fst snd mbind option_bind].
      destruct (value_counters n (word_count rec) (tf_fits _ _ _ Hw)) as (E1 & E2 & E3). by rewrite E1, E2, E3, after_prefix.
Qed.

Lemma exact_pk_elem t l pk : indexes l -> (length t <= FTS_MAX_TERM_BYTES)%nat ->
  pk ∈ p_pk <$> exact_list t l <-> exists rec, rows !! pk = Some rec /\ t ∈ toks rec.
Proof.
  intros Hl Ht. rewrite list_elem_of_fmap. setoid_rewrite (exact_elem t l _ Hl Ht). split.
  - intros (p & -> & pk' & rec & n & Hr & Hn & ->). exists rec. split; [done|]. by eapply tf_map_elem.
  - intros (rec & Hr & [n Hn]%tf_some). by exists (mk_posting pk n (u32 (word_count rec))); split; [|exists pk, rec, n].
Qed.

(** A document has one posting for a term. *)
Lemma omap_nodup {A B C} (f : A -> option B) (h : B -> C) (l : list A) :
  NoDup l -> (forall x y a b, x ∈ l -> y ∈ l -> f x = Some a -> f y = Some b -> h a = h b -> x = y) -> NoDup (h <$> omap f l).
Proof.
  intros Hnd. induction Hnd as [|x l Hx Hnd IH]; intros Hinj; [constructor|]. cbn [omap list_omap].
  assert (IHl : NoDup (h <$> omap f l)) by (apply IH; intros ? ? ? ? ? ?; apply Hinj; by right).
  destruct (f x) as [a|] eqn:E; [|done]. cbn. apply NoDup_cons. split; [|done].
  intros (b & Hb & (y & Hy & Ey)%list_elem_of_omap)%list_elem_of_fmap. assert (x = y) as ->; [|done].
  by eapply (Hinj x y a b); [left|right|..].
Qed.

Lemma exact_nodup t l : indexes l -> sorted_cf fst l -> (length t <= FTS_MAX_TERM_BYTES)%nat -> NoDup (p_pk <$> exact_list t l).
Proof.
  intros Hl Hs Ht. apply omap_nodup; [unfold with_prefix; apply NoDup_filter; by apply sorted_nodup|].
  intros [k1 v1] [k2 v2] a b [H1 P1]%with_prefix_elem [H2 P2]%with_prefix_elem Ea Eb Hab. cbn [fst] in *.
  apply has_prefix_iff in P1 as [r1 ->], P2 as [r2 ->]. unfold posting_of, exact_pk in Ea, Eb. cbn [fst snd mbind option_bind] in Ea, Eb.
  rewrite drop_app_length in Ea, Eb. destruct (Nat.leb _ _); [|done]. destruct (Nat.leb _ _) in Eb; [|done].
  injection Ea as <-. injection Eb as <-. cbn in Hab. subst r2. apply sorted_keys_nodup in Hs.
  f_equal. apply list_elem_of_lookup in H1 as [i Hi], H2 as [j Hj].
  assert (i = j) as ->; [|congruence]. eapply NoDup_lookup; [exact Hs|..]; rewrite list_lookup_fmap, ?Hi, ?Hj; done.
Qed.

(** *** Terms with a prefix *)

Definition bucket_list (t : bytes) (tlens : list nat) (l : list (bytes * bytes)) : list posting_entry :=
  concat ((fun tlen => omap (posting_of (bucket_pk tlen)) (with_prefix fst (bucket_seek t tlen) l)) <$> tlens).

Lemma bucket_pk_elem t tlens l pk : indexes l -> Forall (fun tlen => length t <= tlen <= FTS_MAX_TERM_BYTES)%nat tlens ->
  pk ∈ p_pk <$> bucket_list t tlens l <-> exists rec w, rows !! pk = Some rec /\ w ∈ toks rec /\ has_prefix t w = true /\ length w ∈ tlens.
Proof.
  intros Hl Ht. rewrite Forall_forall in Ht. unfold bucket_list. rewrite list_elem_of_fmap. split.
  - intros (p & -> & Hp). apply list_elem_of_In, in_concat in Hp as (ps & Hps & Hp). apply list_elem_of_In, list_elem_of_fmap in Hps as (tlen & -> & Htl).
    apply list_elem_of_In, list_elem_of_omap in Hp as ([k v] & [(pk & rec & w & n & Hr & Hw & -> & ->)%Hl Hp]%with_prefix_elem & Hpost). cbn [fst] in Hp.
    apply key_prefix in Hp as [Hwl Hp]; [|by apply Ht|by eapply token_short]. unfold posting_of, bucket_pk in Hpost. cbn [fst snd] in Hpost.
    destruct (value_counters n (word_count rec) (tf_fits _ _ _ Hw)) as (E1 & E2 & E3). rewrite build_key_short in Hpost by (by eapply token_short).
    rewrite E1 in Hpost. destruct (Nat.leb _ _) in Hpost; [done|]. injection Hpost as <-. cbn [p_pk].
    exists rec, w. split; [|split_and!; [by eapply tf_map_elem|done|congruence]].
    rewrite <- Hwl. change (rows !! drop (length w) (w ++ pk) = Some rec). by rewrite drop_app_length.
  - intros (rec & w & Hr & [n Hw]%tf_some & Hp & Htl). assert (Hsh := token_short _ _ _ Hw).
    destruct (value_counters n (word_count rec) (tf_fits _ _ _ Hw)) as (E1 & E2 & E3).
    exists (mk_posting pk n (u32 (word_count rec))). split; [done|]. apply list_elem_of_In, in_concat. eexists. split.
    { apply list_elem_of_In, list_elem_of_fmap. by exists (length w). }
    apply list_elem_of_In, list_elem_of_omap. exists (fts_build_key w pk, fts_build_value n (word_count rec)). split.
    + apply with_prefix_elem. split; [apply Hl; by exists pk, rec, w, n|]. apply key_prefix; [by apply Ht|done|done].
    + unfold posting_of, bucket_pk. cbn [fst snd]. rewrite build_key_short, E1, E2, E3 by done.
      rewrite (proj2 (Nat.leb_gt _ _)) by (rewrite !length_app, le_split_length; specialize (Hkeys pk (mk_is_Some _ _ Hr)); unfold FTS_TERM_LEN_PREFIX; destruct pk; [done|cbn; lia]).
      cbn [mbind option_bind]. rewrite (assoc_L (++)), drop_app_exact; [done|]. by rewrite length_app, le_split_length.
Qed.

End Rows.

(** ** The tally of a query *)

Definition required (qt : fts_query_term_t) : bool := FTS_TERM_NEUTRAL <? yesno qt.
Definition excluded (qt : fts_query_term_t) : bool := yesno qt <? FTS_TERM_NEUTRAL.

Section Tally.
Context {D : Type} `{Double D}.
Variable ps : fts_query_term_t -> list posting_entry.
Variable sc : fts_query_term_t -> posting_entry -> D.
Implicit Types (t : tally (D := D)) (qt : fts_query_term_t) (terms : list fts_query_term_t) (pk : bytes).

Definition count_required qt t : tally :=
  if required qt then mk_tally (doc_scores t) (doc_required_hits t) (u32 (num_required t + 1)) else t.
Definition tally_term t qt : tally := foldl (score_posting qt (sc qt)) (count_required qt t) (ps qt).
Definition tally_terms terms : tally := foldl tally_term (mk_tally ∅ ∅ 0) terms.

(** What a term adds to the score of a document. *)
Definition contrib qt pk : list D := sc qt <$> List.filter (fun p => bool_decide (p_pk p = pk)) (ps qt).
Definition contribs terms pk : list D := concat ((fun qt => contrib qt pk) <$> terms).
Definition total (cs : list D) : D := foldl dadd (of_int 0) cs.
Definition scored (o : option D) (cs : list D) : option D :=
  match cs with [] => o | _ => Some (foldl dadd (default (of_int 0) o) cs) end.

Definition hits qt pk : bool := bool_decide (pk ∈ p_pk <$> ps qt).
Definition required_hits terms pk : nat := length (List.filter (fun qt => required qt && hits qt pk) terms).

(** *** One term *)

Lemma scored_app o a b : scored (scored o a) b = scored o (a ++ b).
Proof. destruct b as [|y b]; [by rewrite app_nil_r|]. destruct a as [|x a]; [done|]. cbn. by rewrite foldl_app. Qed.

Lemma add_postings qt l t pk : excluded qt = false ->
  doc_scores (foldl (score_posting qt (sc qt)) t l) !! pk =
    scored (doc_scores t !! pk) (sc qt <$> List.filter (fun p => bool_decide (p_pk p = pk)) l).
Proof.
  intros He. revert t. induction l as [|p l IH]; intros t; [done|]. cbn [foldl]. rewrite IH. clear IH.
  unfold score_posting. unfold excluded in He. rewrite He. cbn [doc_scores List.filter].
  destruct (decide (p_pk p = pk)) as [->|Hne].
  - rewrite bool_decide_true, lookup_insert_eq by done. apply (scored_app _ [_]).
  - by rewrite bool_decide_false, lookup_insert_ne by done.
Qed.

Lemma postings_num qt l t : num_required (foldl (score_posting qt (sc qt)) t l) = num_required t.
Proof. revert t. induction l as [|p l IH]; intros t; [done|]. cbn [foldl]. rewrite IH. unfold score_posting. by destruct (_ <? _). Qed.

Lemma postings_hits_neutral qt l t : required qt = false -> doc_required_hits (foldl (score_posting qt (sc qt)) t l) = doc_required_hits t.
Proof.
  intros Hr. revert t. induction l as [|p l IH]; intros t; [done|]. cbn [foldl]. rewrite IH. unfold score_posting.
  unfold required in Hr. rewrite Hr. destruct (yesno qt <? FTS_TERM_NEUTRAL); reflexivity.
Qed.

Lemma postings_hits qt l t pk : required qt = true -> NoDup (p_pk <$> l) -> let h t := default 0 (doc_required_hits t !! pk) in
  h (foldl (score_posting qt (sc qt)) t l) = if bool_decide (pk ∈ p_pk <$> l) then u32 (h t + 1) else h t.
Proof.
  intros Hr Hnd h. revert t. induction l as [|p l IH]; intros t; [done|]. rewrite fmap_cons in Hnd |- *. apply NoDup_cons in Hnd as [Hp Hnd].
  cbn [foldl]. rewrite IH by done. unfold score_posting, h. unfold required in Hr.
  replace (yesno qt <? FTS_TERM_NEUTRAL) with false by (unfold FTS_TERM_NEUTRAL in *; lia). rewrite Hr. cbn [doc_required_hits].
  destruct (decide (pk = p_pk p)) as [->|Hne].
  - rewrite (bool_decide_false _ Hp), lookup_insert_eq, bool_decide_true by (by left). done.
  - rewrite lookup_insert_ne by done. repeat case_bool_decide; set_solver.
Qed.

Lemma remove_postings qt l t pk : excluded qt = true -> let t' := foldl (score_posting qt (sc qt)) t l in
  doc_scores t' !! pk = (if bool_decide (pk ∈ p_pk <$> l) then None else doc_scores t !! pk) /\
  doc_required_hits t' = doc_required_hits t /\ num_required t' = num_required t.
Proof.
  intros He t'. split; [|split; [apply postings_hits_neutral; unfold excluded, required, FTS_TERM_NEUTRAL in *; lia|apply postings_num]].
  unfold t'. clear t'. revert t. induction l as [|p l IH]; intros t; [done|]. cbn [foldl]. rewrite IH. unfold score_posting.
  unfold excluded in He. rewrite He. cbn [doc_scores]. rewrite fmap_cons.
  destruct (decide (pk = p_pk p)) as [->|Hne].
  - rewrite lookup_delete_eq, (bool_decide_true (_ ∈ _ :: _)) by (by left). by destruct (bool_decide _).
  - rewrite lookup_delete_ne by done. repeat case_bool_decide; set_solver.
Qed.

(** *** The terms in order *)

Lemma tally_added terms pk : Forall (fun qt => excluded qt = false) terms ->
  Forall (fun qt => required qt = true -> NoDup (p_pk <$> ps qt)) terms -> Z.of_nat (length terms) < 2 ^ 32 ->
  let t := tally_terms terms in
  doc_scores t !! pk = scored None (contribs terms pk) /\
  default 0 (doc_required_hits t !! pk) = Z.of_nat (required_hits terms pk) /\
  num_required t = Z.of_nat (length (List.filter required terms)).
Proof.
  unfold tally_terms, contribs, required_hits. induction terms as [|qt terms IH] using rev_ind; intros He Hnd Hlen; [done|].
  apply Forall_app in He as [He [Hq _]%List.Forall_cons_iff], Hnd as [Hnd [Hu _]%List.Forall_cons_iff].
  rewrite length_app in Hlen. cbn in Hlen. destruct IH as (IH1 & IH2 & IH3); [done|done|lia|].
  rewrite foldl_snoc. set (t := foldl tally_term _ terms) in *. cbn zeta in IH1, IH2, IH3 |- *. unfold tally_term.
  assert (Hle : (length (List.filter required terms) <= length terms)%nat) by apply List.filter_length_le.
  assert (Hle2 : (length (List.filter (fun qt => required qt && hits qt pk) terms) <= length terms)%nat) by apply List.filter_length_le.
  rewrite fmap_app, concat_app, !List.filter_app, !length_app. cbn [fmap list_fmap concat]. rewrite app_nil_r. split; [|split].
  - rewrite add_postings by done. unfold count_required. unfold contrib.
    destruct (required qt); cbn [doc_scores]; by rewrite IH1, scored_app.
  - cbn [List.filter]. unfold hits at 2. destruct (required qt) eqn:Hr; cbn [andb].
    + rewrite postings_hits by auto. unfold count_required. rewrite Hr. cbn [doc_required_hits].
      rewrite IH2. case_bool_decide; cbn [length]; [|f_equal; lia]. rewrite u32_id; [lia|]. unfold fits_u32. lia.
    + rewrite postings_hits_neutral by done. unfold count_required. rewrite Hr, IH2. cbn. f_equal. lia.
  - rewrite postings_num. unfold count_required. cbn [List.filter]. destruct (required qt); cbn [num_required length]; rewrite IH3; [|f_equal; lia].
    rewrite u32_id; [lia|]. unfold fits_u32. lia.
Qed.

Lemma tally_removed terms t pk : Forall (fun qt => excluded qt = true) terms -> let t' := foldl tally_term t terms in
  doc_scores t' !! pk = (if existsb (fun qt => hits qt pk) terms then None else doc_scores t !! pk) /\
  doc_required_hits t' = doc_required_hits t /\ num_required t' = num_required t.
Proof.
  intros He. revert t. induction He as [|qt terms Hq He IH]; intros t; [done|]. cbn [foldl existsb]. cbn zeta.
  destruct (IH (tally_term t qt)) as (-> & -> & ->). unfold tally_term, count_required.
  replace (required qt) with false by (unfold required, excluded, FTS_TERM_NEUTRAL in *; lia).
  destruct (remove_postings qt (ps qt) t pk Hq) as (-> & -> & ->). split; [|done]. unfold hits at 2.
  destruct (bool_decide _); cbn; [|done]. by destruct (existsb _ terms).
Qed.

Lemma filter_forall (terms : list fts_query_term_t) (f f' : fts_query_term_t -> bool) :
  (length (List.filter f terms) <= length (List.filter (fun x => f x && f' x) terms))%nat <->
  Forall (fun x => f x = true -> f' x = true) terms.
Proof.
  induction terms as [|x terms IH]; [done|]. cbn [List.filter]. rewrite List.Forall_cons_iff, <- IH.
  assert (Hle : (length (List.filter (fun x => f x && f' x) terms) <= length (List.filter f terms))%nat).
  { clear. induction terms as [|x terms IH]; [done|]. cbn. destruct (f x); cbn; [|done]. destruct (f' x); cbn; lia. }
  destruct (f x), (f' x); cbn; intuition (try lia; auto; congruence).
Qed.

(** The documents that are left, with their scores. *)
Lemma tally_result pos neg pk (x : D) : Forall (fun qt => excluded qt = false) pos -> Forall (fun qt => excluded qt = true) neg ->
  Forall (fun qt => required qt = true -> NoDup (p_pk <$> ps qt)) pos -> Z.of_nat (length pos) < 2 ^ 32 ->
  filter_required (tally_terms (pos ++ neg)) !! pk = Some x <->
  contribs pos pk <> [] /\ x = total (contribs pos pk) /\ Forall (fun qt => required qt = true -> hits qt pk = true) pos /\
  Forall (fun qt => hits qt pk = false) neg.
Proof.
  intros Hp Hn Hnd Hlen. unfold tally_terms. rewrite foldl_app. fold (tally_terms pos).
  destruct (tally_added pos pk Hp Hnd Hlen) as (A1 & A2 & A3). destruct (tally_removed neg (tally_terms pos) pk Hn) as (R1 & R2 & R3).
  set (t := foldl tally_term (tally_terms pos) neg) in *. cbn zeta in *. rewrite A1 in R1. rewrite A3 in R3.
  assert (Hneg : Forall (fun qt => hits qt pk = false) neg <-> existsb (fun qt => hits qt pk) neg = false).
  { rewrite <- not_true_iff_false, existsb_exists, List.Forall_forall. setoid_rewrite <- not_true_iff_false. naive_solver. }
  assert (Hsc : doc_scores t !! pk = Some x <-> contribs pos pk <> [] /\ x = total (contribs pos pk) /\ Forall (fun qt => hits qt pk = false) neg).
  { rewrite R1, Hneg. unfold scored, total. destruct (existsb _ neg); [naive_solver|]. destruct (contribs pos pk); naive_solver. }
  unfold filter_required. rewrite <- filter_forall. unfold required_hits in A2.
  destruct (Z.ltb_spec 0 (num_required t)) as [Hpos|Hpos].
  - rewrite map_lookup_filter_Some, Hsc. cbn [fst]. rewrite R2. rewrite R3 in *.
    destruct (doc_required_hits (tally_terms pos) !! pk) as [h|]; cbn [default] in A2; [rewrite negb_true_iff, Z.ltb_ge|]; naive_solver lia.
  - rewrite Hsc. naive_solver lia.
Qed.

End Tally.

(** ** The documents of a query *)

(** Doubles other than NaN are ordered. *)
Class DoubleOrder (D : Type) `{Double D} : Prop := {
  dgt_asym a b : dgt a b = true -> dgt b a = false;
  dgt_cotrans a b c : dgt b a = false -> dgt c b = false -> dgt c a = false
}.

Section Query.
Context {D : Type} `{DoubleOrder D} {Rec : Type}.
Variable g : fts_globals.
Variable toks : Rec -> list bytes.
Implicit Types (qt : fts_query_term_t) (terms : list fts_query_term_t) (rec : Rec).

#[export] Instance by_rank_total : Total (by_rank (D := D)).
Proof.
  intros a b. unfold by_rank. destruct (dgt b.2 a.2) eqn:E; [right; by apply dgt_asym|by left].
Qed.
#[export] Instance by_rank_trans : Transitive (by_rank (D := D)).
Proof. intros a b c. unfold by_rank. apply dgt_cotrans. Qed.

(** A document has the word of a term, or a word that starts with it when the term is
    truncated. *)
Definition has_term qt rec : Prop :=
  if trunc qt then exists w, w ∈ toks rec /\ has_prefix (term qt) w = true else term qt ∈ toks rec.

(** What a query asks for. *)
Definition doc_matches terms rec : Prop :=
  (exists qt, qt ∈ terms /\ excluded qt = false /\ has_term qt rec) /\
  forall qt, qt ∈ terms -> (required qt = true -> has_term qt rec) /\ (excluded qt = true -> ~ has_term qt rec) /\
    (is_phrase qt = true -> exists pre post, toks rec = pre ++ phrase_words qt ++ post).

(** The longest word, in bytes, that the search for a truncated term looks for. *)
Definition reach : nat := Nat.min (srv_fts_max_word_len g) FTS_MAX_TERM_BYTES.

(** A document in which a truncated term completes to no longer word than that. *)
Definition within_reach terms rec : Prop := forall qt w, qt ∈ terms -> trunc qt = true ->
  w ∈ toks rec -> has_prefix (term qt) w = true -> (length w <= reach)%nat.

(** The documents that the walks of the index reach. *)
Definition reached qt rec : Prop :=
  if trunc qt then exists w, w ∈ toks rec /\ has_prefix (term qt) w = true /\ (length w <= reach)%nat
  else term qt ∈ toks rec.

Definition doc_reached terms rec : Prop :=
  (exists qt, qt ∈ terms /\ excluded qt = false /\ reached qt rec) /\
  forall qt, qt ∈ terms -> (required qt = true -> reached qt rec) /\ (excluded qt = true -> ~ reached qt rec) /\
    (is_phrase qt = true -> exists pre post, toks rec = pre ++ phrase_words qt ++ post).

Lemma within_reached terms qt rec : within_reach terms rec -> qt ∈ terms -> reached qt rec <-> has_term qt rec.
Proof. intros Hw Hq. unfold reached, has_term. destruct (trunc qt) eqn:E; [|done]. split; intros (w & Hin & Hp); naive_solver. Qed.

Lemma within_matches terms rec : within_reach terms rec -> doc_reached terms rec <-> doc_matches terms rec.
Proof. intros Hw. pose proof (fun qt Hq => within_reached terms qt rec Hw Hq). unfold doc_reached, doc_matches. naive_solver. Qed.

(** Queries whose excluded terms come last and whose required terms are not truncated;
    the terms fit the index. *)
Definition orderly terms : Prop := exists pos neg, terms = pos ++ neg /\
  Forall (fun qt => excluded qt = false) pos /\ Forall (fun qt => excluded qt = true) neg /\
  Forall (fun qt => required qt = true -> trunc qt = false) pos /\
  Forall (fun qt => (length (term qt) <= FTS_MAX_TERM_BYTES)%nat) terms /\ Z.of_nat (length terms) < 2 ^ 32.

(** The BM25 scores of a document, one for each term that is not excluded and that it has. *)
Definition row_scores (se : search_env D) (rows : gmap bytes Rec) (totals : Z * Z) terms pk rec : list D :=
  let '(total_docs, inv_avgdl) := bm25_totals totals in
  concat ((fun qt => match tf_map (toks rec) !! term qt with
                     | Some tf =>
                       let df := u32 (Z.of_nat (size (filter (fun e => term qt ∈ toks e.2) rows))) in
                       [bm25_score (srv_fts_bm25_k1 se) (srv_fts_bm25_b se) inv_avgdl (bm25_idf total_docs df)
                          (mk_posting pk tf (u32 (word_count toks rec)))]
                     | None => []
                     end) <$> List.filter (fun qt => negb (excluded qt)) terms).

Lemma lengths_bounds t : Forall (fun tlen => length t <= tlen <= FTS_MAX_TERM_BYTES)%nat (bucket_lengths g t) /\
  forall n, (length t <= n)%nat -> n ∈ bucket_lengths g t <-> (n <= reach)%nat.
Proof.
  unfold bucket_lengths, reach. split; [apply Forall_forall; intros n|intros n Hn]; rewrite elem_of_seq; lia.
Qed.

End Query.

(** ** The result of a search *)

Section Exact.
Context {It Rec D : Type} `{IterLaws It} `{TableLaws Rec} `{RowReads Rec} `{!ReadsBack} `{Charset} `{DoubleOrder D}.
Variable sh : Dml.share.
Variable rsh : read_share.
Variable is_fts : nat -> bool.
Variable g : fts_globals.
Variable fts_fields : nat -> Rec -> list (option bytes).
Variable en : read_env It.
Variable se : search_env D.
Variable s : hstate.
Variable rows : gmap bytes Rec.
Variables (inx : nat) (ix : index).
Notation toks := (fts_tokens inx).
Implicit Types (qt : fts_query_term_t) (terms pos neg : list fts_query_term_t) (rec : Rec) (pk : bytes) (st : hread It Rec).

(** The table and its index, read by a statement that neither is killed nor runs out of
    memory. *)
Record searchable : Prop := {
  sr_consistent : consistent sh s rows;
  sr_reads : env_reads sh en s;
  sr_keys pk : is_Some (rows !! pk) -> pk <> [];
  sr_index : (inx, ix) ∈ active_indexes sh /\ ix_kind ix = Fulltext;
  sr_tokens rec : fts_tokens inx rec = fts_extract_and_tokenize g (fts_fields inx rec);
  sr_order m : se_order se m ≡ₚ map_to_list m;
  sr_malloc pk : se_malloc se pk = true
}.
Hypothesis Hs : searchable.

Lemma entries_lookup rec pk k v :
  entries (inx, ix) rec pk !! k = Some v <-> exists w n, tf_map (toks rec) !! w = Some n /\ k = fts_build_key w pk /\ v = fts_build_value n (word_count toks rec).
Proof.
  unfold entries. rewrite (proj2 (sr_index Hs)).
  rewrite <- elem_of_list_to_map by (rewrite <- list_fmap_compose; pose proof (fts_keys_nodup inx rec pk (fun _ => true)) as Hk; by rewrite filter_true_id in Hk).
  rewrite list_elem_of_fmap. split.
  - intros ([w n] & [= -> ->] & Hin%elem_of_map_to_list). by exists w, n.
  - intros (w & n & Hw & -> & ->). exists (w, n). split; [done|]. by apply elem_of_map_to_list.
Qed.

Lemma index_iter : exists it, en_iter_new en (Some inx) = (TDB_SUCCESS, it) /\ indexes rows toks (it_entries it).
Proof.
  destruct Hs as [Hc Hr Hk [Hi Hf] _ _ _]. destruct (er_iter _ _ _ Hr (Some inx)) as (it & Hnew & Hl); [right; by exists inx, ix|].
  exists it. split; [done|]. intros k v. rewrite Hl. pose proof (c_index _ _ _ Hc (inx, ix) Hi k v) as Hx. unfold kv in Hx. rewrite lookup_fmap in Hx.
  cbn [fst] in Hx. rewrite Hx. setoid_rewrite entries_lookup. naive_solver.
Qed.

Lemma row_tokens_short rec : Forall (fun w => (length w <= FTS_MAX_TERM_BYTES)%nat) (toks rec).
Proof. apply token_length. Qed.

(** The postings of a term. *)
Lemma term_postings_elem it qt pk : indexes rows toks (it_entries it) -> (length (term qt) <= FTS_MAX_TERM_BYTES)%nat ->
  pk ∈ p_pk <$> term_postings g qt it <-> exists rec, rows !! pk = Some rec /\ reached g toks qt rec.
Proof.
  intros Hi Hl. unfold term_postings, reached. destruct (lengths_bounds g (term qt)) as [Hb Hin]. destruct (trunc qt).
  - rewrite bucket_postings_spec by (done || by eapply indexes_entries, Hi; [apply (sr_keys Hs)|apply row_tokens_short]).
    fold (bucket_list (term qt) (bucket_lengths g (term qt)) (it_entries it)).
    rewrite (bucket_pk_elem rows toks) by (done || apply (sr_keys Hs) || apply row_tokens_short). split.
    + intros (rec & w & Hr & Hw & Hp & Hlw). exists rec. split; [done|]. exists w. split_and!; [done..|]. apply Hin; [|done].
      apply has_prefix_iff in Hp as [r ->]. rewrite length_app. lia.
    + intros (rec & Hr & w & Hw & Hp & Hlw). exists rec, w. split_and!; [done..|]. apply Hin; [|done].
      apply has_prefix_iff in Hp as [r ->]. rewrite length_app. lia.
  - rewrite exact_postings_spec. apply exact_pk_elem; [apply row_tokens_short|done|done].
Qed.

Lemma term_postings_nodup it qt : indexes rows toks (it_entries it) -> (length (term qt) <= FTS_MAX_TERM_BYTES)%nat -> trunc qt = false ->
  NoDup (p_pk <$> term_postings g qt it).
Proof.
  intros Hi Hl Ht. unfold term_postings. rewrite Ht, exact_postings_spec.
  apply (exact_nodup rows toks); [done|apply it_sorted|done].
Qed.

(** *** The tally of the search *)

Definition stored_totals : Z * Z :=
  fts_load_meta (match en_get en (fts_meta_key inx) with (TDB_SUCCESS, v) => Some v | _ => None end).

Definition term_score (total_docs : Z) (inv_avgdl : D) it qt : posting_entry -> D :=
  bm25_score (srv_fts_bm25_k1 se) (srv_fts_bm25_b se) inv_avgdl (bm25_idf total_docs (u32 (Z.of_nat (length (term_postings g qt it))))).

Lemma score_terms_tally it terms n a : en_iter_new en (Some inx) = (TDB_SUCCESS, it) ->
  foldl (score_term g en se inx n a) (mk_tally ∅ ∅ 0) terms =
  tally_terms (fun qt => term_postings g qt it) (term_score n a it) terms.
Proof.
  intros Hit. unfold tally_terms. generalize (mk_tally (D := D) ∅ ∅ 0). induction terms as [|qt terms IH]; intros t; [done|].
  cbn [foldl]. rewrite <- IH. f_equal. unfold score_term, tally_term, count_required, required. by rewrite Hit.
Qed.

(** *** The phrases *)

Lemma fetch_row st pk rec : rows !! pk = Some rec -> fetch_row_by_pk en pk st = (HA_OK, set_row pk (Some rec) st).
Proof.
  intros Hr. unfold fetch_row_by_pk. rewrite (er_get _ _ _ (sr_reads Hs)). pose proof (c_data _ _ _ (sr_consistent Hs) pk) as Hd.
  rewrite Hr in Hd. destruct (cf_of None s !! build_data_key pk); [|done]. cbn in Hd. injection Hd as ->. by rewrite decode_serialize.
Qed.

Definition phrases_ok (phrases : list fts_query_term_t) pk : bool :=
  match rows !! pk with Some rec => forallb (fun ph => fts_phrase_in_tokens (toks rec) (phrase_words ph)) phrases | None => false end.

Lemma verify_phrases_spec phrases (rs : list (bytes * D)) st : Forall (fun r => is_Some (rows !! r.1)) rs ->
  (verify_phrases g fts_fields en inx phrases rs st).1 = List.filter (fun r => phrases_ok phrases r.1) rs.
Proof.
  intros Hall. revert st. induction Hall as [|r rs [rec Hr] Hall IH]; intros st; [done|]. cbn [verify_phrases List.filter].
  rewrite (fetch_row st r.1 rec Hr). cbn [set_row row_buf]. rewrite <- (sr_tokens Hs).
  specialize (IH (set_row r.1 (Some rec) st)). destruct (verify_phrases _ _ _ _ _ _ _) as [vs st']. cbn [fst] in IH. subst vs.
  assert (phrases_ok phrases r.1 = forallb (fun ph => fts_phrase_in_tokens (toks rec) (phrase_words ph)) phrases) as ->
    by (unfold phrases_ok; by rewrite Hr).
  by destruct (forallb _ _).
Qed.

(** *** The results *)

Lemma contribs_hit ps (sc : fts_query_term_t -> posting_entry -> D) terms pk :
  contribs ps sc terms pk <> [] <-> exists qt, qt ∈ terms /\ hits ps qt pk = true.
Proof.
  unfold contribs. induction terms as [|qt terms IH]; [split; [done|intros (? & Hin & _); by apply elem_of_nil in Hin]|].
  cbn [fmap list_fmap concat].
  assert (Hq : contrib ps sc qt pk <> [] <-> hits ps qt pk = true).
  { unfold contrib, hits. rewrite bool_decide_eq_true, list_elem_of_fmap. split.
    - destruct (List.filter _ _) as [|p l] eqn:E; [done|]. intros _.
      assert (In p (List.filter (fun p => bool_decide (p_pk p = pk)) (ps qt))) as [Hp Hb]%List.filter_In by (rewrite E; by left).
      apply bool_decide_eq_true in Hb. exists p. split; [done|]. by apply list_elem_of_In.
    - intros (p & -> & Hp) Hnil. apply fmap_nil_inv in Hnil. apply list_elem_of_In in Hp.
      assert (Hin : In p (List.filter (fun p' => bool_decide (p_pk p' = p_pk p)) (ps qt))) by (apply List.filter_In; split; [done|by rewrite bool_decide_true]).
      by rewrite Hnil in Hin. }
  split.
  - intros Hne. destruct (hits ps qt pk) eqn:Hh; [exists qt; split; [by left|done]|].
    destruct (contrib ps sc qt pk) eqn:Ec; [|destruct Hq as [Hq _]; by discriminate Hq].
    apply IH in Hne as (qt' & Hin & Hh'). exists qt'. split; [by right|done].
  - intros (qt' & Hin & Hh) [Hc Hr]%app_eq_nil. apply elem_of_cons in Hin as [->|Hin]; [by apply Hq in Hh|].
    apply IH in Hr; [done|]. by exists qt'.
Qed.

Definition raw_results it terms : list (bytes * D) :=
  let '(n, a) := bm25_totals stored_totals in
  (fun r => (r.1, to_float r.2)) <$>
    se_order se (filter_required (tally_terms (fun qt => term_postings g qt it) (term_score n a it) terms)).

Lemma raw_nodup it terms : NoDup (raw_results it terms).*1.
Proof.
  unfold raw_results. destruct (bm25_totals stored_totals) as [n a]. rewrite <- list_fmap_compose. cbn.
  rewrite (sr_order Hs). apply NoDup_fst_map_to_list.
Qed.

Lemma raw_elem it pos neg pk x : indexes rows toks (it_entries it) ->
  Forall (fun qt => excluded qt = false) pos -> Forall (fun qt => excluded qt = true) neg ->
  Forall (fun qt => required qt = true -> trunc qt = false) pos ->
  Forall (fun qt => (length (term qt) <= FTS_MAX_TERM_BYTES)%nat) (pos ++ neg) -> Z.of_nat (length (pos ++ neg)) < 2 ^ 32 ->
  (pk, x) ∈ raw_results it (pos ++ neg) <->
  exists rec, rows !! pk = Some rec /\ (exists qt, qt ∈ pos /\ reached g toks qt rec) /\
    (forall qt, qt ∈ pos -> required qt = true -> reached g toks qt rec) /\ (forall qt, qt ∈ neg -> ~ reached g toks qt rec) /\
    x = to_float (total (contribs (fun qt => term_postings g qt it)
                           (term_score (bm25_totals (D := D) stored_totals).1 (bm25_totals stored_totals).2 it) pos pk)).
Proof.
  intros Hi Hp Hn Hreq Hlen Hcnt. unfold raw_results. destruct (bm25_totals stored_totals) as [n a]. cbn [fst snd].
  rewrite list_elem_of_fmap. setoid_rewrite (sr_order Hs). rewrite length_app in Hcnt. apply Forall_app in Hlen as [Hlp Hln].
  rewrite Forall_forall in Hlp, Hln, Hreq.
  assert (Hhit : forall qt, qt ∈ pos \/ qt ∈ neg -> hits (fun qt => term_postings g qt it) qt pk = true <-> exists rec, rows !! pk = Some rec /\ reached g toks qt rec).
  { intros qt Hqt. unfold hits. rewrite bool_decide_eq_true. apply term_postings_elem; [done|]. destruct Hqt; auto. }
  assert (Hnd : Forall (fun qt => required qt = true -> NoDup (p_pk <$> term_postings g qt it)) pos).
  { apply Forall_forall. intros qt Hqt Hr. apply term_postings_nodup; auto. }
  assert (Hiff : forall y, (pk, y) ∈ map_to_list (filter_required (tally_terms (fun qt => term_postings g qt it) (term_score n a it) (pos ++ neg))) <->
    exists rec, rows !! pk = Some rec /\ (exists qt, qt ∈ pos /\ reached g toks qt rec) /\
      (forall qt, qt ∈ pos -> required qt = true -> reached g toks qt rec) /\ (forall qt, qt ∈ neg -> ~ reached g toks qt rec) /\
      y = total (contribs (fun qt => term_postings g qt it) (term_score n a it) pos pk)).
  { intros y. rewrite elem_of_map_to_list, tally_result by (done || lia). rewrite contribs_hit, !Forall_forall. split.
    - intros ((qt & Hqt & Hh) & -> & Hr & Hne). apply Hhit in Hh as (rec & Hrow & Hhas); [|by left]. exists rec. split_and!; try done.
      + by exists qt.
      + intros q Hq Hrq. specialize (Hr q Hq Hrq). apply Hhit in Hr as (rec' & Hrow' & Hh'); [|by left]. congruence.
      + intros q Hq Hh'. specialize (Hne q Hq). rewrite <- not_true_iff_false in Hne. apply Hne, Hhit; [by right|]. by exists rec.
    - intros (rec & Hrow & (qt & Hqt & Hh) & Hr & Hne & ->). split_and!; [exists qt; split; [done|apply Hhit; [by left|by exists rec]]|done| |].
      + intros q Hq Hrq. apply Hhit; [by left|]. exists rec. auto.
      + intros q Hq. apply not_true_iff_false. intros (rec' & Hrow' & Hh')%Hhit; [|by right]. eapply Hne; [done|]. congruence. }
  split.
  - intros ([pk' y] & [= -> ->] & Hy%Hiff). destruct Hy as (rec & Hy). exists rec. cbn. naive_solver.
  - intros (rec & Hrow & He & Hr & Hne & ->). eexists (pk, _). split; [done|]. apply Hiff. by exists rec.
Qed.

(** The results of the search: those whose document has the phrases, by rank. *)
Lemma search_results it terms st : en_iter_new en (Some inx) = (TDB_SUCCESS, it) -> terms <> [] ->
  Forall (fun r => is_Some (rows !! r.1)) (raw_results it terms) ->
  let info := (search_terms g fts_fields en se inx terms st).1 in
  results info = merge_sort by_rank (List.filter (fun r => phrases_ok (List.filter is_phrase terms) r.1) (raw_results it terms)) /\
  current_idx info = O /\ match_count info = u64 (Z.of_nat (length (results info))).
Proof.
  intros Hit Hne Hrows. unfold search_terms. destruct terms as [|qt0 terms0]; [done|]. set (terms := qt0 :: terms0) in *. clearbody terms.
  fold stored_totals. unfold raw_results in *. destruct (bm25_totals stored_totals) as [n a]. rewrite (score_terms_tally it) by done.
  set (fr := filter_required _) in *.
  assert (E : List.filter (fun r => se_malloc se r.1) (se_order se fr) = se_order se fr).
  { rewrite <- (filter_true_id (se_order se fr)) at 2. apply List.filter_ext. intros r. apply (sr_malloc Hs). }
  rewrite E. set (rs := (fun r => (r.1, to_float r.2)) <$> se_order se fr) in *.
  assert (Hout : match List.filter is_phrase terms, rs with
                 | [], _ | _, [] => (rs, st)
                 | _, _ => verify_phrases g fts_fields en inx (List.filter is_phrase terms) rs st
                 end.1 = List.filter (fun r => phrases_ok (List.filter is_phrase terms) r.1) rs).
  { destruct (List.filter is_phrase terms) as [|ph phs].
    - cbn [fst]. symmetry. rewrite <- (filter_true_id rs) at 2. apply List.filter_ext_in. intros r Hr%list_elem_of_In.
      rewrite Forall_forall in Hrows. destruct (Hrows r Hr) as [rec Hrec]. unfold phrases_ok. by rewrite Hrec.
    - destruct rs as [|r0 rs0]; [done|]. by apply verify_phrases_spec. }
  destruct (match List.filter is_phrase terms, rs with [], _ | _, [] => (rs, st) | _, _ => _ end) as [rs' st'].
  cbn [fst] in Hout. subst rs'. done.
Qed.

Lemma phrases_elem terms pk rec : rows !! pk = Some rec ->
  phrases_ok (List.filter is_phrase terms) pk = true <->
  forall qt, qt ∈ terms -> is_phrase qt = true -> exists pre post, toks rec = pre ++ phrase_words qt ++ post.
Proof.
  intros Hr. unfold phrases_ok. rewrite Hr, forallb_forall. setoid_rewrite List.filter_In. setoid_rewrite phrase_in_tokens_spec.
  setoid_rewrite <- list_elem_of_In. naive_solver.
Qed.

(** A result is a document that matches, with its score. *)
Lemma results_elem it terms st pk x : en_iter_new en (Some inx) = (TDB_SUCCESS, it) -> indexes rows toks (it_entries it) -> orderly terms ->
  (pk, x) ∈ results (search_terms g fts_fields en se inx terms st).1 <->
  exists rec, rows !! pk = Some rec /\ doc_reached g toks terms rec /\
    x = to_float (total (contribs (fun qt => term_postings g qt it)
                           (term_score (bm25_totals (D := D) stored_totals).1 (bm25_totals stored_totals).2 it)
                           (List.filter (fun qt => negb (excluded qt)) terms) pk)).
Proof.
  intros Hit Hi (pos & neg & -> & Hp & Hn & Hreq & Hlen & Hcnt).
  assert (Hpos : List.filter (fun qt => negb (excluded qt)) (pos ++ neg) = pos).
  { rewrite List.filter_app. rewrite <- (app_nil_r pos) at 2. f_equal.
    - rewrite <- (filter_true_id pos) at 2. apply List.filter_ext_in. intros qt Hq%list_elem_of_In. rewrite Forall_forall in Hp. by rewrite Hp.
    - clear -Hn. induction Hn as [|qt neg Hq Hn IH]; [done|]. cbn. by rewrite Hq. }
  rewrite Hpos. destruct (decide (pos ++ neg = [])) as [Hnil|Hne].
  { rewrite Hnil. cbn. apply app_eq_nil in Hnil as [-> _]. split; [by intros ?%elem_of_nil|].
    intros (rec & _ & [(qt & Hq & _) _] & _). by apply elem_of_nil in Hq. }
  pose proof (fun pk x => raw_elem it pos neg pk x Hi Hp Hn Hreq Hlen Hcnt) as Hraw.
  destruct (search_results it (pos ++ neg) st Hit Hne) as (-> & _ & _).
  { apply Forall_forall. intros [pk' x'] (rec & Hr & _)%Hraw. by exists rec. }
  rewrite merge_sort_Permutation, list_elem_of_In, List.filter_In, <- list_elem_of_In, Hraw. cbn [fst].
  rewrite Forall_forall in Hp, Hn. unfold doc_reached. setoid_rewrite elem_of_app. split.
  - intros ((rec & Hr & (qt & Hq & Hh) & Hx1 & Hx2 & ->) & Hph). exists rec. split; [done|]. split; [|done].
    rewrite (phrases_elem (pos ++ neg) pk rec Hr) in Hph. setoid_rewrite elem_of_app in Hph.
    split; [exists qt; split_and!; auto|]. intros q Hq'. split_and!; [|intros He|by apply Hph].
    + destruct Hq' as [Hq'|Hq']; [by apply Hx1|]. intros Hrq. exfalso. specialize (Hn q Hq'). unfold required, excluded, FTS_TERM_NEUTRAL in *. lia.
    + destruct Hq' as [Hq'|Hq']; [by rewrite (Hp q Hq') in He|by apply Hx2].
  - intros (rec & Hr & [(qt & Hq & He & Hh) Hall] & ->). split.
    + exists rec. split_and!; try done.
      * exists qt. split; [|done]. destruct Hq as [Hq|Hq]; [done|]. by rewrite (Hn qt Hq) in He.
      * intros q Hq' Hrq. by apply Hall; [left|].
      * intros q Hq'. apply Hall; [by right|]. by apply Hn.
    + rewrite (phrases_elem (pos ++ neg) pk rec Hr). intros q Hq' Hph. apply Hall; [by apply elem_of_app|done].
Qed.

(** *** Ranks *)

Lemma filter_one (l : list posting_entry) p : NoDup (p_pk <$> l) -> p ∈ l -> List.filter (fun q => bool_decide (p_pk q = p_pk p)) l = [p].
Proof.
  induction l as [|q l IH]; [by rewrite elem_of_nil|]. rewrite fmap_cons. intros [Hq Hnd]%NoDup_cons [->|Hp]%elem_of_cons; cbn [List.filter].
  - rewrite bool_decide_true by done. f_equal. clear IH Hnd. induction l as [|x l IH]; [done|]. rewrite fmap_cons in Hq. cbn.
    rewrite bool_decide_false by set_solver. apply IH. set_solver.
  - rewrite bool_decide_false; [by apply IH|]. intros E. apply Hq. rewrite E. by apply list_elem_of_fmap_2.
Qed.

Lemma filter_none (l : list posting_entry) pk : pk ∉ p_pk <$> l -> List.filter (fun q => bool_decide (p_pk q = pk)) l = [].
Proof. induction l as [|x l IH]; [done|]. rewrite fmap_cons. intros Hq. cbn. rewrite bool_decide_false by set_solver. apply IH. set_solver. Qed.

Lemma contrib_row it qt pk rec (sc : fts_query_term_t -> posting_entry -> D) :
  indexes rows toks (it_entries it) -> (length (term qt) <= FTS_MAX_TERM_BYTES)%nat -> trunc qt = false -> rows !! pk = Some rec ->
  contrib (fun qt => term_postings g qt it) sc qt pk =
    match tf_map (toks rec) !! term qt with Some tf => [sc qt (mk_posting pk tf (u32 (word_count toks rec)))] | None => [] end.
Proof.
  intros Hi Hl Ht Hr. pose proof (term_postings_nodup it qt Hi Hl Ht) as Hnd. unfold contrib, term_postings in *. rewrite Ht, exact_postings_spec in *.
  destruct (tf_map (toks rec) !! term qt) as [tf|] eqn:E.
  - rewrite (filter_one _ (mk_posting pk tf (u32 (word_count toks rec)))) by (done || apply (exact_elem rows toks row_tokens_short (term qt) _ _ Hi Hl); by exists pk, rec, tf). done.
  - rewrite filter_none; [done|]. intros (rec' & Hr' & [tf Hin]%tf_some)%(exact_pk_elem rows toks row_tokens_short (term qt) _ _ Hi Hl). congruence.
Qed.

Lemma posting_count it qt : indexes rows toks (it_entries it) -> (length (term qt) <= FTS_MAX_TERM_BYTES)%nat -> trunc qt = false ->
  length (term_postings g qt it) = size (filter (fun e => term qt ∈ toks e.2) rows).
Proof.
  intros Hi Hl Ht. pose proof (term_postings_nodup it qt Hi Hl Ht) as Hnd. rewrite <- (length_fmap p_pk), <- (size_list_to_set (C := gset bytes)) by done.
  rewrite <- size_dom. f_equal. apply set_eq. intros pk. rewrite elem_of_list_to_set, elem_of_dom.
  rewrite (term_postings_elem it qt pk Hi Hl). unfold reached. rewrite Ht. unfold is_Some. setoid_rewrite map_lookup_filter_Some. done.
Qed.

Lemma contribs_rows it terms pk rec : indexes rows toks (it_entries it) -> Forall (fun qt => (length (term qt) <= FTS_MAX_TERM_BYTES)%nat) terms ->
  Forall (fun qt => trunc qt = false) terms -> rows !! pk = Some rec ->
  contribs (fun qt => term_postings g qt it) (term_score (bm25_totals (D := D) stored_totals).1 (bm25_totals stored_totals).2 it)
    (List.filter (fun qt => negb (excluded qt)) terms) pk = row_scores toks se rows stored_totals terms pk rec.
Proof.
  intros Hi Hl Ht Hr. unfold contribs, row_scores. destruct (bm25_totals stored_totals) as [n a]. cbn [fst snd]. f_equal.
  apply list_fmap_ext. intros i qt Hq%list_elem_of_lookup_2. apply list_elem_of_In, List.filter_In in Hq as [Hq _]. apply list_elem_of_In in Hq.
  rewrite Forall_forall in Hl, Ht. rewrite (contrib_row it qt pk rec) by auto. destruct (tf_map (toks rec) !! term qt); [|done].
  unfold term_score. by rewrite posting_count by auto.
Qed.

(** *** Reading the results *)

Definition ft_next (x : option (ft_info D) * hread It Rec) : ha_rc * (option (ft_info D) * hread It Rec) :=
  let '(rc, i, st) := ft_read en x.1 x.2 in (rc, (i, st)).
Definition ft_obs (x : option (ft_info D) * hread It Rec) : bytes * option Rec * option D :=
  (current_pk_buf x.2, row_buf x.2, current_rank <$> x.1).

Lemma ft_next_present info st : Forall (fun r => is_Some (rows !! r.1)) (results info) ->
  match drop (current_idx info) (results info) with
  | [] => ft_next (Some info, st) = (HA_ERR_END_OF_FILE, (Some info, st))
  | r :: _ => exists info' st', ft_next (Some info, st) = (HA_OK, (Some info', st')) /\ results info' = results info /\
      current_idx info' = S (current_idx info) /\ ft_obs (Some info', st') = (r.1, rows !! r.1, Some r.2)
  end.
Proof.
  intros Hall. unfold ft_next, ft_read. cbn [fst snd]. rewrite (er_running _ _ _ (sr_reads Hs)), (er_ensure _ _ _ (sr_reads Hs)).
  destruct (drop (current_idx info) (results info)) as [|r rest] eqn:E; [done|]. cbn [read_loop].
  assert (Hr : is_Some (rows !! r.1)).
  { rewrite Forall_forall in Hall. apply Hall. rewrite <- (take_drop (current_idx info) (results info)), E. apply elem_of_app. right. by left. }
  destruct Hr as [rec Hr]. rewrite (fetch_row st r.1 rec Hr). eexists _, _. split; [done|]. split; [done|]. split; [done|].
  unfold ft_obs. cbn. by rewrite Hr.
Qed.

Lemma read_results n info st : Forall (fun r => is_Some (rows !! r.1)) (results info) -> (length (results info) - current_idx info <= n)%nat ->
  collect_with ft_obs ft_next n (ft_next (Some info, st)) =
    ((fun r => (r.1, rows !! r.1, Some r.2)) <$> drop (current_idx info) (results info), HA_ERR_END_OF_FILE).
Proof.
  revert info st. induction n as [|n IH]; intros info st Hall Hn; pose proof (ft_next_present info st Hall) as Hnext;
    destruct (drop (current_idx info) (results info)) as [|r rest] eqn:E; try (by rewrite Hnext).
  - apply (f_equal length) in E. rewrite length_drop in E. cbn in E. lia.
  - destruct Hnext as (info' & st' & -> & Hres & Hidx & Hobs). cbn [collect_with].
    pose proof (f_equal length E) as El. rewrite length_drop in El. cbn in El. rewrite IH; [|by rewrite Hres|rewrite Hres, Hidx; lia].
    rewrite Hobs, Hres, Hidx. cbn [fmap list_fmap]. do 2 f_equal.
    replace (S (current_idx info)) with (current_idx info + 1)%nat by lia. rewrite <- drop_drop, E. done.
Qed.

(** *** The search *)

Lemma results_nodup it terms st : en_iter_new en (Some inx) = (TDB_SUCCESS, it) -> indexes rows toks (it_entries it) -> orderly terms ->
  let info := (search_terms g fts_fields en se inx terms st).1 in
  NoDup (results info).*1 /\ StronglySorted by_rank (results info) /\ current_idx info = O /\ match_count info = u64 (Z.of_nat (length (results info))).
Proof.
  intros Hit Hi Ho. cbn zeta. pose proof Ho as (pos & neg & -> & Hp & Hn & Hreq & Hlen & Hcnt).
  destruct (decide (pos ++ neg = [])) as [->|Hne]; [cbn; split; [constructor|]; split; [constructor|done]|].
  destruct (search_results it (pos ++ neg) st Hit Hne) as (E & -> & ->).
  { apply Forall_forall. intros [pk' x'] (rec & Hr & _)%(raw_elem it pos neg); [by exists rec|done..]. }
  rewrite E. split; [|split; [apply StronglySorted_merge_sort; apply _|done]].
  rewrite merge_sort_Permutation. pose proof (raw_nodup it (pos ++ neg)) as Hnd. revert Hnd. generalize (raw_results it (pos ++ neg)). intros l.
  induction l as [|r l IH]; [done|]. rewrite fmap_cons. intros [Hr Hnd]%NoDup_cons. cbn [List.filter]. destruct (phrases_ok _ _); [|by apply IH].
  rewrite fmap_cons. apply NoDup_cons. split; [|by apply IH]. intros (r' & He & Hin)%list_elem_of_fmap. apply Hr. rewrite He.
  apply list_elem_of_fmap_2. apply list_elem_of_In, List.filter_In in Hin as [Hin _]. by apply list_elem_of_In.
Qed.

(** C23: full-text searches.  On column families that the row changes keep consistent with
    a table, and for a query whose excluded terms come last, whose required terms are not
    truncated, whose terms have at most 512 bytes and whose truncated terms complete, in
    the rows, to no word of more than [reach] bytes, a search that neither fails nor is
    killed finds exactly the rows that match the query: those with at least one of the
    terms that are not excluded, all of the required ones, none of the excluded ones and
    every phrase as consecutive words.  Each is found once, by descending rank; without
    truncated terms the rank of a row is the sum of the BM25 scores of its terms, from the
    number of rows that have the term, its occurrences in the row and the words of the row.
    [ft_read] then delivers these rows in this order with their ranks and ends.  Without
    these conditions other rows are found ([excluded_term_readded],
    [truncated_term_counts_twice], [truncation_misses_long_word]). *)
Theorem search_exact (flags : Z) (key : bytes) st :
  let terms := query_terms g flags key in
  rs_has_cf rsh inx = true -> is_fts inx = true -> orderly terms ->
  (forall pk rec, rows !! pk = Some rec -> within_reach g toks terms rec) ->
  exists info st1, ft_init_ext rsh is_fts g fts_fields en se flags inx key st = (Some info, st1) /\
    (forall pk, pk ∈ (results info).*1 <-> exists rec, rows !! pk = Some rec /\ doc_matches toks terms rec) /\
    NoDup (results info).*1 /\ StronglySorted by_rank (results info) /\ match_count info = u64 (Z.of_nat (length (results info))) /\
    (Forall (fun qt => trunc qt = false) terms -> forall pk x rec, (pk, x) ∈ results info -> rows !! pk = Some rec ->
       x = to_float (total (row_scores toks se rows stored_totals terms pk rec))) /\
    exists n, collect_with ft_obs ft_next n (ft_next (Some info, st1)) =
      ((fun r => (r.1, rows !! r.1, Some r.2)) <$> results info, HA_ERR_END_OF_FILE).
Proof.
  intros terms Hcf Hft Ho Hw. unfold ft_init_ext. rewrite Hcf, Hft. cbn [negb orb]. rewrite (er_ensure _ _ _ (sr_reads Hs)). fold terms.
  destruct index_iter as (it & Hit & Hi). pose proof (fun pk x => results_elem it terms st pk x Hit Hi Ho) as Helem.
  destruct (results_nodup it terms st Hit Hi Ho) as (Hnd & Hsort & Hidx & Hcount).
  destruct (search_terms g fts_fields en se inx terms st) as [info st1]. cbn [fst] in *. exists info, st1. split; [done|]. split_and!; try done.
  - intros pk. rewrite list_elem_of_fmap. split.
    + intros ([pk' x] & -> & (rec & Hr & Hm%within_matches & _)%Helem); [|by eapply Hw]. by exists rec.
    + intros (rec & Hr & Hm). eexists (pk, _). split; [done|]. apply Helem. exists rec. split; [done|]. split; [|done].
      apply within_matches; [by eapply Hw|done].
  - intros Htr pk x rec (rec' & Hr' & _ & ->)%Helem Hr. replace rec' with rec in * by congruence.
    destruct Ho as (pos & neg & Heq & _ & _ & _ & Hlen & _). by rewrite (contribs_rows it terms pk rec).
  - exists (length (results info)). rewrite read_results; [by rewrite Hidx, drop_0| |lia].
    apply Forall_forall. intros [pk x] (rec & Hr & _)%Helem. by exists rec.
Qed.

End Exact.

(** ** A table of documents *)

#[export] Instance doc_codec : TableCodec (Z * bytes) := {
  serialize r := r.1 :: r.2;
  pk_bytes r := [r.1];
  idx_prefix _ _ := [];
  fts_tokens _ r := fts_extract_and_tokenize default_fts [Some r.2];
  spatial_entry _ _ := None;
  ttl_field _ := None
}.

(** The tokens of documents in UTF-8 fit the index with the default limits. *)
Lemma doc_tokens_short (r : Z * bytes) : Forall (fun w => (length w <= FTS_MAX_TERM_BYTES)%nat) (fts_extract_and_tokenize default_fts [Some r.2]).
Proof.
  apply Forall_forall. intros t Ht. unfold fts_extract_and_tokenize in Ht. rewrite tokenize_tokens in Ht. apply token_fits in Ht as [_ Ht].
  change (length t <= 84 * 4)%nat in Ht. unfold FTS_MAX_TERM_BYTES. lia.
Qed.

#[export] Instance doc_laws : TableLaws (Z * bytes).
Proof. by refine (Build_TableLaws _ _ (fun _ => 0%nat) _ _ (fun _ r => doc_tokens_short r)). Defined.

#[export] Instance doc_reads : RowReads (Z * bytes) := {
  decode_row v := match v with k :: t => (k, t) | [] => (0, []) end;
  keyread _ _ := None;
  icp_check _ _ _ := CHECK_POS
}.

#[export] Instance doc_back : ReadsBack (Rec := Z * bytes).
Proof. by split; [intros []|]. Qed.

(** Integers in place of doubles. *)
#[export] Instance Z_double : Double Z := {
  of_int z := z; dadd := Z.add; dsub := Z.sub; dmul := Z.mul; ddiv := Z.div; dlog := Z.log2; to_float z := z; dgt a b := b <? a
}.
#[export] Instance Z_double_order : DoubleOrder Z.
Proof. split; cbn; lia. Qed.

Definition doc_share : Dml.share :=
  Dml.mk_share true 0 [0%nat] [mk_index Regular true [0%nat] false; mk_index Fulltext false [1%nat] true] false false 0 8.
Definition doc_rshare : read_share := mk_rshare true 0 (fun i => Nat.eqb i 1) (fun _ => 0%nat) 1.
Definition doc1 : Z * bytes := (1, of_string "Red apples and green pears"%string).
Definition doc2 : Z * bytes := (2, of_string "Green apples"%string).
Definition doc3 : Z * bytes := (3, of_string "red wine"%string).
Definition docs_state : hstate := write doc_share doc3 (write doc_share doc2 (write doc_share doc1 empty_table)).
Definition docs_map : gmap bytes (Z * bytes) := <[[3] := doc3]> (<[[2] := doc2]> (<[[1] := doc1]> ∅)).

Lemma docs_consistent : consistent doc_share docs_state docs_map.
Proof. repeat (apply write_consistent; [|vm_compute; reflexivity|reflexivity|reflexivity]). apply empty_consistent. Qed.

Definition docs_search : search_env Z := mk_search map_to_list (fun _ => true) 1 0.
Definition doc_start : hread list_iter (Z * bytes) := mk_hread 0 false false DIR_NONE None None None None [] [] None false false None.
Definition doc_index : index := mk_index Fulltext false [1%nat] true.

Lemma docs_searchable : searchable doc_share default_fts (fun _ r => [Some r.2]) (state_env docs_state) docs_search docs_state docs_map 1 doc_index.
Proof.
  split; [apply docs_consistent|apply state_env_reads| |by split; [left|]|done|done|done].
  intros pk Hr ->. by apply (is_Some_None (A := Z * bytes)).
Qed.

(** The query [+green app* -pears]. *)
Definition docs_query : bytes := of_string "+green app* -pears"%string.

Lemma terms_short (terms : list fts_query_term_t) :
  forallb (fun qt => Nat.leb (length (term qt)) FTS_MAX_TERM_BYTES) terms = true ->
  Forall (fun qt => (length (term qt) <= FTS_MAX_TERM_BYTES)%nat) terms.
Proof. intros Hf. apply List.Forall_forall. intros qt Hq. rewrite forallb_forall in Hf. by apply Nat.leb_le, Hf. Qed.

Lemma docs_query_orderly : orderly (query_terms default_fts 1 docs_query).
Proof.
  exists [mk_term (of_string "green"%string) 1 false false []; mk_term (of_string "app"%string) 0 true false []],
    [mk_term (of_string "pears"%string) (-1) false false []].
  split; [vm_compute; reflexivity|]. split; [by repeat constructor|]. split; [by repeat constructor|]. split; [by repeat constructor|].
  split; [|vm_compute; reflexivity]. apply terms_short. vm_compute. reflexivity.
Qed.

Lemma docs_within pk rec : docs_map !! pk = Some rec ->
  within_reach default_fts (fts_tokens 1) (query_terms default_fts 1 docs_query) rec.
Proof.
  intros Hr qt w _ _ Hw _. assert (Hall : Forall (fun w => bool_decide (length w <= reach default_fts)%nat = true) (fts_tokens 1 rec)).
  { unfold docs_map in Hr. apply lookup_insert_Some in Hr as [[_ <-]|[_ Hr]]; [by vm_compute; repeat constructor|].
    apply lookup_insert_Some in Hr as [[_ <-]|[_ Hr]]; [by vm_compute; repeat constructor|].
    apply lookup_insert_Some in Hr as [[_ <-]|[_ Hr]]; [by vm_compute; repeat constructor|]. by rewrite lookup_empty in Hr. }
  rewrite Forall_forall in Hall. by apply Hall, bool_decide_eq_true in Hw.
Qed.

Lemma search_exact_witness : exists info st1,
  ft_init_ext doc_rshare (fun i => Nat.eqb i 1) default_fts (fun _ r => [Some r.2]) (state_env docs_state) docs_search 1 1 docs_query doc_start
    = (Some info, st1) /\
  forall pk, pk ∈ (results info).*1 <->
    exists rec, docs_map !! pk = Some rec /\ doc_matches (fts_tokens 1) (query_terms default_fts 1 docs_query) rec.
Proof.
  destruct (search_exact doc_share doc_rshare (fun i => Nat.eqb i 1) default_fts (fun _ r => [Some r.2]) (state_env docs_state) docs_search
    docs_state docs_map 1 doc_index docs_searchable 1 docs_query doc_start) as (info & st1 & Hi & Hres & _);
    [reflexivity|reflexivity|apply docs_query_orderly|apply docs_within|].
  exists info, st1. by split.
Defined.

(** *** Queries that find other rows than those they ask for *)

Definition found (query : bytes) : list bytes :=
  match (ft_init_ext doc_rshare (fun i => Nat.eqb i 1) default_fts (fun _ r => [Some r.2]) (state_env docs_state) docs_search 1 1 query doc_start).1 with
  | Some info => (results info).*1
  | None => []
  end.

Lemma found_demo : found docs_query = [[2]].
Proof. vm_compute. reflexivity. Qed.

(** A term after an excluded one brings the document back. *)
Lemma excluded_term_readded : [2] ∈ found (of_string "-apples green"%string) /\ of_string "apples"%string ∈ fts_tokens 1 doc2.
Proof. split; vm_compute; repeat first [left | right]. Qed.

(** Two words of a truncated required term stand for a second required term. *)
Lemma truncated_term_counts_twice :
  [1] ∈ found (of_string "+a* +wine"%string) /\ bool_decide (of_string "wine"%string ∈ fts_tokens 1 doc1) = false.
Proof. split; [vm_compute; repeat first [left | right]|vm_compute; reflexivity]. Qed.

(** The longest word of a truncated search is counted in bytes, that of the index in
    characters. *)
Lemma truncation_misses_long_word : let word := concat (replicate 50 [195; 169]) in
  fts_tokenize default_fts word = [word] /\ bool_decide (length word ∈ bucket_lengths default_fts [195; 169]) = false.
Proof. split; vm_compute; reflexivity. Qed.
