(* ===== verification/Bm25.v ===== *)
(** * Ranks over the real numbers (ha_tidesdb.cc 8855-8862, 8983-8997)

    The BM25 formula of the search with real numbers in place of doubles, whose rounding
    is left aside: what more occurrences, longer documents and rarer terms do to a rank. *)

From Stdlib Require Import ZArith Reals Lra Psatz.
From stdpp Require Import base tactics list numbers.
From S2P Require Import Prelude FtsSearch FtsExact.

#[export] Instance R_double : Double R := {
  of_int := IZR; dadd := Rplus; dsub := Rminus; dmul := Rmult; ddiv := Rdiv; dlog := ln; to_float x := x;
  dgt a b := if Rlt_dec b a then true else false
}.

#[export] Instance R_double_order : DoubleOrder R.
Proof. split; cbn; intros; repeat destruct (Rlt_dec _ _); try done; lra. Qed.

Open Scope R_scope.

(** The length norm of a document. *)
Definition length_norm (b inv_avgdl : R) (doc_len : Z) : R := 1 - b + b * IZR doc_len * inv_avgdl.

Lemma bm25_score_eq k1 b a idf p :
  bm25_score k1 b a idf p = idf * (IZR (p_tf p) * (k1 + 1) / (IZR (p_tf p) + k1 * length_norm b a (p_doc_len p))).
Proof. reflexivity. Qed.

Lemma length_norm_nonneg b a dl : 0 <= b <= 1 -> 0 <= a -> (0 <= dl)%Z -> 0 <= length_norm b a dl.
Proof. intros Hb Ha Hd%IZR_le. unfold length_norm. assert (0 <= b * IZR dl) by nra. nra. Qed.

Lemma bm25_idf_eq n df : bm25_idf n df = ln ((IZR n + 1) / (IZR df + / 2)) \/ IZR df + / 2 = 0.
Proof.
  destruct (Req_dec (IZR df + / 2) 0) as [|Hne]; [by right|left]. unfold bm25_idf, BM25_IDF_EPSILON, BM25_IDF_NONNEG_SHIFT. cbn [dlog dadd ddiv dsub of_int R_double].
  f_equal. unfold Rdiv. rewrite Rmult_1_l. field. lra.
Qed.

Lemma idf_value n df : (0 <= df)%Z -> bm25_idf n df = ln ((IZR n + 1) / (IZR df + / 2)).
Proof. intros Hd%IZR_le. destruct (bm25_idf_eq n df); [done|lra]. Qed.

Lemma idf_positive n df : (0 <= df <= n)%Z -> 0 < bm25_idf n df.
Proof.
  intros [Hd Hn]. rewrite idf_value by done. apply IZR_le in Hd, Hn. rewrite <- ln_1. apply ln_increasing; [lra|].
  apply Rmult_lt_reg_r with (IZR df + / 2); [lra|]. unfold Rdiv. rewrite Rmult_assoc, Rinv_l by lra. lra.
Qed.

Lemma idf_rarer n df df' : (0 <= df < df')%Z -> (0 <= n)%Z -> bm25_idf n df' < bm25_idf n df.
Proof.
  intros [Hd Hlt] Hn. rewrite !idf_value by lia. apply IZR_le in Hd, Hn. apply IZR_lt in Hlt. apply ln_increasing.
  - apply Rdiv_lt_0_compat; lra.
  - apply Rmult_lt_compat_l; [lra|]. apply Rinv_lt_contravar; [|lra]. nra.
Qed.

(** The frequency part grows with the occurrences and shrinks with the length norm. *)
Lemma tf_norm_le k1 t t' c c' : 0 <= k1 -> 0 < t <= t' -> 0 <= c' <= c ->
  0 < t * (k1 + 1) / (t + k1 * c) <= t' * (k1 + 1) / (t' + k1 * c').
Proof.
  intros Hk Ht Hc. assert (0 < t + k1 * c) by nra. assert (0 < t' + k1 * c') by nra. split; [apply Rdiv_lt_0_compat; nra|].
  apply Rmult_le_reg_r with (t + k1 * c); [done|]. unfold Rdiv at 1. rewrite Rmult_assoc, Rinv_l, Rmult_1_r by lra.
  apply Rmult_le_reg_r with (t' + k1 * c'); [done|].
  replace (t' * (k1 + 1) / (t' + k1 * c') * (t + k1 * c) * (t' + k1 * c')) with (t' * (k1 + 1) * (t + k1 * c)) by (field; lra).
  assert (t * c' <= t' * c) by nra. nra.
Qed.

(** ranks.  Over the real numbers, with the parameters in the ranges of their variables
    and a term that no more documents have than there are, the score of a document that has
    the term is positive; it does not fall when the term occurs more often or the document is
    shorter, and it is higher for a term that fewer documents have. *)
Theorem bm25_ranking (k1 b a : R) (n df df' : Z) (p p' : posting_entry) :
  0 <= k1 -> 0 <= b <= 1 -> 0 <= a -> (0 <= df < df')%Z -> (df' <= n)%Z ->
  (0 < p_tf p <= p_tf p')%Z -> (0 <= p_doc_len p' <= p_doc_len p)%Z ->
  0 < bm25_score k1 b a (bm25_idf n df') p <= bm25_score k1 b a (bm25_idf n df') p' /\
  bm25_score k1 b a (bm25_idf n df') p < bm25_score k1 b a (bm25_idf n df) p.
Proof.
  intros Hk Hb Ha Hdf Hn [Ht Ht'] [Hd Hd']. rewrite !bm25_score_eq.
  pose proof (idf_positive n df' ltac:(lia)) as Hi. pose proof (idf_rarer n df df' Hdf ltac:(lia)) as Hr.
  pose proof (length_norm_nonneg b a (p_doc_len p') Hb Ha Hd) as Hl'. apply IZR_lt in Ht. apply IZR_le in Ht', Hd'.
  assert (Hl : length_norm b a (p_doc_len p') <= length_norm b a (p_doc_len p)) by (unfold length_norm; assert (0 <= b * a) by nra; nra).
  destruct (tf_norm_le k1 (IZR (p_tf p)) (IZR (p_tf p')) (length_norm b a (p_doc_len p)) (length_norm b a (p_doc_len p'))) as [Hpos Hle]; [lra..|].
  set (x := IZR (p_tf p) * (k1 + 1) / _) in *. set (y := IZR (p_tf p') * (k1 + 1) / _) in *. split; [split|]; nra.
Qed.

Lemma bm25_ranking_witness :
  0 < bm25_score 1 (/ 2) 1 (bm25_idf 10 2) (mk_posting [] 1 20) <= bm25_score 1 (/ 2) 1 (bm25_idf 10 2) (mk_posting [] 3 5) /\
  bm25_score 1 (/ 2) 1 (bm25_idf 10 2) (mk_posting [] 1 20) < bm25_score 1 (/ 2) 1 (bm25_idf 10 1) (mk_posting [] 1 20).
Proof. apply (bm25_ranking 1 (/ 2) 1 10 1 2 (mk_posting [] 1 20) (mk_posting [] 3 5)); cbn; lra || lia. Defined.

(** The number of documents with a truncated term counts a document once for every word of
    it: above the number of documents the score is negative, in spite of the shift that is
    said to keep it positive. *)
Lemma idf_negative n df : (0 <= n)%Z -> (n + 1 <= df)%Z -> bm25_idf n df < 0.
Proof.
  intros Hn Hd. rewrite idf_value by lia. apply IZR_le in Hn, Hd. rewrite plus_IZR in Hd. rewrite <- ln_1. apply ln_increasing.
  - apply Rdiv_lt_0_compat; lra.
  - apply Rmult_lt_reg_r with (IZR df + / 2); [lra|]. unfold Rdiv. rewrite Rmult_assoc, Rinv_l by lra. lra.
Qed.
