(* ===== verification/Counters.v ===== *)
(** * The counters of a table (ha_tidesdb.cc 4541-4618, 5549-5589, 5912-5969)

    Row ids of tables without a primary key and AUTO_INCREMENT values come from two atomic
    counters of the share.  They are recovered from the last entry of the data family when
    the table is first opened; sessions then advance them by compare-and-swap loops that
    run concurrently. *)

From Stdlib Require Import ZArith Lia Sorting.Sorted Relations.Relation_Operators.
From stdpp Require Import base tactics list numbers gmap sets relations.
From S2P Require Import Prelude Errors Scan KeyCodec Reads ReadsProof ReadsExamples.

Definition HIDDEN_PK_SIZE : nat := 8.
Definition HIDDEN_PK_FIRST_ROW_ID : Z := 1.

Record counters := mk_counters { c_next_row_id : Z; c_auto_inc_val : Z }.

(** ** Recovery *)

Section Recover.
Context {It : Type} `{IterOps It}.

(** What [recover_counters] finds: whether [txn_begin] succeeds, the new iterator, and the
    table's shape; [autoinc_of_row] is [deserialize_row] and the value of the
    AUTO_INCREMENT column. *)
Record recover_env := mk_recover {
  rv_begin : bool;
  rv_iter : tdb_rc * It;
  rv_has_user_pk : bool;
  rv_has_autoinc : bool;
  autoinc_of_row : bytes -> Z
}.

Definition recover_row_id (en : recover_env) (key : bytes) (c : counters) : counters :=
  if negb (rv_has_user_pk en) && Nat.eqb (length key) (KEY_NAMESPACE_LEN + HIDDEN_PK_SIZE)
  then mk_counters (u64 (decode_be64 (drop KEY_NAMESPACE_LEN key) + 1)) (c_auto_inc_val c) else c.

Definition recover_autoinc (en : recover_env) (value : tdb_rc * bytes) (c : counters) : counters :=
  if rv_has_user_pk en && rv_has_autoinc en
  then match value with (TDB_SUCCESS, v) => mk_counters (c_next_row_id c) (autoinc_of_row en v) | _ => c end
  else c.

Definition recover_counters (en : recover_env) (c : counters) : counters :=
  if negb (rv_begin en) then c
  else
    let c := match rv_iter en with
             | (TDB_SUCCESS, it) =>
               let it := tdb_iter_seek_to_last it in
               if tidesdb_iter_valid it then
                 match tidesdb_iter_key it with
                 | (TDB_SUCCESS, key) =>
                   if is_data_key key then recover_autoinc en (tidesdb_iter_value it) (recover_row_id en key c) else c
                 | _ => c
                 end
               else c
             | _ => c
             end in
    if negb (rv_has_user_pk en) && (c_next_row_id c =? 0) then mk_counters HIDDEN_PK_FIRST_ROW_ID (c_auto_inc_val c) else c.

End Recover.
Arguments recover_env : clear implicits.
Arguments mk_recover {It}.

(** The counters of a new share. *)
Definition new_counters : counters := mk_counters 1 0.

Definition reset_auto_increment (value : Z) (c : counters) : counters :=
  mk_counters (if 0 <? value then value else HIDDEN_PK_FIRST_ROW_ID) (if 0 <? value then value - 1 else 0).

(** ** Sessions

    [get_auto_increment] and the end of an insert, which keeps the counter ahead of the
    value of the row, are loops around [compare_exchange_weak]: the exchange succeeds when
    the counter still is what the session read, and otherwise, or spuriously, gives the
    counter's value anew. *)
Inductive session :=
| Idle
| Reserve (nb_desired_values cur : Z)
| Raise (val cur : Z).

Record autoinc := mk_autoinc {
  ai_val : Z;
  ai_sessions : gmap nat session;
  ai_given : list (Z * Z);       (* *first_value and *nb_reserved_values, the last call first *)
  ai_raised : list Z             (* values of rows that the counter was raised over *)
}.

Inductive ai_step : autoinc -> autoinc -> Prop :=
| reserve_load v ss gs rs i n :
    default Idle (ss !! i) = Idle -> 0 < n ->
    ai_step (mk_autoinc v ss gs rs) (mk_autoinc v (<[i := Reserve n v]> ss) gs rs)
| reserve_swap v ss gs rs i n :
    ss !! i = Some (Reserve n v) ->
    ai_step (mk_autoinc v ss gs rs) (mk_autoinc (u64 (v + n)) (<[i := Idle]> ss) ((u64 (v + 1), n) :: gs) rs)
| reserve_retry v ss gs rs i n cur :
    ss !! i = Some (Reserve n cur) ->
    ai_step (mk_autoinc v ss gs rs) (mk_autoinc v (<[i := Reserve n v]> ss) gs rs)
| raise_load v ss gs rs i val :
    default Idle (ss !! i) = Idle -> fits_u64 val ->
    ai_step (mk_autoinc v ss gs rs) (mk_autoinc v (<[i := Raise val v]> ss) gs rs)
| raise_done v ss gs rs i val cur :
    ss !! i = Some (Raise val cur) -> val <= cur ->
    ai_step (mk_autoinc v ss gs rs) (mk_autoinc v (<[i := Idle]> ss) gs (val :: rs))
| raise_swap v ss gs rs i val :
    ss !! i = Some (Raise val v) -> v < val ->
    ai_step (mk_autoinc v ss gs rs) (mk_autoinc val (<[i := Idle]> ss) gs (val :: rs))
| raise_retry v ss gs rs i val cur :
    ss !! i = Some (Raise val cur) -> cur < val ->
    ai_step (mk_autoinc v ss gs rs) (mk_autoinc v (<[i := Raise val v]> ss) gs rs).

Definition ai_start (c : counters) : autoinc := mk_autoinc (c_auto_inc_val c) ∅ [] [].

(** No range passes the end of 64 bits. *)
Definition no_wrap (s : autoinc) : Prop := Forall (fun r => 1 <= r.1 /\ r.1 + r.2 <= 2 ^ 64) (ai_given s).

(** ** What recovery finds *)

(** The data rows of a family come in the order of their AUTO_INCREMENT values, after the
    meta entries. *)
Definition autoinc_ascends (value : bytes -> Z) (l : list (bytes * bytes)) : Prop :=
  forall k v k' v', (k, v) ∈ l -> (k', v') ∈ l -> bytes_lt k k' -> is_data_key k = true -> is_data_key k' = true /\ value v <= value v'.

Section Recovered.
Context {It : Type} `{IterLaws It}.

Lemma last_entry it : match reverse (it_entries it) with
  | [] => tidesdb_iter_valid (tdb_iter_seek_to_last it) = false
  | (k, v) :: _ => tidesdb_iter_valid (tdb_iter_seek_to_last it) = true /\
      tidesdb_iter_key (tdb_iter_seek_to_last it) = (TDB_SUCCESS, k) /\ tidesdb_iter_value (tdb_iter_seek_to_last it) = (TDB_SUCCESS, v)
  end.
Proof.
  pose proof (ahead_last it) as Ha. destruct (reverse (it_entries it)) as [|[k v] rest].
  - by apply (ahead_nil true).
  - by destruct (ahead_cons _ _ _ _ _ Ha) as (? & ? & ? & _).
Qed.

Lemma last_is_max (l : list (bytes * bytes)) e rest : sorted_cf fst l -> reverse l = e :: rest ->
  forall x, x ∈ l -> x = e \/ bytes_lt x.1 e.1.
Proof.
  intros Hs Hr x Hx. assert (l = reverse rest ++ [e]) as -> by (by rewrite <- (reverse_involutive l), Hr, reverse_cons).
  apply elem_of_app in Hx as [Hx|Hx%list_elem_of_singleton]; [right|by left].
  clear Hr. revert Hs Hx. generalize (reverse rest). intros m Hs Hx. induction m as [|a m IH]; [by apply elem_of_nil in Hx|].
  apply StronglySorted_inv in Hs as [Hs Hall]. apply elem_of_cons in Hx as [->|Hx]; [|by apply IH].
  rewrite Forall_forall in Hall. apply Hall. apply elem_of_app. right. by left.
Qed.

(** The keys of a data family: meta entries, and rows with a row id. *)
Definition hidden_family (l : list (bytes * bytes)) : Prop := Forall (fun e => (exists r, e.1 = KEY_NS_META :: r) \/
  exists id, fits_u64 id /\ e.1 = build_data_key (encode_be64 id)) l.

Lemma data_after_meta k1 r : bytes_lt (KEY_NS_DATA :: k1) (KEY_NS_META :: r) -> False.
Proof. unfold bytes_lt, KEY_NS_DATA, KEY_NS_META. by cbn. Qed.

Lemma last_row_id l e rest id v : sorted_cf fst l -> hidden_family l -> reverse l = e :: rest ->
  fits_u64 id -> (build_data_key (encode_be64 id), v) ∈ l -> exists m, fits_u64 m /\ e.1 = build_data_key (encode_be64 m) /\ id <= m.
Proof.
  intros Hs Hf Hr Hid Hin. unfold hidden_family in Hf. rewrite Forall_forall in Hf.
  assert (He : e ∈ l) by (rewrite <- (reverse_involutive l), Hr; apply elem_of_reverse; by left).
  destruct (last_is_max l e rest Hs Hr _ Hin) as [<-|Hlt]; [by exists id|]. cbn [fst] in Hlt.
  destruct (Hf e He) as [[r Hm]|(m & Hm & Hk)]; [rewrite Hm in Hlt; by apply data_after_meta in Hlt|].
  exists m. split; [done|]. split; [done|]. rewrite Hk in Hlt. unfold bytes_lt in Hlt.
  rewrite (proj2 (hidden_pk_order id m Hid Hm)) in Hlt. rewrite Z.compare_lt_iff in Hlt. lia.
Qed.

(** A row id of the family. *)
Definition row_id (l : list (bytes * bytes)) (id : Z) : Prop := fits_u64 id /\ exists v, (build_data_key (encode_be64 id), v) ∈ l.

Lemma recovered_row_id (en : recover_env It) it c : rv_begin en = true -> rv_iter en = (TDB_SUCCESS, it) -> rv_has_user_pk en = false ->
  hidden_family (it_entries it) -> 1 <= c_next_row_id c ->
  (forall id, row_id (it_entries it) id -> id < 2 ^ 64 - 1) ->
  let c' := recover_counters en c in
  1 <= c_next_row_id c' /\ c_auto_inc_val c' = c_auto_inc_val c /\
  (forall id, row_id (it_entries it) id -> id < c_next_row_id c') /\
  (row_id (it_entries it) (c_next_row_id c' - 1) \/ (forall id, ~ row_id (it_entries it) id) /\ c_next_row_id c' = c_next_row_id c).
Proof.
  intros Hb Hi Hpk Hf Hc Hmax. unfold recover_counters. rewrite Hb, Hi, Hpk. cbn [negb andb]. pose proof (last_entry it) as Hl.
  destruct (reverse (it_entries it)) as [|[k v] rest] eqn:Hr.
  { rewrite Hl. rewrite (proj2 (Z.eqb_neq _ _)) by lia.
    apply (f_equal reverse) in Hr. rewrite reverse_involutive in Hr. rewrite Hr.
    assert (Hno : forall id, ~ row_id (reverse []) id) by (intros id [_ [v Hin]]; by apply elem_of_nil in Hin).
    split_and!; [done|done|intros id Hid; by apply Hno in Hid|by right]. }
  destruct Hl as (-> & -> & ->).
  assert (Hin : (k, v) ∈ it_entries it) by (rewrite <- (reverse_involutive (it_entries it)), Hr; apply elem_of_reverse; by left).
  assert (Hcase : (exists r, k = KEY_NS_META :: r) \/ exists id, fits_u64 id /\ k = build_data_key (encode_be64 id)).
  { unfold hidden_family in Hf. rewrite Forall_forall in Hf. by apply (Hf (k, v)). }
  destruct Hcase as [[r ->]|(m & Hm & ->)].
  - cbn [is_data_key]. change (KEY_NS_META =? KEY_NS_DATA) with false. cbn iota. rewrite (proj2 (Z.eqb_neq _ _)) by lia.
    assert (Hno : forall id, ~ row_id (it_entries it) id).
    { intros id [Hid [w Hin']]. destruct (last_row_id _ _ _ id w (it_sorted it) Hf Hr Hid Hin') as (m & _ & Hk & _). by cbn in Hk. }
    split_and!; [done|done|intros id Hid; by apply Hno in Hid|by right].
  - assert (Hm1 : m < 2 ^ 64 - 1) by (apply (Hmax m); split; [done|by exists v]). unfold fits_u64 in Hm.
    change (is_data_key (build_data_key (encode_be64 m))) with true. cbn iota. unfold recover_row_id, recover_autoinc. rewrite Hpk.
    change (Nat.eqb (length (build_data_key (encode_be64 m))) (KEY_NAMESPACE_LEN + HIDDEN_PK_SIZE)) with true. cbn [negb andb c_next_row_id c_auto_inc_val].
    change (drop KEY_NAMESPACE_LEN (build_data_key (encode_be64 m))) with (encode_be64 m).
    rewrite (proj1 (hidden_pk_order m m Hm Hm)), u64_id by (unfold fits_u64; lia). rewrite (proj2 (Z.eqb_neq _ _)) by lia.
    cbn [c_next_row_id c_auto_inc_val]. split; [lia|]. split; [done|]. split.
    2:{ left. replace (m + 1 - 1) with m by lia. split; [done|]. by exists v. }
    intros id [Hid [w Hin']].
    destruct (last_row_id _ _ _ id w (it_sorted it) Hf Hr Hid Hin') as (m' & Hm' & Hk & Hle). cbn [fst] in Hk.
    assert (m = m'); [|lia]. destruct (hidden_pk_order m m' Hm Hm') as [_ Hcmp]. rewrite <- Hk in Hcmp.
    rewrite (proj2 (bytes_compare_eq _ _) eq_refl) in Hcmp. by apply Z.compare_eq.
Qed.

Lemma recovered_autoinc (en : recover_env It) it : rv_begin en = true -> rv_iter en = (TDB_SUCCESS, it) -> rv_has_user_pk en = true ->
  rv_has_autoinc en = true -> autoinc_ascends (autoinc_of_row en) (it_entries it) ->
  let c := recover_counters en new_counters in
  (forall k v, (k, v) ∈ it_entries it -> is_data_key k = true -> autoinc_of_row en v <= c_auto_inc_val c) /\
  ((exists k v, (k, v) ∈ it_entries it /\ is_data_key k = true /\ autoinc_of_row en v = c_auto_inc_val c) \/
   (forall k v, (k, v) ∈ it_entries it -> is_data_key k = false) /\ c_auto_inc_val c = 0).
Proof.
  intros Hb Hi Hpk Hai Hmono. cbv zeta. unfold recover_counters. rewrite Hb, Hi, Hpk. cbn [negb andb]. pose proof (last_entry it) as Hl.
  destruct (reverse (it_entries it)) as [|[k' v'] rest] eqn:Hr.
  { rewrite Hl. apply (f_equal reverse) in Hr. rewrite reverse_involutive in Hr. rewrite Hr.
    split; [|right; split; [|done]]; intros k v Hin; by apply elem_of_nil in Hin. }
  destruct Hl as (-> & -> & ->). pose proof (last_is_max _ _ _ (it_sorted it) Hr) as Hcase.
  assert (Hin' : (k', v') ∈ it_entries it) by (rewrite <- (reverse_involutive (it_entries it)), Hr; apply elem_of_reverse; by left).
  assert (Hle : forall k v, (k, v) ∈ it_entries it -> is_data_key k = true -> is_data_key k' = true /\ autoinc_of_row en v <= autoinc_of_row en v').
  { intros k v Hin Hd. destruct (Hcase (k, v) Hin) as [[= <- <-]|Hlt]; [split; [done|lia]|]. by apply (Hmono k v k' v'). }
  destruct (is_data_key k') eqn:Hd'.
  - unfold recover_autoinc, recover_row_id. rewrite Hpk, Hai. cbn. split; [intros k v Hin Hd; by apply (Hle k v)|].
    left. by exists k', v'.
  - assert (Hno : forall k v, (k, v) ∈ it_entries it -> is_data_key k = false).
    { intros k v Hin. destruct (is_data_key k) eqn:Hd; [|done]. by destruct (Hle k v Hin Hd). }
    split; [|by right]. intros k v Hin Hd. by rewrite (Hno k v Hin) in Hd.
Qed.

End Recovered.

(** ** What sessions are given *)

(** As long as nothing wraps: the counter is past everything given or raised, and every
    range lies after the ones given before it. *)
Record ahead_of_all (v0 : Z) (s : autoinc) : Prop := {
  aa_start : v0 <= ai_val s;
  aa_given : Forall (fun r => v0 < r.1 /\ r.1 + r.2 <= ai_val s + 1) (ai_given s);
  aa_raised : Forall (fun v => v <= ai_val s) (ai_raised s);
  aa_ordered : StronglySorted (fun later earlier => earlier.1 + earlier.2 <= later.1) (ai_given s);
  aa_read i val cur : ai_sessions s !! i = Some (Raise val cur) -> cur <= ai_val s
}.

Record ai_inv (v0 : Z) (s : autoinc) : Prop := {
  ii_fits : fits_u64 (ai_val s);
  ii_reserve i n cur : ai_sessions s !! i = Some (Reserve n cur) -> 0 < n;
  ii_raise i val cur : ai_sessions s !! i = Some (Raise val cur) -> fits_u64 val;
  ii_ahead : no_wrap s -> ahead_of_all v0 s
}.

(** A session that goes on changes nothing else. *)
Lemma insert_cases {A} (m : gmap nat A) i j (x y : A) : <[i := x]> m !! j = Some y -> (i = j /\ x = y) \/ m !! j = Some y.
Proof. intros Hl. apply lookup_insert_Some in Hl. tauto. Qed.

Lemma ahead_grows v0 v v' ss ss' gs rs rs' : ahead_of_all v0 (mk_autoinc v ss gs rs) -> v <= v' ->
  (forall i val cur, ss' !! i = Some (Raise val cur) -> cur <= v' \/ ss !! i = Some (Raise val cur)) -> Forall (fun x => x <= v') rs' ->
  ahead_of_all v0 (mk_autoinc v' ss' gs rs').
Proof.
  intros [A1 A2 A3 A4 A5] Hle Hss Hrs. cbn in *. split; cbn.
  - lia.
  - eapply List.Forall_impl; [|exact A2]. cbn. lia.
  - done.
  - done.
  - intros i val cur Hi. destruct (Hss _ _ _ Hi) as [?|Hi']; [done|]. specialize (A5 _ _ _ Hi'). lia.
Qed.

Lemma raised_grow (rs : list Z) v v' : Forall (fun x => x <= v) rs -> v <= v' -> Forall (fun x => x <= v') rs.
Proof. intros Hr Hle. eapply List.Forall_impl; [|exact Hr]. cbn. lia. Qed.

Lemma ai_step_inv v0 s s' : ai_inv v0 s -> ai_step s s' -> ai_inv v0 s'.
Proof.
  intros [I1 I2 I3 I4] Hstep. destruct Hstep as [v ss gs rs i n Hi Hn|v ss gs rs i n Hi|v ss gs rs i n cur Hi|v ss gs rs i val Hi Hv|v ss gs rs i val cur Hi Hle|v ss gs rs i val Hi Hlt|v ss gs rs i val cur Hi Hlt];
    cbn in I1, I2, I3, I4; (split; cbn; [|intros j m c [[-> E]|Hj]%insert_cases; [try done|by eapply I2]|intros j m c [[-> E]|Hj]%insert_cases; [try done|by eapply I3]|intros Hw]); try done.
  all: try (injection E as <- <-; eauto; fail).
  - eapply ahead_grows; [by apply I4|lia|intros j val c [[-> E]|Hj]%insert_cases; [done|by right]|apply (aa_raised _ _ (I4 Hw))].
  - apply u64_fits.
  - apply List.Forall_cons_iff in Hw as [[Hw1 Hw2] Hw]. cbn in Hw1, Hw2. specialize (I2 _ _ _ Hi). specialize (I4 Hw) as [A1 A2 A3 A4 A5]. cbn in *.
    assert (E1 : u64 (v + 1) = v + 1).
    { destruct (decide (v + 1 = 2 ^ 64)) as [E|]; [rewrite E in Hw1; by vm_compute in Hw1|]. apply u64_id. unfold fits_u64 in *. lia. }
    rewrite E1 in *. assert (E2 : u64 (v + n) = v + n) by (apply u64_id; unfold fits_u64 in *; lia). rewrite E2. split; cbn.
    + lia.
    + constructor; [cbn; lia|]. eapply List.Forall_impl; [|exact A2]. cbn. lia.
    + eapply raised_grow; [exact A3|lia].
    + constructor; [done|]. eapply List.Forall_impl; [|exact A2]. cbn. lia.
    + intros j val c [[-> E]|Hj]%insert_cases; [done|]. specialize (A5 _ _ _ Hj). lia.
  - eapply ahead_grows; [by apply I4|lia|intros j val c [[-> E]|Hj]%insert_cases; [done|by right]|apply (aa_raised _ _ (I4 Hw))].
  - eapply ahead_grows; [by apply I4|lia|intros j val' c [[-> E]|Hj]%insert_cases; [injection E as _ <-; left; lia|by right]|apply (aa_raised _ _ (I4 Hw))].
  - specialize (I4 Hw) as Ha. eapply ahead_grows; [done|lia|intros j val' c [[-> E]|Hj]%insert_cases; [done|by right]|].
    constructor; [|apply (aa_raised _ _ Ha)]. pose proof (aa_read _ _ Ha _ _ _ Hi). cbn in *. lia.
  - by eapply I3.
  - specialize (I4 Hw) as Ha. eapply ahead_grows; [done|lia|intros j val' c [[-> E]|Hj]%insert_cases; [done|by right]|].
    constructor; [done|]. eapply raised_grow; [apply (aa_raised _ _ Ha)|cbn; lia].
  - eapply ahead_grows; [by apply I4|lia|intros j val' c [[-> E]|Hj]%insert_cases; [injection E as _ <-; left; lia|by right]|apply (aa_raised _ _ (I4 Hw))].
Qed.

Lemma ai_start_inv c : fits_u64 (c_auto_inc_val c) -> ai_inv (c_auto_inc_val c) (ai_start c).
Proof.
  intros Hc. split; [done| | |]; cbn; try (intros ? ? ? Hl; by rewrite lookup_empty in Hl).
  intros _. split; cbn; try constructor; try lia. intros ? ? ? Hl. by rewrite lookup_empty in Hl.
Qed.

Lemma ai_reachable c s : fits_u64 (c_auto_inc_val c) -> rtc ai_step (ai_start c) s -> ai_inv (c_auto_inc_val c) s.
Proof. intros Hc. apply rtc_invariant; [intros ? ?; by apply ai_step_inv|by apply ai_start_inv]. Qed.

(** C35: AUTO_INCREMENT ranges.  However the compare-and-swap loops of the sessions
    interleave, as long as no range passes the end of 64 bits the ranges handed out are
    disjoint, each lies after the ones before it and after the value the table was opened
    with, and the next range lies after every value of a row that the counter was raised
    over before. *)
Theorem autoinc_disjoint (c : counters) (s : autoinc) :
  fits_u64 (c_auto_inc_val c) -> rtc ai_step (ai_start c) s -> no_wrap s ->
  StronglySorted (fun later earlier => earlier.1 + earlier.2 <= later.1) (ai_given s) /\
  Forall (fun r => c_auto_inc_val c < r.1) (ai_given s) /\
  forall s' r, ai_step s s' -> ai_given s' = r :: ai_given s -> no_wrap s' -> Forall (fun v => v < r.1) (ai_raised s).
Proof.
  intros Hc Hr Hw. pose proof (ai_reachable c s Hc Hr) as Hinv. destruct (ii_ahead _ _ Hinv Hw) as [A1 A2 A3 A4 A5].
  split; [done|]. split; [eapply List.Forall_impl; [|exact A2]; cbn; lia|].
  intros s' r Hs Hg Hw'. inv Hs; cbn in *; try (by apply (f_equal length) in Hg; cbn in Hg; lia).
  injection Hg as <-. apply List.Forall_cons_iff in Hw' as [[Hf _] _]. cbn in Hf |- *. pose proof (ii_fits _ _ Hinv) as Hv. cbn in Hv.
  rewrite u64_id; [eapply List.Forall_impl; [|exact A3]; cbn; lia|].
  destruct (decide (v + 1 = 2 ^ 64)) as [E|]; [rewrite E in Hf; by vm_compute in Hf|]. unfold fits_u64 in *. lia.
Qed.

(** Two sessions that race: the first to swap wins, the other retries. *)
Definition race : autoinc :=
  mk_autoinc 105 {[0%nat := Idle; 1%nat := Idle]} [(104, 2); (101, 3)] [].

Lemma race_reachable : rtc ai_step (ai_start (mk_counters 1 100)) race.
Proof.
  eapply rtc_l; [apply (reserve_load 100 ∅ [] [] 0 3); [done|lia]|].
  eapply rtc_l; [apply (reserve_load 100 _ [] [] 1 2); [done|lia]|].
  eapply rtc_l; [apply (reserve_swap 100 _ [] [] 0 3); reflexivity|].
  eapply rtc_l; [apply (reserve_retry 103 _ [(101, 3)] [] 1 2 100); reflexivity|].
  eapply rtc_l; [apply (reserve_swap 103 _ [(101, 3)] [] 1 2); reflexivity|].
  apply rtc_refl.
Qed.

Lemma autoinc_disjoint_witness :
  StronglySorted (fun later earlier => earlier.1 + earlier.2 <= later.1) (ai_given race) /\ Forall (fun r => 100 < r.1) (ai_given race).
Proof.
  destruct (autoinc_disjoint (mk_counters 1 100) race ltac:(unfold fits_u64; cbn; lia) race_reachable) as (Hs & Hf & _).
  - repeat constructor; cbn; lia.
  - by split.
Defined.


Definition rows_iter : list_iter :=
  mk_li [(build_data_key (encode_be64 4), [1]); (build_data_key (encode_be64 9), [2])] None eq_refl.

Lemma row_key_inj a b : fits_u64 a -> fits_u64 b -> build_data_key (encode_be64 a) = build_data_key (encode_be64 b) -> a = b.
Proof.
  intros Ha Hb He. destruct (hidden_pk_order a b Ha Hb) as [_ Hc]. rewrite He, (proj2 (bytes_compare_eq _ _) eq_refl) in Hc. by apply Z.compare_eq.
Qed.

Lemma rows_family : hidden_family (it_entries rows_iter).
Proof.
  constructor; [right; exists 4; split; [unfold fits_u64; lia|done]|]. constructor; [right; exists 9; split; [unfold fits_u64; lia|done]|]. constructor.
Qed.

Lemma rows_ids id : row_id (it_entries rows_iter) id -> id < 2 ^ 64 - 1.
Proof.
  intros [Hid [v Hin]]. change (it_entries rows_iter) with [(build_data_key (encode_be64 4), [1]); (build_data_key (encode_be64 9), [2])] in Hin.
  assert (Hf : fits_u64 4 /\ fits_u64 9) by (unfold fits_u64; lia). destruct Hf as [F4 F9].
  apply elem_of_cons in Hin as [Heq|Hin]; [|apply list_elem_of_singleton in Hin as Heq]; apply (f_equal fst) in Heq; cbn [fst] in Heq;
    apply row_key_inj in Heq; try done; lia.
Qed.

Lemma rows_ascend : autoinc_ascends (default 0 ∘ head) (it_entries rows_iter).
Proof.
  intros k v k' v' [[= -> ->]|[= -> ->]%list_elem_of_singleton]%elem_of_cons [[= -> ->]|[= -> ->]%list_elem_of_singleton]%elem_of_cons Hlt _;
    (split; [done|cbn; try lia]). by vm_compute in Hlt.
Qed.


(** When the recovery cannot begin, the table opens with the first row id and an insert
    would take the id of a row that is there. *)
Lemma failed_recovery_reuses_ids {It} `{IterOps It} (it : It) :
  c_next_row_id (recover_counters (mk_recover false (TDB_SUCCESS, it) false false (fun _ => 0)) new_counters) = 1.
Proof. reflexivity. Qed.

(** ALTER TABLE ... AUTO_INCREMENT also sets the next row id, so that a table whose rows
    have row ids hands out one that is taken. *)
Lemma reset_reuses_row_ids : c_next_row_id (reset_auto_increment 5 (mk_counters 11 10)) = 5.
Proof. reflexivity. Qed.
