(* ===== verification/TableShare.v ===== *)
(** * Creating, opening and truncating tables (ha_tidesdb.cc 1946-1967, 4164-4185, 4622-5021, 7437-7541)

    [create] makes a column family for the table and one for every secondary index;
    [open] resolves them by name into the share, which all handlers of the table use, and
    derives from the table definition what the row paths need; [delete_all_rows], which
    TRUNCATE calls, drops the families and makes them again. *)

From Stdlib Require Import ZArith QArith Lia Strings.String.
From stdpp Require Import base tactics list numbers gmap sets.
From S2P Require Import Prelude Errors Scan KeyCodec Options CfNames AtomicDdl Reads ReadsProof ReadsExamples Counters.

Open Scope Z_scope.
Open Scope list_scope.

Definition TIDESDB_DEFAULT_ENCRYPTION_KEY_ID : Z := 1.

(** ** The table definition *)

Inductive field_codec := FIELD_CODEC_MEMCPY | FIELD_CODEC_GENERIC.

Definition classify_field_codec (f : field_type) : field_codec :=
  match f with
  | MYSQL_TYPE_TINY | MYSQL_TYPE_SHORT | MYSQL_TYPE_LONG | MYSQL_TYPE_LONGLONG | MYSQL_TYPE_INT24 | MYSQL_TYPE_FLOAT
  | MYSQL_TYPE_DOUBLE | MYSQL_TYPE_YEAR | MYSQL_TYPE_NEWDATE | MYSQL_TYPE_DATETIME2 | MYSQL_TYPE_TIMESTAMP2
  | MYSQL_TYPE_TIME2 => FIELD_CODEC_MEMCPY
  | _ => FIELD_CODEC_GENERIC
  end.

(** A column as [open] sees it; its options say whether it holds the lifetime. *)
Record tfield := mk_tfield { tf_field : Field; tf_offset : Z; tf_blob : bool; tf_ttl : bool }.

Inductive key_algorithm := HA_KEY_ALG_BTREE | HA_KEY_ALG_RTREE | HA_KEY_ALG_FULLTEXT.
#[export] Instance key_algorithm_eq_dec : EqDecision key_algorithm.
Proof. solve_decision. Defined.

Record tkey := mk_tkey { tk_name : bytes; tk_key : KEY; tk_algorithm : key_algorithm }.

(** [TABLE] and [TABLE_SHARE]; [primary_key] is [None] for MAX_KEY. *)
Record TABLE := mk_table {
  t_fields : list tfield;
  t_keys : list tkey;
  t_primary_key : option nat;
  t_reclength : nat;
  t_autoinc : bool                 (* found_next_number_field *)
}.

(** ** The share *)

Record codec_entry := mk_codec { fc_offset : Z; fc_pack_length : Z; fc_category : field_codec }.

(** A resolved column family is its name. *)
Record share := mk_share {
  sh_cf : option bytes;
  sh_cf_name : bytes;
  sh_has_user_pk : bool;
  sh_pk_index : option nat;
  sh_pk_key_len : Z;
  sh_isolation_level : tidesdb_isolation_level_t;
  sh_default_ttl : Z;
  sh_ttl_field_idx : option nat;
  sh_encrypted : bool;
  sh_encryption_key_id : Z;
  sh_encryption_key_version : Z;
  sh_has_blobs : bool;
  sh_blob_field_indices : list nat;
  sh_has_ttl : bool;
  sh_field_codecs : list codec_entry;
  sh_idx_comp_key_len : list Z;
  sh_idx_is_fts : list bool;
  sh_idx_is_spatial : list bool;
  sh_idx_cover : list (list bool);
  sh_idx_cfs : list (option bytes);
  sh_idx_cf_names : list bytes;
  sh_num_secondary_indexes : nat;
  sh_counters : counters;
  sh_create_time : Z;
  sh_cached_opts : option ha_table_option_struct;
  sh_locked : bool                 (* lock_shared_ha_data *)
}.

(** [TidesDB_share::TidesDB_share]. *)
Definition new_share : share :=
  mk_share None [] false (Some O) 0 TDB_ISOLATION_REPEATABLE_READ 0 None false 0 0 false [] false [] [] [] [] [] [] [] 0
    new_counters 0 None false.

Definition set_locked (b : bool) (s : share) : share :=
  mk_share (sh_cf s) (sh_cf_name s) (sh_has_user_pk s) (sh_pk_index s) (sh_pk_key_len s) (sh_isolation_level s) (sh_default_ttl s)
    (sh_ttl_field_idx s) (sh_encrypted s) (sh_encryption_key_id s) (sh_encryption_key_version s) (sh_has_blobs s) (sh_blob_field_indices s)
    (sh_has_ttl s) (sh_field_codecs s) (sh_idx_comp_key_len s) (sh_idx_is_fts s) (sh_idx_is_spatial s) (sh_idx_cover s) (sh_idx_cfs s)
    (sh_idx_cf_names s) (sh_num_secondary_indexes s) (sh_counters s) (sh_create_time s) (sh_cached_opts s) b.
Definition set_opts (o : option ha_table_option_struct) (s : share) : share :=
  mk_share (sh_cf s) (sh_cf_name s) (sh_has_user_pk s) (sh_pk_index s) (sh_pk_key_len s) (sh_isolation_level s) (sh_default_ttl s)
    (sh_ttl_field_idx s) (sh_encrypted s) (sh_encryption_key_id s) (sh_encryption_key_version s) (sh_has_blobs s) (sh_blob_field_indices s)
    (sh_has_ttl s) (sh_field_codecs s) (sh_idx_comp_key_len s) (sh_idx_is_fts s) (sh_idx_is_spatial s) (sh_idx_cover s) (sh_idx_cfs s)
    (sh_idx_cf_names s) (sh_num_secondary_indexes s) (sh_counters s) (sh_create_time s) o (sh_locked s).
(** After a truncation: the families that were made again, and the first row id. *)
Definition set_families (cf : option bytes) (idx : list (option bytes)) (c : counters) (s : share) : share :=
  mk_share cf (sh_cf_name s) (sh_has_user_pk s) (sh_pk_index s) (sh_pk_key_len s) (sh_isolation_level s) (sh_default_ttl s)
    (sh_ttl_field_idx s) (sh_encrypted s) (sh_encryption_key_id s) (sh_encryption_key_version s) (sh_has_blobs s) (sh_blob_field_indices s)
    (sh_has_ttl s) (sh_field_codecs s) (sh_idx_comp_key_len s) (sh_idx_is_fts s) (sh_idx_is_spatial s) (sh_idx_cover s) idx
    (sh_idx_cf_names s) (sh_num_secondary_indexes s) c (sh_create_time s) (sh_cached_opts s) (sh_locked s).

(** ** What [open] derives from the definition *)

Fixpoint first_ttl (i : nat) (fs : list tfield) : option nat :=
  match fs with [] => None | f :: fs => if tf_ttl f then Some i else first_ttl (S i) fs end.

Fixpoint blob_indices (i : nat) (fs : list tfield) : list nat :=
  match fs with [] => [] | f :: fs => (if tf_blob f then [i] else []) ++ blob_indices (S i) fs end.

Definition codec_of (f : tfield) : codec_entry :=
  mk_codec (u32 (tf_offset f)) (u16 (Z.of_nat (pack_length (tf_field f)))) (classify_field_codec (real_type (tf_field f))).

Definition in_key (k : tkey) (c : nat) : bool := existsb (fun kp => Nat.eqb (fieldnr kp) c) (key_part (tk_key k)).

(** The columns an index can be read from: its own, and those of the primary key that is
    appended to the entries of a secondary one.  ([fieldnr] counts from zero here.) *)
Definition cover_of (t : TABLE) (i : nat) (k : tkey) : list bool :=
  (fun c => in_key k c ||
     match t_primary_key t with
     | Some p => negb (Nat.eqb i p) && match t_keys t !! p with Some pk => in_key pk c | None => false end
     | None => false
     end) <$> seq 0 (length (t_fields t)).

Definition is_pk (t : TABLE) (i : nat) : bool := match t_primary_key t with Some p => Nat.eqb i p | None => false end.
Definition numbered_keys (t : TABLE) : list (nat * tkey) := zip (seq 0 (length (t_keys t))) (t_keys t).

(** ** The engine *)

(** [tidesdb_create_column_family], and what a new family holds. *)
Class CfCreate (E D : Type) `{CfEngine E D} := {
  create_column_family : cf_config -> bytes -> E -> tdb_rc * E;
  cf_empty : D
}.

(** A family that is made is empty, one that is there is not made again, and neither
    making nor dropping a family touches another. *)
Class CfCreateLaws (E D : Type) `{CfCreate E D} : Prop := {
  create_done cfg n e : (create_column_family cfg n e).1 = TDB_SUCCESS ->
    cf_map e !! n = None /\ cf_map (create_column_family cfg n e).2 !! n = Some cf_empty;
  create_frame cfg n e m : m <> n -> cf_map (create_column_family cfg n e).2 !! m = cf_map e !! m;
  drop_frame n e m : m <> n -> cf_map (drop_column_family n e).2 !! m = cf_map e !! m
}.

Section Open.
Context {E D It : Type} `{CfCreate E D, IterOps It}.

Definition get_column_family (e : E) (n : bytes) : option bytes := if decide (is_Some (cf_map e !! n)) then Some n else None.

(** [encryption_key_get_latest_version] ([None] is ENCRYPTION_KEY_VERSION_INVALID), the
    transaction and iterator of the recovery, the time of the .frm file, and the checks
    of the data dictionary. *)
Record open_env := mk_open {
  oe_opts : ha_table_option_struct;           (* tidesdb_compute_opts_for_table *)
  oe_key_version : Z -> option Z;
  oe_begin : bool;
  oe_iter : bytes -> tdb_rc * It;
  oe_autoinc_of_row : bytes -> Z;
  oe_frm_mtime : option Z;
  oe_strict : bool;
  oe_table_def : option dd_table
}.

(** The families of the indexes (lines 4807-4822): none for the primary key. *)
Definition resolve_indexes (e : E) (cf_name : bytes) (t : TABLE) : list (option bytes * bytes) :=
  (fun ik => if is_pk t ik.1 then (None, [])
             else let n := idx_cf_name cf_name (tk_name ik.2) in (get_column_family e n, n)) <$> numbered_keys t.

(** The share of a table whose family is found and whose key has version [ver]. *)
Definition derived_share (en : open_env) (e : E) (t : TABLE) (cf_name : bytes) (s : share) (ver : Z) : share :=
  let opts := default (oe_opts en) (sh_cached_opts s) in
  let iso := match tdb_isolation_map !! Z.to_nat (isolation_level opts) with Some i => i | None => sh_isolation_level s end in
  let key_id := if encrypted opts then u32 (encryption_key_id opts) else TIDESDB_DEFAULT_ENCRYPTION_KEY_ID in
  let idx := resolve_indexes e cf_name t in
  let has_pk := match t_primary_key t with Some _ => true | None => false end in
  let pk_len := match t_primary_key t ≫= (t_keys t !!.) with Some k => comparable_key_length (tk_key k) | None => Z.of_nat HIDDEN_PK_SIZE end in
  let ttl_idx := first_ttl 0 (t_fields t) in
  let rv := mk_recover (oe_begin en) (oe_iter en cf_name) has_pk (t_autoinc t) (oe_autoinc_of_row en) in
  mk_share (Some cf_name) cf_name has_pk (t_primary_key t) pk_len iso (ttl opts) ttl_idx (encrypted opts) key_id ver
    (existsb tf_blob (t_fields t)) (blob_indices 0 (t_fields t)) ((0 <? ttl opts) || bool_decide (is_Some ttl_idx))
    (codec_of <$> t_fields t) ((fun k => comparable_key_length (tk_key k)) <$> t_keys t)
    ((fun k => bool_decide (tk_algorithm k = HA_KEY_ALG_FULLTEXT)) <$> t_keys t)
    ((fun k => bool_decide (tk_algorithm k = HA_KEY_ALG_RTREE)) <$> t_keys t)
    ((fun ik => cover_of t ik.1 ik.2) <$> numbered_keys t) (sh_idx_cfs s ++ idx.*1) (sh_idx_cf_names s ++ idx.*2)
    (length (List.filter (fun c => bool_decide (is_Some c)) (sh_idx_cfs s ++ idx.*1)))
    (recover_counters rv (sh_counters s)) (default (sh_create_time s) (oe_frm_mtime en)) (sh_cached_opts s) (sh_locked s).

(** Lines 4680-4840, for a family that is found; [inl] is an error return, with the lock
    still held. *)
Definition init_share (en : open_env) (e : E) (t : TABLE) (cf_name : bytes) (s : share) : share + share :=
  let opts := default (oe_opts en) (sh_cached_opts s) in
  let d := derived_share en e t cf_name s in
  if encrypted opts
  then match oe_key_version en (u32 (encryption_key_id opts)) with
       | None => inl (mk_share (Some cf_name) cf_name (sh_has_user_pk (d 0)) (sh_pk_index (d 0))
                        (sh_pk_key_len (d 0)) (sh_isolation_level (d 0)) (sh_default_ttl (d 0)) (sh_ttl_field_idx s) true
                        (sh_encryption_key_id (d 0)) 0 (sh_has_blobs s)
                        (sh_blob_field_indices s) (sh_has_ttl s) (sh_field_codecs s) (sh_idx_comp_key_len s) (sh_idx_is_fts s)
                        (sh_idx_is_spatial s) (sh_idx_cover s) (sh_idx_cfs s) (sh_idx_cf_names s) (sh_num_secondary_indexes s)
                        (sh_counters s) (sh_create_time s) (sh_cached_opts s) (sh_locked s))
       | Some ver => inr (d ver)
       end
  else inr (d 0).

(** The result and the share; a call waits while the lock is held. *)
Definition open (en : open_env) (e : E) (t : TABLE) (name : bytes) (s : share) : ha_rc * share :=
  let s := set_opts (Some (default (oe_opts en) (sh_cached_opts s))) s in
  let s := set_locked true s in
  let opened := match sh_cf s with
                | Some _ => inr s
                | None =>
                  let cf_name := path_to_cf_name name in
                  match get_column_family e cf_name with
                  | None => inl (HA_ERR_NO_SUCH_TABLE, set_locked false
                      (mk_share None cf_name (sh_has_user_pk s) (sh_pk_index s) (sh_pk_key_len s) (sh_isolation_level s) (sh_default_ttl s)
                        (sh_ttl_field_idx s) (sh_encrypted s) (sh_encryption_key_id s) (sh_encryption_key_version s) (sh_has_blobs s)
                        (sh_blob_field_indices s) (sh_has_ttl s) (sh_field_codecs s) (sh_idx_comp_key_len s) (sh_idx_is_fts s)
                        (sh_idx_is_spatial s) (sh_idx_cover s) (sh_idx_cfs s) (sh_idx_cf_names s) (sh_num_secondary_indexes s)
                        (sh_counters s) (sh_create_time s) (sh_cached_opts s) (sh_locked s)))
                  | Some _ =>
                    match init_share en e t cf_name s with
                    | inl s => inl (HA_ERR_NO_SUCH_TABLE, s)
                    | inr s => inr s
                    end
                  end
                end in
  match opened with
  | inl r => r
  | inr s =>
    let s := set_locked false s in
    if validate_open (oe_strict en) (oe_table_def en) (Some (sh_cf_name s)) then (HA_OK, s) else (HA_ERR_TABLE_DEF_CHANGED, s)
  end.

(** ** CREATE TABLE *)

(** Lines 4962-4983: the families of the secondary indexes that are not there yet. *)
Fixpoint create_indexes (cfg : cf_config) (cf_name : bytes) (t : TABLE) (keys : list (nat * tkey)) (e : E) : ha_rc * E :=
  match keys with
  | [] => (HA_OK, e)
  | (i, k) :: keys =>
    if is_pk t i then create_indexes cfg cf_name t keys e
    else
      let n := idx_cf_name cf_name (tk_name k) in
      match get_column_family e n with
      | Some _ => create_indexes cfg cf_name t keys e
      | None =>
        let '(rc, e) := create_column_family cfg n e in
        match rc with TDB_SUCCESS => create_indexes cfg cf_name t keys e | _ => (ha_of_rc rc, e) end
      end
  end.

(** The options of the statement: [None] is a rejected attribute. *)
Definition create_options (parse : bytes -> option json_object) (compat : Z) (session : session_vars) (attr : bytes)
    : option ha_table_option_struct :=
  let seed := tidesdb_seed_opts_from_session session in
  match attr with
  | [] => Some seed
  | _ => if (tidesdb_check_legacy_engine_attribute parse compat attr).1
         then match tidesdb_engine_attribute_to_options parse attr seed with (true, o) => Some o | _ => None end
         else None
  end.

(** [prep] is [prepare_create] on the dictionary's table, true when there is none; the
    result of recording the table in the schema family is not looked at. *)
Definition create (opts : option ha_table_option_struct) (default_cfg : cf_config) (tx : txn_env) (frm : option bytes) (prep : bytes -> bool)
    (t : TABLE) (name : bytes) (e : E) (schema : option (list (bytes * bytes))) : ha_rc * E * option (list (bytes * bytes)) :=
  match opts with
  | None => (HA_WRONG_CREATE_OPTION, e, schema)
  | Some o =>
    match build_cf_config default_cfg (Some o) with
    | None => (HA_ERR_INTERNAL_ERROR, e, schema)       (* a read outside the maps, which the ranges of the variables exclude *)
    | Some cfg =>
      let cf_name := path_to_cf_name name in
      let '(rc, e) := match get_column_family e cf_name with
                      | Some _ => (TDB_SUCCESS, e)
                      | None => create_column_family cfg cf_name e
                      end in
      match rc with
      | TDB_SUCCESS =>
        match create_indexes cfg cf_name t (numbered_keys t) e with
        | (HA_OK, e) =>
          let schema := (schema_cf_store_frm tx name frm schema).2 in
          if prep cf_name then (HA_OK, e, schema) else (HA_ERR_GENERIC, e, schema)
        | (rc, e) => (rc, e, schema)
        end
      | _ => (ha_of_rc rc, e, schema)
      end
    end
  end.

(** ** TRUNCATE TABLE *)

(** Lines 7494-7519: a family that cannot be made again is given up. *)
Fixpoint recreate_indexes (cfg : cf_config) (idx : list (option bytes * bytes)) (e : E) : list (option bytes) * E :=
  match idx with
  | [] => ([], e)
  | (None, _) :: idx => let '(cs, e) := recreate_indexes cfg idx e in (None :: cs, e)
  | (Some _, n) :: idx =>
    let e := (drop_column_family n e).2 in
    let '(rc, e) := create_column_family cfg n e in
    let c := match rc with TDB_SUCCESS => get_column_family e n | _ => None end in
    let '(cs, e) := recreate_indexes cfg idx e in (c :: cs, e)
  end.

(** What a handler holds of its connection: the iterators it keeps, the transaction it
    borrows, and the transaction of the connection with its dirty flag. *)
Record conn {T : Type} := mk_conn {
  cn_scan : option It;
  cn_dup_iters : list (option It);
  cn_stmt_txn : option T;
  cn_stmt_dirty : bool;
  cn_trx : option (option T * bool)
}.
Arguments conn : clear implicits.

(** [close] frees the iterators and lets go of the transaction, which stays the connection's. *)
Definition close {T} (c : conn T) : conn T := mk_conn T None ((fun _ => None) <$> cn_dup_iters c) None false (cn_trx c).

(** Lines 7443-7468: buffered changes must not reach the new families. *)
Definition discard_txn {T} (c : conn T) : conn T :=
  mk_conn T None ((fun _ => None) <$> cn_dup_iters c) None false
    (match cn_trx c with Some (Some _, _) => Some (None, false) | x => x end).

Definition delete_all_rows {T} (cfg : cf_config) (c : conn T) (s : share) (e : E) : ha_rc * conn T * share * E :=
  let c := discard_txn c in
  let cf_name := sh_cf_name s in
  let '(rc, e) := drop_column_family cf_name e in
  if negb (done_rc rc) then (ha_of_rc rc, c, s, e)
  else
    let '(rc, e) := create_column_family cfg cf_name e in
    match rc with
    | TDB_SUCCESS =>
      match get_column_family e cf_name with
      | None => (HA_ERR_GENERIC, c, set_families None (sh_idx_cfs s) (sh_counters s) s, e)
      | Some cf =>
        let '(cs, e) := recreate_indexes cfg (zip (sh_idx_cfs s) (sh_idx_cf_names s)) e in
        (HA_OK, c, set_families (Some cf) cs (mk_counters HIDDEN_PK_FIRST_ROW_ID (c_auto_inc_val (sh_counters s))) s, e)
      end
    | _ => (ha_of_rc rc, c, s, e)
    end.

Definition truncate {T} := delete_all_rows (T := T).

End Open.
Arguments conn : clear implicits.
Arguments mk_conn {It T}.


(** ** Lemmas *)

Section OpenProofs.
Context {E D It : Type} `{CfCreateLaws E D, IterOps It}.

Lemma get_column_family_Some (e : E) n m : get_column_family e n = Some m <-> n = m /\ is_Some (cf_map e !! n).
Proof. unfold get_column_family. case_decide; naive_solver. Qed.

Lemma get_column_family_None (e : E) n : get_column_family e n = None <-> cf_map e !! n = None.
Proof. unfold get_column_family. case_decide as Hd; [destruct Hd as [? ->]|apply eq_None_not_Some in Hd]; naive_solver. Qed.

(** Families are kept, and those that are new are empty. *)
Definition only_adds (e e' : E) : Prop :=
  (forall n d, cf_map e !! n = Some d -> cf_map e' !! n = Some d) /\
  (forall n d, cf_map e' !! n = Some d -> cf_map e !! n = Some d \/ d = cf_empty).

#[export] Instance only_adds_preorder : PreOrder only_adds.
Proof.
  split; [by split; auto|]. intros e1 e2 e3 [A1 A2] [B1 B2]. split; [auto|]. intros n d Hn. destruct (B2 n d Hn); auto.
Qed.

Lemma create_only_adds cfg n (e : E) : (create_column_family cfg n e).1 = TDB_SUCCESS ->
  only_adds e (create_column_family cfg n e).2 /\ is_Some (cf_map (create_column_family cfg n e).2 !! n).
Proof.
  intros Hc. apply create_done in Hc as [Hno Hyes]. rewrite Hyes. split; [split|done].
  - intros m d Hm. rewrite create_frame; [done|]. intros ->. congruence.
  - intros m d Hm. destruct (decide (m = n)) as [->|]; [right; congruence|]. left. by rewrite create_frame in Hm.
Qed.

Lemma create_if_missing cfg n (e e' : E) : (match get_column_family e n with Some _ => (TDB_SUCCESS, e) | None => create_column_family cfg n e end) = (TDB_SUCCESS, e') ->
  only_adds e e' /\ is_Some (cf_map e' !! n).
Proof.
  destruct (get_column_family e n) as [m|] eqn:Hg.
  - intros [= <-]. apply get_column_family_Some in Hg as [_ Hs]. by split.
  - intros Hc. pose proof (create_only_adds cfg n e) as Ha. rewrite Hc in Ha. by apply Ha.
Qed.

Lemma create_indexes_ok cfg cn t keys (e e' : E) : create_indexes cfg cn t keys e = (HA_OK, e') ->
  only_adds e e' /\ forall i k, (i, k) ∈ keys -> is_pk t i = false -> is_Some (cf_map e' !! idx_cf_name cn (tk_name k)).
Proof.
  revert e. induction keys as [|[i k] keys IH]; intros e; cbn [create_indexes].
  { intros [= <-]. split; [done|]. intros ? ? Hin. by apply elem_of_nil in Hin. }
  destruct (is_pk t i) eqn:Hp.
  { intros [Ha Hk]%IH. split; [done|]. intros i' k' [[= -> ->]|Hin]%elem_of_cons Hn; [congruence|eauto]. }
  assert (Hstep : forall e1, only_adds e e1 -> is_Some (cf_map e1 !! idx_cf_name cn (tk_name k)) -> create_indexes cfg cn t keys e1 = (HA_OK, e') ->
    only_adds e e' /\ forall i' k', (i', k') ∈ (i, k) :: keys -> is_pk t i' = false -> is_Some (cf_map e' !! idx_cf_name cn (tk_name k'))).
  { intros e1 Hx1 [d Hd] [Ha Hk]%IH. split; [by etrans|]. intros i' k' [[= -> ->]|Hin]%elem_of_cons Hn; [|eauto]. exists d. by apply Ha. }
  destruct (get_column_family e _) as [m|] eqn:Hg.
  - apply Hstep; [done|]. by apply get_column_family_Some in Hg as [_ ?].
  - pose proof (create_only_adds cfg (idx_cf_name cn (tk_name k)) e) as Ha. destruct (create_column_family _ _ e) as [rc e1] eqn:Hc.
    cbn [fst snd] in Ha. destruct rc; try (intros He; apply (f_equal fst) in He; cbn in He; done).
    destruct (Ha eq_refl). by apply Hstep.
Qed.

Lemma create_ok o default_cfg tx frm prep t name (e e' : E) schema schema' :
  create (Some o) default_cfg tx frm prep t name e schema = (HA_OK, e', schema') ->
  only_adds e e' /\ is_Some (cf_map e' !! path_to_cf_name name) /\
  (forall i k, t_keys t !! i = Some k -> is_pk t i = false -> is_Some (cf_map e' !! idx_cf_name (path_to_cf_name name) (tk_name k))) /\
  schema' = (schema_cf_store_frm tx name frm schema).2.
Proof.
  unfold create. destruct (build_cf_config default_cfg (Some o)) as [cfg|]; [|done].
  destruct (match get_column_family e _ with Some _ => _ | None => _ end) as [rc e1] eqn:Hc.
  destruct rc; try (intros He; apply (f_equal (fst ∘ fst)) in He; cbn in He; done).
  apply create_if_missing in Hc as [Ha1 [d Hd]]. destruct (create_indexes cfg _ t _ e1) as [rc e2] eqn:Hi.
  destruct rc; try done. apply create_indexes_ok in Hi as [Ha2 Hk]. destruct (prep _); intros [= <- <-].
  split; [by etrans|]. split; [exists d; by apply Ha2|]. split; [|done]. intros i k Hl Hp. apply (Hk i k); [|done].
  unfold numbered_keys. apply list_elem_of_lookup. exists i. apply lookup_zip_Some. split; [|done]. apply lookup_seq. split; [done|].
  by apply lookup_lt_Some in Hl.
Qed.

(** ** What a share holds after [open] *)

Definition idx_names (cf_name : bytes) (t : TABLE) : list bytes :=
  (fun ik => if is_pk t ik.1 then [] else idx_cf_name cf_name (tk_name ik.2)) <$> numbered_keys t.

(** The families of the indexes are resolved under their own names, never for the primary key. *)
Record share_ok (t : TABLE) (s : share) : Prop := {
  so_names : sh_idx_cf_names s = idx_names (sh_cf_name s) t;
  so_length : length (sh_idx_cfs s) = length (t_keys t);
  so_cfs i n : sh_idx_cfs s !! i = Some (Some n) -> is_pk t i = false /\ sh_idx_cf_names s !! i = Some n
}.

Lemma numbered_lookup t i ik : numbered_keys t !! i = Some ik <-> ik.1 = i /\ t_keys t !! i = Some ik.2.
Proof.
  destruct ik as [j k]. unfold numbered_keys. rewrite lookup_zip_Some, lookup_seq. cbn. split; [naive_solver|].
  intros [-> Hk]. pose proof (lookup_lt_Some _ _ _ Hk). naive_solver.
Qed.

Lemma idx_names_lookup cn t i k : t_keys t !! i = Some k -> is_pk t i = false -> idx_names cn t !! i = Some (idx_cf_name cn (tk_name k)).
Proof.
  intros Hk Hp. unfold idx_names. rewrite list_lookup_fmap, (proj2 (numbered_lookup t i (i, k))) by done. cbn. by rewrite Hp.
Qed.

Lemma resolve_names (e : E) cn t : (resolve_indexes e cn t).*2 = idx_names cn t.
Proof.
  unfold resolve_indexes, idx_names. rewrite <- list_fmap_compose. apply list_fmap_ext. intros i ik _. cbn. by destruct (is_pk t ik.1).
Qed.

Lemma resolve_length (e : E) cn t : length (resolve_indexes e cn t).*1 = length (t_keys t).
Proof. rewrite length_fmap. unfold resolve_indexes, numbered_keys. rewrite length_fmap, length_zip, length_seq. lia. Qed.

Lemma resolve_lookup (e : E) cn t i k : t_keys t !! i = Some k ->
  (resolve_indexes e cn t).*1 !! i = Some (if is_pk t i then None else get_column_family e (idx_cf_name cn (tk_name k))).
Proof.
  intros Hk. unfold resolve_indexes. rewrite !list_lookup_fmap, (proj2 (numbered_lookup t i (i, k))) by done. cbn. by destruct (is_pk t i).
Qed.

(** What a successful first open leaves. *)
Lemma open_inv (en : open_env (It := It)) (e : E) t name s : open en e t name new_share = (HA_OK, s) ->
  exists ver, s = set_locked false (derived_share en e t (path_to_cf_name name) (set_opts (Some (oe_opts en)) new_share) ver).
Proof.
  unfold open. cbn [new_share set_opts set_locked sh_cf]. destruct (get_column_family e _); [|done].
  unfold init_share. cbn [set_locked set_opts new_share sh_cached_opts from_option id].
  destruct (encrypted (oe_opts en)); [destruct (oe_key_version en _) as [v|]; [|done]|];
    (destruct (validate_open _ _ _); [|done]); intros [= <-]; by eexists.
Qed.

Lemma open_total (en : open_env (It := It)) (e : E) t name :
  is_Some (cf_map e !! path_to_cf_name name) ->
  (encrypted (oe_opts en) = true -> is_Some (oe_key_version en (u32 (encryption_key_id (oe_opts en))))) ->
  validate_open (oe_strict en) (oe_table_def en) (Some (path_to_cf_name name)) = true ->
  exists s, open en e t name new_share = (HA_OK, s).
Proof.
  intros Hcf Hkey Hval. unfold open. cbn [new_share set_opts set_locked sh_cf].
  rewrite (proj2 (get_column_family_Some e _ (path_to_cf_name name))) by done.
  unfold init_share. cbn [set_locked set_opts new_share sh_cached_opts from_option id].
  destruct (encrypted (oe_opts en)) eqn:He; cbn iota; [destruct (Hkey eq_refl) as [v ->]|];
    cbn [derived_share set_locked sh_cf_name]; rewrite Hval; by eexists.
Qed.

Lemma resolve_ok (e : E) cn t i n : (resolve_indexes e cn t).*1 !! i = Some (Some n) ->
  is_pk t i = false /\ idx_names cn t !! i = Some n.
Proof.
  intros Hi. destruct (t_keys t !! i) as [k|] eqn:Hk.
  - rewrite (resolve_lookup e _ t i k Hk) in Hi. destruct (is_pk t i) eqn:Hp; [done|]. injection Hi as [<- _]%get_column_family_Some.
    split; [done|]. by apply idx_names_lookup.
  - apply lookup_lt_Some in Hi. rewrite resolve_length in Hi. apply lookup_ge_None in Hk. lia.
Qed.

(** The first open of a table whose family is there. *)
Lemma open_ok (en : open_env (It := It)) (e : E) t name :
  is_Some (cf_map e !! path_to_cf_name name) ->
  (encrypted (oe_opts en) = true -> is_Some (oe_key_version en (u32 (encryption_key_id (oe_opts en))))) ->
  validate_open (oe_strict en) (oe_table_def en) (Some (path_to_cf_name name)) = true ->
  exists s, open en e t name new_share = (HA_OK, s) /\ sh_cf s = Some (path_to_cf_name name) /\ sh_cf_name s = path_to_cf_name name /\
    sh_locked s = false /\ sh_idx_cfs s = (resolve_indexes e (path_to_cf_name name) t).*1 /\ share_ok t s.
Proof.
  intros Hcf Hkey Hval. destruct (open_total en e t name Hcf Hkey Hval) as [s Hs]. exists s. split; [done|].
  apply open_inv in Hs as [ver ->]. do 4 (split; [done|]). split; cbn.
  - apply resolve_names.
  - apply resolve_length.
  - rewrite resolve_names. apply resolve_ok.
Qed.

(** ** Truncation *)

Definition resolved (idx : list (option bytes * bytes)) : list bytes := omap (fun p => match p.1 with Some _ => Some p.2 | None => None end) idx.

Lemma recreate_one cfg n (e : E) : 
  let e1 := (drop_column_family n e).2 in
  (forall m, m <> n -> cf_map (create_column_family cfg n e1).2 !! m = cf_map e !! m) /\
  ((create_column_family cfg n e1).1 = TDB_SUCCESS -> cf_map (create_column_family cfg n e1).2 !! n = Some cf_empty).
Proof. cbn. split; [intros m Hm; by rewrite create_frame, drop_frame|by intros [_ ?]%create_done]. Qed.

Lemma recreate_spec cfg idx (e e' : E) cs : NoDup (resolved idx) -> recreate_indexes cfg idx e = (cs, e') ->
  length cs = length idx /\
  (forall i n, cs !! i = Some (Some n) -> (exists c, idx !! i = Some (Some c, n)) /\ cf_map e' !! n = Some cf_empty) /\
  (forall n, n ∉ resolved idx -> cf_map e' !! n = cf_map e !! n).
Proof.
  revert e cs. induction idx as [|[[c|] n] idx IH]; intros e cs Hnd; cbn [recreate_indexes].
  - intros [= <- <-]. done.
  - cbn in Hnd. apply NoDup_cons in Hnd as [Hn Hnd]. pose proof (recreate_one cfg n e) as [Hf Hd]. cbn zeta in Hf, Hd.
    destruct (create_column_family cfg n _) as [rc e2] eqn:Hc. cbn [fst snd] in Hf, Hd.
    destruct (recreate_indexes cfg idx e2) as [cs' e3] eqn:Hr. intros [= <- <-]. destruct (IH e2 cs' Hnd Hr) as (I1 & I2 & I3).
    split; [cbn; by rewrite I1|]. split.
    + intros [|i] m Hi; cbn in Hi; [|by apply I2]. destruct rc; try done. injection Hi as [-> _]%get_column_family_Some.
      split; [by exists c|]. rewrite I3 by done. by apply Hd.
    + intros m Hm. cbn in Hm. apply not_elem_of_cons in Hm as [Hmn Hm]. rewrite I3 by done. by apply Hf.
  - destruct (recreate_indexes cfg idx e) as [cs' e3] eqn:Hr. intros [= <- <-]. destruct (IH e cs' Hnd Hr) as (I1 & I2 & I3).
    split; [cbn; by rewrite I1|]. split; [|done]. intros [|i] m Hi; [done|]. by apply I2.
Qed.

Lemma idx_cf_name_inj cn a b : idx_cf_name cn a = idx_cf_name cn b -> a = b.
Proof. unfold idx_cf_name. intros Hx. by apply app_inv_head, app_inv_head in Hx. Qed.

Lemma idx_cf_name_ne cn a : idx_cf_name cn a <> cn.
Proof. unfold idx_cf_name. intros Hx%(f_equal length). rewrite !length_app in Hx. change (length CF_INDEX_INFIX) with 6%nat in Hx. lia. Qed.

Lemma resolved_elem idx n : n ∈ resolved idx <-> exists i c, idx !! i = Some (Some c, n).
Proof.
  unfold resolved. rewrite list_elem_of_omap. split.
  - intros ([[c|] m] & Hin & Hx); [|done]. cbn in Hx. injection Hx as ->. apply list_elem_of_lookup in Hin as [i Hi]. eauto.
  - intros (i & c & Hi). exists (Some c, n). split; [by apply list_elem_of_lookup_2 in Hi|done].
Qed.

Lemma resolved_nodup idx : (forall i j c c' n, idx !! i = Some (Some c, n) -> idx !! j = Some (Some c', n) -> i = j) -> NoDup (resolved idx).
Proof.
  induction idx as [|[[c|] n] idx IH]; intros Hi; [constructor| |].
  - cbn. constructor; [|apply IH; intros i j a b m Ha Hb; specialize (Hi (S i) (S j) a b m Ha Hb); lia].
    intros (j & c' & Hj)%resolved_elem. specialize (Hi O (S j) c c' n eq_refl Hj). lia.
  - apply IH. intros i j a b m Ha Hb. specialize (Hi (S i) (S j) a b m Ha Hb). lia.
Qed.

(** The families of the indexes of a share are different, and none is the table's. *)
Lemma share_entry t s i c n : share_ok t s -> zip (sh_idx_cfs s) (sh_idx_cf_names s) !! i = Some (Some c, n) ->
  exists k, t_keys t !! i = Some k /\ n = idx_cf_name (sh_cf_name s) (tk_name k) /\ is_pk t i = false.
Proof.
  intros [S1 S2 S3] [Hc Hn]%lookup_zip_Some. destruct (S3 i c Hc) as [Hp _]. rewrite S1 in Hn.
  pose proof (lookup_lt_Some _ _ _ Hc) as Hlt. rewrite S2 in Hlt. apply lookup_lt_is_Some in Hlt as [k Hk].
  exists k. rewrite (idx_names_lookup _ _ _ _ Hk Hp) in Hn. injection Hn as <-. done.
Qed.

Lemma share_resolved t s : share_ok t s -> NoDup (tk_name <$> t_keys t) ->
  NoDup (resolved (zip (sh_idx_cfs s) (sh_idx_cf_names s))) /\ sh_cf_name s ∉ resolved (zip (sh_idx_cfs s) (sh_idx_cf_names s)).
Proof.
  intros Hs Hnd. split.
  - apply resolved_nodup. intros i j c c' n Hi Hj. destruct (share_entry t s i c n Hs Hi) as (k & Hk & -> & _).
    destruct (share_entry t s j c' _ Hs Hj) as (k' & Hk' & He%idx_cf_name_inj & _).
    apply (proj1 (NoDup_alt _) Hnd i j (tk_name k)); rewrite list_lookup_fmap; [by rewrite Hk|by rewrite Hk', He].
  - intros (i & c & Hi)%resolved_elem. destruct (share_entry t s i c _ Hs Hi) as (k & _ & He & _). by destruct (idx_cf_name_ne (sh_cf_name s) (tk_name k)).
Qed.

Lemma share_recreated t s cs : share_ok t s -> length cs = length (zip (sh_idx_cfs s) (sh_idx_cf_names s)) ->
  (forall i n, cs !! i = Some (Some n) -> exists c, zip (sh_idx_cfs s) (sh_idx_cf_names s) !! i = Some (Some c, n)) ->
  forall cf c, share_ok t (set_families cf cs c s).
Proof.
  intros Hs Hl Hcs cf c. pose proof Hs as [S1 S2 S3]. split; cbn; [done| |].
  - rewrite Hl, length_zip, S1, S2. unfold idx_names, numbered_keys. rewrite length_fmap, length_zip, length_seq. lia.
  - intros i n Hi. destruct (Hcs i n Hi) as [c' Hz]. split; [by destruct (share_entry t s i c' n Hs Hz) as (? & ? & ? & ?)|].
    by apply lookup_zip_Some in Hz as [_ ?].
Qed.

(** CREATE TABLE, then the first open.  A table that was created without an error can
    be opened, once its encryption key is there and the dictionary agrees: the share holds
    the table's family and one for every secondary index, the lock is free again, no
    family that was there before has changed, those that are new are empty, and the table
    is recorded in the schema family. *)
Theorem created_table_opens (o : ha_table_option_struct) default_cfg tx frm prep (t : TABLE) name (e e' : E) schema schema'
    (en : open_env (It := It)) :
  create (Some o) default_cfg tx frm prep t name e schema = (HA_OK, e', schema') ->
  (encrypted (oe_opts en) = true -> is_Some (oe_key_version en (u32 (encryption_key_id (oe_opts en))))) ->
  validate_open (oe_strict en) (oe_table_def en) (Some (path_to_cf_name name)) = true ->
  only_adds e e' /\ schema' = (schema_cf_store_frm tx name frm schema).2 /\
  exists s, open en e' t name new_share = (HA_OK, s) /\ sh_cf s = Some (path_to_cf_name name) /\ sh_locked s = false /\ share_ok t s /\
    forall i k, t_keys t !! i = Some k -> is_pk t i = false ->
      sh_idx_cfs s !! i = Some (Some (idx_cf_name (path_to_cf_name name) (tk_name k))).
Proof.
  intros (Ha & Hcf & Hk & Hs)%create_ok Hkey Hval. split; [done|]. split; [done|].
  destruct (open_ok en e' t name Hcf Hkey Hval) as (s & Ho & Hc & _ & Hl & Hi & Hok).
  exists s. do 4 (split; [done|]). intros i k Hik Hp. rewrite Hi, (resolve_lookup e' _ t i k Hik), Hp.
  f_equal. apply get_column_family_Some. eauto.
Qed.

(** C27: TRUNCATE.  When it succeeds, the table's family and every index family the share
    still uses are there and empty, the share's names are in order, no other family is
    touched, the connection holds no transaction that could write old rows, and row ids
    start again at one. *)
Theorem truncate_empties {T} cfg (t : TABLE) (c c' : conn It T) (s s' : share) (e e' : E) :
  share_ok t s -> NoDup (tk_name <$> t_keys t) ->
  delete_all_rows cfg c s e = (HA_OK, c', s', e') ->
  cf_map e' !! sh_cf_name s = Some cf_empty /\ sh_cf s' = Some (sh_cf_name s) /\ share_ok t s' /\
  (forall i n, sh_idx_cfs s' !! i = Some (Some n) -> cf_map e' !! n = Some cf_empty) /\
  (forall n, n <> sh_cf_name s -> n ∉ resolved (zip (sh_idx_cfs s) (sh_idx_cf_names s)) -> cf_map e' !! n = cf_map e !! n) /\
  cn_scan c' = None /\ cn_stmt_txn c' = None /\ (forall x d, cn_trx c' = Some (x, d) -> x = None) /\
  c_next_row_id (sh_counters s') = 1.
Proof.
  intros Hs Hnd. destruct (share_resolved t s Hs Hnd) as [Hnd' Hnot]. unfold delete_all_rows.
  pose proof (recreate_one cfg (sh_cf_name s) e) as [Hf Hd]. cbn zeta in Hf, Hd.
  destruct (drop_column_family (sh_cf_name s) e) as [rc e1] eqn:He1. cbn [fst snd] in Hf, Hd.
  destruct (negb (done_rc rc)) eqn:Hdone; [destruct rc; done|].
  destruct (create_column_family cfg _ e1) as [rc2 e2] eqn:He2. cbn [fst snd] in Hf, Hd.
  destruct rc2; try done. specialize (Hd eq_refl). rewrite (proj2 (get_column_family_Some e2 _ (sh_cf_name s))) by (split; [done|by rewrite Hd]).
  destruct (recreate_indexes cfg _ e2) as [cs e3] eqn:Hr. intros [= <- <- <-]. destruct (recreate_spec cfg _ e2 e3 cs Hnd' Hr) as (R1 & R2 & R3).
  split; [by rewrite R3|]. split; [done|]. split; [apply share_recreated; [done|done|]; intros i n Hi; by apply R2|].
  split; [intros i n Hi; by apply (R2 i n)|]. split; [intros n Hn Hni; by rewrite R3, Hf|]. do 2 (split; [done|]). split; [|done].
  intros x d. cbn. by destruct (cn_trx c) as [[[]]|]; intros [= <- <-].
Qed.

End OpenProofs.

(** ** Witnesses and findings *)

#[export] Instance map_engine_create : CfCreate (gmap bytes nat) nat := {
  create_column_family _ n e := match e !! n with Some _ => (TDB_ERR_EXISTS, e) | None => (TDB_SUCCESS, <[n := O]> e) end;
  cf_empty := O
}.

#[export] Instance map_engine_create_laws : CfCreateLaws (gmap bytes nat) nat.
Proof.
  split; cbn.
  - intros _ n e. destruct (e !! n) eqn:He; cbn; [done|]. by rewrite lookup_insert_eq.
  - intros _ n e m Hm. destruct (e !! n); cbn; [done|]. by rewrite lookup_insert_ne.
  - intros n e m Hm. by rewrite lookup_delete_ne.
Qed.

(** A table with an integer primary key and an index on its second column. *)
Definition demo_int : Field := mk_field MYSQL_TYPE_LONG false false my_charset_bin 11 4.
Definition demo_def : TABLE :=
  mk_table [mk_tfield demo_int 1 false false; mk_tfield demo_int 5 false false]
    [mk_tkey (of_string "PRIMARY") (mk_key [mk_part 0 demo_int 4] false) HA_KEY_ALG_BTREE;
     mk_tkey (of_string "i") (mk_key [mk_part 1 demo_int 4] false) HA_KEY_ALG_BTREE] (Some O) 9 false.

Definition demo_options : ha_table_option_struct := tidesdb_seed_opts_from_session session_default.
Definition demo_path : bytes := of_string "./d/t".
Definition demo_old : gmap bytes nat := {[of_string "d__u" := 4%nat]}.
Definition demo_new : gmap bytes nat := <[of_string "d__t__idx_i" := O]> (<[of_string "d__t" := O]> demo_old).
Definition demo_open (o : ha_table_option_struct) : open_env (It := list_iter) :=
  mk_open o (fun _ => None) true (fun _ => (TDB_SUCCESS, mk_li [] None eq_refl)) (fun _ => 0) None true None.
Definition demo_txns : txn_env := mk_txn_env true true true.

Lemma demo_created : create (Some demo_options) no_config demo_txns (Some [7]) (fun _ => true) demo_def demo_path demo_old (Some []) =
  (HA_OK, demo_new, Some [(of_string "d" ++ 0 :: of_string "t", [7])]).
Proof. vm_compute. reflexivity. Qed.

Lemma created_table_opens_witness : exists s, open (demo_open demo_options) demo_new demo_def demo_path new_share = (HA_OK, s) /\
  sh_idx_cfs s !! 1%nat = Some (Some (of_string "d__t__idx_i")).
Proof.
  destruct (created_table_opens demo_options no_config demo_txns (Some [7]) (fun _ => true) demo_def demo_path demo_old demo_new (Some [])
    (Some [(of_string "d" ++ 0 :: of_string "t", [7])]) (demo_open demo_options) demo_created) as (_ & _ & s & Hs & _ & _ & _ & Hi).
  - intros He. by vm_compute in He.
  - reflexivity.
  - exists s. split; [done|]. exact (Hi 1%nat _ eq_refl eq_refl).
Defined.

(** The table after some rows, with a transaction under way. *)
Definition demo_full : gmap bytes nat := <[of_string "d__t__idx_i" := 3%nat]> (<[of_string "d__t" := 3%nat]> demo_old).
Definition demo_share : share := (open (demo_open demo_options) demo_full demo_def demo_path new_share).2.
Definition demo_conn : conn list_iter nat := mk_conn None [] (Some 8%nat) true (Some (Some 8%nat, true)).
Definition demo_truncated := delete_all_rows no_config demo_conn demo_share demo_full.

Lemma demo_share_ok : share_ok demo_def demo_share.
Proof.
  destruct (open_ok (demo_open demo_options) demo_full demo_def demo_path) as (s & Hs & _ & _ & _ & _ & Hok).
  - by exists 3%nat.
  - intros He. by vm_compute in He.
  - reflexivity.
  - unfold demo_share. by rewrite Hs.
Qed.

Lemma demo_truncate_ok : demo_truncated = (HA_OK, demo_truncated.1.1.2, demo_truncated.1.2, demo_truncated.2).
Proof. vm_compute. reflexivity. Qed.

Lemma truncate_empties_witness : cf_map demo_truncated.2 !! sh_cf_name demo_share = Some O /\ sh_cf demo_truncated.1.2 = Some (sh_cf_name demo_share).
Proof.
  destruct (truncate_empties no_config demo_def demo_conn demo_truncated.1.1.2 demo_share demo_truncated.1.2 demo_full demo_truncated.2
    demo_share_ok ltac:(by apply (bool_decide_unpack _); vm_compute) demo_truncate_ok) as (He & Hc & _).
  by split.
Defined.

(** An encrypted table whose key is not available: the call fails with the lock held and
    the share's family set, so that every later [open] of the table waits for the lock. *)
Lemma missing_key_keeps_lock {E D It} `{CfCreate E D, IterOps It} (en : open_env (It := It)) (e : E) t name :
  is_Some (cf_map e !! path_to_cf_name name) -> encrypted (oe_opts en) = true -> oe_key_version en (u32 (encryption_key_id (oe_opts en))) = None ->
  exists s, open en e t name new_share = (HA_ERR_NO_SUCH_TABLE, s) /\ sh_locked s = true /\ sh_cf s = Some (path_to_cf_name name).
Proof.
  intros Hcf He Hk. unfold open. cbn [new_share set_opts set_locked sh_cf]. unfold get_column_family. rewrite decide_True by done.
  unfold init_share. cbn [set_locked set_opts new_share sh_cached_opts from_option id]. rewrite He. cbn iota. rewrite Hk. by eexists.
Qed.

(** An index family that cannot be made again is given up: TRUNCATE reports success. *)
Lemma truncate_loses_index : let broken : CfCreate (gmap bytes nat) nat :=
    {| create_column_family _ n e := if decide (n = of_string "d__t__idx_i") then (TDB_ERR_IO, e) else (TDB_SUCCESS, <[n := O]> e); cf_empty := O |} in
  let r := delete_all_rows (H0 := broken) no_config demo_conn demo_share demo_full in
  r.1.1.1 = HA_OK /\ sh_idx_cfs r.1.2 !! 1%nat = Some None.
Proof. vm_compute. done. Qed.

(** When the table's own family cannot be made again, the share keeps the one that was dropped. *)
Lemma truncate_keeps_dropped : let broken : CfCreate (gmap bytes nat) nat :=
    {| create_column_family _ n e := (TDB_ERR_IO, e); cf_empty := O |} in
  let r := delete_all_rows (H0 := broken) no_config demo_conn demo_share demo_full in
  r.1.1.1 <> HA_OK /\ sh_cf r.1.2 = Some (of_string "d__t") /\ cf_map r.2 !! of_string "d__t" = None.
Proof. vm_compute. done. Qed.
