(* ===== verification/AlterShare.v ===== *)
(** * What an in-place ALTER does to the share (tidesdb_inplace_alter.cc 697-958, tidesdb_atomic_ddl.cc 1061-1091)

    The commit of an in-place ALTER refreshes the share of the open table instead of
    opening it anew, applies changed options to the families in use, and hands the new
    private data and description to the dictionary. *)

From Stdlib Require Import ZArith QArith Lia Strings.String.
From stdpp Require Import base tactics list numbers gmap sets.
From S2P Require Import Prelude Errors Scan KeyCodec Options CfNames Sdi AtomicDdl Reads ReadsProof ReadsExamples Counters TableShare.

Open Scope Z_scope.
Open Scope list_scope.

(** ** The description for the dictionary store *)

(** What the JSON writer is told to write. *)
Inductive json :=
| JObject (members : list (string * json))
| JArray (elements : list json)
| JText (s : bytes)
| JNumber (n : Z)
| JTruth (b : bool).

Definition sdi_column (c : dd_column) : json :=
  JObject [("name"%string, JText (col_name c)); ("type"%string, JNumber (i32 (col_type c))); ("nullable"%string, JTruth (col_is_nullable c))].

Definition serialize_sdi (t : option dd_table) : json :=
  match t with
  | None => JObject []
  | Some t => JObject [("engine"%string, JText (of_string "TIDESDB")); ("schema_id"%string, JNumber (dd_schema_id t));
                       ("name"%string, JText (dd_name t)); ("columns"%string, JArray (sdi_column <$> dd_columns t))]
  end.

(** ** The engine *)

(** [tidesdb_cf_update_runtime_config], and the configuration a family runs with. *)
Class CfConfig (E D : Type) `{CfEngine E D} := {
  update_runtime_config : cf_config -> bytes -> E -> tdb_rc * E;
  config_of : E -> bytes -> option cf_config
}.

(** A configuration changes no data, and only its own family. *)
Class CfConfigLaws (E D : Type) `{CfConfig E D} : Prop := {
  config_data cfg n e : cf_map (update_runtime_config cfg n e).2 = cf_map e;
  config_set cfg n e : (update_runtime_config cfg n e).1 = TDB_SUCCESS -> config_of (update_runtime_config cfg n e).2 n = Some cfg;
  config_frame cfg n e m : m <> n -> config_of (update_runtime_config cfg n e).2 m = config_of e m
}.

Section Alter.
Context {E D It : Type} `{CfConfig E D, CfCreate E D, IterOps It}.

(** Lines 741-798: the index families and what is kept per index, for the new keys. *)
Definition refresh_indexes (e : E) (t : TABLE) (s : share) : share :=
  let idx := resolve_indexes e (sh_cf_name s) t in
  mk_share (sh_cf s) (sh_cf_name s) (sh_has_user_pk s) (sh_pk_index s) (sh_pk_key_len s) (sh_isolation_level s) (sh_default_ttl s)
    (sh_ttl_field_idx s) (sh_encrypted s) (sh_encryption_key_id s) (sh_encryption_key_version s) (sh_has_blobs s) (sh_blob_field_indices s)
    (sh_has_ttl s) (sh_field_codecs s) ((fun k => comparable_key_length (tk_key k)) <$> t_keys t)
    ((fun k => bool_decide (tk_algorithm k = HA_KEY_ALG_FULLTEXT)) <$> t_keys t)
    ((fun k => bool_decide (tk_algorithm k = HA_KEY_ALG_RTREE)) <$> t_keys t)
    ((fun ik => cover_of t ik.1 ik.2) <$> numbered_keys t) idx.*1 idx.*2
    (length (List.filter (fun c => bool_decide (is_Some c)) idx.*1)) (sh_counters s) (sh_create_time s) (sh_cached_opts s) (sh_locked s).

(** The families in use, the table's first. *)
Definition families_in_use (s : share) : list bytes := option_list (sh_cf s) ++ omap id (sh_idx_cfs s).

(** Lines 822-850; a failure is only logged. *)
Definition apply_config (cfg : cf_config) (s : share) (e : E) : E :=
  foldl (fun e n => (update_runtime_config cfg n e).2) e (families_in_use s).

(** Lines 852-884. *)
Definition refresh_options (o : ha_table_option_struct) (s : share) : share :=
  mk_share (sh_cf s) (sh_cf_name s) (sh_has_user_pk s) (sh_pk_index s) (sh_pk_key_len s)
    (match tdb_isolation_map !! Z.to_nat (isolation_level o) with Some i => i | None => sh_isolation_level s end) (ttl o)
    (sh_ttl_field_idx s) (encrypted o) (if encrypted o then u32 (encryption_key_id o) else sh_encryption_key_id s)
    (sh_encryption_key_version s) (sh_has_blobs s) (sh_blob_field_indices s)
    ((0 <? ttl o) || bool_decide (is_Some (sh_ttl_field_idx s))) (sh_field_codecs s) (sh_idx_comp_key_len s) (sh_idx_is_fts s)
    (sh_idx_is_spatial s) (sh_idx_cover s) (sh_idx_cfs s) (sh_idx_cf_names s) (sh_num_secondary_indexes s) (sh_counters s)
    (sh_create_time s) (Some o) (sh_locked s).

(** What the commit works on. *)
Record alter_world {T : Type} := mk_aw {
  aw_conn : conn It T;
  aw_share : share;
  aw_engine : E;
  aw_schema : option (list (bytes * bytes));
  aw_dd : option dd_table;
  aw_sdi : option (option (list (bytes * bytes)))
}.
Arguments alter_world : clear implicits.

(** The statement: the keys and fields of the altered table, the options when they change,
    what [prepare_inplace_alter_table] left in its context, and the results of the calls
    outside the engine. *)
Record alter_stmt := mk_as {
  as_table : TABLE;
  as_path : bytes;
  as_options : option ha_table_option_struct;     (* ALTER_CHANGE_CREATE_OPTION *)
  as_default_cfg : cf_config;
  as_adds : list bytes;
  as_drops : list bytes;
  as_private : bytes;                             (* new_se_private_serialized *)
  as_txns : txn_env;
  as_frm : option bytes;
  as_sdi_env : sdi_env
}.

Context (insert_values : bytes -> option (gmap bytes bytes)) (write_json : json -> bytes).

Definition drop_families (ns : list bytes) (e : E) : E := foldl (fun e n => (drop_column_family n e).2) e ns.

(** Iterators may lead into families that are dropped. *)
Definition free_iterators {T} (c : conn It T) : conn It T :=
  mk_conn None ((fun _ => None) <$> cn_dup_iters c) (cn_stmt_txn c) (cn_stmt_dirty c) (cn_trx c).

(** Lines 910-952. *)
Definition stamp (a : alter_stmt) (dd : option dd_table) (sdi : option (option (list (bytes * bytes))))
    : bool * option dd_table * option (option (list (bytes * bytes))) :=
  match dd, as_private a with
  | None, _ | _, [] => (false, dd, sdi)
  | Some t, _ =>
    match stamp_private_data insert_values dd (as_private a) with
    | (true, dd) => (true, dd, sdi)
    | (false, dd) =>
      (false, dd, match sdi with
                  | Some st => Some (SdiStore_put (as_sdi_env a) (mk_sdi_key SDI_TYPE_TABLE (u64 (dd_id t))) (write_json (serialize_sdi dd)) st).2
                  | None => None
                  end)
    end
  end.

(** The result is true on failure. *)
Definition commit_alter {T} (commit : bool) (a : alter_stmt) (w : alter_world T) : bool * alter_world T :=
  let c := free_iterators (aw_conn w) in
  if negb commit then (false, mk_aw _ c (aw_share w) (drop_families (as_adds a) (aw_engine w)) (aw_schema w) (aw_dd w) (aw_sdi w))
  else
    let e := drop_families (as_drops a) (aw_engine w) in
    let s := refresh_indexes e (as_table a) (aw_share w) in
    let '(s, e) := match as_options a with
                   | None => (s, e)
                   | Some o => match build_cf_config (as_default_cfg a) (Some o) with
                               | Some cfg => (refresh_options o s, apply_config cfg s e)
                               | None => (s, e)       (* a read outside the maps, which the ranges of the variables exclude *)
                               end
                   end in
    let schema := (schema_cf_store_frm (as_txns a) (as_path a) (as_frm a) (aw_schema w)).2 in
    let '(failed, dd, sdi) := stamp a (aw_dd w) (aw_sdi w) in
    (failed, mk_aw _ c s e schema dd sdi).

End Alter.
Arguments alter_world : clear implicits.
Arguments mk_aw {E It T}.

(** ** Lemmas *)

(** What the commit refreshes: two shares agree on the families, the primary key, the
    options, the encryption key and everything kept per index. *)
Record same_shape (s s' : share) : Prop := {
  ss_cf : sh_cf s = sh_cf s' /\ sh_cf_name s = sh_cf_name s';
  ss_pk : sh_has_user_pk s = sh_has_user_pk s' /\ sh_pk_index s = sh_pk_index s' /\ sh_pk_key_len s = sh_pk_key_len s';
  ss_options : sh_isolation_level s = sh_isolation_level s' /\ sh_default_ttl s = sh_default_ttl s' /\
    sh_cached_opts s = sh_cached_opts s';
  ss_encryption : sh_encrypted s = sh_encrypted s' /\ (sh_encrypted s' = true -> sh_encryption_key_id s = sh_encryption_key_id s');
  ss_indexes : sh_idx_comp_key_len s = sh_idx_comp_key_len s' /\ sh_idx_is_fts s = sh_idx_is_fts s' /\ sh_idx_is_spatial s = sh_idx_is_spatial s' /\
    sh_idx_cover s = sh_idx_cover s' /\ sh_idx_cfs s = sh_idx_cfs s' /\ sh_idx_cf_names s = sh_idx_cf_names s' /\
    sh_num_secondary_indexes s = sh_num_secondary_indexes s'
}.

(** What is kept per column. *)
Record same_columns (s s' : share) : Prop := {
  sc_ttl : sh_ttl_field_idx s = sh_ttl_field_idx s';
  sc_blobs : sh_has_blobs s = sh_has_blobs s' /\ sh_blob_field_indices s = sh_blob_field_indices s';
  sc_codecs : sh_field_codecs s = sh_field_codecs s'
}.

Section AlterProofs.
Context {E D It : Type} `{CfConfigLaws E D} `{!CfCreate E D} `{!CfCreateLaws E D} `{IterOps It}.

Lemma apply_config_data cfg ns (e : E) : cf_map (foldl (fun e n => (update_runtime_config cfg n e).2) e ns) = cf_map e.
Proof. revert e. induction ns as [|n ns IH]; intros e; cbn; [done|]. by rewrite IH, config_data. Qed.

Lemma apply_config_all cfg ns (e : E) : (forall n e, (update_runtime_config cfg n e).1 = TDB_SUCCESS) -> forall m,
  config_of (foldl (fun e n => (update_runtime_config cfg n e).2) e ns) m = if decide (m ∈ ns) then Some cfg else config_of e m.
Proof.
  intros Hr m. revert e. induction ns as [|n ns IH]; intros e; cbn [foldl]; [by rewrite decide_False by apply not_elem_of_nil|].
  rewrite IH. destruct (decide (m ∈ ns)) as [Hi|Hi]; [by rewrite decide_True by (by right)|]. destruct (decide (m = n)) as [->|Hne].
  - rewrite config_set by apply Hr. by rewrite decide_True by left.
  - rewrite config_frame by done. rewrite decide_False; [done|]. by apply not_elem_of_cons.
Qed.

Lemma drop_families_frame ns (e : E) m : m ∉ ns -> cf_map (drop_families ns e) !! m = cf_map e !! m.
Proof.
  unfold drop_families. revert e. induction ns as [|n ns IH]; intros e; cbn [foldl]; [done|]. intros [Hn Hns]%not_elem_of_cons.
  by rewrite IH, drop_frame.
Qed.

Lemma resolve_ext (e e' : E) cn t : cf_map e = cf_map e' -> resolve_indexes e cn t = resolve_indexes e' cn t.
Proof. intros Hm. unfold resolve_indexes, get_column_family. by rewrite Hm. Qed.

Lemma pk_shape (t t' : TABLE) : t_primary_key t' = t_primary_key t -> (forall p, t_primary_key t = Some p -> t_keys t' !! p = t_keys t !! p) ->
  (t_primary_key t' ≫= (t_keys t' !!.)) = (t_primary_key t ≫= (t_keys t !!.)).
Proof. intros -> Hk. destruct (t_primary_key t) as [p|]; cbn; [by apply Hk|done]. Qed.

Lemma open_key_version (en : open_env (It := It)) (e : E) t name s : open en e t name new_share = (HA_OK, s) ->
  encrypted (oe_opts en) = true -> oe_key_version en (u32 (encryption_key_id (oe_opts en))) = Some (sh_encryption_key_version s).
Proof.
  intros Ho He. revert Ho. unfold open. cbn [new_share set_opts set_locked sh_cf]. destruct (get_column_family e _); [|done].
  unfold init_share. cbn [set_locked set_opts new_share sh_cached_opts from_option id]. rewrite He.
  destruct (oe_key_version en _) as [v|]; [|done]. destruct (validate_open _ _ _); [|done]. by intros [= <-].
Qed.

(** C30: an in-place ALTER and a new open.  The commit drops the families of the removed
    indexes and no other, and changes no data of a family that stays.  For a table whose
    primary key stays, it leaves the share with the families, the primary key, the
    options, the encryption key and the index caches that a new open of the altered table
    would give it.  What it does not refresh stays as it was: the version of the encryption
    key, which a new open asks for anew, and the caches per column, which are those of a
    new open only when the ALTER adds and drops no column ([alter_keeps_key_version],
    [added_column_unseen]).  When options change and the engine takes them, every family in
    use runs with the configuration they give. *)
Theorem altered_share_as_reopened {T} insert_values write_json (en0 en : open_env (It := It)) (e0 : E) (t0 : TABLE) name (a : alter_stmt)
    (w w' : alter_world E It T) :
  open en0 e0 t0 name new_share = (HA_OK, aw_share w) ->
  t_primary_key (as_table a) = t_primary_key t0 ->
  (forall p, t_primary_key t0 = Some p -> t_keys (as_table a) !! p = t_keys t0 !! p) ->
  is_Some (cf_map (aw_engine w) !! path_to_cf_name name) -> path_to_cf_name name ∉ as_drops a ->
  (forall o, as_options a = Some o -> is_Some (build_cf_config (as_default_cfg a) (Some o))) ->
  commit_alter insert_values write_json true a w = (false, w') ->
  oe_opts en = default (oe_opts en0) (as_options a) ->
  (encrypted (oe_opts en) = true -> is_Some (oe_key_version en (u32 (encryption_key_id (oe_opts en))))) ->
  validate_open (oe_strict en) (oe_table_def en) (Some (path_to_cf_name name)) = true ->
  (forall n, n ∉ as_drops a -> cf_map (aw_engine w') !! n = cf_map (aw_engine w) !! n) /\
  (exists s', open en (aw_engine w') (as_table a) name new_share = (HA_OK, s') /\ same_shape (aw_share w') s' /\
     (encrypted (oe_opts en) = true -> oe_key_version en (u32 (encryption_key_id (oe_opts en))) = Some (sh_encryption_key_version s')) /\
     (t_fields (as_table a) = t_fields t0 -> same_columns (aw_share w') s' /\ sh_has_ttl (aw_share w') = sh_has_ttl s')) /\
  (same_columns (aw_share w') (aw_share w) /\ sh_encryption_key_version (aw_share w') = sh_encryption_key_version (aw_share w)) /\
  (forall o cfg, as_options a = Some o -> build_cf_config (as_default_cfg a) (Some o) = Some cfg ->
     (forall n e, (update_runtime_config cfg n e).1 = TDB_SUCCESS) ->
     forall n, n ∈ families_in_use (aw_share w') -> config_of (aw_engine w') n = Some cfg).
Proof.
  intros Hopen Hp Hpk Hcf Hnd Hcfg Hc Ho Hkey Hval. set (e1 := drop_families (as_drops a) (aw_engine w)).
  assert (Hdata : cf_map (aw_engine w') = cf_map e1).
  { unfold commit_alter in Hc. cbn [negb] in Hc. fold e1 in Hc. destruct (as_options a) as [o|].
    - destruct (Hcfg o eq_refl) as [cfg Hb]. rewrite Hb in Hc. destruct (stamp _ _ _ _) as [[f dd] sdi]. injection Hc as -> <-. cbn. apply apply_config_data.
    - destruct (stamp _ _ _ _) as [[f dd] sdi]. injection Hc as -> <-. done. }
  split; [intros n Hn; rewrite Hdata; by apply drop_families_frame|].
  split; [|split].
  - destruct (open_total en (aw_engine w') (as_table a) name) as [s' Hs']; [|done|done|].
    { rewrite Hdata. unfold e1. by rewrite drop_families_frame. }
    exists s'. split; [done|]. pose proof (open_key_version _ _ _ _ _ Hs') as Hver.
    apply open_inv in Hs' as [v' ->]. apply open_inv in Hopen as [v Hw].
    pose proof (pk_shape _ _ Hp Hpk) as Hpks. unfold commit_alter in Hc. cbn [negb] in Hc. fold e1 in Hc. rewrite Hw in Hc.
    destruct (as_options a) as [o|].
    + destruct (Hcfg o eq_refl) as [cfg Hb]. rewrite Hb in Hc. destruct (stamp _ _ _ _) as [[f dd] sdi]. injection Hc as -> <-. cbn in Ho. subst o.
      unfold build_cf_config in Hb. destruct (tdb_isolation_map !! _) as [iso|] eqn:Hiso; [|done]. split; [|split; [done|]].
      * split; cbn; rewrite ?Hpks, ?Hp, ?(resolve_ext _ e1 _ _ Hdata), ?Hiso; try done; by split; [|intros ->].
      * intros Hf. split; [split; cbn; by rewrite Hf|cbn; by rewrite Hf].
    + destruct (stamp _ _ _ _) as [[f dd] sdi]. injection Hc as -> <-. cbn in Ho. split; [|split; [done|]].
      * split; cbn; rewrite ?Hpks, ?Hp, ?(resolve_ext _ e1 _ _ Hdata), ?Ho; done.
      * intros Hf. split; [split; cbn; by rewrite Hf|cbn; by rewrite Hf, Ho].
  - unfold commit_alter in Hc. cbn [negb] in Hc. fold e1 in Hc. destruct (as_options a) as [o|].
    + destruct (Hcfg o eq_refl) as [cfg Hb]. rewrite Hb in Hc. destruct (stamp _ _ _ _) as [[f dd] sdi]. by injection Hc as -> <-.
    + destruct (stamp _ _ _ _) as [[f dd] sdi]. by injection Hc as -> <-.
  - intros o cfg Hao Hb Hr n Hn. unfold commit_alter in Hc. cbn [negb] in Hc. fold e1 in Hc. rewrite Hao, Hb in Hc.
    destruct (stamp _ _ _ _) as [[f dd] sdi]. injection Hc as -> <-. cbn in Hn |- *. unfold apply_config. rewrite apply_config_all by done.
    by rewrite decide_True.
Qed.

End AlterProofs.

(** ** An engine with configurations, and the witness *)

Abbreviation conf_engine := (gmap bytes nat * gmap bytes cf_config)%type.

Definition on_map {A} (f : gmap bytes nat -> A * gmap bytes nat) (e : conf_engine) : A * conf_engine :=
  let r := f e.1 in (r.1, (r.2, e.2)).

#[export] Instance conf_cf_engine : CfEngine conf_engine nat := {
  cf_map e := e.1;
  list_column_families e := list_column_families e.1;
  drop_column_family n := on_map (drop_column_family n);
  rename_column_family a b := on_map (rename_column_family a b)
}.

#[export] Instance conf_cf_create : CfCreate conf_engine nat := {
  create_column_family cfg n := on_map (create_column_family cfg n);
  cf_empty := O
}.

#[export] Instance conf_cf_create_laws : CfCreateLaws conf_engine nat.
Proof.
  destruct map_engine_create_laws as [C1 C2 C3]. split.
  - intros cfg n e. apply (C1 cfg n e.1).
  - intros cfg n e. apply (C2 cfg n e.1).
  - intros n e. apply (C3 n e.1).
Qed.

#[export] Instance conf_cf_config : CfConfig conf_engine nat := {
  update_runtime_config cfg n e := (TDB_SUCCESS, (e.1, <[n := cfg]> e.2));
  config_of e n := e.2 !! n
}.

#[export] Instance conf_cf_config_laws : CfConfigLaws conf_engine nat.
Proof.
  split; cbn; [done| |].
  - intros cfg n e _. apply lookup_insert_eq.
  - intros cfg n e m Hm. by apply lookup_insert_ne.
Qed.

(** Index i of the table is replaced by j, and the options change. *)
Definition demo_altered : TABLE :=
  mk_table (t_fields demo_def)
    [mk_tkey (of_string "PRIMARY") (mk_key [mk_part 0 demo_int 4] false) HA_KEY_ALG_BTREE;
     mk_tkey (of_string "j") (mk_key [mk_part 1 demo_int 4] false) HA_KEY_ALG_BTREE] (Some O) 9 false.

Definition demo_stmt : alter_stmt :=
  mk_as demo_altered demo_path (Some demo_options) no_config [of_string "d__t__idx_j"] [of_string "d__t__idx_i"] [] demo_txns None
    (mk_sdi_env TDB_SUCCESS TDB_SUCCESS TDB_SUCCESS None).

Definition demo_before : conf_engine := (<[of_string "d__t__idx_j" := 3%nat]> demo_full, ∅).
Definition demo_world : alter_world conf_engine list_iter nat :=
  mk_aw demo_conn (open (demo_open demo_options) demo_before demo_def demo_path new_share).2 demo_before (Some []) None None.
Definition demo_committed := commit_alter (fun _ => None) (fun _ => []) true demo_stmt demo_world.

Lemma demo_opened : open (demo_open demo_options) demo_before demo_def demo_path new_share = (HA_OK, aw_share demo_world).
Proof. vm_compute. reflexivity. Qed.

Lemma demo_commits : demo_committed = (false, demo_committed.2).
Proof. vm_compute. reflexivity. Qed.

Lemma altered_share_as_reopened_witness :
  exists s', open (demo_open demo_options) (aw_engine demo_committed.2) demo_altered demo_path new_share = (HA_OK, s') /\
    same_shape (aw_share demo_committed.2) s' /\ same_columns (aw_share demo_committed.2) s'.
Proof.
  destruct (altered_share_as_reopened (fun _ => None) (fun _ => []) (demo_open demo_options) (demo_open demo_options) demo_before demo_def
    demo_path demo_stmt demo_world demo_committed.2 demo_opened eq_refl) as (_ & (s' & Hs & Hshape & _ & Hcols) & _).
  - intros p [= <-]. reflexivity.
  - by exists 3%nat.
  - apply (bool_decide_unpack _). vm_compute. done.
  - intros o [= <-]. eexists. vm_compute. reflexivity.
  - exact demo_commits.
  - reflexivity.
  - intros He. by vm_compute in He.
  - reflexivity.
  - exists s'. split; [exact Hs|]. split; [exact Hshape|]. by apply Hcols.
Defined.

(** The old index is gone, its replacement is in use and both families run with the new
    options. *)
Example demo_commit_result :
  sh_idx_cfs (aw_share demo_committed.2) = [None; Some (of_string "d__t__idx_j")] /\
  (aw_engine demo_committed.2).1 !! of_string "d__t__idx_i" = None /\
  is_Some (config_of (aw_engine demo_committed.2) (of_string "d__t")) /\ is_Some (config_of (aw_engine demo_committed.2) (of_string "d__t__idx_j")).
Proof. vm_compute. split; [done|]. split; [done|]. split; by eexists. Qed.

(** A table that an ALTER makes encrypted keeps key version 0 in the share, where a new open
    asks for the latest version of the key. *)
Lemma alter_keeps_key_version (o : ha_table_option_struct) (s : share) :
  sh_encrypted (refresh_options o s) = encrypted o /\ sh_encryption_key_version (refresh_options o s) = sh_encryption_key_version s.
Proof. done. Qed.

(** An added BLOB column is not in the share's list of BLOB columns after the commit, where
    a new open would list it. *)
Definition demo_widened : TABLE :=
  mk_table (t_fields demo_def ++ [mk_tfield demo_int 9 true false]) (t_keys demo_def) (Some O) 19 false.
Definition widen_stmt : alter_stmt :=
  mk_as demo_widened demo_path None no_config [] [] [] demo_txns None (mk_sdi_env TDB_SUCCESS TDB_SUCCESS TDB_SUCCESS None).

Lemma added_column_unseen :
  let w' := commit_alter (fun _ => None) (fun _ => []) true widen_stmt demo_world in
  let reopened := open (demo_open demo_options) (aw_engine w'.2) demo_widened demo_path new_share in
  w'.1 = false /\ reopened.1 = HA_OK /\ sh_has_blobs (aw_share w'.2) = false /\ sh_has_blobs reopened.2 = true /\
  length (sh_field_codecs (aw_share w'.2)) = 2%nat /\ length (sh_field_codecs reopened.2) = 3%nat.
Proof. vm_compute. repeat split; reflexivity. Qed.
