(* ===== verification/DropTable.v ===== *)
(** * DROP TABLE through the handler (ha_tidesdb.cc 9720-9756)

    [delete_table] puts three components together: what the connection has written is committed
    first, because the families about to go may be in use by its transaction; the dictionary blob
    of the table is deleted; then the families are dropped. *)

From Stdlib Require Import ZArith Lia.
From stdpp Require Import base tactics list numbers gmap sets.
From S2P Require Import Prelude Errors Scan Paths Xid Options Txn CfNames Sdi AtomicDdl.

Section Drop.

Context {E D C T X : Type} `{CfLaws E D} `{TxnLaws C T X}.

(** What the server sees of a drop: a failure before the families, or the code of the drop. *)
Inductive drop_result := DropRefused | DropEnded (rc : tdb_rc).

Definition delete_table (senv : sdi_env) (env : ddl_env) (path : bytes) (table_def : option dd_table) (c : Txn.conn (E := C) (T := T))
    (sdi : option (option (list (bytes * bytes)))) (st : ddl_state E)
    : drop_result * Txn.conn (E := C) (T := T) * option (option (list (bytes * bytes))) * ddl_state E :=
  let c := tidesdb_flush_engine_txn_before_cf_mutation c in
  let '(ok, sdi) := prepare_drop senv table_def sdi in
  if negb ok then (DropRefused, c, sdi, st)
  else let '(rc, st) := tidesdb_drop_table_impl env path st in (DropEnded rc, c, sdi, st).

(** The connection holds nothing of the families. *)
Definition detached (c : Txn.conn (E := C) (T := T)) : Prop := match c.1 with None => True | Some x => txn x = None end.

Lemma flush_detached c : detached (tidesdb_flush_engine_txn_before_cf_mutation c).
Proof.
  destruct c as [[x|] e]; [|done]. unfold detached, tidesdb_flush_engine_txn_before_cf_mutation. destruct (txn x) as [t|] eqn:Ht; [|done].
  destruct (if dirty x then _ else _) as [t1 e1]. done.
Qed.

(** Writes of the statement reach the engine, or the engine refused them. *)
Lemma flush_commits (c : Txn.conn (E := C) (T := T)) x t : c.1 = Some x -> txn x = Some t ->
  data (tidesdb_flush_engine_txn_before_cf_mutation c).2 =
    (if dirty x && bool_decide ((txn_commit (release_stmt x t) c.2).1.1 = TDB_SUCCESS) then effect t (data c.2) else data c.2).
Proof.
  destruct c as [xo e]. cbn [fst snd]. intros -> Ht. unfold tidesdb_flush_engine_txn_before_cf_mutation. rewrite Ht.
  assert (Heff : effect (release_stmt x t) (data e) = effect t (data e)).
  { unfold release_stmt. destruct (stmt_savepoint_active x); [|done]. by destruct (release_law t stmt_name) as (_ & _ & ?). }
  destruct (dirty x); cbn [andb].
  - destruct (txn_commit (release_stmt x t) e) as [[rc t1] e1] eqn:Hc. cbn [fst]. destruct (commit_law _ _ _ _ _ Hc) as (_ & Hok & Hno).
    case_bool_decide as Hrc.
    + cbn. destruct (free_law t1 e1) as [-> _]. rewrite <- Heff. by apply Hok.
    + destruct (txn_rollback t1 e1) as [t2 e2] eqn:Hr. cbn. destruct (free_law t2 e2) as [-> _]. destruct (rollback_law _ _ _ _ Hr) as [-> _]. by apply Hno.
  - destruct (txn_rollback (release_stmt x t) e) as [t2 e2] eqn:Hr. cbn. destruct (free_law t2 e2) as [-> _]. by destruct (rollback_law _ _ _ _ Hr) as [-> _].
Qed.

Lemma table_key_ok i : sdi_key_ok (mk_sdi_key SDI_TYPE_TABLE (u64 i)).
Proof. split; [unfold fits_u32, SDI_TYPE_TABLE; cbn; lia|apply u64_fits]. Qed.

(** DROP TABLE with a reliable engine: the families of the table and no others are gone, its blob
    and no other is gone, and the connection has no transaction left. *)
Lemma delete_table_exact senv env path t c cf m st :
  engine_open env = true -> reliable_drop (E := E) -> (forall n, rmtree_ok env n = true) -> is_Some (list_column_families (eng st)) ->
  rc_begin senv = TDB_SUCCESS -> rc_op senv = TDB_SUCCESS -> rc_commit senv = TDB_SUCCESS -> represents (Some cf) m ->
  let k := mk_sdi_key SDI_TYPE_TABLE (u64 (dd_id t)) in
  let mine n := n = path_to_cf_name path \/ has_prefix (path_to_cf_name path ++ CF_INDEX_INFIX) n = true in
  exists c' s' st', delete_table senv env path (Some t) c (Some (Some cf)) st = (DropEnded TDB_SUCCESS, c', Some s', st') /\
    detached c' /\ represents s' (delete k m) /\
    (forall n, mine n -> cf_map (eng st') !! n = None) /\ (forall n, ~ mine n -> cf_map (eng st') !! n = cf_map (eng st) !! n).
Proof.
  intros Hopen Hdrop Hrm Hlist Hb Ho Hc Hr k mine. unfold delete_table, prepare_drop, SdiStore_del, ok_rc, done_rc. rewrite Hb, Ho, Hc.
  rewrite !bool_decide_true by done. cbn [negb orb snd].
  destruct (drop_table_exact env path st Hopen Hdrop Hrm Hlist) as (st' & Hst & G1 & G2 & _). rewrite Hst. eexists _, _, st'. split; [done|].
  split; [apply flush_detached|]. split; [|done]. apply represents_del; [done|]. apply table_key_ok.
Qed.

(** The blob is gone even when the drop of the families then fails. *)
Lemma failed_drop_loses_blob senv env path t c cf m st rc e :
  engine_open env = true -> drop_column_family (path_to_cf_name path) (eng st) = (rc, e) -> done_rc rc = false ->
  rc_begin senv = TDB_SUCCESS -> rc_op senv = TDB_SUCCESS -> rc_commit senv = TDB_SUCCESS -> represents (Some cf) m ->
  exists c' s' st', delete_table senv env path (Some t) c (Some (Some cf)) st = (DropEnded rc, c', Some s', st') /\
    represents s' (delete (mk_sdi_key SDI_TYPE_TABLE (u64 (dd_id t))) m).
Proof.
  intros Hopen Hd Hrc Hb Ho Hc Hr. unfold delete_table, prepare_drop, SdiStore_del, ok_rc. rewrite Hb, Ho, Hc. rewrite !bool_decide_true by done.
  cbn [negb snd]. unfold tidesdb_drop_table_impl. rewrite Hopen. cbn [negb]. rewrite Hd, Hrc. cbn [negb]. eexists _, _, _. split; [done|].
  apply represents_del; [done|]. apply table_key_ok.
Qed.

End Drop.
