(* ===== verification/PerfRing.v ===== *)
(** * Timings of handler calls (tidesdb_perf_ring.{h,cc}, tidesdb_perf_scope.h)

    Every thread keeps the timings of its handler calls in a ring of its own; a background
    thread walks the list of rings, sorts what is new by method and appends it to one file
    per method.  Rings are pushed onto the list by a compare-and-swap loop; a ring is
    written by its thread and drained by the flusher. *)

From Stdlib Require Import ZArith Lia Znumtheory Sorting.Permutation.
From stdpp Require Import base tactics list numbers gmap sets relations.
From S2P Require Import Prelude.

Definition kMethodCount : Z := 32.
Definition kCapacityPow2Default : Z := 16.

Record Sample := mk_sample { method_id : Z; thread_id : Z; reserved : Z; enter_tsc : Z; exit_tsc : Z }.

Definition zero_sample : Sample := mk_sample 0 0 0 0 0.

Record TLS_Ring := mk_ring {
  capacity : Z;
  write_idx : Z;
  read_idx : Z;
  wrap_count : Z;
  owner_tid : Z;
  slots : list Sample
}.

(** ** One ring *)

(** [ring_alloc_for_thread], without the push onto the list. *)
Definition ring_capacity (pow2 : Z) : Z :=
  let pow2 := if (pow2 <? 4) || (30 <? pow2) then kCapacityPow2Default else pow2 in u32 1 .<< pow2.

Definition new_ring (pow2 tid : Z) : TLS_Ring :=
  mk_ring (ring_capacity pow2) 0 0 0 (u64 tid) (replicate (Z.to_nat (ring_capacity pow2)) zero_sample).

(** [push_sample] first claims a slot and then fills it. *)
Definition claim_slot (r : TLS_Ring) : Z * TLS_Ring :=
  let w := write_idx r in
  let wraps := if (capacity r <=? w) && (w .& (capacity r - 1) =? 0) then u32 (wrap_count r + 1) else wrap_count r in
  (w .& (capacity r - 1), mk_ring (capacity r) (u64 (w + 1)) (read_idx r) wraps (owner_tid r) (slots r)).

Definition fill_slot (slot_idx : Z) (s : Sample) (r : TLS_Ring) : TLS_Ring :=
  mk_ring (capacity r) (write_idx r) (read_idx r) (wrap_count r) (owner_tid r) (<[Z.to_nat slot_idx := s]> (slots r)).

Definition push_sample (r : TLS_Ring) (method_id thread_id enter_tsc exit_tsc : Z) : TLS_Ring :=
  let '(i, r) := claim_slot r in fill_slot i (mk_sample (u8 method_id) (u8 thread_id) 0 enter_tsc exit_tsc) r.

(** The end of a timed call: the thread's ring is made at the first one; [alloc] fails when
    memory is short. *)
Definition perf_scope_end (capture_active alloc : bool) (pow2 tid m enter exit : Z) (t_ring : option TLS_Ring) : option TLS_Ring :=
  if negb capture_active then t_ring
  else match (match t_ring with Some r => Some r | None => if alloc then Some (new_ring pow2 tid) else None end) with
       | None => None
       | Some r => Some (push_sample r m (u8 (owner_tid r)) enter exit)
       end.

(** The flusher on one ring: the samples it takes, whatever their method, and the ring after. *)
Definition drain (r : TLS_Ring) : list Sample * TLS_Ring :=
  let w := write_idx r in
  let rd := read_idx r in
  let to_drain := u64 (w - rd) in
  let to_drain := if capacity r <? to_drain then capacity r else to_drain in
  ((fun i => nth (Z.to_nat (u64 (rd + Z.of_nat i) .& (capacity r - 1))) (slots r) zero_sample) <$> seq 0 (Z.to_nat to_drain),
   mk_ring (capacity r) w w (wrap_count r) (owner_tid r) (slots r)).

(** ** The flusher *)

(** The directory that the open files are in and the one the variable asks for; the
    methods whose file is open, and the files with what they hold.  A descriptor that
    [open] returns is never 0, which the code takes for a closed file. *)
Record module_state := mk_module {
  current_dir : bytes;
  desired_dir : bytes;
  method_fds : gmap Z bytes;
  files : gmap (bytes * Z) (list Sample);
  total_wraps_seen : Z;
  last_overflow_log_ts : Z;
  warnings : nat
}.

(** The file system and the clock; a write appends all of its bytes or none. *)
Record perf_env := mk_perf_env {
  pe_mkdir : bytes -> bool;                 (* made, or there already *)
  pe_stat : bytes -> bool;
  pe_open : bytes -> Z -> bool;
  pe_write : Z -> bool;
  pe_now : Z
}.

Definition method_ids : list Z := Z.of_nat <$> seq 1 32.

Definition open_method_files_in (en : perf_env) (dir : bytes) (fds : gmap Z bytes) : gmap Z bytes :=
  foldl (fun fds i => if pe_open en dir i then <[i := dir]> fds else fds) fds method_ids.

Definition rotate_to_dir (en : perf_env) (dir : bytes) (st : module_state) : bool * module_state :=
  match dir with
  | [] => (false, st)
  | _ =>
    if pe_mkdir en dir
    then (true, mk_module (current_dir st) (desired_dir st) (open_method_files_in en dir ∅)
                  (foldl (fun fs i => if pe_open en dir i then <[(dir, i) := default [] (fs !! (dir, i))]> fs else fs) (files st) method_ids)
                  (total_wraps_seen st) (last_overflow_log_ts st) (warnings st))
    else (false, st)
  end.

Definition set_current (dir : bytes) (st : module_state) : module_state :=
  mk_module dir (desired_dir st) (method_fds st) (files st) (total_wraps_seen st) (last_overflow_log_ts st) (warnings st).

(** The first part of [flush_once]. *)
Definition rotate_pending (en : perf_env) (capture_active : bool) (st : module_state) : module_state :=
  if negb capture_active then st
  else
    let '(pending, st) :=
      if negb (bool_decide (desired_dir st = current_dir st)) then (desired_dir st, st)
      else if negb (bool_decide (current_dir st = [])) && negb (pe_stat en (current_dir st)) then (current_dir st, set_current [] st)
      else ([], st) in
    match pending with
    | [] => st
    | _ => match rotate_to_dir en pending st with (true, st) => set_current pending st | (false, st) => st end
    end.

Definition of_method (i : Z) (s : Sample) : bool := method_id s =? i.

(** The last part: one warning when the laps have grown, the first always, then at most
    one in a minute. *)
Definition report_overflow (en : perf_env) (wraps : Z) (st : module_state) : module_state :=
  if total_wraps_seen st <? wraps then
    let log := (total_wraps_seen st =? 0) || (60 <=? pe_now en - last_overflow_log_ts st) in
    mk_module (current_dir st) (desired_dir st) (method_fds st) (files st) wraps
      (if log then pe_now en else last_overflow_log_ts st) (warnings st + (if log then 1 else 0))%nat
  else st.

(** Samples of a method whose file is not open are dropped. *)
Definition append (en : perf_env) (samples : list Sample) (st : module_state) (i : Z) : module_state :=
  match List.filter (of_method i) samples, method_fds st !! i with
  | [], _ | _, None => st
  | new, Some dir =>
    if pe_write en i
    then mk_module (current_dir st) (desired_dir st) (method_fds st) (<[(dir, i) := default [] (files st !! (dir, i)) ++ new]> (files st))
           (total_wraps_seen st) (last_overflow_log_ts st) (warnings st)
    else st
  end.

Definition flush_once (en : perf_env) (capture_active : bool) (rings : list TLS_Ring) (st : module_state) : list TLS_Ring * module_state :=
  let st := rotate_pending en capture_active st in
  let drained := drain <$> rings in
  let st := foldl (append en (concat drained.*1)) st method_ids in
  let wraps := foldl (fun a r => u64 (a + wrap_count r)) 0 rings in
  (drained.*2, report_overflow en wraps st).

Definition DEFAULT_DIR : bytes := (fun z => z) <$>
  [47; 118; 97; 114; 47; 108; 105; 98; 47; 109; 121; 115; 113; 108; 47; 116; 105; 100; 101; 115; 100; 98; 45; 112; 101; 114; 102].

(** [init], up to the start of the flusher. *)
Definition init (en : perf_env) (output_dir : option bytes) (st : module_state) : module_state :=
  let dir := match output_dir with Some (c :: d) => c :: d | _ => DEFAULT_DIR end in
  let st := mk_module [] dir (method_fds st) (files st) (total_wraps_seen st) (last_overflow_log_ts st) (warnings st) in
  match rotate_to_dir en dir st with (true, st) => set_current dir st | (false, st) => st end.

Definition set_output_dir (output_dir : option bytes) (st : module_state) : module_state :=
  match output_dir with
  | None => st
  | Some d => mk_module (current_dir st) d (method_fds st) (files st) (total_wraps_seen st) (last_overflow_log_ts st) (warnings st)
  end.

(** [deinit], after the flusher has ended: a last drain, then the files are closed and the rings freed. *)
Definition deinit (en : perf_env) (capture_active : bool) (rings : list TLS_Ring) (st : module_state) : list TLS_Ring * module_state :=
  let '(_, st) := flush_once en capture_active rings st in
  ([], mk_module [] [] ∅ (files st) (total_wraps_seen st) (last_overflow_log_ts st) (warnings st)).

(** ** The list of rings

    [ring_push_global] on several threads: rings are numbered, [next] is the link of each
    ring, and a thread inside the loop has a ring and the head it last read. *)
Record ring_list := mk_rl {
  g_rings_head : option nat;
  next : gmap nat (option nat);
  pushing : gmap nat (nat * option nat)
}.

Inductive push_step : ring_list -> ring_list -> Prop :=
| push_load h nx ps th r :
    ps !! th = None -> nx !! r = None ->
    push_step (mk_rl h nx ps) (mk_rl h (<[r := h]> nx) (<[th := (r, h)]> ps))
| push_swap h nx ps th r :
    ps !! th = Some (r, h) ->
    push_step (mk_rl h nx ps) (mk_rl (Some r) nx (delete th ps))
| push_retry h nx ps th r h' :
    ps !! th = Some (r, h') ->
    push_step (mk_rl h nx ps) (mk_rl h (<[r := h]> nx) (<[th := (r, h)]> ps)).

(** The rings from a link on, as the flusher walks them. *)
Inductive ring_chain (nx : gmap nat (option nat)) : option nat -> list nat -> Prop :=
| chain_nil : ring_chain nx None []
| chain_cons r h l : nx !! r = Some h -> ring_chain nx h l -> ring_chain nx (Some r) (r :: l).

Definition rl_start : ring_list := mk_rl None ∅ ∅.

(** ** Rings and their history *)

(** The samples a ring was given, in order, and how many of them are read; pushes and
    drains follow each other in any order. *)
Inductive ring_history : TLS_Ring -> list Sample -> nat -> Prop :=
| rh_new pow2 tid : ring_history (new_ring pow2 tid) [] 0
| rh_push r h k m t a b : ring_history r h k -> ring_history (push_sample r m t a b) (h ++ [mk_sample (u8 m) (u8 t) 0 a b]) k
| rh_drain r h k : ring_history r h k -> ring_history (drain r).2 h (length h).

Record ring_inv (p : Z) (r : TLS_Ring) (h : list Sample) (k : nat) : Prop := {
  ri_p : 0 <= p <= 30;
  ri_capacity : capacity r = 2 ^ p;
  ri_write : write_idx r = u64 (Z.of_nat (length h));
  ri_read : read_idx r = u64 (Z.of_nat k) /\ (k <= length h)%nat;
  ri_slots : length (slots r) = Z.to_nat (2 ^ p);
  ri_holds j s : h !! j = Some s -> Z.of_nat (length h) - 2 ^ p <= Z.of_nat j ->
    slots r !! Z.to_nat (Z.of_nat j mod 2 ^ p) = Some s
}.

Lemma pow_pos p : 0 <= p -> 0 < 2 ^ p.
Proof. intros Hp. apply Z.pow_pos_nonneg; lia. Qed.

Lemma mask_mod (p n : Z) : 0 <= p <= 30 -> u64 n .& (2 ^ p - 1) = n mod 2 ^ p.
Proof.
  intros Hp. replace (2 ^ p - 1) with (Z.ones p) by (rewrite Z.ones_equiv; lia). rewrite Z.land_ones by lia. unfold u64.
  symmetry. apply Zmod_div_mod; [apply pow_pos; lia|lia|]. exists (2 ^ (64 - p)). rewrite <- Z.pow_add_r by lia. f_equal. lia.
Qed.

Lemma ring_capacity_pow pow2 : exists p, 4 <= p <= 30 /\ ring_capacity pow2 = 2 ^ p.
Proof.
  unfold ring_capacity. destruct ((pow2 <? 4) || (30 <? pow2)) eqn:Hb.
  - exists kCapacityPow2Default. split; [unfold kCapacityPow2Default; lia|done].
  - apply orb_false_iff in Hb as [H1 H2]. apply Z.ltb_ge in H1, H2. exists pow2. split; [lia|]. rewrite Z.shiftl_mul_pow2 by lia.
    change (u32 1) with 1. lia.
Qed.

Lemma u64_shift a b : u64 (u64 a + b) = u64 (a + b).
Proof. unfold u64. by rewrite Zplus_mod_idemp_l. Qed.

Lemma u64_minus a b : u64 (u64 a - u64 b) = u64 (a - b).
Proof. unfold u64. by rewrite <- Zminus_mod. Qed.

Lemma push_inv p r h k m t a b : ring_inv p r h k -> ring_inv p (push_sample r m t a b) (h ++ [mk_sample (u8 m) (u8 t) 0 a b]) k.
Proof.
  intros [I1 I2 I3 [I4 I4'] I5 I6]. pose proof (pow_pos p (proj1 I1)) as Hpos. split; cbn [push_sample claim_slot fill_slot capacity write_idx read_idx slots].
  - done.
  - done.
  - rewrite I3, u64_shift, length_app. cbn. f_equal. lia.
  - split; [done|]. rewrite length_app. lia.
  - by rewrite length_insert.
  - rewrite I2, I3, mask_mod by done. intros j s Hj Hle. rewrite length_app in Hle. cbn [length] in Hle.
    apply lookup_snoc_Some in Hj as [[Hlt Hj]|[-> <-]].
    + rewrite list_lookup_insert_ne; [apply I6; [done|lia]|]. intros E%Z2Nat.inj; [|apply Z.mod_pos_bound; lia..].
      assert (Hd : (Z.of_nat (length h) - Z.of_nat j) mod 2 ^ p = 0) by (rewrite Zminus_mod, E, Z.sub_diag; apply Z.mod_0_l; lia).
      rewrite Z.mod_small in Hd; lia.
    + apply list_lookup_insert_eq. rewrite I5. pose proof (Z.mod_pos_bound (Z.of_nat (length h)) (2 ^ p) Hpos). lia.
Qed.

Lemma history_inv r h k : ring_history r h k -> exists p, 4 <= p /\ ring_inv p r h k.
Proof.
  induction 1 as [pow2 tid|r h k m t a b _ (p & Hp & IH)|r h k _ (p & Hp & IH)].
  - destruct (ring_capacity_pow pow2) as (p & Hp & Hc). exists p. split; [lia|]. split; cbn; try done; try lia.
    by rewrite length_replicate, Hc.
  - exists p. split; [done|]. by apply push_inv.
  - exists p. split; [done|]. destruct IH as [I1 I2 I3 [I4 I4'] I5 I6]. by split.
Qed.

(** ** What a drain takes *)

Lemma drain_lookup p r h k i : ring_inv p r h k -> u64 (u64 (Z.of_nat k) + Z.of_nat i) .& (capacity r - 1) = Z.of_nat (k + i) mod 2 ^ p.
Proof. intros [I1 I2 I3 I4 I5 I6]. rewrite u64_shift, I2, mask_mod by done. f_equal. lia. Qed.

Definition drained_slot (p : Z) (r : TLS_Ring) (j : nat) : Sample := nth (Z.to_nat (Z.of_nat j mod 2 ^ p)) (slots r) zero_sample.

Lemma drain_as_map p r h k : ring_inv p r h k -> Z.of_nat (length h - k) < 2 ^ 64 ->
  (drain r).1 = drained_slot p r <$> seq k ((length h - k) `min` Z.to_nat (2 ^ p)).
Proof.
  intros Hinv Hlt. pose proof Hinv as [I1 I2 I3 [I4 I4'] I5 I6]. pose proof (pow_pos p (proj1 I1)) as Hpos.
  unfold drain. cbn [fst]. rewrite I3, I4, u64_minus, <- Nat2Z.inj_sub, (u64_id (Z.of_nat (length h - k))) by (try done; unfold fits_u64; lia).
  replace (seq k _) with (Nat.add k <$> seq 0 ((length h - k) `min` Z.to_nat (2 ^ p))) by (rewrite fmap_add_seq; f_equal; lia).
  rewrite <- list_fmap_compose.
  replace (Z.to_nat _) with ((length h - k) `min` Z.to_nat (2 ^ p))%nat
    by (rewrite I2; destruct (Z.ltb_spec (2 ^ p) (Z.of_nat (length h - k))); lia).
  apply list_fmap_ext. intros i j _. unfold compose, drained_slot. by rewrite (drain_lookup p r h k j Hinv).
Qed.

Lemma drained_slot_holds p r h k j s : ring_inv p r h k -> h !! j = Some s -> Z.of_nat (length h) - 2 ^ p <= Z.of_nat j -> drained_slot p r j = s.
Proof.
  intros [I1 I2 I3 I4 I5 I6] Hj Hle. unfold drained_slot. specialize (I6 j s Hj Hle). by apply nth_lookup_Some with (d := zero_sample) in I6.
Qed.

Lemma drain_all p r h k : ring_inv p r h k -> Z.of_nat (length h - k) <= 2 ^ p -> (drain r).1 = drop k h.
Proof.
  intros Hinv Hle. pose proof Hinv as [I1 I2 I3 [I4 I4'] I5 I6]. pose proof (pow_pos p (proj1 I1)) as Hpos.
  assert (Hp : 2 ^ p <= 2 ^ 30) by (apply Z.pow_le_mono_r; lia). rewrite (drain_as_map p r h k Hinv) by lia.
  rewrite Nat.min_l by lia. apply list_eq. intros i. rewrite list_lookup_fmap, lookup_drop. destruct (decide (i < length h - k)%nat) as [Hi|Hi].
  - rewrite lookup_seq_lt by done. cbn. destruct (lookup_lt_is_Some_2 h (k + i)) as [s Hs]; [lia|]. rewrite Hs. f_equal.
    eapply drained_slot_holds; eauto; lia.
  - rewrite lookup_seq_ge, lookup_ge_None_2 by lia. done.
Qed.

(** When the writer has lapped the reader: all slots, from the reader's place on. *)
Lemma drain_lapped p r h k : ring_inv p r h k -> 2 ^ p < Z.of_nat (length h - k) < 2 ^ 64 ->
  exists q, (drain r).1 = drop q (drop (length h - Z.to_nat (2 ^ p)) h) ++ take q (drop (length h - Z.to_nat (2 ^ p)) h).
Proof.
  intros Hinv Hlt. pose proof Hinv as [I1 I2 I3 [I4 I4'] I5 I6]. pose proof (pow_pos p (proj1 I1)) as Hpos.
  set (c := Z.to_nat (2 ^ p)). set (m := (length h - c)%nat). exists (Z.to_nat ((Z.of_nat k - Z.of_nat m) mod 2 ^ p)).
  set (q := Z.to_nat _). assert (Hq : (q < c)%nat) by (pose proof (Z.mod_pos_bound (Z.of_nat k - Z.of_nat m) (2 ^ p) Hpos); lia).
  rewrite (drain_as_map p r h k Hinv) by lia. fold c. rewrite Nat.min_r by lia.
  assert (Hlen : length (drop m h) = c) by (rewrite length_drop; lia).
  apply list_eq_same_length with c.
  - rewrite length_app, length_drop, length_take, Hlen. lia.
  - by rewrite length_fmap, length_seq.
  - intros i x y Hi Hx Hy. rewrite list_lookup_fmap, lookup_seq_lt in Hx by done. cbn in Hx. injection Hx as <-.
    assert (Hj : exists j, h !! j = Some y /\ (m <= j)%nat /\ Z.of_nat j mod 2 ^ p = Z.of_nat (k + i) mod 2 ^ p).
    { assert (Hbase : Z.of_nat (m + q) mod 2 ^ p = Z.of_nat k mod 2 ^ p).
      { rewrite Nat2Z.inj_add. unfold q. rewrite Z2Nat.id by (apply Z.mod_pos_bound; lia). rewrite Zplus_mod_idemp_r. f_equal. lia. }
      destruct (decide (i < c - q)%nat) as [Hlo|Hhi].
      - rewrite lookup_app_l, lookup_drop, lookup_drop in Hy by (rewrite length_drop, Hlen; lia). exists (m + (q + i))%nat. split; [done|]. split; [lia|].
        rewrite (Nat.add_assoc m q i), !(Nat2Z.inj_add _ i), <- (Zplus_mod_idemp_l (Z.of_nat (m + q))), Hbase. by rewrite Zplus_mod_idemp_l.
      - rewrite lookup_app_r, length_drop, Hlen in Hy by (rewrite length_drop, Hlen; lia). apply lookup_take_Some in Hy as [Hy _]. rewrite lookup_drop in Hy.
        exists (m + (i - (c - q)))%nat. split; [done|]. split; [lia|].
        replace (Z.of_nat (m + (i - (c - q)))) with (Z.of_nat (m + q) + Z.of_nat i + (-1) * 2 ^ p) by lia.
        rewrite Z.mod_add by lia. rewrite <- Zplus_mod_idemp_l, Hbase, Zplus_mod_idemp_l. f_equal. lia. }
    destruct Hj as (j & Hj & Hm & Hmod). unfold drained_slot. rewrite <- Hmod. eapply drained_slot_holds; eauto. lia.
Qed.

(** ** What a flush writes *)

Definition content (st : module_state) (dir : bytes) (i : Z) : list Sample := default [] (files st !! (dir, i)).

Lemma append_fds en new st i : method_fds (append en new st i) = method_fds st.
Proof. unfold append. destruct (List.filter _ _); [done|]. destruct (method_fds st !! i) eqn:E; [|done]. by destruct (pe_write en i). Qed.

Lemma append_content en new st i dir j : content (append en new st i) dir j =
  if decide (i = j /\ method_fds st !! i = Some dir /\ pe_write en i = true) then content st dir j ++ List.filter (of_method j) new else content st dir j.
Proof.
  unfold append. destruct (decide _) as [(-> & Hfd & Hw)|Hno].
  - rewrite Hfd, Hw. destruct (List.filter (of_method j) new) as [|s l] eqn:E; [by rewrite app_nil_r|]. unfold content. cbn [files].
    by rewrite lookup_insert_eq.
  - destruct (List.filter (of_method i) new); [done|]. destruct (method_fds st !! i) as [d|] eqn:Hfd; [|done].
    destruct (pe_write en i) eqn:Hw; [|done]. unfold content. cbn [files]. rewrite lookup_insert_ne; [done|]. intros [= -> ->]. naive_solver.
Qed.

Lemma appends en new ids st dir i : NoDup ids -> method_fds (foldl (append en new) st ids) = method_fds st /\
  content (foldl (append en new) st ids) dir i =
    if decide (i ∈ ids /\ method_fds st !! i = Some dir /\ pe_write en i = true) then content st dir i ++ List.filter (of_method i) new else content st dir i.
Proof.
  intros Hnd. revert st. induction ids as [|j ids IH]; intros st; cbn [foldl].
  { split; [done|]. rewrite decide_False; [done|]. intros [Hi _]. by apply elem_of_nil in Hi. }
  apply NoDup_cons in Hnd as [Hj Hnd]. destruct (IH Hnd (append en new st j)) as [-> ->]. rewrite append_fds, append_content. split; [done|].
  destruct (decide (i = j)) as [->|Hne].
  - rewrite (decide_False (P := j ∈ ids /\ _)) by naive_solver. repeat case_decide; try done; set_solver.
  - rewrite (decide_False (P := j = i /\ _)) by naive_solver. repeat case_decide; try done; set_solver.
Qed.

Lemma method_ids_nodup : NoDup method_ids.
Proof. apply (bool_decide_unpack _). vm_compute. done. Qed.

Lemma method_ids_elem i : i ∈ method_ids <-> 1 <= i <= kMethodCount.
Proof.
  unfold method_ids. rewrite list_elem_of_fmap. setoid_rewrite elem_of_seq. unfold kMethodCount. split.
  - intros (n & -> & Hn). lia.
  - intros Hi. exists (Z.to_nat i). lia.
Qed.

Lemma report_frame en wraps st : files (report_overflow en wraps st) = files st /\ method_fds (report_overflow en wraps st) = method_fds st.
Proof. unfold report_overflow. by destruct (_ <? _). Qed.

Lemma report_content en wraps st dir i : content (report_overflow en wraps st) dir i = content st dir i.
Proof. unfold content. by rewrite (proj1 (report_frame en wraps st)). Qed.

Lemma drain_history r h k : ring_history r h k -> Z.of_nat (length h - k) <= capacity r -> (drain r).1 = drop k h.
Proof. intros (p & _ & Hinv)%history_inv Hle. apply (drain_all p); [done|]. by rewrite (ri_capacity _ _ _ _ Hinv) in Hle. Qed.

(** Rings with what they were given and what is read of it. *)
Abbreviation histories := (list (list Sample * nat)).

Definition unread (hs : histories) : list Sample := concat ((fun hk => drop hk.2 hk.1) <$> hs).

(** a flush writes what is new.  When no ring was lapped since the last flush, every
    method's open file gets exactly the samples of that method pushed since then, ring by
    ring and in the order they were pushed; no other file changes, and no sample is left
    to be written again.  A ring that was lapped gives each of its last samples once. *)
Theorem flush_writes_unread (en : perf_env) (capture : bool) (rings : list TLS_Ring) (hs : histories) (st : module_state) :
  Forall2 (fun r hk => ring_history r hk.1 hk.2) rings hs ->
  let st1 := rotate_pending en capture st in
  let '(rings', st') := flush_once en capture rings st in
  Forall2 (fun r hk => ring_history r hk.1 (length hk.1)) rings' hs /\
  (Forall2 (fun r hk => Z.of_nat (length hk.1 - hk.2) <= capacity r) rings hs ->
   forall dir i, content st' dir i = content st1 dir i ++
     (if decide (1 <= i <= kMethodCount /\ method_fds st1 !! i = Some dir /\ pe_write en i = true) then List.filter (of_method i) (unread hs) else [])) /\
  Forall2 (fun r hk => capacity r < Z.of_nat (length hk.1 - hk.2) < 2 ^ 64 ->
     (drain r).1 ≡ₚ drop (length hk.1 - Z.to_nat (capacity r)) hk.1) rings hs.
Proof.
  intros Hh. cbn zeta. unfold flush_once. set (st1 := rotate_pending en capture st). split; [|split].
  - rewrite <- list_fmap_compose. apply Forall2_fmap_l. eapply Forall2_impl; [exact Hh|]. intros r hk Hr. by apply rh_drain with hk.2.
  - intros Hle dir i.
    assert (Hu : concat (drain <$> rings).*1 = unread hs).
    { unfold unread. f_equal. rewrite <- list_fmap_compose.
      apply list_eq_Forall2, Forall2_fmap_2. clear -Hh Hle. induction Hh as [|r hk rs hs Hr Hh IH]; [constructor|].
      apply Forall2_cons in Hle as [Hr' Hle]. constructor; [|by apply IH]. by apply drain_history. }
    rewrite Hu. destruct (appends en (unread hs) method_ids st1 dir i method_ids_nodup) as [_ Hc].
    rewrite report_content, Hc.
    destruct (decide _) as [Hd|Hd]; rewrite method_ids_elem in Hd; [by rewrite decide_True|by rewrite decide_False, app_nil_r].
  - eapply Forall2_impl; [exact Hh|]. intros r hk (p & _ & Hinv)%history_inv Hlt. rewrite (ri_capacity _ _ _ _ Hinv) in Hlt |- *.
    destruct (drain_lapped p r hk.1 hk.2 Hinv Hlt) as [q ->]. rewrite (Permutation_app_comm (drop q _)). by rewrite take_drop.
Qed.

(** ** The list of rings *)

Record rl_inv (s : ring_list) (l : list nat) : Prop := {
  rl_chain : ring_chain (next s) (g_rings_head s) l;
  rl_nodup : NoDup l;
  rl_pending th r h : pushing s !! th = Some (r, h) -> next s !! r = Some h /\ r ∉ l;
  rl_own th th' r h h' : pushing s !! th = Some (r, h) -> pushing s !! th' = Some (r, h') -> th = th';
  rl_all r : is_Some (next s !! r) -> r ∈ l \/ exists th h, pushing s !! th = Some (r, h)
}.

Lemma chain_linked nx h l r : ring_chain nx h l -> r ∈ l -> is_Some (nx !! r).
Proof. induction 1 as [|r' h' l Hr Hc IH]; [by intros ?%elem_of_nil|]. intros [->|Hin]%elem_of_cons; [by exists h'|auto]. Qed.

Lemma chain_insert nx h l r x : ring_chain nx h l -> r ∉ l -> ring_chain (<[r := x]> nx) h l.
Proof.
  induction 1 as [|r' h' l Hr Hc IH]; [constructor|]. intros [Hne Hni]%not_elem_of_cons.
  apply chain_cons with h'; [by rewrite lookup_insert_ne by done|auto].
Qed.

(** A ring that one thread at most is pushing can be linked anew by it. *)
Lemma relink h nx ps l th r (h' : option nat) : rl_inv (mk_rl h nx ps) l -> r ∉ l ->
  (forall th' r' x, ps !! th' = Some (r', x) -> r' = r <-> th' = th) ->
  rl_inv (mk_rl h (<[r := h']> nx) (<[th := (r, h')]> ps)) l.
Proof.
  intros [R1 R2 R3 R4 R5] Hr Hown. cbn in *. split; cbn.
  - by apply chain_insert.
  - done.
  - intros th' r' x [[<- [= <- <-]]|[Hne Hl]]%lookup_insert_Some; [by rewrite lookup_insert_eq|].
    destruct (R3 _ _ _ Hl) as [Hn Hni]. rewrite lookup_insert_ne; [done|]. intros ->. by apply Hne, eq_sym, (Hown th' r' x Hl).
  - intros t1 t2 r' x y [[<- [= <- <-]]|[H1 L1]]%lookup_insert_Some [[<- E]|[H2 L2]]%lookup_insert_Some.
    + done.
    + symmetry. by apply (Hown t2 r y L2).
    + injection E as <- <-. by apply (Hown t1 r x L1).
    + by apply (R4 t1 t2 r' x y).
  - intros r'. rewrite lookup_insert_is_Some. intros [->|[Hne Hs]].
    + right. exists th, h'. apply lookup_insert_eq.
    + destruct (R5 _ Hs) as [?|(t' & x & Hx)]; [by left|right]. exists t', x. rewrite lookup_insert_ne; [done|].
      intros <-. by apply Hne, eq_sym, (Hown th r' x Hx).
Qed.

Lemma push_step_inv s s' l : rl_inv s l -> push_step s s' -> exists l', rl_inv s' l'.
Proof.
  intros Hinv Hs. destruct Hs as [h nx ps th r Hth Hr|h nx ps th r Hth|h nx ps th r h' Hth].
  - exists l. assert (Hr' : r ∉ l) by (intros Hin; destruct (chain_linked _ _ _ _ (rl_chain _ _ Hinv) Hin) as [x Hx]; cbn in Hx; congruence).
    apply relink; [done..|]. intros th' r' x Hl. split; [|congruence]. intros ->. destruct (rl_pending _ _ Hinv _ _ _ Hl). cbn in *. congruence.
  - exists (r :: l). pose proof Hinv as [R1 R2 R3 R4 R5]. cbn in *. destruct (R3 _ _ _ Hth) as [Hn Hni]. split; cbn.
    + by apply chain_cons with h.
    + by constructor.
    + intros th' r' x [Hne Hl]%lookup_delete_Some. destruct (R3 _ _ _ Hl) as [Hn' Hni']. split; [done|]. apply not_elem_of_cons. split; [|done].
      intros ->. by apply Hne, (R4 th th' r h x).
    + intros t1 t2 r' x y [_ L1]%lookup_delete_Some [_ L2]%lookup_delete_Some. by apply (R4 t1 t2 r' x y).
    + intros r' Hs. destruct (decide (r' = r)) as [->|Hne]; [left; by left|]. destruct (R5 _ Hs) as [?|(t' & x & Hx)]; [left; by right|right].
      exists t', x. apply lookup_delete_Some. split; [|done]. intros <-. congruence.
  - exists l. destruct (rl_pending _ _ Hinv _ _ _ Hth) as [_ Hni]. apply relink; [done..|]. intros th' r' x Hl. cbn in *.
    split; [|intros ->; congruence]. intros ->. by apply (rl_own _ _ Hinv th' th r x h').
Qed.

(** no ring is lost.  However the compare-and-swap loops of the threads interleave, the
    flusher's walk from the head ends and visits every ring whose push is complete exactly
    once. *)
Theorem rings_reachable (s : ring_list) : rtc push_step rl_start s ->
  exists l, ring_chain (next s) (g_rings_head s) l /\ NoDup l /\
    forall r, r ∈ l <-> is_Some (next s !! r) /\ forall th h, pushing s !! th <> Some (r, h).
Proof.
  intros Hs. assert (Hinv : exists l, rl_inv s l).
  { revert Hs. apply (rtc_invariant push_step (fun s => exists l, rl_inv s l)); [intros x y [l Hl] Hxy; by apply (push_step_inv x y l)|].
    exists []. split; cbn; [constructor|constructor|..]; try (intros ? ? ? Hl; by rewrite lookup_empty in Hl).
    - intros ? ? ? ? ? Hl. by rewrite lookup_empty in Hl.
    - intros r [x Hx]. by rewrite lookup_empty in Hx. }
  destruct Hinv as [l [R1 R2 R3 R4 R5]]. exists l. do 2 (split; [done|]). intros r. split.
  - intros Hin. split; [by eapply chain_linked|]. intros th h Hl. by destruct (R3 _ _ _ Hl).
  - intros [Hsome Hno]. destruct (R5 r Hsome) as [?|(th & h & Hl)]; [done|]. by destruct (Hno th h).
Qed.

(** ** Witnesses and findings *)

(** Two threads push a ring each; the second has to retry. *)
Definition two_rings : ring_list := mk_rl (Some 1%nat) {[0%nat := None; 1%nat := Some 0%nat]} ∅.

Lemma two_rings_reachable : rtc push_step rl_start two_rings.
Proof.
  eapply rtc_l; [apply (push_load None ∅ ∅ 0 0); reflexivity|]. eapply rtc_l; [apply (push_load None _ _ 1 1); reflexivity|].
  eapply rtc_l; [apply (push_swap None _ _ 0 0); reflexivity|]. eapply rtc_l; [apply (push_retry (Some 0%nat) _ _ 1 1 None); reflexivity|].
  eapply rtc_l; [apply (push_swap (Some 0%nat) _ _ 1 1); reflexivity|]. apply rtc_refl.
Qed.

Lemma rings_reachable_witness : exists l, ring_chain (next two_rings) (g_rings_head two_rings) l /\ NoDup l.
Proof. destruct (rings_reachable two_rings two_rings_reachable) as (l & Hc & Hn & _). by exists l. Defined.

Definition perf_ok : perf_env := mk_perf_env (fun _ => true) (fun _ => true) (fun _ _ => true) (fun _ => true) 100.
Definition demo_module : module_state := init perf_ok (Some [47; 112]) (mk_module [] [] ∅ ∅ 0 0 0).
Definition demo_ring : TLS_Ring := push_sample (push_sample (new_ring 4 7) 1 7 10 20) 2 7 20 25.
Definition demo_history : list Sample * nat := ([mk_sample 1 7 0 10 20; mk_sample 2 7 0 20 25], O).

Lemma demo_ring_history : Forall2 (fun r hk => ring_history r hk.1 hk.2) [demo_ring] [demo_history].
Proof. constructor; [|constructor]. apply (rh_push _ [_] 0 2 7), (rh_push _ [] 0 1 7), rh_new. Qed.

Lemma flush_writes_unread_witness :
  content (flush_once perf_ok true [demo_ring] demo_module).2 [47; 112] 2 = [mk_sample 2 7 0 20 25].
Proof.
  pose proof (flush_writes_unread perf_ok true [demo_ring] [demo_history] demo_module demo_ring_history) as Hf. cbn zeta in Hf.
  destruct (flush_once perf_ok true [demo_ring] demo_module) as [rs st'] eqn:E. destruct Hf as (_ & Hc & _). cbn [snd].
  rewrite Hc by (constructor; [vm_compute; done|constructor]). vm_compute. reflexivity.
Defined.

(** A slot is claimed before it is written: a flush in between takes what the slot held
    before, and the sample that is written then is never taken. *)
Lemma claimed_sample_lost :
  let '(i, r) := claim_slot (new_ring 4 7) in
  let '(out, r) := drain r in
  let r := fill_slot i (mk_sample 1 7 0 10 20) r in
  out = [zero_sample] /\ (drain r).1 = [].
Proof. vm_compute. done. Qed.

(** After a lap the oldest sample of the ring is not the first that is taken. *)
Lemma lapped_order :
  let r := foldl (fun r i => push_sample r 1 0 (Z.of_nat i) 0) (new_ring 4 7) (seq 0 17) in
  enter_tsc <$> take 2 (drain r).1 = [16; 1].
Proof. vm_compute. done. Qed.

(** Samples of a method whose file is not open are taken from the ring and written nowhere. *)
Lemma closed_file_drops : let en := mk_perf_env (fun _ => false) (fun _ => true) (fun _ _ => true) (fun _ => true) 100 in
  let '(rs, st) := flush_once en true [demo_ring] (mk_module [] [47] ∅ ∅ 0 0 0) in files st = ∅ /\ (drain (nth 0 rs demo_ring)).1 = [].
Proof. vm_compute. done. Qed.
