(* ===== verification/Statement.v ===== *)
(** * Statements (ha_tidesdb.cc 3883-3935, 7557-7627, 7761-7786, 9143-9390)

    What the server calls at the borders of a statement: [store_lock] and [external_lock]
    with the choice of the isolation level, [ensure_stmt_txn] for calls that come without
    them, [extra] and [idx_cond_push].  The end of a statement decides whether the
    handler's iterators may serve the next one; the theorem is that what they then show is
    what the isolation level promises. *)

From Stdlib Require Import ZArith Lia.
From stdpp Require Import base tactics list numbers gmap sets relations functions.
From S2P Require Import Prelude Errors KeyCodec Scan Options Txn Reads ReadsProof ReadsExamples.

(** ** The session and the handler *)

Inductive sql_command :=
| SQLCOM_ALTER_TABLE | SQLCOM_CREATE_INDEX | SQLCOM_DROP_INDEX | SQLCOM_TRUNCATE | SQLCOM_OPTIMIZE
| SQLCOM_CREATE_TABLE | SQLCOM_DROP_TABLE | SQLCOM_OTHER.

Definition is_ddl (c : sql_command) : bool := match c with SQLCOM_OTHER => false | _ => true end.

(** What the calls on the THD return; [multi] is
    [thd_test_options(thd, OPTION_NOT_AUTOCOMMIT | OPTION_BEGIN)]. *)
Record session := mk_session { sql_cmd : sql_command; multi : bool; session_iso : Z; now : Z }.

Inductive lock_kind := F_UNLCK | F_RDLCK | F_WRLCK.

(** The kinds of table lock that [store_lock] tells apart. *)
Inductive thr_lock_type := TL_READ | TL_READ_WITH_SHARED_LOCKS | TL_WRITE.

Definition iso_rank (i : tidesdb_isolation_level_t) : nat :=
  match i with
  | TDB_ISOLATION_READ_UNCOMMITTED => 0 | TDB_ISOLATION_READ_COMMITTED => 1 | TDB_ISOLATION_REPEATABLE_READ => 2
  | TDB_ISOLATION_SNAPSHOT => 3 | TDB_ISOLATION_SERIALIZABLE => 4
  end.

Section Statement.
Context {E T D It Rec : Type} `{TxnEngine E T D, IterOps It, RowReads Rec}.

Notation trx := (tidesdb_trx_t (T := T)).
Notation conn := (conn (E := E) (T := T)).

(** [cached_stmt] is [None] when [cached_stmt_shape_valid_] is false, [cached_time]
    likewise; [cached_trx] stands for [cached_thd_] and [cached_trx_]. *)
Record handler := mk_handler {
  h_read : hread It Rec;
  dup_iter_cache : gmap nat It;
  stmt_txn : option Z;
  stmt_txn_dirty : bool;
  stmt_has_write_lock : bool;
  cached_stmt : option (sql_command * bool);
  cached_trx : bool;
  enc_key_ver_valid : bool;
  cached_time : option Z;
  cached_thdvars_valid : bool;
  trx_registered : bool;
  write_can_replace : bool
}.

(** [ha_tidesdb::ha_tidesdb], for the fields modelled here. *)
Definition new_handler (max_key : nat) : handler :=
  mk_handler (mk_hread max_key false false DIR_NONE None None None None [] [] None false false None) ∅ None false false None false false None
    false false false.

Definition with_read (r : hread It Rec) (h : handler) : handler :=
  mk_handler r (dup_iter_cache h) (stmt_txn h) (stmt_txn_dirty h) (stmt_has_write_lock h) (cached_stmt h) (cached_trx h) (enc_key_ver_valid h)
    (cached_time h) (cached_thdvars_valid h) (trx_registered h) (write_can_replace h).

(** The level a statement asks for: [ensure_stmt_txn] also looks at pessimistic locking
    itself, [external_lock] leaves that to [resolve_effective_isolation]. *)
Definition wanted_iso (pessimistic : bool) (s : session) (cmd : sql_command) (autocommit : bool) (table_iso : tidesdb_isolation_level_t)
    : tidesdb_isolation_level_t :=
  if is_ddl cmd || autocommit then TDB_ISOLATION_READ_COMMITTED
  else resolve_effective_isolation pessimistic (session_iso s) table_iso.

(** [addr] is the address of the connection's handle. *)
Definition ensure_stmt_txn (alloc pessimistic : bool) (s : session) (table_iso : tidesdb_isolation_level_t) (addr : Z) (h : handler) (c : conn)
    : ha_rc * handler * conn :=
  match stmt_txn h with
  | Some _ => (HA_OK, h, c)
  | None =>
    let '(cmd, autocommit) := match cached_stmt h with Some x => x | None => (sql_cmd s, negb (multi s)) end in
    let iso := if is_ddl cmd || autocommit then TDB_ISOLATION_READ_COMMITTED
               else if pessimistic then TDB_ISOLATION_READ_COMMITTED
               else resolve_effective_isolation pessimistic (session_iso s) table_iso in
    let '(ok, c) := get_or_create_trx alloc iso c in
    if (ok : bool)
    then (HA_OK, mk_handler (h_read h) (dup_iter_cache h) (Some addr) (stmt_txn_dirty h) (stmt_has_write_lock h) (cached_stmt h) (cached_trx h)
                   (enc_key_ver_valid h) (cached_time h) (cached_thdvars_valid h) (trx_registered h) (write_can_replace h), c)
    else (HA_ERR_OUT_OF_MEM, h, c)
  end.

(** The beginning of a statement; the last result says whether the engine is registered
    for the statement and for the transaction. *)
Definition lock_statement (alloc pessimistic : bool) (s : session) (table_iso : tidesdb_isolation_level_t) (addr : Z) (write : bool)
    (h : handler) (c : conn) : ha_rc * handler * conn * option (bool * bool) :=
  let autocommit := negb (multi s) in
  let shape := Some (sql_cmd s, autocommit) in
  let '(ok, c) := get_or_create_trx alloc (wanted_iso pessimistic s (sql_cmd s) autocommit table_iso) c in
  if (ok : bool)
  then (HA_OK, mk_handler (h_read h) (dup_iter_cache h) (Some addr) false (stmt_has_write_lock h || write) shape true
                 (enc_key_ver_valid h) (cached_time h) (cached_thdvars_valid h) (trx_registered h) (write_can_replace h), c,
        Some (true, negb autocommit))
  else (HA_ERR_OUT_OF_MEM, mk_handler (h_read h) (dup_iter_cache h) (stmt_txn h) (stmt_txn_dirty h) (stmt_has_write_lock h) shape (cached_trx h)
                 (enc_key_ver_valid h) (cached_time h) (cached_thdvars_valid h) (trx_registered h) (write_can_replace h), c, None).

(** The level of the cached transaction keeps one view for all statements. *)
Definition frozen_view (h : handler) (c : conn) : bool :=
  cached_trx h && match c.1 with Some x => Nat.leb (iso_rank TDB_ISOLATION_REPEATABLE_READ) (iso_rank (isolation_level x)) | None => false end.

(** The end of a statement; [update_time] is the share's. *)
Definition unlock_statement (s : session) (h : handler) (c : conn) (update_time : Z) : handler * Z :=
  let in_multi_stmt := match cached_stmt h with Some (_, autocommit) => negb autocommit | None => multi s end in
  let drop := negb in_multi_stmt || stmt_txn_dirty h || negb (frozen_view h c) in
  let r := if drop then set_iter None (h_read h) else h_read h in
  let dups := if drop then ∅ else dup_iter_cache h in
  let update_time := if stmt_txn_dirty h then default (now s) (cached_time h) else update_time in
  (mk_handler r dups None false false None false false None false (trx_registered h && in_multi_stmt) (write_can_replace h), update_time).

Definition external_lock (alloc pessimistic : bool) (s : session) (table_iso : tidesdb_isolation_level_t) (addr : Z) (lock_type : lock_kind)
    (h : handler) (c : conn) (update_time : Z) : ha_rc * handler * conn * Z * option (bool * bool) :=
  match lock_type with
  | F_UNLCK => let '(h, update_time) := unlock_statement s h c update_time in (HA_OK, h, c, update_time, None)
  | _ =>
    let '(rc, h, c, reg) := lock_statement alloc pessimistic s table_iso addr (match lock_type with F_WRLCK => true | _ => false end) h c in
    (rc, h, c, update_time, reg)
  end.

(** Locking reads ask for row locks. *)
Definition store_lock (lock_type : thr_lock_type) (h : handler) : handler :=
  match lock_type with
  | TL_READ => h
  | _ => mk_handler (h_read h) (dup_iter_cache h) (stmt_txn h) (stmt_txn_dirty h) true (cached_stmt h) (cached_trx h) (enc_key_ver_valid h)
           (cached_time h) (cached_thdvars_valid h) (trx_registered h) (write_can_replace h)
  end.

Inductive ha_extra_function :=
| HA_EXTRA_KEYREAD | HA_EXTRA_NO_KEYREAD | HA_EXTRA_WRITE_CAN_REPLACE | HA_EXTRA_INSERT_WITH_UPDATE | HA_EXTRA_WRITE_CANNOT_REPLACE
| HA_EXTRA_PREPARE_FOR_DROP | HA_EXTRA_OTHER.

Definition set_keyread (b : bool) (r : hread It Rec) : hread It Rec :=
  mk_hread (active_index r) (is_pk_ r) (idx_pk_exact_done_ r) (scan_dir_ r) (scan_txn r) (scan_cf_ r) (scan_iter r) (scan_iter_last_err r)
    (current_pk_buf r) (idx_search_comp r) (pushed_idx_cond_keyno r) (in_range_check_pushed_down r) b (row_buf r).

Definition set_replace (b : bool) (h : handler) : handler :=
  mk_handler (h_read h) (dup_iter_cache h) (stmt_txn h) (stmt_txn_dirty h) (stmt_has_write_lock h) (cached_stmt h) (cached_trx h) (enc_key_ver_valid h)
    (cached_time h) (cached_thdvars_valid h) (trx_registered h) b.

Definition extra (operation : ha_extra_function) (h : handler) : handler :=
  match operation with
  | HA_EXTRA_KEYREAD => with_read (set_keyread true (h_read h)) h
  | HA_EXTRA_NO_KEYREAD => with_read (set_keyread false (h_read h)) h
  | HA_EXTRA_WRITE_CAN_REPLACE => set_replace true h
  | HA_EXTRA_WRITE_CANNOT_REPLACE => set_replace false h
  | _ => h
  end.

(** The condition is taken for a secondary index and left to the server for the primary
    key; the result says whether it is left. *)
Definition idx_cond_push (primary_key : option nat) (keyno : nat) (h : handler) : bool * handler :=
  if bool_decide (primary_key = Some keyno) then (true, h)
  else (false, with_read (set_pushed (Some keyno) true (h_read h)) h).

(** A row change marks the statement and the transaction. *)
Definition mark_dirty (h : handler) (c : conn) : handler * conn :=
  (mk_handler (h_read h) (dup_iter_cache h) (stmt_txn h) true (stmt_has_write_lock h) (cached_stmt h) (cached_trx h) (enc_key_ver_valid h)
     (cached_time h) (cached_thdvars_valid h) (trx_registered h) (write_can_replace h),
   (match c.1 with
    | Some x => Some (if cached_trx h
                      then mk_trx (txn x) true (stmt_savepoint_active x) true (needs_reset x) (isolation_level x) (txn_generation x) (row_locks x)
                      else x)
    | None => None
    end, c.2)).

(** [maybe_bulk_commit], the handler's part of it: what it keeps of the old transaction is let go. *)
Definition bulk_commit (addr : Z) (h : handler) (c : conn) : ha_rc * handler * conn :=
  if match c.1 with Some x => bool_decide (is_Some (txn x)) | None => false end then
    let '(rc, c) := maybe_bulk_commit c in
    match rc with
    | HA_OK => (HA_OK, mk_handler (set_scan (Some addr) (scan_cf_ (h_read h)) (set_iter None (h_read h))) ∅ (Some addr) (stmt_txn_dirty h)
                         (stmt_has_write_lock h) (cached_stmt h) (cached_trx h) (enc_key_ver_valid h) (cached_time h) (cached_thdvars_valid h)
                         (trx_registered h) (write_can_replace h), c)
    | _ => (rc, h, c)
    end
  else (HA_OK, h, c).

End Statement.
Arguments handler : clear implicits.
Arguments mk_handler {It Rec}.

(** ** What the handler's iterators show

    A session has one transaction and any number of handler instances, one per table in use and
    more when a statement names a table twice.  An iterator shows what was there when it was
    made: the changes of the session's transaction so far, and what others had committed.  Both
    are counted, the own changes by versions: every row change and every change that is taken
    back (a rollback to a savepoint, TRUNCATE) makes a new version.  [view] reads the version and
    the number of commits off an iterator. *)

Section Views.
Context {E T D It Rec : Type} `{TxnEngine E T D, IterOps It, RowReads Rec}.
Context (sh : read_share) (view : It -> nat * nat).

Notation trx := (tidesdb_trx_t (T := T)).
Notation conn := (conn (E := E) (T := T)).

(** What holds when a statement begins: the version, the commits of others, and the version of
    the last change that did not come through this instance. *)
Record stmt := mk_stmt { st_own : nat; st_com : nat; st_ext : nat }.

(** An instance of the handler, its running statement, and the last version that did not come
    through it. *)
Record inst := mk_inst { i_h : handler It Rec; i_stmt : option stmt; i_ext : nat }.

Record world := mk_world {
  w_inst : nat -> inst;
  w_c : conn;
  w_own : nat;                         (* the version of the session's changes *)
  w_com : nat                          (* commits of others *)
}.

Definition gen_of (c : conn) : Z := match c.1 with Some x => txn_generation x | None => 0 end.

Definition frozen (c : conn) : bool :=
  match c.1 with Some x => Nat.leb (iso_rank TDB_ISOLATION_REPEATABLE_READ) (iso_rank (isolation_level x)) | None => false end.

(** What a scan gets from the connection: iterators that show the present. *)
Definition env_ok (en : read_env It) (w : world) : Prop :=
  en_gen en = gen_of (w_c w) /\ forall cf it, en_iter_new en cf = (TDB_SUCCESS, it) -> view it = (w_own w, w_com w).

(** The hooks that end, prepare or save a transaction, and those that get one. *)
Inductive hook : conn -> conn -> Prop :=
| hook_get alloc iso c ok c' : get_or_create_trx alloc iso c = (ok, c') -> hook c c'
| hook_prepare all multi x c : hook c (tidesdb_prepare all multi x c).2
| hook_commit all multi c : hook c (tidesdb_commit all multi c).2
| hook_rollback all multi c : hook c (tidesdb_rollback all multi c).2
| hook_flush c : hook c (tidesdb_flush_engine_txn_before_cf_mutation c)
| hook_backup c : hook c (backup_free_txn c)
| hook_set sv c : hook c (tidesdb_savepoint_set sv c).2
| hook_release sv c : hook c (tidesdb_savepoint_release sv c).2.

(** What takes changes of the transaction back and leaves its generation. *)
Inductive take_back : conn -> conn -> Prop :=
| back_savepoint sv c : take_back c (tidesdb_savepoint_rollback sv c).2
| back_truncate c : take_back c (truncate_free_txn c).

(** A change of version that did not come through an instance. *)
Definition foreign (v : nat) (x : inst) : inst := mk_inst (i_h x) (i_stmt x) v.

Inductive step : world -> world -> Prop :=
| s_open i n ws c own com : step (mk_world ws c own com) (mk_world (<[i := mk_inst (new_handler n) None 0]> ws) c own com)
| s_lock i alloc pess s iso addr write ws c own com rc h' c' reg :
    i_stmt (ws i) = None -> lock_statement alloc pess s iso addr write (i_h (ws i)) c = (rc, h', c', reg) -> gen_of c + 1 < 2 ^ 64 ->
    step (mk_world ws c own com)
         (mk_world (<[i := mk_inst h' (match rc with HA_OK => Some (mk_stmt own com (i_ext (ws i))) | _ => None end) (i_ext (ws i))]> ws) c' own com)
| s_table_scan i en ws c own com : is_Some (i_stmt (ws i)) -> env_ok en (mk_world ws c own com) ->
    step (mk_world ws c own com)
         (mk_world (<[i := mk_inst (with_read (rnd_init en (h_read (i_h (ws i)))).2 (i_h (ws i))) (i_stmt (ws i)) (i_ext (ws i))]> ws) c own com)
| s_index_scan i en k ws c own com : is_Some (i_stmt (ws i)) -> env_ok en (mk_world ws c own com) ->
    step (mk_world ws c own com)
         (mk_world (<[i := mk_inst (with_read (with_iter en (fun r => (HA_OK, r)) (index_init sh en k (h_read (i_h (ws i)))).2).2 (i_h (ws i)))
                             (i_stmt (ws i)) (i_ext (ws i))]> ws) c own com)
| s_write i ws c own com : is_Some (i_stmt (ws i)) ->
    step (mk_world ws c own com)
         (mk_world (<[i := mk_inst (mark_dirty (i_h (ws i)) c).1 (i_stmt (ws i)) (i_ext (ws i))]> (foreign (S own) ∘ ws))
            (mark_dirty (i_h (ws i)) c).2 (S own) com)
| s_bulk i addr ws c own com rc h' c' :
    is_Some (i_stmt (ws i)) -> stmt_txn_dirty (i_h (ws i)) = true -> bulk_commit addr (i_h (ws i)) c = (rc, h', c') -> gen_of c + 1 < 2 ^ 64 ->
    step (mk_world ws c own com) (mk_world (<[i := mk_inst h' (i_stmt (ws i)) (i_ext (ws i))]> ws) c' own com)
| s_unlock i s ws c own com ut : is_Some (i_stmt (ws i)) ->
    step (mk_world ws c own com) (mk_world (<[i := mk_inst (unlock_statement s (i_h (ws i)) c ut).1 None (i_ext (ws i))]> ws) c own com)
| s_hook ws c own com c' : hook c c' -> gen_of c + 1 < 2 ^ 64 -> step (mk_world ws c own com) (mk_world ws c' own com)
| s_back ws c own com c' : take_back c c' -> step (mk_world ws c own com) (mk_world (foreign (S own) ∘ ws) c' (S own) com)
| s_others ws c own com : step (mk_world ws c own com) (mk_world ws c own (S com)).

Definition start (max_key : nat) (e : E) : world := mk_world (fun _ => mk_inst (new_handler max_key) None 0) (None, e) 0 0.

(** ** Generations *)

(** A hook keeps the transaction, or counts its generation on. *)
Definition gen_step (c c' : conn) : Prop :=
  match c.1, c'.1 with
  | Some x, Some x' => (txn_generation x' = txn_generation x /\ isolation_level x' = isolation_level x) \/ txn_generation x' = bump x
  | Some _, None => False
  | None, Some x' => txn_generation x' = 1
  | None, None => True
  end.

Lemma get_gen alloc iso c ok c' : get_or_create_trx alloc iso c = (ok, c') -> gen_step c c'.
Proof.
  destruct c as [[x|] e]; unfold get_or_create_trx, gen_step; repeat (case_match; simplify_eq); intros; simplify_eq; cbn in *; simplify_eq; auto.
Qed.

Lemma hook_gen c c' : hook c c' -> gen_step c c'.
Proof.
  intros Hh. destruct Hh as [alloc iso c ok c' Hg|all multi sx c|all multi c|all multi c|c|c|sv c|sv c]; [by eapply get_gen|..].
  all: destruct c as [[x|] e]; unfold gen_step, tidesdb_prepare, tidesdb_commit, commit_single_phase, tidesdb_rollback,
         tidesdb_flush_engine_txn_before_cf_mutation, backup_free_txn, tidesdb_savepoint_set, tidesdb_savepoint_release;
    repeat (case_match; simplify_eq); cbn in *; simplify_eq; auto.
Qed.

Lemma bulk_gen addr (h : handler It Rec) c rc h' c' : bulk_commit addr h c = (rc, h', c') -> gen_step c c'.
Proof.
  unfold bulk_commit. intros Hb. assert (Hg : gen_step c (maybe_bulk_commit c).2).
  { destruct c as [[x|] e]; unfold gen_step, maybe_bulk_commit; repeat (case_match; simplify_eq); cbn in *; simplify_eq; auto. }
  destruct (match c.1 with Some x => _ | None => _ end).
  - destruct (maybe_bulk_commit c) as [rc0 c0]. destruct rc0; by simplify_eq.
  - simplify_eq. unfold gen_step. destruct c' as [[x|] e]; cbn; auto.
Qed.

(** What is taken back stays in the generation. *)
Lemma back_gen c c' : take_back c c' -> gen_of c' = gen_of c /\ frozen c' = frozen c /\ (is_Some c.1 <-> is_Some c'.1).
Proof.
  intros Hb. destruct Hb as [sv c|c]; destruct c as [[x|] e]; unfold tidesdb_savepoint_rollback, truncate_free_txn, gen_of, frozen;
    repeat (case_match; simplify_eq); cbn in *; simplify_eq; try done.
Qed.

(** ** The invariant *)

(** An iterator of the present generation: in a statement it shows the changes made before it,
    unless the last change through another instance is newer; between statements it shows all
    changes, with the same exception, and the isolation level keeps one view. *)
Definition iter_ok (c : conn) (own com : nat) (x : inst) (it : It) : Prop :=
  ((view it).1 <= own)%nat /\
  match i_stmt x with
  | Some st => ((st_ext st <= (view it).1)%nat -> (st_own st <= (view it).1)%nat) /\ (frozen c = false -> (st_com st <= (view it).2)%nat)
  | None => ((i_ext x <= (view it).1)%nat -> (view it).1 = own) /\ frozen c = true
  end.

Record inst_ok (c : conn) (own com : nat) (x : inst) : Prop := {
  io_iter sl : scan_iter (h_read (i_h x)) = Some sl -> is_Some c.1 /\ sl_gen sl <= gen_of c /\ (sl_gen sl = gen_of c -> iter_ok c own com x (sl_it sl));
  io_ext : (i_ext x <= own)%nat;
  io_stmt st : i_stmt x = Some st -> (st_own st <= own)%nat /\ (st_ext st <= i_ext x)%nat /\ (st_com st <= com)%nat /\ is_Some c.1 /\
    (stmt_txn_dirty (i_h x) = false -> own = Nat.max (st_own st) (i_ext x))
}.

Record world_ok (w : world) : Prop := {
  wo_gen : 0 <= gen_of (w_c w) < 2 ^ 64;
  wo_inst i : inst_ok (w_c w) (w_own w) (w_com w) (w_inst w i)
}.

(** One instance changes. *)
Lemma set_inst ws c own com i x : world_ok (mk_world ws c own com) -> inst_ok c own com x -> world_ok (mk_world (<[i := x]> ws) c own com).
Proof.
  intros [W1 W2] Hx. split; [done|]. intros j. cbn in *. destruct (decide (j = i)) as [->|Hne]; [by rewrite fn_lookup_insert|].
  rewrite fn_lookup_insert_ne by done. apply W2.
Qed.

Lemma gen_step_cases (c c' : conn) : gen_step c c' -> 0 <= gen_of c -> gen_of c + 1 < 2 ^ 64 ->
  (gen_of c' = gen_of c /\ frozen c' = frozen c /\ (is_Some c.1 <-> is_Some c'.1)) \/ (gen_of c < gen_of c' < 2 ^ 64 /\ is_Some c'.1).
Proof.
  unfold gen_step, gen_of, frozen. destruct c as [[x|] e], c' as [[x'|] e']; cbn; intros Hg Hx0 Hx1; try done.
  - destruct Hg as [[-> ->]| ->]; [by left|right]. unfold bump. rewrite u64_id by (unfold fits_u64; lia). split; [lia|done].
  - right. rewrite Hg. split; [lia|done].
  - by left.
Qed.

(** Iterators of a state that come from those before or are new. *)
Definition iters_from (en : read_env It) (r r' : hread It Rec) : Prop := forall sl', scan_iter r' = Some sl' ->
  (exists sl, scan_iter r = Some sl /\ sl_gen sl' = sl_gen sl /\ view (sl_it sl') = view (sl_it sl)) \/
  (exists cf it, en_iter_new en cf = (TDB_SUCCESS, it) /\ sl_gen sl' = en_gen en /\ view (sl_it sl') = view it).

Context (view_seek : forall k it, view (tdb_iter_seek k it) = view it).

Lemma keep_from en c (r : hread It Rec) sl : scan_iter (keep_iter en c r) = Some sl -> scan_iter r = Some sl /\ sl_gen sl = en_gen en.
Proof.
  unfold keep_iter. destruct (scan_iter r) as [s|] eqn:Hs; [|by rewrite Hs]. destruct (_ || _ || _) eqn:Hk; [done|].
  rewrite Hs. intros [= ->]. apply orb_false_iff in Hk as [_ Hk]. apply negb_false_iff, Z.eqb_eq in Hk. done.
Qed.

Lemma rnd_init_from en (r : hread It Rec) : iters_from en r (rnd_init en r).2 /\
  ((rnd_init en r).1 = HA_OK -> forall sl, scan_iter (rnd_init en r).2 = Some sl -> sl_gen sl = en_gen en).
Proof.
  unfold rnd_init. set (r0 := set_dir DIR_NONE _). assert (Hr0 : scan_iter r0 = scan_iter r) by done.
  destruct (en_ensure en); try (by split; [intros sl Hsl; left; exists sl; rewrite <- Hr0|]).
  set (r1 := set_scan _ _ r0). assert (Hr1 : scan_iter r1 = scan_iter r) by done.
  destruct (scan_iter (keep_iter en None r1)) as [s|] eqn:Hk.
  - apply keep_from in Hk as Hk'. destruct Hk' as [Hs Hg]. unfold move. rewrite Hk. cbn. split.
    + intros sl [= <-]. left. exists s. rewrite <- Hr1. cbn. by rewrite view_seek.
    + intros _ sl [= <-]. done.
  - destruct (en_iter_new en None) as [rc it] eqn:Hn. destruct rc; cbn [fst snd]; try (by split; [intros sl Hsl; cbn in Hsl; congruence|]).
    unfold move. cbn. split.
    + intros sl [= <-]. right. exists None, it. cbn. by rewrite view_seek.
    + intros _ sl [= <-]. done.
Qed.

Lemma index_scan_from en i (r : hread It Rec) : iters_from en r (with_iter en (fun r => (HA_OK, r)) (index_init sh en i r).2).2 /\
  ((index_init sh en i r).1 = HA_OK -> forall sl, scan_iter (with_iter en (fun r => (HA_OK, r)) (index_init sh en i r).2).2 = Some sl -> sl_gen sl = en_gen en).
Proof.
  assert (Hinit : forall sl, scan_iter (index_init sh en i r).2 = Some sl -> scan_iter r = Some sl /\ ((index_init sh en i r).1 = HA_OK -> sl_gen sl = en_gen en)).
  { intros sl. unfold index_init. destruct (en_ensure en); try (by case_match). destruct (_ || rs_has_cf sh i); [|by case_match].
    cbn [fst snd]. intros [Hs Hg]%keep_from. split; [by destruct (_ || _ && _) in Hs|done]. }
  destruct (index_init sh en i r) as [rc0 r1]. cbn [fst snd] in *.
  assert (Hfresh : scan_iter r1 = None -> let f := match scan_txn r1, scan_cf_ r1 with
      | Some t, Some c => let '(rc, it) := en_iter_new en c in
        match rc with
        | TDB_SUCCESS => (HA_OK, set_err None (set_iter (Some (mk_slot it c t (en_gen en))) r1))
        | _ => (ha_of_rc rc, set_err (Some (ha_of_rc rc, scan_cf_ r1, scan_txn r1)) r1)
        end
      | _, _ => (HA_ERR_INTERNAL_ERROR, set_err (Some (HA_ERR_INTERNAL_ERROR, scan_cf_ r1, scan_txn r1)) r1)
      end in forall sl, scan_iter f.2 = Some sl -> (exists cf it, en_iter_new en cf = (TDB_SUCCESS, it) /\ sl_gen sl = en_gen en /\ view (sl_it sl) = view it)).
  { intros Hn f sl. unfold f. destruct (scan_txn r1), (scan_cf_ r1) as [c|]; cbn; try congruence.
    destruct (en_iter_new en c) as [rc it] eqn:Hi. destruct rc; cbn; try congruence. intros [= <-]. by exists c, it. }
  assert (Hall : forall sl', scan_iter (with_iter en (fun r => (HA_OK, r)) r1).2 = Some sl' ->
     (scan_iter r1 = Some sl') \/ (exists cf it, en_iter_new en cf = (TDB_SUCCESS, it) /\ sl_gen sl' = en_gen en /\ view (sl_it sl') = view it)).
  { intros sl'. unfold with_iter, ensure_scan_iter. destruct (scan_iter r1) as [s|] eqn:Hs; [cbn; rewrite Hs; auto|].
    specialize (Hfresh eq_refl). cbn zeta in Hfresh. destruct (scan_iter_last_err r1) as [[[err c] t]|].
    - case_bool_decide; [destruct err; cbn; congruence|]. intros Hsl. right. apply Hfresh. revert Hsl. by destruct (match scan_txn r1 with Some _ => _ | None => _ end) as [[] ?].
    - intros Hsl. right. apply Hfresh. revert Hsl. by destruct (match scan_txn r1 with Some _ => _ | None => _ end) as [[] ?]. }
  split.
  - intros sl' Hsl'. destruct (Hall sl' Hsl') as [Hs|?]; [left|by right]. exists sl'. split; [by apply Hinit|done].
  - intros Hok sl' Hsl'. destruct (Hall sl' Hsl') as [Hs|(cf & it & _ & Hg & _)]; [|done]. by apply Hinit.
Qed.

(** A scan in a statement: its iterators are old ones of the instance, or show the present. *)
Lemma scan_ok en ws c own com i r' : env_ok en (mk_world ws c own com) -> world_ok (mk_world ws c own com) -> is_Some (i_stmt (ws i)) ->
  iters_from en (h_read (i_h (ws i))) r' -> inst_ok c own com (mk_inst (with_read r' (i_h (ws i))) (i_stmt (ws i)) (i_ext (ws i))).
Proof.
  intros [Hg Hview] [W1 W2] [st Hst] Hfrom. cbn in *. destruct (W2 i) as [I1 I2 I3]. destruct (I3 st Hst) as (S1 & S2 & S3 & S4 & S5).
  split; cbn; [|done|done]. intros sl' [(sl & Hs & Hgen & Hv)|(cf & it & Hn & Hgen & Hv)]%Hfrom.
  - destruct (I1 sl Hs) as (A & B & C). rewrite Hgen. split; [done|]. split; [done|]. intros Hq. specialize (C Hq). unfold iter_ok in *.
    cbn. by rewrite Hv.
  - split; [done|]. split; [lia|]. intros _. unfold iter_ok. cbn. rewrite Hst, Hv, (Hview cf it Hn). cbn. split; [done|]. split; [lia|done].
Qed.

(** A change of the transaction keeps the iterators usable or makes all of them old. *)
Lemma conn_inst_ok c c' own com x : gen_step c c' -> gen_of c + 1 < 2 ^ 64 -> 0 <= gen_of c -> inst_ok c own com x -> inst_ok c' own com x.
Proof.
  intros Hgen Hlt Hz [I1 I2 I3]. destruct (gen_step_cases c c' Hgen Hz Hlt) as [(Eg & Ef & Es)|(Eg & Es)].
  - split; [|done|].
    + intros sl Hsl. destruct (I1 sl Hsl) as (A & B & C). rewrite Eg. split; [by apply Es|]. split; [done|].
      intros Hq. specialize (C Hq). unfold iter_ok in *. by rewrite Ef.
    + intros st Hst. destruct (I3 st Hst) as (S1 & S2 & S3 & S4 & S5). split_and!; try done. by apply Es.
  - split; [|done|].
    + intros sl Hsl. destruct (I1 sl Hsl) as (A & B & C). split; [done|]. split; [lia|]. lia.
    + intros st Hst. destruct (I3 st Hst) as (S1 & S2 & S3 & S4 & S5). done.
Qed.

Lemma conn_ok ws c c' own com : gen_step c c' -> gen_of c + 1 < 2 ^ 64 -> world_ok (mk_world ws c own com) -> world_ok (mk_world ws c' own com).
Proof.
  intros Hgen Hlt [W1 W2]. cbn in *. split; cbn; [destruct (gen_step_cases c c' Hgen ltac:(lia) Hlt) as [(-> & _)|[? _]]; lia|].
  intros i. eapply conn_inst_ok; eauto. lia.
Qed.

(** A new version that did not come through the instance. *)
Lemma foreign_ok c c' own com x : gen_of c' = gen_of c -> frozen c' = frozen c -> (is_Some c.1 <-> is_Some c'.1) ->
  inst_ok c own com x -> inst_ok c' (S own) com (foreign (S own) x).
Proof.
  intros Eg Ef Es [I1 I2 I3]. split; cbn; [|done|].
  - intros sl Hsl. destruct (I1 sl Hsl) as (A & B & C). rewrite Eg. split; [by apply Es|]. split; [done|].
    intros Hq. destruct (C Hq) as [C1 C2]. unfold iter_ok. cbn. rewrite Ef. split; [lia|]. destruct (i_stmt x); [done|].
    destruct C2 as [_ C2]. split; [lia|done].
  - intros st Hst. destruct (I3 st Hst) as (S1 & S2 & S3 & S4 & S5). split_and!; [lia|lia|done|by apply Es|lia].
Qed.

Lemma write_inst_ok c own com x st : i_stmt x = Some st -> inst_ok c own com x ->
  inst_ok (mark_dirty (i_h x) c).2 (S own) com (mk_inst (mark_dirty (i_h x) c).1 (i_stmt x) (i_ext x)) /\
  gen_of (mark_dirty (i_h x) c).2 = gen_of c /\ frozen (mark_dirty (i_h x) c).2 = frozen c /\ (is_Some c.1 <-> is_Some (mark_dirty (i_h x) c).2.1).
Proof.
  intros Hst [I1 I2 I3].
  assert (Eg : gen_of (mark_dirty (i_h x) c).2 = gen_of c /\ frozen (mark_dirty (i_h x) c).2 = frozen c /\ (is_Some c.1 <-> is_Some (mark_dirty (i_h x) c).2.1)).
  { unfold mark_dirty, gen_of, frozen. destruct c as [[y|] e]; cbn; [|done]. by destruct (cached_trx (i_h x)). }
  assert (Hh : h_read (mark_dirty (i_h x) c).1 = h_read (i_h x) /\ stmt_txn_dirty (mark_dirty (i_h x) c).1 = true) by done.
  destruct (mark_dirty (i_h x) c) as [h1 c1]. cbn [fst snd] in *. destruct Hh as [Hh Hd].
  split; [|done]. destruct Eg as (Eg & Ef & Es). destruct (I3 st Hst) as (S1 & S2 & S3 & S4 & S5). split; cbn; rewrite ?Hh, ?Hd; [|lia|].
  - intros sl Hsl. destruct (I1 sl Hsl) as (A & B & C). rewrite Eg. split; [by apply Es|]. split; [done|].
    intros Hq. destruct (C Hq) as [C1 C2]. unfold iter_ok. cbn. rewrite Ef. rewrite Hst in C2 |- *. split; [lia|done].
  - intros st' Hst'. rewrite Hst in Hst'. injection Hst' as <-. split_and!; [lia|lia|done|by apply Es|done].
Qed.

Lemma unlock_inst_ok s c own com x st ut : i_stmt x = Some st -> inst_ok c own com x ->
  inst_ok c own com (mk_inst (unlock_statement s (i_h x) c ut).1 None (i_ext x)).
Proof.
  intros Hst [I1 I2 I3]. destruct (I3 st Hst) as (S1 & S2 & S3 & S4 & S5). split; cbn; [|done|done].
  intros sl. destruct (_ || _ || _) eqn:Hk; cbn; [done|]. intros Hsl.
  destruct (I1 sl Hsl) as (A & B & C). split; [done|]. split; [done|]. intros Hq. destruct (C Hq) as [C1 C2]. rewrite Hst in C2. destruct C2 as [C2 C3].
  apply orb_false_iff in Hk as [[_ Hdirty]%orb_false_iff Hfz]. specialize (S5 Hdirty). unfold iter_ok. cbn. split; [done|]. split; [lia|].
  unfold frozen_view in Hfz. apply negb_false_iff, andb_true_iff in Hfz as [_ Hfz]. done.
Qed.

Lemma lock_inst_ok alloc pess s iso addr write c own com x rc h' c' reg : i_stmt x = None ->
  lock_statement alloc pess s iso addr write (i_h x) c = (rc, h', c', reg) -> inst_ok c' own com x ->
  inst_ok c' own com (mk_inst h' (match rc with HA_OK => Some (mk_stmt own com (i_ext x)) | _ => None end) (i_ext x)).
Proof.
  intros Hst Hl [I1 I2 I3]. unfold lock_statement in Hl. destruct (get_or_create_trx alloc _ c) as [ok c1] eqn:Hg.
  assert (Hh : scan_iter (h_read h') = scan_iter (h_read (i_h x))) by (destruct ok; simplify_eq; done).
  assert (Hrc : rc = HA_OK -> is_Some c'.1).
  { intros ->. destruct ok; simplify_eq. unfold get_or_create_trx in Hg. destruct c as [[y|] e]; repeat (case_match; simplify_eq); done. }
  assert (c1 = c') as -> by (destruct ok; by simplify_eq). split; cbn; [|done|].
  - intros sl. rewrite Hh. intros Hsl. destruct (I1 sl Hsl) as (A & B & C). split; [done|]. split; [done|]. intros Hq. destruct (C Hq) as [C1 C2].
    rewrite Hst in C2. destruct C2 as [C2 C3]. unfold iter_ok. cbn. split; [done|]. destruct rc; try done. cbn. split; [lia|]. by rewrite C3.
  - intros st. destruct rc; try done. intros [= <-]. cbn. split_and!; [done|done|done|by apply Hrc|lia].
Qed.

Lemma bulk_inst_ok addr c own com x rc h' c' : bulk_commit addr (i_h x) c = (rc, h', c') -> inst_ok c' own com x ->
  inst_ok c' own com (mk_inst h' (i_stmt x) (i_ext x)).
Proof.
  intros Hb [I1 I2 I3].
  assert (Hcase : h' = i_h x \/ scan_iter (h_read h') = None /\ stmt_txn_dirty h' = stmt_txn_dirty (i_h x)).
  { unfold bulk_commit in Hb. destruct (match c.1 with Some _ => _ | None => _ end); [|by simplify_eq; left].
    destruct (maybe_bulk_commit c) as [rc0 c0]. destruct rc0; simplify_eq; auto. }
  destruct Hcase as [->|[Hn Hd]]; [by split|]. split; cbn; [intros sl; congruence|done|]. intros st Hst. rewrite Hd. by apply I3.
Qed.

Lemma step_ok w w' : world_ok w -> step w w' -> world_ok w'.
Proof.
  intros Hw Hs. destruct Hs as [i n ws c own com|i alloc pess s iso addr write ws c own com rc h' c' reg Hn Hl Hlt|i en ws c own com Hi He
    |i en k ws c own com Hi He|i ws c own com [st Hi]|i addr ws c own com rc h' c' Hi Hd Hb Hlt|i s ws c own com ut [st Hi]|ws c own com c' Hh Hlt
    |ws c own com c' Hb|ws c own com].
  - apply set_inst; [done|]. split; cbn; [done|lia|done].
  - assert (Hgen : gen_step c c').
    { unfold lock_statement in Hl. destruct (get_or_create_trx alloc _ c) as [ok c1] eqn:Hg. destruct ok; simplify_eq; by eapply get_gen. }
    pose proof (conn_ok ws c c' own com Hgen Hlt Hw) as Hw'. apply set_inst; [done|]. eapply lock_inst_ok; [done|exact Hl|apply (wo_inst _ Hw')].
  - apply set_inst; [done|]. eapply scan_ok; [exact He|done|done|]. apply rnd_init_from.
  - apply set_inst; [done|]. eapply scan_ok; [exact He|done|done|]. apply index_scan_from.
  - destruct Hw as [W1 W2]. cbn in W1, W2. destruct (write_inst_ok c own com (ws i) st Hi (W2 i)) as (Hx & Eg & Ef & Es). split; cbn [w_c w_own w_com w_inst]; [by rewrite Eg|].
    intros j. destruct (decide (j = i)) as [->|Hne]; [by rewrite fn_lookup_insert|]. rewrite fn_lookup_insert_ne by done. cbn.
    by apply (foreign_ok c).
  - pose proof (bulk_gen _ _ _ _ _ _ Hb) as Hgen. pose proof (conn_ok ws c c' own com Hgen Hlt Hw) as Hw'. apply set_inst; [done|].
    eapply bulk_inst_ok; [exact Hb|apply (wo_inst _ Hw')].
  - apply set_inst; [done|]. eapply unlock_inst_ok; [exact Hi|apply (wo_inst _ Hw)].
  - eapply conn_ok; [by apply hook_gen|done|done].
  - destruct (back_gen _ _ Hb) as (Eg & Ef & Es). destruct Hw as [W1 W2]. cbn in W1, W2. split; cbn; [by rewrite Eg|]. intros i. by apply (foreign_ok c).
  - destruct Hw as [W1 W2]. cbn in *. split; cbn; [done|]. intros i. destruct (W2 i) as [I1 I2 I3]. split; [done|done|].
    intros st Hst. destruct (I3 st Hst) as (S1 & S2 & S3 & S4 & S5). split_and!; try done. lia.
Qed.

Lemma start_ok n e : world_ok (start n e).
Proof. split; cbn; [done|]. intros i. by split. Qed.

(** What the isolation level lets an iterator of the statement show. *)
Definition shows (w : world) (st : stmt) (it : It) : Prop :=
  (st_own st <= (view it).1 <= w_own w)%nat /\ (frozen (w_c w) = false -> (st_com st <= (view it).2)%nat).

(** C13: Whatever the statements of the session's handler instances, transaction hooks, bulk
    commits, rollbacks to savepoints and other sessions did before, take an iterator that a table
    scan or an index scan of the running statement of an instance works on, newly made or kept
    from an earlier statement.  It shows what the others had committed when the statement began,
    unless the isolation level keeps one view for the whole transaction.  It shows the changes of
    its own transaction as they were when the statement began or later, if it was made after the
    last of the changes before the statement that did not come through the same instance (a
    change through another instance of the session, a rollback to a savepoint, a TRUNCATE); an
    older one that is kept does not show those ([other_instance_unseen],
    [rolled_back_row_shown]).  With one instance and no savepoint the condition is void. *)
Theorem statement_reads_current (n : nat) (e : E) (w : world) (i : nat) (st : stmt) (en : read_env It) :
  rtc step (start n e) w -> i_stmt (w_inst w i) = Some st -> env_ok en w ->
  forall sl, (exists r, rnd_init en (h_read (i_h (w_inst w i))) = (HA_OK, r) /\ scan_iter r = Some sl) \/
             (exists k r, index_init sh en k (h_read (i_h (w_inst w i))) = (HA_OK, r) /\ scan_iter (with_iter en (fun r => (HA_OK, r)) r).2 = Some sl) ->
  (frozen (w_c w) = false -> (st_com st <= (view (sl_it sl)).2)%nat) /\
  ((st_ext st <= (view (sl_it sl)).1)%nat -> shows w st (sl_it sl)).
Proof.
  intros Hr Hst He sl Hscan. assert (Hw : world_ok w) by (eapply (rtc_invariant step world_ok); [exact step_ok|apply start_ok|exact Hr]).
  destruct w as [ws c own com]. cbn in Hst.
  assert (Hgo : forall r, iters_from en (h_read (i_h (ws i))) r -> scan_iter r = Some sl -> sl_gen sl = en_gen en ->
            (frozen c = false -> (st_com st <= (view (sl_it sl)).2)%nat) /\
            ((st_ext st <= (view (sl_it sl)).1)%nat -> shows (mk_world ws c own com) st (sl_it sl))).
  { intros r Hf Hs Hg. destruct (scan_ok en ws c own com i r He Hw ltac:(by rewrite Hst) Hf) as [I1 _ _]. cbn in I1.
    destruct (I1 sl Hs) as (_ & _ & Hx). rewrite Hg, (proj1 He) in Hx. destruct (Hx eq_refl) as [A B]. cbn in B. rewrite Hst in B.
    destruct B as [B1 B2]. split; [done|]. intros Hext. split; cbn; [lia|done]. }
  destruct Hscan as [(r & Hi & Hs)|(k & r & Hi & Hs)].
  - destruct (rnd_init_from en (h_read (i_h (ws i)))) as [Hf Hg]. cbn in Hi. rewrite Hi in Hf, Hg. cbn in Hf, Hg. eauto.
  - destruct (index_scan_from en k (h_read (i_h (ws i)))) as [Hf Hg]. cbn in Hi. rewrite Hi in Hf, Hg. cbn in Hf, Hg. eauto.
Qed.
End Views.

(** ** A session over a small table

    An iterator over a list, with the counts it shows. *)

Definition vit : Type := list_iter * (nat * nat).

#[export] Instance vit_ops : IterOps vit := {
  tidesdb_iter_valid it := tidesdb_iter_valid it.1;
  tidesdb_iter_key it := tidesdb_iter_key it.1;
  tidesdb_iter_value it := tidesdb_iter_value it.1;
  tidesdb_iter_key_value it := tidesdb_iter_key_value it.1;
  tdb_iter_next it := (tdb_iter_next it.1, it.2);
  tdb_iter_prev it := (tdb_iter_prev it.1, it.2);
  tdb_iter_seek k it := (tdb_iter_seek k it.1, it.2);
  tdb_iter_seek_for_prev k it := (tdb_iter_seek_for_prev k it.1, it.2);
  tdb_iter_seek_to_first it := (tdb_iter_seek_to_first it.1, it.2);
  tdb_iter_seek_to_last it := (tdb_iter_seek_to_last it.1, it.2);
  iter_fuel it := iter_fuel it.1
}.

Definition demo_session : session := mk_session SQLCOM_OTHER true 2 0.
Definition toy_store : toy_engine := ([1], ∅).

(** Iterators of the present: [gen] of the transaction, the counts of the world. *)
Definition view_env (gen : Z) (own com : nat) : read_env vit :=
  mk_renv false HA_OK 70 gen (fun _ => (TDB_SUCCESS, (demo_iter demo_data eq_refl, (own, com)))) (get_from demo_data) None.

Notation demo_world := (world (E := toy_engine) (T := toy_txn) (It := vit) (Rec := bytes)).

Definition set_inst_of (i : nat) (x : inst) (w : demo_world) : demo_world := mk_world (<[i := x]> (w_inst w)) (w_c w) (w_own w) (w_com w).

(** The steps of a session, for instance [i]. *)
Definition lock_it (i : nat) (w : demo_world) : demo_world :=
  let x := w_inst w i in
  let '(_, h, c, _) := lock_statement true false demo_session TDB_ISOLATION_READ_COMMITTED 70 false (i_h x) (w_c w) in
  mk_world (<[i := mk_inst h (Some (mk_stmt (w_own w) (w_com w) (i_ext x))) (i_ext x)]> (w_inst w)) c (w_own w) (w_com w).
Definition scan_it (i : nat) (w : demo_world) : demo_world :=
  let x := w_inst w i in
  set_inst_of i (mk_inst (with_read (rnd_init (view_env (gen_of (w_c w)) (w_own w) (w_com w)) (h_read (i_h x))).2 (i_h x)) (i_stmt x) (i_ext x)) w.
Definition unlock_it (i : nat) (w : demo_world) : demo_world :=
  let x := w_inst w i in set_inst_of i (mk_inst (unlock_statement demo_session (i_h x) (w_c w) 0).1 None (i_ext x)) w.
Definition others_commit (w : demo_world) : demo_world := mk_world (w_inst w) (w_c w) (w_own w) (S (w_com w)).
Definition write_it (i : nat) (w : demo_world) : demo_world :=
  let x := w_inst w i in
  mk_world (<[i := mk_inst (mark_dirty (i_h x) (w_c w)).1 (i_stmt x) (i_ext x)]> (foreign (S (w_own w)) ∘ w_inst w)) (mark_dirty (i_h x) (w_c w)).2
    (S (w_own w)) (w_com w).
Definition back_it (sv : Z) (w : demo_world) : demo_world :=
  mk_world (foreign (S (w_own w)) ∘ w_inst w) (tidesdb_savepoint_rollback (Some sv) (w_c w)).2 (S (w_own w)) (w_com w).

Notation demo_step := (step (E := toy_engine) (T := toy_txn) (It := vit) (Rec := bytes) (demo_share 1) snd).

Lemma scan_step i (w : demo_world) : is_Some (i_stmt (w_inst w i)) -> demo_step w (scan_it i w).
Proof.
  intros Hi. destruct w as [ws c own com]. apply s_table_scan; [done|]. split; [done|]. intros cf it [= <-]. done.
Qed.

Lemma unlock_step i (w : demo_world) : is_Some (i_stmt (w_inst w i)) -> demo_step w (unlock_it i w).
Proof. intros Hi. destruct w as [ws c own com]. by apply s_unlock. Qed.

Lemma write_step i (w : demo_world) : is_Some (i_stmt (w_inst w i)) -> demo_step w (write_it i w).
Proof. intros Hi. destruct w as [ws c own com]. by apply s_write. Qed.

Lemma lock_step i (w : demo_world) h c reg : i_stmt (w_inst w i) = None ->
  lock_statement true false demo_session TDB_ISOLATION_READ_COMMITTED 70 false (i_h (w_inst w i)) (w_c w) = (HA_OK, h, c, reg) ->
  gen_of (w_c w) + 1 < 2 ^ 64 -> demo_step w (lock_it i w).
Proof.
  intros Hi Hl Hg. destruct w as [ws c0 own com]. unfold lock_it. cbn [w_inst w_c w_own w_com] in *. rewrite Hl.
  exact (s_lock (demo_share 1) snd i true false demo_session TDB_ISOLATION_READ_COMMITTED 70 false ws c0 own com HA_OK h c reg Hi Hl Hg).
Qed.

(** A SELECT, a commit of another session, and the next statement of the transaction. *)
Definition select_done : demo_world := unlock_it 0 (scan_it 0 (lock_it 0 (start 64 toy_store))).
Definition second : demo_world := lock_it 0 (others_commit select_done).

Lemma select_done_reached : rtc demo_step (start 64 toy_store) select_done.
Proof.
  eapply rtc_l; [eapply (lock_step 0); reflexivity|]. eapply rtc_l; [by apply (scan_step 0)|]. eapply rtc_once. by apply unlock_step.
Qed.

Lemma second_reached : rtc demo_step (start 64 toy_store) second.
Proof.
  etrans; [exact select_done_reached|]. eapply rtc_l; [apply s_others|]. apply rtc_once.
  eapply (lock_step 0); vm_compute; reflexivity.
Qed.

Lemma second_scan :
  i_stmt (w_inst second 0) = Some (mk_stmt 0 1 0) /\ env_ok snd (view_env 1 0 1) second /\
  exists r sl, rnd_init (view_env 1 0 1) (h_read (i_h (w_inst second 0))) = (HA_OK, r) /\ scan_iter r = Some sl /\ frozen (w_c second) = true.
Proof.
  split; [vm_compute; reflexivity|]. split; [split; [vm_compute; reflexivity|]|].
  - intros cf it [= <-]. vm_compute. reflexivity.
  - do 2 eexists. split; [vm_compute; reflexivity|]. split; vm_compute; reflexivity.
Qed.

Lemma vit_seek (k : bytes) (it : vit) : (tdb_iter_seek k it).2 = it.2.
Proof. reflexivity. Qed.

Lemma statement_reads_current_witness :
  exists r sl, rnd_init (view_env 1 0 1) (h_read (i_h (w_inst second 0))) = (HA_OK, r) /\ scan_iter r = Some sl /\ frozen (w_c second) = true /\
    shows snd second (mk_stmt 0 1 0) (sl_it sl).
Proof.
  destruct second_scan as (Hst & He & r & sl & Hr & Hs & Hf). exists r, sl. split; [exact Hr|]. split; [exact Hs|]. split; [exact Hf|].
  apply (statement_reads_current (It := vit) (demo_share 1) snd vit_seek 64 toy_store second 0 (mk_stmt 0 1 0) (view_env 1 0 1) second_reached Hst He sl).
  - left. exists r. split; [exact Hr|exact Hs].
  - cbn. lia.
Defined.

(** ** Where the iterator kept from an earlier statement is too old

    Two instances of the handler serve a session that names the table twice, or whose
    server keeps two copies open; each keeps its own iterators.  After a write through the
    second one the first still has the iterator of its SELECT, of the same transaction and
    generation, and reuses it: it does not show the write. *)
Definition other_instance_wrote : demo_world := lock_it 0 (unlock_it 1 (write_it 1 (lock_it 1 select_done))).

Lemma other_instance_reached : rtc demo_step (start 64 toy_store) other_instance_wrote.
Proof.
  etrans; [exact select_done_reached|]. eapply rtc_l; [eapply (lock_step 1); vm_compute; reflexivity|].
  eapply rtc_l; [apply (write_step 1); vm_compute; eauto|]. eapply rtc_l; [apply (unlock_step 1); vm_compute; eauto|].
  eapply rtc_once. eapply (lock_step 0); vm_compute; reflexivity.
Qed.

Lemma other_instance_unseen :
  i_stmt (w_inst other_instance_wrote 0) = Some (mk_stmt 1 0 1) /\ gen_of (w_c other_instance_wrote) = 1 /\
  match scan_iter (rnd_init (view_env 1 1 0) (h_read (i_h (w_inst other_instance_wrote 0)))).2 with
  | Some sl => (sl_it sl).2 = (0, 0)%nat | None => False end.
Proof. vm_compute. done. Qed.

(** A rollback to a savepoint takes changes back and leaves the generation: the iterator of
    a SELECT made before it shows them still. *)
Definition rolled_back : demo_world :=
  lock_it 0 (back_it 5 (unlock_it 0 (scan_it 0 (lock_it 0 (unlock_it 0 (write_it 0 (lock_it 0 (start 64 toy_store)))))))).

Lemma rolled_back_row_shown :
  i_stmt (w_inst rolled_back 0) = Some (mk_stmt 2 0 2) /\ gen_of (w_c rolled_back) = 1 /\
  match scan_iter (rnd_init (view_env 1 2 0) (h_read (i_h (w_inst rolled_back 0)))).2 with
  | Some sl => (sl_it sl).2 = (1, 0)%nat | None => False end.
Proof. vm_compute. done. Qed.
