(* ===== verification/Stats.v ===== *)
(** * Statistics and costs (ha_tidesdb.cc 4073-4103, 7971-8680, 9850-9955; ha_tidesdb.h 139-176, 927-951)

    What the handler tells the optimizer: the numbers of [info], cached in the share and
    refreshed at intervals, the sampling of ANALYZE TABLE, the estimate for a range of an
    index and the costs; with the administrative statements OPTIMIZE, CHECK and REPAIR.
    Floating point is an interface: the operations on doubles that the code uses. *)

From Stdlib Require Import ZArith QArith Lia Sorting.Sorted.
From stdpp Require Import base tactics list numbers gmap sets.
From S2P Require Import Prelude Errors KeyCodec Scan Reads ReadsProof ReadsExamples TableShare.

Open Scope Z_scope.

(** Doubles; [to_u64] is the conversion to an unsigned integer. *)
Class CostDouble (D : Type) := {
  of_q : Q -> D;
  of_u64 : Z -> D;
  cadd : D -> D -> D;
  cmul : D -> D -> D;
  cdiv : D -> D -> D;
  cpow : D -> D -> D;
  positive : D -> bool;                  (* x > 0.0 *)
  nonpositive : D -> bool;               (* x <= 0.0 *)
  cless : D -> D -> bool;
  to_u64 : D -> Z
}.

(** The conversion gives an unsigned integer. *)
Class CostLaws (D : Type) `{CostDouble D} := { to_u64_fits d : fits_u64 (to_u64 d) }.

Definition TIDESDB_STATS_REFRESH_US : Z := 2000000.
Definition TIDESDB_MIN_STATS_RECORDS : Z := 2.
Definition TIDESDB_RIR_DEFAULT_EST : Z := 10.
Definition TIDESDB_RIR_UNKNOWN_DENOM : Z := 4.
Definition REC_PER_KEY_UNIQUE : Z := 1.
Definition REC_PER_KEY_FLOOR : Z := 1.
Definition STATS_REC_PER_KEY_FALLBACK_DIVISOR : Z := 10.
Definition ANALYZE_SAMPLE_LIMIT : Z := 100000.
Definition KEY_INF_LO_BYTE : Z := 0.
Definition data_key_buf_len (max_key_length : nat) : nat := KEY_NAMESPACE_LEN + max_key_length + 1.

Section Stats.
Context {D It : Type} `{CostDouble D, IterOps It}.

(** [tidesdb_cf_stats_t], for the fields that are used. *)
Record cf_stats := mk_cfs {
  total_keys : Z;
  unflushed_key_count : Z;
  total_data_size : Z;
  avg_key_size : D;
  avg_value_size : D;
  read_amp : D
}.

(** The statistics in the share. *)
Record share_stats := mk_ss {
  cached_records : Z;
  cached_data_size : Z;
  cached_idx_data_size : Z;
  cached_mean_rec_len : Z;
  cached_read_amp : D;
  cached_rec_per_key : list Z;
  stats_refresh_us : Z;
  cached_scan_cost : D;
  scan_cost_time : Z
}.

(** [ha_statistics] of the handler. *)
Record ha_statistics := mk_hs {
  records : Z;
  data_file_length : Z;
  index_file_length : Z;
  mean_rec_length : Z;
  delete_length : Z;
  mrr_length_per_rec : Z;
  create_time : Z;
  update_time : Z
}.

(** A key of the table as the statistics see it. *)
Record stat_key := mk_sk { sk_key : tkey; sk_nosame : bool; sk_actual_key_parts : nat; sk_key_length : Z }.
Definition user_defined_key_parts (k : stat_key) : nat := length (key_part (tk_key (sk_key k))).

Definition spatial_key (k : stat_key) : bool := is_rtree (tk_key (sk_key k)).

(** What the calls on the engine and the table return. *)
Record stat_env := mk_senv {
  se_keys : list stat_key;
  se_has_user_pk : bool;
  se_pk_index : nat;
  se_pk_key_len : nat;
  se_reclength : Z;
  se_cf : bool;                                        (* share->cf is set *)
  se_idx_cfs : list bool;                              (* share->idx_cfs[i] is set *)
  se_idx_comp_key_len : nat -> nat;
  se_create_time : Z;
  se_update_time : Z;
  se_cf_stats : cf_id -> option cf_stats;              (* [None]: the call fails *)
  se_compact : cf_id -> tdb_rc;
  se_iter : cf_id -> option It;                        (* tdb_iter_new_r, not null *)
  se_range_stats : cf_id -> bytes -> bytes -> option (Z * bool * Z)   (* estimated_keys, keys_exact, sstables_overlapping *)
}.

Record ha_flags := mk_flags { HA_STATUS_ERRKEY : bool; HA_STATUS_VARIABLE : bool; HA_STATUS_CONST : bool; HA_STATUS_TIME : bool }.

(** The handler's part of the statistics. *)
Record stat_handler := mk_sh { sh_stats : ha_statistics; sh_errkey : nat; sh_last_dup_key_no : nat; sh_ref_length : nat; sh_rec_per_key : list (list Z) }.

Implicit Types (en : stat_env) (ss : share_stats).

(** *** info *)

(** Bytes of a family: what is in tables, and an estimate of what is not flushed. *)
Definition family_size (st : cf_stats) (row_bytes : D) : Z :=
  let data_sz := u64 (total_data_size st + to_u64 (cmul (of_u64 (unflushed_key_count st)) row_bytes)) in
  let keys := u64 (total_keys st + unflushed_key_count st) in
  if (data_sz =? 0) && (0 <? keys) then to_u64 (cmul (of_u64 keys) row_bytes) else data_sz.

Definition row_bytes_or (st : cf_stats) (fallback : Z) : D :=
  let b := cadd (avg_key_size st) (avg_value_size st) in if nonpositive b then of_u64 fallback else b.

Fixpoint index_sizes en (i : nat) (cfs : list bool) : Z :=
  match cfs with
  | [] => 0
  | present :: rest =>
    let mine :=
      if (present : bool) then
        match se_cf_stats en (Some i) with
        | Some ist => family_size ist (row_bytes_or ist (default 0 (sk_key_length <$> se_keys en !! i)))
        | None => 0
        end
      else 0 in
    u64 (mine + index_sizes en (S i) rest)
  end.

(** [cas] says whether [compare_exchange_weak] succeeds. *)
Definition refresh_stats en (now : Z) (cas : bool) ss : share_stats :=
  if (TIDESDB_STATS_REFRESH_US <? now - stats_refresh_us ss) && cas then
    match se_cf_stats en None with
    | Some st =>
      let row_bytes := row_bytes_or st (se_reclength en) in
      let mrl := u32 (to_u64 row_bytes) in
      mk_ss (u64 (total_keys st + unflushed_key_count st)) (family_size st row_bytes) (index_sizes en O (se_idx_cfs en))
        (if mrl =? 0 then se_reclength en else mrl) (if positive (read_amp st) then read_amp st else of_u64 1)
        (cached_rec_per_key ss) now (cached_scan_cost ss) (scan_cost_time ss)
    | None =>
      mk_ss (cached_records ss) (cached_data_size ss) (cached_idx_data_size ss) (cached_mean_rec_len ss) (cached_read_amp ss)
        (cached_rec_per_key ss) now (cached_scan_cost ss) (scan_cost_time ss)
    end
  else ss.

Definition feed_stats en ss (ref_length : nat) (hs : ha_statistics) : ha_statistics :=
  mk_hs (if cached_records ss =? 0 then TIDESDB_MIN_STATS_RECORDS else cached_records ss) (cached_data_size ss) (cached_idx_data_size ss)
    (cached_mean_rec_len ss) 0 (Z.of_nat ref_length + 8) (create_time hs) (update_time hs).

(** Rows per value of the first [j + 1] parts of key [i]. *)
Definition rec_per_key_part (recs cached_rpk : Z) (one : bool) (parts : nat) (j : nat) : Z :=
  let N := Z.of_nat parts in
  if one then
    if Nat.leb parts (S j) then REC_PER_KEY_UNIQUE
    else Z.max (to_u64 (cpow (of_u64 recs) (cdiv (of_u64 (N - Z.of_nat j - 1)) (of_u64 N)))) REC_PER_KEY_FLOOR
  else if Nat.eqb (S j) parts then
    if 0 <? cached_rpk then cached_rpk else Z.max (recs `div` STATS_REC_PER_KEY_FALLBACK_DIVISOR + 1) REC_PER_KEY_FLOOR
  else
    let last_rpk := if 0 <? cached_rpk then cached_rpk else recs `div` STATS_REC_PER_KEY_FALLBACK_DIVISOR + 1 in
    let base := if 0 <? last_rpk then cdiv (of_u64 recs) (of_u64 last_rpk) else of_u64 recs in
    let rpk := cdiv (of_u64 recs) (cpow base (cdiv (of_u64 (Z.of_nat j + 1)) (of_u64 N))) in
    Z.max (Z.min (to_u64 rpk) recs) REC_PER_KEY_FLOOR.

Definition is_pk_of en (i : nat) : bool := se_has_user_pk en && Nat.eqb i (se_pk_index en).

Definition rec_per_key_of en ss (recs : Z) (i : nat) (k : stat_key) : list Z :=
  rec_per_key_part recs (default 0 (cached_rec_per_key ss !! i)) (is_pk_of en i || sk_nosame k) (user_defined_key_parts k) <$>
    seq 0 (sk_actual_key_parts k).

(** The result of [info] is 0 throughout. *)
Definition info en (f : ha_flags) (now : Z) (cas : bool) (st : share_stats * stat_handler) : share_stats * stat_handler :=
  let '(ss, h) := st in
  let ref_length := se_pk_key_len en in
  let errkey := if HA_STATUS_ERRKEY f then sh_last_dup_key_no h else sh_errkey h in
  let feed := (HA_STATUS_VARIABLE f || HA_STATUS_CONST f) && se_cf en in
  let ss := if feed then refresh_stats en now cas ss else ss in
  let hs := if feed then feed_stats en ss ref_length (sh_stats h) else sh_stats h in
  let hs := if HA_STATUS_TIME f
            then mk_hs (records hs) (data_file_length hs) (index_file_length hs) (mean_rec_length hs) (delete_length hs) (mrr_length_per_rec hs)
                   (se_create_time en) (se_update_time en)
            else hs in
  let rpk := if HA_STATUS_CONST f then imap (rec_per_key_of en ss (records hs)) (se_keys en) else sh_rec_per_key h in
  (ss, mk_sh hs errkey (sh_last_dup_key_no h) ref_length rpk).

(** *** analyze *)

Definition set_refresh (t : Z) ss : share_stats :=
  mk_ss (cached_records ss) (cached_data_size ss) (cached_idx_data_size ss) (cached_mean_rec_len ss) (cached_read_amp ss)
    (cached_rec_per_key ss) t (cached_scan_cost ss) (scan_cost_time ss).
Definition set_rpk (i : nat) (rpk : Z) ss : share_stats :=
  mk_ss (cached_records ss) (cached_data_size ss) (cached_idx_data_size ss) (cached_mean_rec_len ss) (cached_read_amp ss)
    (<[i := rpk]> (cached_rec_per_key ss)) (stats_refresh_us ss) (cached_scan_cost ss) (scan_cost_time ss).

(** The loop that samples an index: [prev] is the prefix of the last new value. *)
Fixpoint sample (fuel : nat) (prefix_len : nat) (it : It) (sampled distinct : Z) (prev : bytes) : Z * Z :=
  match fuel with
  | O => (sampled, distinct)
  | S fuel =>
    if tidesdb_iter_valid it && (sampled <? ANALYZE_SAMPLE_LIMIT) then
      match tidesdb_iter_key it with
      | (TDB_SUCCESS, ik) =>
        let p := take prefix_len ik in
        if (sampled =? 0) || negb (bool_decide (p = prev))
        then sample fuel prefix_len (tdb_iter_next it) (sampled + 1) (distinct + 1) p
        else sample fuel prefix_len (tdb_iter_next it) (sampled + 1) distinct prev
      | _ => (sampled, distinct)
      end
    else (sampled, distinct)
  end.

Definition sampled_rec_per_key (idx_total_keys sampled distinct : Z) : Z :=
  let total := if 0 <? idx_total_keys then idx_total_keys else sampled in
  if sampled <? total then
    let ratio := cdiv (of_u64 total) (of_u64 sampled) in
    let est := to_u64 (cmul (of_u64 distinct) ratio) in
    let est := if est =? 0 then 1 else est in
    let rpk := total `div` est in if rpk =? 0 then REC_PER_KEY_FLOOR else rpk
  else let rpk := sampled `div` distinct in if rpk =? 0 then REC_PER_KEY_FLOOR else rpk.

(** What is stored for key [i], if anything. *)
Definition analyzed_rpk en (i : nat) (k : stat_key) : option Z :=
  if is_pk_of en i || negb (default false (se_idx_cfs en !! i)) then None
  else
    let idx_total_keys := match se_cf_stats en (Some i) with Some ist => total_keys ist | None => 0 end in
    if sk_nosame k then Some REC_PER_KEY_UNIQUE
    else if Nat.eqb (se_idx_comp_key_len en i) 0 then None
    else
      it ← se_iter en (Some i);
      let '(sampled, distinct) := sample (S (iter_fuel it)) (se_idx_comp_key_len en i) (tdb_iter_seek_to_first it) 0 0 [] in
      if 0 <? distinct then Some (sampled_rec_per_key idx_total_keys sampled distinct) else None.

Definition analyze_index en (i : nat) (k : stat_key) ss : share_stats :=
  match analyzed_rpk en i k with Some rpk => set_rpk i rpk ss | None => ss end.

Fixpoint analyze_indexes en (i : nat) (ks : list stat_key) ss : share_stats :=
  match ks with [] => ss | k :: ks => analyze_indexes en (S i) ks (analyze_index en i k ss) end.

Inductive admin_rc := HA_ADMIN_OK | HA_ADMIN_FAILED | HA_ADMIN_CORRUPT.

Definition const_only : ha_flags := mk_flags false false true false.

Definition analyze en (ensure : ha_rc) (now : Z) (cas : bool) (now2 : Z) (cas2 : bool) (st : share_stats * stat_handler)
    : admin_rc * (share_stats * stat_handler) :=
  if negb (se_cf en) then (HA_ADMIN_FAILED, st)
  else
    let st := info en (mk_flags false true true false) now cas (set_refresh 0 st.1, st.2) in
    match se_cf_stats en None, ensure with
    | Some _, HA_OK => (HA_ADMIN_OK, info en const_only now2 cas2 (analyze_indexes en O (se_keys en) st.1, st.2))
    | _, _ => (HA_ADMIN_OK, st)
    end.

(** *** optimize, check, repair *)

(** The families of the table, the data first. *)
Definition families en : list cf_id :=
  None :: omap (fun p : nat * bool => if p.2 then Some (Some p.1) else None) (imap pair (se_idx_cfs en)).

(** The second result is the families that were compacted. *)
Definition optimize en ss : admin_rc * list cf_id * share_stats :=
  if se_cf en then (HA_ADMIN_OK, List.filter (fun c => bool_decide (se_compact en c = TDB_SUCCESS)) (families en), set_refresh 0 ss)
  else (HA_ADMIN_FAILED, [], ss).

Definition check en : admin_rc :=
  if se_cf en && forallb (fun c => match se_cf_stats en c with Some _ => true | None => false end) (families en)
  then HA_ADMIN_OK else HA_ADMIN_CORRUPT.

Definition repair en ss : admin_rc * list cf_id * share_stats :=
  if negb (se_cf en) then (HA_ADMIN_FAILED, [], ss)
  else match se_compact en None with
       | TDB_SUCCESS => (HA_ADMIN_OK, List.filter (fun c => bool_decide (se_compact en c = TDB_SUCCESS)) (families en), set_refresh 0 ss)
       | _ => (HA_ADMIN_FAILED, [], ss)
       end.

(** The two flags of semi-consistent reads: asked for, and done. *)
Definition was_semi_consistent_read (fl : bool * bool) : bool * (bool * bool) := (fl.2, (fl.1, false)).
Definition try_semi_consistent_read (yes : bool) (fl : bool * bool) : bool * bool := (yes, fl.2).

(** *** Costs *)

Record IO_AND_CPU_COST := mk_cost { io : D; cpu : D }.

Definition as_double (c : IO_AND_CPU_COST) : D := cadd (io c) (cpu c).

Definition hi_bytes (len buf_len : nat) : bytes := replicate (Nat.min len buf_len) KEY_INF_HI_BYTE.

(** [now] in microseconds; [default] is [handler::scan_time], the server's. *)
Definition scan_time en (buf_len : nat) (now : Z) (default_cost : D) ss : D * share_stats :=
  if negb (se_cf en) then (as_double (mk_cost (of_q 0) (of_q 0)), ss)
  else
    let stale := nonpositive (cached_scan_cost ss) || (TIDESDB_STATS_REFRESH_US <? now - scan_cost_time ss) in
    let ss := if stale then
                match se_range_stats en None [KEY_NS_DATA] (hi_bytes (KEY_NAMESPACE_LEN + se_pk_key_len en) buf_len) with
                | Some (_, _, overlapping) =>
                  if 0 <? overlapping
                  then mk_ss (cached_records ss) (cached_data_size ss) (cached_idx_data_size ss) (cached_mean_rec_len ss) (cached_read_amp ss)
                         (cached_rec_per_key ss) (stats_refresh_us ss) (of_u64 overlapping) now
                  else ss
                | None => ss
                end
              else ss in
    (if positive (cached_scan_cost ss)
     then as_double (mk_cost (cmul (cached_scan_cost ss) (of_q (9 # 10))) (cmul (cached_scan_cost ss) (of_q (1 # 10))))
     else as_double (mk_cost default_cost (of_q 0)), ss).

Definition keyread_time (ss : option share_stats) (ranges rows : Z) : IO_AND_CPU_COST :=
  let amp := match ss with Some ss => cached_read_amp ss | None => of_q 1 end in
  mk_cost (of_u64 0) (cadd (cmul (cmul (of_u64 rows) (of_q (3 # 100000))) amp) (cmul (of_u64 ranges) (of_q (1 # 10000)))).

Definition rnd_pos_time (ss : option share_stats) (rows : Z) : IO_AND_CPU_COST :=
  let amp := match ss with Some ss => cached_read_amp ss | None => of_q 1 end in
  mk_cost (of_u64 0) (cmul (cmul (of_u64 rows) (of_q (5 # 100000))) amp).

(** *** Status variables *)

(** What a family reports on deletions: tombstones, keys, the densest table and its level;
    the four values shown, kept when the list of families cannot be had. *)
Record tomb_stats := mk_tomb { ts_tombstones : Z; ts_keys : Z; ts_density : D; ts_level : Z }.
Record tomb_vars := mk_tvars { srv_stat_total_tombstones : Z; srv_stat_tombstone_ratio : D; srv_stat_max_sst_density : D; srv_stat_max_sst_density_level : Z }.

Definition add_family (acc : tomb_stats) (cf : option tomb_stats) : tomb_stats :=
  match cf with
  | None => acc
  | Some c =>
    let more := cless (ts_density acc) (ts_density c) in
    mk_tomb (u64 (ts_tombstones acc + ts_tombstones c)) (u64 (ts_keys acc + ts_keys c))
      (if more then ts_density c else ts_density acc) (if more then ts_level c else ts_level acc)
  end.

(** [None] for a family that is gone or whose call fails. *)
Definition refresh_tombstones (cfs : option (list (option tomb_stats))) (v : tomb_vars) : tomb_vars :=
  match cfs with
  | None => v
  | Some cfs =>
    let t := foldl add_family (mk_tomb 0 0 (of_q 0) 0) cfs in
    mk_tvars (ts_tombstones t) (if 0 <? ts_keys t then cdiv (of_u64 (ts_tombstones t)) (of_u64 (ts_keys t)) else of_q 0) (ts_density t) (ts_level t)
  end.

(** *** Index properties *)

Inductive index_flag := HA_READ_NEXT | HA_READ_PREV | HA_READ_ORDER | HA_READ_RANGE | HA_DO_INDEX_COND_PUSHDOWN | HA_CLUSTERED_INDEX | HA_KEYREAD_ONLY.

(** [primary_key] is [None] for MAX_KEY. *)
Definition index_flags (ks : list stat_key) (primary_key : option nat) (idx : nat) : list index_flag :=
  match ks !! idx with
  | Some k =>
    if bool_decide (tk_algorithm (sk_key k) = HA_KEY_ALG_FULLTEXT) then []
    else if spatial_key k then [HA_READ_NEXT; HA_READ_RANGE]
    else [HA_READ_NEXT; HA_READ_PREV; HA_READ_ORDER; HA_READ_RANGE; HA_DO_INDEX_COND_PUSHDOWN;
          if bool_decide (primary_key = Some idx) then HA_CLUSTERED_INDEX else HA_KEYREAD_ONLY]
  | None => [HA_READ_NEXT; HA_READ_PREV; HA_READ_ORDER; HA_READ_RANGE; HA_DO_INDEX_COND_PUSHDOWN;
             if bool_decide (primary_key = Some idx) then HA_CLUSTERED_INDEX else HA_KEYREAD_ONLY]
  end.

Inductive index_type_name := FULLTEXT | RTREE | BTREE.

Definition index_type (ks : list stat_key) (key_number : nat) : index_type_name :=
  match ks !! key_number with
  | Some k => if bool_decide (tk_algorithm (sk_key k) = HA_KEY_ALG_FULLTEXT) then FULLTEXT else if spatial_key k then RTREE else BTREE
  | None => BTREE
  end.

(** *** records_in_range *)

Section Ranges.
(** Of the server: the sort keys, [KEY_PART_INFO::store_length], [key_restore] into a row
    buffer, and the length of a key image of some parts. *)
Variable make_sort_key : Field -> bytes -> Z -> bytes.
Variable store_length : KEY_PART_INFO -> Z.
Variable key_restore : KEY -> bytes -> Z -> record.
Variable calculate_key_len : nat -> list bool -> Z.
Variable max_key_length : nat.

(** The key parts that [key_len] bytes cover. *)
Fixpoint parts_covered (kps : list KEY_PART_INFO) (len key_len : Z) : nat :=
  match kps with
  | [] => O
  | kp :: rest => if key_len <? len + store_length kp then O else S (parts_covered rest (len + store_length kp) key_len)
  end.

(** Into a buffer of [room] bytes; [None] when it is overrun. *)
Definition key_copy_to_comparable (ki : KEY) (key_buf : bytes) (key_len : Z) (room : nat) : option bytes :=
  let rec := key_restore ki key_buf key_len in
  let parts := parts_covered (key_part ki) 0 key_len in
  '(out, pos) ← make_comparable_key make_sort_key ki rec (if Nat.eqb parts 0 then 1 else parts) (replicate room 0) 0;
  Some (take (Z.to_nat pos) out).

(** [keypart_map] as its bits; [kr_key] is [None] for a null pointer. *)
Record key_range := mk_range { kr_key : option bytes; kr_map : list bool }.

Definition my_count_bits (m : list bool) : nat := length (List.filter id m).

(** The bytes of a bound that is given. *)
Definition bound_bytes (is_pk : bool) (inx : nat) (k : stat_key) (r : key_range) (key : bytes) : option bytes :=
  let kl := calculate_key_len inx (kr_map r) in
  if is_pk then build_data_key <$> key_copy_to_comparable (tk_key (sk_key k)) key kl max_key_length
  else key_copy_to_comparable (tk_key (sk_key k)) key kl (data_key_buf_len max_key_length).

Definition given (r : option key_range) : option (key_range * bytes) :=
  r ← r; k ← kr_key r; Some (r, k).

(** The engine's count for a range; it is capped unless it is exact. *)
Definition range_estimate en (cf : cf_id) (total : Z) (lo hi : bytes) : Z :=
  match se_range_stats en cf lo hi with
  | None => total `div` TIDESDB_RIR_UNKNOWN_DENOM + REC_PER_KEY_FLOOR
  | Some (est, exact, _) =>
    let est := if est =? 0 then REC_PER_KEY_FLOOR else est in
    if negb exact && (total <? est) then total else est
  end.

(** One value, given by [map]: the rows per key that [info] found. *)
Definition point_estimate (rpk : list (list Z)) (inx : nat) (k : stat_key) (total : Z) (map : list bool) : Z :=
  let parts_used := my_count_bits map in
  if Nat.ltb 0 parts_used && Nat.leb parts_used (user_defined_key_parts k) then
    let r := default 0 (rpk !! inx ≫= (.!! (parts_used - 1)%nat)) in
    Z.min (if 0 <? r then r else REC_PER_KEY_FLOOR) total
  else REC_PER_KEY_FLOOR.

(** The two ends of the range. *)
Definition range_bounds en (inx : nat) (k : stat_key) (min_key max_key : option key_range) : option (bytes * bytes) :=
  let is_pk := is_pk_of en inx in
  lo ← match given min_key with
       | Some (r, key) => bound_bytes is_pk inx k r key
       | None => Some [if is_pk then KEY_NS_DATA else KEY_INF_LO_BYTE]
       end;
  hi ← match given max_key with
       | Some (r, key) => bound_bytes is_pk inx k r key
       | None => Some (hi_bytes (if is_pk then KEY_NAMESPACE_LEN + se_pk_key_len en else se_idx_comp_key_len en inx + se_pk_key_len en)
                         (data_key_buf_len max_key_length))
       end;
  Some (lo, hi).

Definition table_rows ss : Z := if cached_records ss =? 0 then TIDESDB_MIN_STATS_RECORDS else cached_records ss.

(** [ss] is [None] without a share. *)
Definition records_in_range en (ss : option share_stats) (rpk : list (list Z)) (inx : nat) (k : stat_key) (min_key max_key : option key_range)
    : option Z :=
  match ss with
  | None => Some TIDESDB_RIR_DEFAULT_EST
  | Some ss =>
    let total := table_rows ss in
    let is_pk := is_pk_of en inx in
    if negb (is_pk || default false (se_idx_cfs en !! inx)) then Some (total `div` TIDESDB_RIR_UNKNOWN_DENOM + REC_PER_KEY_FLOOR)
    else
      '(lo, hi) ← range_bounds en inx k min_key max_key;
      Some (match min_key, max_key with
            | Some mn, Some _ =>
              if bool_decide (lo = hi) && negb (Nat.eqb (length lo) 0) then point_estimate rpk inx k total (kr_map mn)
              else range_estimate en (if is_pk then None else Some inx) total lo hi
            | _, _ => range_estimate en (if is_pk then None else Some inx) total lo hi
            end)
  end.
End Ranges.
End Stats.

(** ** Counting values in key order *)

(** Prefixes of ordered keys are ordered. *)
Lemma take_order n a b : bytes_lt a b -> bytes_compare (take n a) (take n b) <> Gt.
Proof.
  unfold bytes_lt. revert a b. induction n as [|n IH]; intros [|x a] [|y b]; cbn; try done. destruct (x ?= y); eauto; done.
Qed.

Lemma not_gt_trans a b c : bytes_compare a b <> Gt -> bytes_compare b c <> Gt -> bytes_compare a c <> Gt.
Proof.
  intros H1 H2. destruct (bytes_compare a b) eqn:E1; [|destruct (bytes_compare b c) eqn:E2; try done|done].
  - apply bytes_compare_eq in E1 as ->. done.
  - apply bytes_compare_eq in E2 as ->. by rewrite E1.
  - by rewrite (bytes_lt_trans a b c E1 E2).
Qed.

(** Values that differ from the one before. *)
Fixpoint runs (prev : option bytes) (ps : list bytes) : nat :=
  match ps with [] => O | p :: ps => if bool_decide (prev = Some p) then runs prev ps else S (runs (Some p) ps) end.

Definition others_than (prev : option bytes) (s : gset bytes) : gset bytes := match prev with Some p => s ∖ {[p]} | None => s end.

Lemma size_insert_out `{Countable A} (x : A) (s : gset A) : size ({[x]} ∪ s ∖ {[x]}) = S (size (s ∖ {[x]})).
Proof. rewrite size_union by set_solver. by rewrite size_singleton. Qed.

Lemma size_list_to_set_le `{Countable A} (l : list A) : (size (list_to_set l : gset A) <= length l)%nat.
Proof.
  induction l as [|x l IH]; cbn; [by rewrite size_empty|]. rewrite size_union_alt, size_singleton.
  assert (size ((list_to_set l : gset A) ∖ {[x]}) <= size (list_to_set l : gset A))%nat by (apply subseteq_size; set_solver). lia.
Qed.

(** In order, they are the distinct values. *)
Lemma runs_distinct prev ps :
  StronglySorted (fun a b => bytes_compare a b <> Gt) ps -> (forall p, prev = Some p -> Forall (fun q => bytes_compare p q <> Gt) ps) ->
  runs prev ps = size (others_than prev (list_to_set ps)).
Proof.
  intros Hs. revert prev. induction Hs as [|p ps Hs IH Hall]; intros prev Hprev; cbn [runs list_to_set].
  { symmetry. apply size_empty_iff. destruct prev; set_solver. }
  case_bool_decide as Hp.
  - subst prev. rewrite IH by (intros ? [= <-]; done). cbn [others_than]. f_equal. set_solver.
  - rewrite IH by (intros ? [= <-]; done). cbn [others_than].
    assert (Hno : others_than prev ({[p]} ∪ list_to_set ps) = {[p]} ∪ (list_to_set ps ∖ {[p]})).
    { transitivity (({[p]} : gset bytes) ∪ list_to_set ps).
      2: { apply set_eq. intros x. destruct (decide (x = p)); set_solver. }
      destruct prev as [q|]; cbn [others_than]; [|done].
      apply difference_disjoint_L. apply disjoint_singleton_r. specialize (Hprev q eq_refl). apply List.Forall_cons_iff in Hprev as [Hq Hr].
      rewrite elem_of_union, elem_of_singleton, elem_of_list_to_set. intros [->|Hin]; [done|].
      rewrite Forall_forall in Hall. specialize (Hall q Hin). destruct (bytes_compare p q) eqn:E; [|..].
      - apply bytes_compare_eq in E. by subst.
      - rewrite bytes_compare_antisym, E in Hq. done.
      - done. }
    rewrite Hno. symmetry. apply size_insert_out.
Qed.

Section Sampling.
Context {D It : Type} `{CostDouble D, IterLaws It}.

Lemma sample_runs n (it : It) es fuel s d prev :
  ahead false it = es -> (length es < fuel)%nat -> 0 <= s <= ANALYZE_SAMPLE_LIMIT ->
  sample fuel n it s d prev =
    (s + Z.of_nat (length (take (Z.to_nat (ANALYZE_SAMPLE_LIMIT - s)) es)),
     d + Z.of_nat (runs (if s =? 0 then None else Some prev) (take n <$> (take (Z.to_nat (ANALYZE_SAMPLE_LIMIT - s)) es).*1))).
Proof.
  revert it es s d prev. induction fuel as [|fuel IH]; intros it es s d prev He Hf Hs; [lia|]. cbn [sample].
  destruct es as [|[k v] es].
  { rewrite (ahead_nil false it He), take_nil. cbn [andb fmap list_fmap length runs]. by rewrite !Z.add_0_r. }
  destruct (ahead_cons false it k v es He) as (Hv & Hk & _ & _ & Hn & _). rewrite Hv, Hk. cbn [andb].
  destruct (Z.ltb_spec s ANALYZE_SAMPLE_LIMIT) as [Hlt|Hge].
  2: { replace (Z.to_nat (ANALYZE_SAMPLE_LIMIT - s)) with O by lia. cbn [take fmap list_fmap length runs]. by rewrite !Z.add_0_r. }
  replace (Z.to_nat (ANALYZE_SAMPLE_LIMIT - s)) with (S (Z.to_nat (ANALYZE_SAMPLE_LIMIT - (s + 1)))) by lia.
  cbn [take fmap list_fmap fst length runs]. cbn in Hf. cbn [step] in Hn.
  destruct (Z.eqb_spec s 0) as [->|Hs0]; cbn [orb].
  - rewrite bool_decide_eq_false_2 by done. rewrite (IH _ es) by (done || lia). change (0 + 1 =? 0) with false. f_equal; lia.
  - case_bool_decide as Hp; cbn [negb].
    + subst prev. rewrite bool_decide_eq_true_2 by done. rewrite (IH _ es) by (done || lia). rewrite (proj2 (Z.eqb_neq (s + 1) 0)) by lia. f_equal; lia.
    + rewrite bool_decide_eq_false_2 by congruence. rewrite (IH _ es) by (done || lia). rewrite (proj2 (Z.eqb_neq (s + 1) 0)) by lia. f_equal; lia.
Qed.

(** The prefixes of the entries that are looked at. *)
Definition sampled_prefixes (n : nat) (l : list (bytes * bytes)) : list bytes :=
  take n <$> (take (Z.to_nat ANALYZE_SAMPLE_LIMIT) l).*1.

Lemma prefixes_sorted n m (l : list (bytes * bytes)) : sorted_cf fst l -> StronglySorted (fun a b => bytes_compare a b <> Gt) (take n <$> (take m l).*1).
Proof.
  intros Hs. revert m. induction Hs as [|[k v] l Hs IH Hall]; intros [|m]; cbn; constructor; [apply IH|].
  apply Forall_fmap, Forall_fmap, Forall_take. eapply List.Forall_impl; [|exact Hall]. intros [k' v'] Hlt. by apply take_order.
Qed.

Lemma prefixes_nonempty n (l : list (bytes * bytes)) : l <> [] -> size (list_to_set (sampled_prefixes n l) : gset bytes) <> O.
Proof.
  destruct l as [|e l]; [done|]. intros _. rewrite size_empty_iff. unfold sampled_prefixes.
  replace (Z.to_nat ANALYZE_SAMPLE_LIMIT) with (S (Z.to_nat (ANALYZE_SAMPLE_LIMIT - 1))) by (unfold ANALYZE_SAMPLE_LIMIT; lia).
  generalize (Z.to_nat (ANALYZE_SAMPLE_LIMIT - 1)). intros m Hx. cbn in Hx. specialize (Hx (take n e.1)). set_unfold in Hx. destruct Hx as [Hx _]. auto.
Qed.

(** The loop counts the entries and the distinct prefixes among them. *)
Lemma sample_counts n (it : It) fuel : (length (it_entries it) < fuel)%nat ->
  sample fuel n (tdb_iter_seek_to_first it) 0 0 [] =
    (Z.of_nat (length (sampled_prefixes n (it_entries it))), Z.of_nat (size (list_to_set (sampled_prefixes n (it_entries it)) : gset bytes))).
Proof.
  intros Hf. assert (He : ahead false (tdb_iter_seek_to_first it) = it_entries it).
  { unfold ahead. rewrite first_law, moves_keep by set_solver. by destruct (it_entries it). }
  rewrite (sample_runs n _ (it_entries it)) by (done || (unfold ANALYZE_SAMPLE_LIMIT; lia)). rewrite !Z.add_0_l, Z.sub_0_r. cbn [Z.eqb].
  unfold sampled_prefixes. rewrite !length_fmap. do 2 f_equal.
  rewrite runs_distinct; [done|apply prefixes_sorted, it_sorted|done].
Qed.

Lemma analyzed_other en i0 ks ss i : (i < i0)%nat -> cached_rec_per_key (analyze_indexes (D := D) en i0 ks ss) !! i = cached_rec_per_key ss !! i.
Proof.
  revert i0 ss. induction ks as [|k ks IH]; intros i0 ss Hi; [done|]. cbn. rewrite IH by lia.
  unfold analyze_index. destruct (analyzed_rpk en i0 k); [|done]. cbn. by rewrite list_lookup_insert_ne by lia.
Qed.

(** What ANALYZE TABLE leaves for a key it has a value for. *)
Lemma analyzed_value en i0 ks ss i k r : (i < length (cached_rec_per_key ss))%nat -> (i0 <= i)%nat -> ks !! (i - i0)%nat = Some k ->
  analyzed_rpk en i k = Some r -> cached_rec_per_key (analyze_indexes (D := D) en i0 ks ss) !! i = Some r.
Proof.
  revert i0 ss. induction ks as [|k0 ks IH]; intros i0 ss Hl Hi Hk Hr; [done|]. cbn. destruct (decide (i = i0)) as [->|Hne].
  - rewrite Nat.sub_diag in Hk. cbn in Hk. simplify_eq. rewrite analyzed_other by lia. unfold analyze_index. rewrite Hr. cbn.
    by rewrite list_lookup_insert_eq.
  - replace (i - i0)%nat with (S (i - S i0)) in Hk by lia. cbn in Hk. apply IH; [|lia|done|done].
    unfold analyze_index. destruct (analyzed_rpk en i0 k0); [|done]. cbn. by rewrite length_insert.
Qed.

(** The key statistics do not touch the sampled values. *)
Lemma refresh_keeps_rpk en now cas ss : cached_rec_per_key (refresh_stats (D := D) (It := It) en now cas ss) = cached_rec_per_key ss.
Proof. unfold refresh_stats. destruct (_ && cas); [|done]. by destruct (se_cf_stats en None). Qed.

Lemma info_keeps_rpk en f now cas st : cached_rec_per_key (info (D := D) (It := It) en f now cas st).1 = cached_rec_per_key st.1.
Proof. destruct st as [ss h]. cbn. destruct (_ && se_cf en); [apply refresh_keeps_rpk|done]. Qed.

(** A non-unique key: the value of its last part is the sampled one. *)
Lemma info_last_part en now cas st i k r : se_keys en !! i = Some k -> is_pk_of en i = false -> sk_nosame k = false -> 0 < r ->
  cached_rec_per_key st.1 !! i = Some r -> (0 < user_defined_key_parts k <= sk_actual_key_parts k)%nat ->
  sh_rec_per_key (info (D := D) (It := It) en const_only now cas st).2 !! i ≫= (.!! (user_defined_key_parts k - 1)%nat) = Some r.
Proof.
  intros Hk Hp Hu Hr Hc Hn. destruct st as [ss h]. cbn -[rec_per_key_of refresh_stats]. rewrite list_lookup_imap, Hk. cbn -[refresh_stats].
  unfold rec_per_key_of. rewrite list_lookup_fmap, lookup_seq_lt by lia. cbn -[refresh_stats]. rewrite Hp, Hu. cbn [orb].
  unfold rec_per_key_part. rewrite (proj2 (Nat.eqb_eq _ _)) by lia.
  replace (cached_rec_per_key (if se_cf en then refresh_stats en now cas ss else ss)) with (cached_rec_per_key ss).
  - cbn in Hc. rewrite Hc. cbn. by rewrite (proj2 (Z.ltb_lt 0 r)).
  - destruct (se_cf en); [symmetry; apply refresh_keeps_rpk|done].
Qed.

(** An exact sample: the rows per value, rounded down. *)
Lemma exact_sample total n d : total <= n -> 0 < d <= n -> sampled_rec_per_key (D := D) total n d = n `div` d /\ 1 <= n `div` d.
Proof.
  intros Ht Hd. assert (Hq : 1 <= n `div` d) by (apply Z.div_le_lower_bound; lia). split; [|done].
  unfold sampled_rec_per_key. rewrite (proj2 (Z.ltb_ge n _)) by (case_match; lia). by rewrite (proj2 (Z.eqb_neq _ 0)) by lia.
Qed.

Lemma sampled_floor `{!CostLaws D} total n d : 0 < d <= n -> 1 <= sampled_rec_per_key (D := D) total n d.
Proof.
  intros Hd. unfold sampled_rec_per_key. set (t := if 0 <? total then total else n). assert (0 < t) by (unfold t; destruct (Z.ltb_spec 0 total); lia).
  assert (Hf : forall x, 0 <= x -> 1 <= if x =? 0 then REC_PER_KEY_FLOOR else x).
  { intros x Hx. unfold REC_PER_KEY_FLOOR. destruct (Z.eqb_spec x 0); lia. }
  destruct (n <? t); apply Hf.
  - apply Z.div_pos; [lia|]. destruct (Z.eqb_spec (to_u64 (cmul (of_u64 d) (cdiv (of_u64 t) (of_u64 n)))) 0); [lia|].
    pose proof (to_u64_fits (cmul (of_u64 d) (cdiv (of_u64 t) (of_u64 n)))) as [? ?]. lia.
  - apply Z.div_pos; lia.
Qed.

(** After ANALYZE TABLE the rows per value that [info] reports for the last part of a
    non-unique index come from the number of distinct values among the first 100000 entries in
    key order: exactly entries divided by values when the sample covers the index, and never
    below one. *)
Theorem analyze_counts_distinct `{!CostLaws D} (en : stat_env (D := D) (It := It)) (now : Z) (cas : bool) (now2 : Z) (cas2 : bool)
    (ss : share_stats) (h : stat_handler) (i : nat) (k : stat_key) (it : It) (st0 : cf_stats) :
  se_cf en = true -> se_cf_stats en None = Some st0 -> se_keys en !! i = Some k -> (i < length (cached_rec_per_key ss))%nat ->
  is_pk_of en i = false -> se_idx_cfs en !! i = Some true -> sk_nosame k = false -> se_idx_comp_key_len en i <> O ->
  (0 < user_defined_key_parts k <= sk_actual_key_parts k)%nat -> se_iter en (Some i) = Some it -> it_entries it <> [] ->
  exists st' : share_stats * stat_handler, analyze en HA_OK now cas now2 cas2 (ss, h) = (HA_ADMIN_OK, st') /\
    let ps := sampled_prefixes (se_idx_comp_key_len en i) (it_entries it) in
    let d := Z.of_nat (size (list_to_set ps : gset bytes)) in
    let total := match se_cf_stats en (Some i) with Some ist => total_keys ist | None => 0 end in
    let reported := sampled_rec_per_key (D := D) total (Z.of_nat (length ps)) d in
    sh_rec_per_key st'.2 !! i ≫= (.!! (user_defined_key_parts k - 1)%nat) = Some reported /\ 1 <= reported /\
    (total <= Z.of_nat (length ps) -> reported = Z.of_nat (length ps) `div` d).
Proof.
  intros Hcf Hst Hk Hlen Hpk Hix Hu Hcl Hparts Hit Hne. unfold analyze. rewrite Hcf, Hst. cbn [negb]. eexists. split; [reflexivity|].
  set (ps := sampled_prefixes _ _). set (d := Z.of_nat (size _)). set (total := match se_cf_stats en (Some i) with Some ist => _ | None => _ end).
  set (reported := sampled_rec_per_key _ _ _).
  assert (Hd : 0 < d <= Z.of_nat (length ps)).
  { subst d. split; [|pose proof (size_list_to_set_le ps); lia]. assert (size (list_to_set ps : gset bytes) <> 0)%nat; [|lia].
    by apply prefixes_nonempty. }
  assert (Hv : analyzed_rpk en i k = Some reported).
  { unfold analyzed_rpk. rewrite Hpk, Hix, Hu, (proj2 (Nat.eqb_neq _ 0)) by done. cbn [negb orb default]. rewrite Hit. cbn [mbind option_bind].
    rewrite sample_counts by (rewrite it_fuel; lia). fold ps. fold d. by rewrite (proj2 (Z.ltb_lt 0 d)) by lia. }
  assert (Hr : 1 <= reported) by (by apply sampled_floor).
  split; [|split; [done|intros Ht; by apply exact_sample]].
  apply info_last_part; [done..|lia| |done]. cbn [fst]. apply (analyzed_value en 0 _ _ i k); [|lia|by rewrite Nat.sub_0_r|done].
  by rewrite info_keeps_rpk.
Qed.
End Sampling.

(** ** Bounds *)

Section Bounds.
Context {D It : Type} `{CostLaws D, IterOps It}.

Lemma rec_per_key_floor recs cached one parts j : 1 <= rec_per_key_part (D := D) recs cached one parts j.
Proof.
  unfold rec_per_key_part, REC_PER_KEY_UNIQUE, REC_PER_KEY_FLOOR. destruct one; [case_match; lia|].
  destruct (Nat.eqb (S j) parts); [destruct (Z.ltb_spec 0 cached)|]; lia.
Qed.

Lemma table_rows_pos (ss : share_stats (D := D)) : 0 <= cached_records ss -> 1 <= table_rows ss.
Proof. intros Hr. unfold table_rows, TIDESDB_MIN_STATS_RECORDS. destruct (Z.eqb_spec (cached_records ss) 0); lia. Qed.

Lemma quarter_bounds total : 1 <= total -> 1 <= total `div` TIDESDB_RIR_UNKNOWN_DENOM + REC_PER_KEY_FLOOR <= total.
Proof. unfold TIDESDB_RIR_UNKNOWN_DENOM, REC_PER_KEY_FLOOR. intros Ht. Z.to_euclidean_division_equations. lia. Qed.

Lemma point_bounds rpk inx k total map : 1 <= total -> 1 <= point_estimate rpk inx k total map <= total.
Proof.
  intros Ht. unfold point_estimate, REC_PER_KEY_FLOOR. destruct (_ && _); [|lia].
  destruct (Z.ltb_spec 0 (default 0 (rpk !! inx ≫= (.!! (my_count_bits map - 1)%nat)))); lia.
Qed.

(** An estimate of the engine; its figures are unsigned. *)
Lemma range_bounds_ok (en : stat_env (D := D) (It := It)) cf total lo hi : 1 <= total ->
  (forall e x o, se_range_stats en cf lo hi = Some (e, x, o) -> 0 <= e) ->
  1 <= range_estimate en cf total lo hi /\
  (range_estimate en cf total lo hi <= total \/ exists o, se_range_stats en cf lo hi = Some (range_estimate en cf total lo hi, true, o)).
Proof.
  intros Ht Hu. unfold range_estimate. destruct (se_range_stats en cf lo hi) as [[[e x] o]|] eqn:Hs.
  - specialize (Hu e x o eq_refl). unfold REC_PER_KEY_FLOOR. destruct (Z.eqb_spec e 0) as [->|He].
    + rewrite (proj2 (Z.ltb_ge total 1)) by lia. rewrite andb_false_r. split; [lia|left; lia].
    + destruct x; cbn [negb andb]; [split; [lia|right; by exists o]|]. destruct (Z.ltb_spec total e); split; (lia || (left; lia)).
  - pose proof (quarter_bounds total Ht). split; [lia|left; lia].
Qed.

(** C40: The estimates given to the optimizer stay in bounds: every rows-per-key figure of [info] is
    at least one, and that of a leading part of a non-unique key at most the rows of the table; and
    for every range whose ends fit the key buffers [records_in_range] gives an estimate of at least
    one row and at most the rows of the table, except where the engine counted exactly. *)
Theorem estimates_in_bounds (make_sort_key : Field -> bytes -> Z -> bytes) (store_length : KEY_PART_INFO -> Z)
    (key_restore : KEY -> bytes -> Z -> record) (calculate_key_len : nat -> list bool -> Z) (max_key_length : nat)
    (en : stat_env (D := D) (It := It)) (ss : share_stats) (rpk : list (list Z)) (inx : nat) (k : stat_key) (min_key max_key : option key_range)
    (Hrows : 0 <= cached_records ss) (Hunsigned : forall cf lo hi e x o, se_range_stats en cf lo hi = Some (e, x, o) -> 0 <= e)
    (Hfit : is_Some (range_bounds make_sort_key store_length key_restore calculate_key_len max_key_length en inx k min_key max_key)) :
  (forall recs i key rs r, se_keys en !! i = Some key -> rec_per_key_of en ss recs i key !! rs = Some r -> 1 <= r /\
     ((S rs < user_defined_key_parts key)%nat -> is_pk_of en i = false -> sk_nosame key = false -> r <= Z.max recs 1)) /\
  exists est, records_in_range make_sort_key store_length key_restore calculate_key_len max_key_length en (Some ss) rpk inx k min_key max_key = Some est /\
    1 <= est /\ (est <= table_rows ss \/ exists lo hi o, se_range_stats en (if is_pk_of en inx then None else Some inx) lo hi = Some (est, true, o)).
Proof.
  pose proof (table_rows_pos ss Hrows) as Ht. split.
  - intros recs i key j r _ Hr. unfold rec_per_key_of in Hr. rewrite list_lookup_fmap in Hr. apply fmap_Some in Hr as (j' & Hj & ->).
    apply lookup_seq in Hj as [-> _]. split; [apply rec_per_key_floor|]. cbn [Nat.add]. intros Hj Hp Hu. rewrite Hp, Hu. cbn [orb].
    unfold rec_per_key_part. rewrite (proj2 (Nat.eqb_neq _ _)) by lia. unfold REC_PER_KEY_FLOOR. lia.
  - unfold records_in_range. destruct (is_pk_of en inx || _); cbn [negb].
    2: { eexists. split; [done|]. pose proof (quarter_bounds _ Ht). split; [lia|left; lia]. }
    destruct Hfit as [[lo hi] Hb]. rewrite Hb. cbn [mbind option_bind]. eexists. split; [done|].
    assert (Hrange : forall cf, cf = (if is_pk_of en inx then None else Some inx) -> 1 <= range_estimate en cf (table_rows ss) lo hi /\
       (range_estimate en cf (table_rows ss) lo hi <= table_rows ss \/
        exists lo' hi' o, se_range_stats en cf lo' hi' = Some (range_estimate en cf (table_rows ss) lo hi, true, o))).
    { intros cf _. destruct (range_bounds_ok en cf (table_rows ss) lo hi Ht (Hunsigned cf lo hi)) as [Ha [Hb'|[o Hb']]]; [by auto|].
      split; [done|right; by exists lo, hi, o]. }
    specialize (Hrange _ eq_refl). destruct min_key as [mn|], max_key as [mx|]; try exact Hrange.
    destruct (_ && _); [|exact Hrange]. pose proof (point_bounds rpk inx k _ (kr_map mn) Ht). split; [lia|left; lia].
Qed.
End Bounds.

(** ** Search keys *)

Section SearchKeys.
Variable make_sort_key : Field -> bytes -> Z -> bytes.
Variable store_length : KEY_PART_INFO -> Z.
Variable key_restore : KEY -> bytes -> Z -> record.
Context (Hlen : sort_key_length make_sort_key) (Hpos : forall kp, 0 < store_length kp).

Definition image_length (kps : list KEY_PART_INFO) : Z := foldr (fun kp n => store_length kp + n) 0 kps.

Lemma image_length_nonneg kps : 0 <= image_length kps.
Proof. induction kps as [|kp kps IH]; cbn; [done|]. specialize (Hpos kp). unfold image_length in IH. lia. Qed.

(** A key image of the first [n] parts covers these parts. *)
Lemma parts_covered_image kps n len : (n <= length kps)%nat -> parts_covered store_length kps len (len + image_length (take n kps)) = n.
Proof.
  revert n len. induction kps as [|kp kps IH]; intros [|n] len Hn; cbn [length take parts_covered] in *; try lia.
  - change (image_length []) with 0. specialize (Hpos kp). by rewrite (proj2 (Z.ltb_lt _ _)) by lia.
  - change (image_length (kp :: take n kps)) with (store_length kp + image_length (take n kps)). pose proof (image_length_nonneg (take n kps)).
    rewrite (proj2 (Z.ltb_ge _ _)) by lia. f_equal. rewrite Z.add_assoc. apply IH. lia.
Qed.

Lemma key_bytes_app kps kps' rec : key_bytes make_sort_key (kps ++ kps') rec = key_bytes make_sort_key kps rec ++ key_bytes make_sort_key kps' rec.
Proof. induction kps as [|kp kps IH]; cbn; [done|]. by rewrite IH, app_assoc. Qed.

Lemma key_bytes_agree kps r1 r2 : Forall (fun kp => r1 (fieldnr kp) = r2 (fieldnr kp)) kps -> key_bytes make_sort_key kps r1 = key_bytes make_sort_key kps r2.
Proof. induction 1 as [|kp kps E _ IH]; cbn; [done|]. by rewrite E, IH. Qed.

(** The comparable form of a key image of [n] parts is a prefix of the key of every row with
    these values, and of the index entry made from it. *)
Lemma search_key_prefix (ki : KEY) (buf : bytes) (n room : nat) (rec : record) :
  (0 < n <= length (key_part ki))%nat ->
  let kl := image_length (take n (key_part ki)) in
  rec_ok (take n (key_part ki)) (key_restore ki buf kl) -> (keys_width (take n (key_part ki)) <= room)%nat ->
  Forall (fun kp => key_restore ki buf kl (fieldnr kp) = rec (fieldnr kp)) (take n (key_part ki)) ->
  exists p, key_copy_to_comparable make_sort_key store_length key_restore ki buf kl room = Some p /\
    has_prefix p (key_bytes make_sort_key (key_part ki) rec) = true.
Proof.
  intros Hn kl Hok Hroom Hagree. exists (key_bytes make_sort_key (take n (key_part ki)) (key_restore ki buf kl)). split.
  - unfold key_copy_to_comparable. subst kl. rewrite <- (Z.add_0_l (image_length _)), parts_covered_image by lia. rewrite Z.add_0_l.
    rewrite (proj2 (Nat.eqb_neq n 0)) by lia. unfold make_comparable_key. change 0 with (Z.of_nat 0).
    rewrite put_parts_spec by (done || (rewrite length_replicate; lia)). cbn [mbind option_bind]. f_equal.
    rewrite Nat2Z.id, Nat.add_0_l. unfold memcpy_at. change (take 0 (replicate room (Z.of_nat 0))) with (@nil Z). rewrite app_nil_l. apply take_app_length'. by rewrite key_bytes_length.
  - apply has_prefix_iff. exists (key_bytes make_sort_key (drop n (key_part ki)) rec).
    rewrite <- (take_drop n (key_part ki)) at 1. rewrite key_bytes_app. f_equal. by symmetry; apply key_bytes_agree.
Qed.
End SearchKeys.

(** The upper end of a range on a secondary index is the comparable form of the value alone:
    the entries of that value continue with their primary key and lie above it. *)
Lemma upper_value_not_counted (hi pk : bytes) : pk <> [] -> bytes_lt hi (hi ++ pk).
Proof. intros Hpk. unfold bytes_lt. rewrite <- (app_nil_r hi) at 1. rewrite bytes_compare_app. by destruct pk. Qed.

(** ** A table with an index

    Costs in integers are an instance of the interface. *)

#[export] Instance int_costs : CostDouble Z := {
  of_q q := Qnum q `div` Zpos (Qden q);
  of_u64 z := z;
  cadd := Z.add;
  cmul := Z.mul;
  cdiv := Z.div;
  cpow := Z.pow;
  positive z := 0 <? z;
  nonpositive z := z <=? 0;
  cless := Z.ltb;
  to_u64 := u64
}.

#[export] Instance int_costs_laws : CostLaws Z.
Proof. split. intros d. apply Z.mod_pos_bound. done. Qed.

Definition stat_entries : list (bytes * bytes) := [([5; 1], [0]); ([5; 2], [0]); ([5; 4], [0]); ([6; 3], [0])].
Definition stat_iter : list_iter := mk_li stat_entries None eq_refl.

Definition byte_part (n : nat) : KEY_PART_INFO := mk_part n (mk_field MYSQL_TYPE_TINY false true my_charset_bin 1 1) 1.
Definition pk_key : stat_key := mk_sk (mk_tkey [] (mk_key [byte_part 0] false) HA_KEY_ALG_BTREE) true 1 1.
Definition demo_sec : stat_key := mk_sk (mk_tkey [] (mk_key [byte_part 1] false) HA_KEY_ALG_BTREE) false 2 1.

Definition stat_demo : stat_env (D := Z) (It := list_iter) :=
  mk_senv [pk_key; demo_sec] true 0 1 8 true [false; true] (fun _ => 1%nat) 0 0 (fun _ => Some (mk_cfs 0 4 0 0 0 1)) (fun _ => TDB_SUCCESS)
    (fun _ => Some stat_iter) (fun _ _ _ => Some (9, false, 1)).

Definition no_stats : share_stats (D := Z) := mk_ss 4 0 0 0 1 (replicate 2 0) 0 0 0.
Definition no_handler : stat_handler := mk_sh (mk_hs 0 0 0 0 0 0 0 0) 0 0 0 [].

Lemma stat_sample : let ps := sampled_prefixes 1 stat_entries in
  sampled_rec_per_key (D := Z) 0 (Z.of_nat (length ps)) (Z.of_nat (size (list_to_set ps : gset bytes))) = 2.
Proof. vm_compute. reflexivity. Qed.

(** Four entries of two values: two rows per value. *)
Lemma analyze_counts_distinct_witness :
  exists st', analyze stat_demo HA_OK 5000000 true 5000001 true (no_stats, no_handler) = (HA_ADMIN_OK, st') /\
    sh_rec_per_key st'.2 !! 1%nat ≫= (.!! 0%nat) = Some 2.
Proof.
  destruct (analyze_counts_distinct stat_demo 5000000 true 5000001 true no_stats no_handler 1 demo_sec stat_iter (mk_cfs 0 4 0 0 0 1)
              eq_refl eq_refl eq_refl ltac:(cbn; lia) eq_refl eq_refl eq_refl ltac:(done) ltac:(cbn; lia) eq_refl ltac:(done)) as (st' & Ha & Hr & _).
  exists st'. split; [exact Ha|]. exact (eq_trans Hr (f_equal Some stat_sample)).
Defined.

Definition toy_restore (ki : KEY) (b : bytes) (n : Z) : record := fun i => Some (take 1 b).

(** A range of the index: the engine's estimate of nine rows is cut to the four of the table. *)
Lemma estimates_in_bounds_witness :
  exists est, records_in_range (fun _ b _ => b) (fun _ => 1) toy_restore (fun _ _ => 1) 16 stat_demo (Some no_stats) [] 1 demo_sec
      (Some (mk_range (Some [5]) [true])) None = Some est /\ 1 <= est <= 4.
Proof.
  destruct (proj2 (estimates_in_bounds (fun _ b _ => b) (fun _ => 1) toy_restore (fun _ _ => 1) 16 stat_demo no_stats [] 1 demo_sec
              (Some (mk_range (Some [5]) [true])) None ltac:(cbn; lia) ltac:(intros ?????? [= <- <- <-]; lia) ltac:(vm_compute; eauto)))
    as (est & He & H1 & [H2|(lo & hi & o & H2)]).
  - exists est. split; [exact He|]. split; [exact H1|exact H2].
  - exfalso. discriminate H2.
Defined.
