(* ===== verification/BulkDml.v ===== *)
(** * Bulk statements (ha_tidesdb.cc 7629-7757, 7285-7324)

    The brackets that the server puts around statements of many rows.  Inside a bulk
    insert the changes of the full-text totals are collected in the handler and written
    once at the end; inside a bulk delete the touched key range is collected, and the end
    compacts it when enough rows went.  The row operations are those of the row changes;
    the flags of the brackets are their statement's. *)

From Stdlib Require Import ZArith Lia.
From stdpp Require Import base tactics list numbers gmap sets.
From S2P Require Import Prelude Errors KeyCodec Scan RowCodec Fts Dml.

Open Scope dml_scope.

(** [in_bulk_insert_], [in_bulk_update_], [in_bulk_delete_] and [bulk_delete_rows_] beside
    the handler's state. *)
Record bulk := mk_bulk { b_insert : bool; b_update : bool; b_delete : bool; b_rows : Z }.

Definition no_bulk : bulk := mk_bulk false false false 0.

Definition env_in (b : bulk) (en : stmt_env) : stmt_env :=
  mk_env (en_autoinc en) (en_ensure en) (en_pessimistic en) (en_lock en) (en_skip_unique en) (en_sess_ttl en) (en_write_can_replace en)
    (en_write_set en) (b_insert b) (b_update b) (b_delete b) (en_compact_min_rows en) (en_single_delete_primary en) (en_iter_live en) (en_seek en) (en_stray en) (en_key en).

Section Bulk.
Context {Rec : Type} `{TableCodec Rec}.
Variable sh : share.

(** *** Insert *)

Definition start_bulk_insert (st : bulk * hstate) : bulk * hstate :=
  let '(b, s) := st in
  (mk_bulk true (b_update b) (b_delete b) (b_rows b),
   set_delta (foldr (fun i d => <[i := (0, 0)]> d) (fts_delta s) (seq 0 (length (keys sh)))) (set_bulk 0 (bulk_bounds s) s)).

Definition is_fts (ix : index) : bool := match ix_kind ix with Fulltext => true | _ => false end.

(** One key: its totals are written unless nothing was collected. *)
Definition flush_meta (e : nat * index) (st : ha_rc * hstate) : ha_rc * hstate :=
  let '(sticky, s) := st in
  let '(docs, words) := default (0, 0) (fts_delta s !! e.1) in
  if (docs =? 0) && (words =? 0) then st
  else if negb (is_fts e.2) then st
  else
    let '(rc, s) := fts_update_meta e.1 docs words s in
    (if negb (bool_decide (rc = TDB_SUCCESS)) && bool_decide (sticky = HA_OK) then ha_of_rc rc else sticky,
     set_delta (<[e.1 := (0, 0)]> (fts_delta s)) s).

(** [has_txn]: the statement has a transaction. *)
Definition end_bulk_insert (has_txn : bool) (st : bulk * hstate) : ha_rc * (bulk * hstate) :=
  let '(b, s) := st in
  let '(rc, s) := if has_txn then foldl (fun st e => flush_meta e st) (HA_OK, s) (numbered sh) else (HA_OK, s) in
  (rc, (mk_bulk false (b_update b) (b_delete b) (b_rows b), s)).

(** *** Update: the server is told not to batch. *)

Definition start_bulk_update (st : bulk * hstate) : bool * (bulk * hstate) :=
  let '(b, s) := st in (true, (mk_bulk (b_insert b) false (b_delete b) (b_rows b), set_bulk 0 (bulk_bounds s) s)).

Definition tdb_end_bulk_update (st : bulk * hstate) : bulk * hstate :=
  let '(b, s) := st in (mk_bulk (b_insert b) false (b_delete b) (b_rows b), s).

(** The rows of duplicates found later: none. *)
Definition bulk_update_row (en : stmt_env) (old new : Rec) (st : bulk * hstate) : (ha_rc + unit) * nat * (bulk * hstate) :=
  let '(b, s) := st in let '(r, s) := update_row sh (env_in b en) old new s in (r, O, (b, s)).

(** *** Delete *)

Definition start_bulk_delete (st : bulk * hstate) : bulk * hstate :=
  let '(b, s) := st in (mk_bulk (b_insert b) (b_update b) true 0, set_bulk 0 None s).

(** [delete_row] with its counter of rows. *)
Definition bulk_delete_row (en : stmt_env) (rec : Rec) (st : bulk * hstate) : (ha_rc + unit) * (bulk * hstate) :=
  let '(b, s) := st in
  let counts := bool_decide (en_ensure en = HA_OK) && b_delete b && (0 <? en_compact_min_rows en) in
  let '(r, s) := delete_row sh (env_in b en) rec s in
  (r, (mk_bulk (b_insert b) (b_update b) (b_delete b) (if counts then b_rows b + 1 else b_rows b), s)).

(** The second result is the range that is compacted. *)
Definition end_bulk_delete (en : stmt_env) (st : bulk * hstate) : option (bytes * bytes) * (bulk * hstate) :=
  let '(b, s) := st in
  (if (0 <? en_compact_min_rows en) && (en_compact_min_rows en <=? b_rows b) then bulk_bounds s else None,
   (mk_bulk (b_insert b) (b_update b) false 0, set_bulk (bulk_ops s) None s)).

(** ** Full-text totals

    [at_index] is what there is on the totals of an index: the stored entry, and what is
    collected in the handler. *)

Definition at_index (i : nat) (s : hstate) : option bytes * (Z * Z) :=
  (fst <$> cf_of None s !! fts_meta_key i, default (0, 0) (fts_delta s !! i)).

Definition live_totals (i : nat) (s : hstate) : Z * Z :=
  let '(m, (d, w)) := at_index i s in ((fts_load_meta m).1 + d, (fts_load_meta m).2 + w).

(** Without failures of the engine, [m] acts on the totals of [i] as [f]. *)
Definition acts {A} (i : nat) (m : M A) (f : option bytes * (Z * Z) -> option bytes * (Z * Z)) : Prop :=
  forall s a s', faults s = [] -> m s = (inr a, s') -> at_index i s' = f (at_index i s) /\ faults s' = [].

Lemma acts_ret {A} i (a : A) : acts i (ret a) id.
Proof. intros s b s' Hf [= <- <-]. done. Qed.

Lemma acts_fail {A} i rc : acts i (@fail A rc) id.
Proof. intros s b s' Hf Hm. discriminate Hm. Qed.

Lemma acts_bind {A B} i (m : M A) (k : A -> M B) f g : acts i m f -> (forall a, acts i (k a) g) -> acts i (bind m k) (fun x => g (f x)).
Proof.
  intros Hm Hk s b s' Hf (a & s1 & H1 & H2)%bind_ok. destruct (Hm _ _ _ Hf H1) as [E1 F1]. destruct (Hk a _ _ _ F1 H2) as [E2 F2].
  by rewrite E2, E1.
Qed.

Lemma acts_seq {A B} i (m : M A) (k : A -> M B) g : acts i m id -> (forall a, acts i (k a) g) -> acts i (bind m k) g.
Proof. apply acts_bind. Qed.

Lemma acts_modify i (g : hstate -> hstate) : (forall s, cfs (g s) = cfs s /\ fts_delta (g s) = fts_delta s /\ faults (g s) = faults s) -> acts i (modify g) id.
Proof.
  intros Hg s a s' Hf [= <- <-]. destruct (Hg s) as (E1 & E2 & E3). unfold at_index, cf_of. rewrite E1, E2, E3. done.
Qed.

Lemma acts_when i b m : acts i m id -> acts i (when b m) id.
Proof. destruct b; [done|]. intros _. apply acts_ret. Qed.

Lemma acts_mfor {A} i (f : A -> M unit) (l : list A) : (forall a, a ∈ l -> acts i (f a) id) -> acts i (mfor f l) id.
Proof.
  induction l as [|a l IH]; intros Hf; [apply acts_ret|]. apply (acts_bind i (f a) (fun _ => mfor f l) id id).
  - apply Hf. set_solver.
  - intros _. apply IH. set_solver.
Qed.

Lemma next_rc_clean s : faults s = [] -> next_rc s = (TDB_SUCCESS, s).
Proof. unfold next_rc. by intros ->. Qed.

(** Puts into an index or of a row leave the totals. *)
Lemma acts_put i c k v ttl : (c = None -> exists pk, k = build_data_key pk) -> acts i (checked (tidesdb_txn_put c k v ttl)) id.
Proof.
  intros Hc s a s' Hf Hm. destruct a. apply checked_ok in Hm. unfold tidesdb_txn_put in Hm. rewrite next_rc_clean in Hm by done.
  rewrite bool_decide_eq_true_2 in Hm by done. simplify_eq. split; [|done]. unfold at_index. destruct c as [j|].
  - by rewrite cf_log, cf_upd_other by done.
  - destruct (Hc eq_refl) as [pk ->]. rewrite cf_log, cf_upd_same, lookup_insert_ne; [done|]. by apply not_eq_sym, meta_not_data.
Qed.

Lemma meta_key_inj i j : (i < 256)%nat -> (j < 256)%nat -> fts_meta_key i = fts_meta_key j -> i = j.
Proof.
  intros Hi Hj He. unfold fts_meta_key in He. assert (Hu : u8 (Z.of_nat i) = u8 (Z.of_nat j)) by (cbn in He; by injection He).
  unfold u8 in Hu. rewrite !Z.mod_small in Hu by lia. lia.
Qed.

Lemma update_meta_clean j d w s : faults s = [] ->
  fts_update_meta j d w s =
    (TDB_SUCCESS, log_write None (fts_meta_key j) OpPut
       (upd_cf None <[fts_meta_key j := (fts_meta_value (fst <$> cf_of None s !! fts_meta_key j) d w, TIDESDB_TTL_NONE)]> s)).
Proof.
  intros Hf. unfold fts_update_meta, tdb_txn_get. rewrite next_rc_clean by done.
  destruct (cf_of None s !! fts_meta_key j) as [v|]; unfold tidesdb_txn_put; rewrite next_rc_clean by done;
    by rewrite bool_decide_eq_true_2.
Qed.

(** What an insert does to the totals of index [i]. *)
Definition entry_change (en : stmt_env) (i : nat) (ix : index) (rec : Rec) (x : option bytes * (Z * Z)) : option bytes * (Z * Z) :=
  let '(m, (d, w)) := x in
  if is_fts ix then
    if en_bulk_insert en then (m, (d + FTS_DOC_DELTA_ADD, w + fts_wc i rec)) else (Some (fts_meta_value m FTS_DOC_DELTA_ADD (fts_wc i rec)), (d, w))
  else x.

Lemma acts_ext {A} i (m : M A) f g : (forall x, f x = g x) -> acts i m f -> acts i m g.
Proof. intros He Hm s a s' Hf Hs. rewrite <- He. by apply (Hm s a). Qed.

Lemma acts_insert_same en rec pk ttl i ix : acts i (insert_entry sh en rec pk ttl (i, ix)) (entry_change en i ix rec).
Proof.
  unfold insert_entry, entry_change, is_fts. destruct (ix_kind ix).
  - eapply acts_ext; [|by apply acts_put]. by intros [m [d w]].
  - eapply (acts_ext i _ (fun x => (if en_bulk_insert en then fun '(m, (d, w)) => (m, (d + FTS_DOC_DELTA_ADD, w + fts_wc i rec))
                                    else fun '(m, (d, w)) => (Some (fts_meta_value m FTS_DOC_DELTA_ADD (fts_wc i rec)), (d, w))) (id x))).
    { intros [m [d w]]. by destruct (en_bulk_insert en). }
    apply acts_bind; [apply acts_mfor; intros t _; by apply acts_put|]. intros _. destruct (en_bulk_insert en).
    + intros s [] s' Hf [= <-]. unfold at_index. destruct (default (0, 0) (fts_delta s !! i)) as [d w] eqn:Hd. cbn [fts_delta set_delta faults].
      rewrite lookup_insert_eq. done.
    + intros s [] s' Hf ->%unchecked_ok. rewrite update_meta_clean by done. cbn [snd]. split; [|done]. unfold at_index.
      rewrite cf_log, cf_upd_same, lookup_insert_eq. cbn. by destruct (default (0, 0) (fts_delta s !! i)).
  - destruct (spatial_entry i rec) as [[h mb]|]; (eapply acts_ext; [|by apply acts_put || apply acts_ret]); by intros [m [d w]].
Qed.

Lemma acts_insert_other en rec pk ttl i e : (i < 256)%nat -> (e.1 < 256)%nat -> e.1 <> i -> acts i (insert_entry sh en rec pk ttl e) id.
Proof.
  intros Hi Hj Hne. destruct e as [j jx]. cbn in Hj, Hne. unfold insert_entry. destruct (ix_kind jx).
  - by apply acts_put.
  - apply (acts_bind i _ _ id id); [apply acts_mfor; intros t _; by apply acts_put|]. intros _. destruct (en_bulk_insert en).
    + intros s [] s' Hf [= <-]. unfold at_index. destruct (default (0, 0) (fts_delta s !! j)). cbn [fts_delta set_delta faults].
      by rewrite lookup_insert_ne.
    + intros s [] s' Hf ->%unchecked_ok. rewrite update_meta_clean by done. cbn [snd]. split; [|done]. unfold at_index.
      rewrite cf_log, cf_upd_same, lookup_insert_ne; [done|]. intros He. by apply meta_key_inj in He.
  - destruct (spatial_entry j rec) as [[h mb]|]; [by apply acts_put|apply acts_ret].
Qed.

(** The loop over the indexes acts once. *)
Lemma acts_indexes i ix (f : nat * index -> M unit) g (l : list (nat * index)) : NoDup l.*1 -> (i, ix) ∈ l -> acts i (f (i, ix)) g -> (forall e, e ∈ l -> e.1 <> i -> acts i (f e) id) ->
  acts i (mfor f l) g.
Proof.
  induction l as [|e l IH]; intros Hnd Hin Hg Ho; [by apply not_elem_of_nil in Hin|]. rewrite fmap_cons in Hnd. apply NoDup_cons in Hnd as [Hni Hnd].
  apply elem_of_cons in Hin as [<-|Hin].
  - apply (acts_bind i _ _ g id); [done|]. intros _. apply acts_mfor. intros e He. apply Ho; [set_solver|]. intros Heq. apply Hni.
    apply list_elem_of_fmap. by exists e.
  - apply (acts_ext i _ (fun x => g (id x))); [done|]. apply acts_bind.
    + apply Ho; [set_solver|]. intros Heq. apply Hni. apply list_elem_of_fmap. exists (i, ix). done.
    + intros _. apply IH; [done|done|done|]. intros e' He'. apply Ho. set_solver.
Qed.

Lemma acts_count i on n : acts i (count_bulk on n) id.
Proof.
  apply acts_when. apply (acts_bind i _ _ id id); [by apply acts_modify|]. intros _ s a s' Hf. destruct (_ <=? bulk_ops s); [|by intros [= <- <-]].
  apply (acts_bind i _ _ id id); [|intros _; by apply acts_modify|done].
  apply (acts_bind i _ _ id id); [|intros _; by apply acts_modify].
  intros s0 [] s0' Hf0 Hc%checked_ok. rewrite next_rc_clean in Hc by done. by simplify_eq.
Qed.

Lemma get_clean c k s rc v s' : faults s = [] -> tdb_txn_get c k s = (rc, v, s') -> s' = s.
Proof. intros Hf. unfold tdb_txn_get. rewrite next_rc_clean by done. destruct (cf_of c s !! k); congruence. Qed.

Lemma acts_pk_check i en skip pk : acts i (pk_dup_check sh en skip pk) id.
Proof.
  unfold pk_dup_check. destruct (_ && _); [|apply acts_ret]. intros s a s' Hf. destruct (tdb_txn_get None (build_data_key pk) s) as [[rc v] s1] eqn:Hg.
  apply get_clean in Hg as ->; [|done]. destruct rc; try discriminate. by intros [= <- <-].
Qed.

Lemma acts_unique i en rec : acts i (unique_check sh en rec) id.
Proof.
  unfold unique_check. destruct (en_skip_unique en); [apply acts_ret|]. apply acts_mfor. intros [j jx] _. unfold unique_check_one.
  destruct (match ix_kind jx with Regular => _ | _ => _ end); [|apply acts_ret]. apply acts_seq.
  - intros s a s' Hf. destruct (dup_iter s !! j); [by intros [= <- <-]|]. intros Hm. revert Hf Hm.
    apply (acts_seq i _ _ id); [|intros _; by apply acts_modify]. intros s0 [] s0' Hf0 Hc%checked_ok. rewrite next_rc_clean in Hc by done. by simplify_eq.
  - intros _ s a s' Hf. case_match; [case_bool_decide; [discriminate|]|]; by intros [= <- <-].
Qed.

Lemma acts_write en rec i ix : (length (keys sh) <= 256)%nat -> (i, ix) ∈ active_indexes sh -> acts i (write_row sh en rec) (entry_change en i ix rec).
Proof.
  intros Hlen Hin. unfold write_row.
  assert (Hnum : forall e, e ∈ active_indexes sh -> (e.1 < 256)%nat).
  { intros e He. apply list_elem_of_In, filter_In in He as [He _]. apply list_elem_of_In in He. unfold numbered in He.
    apply elem_of_lookup_imap in He as (j & k & -> & Hl). apply lookup_lt_Some in Hl. cbn. lia. }
  apply acts_seq.
  { unfold auto_increment. destruct (en_autoinc en) as [[[b rc] a]|]; [|apply acts_ret]. destruct (negb _); [apply acts_fail|].
    apply acts_seq; [by apply acts_modify|]. intros _. apply acts_ret. }
  intros gen. apply acts_seq.
  { unfold new_pk. destruct (has_user_pk sh); [apply acts_ret|]. intros s a s' Hf [= <- <-]. done. }
  intros pk. do 3 (apply acts_seq; [case_match; apply acts_fail || apply acts_ret|intros _]).
  apply acts_seq; [apply acts_pk_check|intros _]. apply acts_seq; [apply acts_when, acts_unique|intros _].
  apply acts_seq; [apply acts_put; intros _; by exists pk|intros _]. apply acts_seq; [by apply acts_modify|intros _].
  apply (acts_bind i _ _ (entry_change en i ix rec) id); [|intros _; apply acts_count].
  apply (acts_indexes i ix); [apply active_nodup|done|apply acts_insert_same|]. intros e He Hne. apply acts_insert_other; [|auto|done].
  by apply (Hnum (i, ix)).
Qed.

(** *** The sum of stored and collected totals *)

Definition live (x : option bytes * (Z * Z)) : Z * Z := ((fts_load_meta x.1).1 + x.2.1, (fts_load_meta x.1).2 + x.2.2).

Definition counted (x : option bytes * (Z * Z)) : Prop :=
  0 <= (fts_load_meta x.1).1 /\ 0 <= (fts_load_meta x.1).2 /\ 0 <= x.2.1 /\ 0 <= x.2.2.

Definition words_of (i : nat) (recs : list Rec) : Z := foldr (fun r n => fts_wc i r + n) 0 recs.

Lemma wc_nonneg i rec : 0 <= fts_wc i rec.
Proof. unfold fts_wc. lia. Qed.

Lemma words_nonneg i recs : 0 <= words_of i recs.
Proof. induction recs as [|r recs IH]; cbn; [done|]. pose proof (wc_nonneg i r). unfold words_of in IH. lia. Qed.

Lemma change_live en i ix rec x : ix_kind ix = Fulltext -> counted x -> (live x).1 + 1 < 2 ^ 63 -> (live x).2 + fts_wc i rec < 2 ^ 63 ->
  live (entry_change en i ix rec x) = ((live x).1 + 1, (live x).2 + fts_wc i rec) /\ counted (entry_change en i ix rec x) /\
  (if en_bulk_insert en then (entry_change en i ix rec x).1 = x.1 else (entry_change en i ix rec x).2 = x.2).
Proof.
  intros Hk (C1 & C2 & C3 & C4) B1 B2. destruct x as [m [d w]]. unfold entry_change, is_fts, live in *. rewrite Hk. cbn [fst snd] in *.
  pose proof (wc_nonneg i rec). unfold FTS_DOC_DELTA_ADD. destruct (en_bulk_insert en); cbn [fst snd].
  - split; [f_equal; lia|]. split; [|done]. unfold counted. cbn. lia.
  - destruct (fts_load_meta m) as [docs words] eqn:Hm. cbn [fst snd] in *. unfold counted. cbn [fst snd].
    rewrite (fts_meta_roundtrip m 1 (fts_wc i rec) docs words Hm) by lia. cbn [fst snd]. split; [f_equal; lia|]. split; [lia|done].
Qed.

Lemma writes_live en i ix recs s s' : (length (keys sh) <= 256)%nat -> (i, ix) ∈ active_indexes sh -> ix_kind ix = Fulltext ->
  faults s = [] -> counted (at_index i s) -> (live (at_index i s)).1 + Z.of_nat (length recs) < 2 ^ 63 ->
  (live (at_index i s)).2 + words_of i recs < 2 ^ 63 -> mfor (write_row sh en) recs s = (inr tt, s') ->
  live (at_index i s') = ((live (at_index i s)).1 + Z.of_nat (length recs), (live (at_index i s)).2 + words_of i recs) /\
  counted (at_index i s') /\ faults s' = [] /\ (if en_bulk_insert en then (at_index i s').1 = (at_index i s).1 else (at_index i s').2 = (at_index i s).2).
Proof.
  intros Hlen Hin Hk. revert s. induction recs as [|r recs IH]; intros s Hf Hc B1 B2 Hm.
  { cbn in Hm. unfold ret in Hm. simplify_eq. cbn [length words_of foldr]. rewrite !Z.add_0_r. split; [apply surjective_pairing|].
    split; [done|]. split; [done|]. by destruct (en_bulk_insert en). }
  cbn [mfor] in Hm. apply bind_ok in Hm as ([] & s1 & H1 & H2). destruct (acts_write en r i ix Hlen Hin s tt s1 Hf H1) as [E1 F1].
  cbn [length words_of foldr] in *. change (foldr (fun r n => fts_wc i r + n) 0 recs) with (words_of i recs) in *.
  pose proof (words_nonneg i recs). pose proof (wc_nonneg i r).
  destruct (change_live en i ix r (at_index i s) Hk Hc ltac:(lia) ltac:(lia)) as (L & C & K). rewrite <- E1 in L, C, K.
  destruct (IH s1 F1 C) as (L' & C' & F' & K'); [rewrite L; cbn [fst]; lia|rewrite L; cbn [snd]; lia|done|].
  rewrite L', L. cbn [fst snd]. split; [f_equal; lia|]. split; [done|]. split; [done|]. destruct (en_bulk_insert en); congruence.
Qed.

(** *** The end of a bulk insert *)

Definition flushed (x : option bytes * (Z * Z)) : option bytes * (Z * Z) :=
  let '(m, (d, w)) := x in if (d =? 0) && (w =? 0) then (m, (0, 0)) else (Some (fts_meta_value m d w), (0, 0)).

Lemma flush_same i ix s : is_fts ix = true -> faults s = [] ->
  exists s', flush_meta (i, ix) (HA_OK, s) = (HA_OK, s') /\ at_index i s' = flushed (at_index i s) /\ faults s' = [].
Proof.
  intros Hx Hf. unfold flush_meta, flushed, at_index. cbn [fst snd]. destruct (default (0, 0) (fts_delta s !! i)) as [d w] eqn:Hd.
  destruct (_ && _) eqn:H0.
  - exists s. split; [done|]. split; [|done]. rewrite Hd. apply andb_true_iff in H0 as [->%Z.eqb_eq ->%Z.eqb_eq]. done.
  - rewrite Hx, update_meta_clean by done. cbn [negb]. rewrite bool_decide_eq_true_2 by done. cbn [negb andb]. eexists. split; [done|].
    split; [|done]. cbn [fts_delta set_delta]. rewrite lookup_insert_eq. unfold cf_of at 1. cbn [cfs set_delta log_write]. fold (cf_of None (upd_cf None
      <[fts_meta_key i := (fts_meta_value (fst <$> cf_of None s !! fts_meta_key i) d w, TIDESDB_TTL_NONE)]> s)).
    by rewrite cf_upd_same, lookup_insert_eq.
Qed.

Lemma flush_other i e s : (i < 256)%nat -> (e.1 < 256)%nat -> e.1 <> i -> faults s = [] ->
  exists s', flush_meta e (HA_OK, s) = (HA_OK, s') /\ at_index i s' = at_index i s /\ faults s' = [].
Proof.
  intros Hi Hj Hne Hf. destruct e as [j jx]. cbn in Hj, Hne. unfold flush_meta. cbn [fst snd]. destruct (default (0, 0) (fts_delta s !! j)) as [d w].
  destruct (_ && _); [by exists s|]. destruct (is_fts jx); cbn [negb]; [|by exists s]. rewrite update_meta_clean by done.
  rewrite bool_decide_eq_true_2 by done. cbn [negb andb]. eexists. split; [done|]. split; [|done]. unfold at_index. cbn [fts_delta set_delta].
  rewrite lookup_insert_ne by done. f_equal. unfold cf_of at 1. cbn [cfs set_delta log_write].
  fold (cf_of None (upd_cf None <[fts_meta_key j := (fts_meta_value (fst <$> cf_of None s !! fts_meta_key j) d w, TIDESDB_TTL_NONE)]> s)).
  rewrite cf_upd_same, lookup_insert_ne; [done|]. intros He. by apply meta_key_inj in He.
Qed.

Lemma flush_all i ix l s : NoDup l.*1 -> (forall e, e ∈ l -> (e.1 < 256)%nat) -> (i, ix) ∈ l -> is_fts ix = true -> faults s = [] ->
  exists s', foldl (fun st e => flush_meta e st) (HA_OK, s) l = (HA_OK, s') /\ at_index i s' = flushed (at_index i s) /\ faults s' = [].
Proof.
  intros Hnd Hb Hin Hx. assert (Hi : (i < 256)%nat) by (by apply (Hb (i, ix))).
  assert (Hrest : forall l s, (forall e, e ∈ l -> (e.1 < 256)%nat /\ e.1 <> i) -> faults s = [] ->
    exists s', foldl (fun st e => flush_meta e st) (HA_OK, s) l = (HA_OK, s') /\ at_index i s' = at_index i s /\ faults s' = []).
  { clear -Hi. induction l as [|e l IH]; intros s Ho Hf; cbn [foldl]; [by exists s|].
    destruct (Ho e ltac:(set_solver)) as [He Hne]. destruct (flush_other i e s Hi He Hne Hf) as (s1 & -> & E1 & F1).
    destruct (IH s1 ltac:(set_solver) F1) as (s' & -> & E & F). exists s'. by rewrite E, E1. }
  revert s Hnd Hb Hin. induction l as [|e l IH]; intros s Hnd Hb Hin Hf; [by apply not_elem_of_nil in Hin|]. rewrite fmap_cons in Hnd.
  apply NoDup_cons in Hnd as [Hni Hnd]. apply elem_of_cons in Hin as [<-|Hin]; cbn [foldl].
  - destruct (flush_same i ix s Hx Hf) as (s1 & -> & E1 & F1). destruct (Hrest l s1) as (s' & -> & E & F); [|done|exists s'; by rewrite E, E1].
    intros e He. split; [apply Hb; set_solver|]. intros Heq. apply Hni, list_elem_of_fmap. by exists e.
  - assert (Hne : e.1 <> i) by (intros Heq; apply Hni, list_elem_of_fmap; by exists (i, ix)).
    destruct (flush_other i e s Hi (Hb e ltac:(set_solver)) Hne Hf) as (s1 & -> & E1 & F1).
    destruct (IH s1 Hnd ltac:(set_solver) Hin F1) as (s' & -> & E & F). exists s'. by rewrite E, E1.
Qed.

Lemma flushed_live x : counted x -> (live x).1 < 2 ^ 63 -> (live x).2 < 2 ^ 63 -> fts_load_meta (flushed x).1 = live x /\ (flushed x).2 = (0, 0).
Proof.
  destruct x as [m [d w]]. intros (C1 & C2 & C3 & C4) B1 B2. unfold live, flushed in *. cbn [fst snd] in *. destruct (_ && _) eqn:H0.
  - apply andb_true_iff in H0 as [->%Z.eqb_eq ->%Z.eqb_eq]. cbn. rewrite !Z.add_0_r. split; [by destruct (fts_load_meta m)|done].
  - cbn [fst snd]. split; [|done]. destruct (fts_load_meta m) as [docs words] eqn:Hm. cbn [fst snd] in *. by apply fts_meta_roundtrip; [|lia..].
Qed.

Lemma start_clears i b s : (i < length (keys sh))%nat -> at_index i (start_bulk_insert (b, s)).2 = ((at_index i s).1, (0, 0)).
Proof.
  intros Hi. unfold start_bulk_insert, at_index, cf_of. cbn [snd fst fts_delta cfs set_delta set_bulk]. f_equal.
  assert (Hr : forall l, i ∈ l -> foldr (fun (i : nat) d => <[i := (0, 0)]> d) (fts_delta s) l !! i = Some (0, 0)).
  { induction l as [|j l IH]; intros Hin; [by apply not_elem_of_nil in Hin|]. cbn. destruct (decide (i = j)) as [->|Hne]; [by rewrite lookup_insert_eq|].
    rewrite lookup_insert_ne by done. apply IH. set_solver. }
  rewrite Hr; [done|]. apply elem_of_seq. lia.
Qed.

Lemma active_numbered i ix : (i, ix) ∈ active_indexes sh -> (i, ix) ∈ numbered sh.
Proof. intros He. apply list_elem_of_In, filter_In in He as [He _]. by apply list_elem_of_In. Qed.

Lemma numbered_lt e : e ∈ numbered sh -> (e.1 < length (keys sh))%nat.
Proof. intros He. unfold numbered in He. apply elem_of_lookup_imap in He as (j & k & -> & Hl). by apply lookup_lt_Some in Hl. Qed.

Lemma numbered_nodup : NoDup (numbered sh).*1.
Proof.
  assert (E : (numbered sh).*1 = seq 0 (length (keys sh))); [|rewrite E; apply NoDup_seq].
  apply list_eq. intros j. unfold numbered. rewrite list_lookup_fmap, list_lookup_imap. destruct (keys sh !! j) eqn:Hl.
  - apply lookup_lt_Some in Hl. rewrite lookup_seq_lt by done. done.
  - apply lookup_ge_None in Hl. symmetry. by apply lookup_seq_ge.
Qed.

(** A bulk insert keeps the totals of a full-text index as single inserts do.  Rows written
    between [start_bulk_insert] and [end_bulk_insert] leave the stored totals, at the end of the
    statement, larger by the number of rows and of their words, with nothing left collected in the
    handler; written one by one outside a bulk statement they leave the same totals. *)
Theorem bulk_insert_totals (en : stmt_env) (b b1 : bulk) (recs : list Rec) (s s1 s2 : hstate) (i : nat) (ix : index) (docs words : Z)
    (Hlen : (length (keys sh) <= 256)%nat) (Hin : (i, ix) ∈ active_indexes sh) (Hkind : ix_kind ix = Fulltext)
    (Hstored : fts_load_meta (at_index i s).1 = (docs, words)) (Hnone : (at_index i s).2 = (0, 0)) (Hdocs : 0 <= docs) (Hwords : 0 <= words)
    (Hroom : docs + Z.of_nat (length recs) < 2 ^ 63 /\ words + words_of i recs < 2 ^ 63) (Hf : faults s = [])
    (Hstart : start_bulk_insert (b, s) = (b1, s1)) (Hrun : mfor (write_row sh (env_in b1 en)) recs s1 = (inr tt, s2)) :
  (exists b3 s3, end_bulk_insert true (b1, s2) = (HA_OK, (b3, s3)) /\ b_insert b3 = false /\
     fts_load_meta (at_index i s3).1 = (docs + Z.of_nat (length recs), words + words_of i recs) /\ (at_index i s3).2 = (0, 0)) /\
  (forall s', mfor (write_row sh (env_in no_bulk en)) recs s = (inr tt, s') ->
     fts_load_meta (at_index i s').1 = (docs + Z.of_nat (length recs), words + words_of i recs)).
Proof.
  destruct Hroom as [R1 R2].
  assert (Hcount : forall x, x.2 = (0, 0) -> fts_load_meta x.1 = (docs, words) -> counted x /\ live x = (docs, words)).
  { intros [m [d w]] [= -> ->] Hl. cbn in Hl. unfold counted, live. cbn. rewrite Hl. cbn. rewrite !Z.add_0_r. split; [lia|done]. }
  split.
  - assert (Hs1 : s1 = (start_bulk_insert (b, s)).2) by (by rewrite Hstart). assert (Ha : at_index i s1 = ((at_index i s).1, (0, 0))).
    { rewrite Hs1. apply start_clears. by apply (numbered_lt (i, ix)), active_numbered. }
    destruct (Hcount (at_index i s1)) as [C L]; [by rewrite Ha|by rewrite Ha|].
    destruct (writes_live (env_in b1 en) i ix recs s1 s2) as (L2 & C2 & F2 & _); try done.
    { by rewrite Hs1. } { rewrite L. done. } { rewrite L. done. }
    rewrite L in L2. cbn [fst snd] in L2.
    destruct (flush_all i ix (numbered sh) s2) as (s3 & Hfl & E3 & _).
    { apply numbered_nodup. } { intros e He. apply numbered_lt in He. lia. } { by apply active_numbered. } { unfold is_fts. by rewrite Hkind. } { done. }
    destruct (flushed_live (at_index i s2) C2) as [G1 G2]; [by rewrite L2|by rewrite L2|].
    do 2 eexists. unfold end_bulk_insert. rewrite Hfl. split; [done|]. split; [done|]. by rewrite E3, G1, L2.
  - intros s' Hm. destruct (Hcount (at_index i s)) as [C L]; [done..|].
    destruct (writes_live (env_in no_bulk en) i ix recs s s') as (L2 & _ & _ & K); try done.
    { rewrite L. done. } { rewrite L. done. }
    change (en_bulk_insert (env_in no_bulk en)) with false in K. cbv iota in K. rewrite Hnone in K. rewrite L in L2. unfold live in L2. rewrite K in L2. cbn [fst snd] in L2. rewrite !Z.add_0_r in L2.
    rewrite <- L2. apply surjective_pairing.
Qed.

(** ** The range of a bulk delete *)

Definition keeps_range {A} (m : M A) : Prop := forall s, bulk_bounds (m s).2 = bulk_bounds s.

Lemma range_bind {A B} (m : M A) (k : A -> M B) : keeps_range m -> (forall a, keeps_range (k a)) -> keeps_range (bind m k).
Proof. intros Hm Hk s. unfold bind. specialize (Hm s). destruct (m s) as [[rc|a] s1]; cbn in *; [done|]. by rewrite Hk. Qed.

Lemma range_mfor {A} (f : A -> M unit) l : (forall a, keeps_range (f a)) -> keeps_range (mfor f l).
Proof. intros Hf. induction l as [|a l IH]; [done|]. apply range_bind; [done|]. by intros _. Qed.

Lemma range_next s : bulk_bounds (next_rc s).2 = bulk_bounds s.
Proof. unfold next_rc. by destruct (faults s). Qed.

Lemma range_delete b c k : keeps_range (checked (tidesdb_txn_delete_cf b c k)) /\ keeps_range (unchecked (tidesdb_txn_delete_cf b c k)).
Proof.
  assert (Hd : forall s, bulk_bounds (tidesdb_txn_delete_cf b c k s).2 = bulk_bounds s).
  { intros s. unfold tidesdb_txn_delete_cf. pose proof (range_next s) as Hn. destruct (next_rc s) as [rc s1]. cbn in *. by case_bool_decide. }
  split; intros s; specialize (Hd s); unfold checked, unchecked; destruct (tidesdb_txn_delete_cf b c k s) as [rc s1]; cbn in *; [by case_bool_decide|done].
Qed.

Lemma range_meta i d w : keeps_range (unchecked (fts_update_meta i d w)).
Proof.
  intros s. unfold unchecked, fts_update_meta, tdb_txn_get. cbn. pose proof (range_next s) as Hn. destruct (next_rc s) as [rc s1]. cbn in Hn.
  assert (Hp : forall k v t, bulk_bounds (tidesdb_txn_put None k v t s1).2 = bulk_bounds s).
  { intros k v t. unfold tidesdb_txn_put. pose proof (range_next s1) as Hn1. destruct (next_rc s1) as [rc1 s2]. cbn in *. case_bool_decide; cbn; congruence. }
  destruct rc; try apply Hp; destruct (cf_of None s1 !! fts_meta_key i); apply Hp.
Qed.

Lemma range_entries (rec : Rec) pk e : keeps_range (delete_entry sh rec pk e).
Proof.
  destruct e as [j jx]. unfold delete_entry. destruct (ix_kind jx).
  - apply range_delete.
  - apply range_bind; [apply range_mfor; intros t; apply range_delete|]. intros _. apply range_meta.
  - destruct (spatial_entry j rec) as [[h m]|]; [apply range_delete|done].
Qed.

Lemma range_count on n : keeps_range (count_bulk on n).
Proof.
  assert (Hc : keeps_range (bulk_commit ;; modify (fun s => set_bulk 0 (bulk_bounds s) s))).
  { apply range_bind; [|done]. apply range_bind; [|done]. intros s. pose proof (range_next s) as Hn. unfold checked. destruct (next_rc s) as [rc s1]. cbn in *. by case_bool_decide. }
  destruct on; [|done]. apply range_bind; [done|]. intros _ s. destruct (_ <=? bulk_ops s); [apply Hc|done].
Qed.

(** A row of a bulk delete widens the range to its key. *)
Lemma delete_widens en rec b s : en_ensure en = HA_OK -> b_delete b = true -> 0 < en_compact_min_rows en ->
  let '(_, (b', s')) := bulk_delete_row en rec (b, s) in
  bulk_bounds s' = track_bounds (build_data_key (current_pk s)) (bulk_bounds s) /\ b_delete b' = true /\ b_rows b' = b_rows b + 1.
Proof.
  intros He Hb Hm. unfold bulk_delete_row. rewrite He, Hb, (proj2 (Z.ltb_lt 0 _) Hm). rewrite bool_decide_eq_true_2 by done. cbn [andb].
  assert (Hd : bulk_bounds (delete_row sh (env_in b en) rec s).2 = track_bounds (build_data_key (current_pk s)) (bulk_bounds s)).
  { unfold delete_row. cbn [en_ensure env_in en_bulk_delete en_compact_min_rows]. rewrite He, Hb, (proj2 (Z.ltb_lt 0 _) Hm), bool_decide_eq_true_2 by done.
    unfold bind at 1, ret. cbn [when andb]. unfold bind at 1, modify. cbn [snd].
    match goal with |- bulk_bounds (?m ?s1).2 = _ => enough (Hk : keeps_range m) by exact (Hk s1) end.
    apply range_bind; [apply range_delete|]. intros _. apply range_bind; [apply range_mfor; intros e; apply range_entries|]. intros _. apply range_count. }
  destruct (delete_row sh (env_in b en) rec s) as [r s']. done.
Qed.

(** The rows of a statement: where the scan stands, and the row there. *)
Fixpoint bulk_deletes (en : stmt_env) (rows : list (bytes * Rec)) (st : bulk * hstate) : bulk * hstate :=
  match rows with
  | [] => st
  | (pk, rec) :: rows => bulk_deletes en rows (bulk_delete_row en rec (st.1, set_pk pk st.2)).2
  end.

(** Between the bounds, in key order. *)
Definition covers (r : option (bytes * bytes)) (k : bytes) : Prop :=
  match r with Some (lo, hi) => bytes_compare k lo <> Lt /\ bytes_compare k hi <> Gt | None => False end.

Lemma track_covers dk r : covers (track_bounds dk r) dk /\ forall k, covers r k -> covers (track_bounds dk r) k.
Proof.
  assert (Hrefl : forall k, bytes_compare k k = Eq) by (intros k; by apply bytes_compare_eq).
  unfold track_bounds. destruct r as [[lo hi]|]; cbn; [|rewrite Hrefl; by split].
  split; [split|].
  - destruct (bytes_compare dk lo) eqn:E; rewrite ?E, ?Hrefl; done.
  - destruct (bytes_compare dk hi) eqn:E; rewrite ?E, ?Hrefl; done.
  - intros k [H1 H2]. split.
    + destruct (bytes_compare dk lo) eqn:E; [done| |done]. intros Hlt. apply H1. exact (bytes_lt_trans _ _ _ Hlt E).
    + destruct (bytes_compare dk hi) eqn:E; [done|done|]. rewrite bytes_compare_antisym in E. apply CompOpp_iff in E. cbn in E.
      intros Hgt. apply H2. rewrite bytes_compare_antisym in Hgt. apply CompOpp_iff in Hgt. cbn in Hgt.
      rewrite bytes_compare_antisym. by rewrite (bytes_lt_trans _ _ _ E Hgt).
Qed.

(** The rows of a statement so far: their number and range. *)
Lemma bulk_deletes_range en rows st seen : en_ensure en = HA_OK -> 0 < en_compact_min_rows en -> b_delete st.1 = true ->
  b_rows st.1 = Z.of_nat (length seen) -> (forall k, k ∈ seen -> covers (bulk_bounds st.2) k) ->
  b_rows (bulk_deletes en rows st).1 = Z.of_nat (length seen + length rows) /\
  forall k, k ∈ seen ++ ((fun r => build_data_key r.1) <$> rows) -> covers (bulk_bounds (bulk_deletes en rows st).2) k.
Proof.
  intros He Hm. revert st seen. induction rows as [|[pk rec] rows IH]; intros [b s] seen Hd Hr Hc; cbn [bulk_deletes].
  { cbn. rewrite Nat.add_0_r, app_nil_r. done. }
  cbn [fst snd] in *. pose proof (delete_widens en rec b (set_pk pk s) He Hd Hm) as Hw.
  destruct (bulk_delete_row en rec (b, set_pk pk s)) as [r [b' s']]. destruct Hw as (W1 & W2 & W3). cbn [snd].
  destruct (track_covers (build_data_key pk) (bulk_bounds s)) as [T1 T2]. change (bulk_bounds (set_pk pk s)) with (bulk_bounds s) in W1.
  change (current_pk (set_pk pk s)) with pk in W1.
  destruct (IH (b', s') (seen ++ [build_data_key pk]) W2) as [G1 G2].
  - cbn [fst]. rewrite W3, Hr, length_app. cbn. lia.
  - cbn [snd]. rewrite W1. intros k [Hk|Hk]%elem_of_app; [auto|]. apply list_elem_of_singleton in Hk as ->. done.
  - split; [rewrite G1, length_app; cbn; lia|]. intros k Hk. apply G2. rewrite fmap_cons in Hk. cbn [fst] in Hk. by rewrite <- app_assoc.
Qed.

(** What the end of a bulk delete compacts covers every row deleted in it, whatever the engine
    answered. *)
Lemma bulk_delete_range en b s rows : en_ensure en = HA_OK -> 0 < en_compact_min_rows en <= Z.of_nat (length rows) ->
  exists range st, end_bulk_delete en (bulk_deletes en rows (start_bulk_delete (b, s))) = (Some range, st) /\
    forall pk rec, (pk, rec) ∈ rows -> covers (Some range) (build_data_key pk).
Proof.
  intros He [Hm1 Hm2]. destruct (bulk_deletes_range en rows (start_bulk_delete (b, s)) [] He Hm1) as [G1 G2]; [done|done|by intros k Hk%not_elem_of_nil|].
  destruct (bulk_deletes en rows (start_bulk_delete (b, s))) as [b' s']. cbn [fst snd length Nat.add app] in *.
  unfold end_bulk_delete. rewrite G1, (proj2 (Z.ltb_lt _ _)), (proj2 (Z.leb_le _ _)) by lia. cbn [andb].
  assert (Hcov : forall pk rec, (pk, rec) ∈ rows -> covers (bulk_bounds s') (build_data_key pk)).
  { intros pk rec Hin. apply G2. apply list_elem_of_fmap. by exists (pk, rec). }
  destruct (bulk_bounds s') as [range|]; [by exists range; eexists|]. exfalso.
  destruct rows as [|[pk rec] rows]; [cbn in Hm2; lia|]. by apply (Hcov pk rec); left.
Qed.
End Bulk.

(** ** A statement of two rows *)

Definition bulk_run : hstate := (mfor (write_row demo_share (env_in (mk_bulk true false false 0) (demo_env ∅ true))) [row1; row2]
  (start_bulk_insert demo_share (no_bulk, demo_empty)).2).2.

Lemma bulk_run_ok : mfor (write_row demo_share (env_in (mk_bulk true false false 0) (demo_env ∅ true))) [row1; row2]
  (start_bulk_insert demo_share (no_bulk, demo_empty)).2 = (inr tt, bulk_run).
Proof. vm_compute. reflexivity. Qed.

Lemma fts_index_active : (2%nat, mk_index Fulltext false [2%nat] true) ∈ active_indexes demo_share.
Proof. vm_compute. repeat constructor. Qed.

(** Two documents of three words. *)
Lemma bulk_insert_totals_witness :
  exists b s, end_bulk_insert demo_share true (mk_bulk true false false 0, bulk_run) = (HA_OK, (b, s)) /\ fts_load_meta (at_index 2 s).1 = (2, 3).
Proof.
  destruct (proj1 (bulk_insert_totals demo_share (demo_env ∅ true) no_bulk (mk_bulk true false false 0) [row1; row2] demo_empty
              (start_bulk_insert demo_share (no_bulk, demo_empty)).2 bulk_run 2 (mk_index Fulltext false [2%nat] true) 0 0
              ltac:(cbn; lia) fts_index_active eq_refl eq_refl eq_refl ltac:(lia) ltac:(lia) ltac:(vm_compute; split; reflexivity) eq_refl eq_refl bulk_run_ok))
    as (b & s & He & _ & Ht & _).
  exists b, s. split; [exact He|exact Ht].
Defined.

(** ** Deletes inside a bulk insert

    REPLACE deletes the row it replaces inside the statement's bulk insert.  The delete
    takes its words from the stored totals at once, which stop at zero while the insert
    that went before is only collected: the totals end one row too high. *)
Definition replaced : hstate :=
  let en := env_in (mk_bulk true false false 0) (demo_env ∅ true) in
  let s := (start_bulk_insert demo_share (no_bulk, demo_empty)).2 in
  let s := (write_row demo_share en row1 s).2 in
  let s := (delete_row demo_share en row1 s).2 in
  let s := (write_row demo_share en row1 s).2 in
  (end_bulk_insert demo_share true (mk_bulk true false false 0, s)).2.2.

Lemma bulk_replace_miscounts : size (cf_of None replaced) = 2%nat /\ fts_load_meta (at_index 2 replaced).1 = (2, 4) /\ fts_wc 2 row1 = 2.
Proof. vm_compute. done. Qed.
