(* ===== verification/SingleDelete.v ===== *)
(** * Single deletes (ha_tidesdb.cc 282-298)

    Entries of secondary indexes are removed with the engine's single delete, which may drop
    the newest version of a key alone: it is a delete only for keys that were put at most once
    since they were last deleted.  The comment on [tidesdb_txn_delete_cf] says that the keys of
    the indexes have this by construction.  Here the row changes of [Dml] run one after the
    other and the history of writes they leave is examined: regular and spatial indexes keep
    the contract, a full-text index keeps it unless an update rewrites the entry of a word that
    stays. *)

From Stdlib Require Import ZArith Lia.
From stdpp Require Import base tactics list numbers gmap sets relations.
From S2P Require Import Prelude Errors KeyCodec RowCodec Fts Dml.

(** ** The contract *)

#[export] Instance wop_eq_dec : EqDecision wop.
Proof. solve_decision. Defined.

(** The writes to one key, newest first. *)
Definition writes (c : option nat) (k : bytes) (s : hstate) : list wop :=
  omap (fun w => if bool_decide (w.1 = (c, k)) then Some w.2 else None) (history s).

(** At most one put between deletes. *)
Fixpoint put_once (h : list wop) : bool :=
  match h with
  | [] => true
  | OpPut :: h' => match h' with OpPut :: _ => false | _ => put_once h' end
  | _ :: h' => put_once h'
  end.

(** The newest write is a put. *)
Definition is_live (h : list wop) : bool := match h with OpPut :: _ => true | _ => false end.

(** ** Calls that do not write to an index *)

Definition same_indexes (s s' : hstate) : Prop :=
  forall i, cf_of (Some i) s' = cf_of (Some i) s /\ forall k, writes (Some i) k s' = writes (Some i) k s.

Lemma same_indexes_trans s1 s2 s3 : same_indexes s1 s2 -> same_indexes s2 s3 -> same_indexes s1 s3.
Proof. intros Ha Hb i. destruct (Ha i) as [A1 A2], (Hb i) as [B1 B2]. split; [by rewrite B1|]. intros k. by rewrite B2. Qed.

Definition calm {A} (m : M A) : Prop := forall s r s', m s = (r, s') -> same_indexes s s'.

Lemma calm_ret {A} (a : A) : calm (ret a).
Proof. by intros s r s' [= <- <-]. Qed.

Lemma calm_fail {A} rc : calm (fail (A := A) rc).
Proof. by intros s r s' [= <- <-]. Qed.

Lemma calm_bind {A B} (m : M A) (k : A -> M B) : calm m -> (forall a, calm (k a)) -> calm (bind m k).
Proof.
  intros Hm Hk s r s'. unfold bind. destruct (m s) as [[rc|a] s1] eqn:E.
  - intros [= <- <-]. by eapply Hm.
  - intros Hs. eapply same_indexes_trans; [by eapply Hm|by eapply Hk].
Qed.

Lemma calm_modify f : (forall s, cfs (f s) = cfs s /\ history (f s) = history s) -> calm (modify f).
Proof.
  intros Hf s r s' [= <- <-] i. destruct (Hf s) as [Hc Hh]. split; [by apply cf_of_cfs|]. intros k. unfold writes. by rewrite Hh.
Qed.

Lemma calm_when b m : calm m -> calm (when b m).
Proof. destruct b; [done|]. intros _. apply calm_ret. Qed.

Lemma calm_if {A} (b : bool) (m1 m2 : M A) : calm m1 -> calm m2 -> calm (if b then m1 else m2).
Proof. by destruct b. Qed.

Lemma calm_mfor {A} (f : A -> M unit) (l : list A) : (forall a, calm (f a)) -> calm (mfor f l).
Proof. intros Hf. induction l as [|a l IH]; [apply calm_ret|]. apply calm_bind; auto. Qed.

(** An engine call that leaves the indexes. *)
Definition calm_call {A} (op : hstate -> A * hstate) : Prop := forall s, same_indexes s (op s).2.

Lemma calm_checked op : calm_call op -> calm (checked op).
Proof. intros Ho s r s'. unfold checked. specialize (Ho s). destruct (op s) as [rc s1]. cbn in Ho. case_bool_decide; by intros [= <- <-]. Qed.

Lemma calm_unchecked op : calm_call op -> calm (unchecked op).
Proof. intros Ho s r s' [= <- <-]. apply Ho. Qed.

Lemma calm_next : calm_call next_rc.
Proof. intros s. unfold next_rc. by destruct (faults s). Qed.

Lemma log_other c k o s i k' : (Some i, k') <> (c, k) -> writes (Some i) k' (log_write c k o s) = writes (Some i) k' s.
Proof. intros Hne. unfold writes. cbn. by rewrite bool_decide_false by congruence. Qed.

Lemma log_same c k o s : writes c k (log_write c k o s) = o :: writes c k s.
Proof. unfold writes. cbn. by rewrite bool_decide_true. Qed.

Lemma calm_data_put k v ttl : calm_call (tidesdb_txn_put None k v ttl).
Proof.
  intros s. unfold tidesdb_txn_put. pose proof (calm_next s) as Hn. destruct (next_rc s) as [rc s1]. cbn in *. case_bool_decide; [|done].
  eapply same_indexes_trans; [exact Hn|]. intros i. split; [by rewrite cf_log, cf_upd_other|]. intros k'. by rewrite log_other.
Qed.

Lemma calm_data_delete b k : calm_call (tidesdb_txn_delete_cf b None k).
Proof.
  intros s. unfold tidesdb_txn_delete_cf. pose proof (calm_next s) as Hn. destruct (next_rc s) as [rc s1]. cbn in *. case_bool_decide; [|done].
  eapply same_indexes_trans; [exact Hn|]. intros i. split; [by rewrite cf_log, cf_upd_other|]. intros k'. by rewrite log_other.
Qed.

Lemma calm_get c k s : same_indexes s (tdb_txn_get c k s).2.
Proof.
  unfold tdb_txn_get. pose proof (calm_next s) as Hn. destruct (next_rc s) as [rc s1]. cbn in Hn.
  destruct rc; try done; by destruct (cf_of c s1 !! k).
Qed.

Lemma calm_meta i d w : calm_call (fts_update_meta i d w).
Proof.
  intros s. unfold fts_update_meta. pose proof (calm_get None (fts_meta_key i) s) as Hg.
  destruct (tdb_txn_get None (fts_meta_key i) s) as [[rc st] s1]. cbn in Hg. eapply same_indexes_trans; [exact Hg|]. apply calm_data_put.
Qed.

Create HintDb calm.
#[export] Hint Resolve calm_ret calm_fail calm_bind calm_when calm_if calm_mfor calm_checked calm_unchecked calm_next calm_data_put
  calm_data_delete calm_meta : calm.
#[export] Hint Extern 1 (calm (modify _)) => apply calm_modify; intros ?; split; reflexivity : calm.

Lemma calm_count_bulk on n : calm (count_bulk on n).
Proof.
  unfold count_bulk. apply calm_when, calm_bind; [auto with calm|]. intros _ s r s' Hs. case_match; [|by injection Hs as <- <-].
  revert Hs. apply (calm_bind bulk_commit); [unfold bulk_commit; auto with calm|]. intros _. auto with calm.
Qed.

Section Contract.

Context {Rec : Type} `{TableCodec Rec} `{!TableLaws Rec}.
Variable sh : share.

Lemma calm_auto_increment en : calm (auto_increment sh en).
Proof. unfold auto_increment. destruct (en_autoinc en) as [[[b rc] a]|]; auto with calm. Qed.

Lemma calm_new_pk rec : calm (new_pk sh rec).
Proof. unfold new_pk. apply calm_if; [auto with calm|]. by intros s r s' [= <- <-]. Qed.

Lemma calm_pk_dup_check en skip pk : calm (pk_dup_check sh en skip pk).
Proof.
  unfold pk_dup_check. apply calm_if; [|auto with calm]. intros s r s' Hs.
  pose proof (calm_get None (build_data_key pk) s) as Hg. destruct (tdb_txn_get None (build_data_key pk) s) as [[rc v] s1]. cbn in Hg.
  destruct rc; by injection Hs as <- <-.
Qed.

Lemma calm_unique_one en rec e : calm (unique_check_one sh en rec e).
Proof.
  destruct e as [i ix]. unfold unique_check_one. set (b := match ix_kind ix with Regular => ix_unique ix | _ => false end).
  destruct b; [|auto with calm]. apply calm_bind.
  - intros s r s' Hs. destruct (dup_iter s !! i); [by injection Hs as <- <-|]. revert Hs. apply calm_bind; auto with calm.
  - intros _ s r s' Hs. destruct (key_under _ _ _ _); [case_bool_decide|]; by injection Hs as <- <-.
Qed.

(** ** The invariant *)

(** Indexes that are examined: full-text ones only where no update rewrites an entry. *)
Definition tracked (strict : bool) (e : nat * index) : Prop :=
  e ∈ active_indexes sh /\ (ix_kind e.2 <> Fulltext \/ strict = true).

(** A key is stored exactly when its newest write is a put, and was put once. *)
Definition key_ok (i : nat) (s : hstate) (k : bytes) : Prop :=
  is_live (writes (Some i) k s) = bool_decide (is_Some (kv i s !! k)) /\ put_once (writes (Some i) k s) = true.

Definition index_ok (i : nat) (s : hstate) : Prop := forall k, key_ok i s k.

Lemma index_ok_same i s s' : same_indexes s s' -> index_ok i s -> index_ok i s'.
Proof. intros Hs Hi k. destruct (Hs i) as [H1 H2], (Hi k) as [H3 H4]. unfold key_ok, kv in *. by rewrite H1, H2. Qed.

Lemma put_once_put h : put_once h = true -> is_live h = false -> put_once (OpPut :: h) = true.
Proof. destruct h as [|[] h]; cbn; auto; done. Qed.

Lemma next_same s rc s1 : next_rc s = (rc, s1) -> same_indexes s s1.
Proof. intros Hn. pose proof (calm_next s) as Hc. by rewrite Hn in Hc. Qed.

(** A put under a key that is not stored keeps the contract, *)
Lemma put_ok i j k v ttl s s' : (i = j -> kv i s !! k = None) -> checked (tidesdb_txn_put (Some j) k v ttl) s = (inr tt, s') ->
  index_ok i s -> index_ok i s'.
Proof.
  intros Hfree Hp Hok. apply checked_ok in Hp. unfold tidesdb_txn_put in Hp. destruct (next_rc s) as [rc s1] eqn:Hn.
  pose proof (next_same _ _ _ Hn) as Hsame. assert (Hk1 : kv i s1 = kv i s) by (unfold kv; by rewrite (proj1 (Hsame i))).
  apply (index_ok_same i) in Hsame; [|exact Hok]. rename Hsame into Hok1. injection Hp as -> <-. rewrite bool_decide_true by done.
  intros k'. destruct (Hok1 k') as [Hl Ho]. unfold key_ok, kv. rewrite cf_log. destruct (decide (i = j /\ k' = k)) as [[-> ->]|Hne].
  - rewrite log_same, cf_upd_same, fmap_insert, lookup_insert_eq. split; [done|].
    apply put_once_put; [exact Ho|]. change (writes (Some j) k (upd_cf _ _ s1)) with (writes (Some j) k s1). rewrite Hl, Hk1.
    by rewrite Hfree.
  - rewrite log_other by naive_solver. change (writes (Some i) k' (upd_cf _ _ s1)) with (writes (Some i) k' s1). split; [|exact Ho].
    rewrite Hl. destruct (decide (i = j)) as [->|Hij]; [|unfold kv; by rewrite cf_upd_other by congruence].
    unfold kv. rewrite cf_upd_same, fmap_insert, lookup_insert_ne by naive_solver. done.
Qed.

(** and so does any delete. *)
Lemma delete_ok b i j k s : faults s = [] -> index_ok i s -> index_ok i (tidesdb_txn_delete_cf b (Some j) k s).2.
Proof.
  intros Hf Hok k'. unfold tidesdb_txn_delete_cf, next_rc. rewrite Hf. rewrite bool_decide_true by done. cbn [snd]. destruct (Hok k') as [Hl Ho]. unfold key_ok, kv. rewrite cf_log.
  destruct (decide (i = j /\ k' = k)) as [[-> ->]|Hne].
  - rewrite log_same, cf_upd_same, fmap_delete, lookup_delete_eq. by destruct b.
  - rewrite log_other by naive_solver. change (writes (Some i) k' (upd_cf _ _ s)) with (writes (Some i) k' s). split; [|exact Ho].
    rewrite Hl. destruct (decide (i = j)) as [->|Hij]; [|unfold kv; by rewrite cf_upd_other by congruence].
    unfold kv. rewrite cf_upd_same, fmap_delete, lookup_delete_ne by naive_solver. done.
Qed.

Lemma puts_ok {A} i j (kf vf : A -> bytes) ttl (l : list A) s s' : NoDup (kf <$> l) -> (i = j -> forall a, a ∈ l -> kv i s !! kf a = None) ->
  mfor (fun a => checked (tidesdb_txn_put (Some j) (kf a) (vf a) ttl)) l s = (inr tt, s') -> index_ok i s -> index_ok i s'.
Proof.
  revert s. induction l as [|a l IH]; intros s Hnd Hfree Hm Hok; cbn [mfor] in Hm; [unfold ret in Hm; by simplify_eq|].
  rewrite fmap_cons in Hnd. apply NoDup_cons in Hnd as [Hni Hnd]. apply bind_ok in Hm as ([] & s1 & Hp & Hm).
  apply (IH s1 Hnd); [|exact Hm|].
  - intros <- b Hb. destruct (put_index _ _ _ _ _ _ Hp) as (_ & _ & -> & _). rewrite lookup_insert_ne.
    + apply Hfree; [done|by right].
    + intros He. apply Hni. rewrite He. apply list_elem_of_fmap. by exists b.
  - eapply put_ok; [|exact Hp|exact Hok]. intros ->. apply Hfree; [done|by left].
Qed.

Lemma dels_ok {A} i j (kf : A -> bytes) (l : list A) s : faults s = [] -> index_ok i s ->
  forall s', mfor (fun a => unchecked (tidesdb_txn_delete_cf true (Some j) (kf a))) l s = (inr tt, s') -> index_ok i s'.
Proof.
  revert s. induction l as [|a l IH]; intros s Hf Hok s' Hm; cbn [mfor] in Hm; [unfold ret in Hm; by simplify_eq|].
  apply bind_ok in Hm as ([] & s1 & Hd & Hm). apply unchecked_ok in Hd. subst s1.
  destruct (del_index j (kf a) s Hf) as (_ & _ & _ & Hf1 & _). apply (IH _ Hf1); [|exact Hm]. by apply delete_ok.
Qed.

Lemma calm_ok {A} i (m : M A) s r s' : calm m -> m s = (r, s') -> index_ok i s -> index_ok i s'.
Proof. intros Hc Hm. apply index_ok_same. by eapply Hc. Qed.

(** The keys of a new row are not stored. *)
Definition fresh_keys (e : nat * index) (rec : Rec) (pk : bytes) (m : gmap bytes bytes) : Prop :=
  forall k, is_Some (entries e rec pk !! k) -> m !! k = None.

Lemma fresh_terms i ix rec pk m t : ix_kind ix = Fulltext -> fresh_keys (i, ix) rec pk m -> t ∈ fts_terms i rec -> m !! fts_build_key t.1 pk = None.
Proof.
  intros Hk Hf Ht. apply Hf. unfold entries. rewrite Hk. eexists. apply fts_entries_lookup. eauto.
Qed.

Lemma fts_puts_ok i j pk wc ttl rec s s' : (i = j -> forall t, t ∈ fts_terms j rec -> kv i s !! fts_build_key t.1 pk = None) ->
  fts_puts j pk wc ttl (fts_terms j rec) s = (inr tt, s') -> index_ok i s -> index_ok i s'.
Proof.
  intros Hfree Hp. eapply (puts_ok i j (fun t : bytes * Z => fts_build_key t.1 pk) (fun t => fts_build_value t.2 wc)); [|exact Hfree|exact Hp].
  pose proof (fts_keys_nodup j rec pk (fun _ => true)) as Hnd. by rewrite filter_true_id in Hnd.
Qed.

Lemma insert_ok en i rec pk ttl e s s' : keyed sh rec pk -> (i = e.1 -> fresh_keys e rec pk (kv i s)) ->
  insert_entry sh en rec pk ttl e s = (inr tt, s') -> index_ok i s -> index_ok i s'.
Proof.
  intros Hk Hfree. destruct e as [j ix]. cbn [fst] in Hfree. unfold insert_entry. destruct (ix_kind ix) eqn:Ek.
  - intros Hp. eapply put_ok; [|exact Hp]. intros ->. apply Hfree; [done|]. unfold entries. rewrite Ek, sec_key_keyed by done.
    rewrite lookup_singleton_eq. eauto.
  - intros ([] & s1 & Hp & Hrest)%bind_ok Hok. eapply (calm_ok i _ s1); [|exact Hrest|].
    + apply calm_if; [|auto with calm]. apply calm_modify. intros t. by destruct (default _ _).
    + eapply fts_puts_ok; [|exact Hp|exact Hok]. intros -> t. eapply fresh_terms; [exact Ek|by apply Hfree].
  - destruct (spatial_entry j rec) as [[h m]|] eqn:Es; intros Hp Hok; [|by injection Hp as <-].
    eapply put_ok; [|exact Hp|exact Hok]. intros ->. apply Hfree; [done|]. unfold entries. rewrite Ek, Es, lookup_singleton_eq. eauto.
Qed.

Lemma fts_dels_ok i j pk l s s' : faults s = [] -> fts_dels j pk l s = (inr tt, s') -> index_ok i s -> index_ok i s'.
Proof. intros Hf Hd Hok. by eapply (dels_ok i j (fun t : bytes * Z => fts_build_key t.1 pk) l s). Qed.

Lemma remove_ok i rec pk e s s' : faults s = [] -> delete_entry sh rec pk e s = (inr tt, s') -> index_ok i s -> index_ok i s'.
Proof.
  intros Hf. destruct e as [j ix]. unfold delete_entry. destruct (ix_kind ix).
  - intros Hd%checked_ok Hok. pose proof (delete_ok true i j (sec_key sh j rec pk) s Hf Hok) as Hn. by rewrite Hd in Hn.
  - intros ([] & s1 & Hd & Hrest)%bind_ok Hok. eapply (calm_ok i _ s1); [|exact Hrest|by eapply fts_dels_ok]. auto with calm.
  - destruct (spatial_entry j rec) as [[h m]|]; intros Hd Hok; [|by injection Hd as <-]. apply unchecked_ok in Hd. subst s'. by apply delete_ok.
Qed.

(** The keys of the new record are not stored, unless for the old one. *)
Definition replaced_keys (e : nat * index) (old new : Rec) (old_pk new_pk : bytes) (m : gmap bytes bytes) : Prop :=
  forall k, is_Some (entries e new new_pk !! k) -> m !! k = None \/ is_Some (entries e old old_pk !! k).

(** No word that both texts have needs a new entry. *)
Definition steady (i : nat) (old new : Rec) : Prop :=
  forall w n n', tf_map (fts_tokens i old) !! w = Some n -> tf_map (fts_tokens i new) !! w = Some n' ->
  n = n' /\ fts_wc i old = fts_wc i new.

Lemma regular_update_ok en i j ix old new old_pk new_pk ttl s s' : ix_kind ix = Regular -> keyed sh new new_pk -> faults s = [] ->
  (i = j -> replaced_keys (j, ix) old new old_pk new_pk (kv i s)) ->
  regular_update sh en j ix old new old_pk new_pk ttl s = (inr tt, s') -> index_ok i s -> index_ok i s'.
Proof.
  intros Ek Hk Hf Hfree Hu Hok. unfold regular_update in Hu. apply when_ok in Hu as [[_ Hu]|[_ ->]]; [|done].
  rewrite sec_key_keyed in Hu by done. apply bind_ok in Hu as ([] & s0 & Hm & Hu). unfold modify in Hm. injection Hm as <-.
  apply when_ok in Hu as [[Hne Hu]|[_ ->]]; [|exact Hok]. apply negb_true_iff, bool_decide_eq_false in Hne.
  apply bind_ok in Hu as ([] & s1 & Hd & Hp). apply checked_ok in Hd.
  assert (Hok1 : index_ok i s1).
  { pose proof (delete_ok true i j (idx_prefix j old ++ old_pk) (set_pk new_pk s) Hf Hok) as Hn. by rewrite Hd in Hn. }
  eapply put_ok; [|exact Hp|exact Hok1]. intros <-.
  destruct (del_index i (idx_prefix i old ++ old_pk) (set_pk new_pk s) Hf) as (_ & _ & K1 & _). rewrite Hd in K1. cbn [snd] in K1.
  rewrite K1, lookup_delete_ne by done. destruct (Hfree eq_refl (idx_prefix i new ++ new_pk)) as [Hn|Hn]; [|exact Hn|].
  - unfold entries. rewrite Ek, lookup_singleton_eq. eauto.
  - unfold entries in Hn. rewrite Ek, lookup_singleton_ne in Hn by done. by destruct Hn.
Qed.

Lemma spatial_update_ok en i j ix old new old_pk new_pk ttl s s' : ix_kind ix = Spatial -> faults s = [] ->
  (i = j -> replaced_keys (j, ix) old new old_pk new_pk (kv i s)) ->
  spatial_update en j ix old new old_pk new_pk ttl s = (inr tt, s') -> index_ok i s -> index_ok i s'.
Proof.
  intros Ek Hf Hfree Hu Hok. unfold spatial_update in Hu. apply when_ok in Hu as [[_ Hu]|[_ ->]]; [|done].
  apply bind_ok in Hu as ([] & s1 & Hd & Hp).
  assert (Hs1 : index_ok i s1 /\ (i = j -> forall k, is_Some (entries (j, ix) new new_pk !! k) -> kv i s1 !! k = None)).
  { unfold replaced_keys, entries in Hfree |- *. rewrite Ek in Hfree |- *. destruct (spatial_entry j old) as [[h m]|].
    - apply unchecked_ok in Hd. subst s1. split; [by apply delete_ok|]. intros <- k Hk.
      destruct (del_index i (h ++ old_pk) s Hf) as (_ & _ & K1 & _). rewrite K1.
      destruct (decide (k = h ++ old_pk)) as [->|Hne]; [apply lookup_delete_eq|]. rewrite lookup_delete_ne by done.
      destruct (Hfree eq_refl k Hk) as [Hn|Hn]; [done|]. rewrite lookup_singleton_ne in Hn by done. by destruct Hn.
    - unfold ret in Hd. injection Hd as <-. split; [done|]. intros <- k Hk. destruct (Hfree eq_refl k Hk) as [Hn|[v Hn]]; [done|].
      by rewrite lookup_empty in Hn. }
  destruct Hs1 as [Hok1 Hfree1]. destruct (spatial_entry j new) as [[h m]|] eqn:Es; [|by injection Hp as <-].
  eapply put_ok; [|exact Hp|exact Hok1]. intros ->. apply Hfree1; [done|]. unfold entries. rewrite Ek, Es, lookup_singleton_eq. eauto.
Qed.

Lemma term_in_entries i ix rec pk w n : ix_kind ix = Fulltext -> tf_map (fts_tokens i rec) !! w = Some n ->
  is_Some (entries (i, ix) rec pk !! fts_build_key w pk).
Proof.
  intros Ek Hw. unfold entries. rewrite Ek. eexists. apply fts_entries_lookup. exists (w, n). split; [|done]. by apply elem_of_map_to_list.
Qed.

Lemma entries_term i ix rec pk t r : ix_kind ix = Fulltext -> t ∈ fts_terms i r -> is_Some (entries (i, ix) rec pk !! fts_build_key t.1 pk) ->
  is_Some (tf_map (fts_tokens i rec) !! t.1).
Proof.
  intros Ek Ht [v Hv]. unfold entries in Hv. rewrite Ek in Hv. apply fts_entries_lookup in Hv as ([w n] & Hin & He & _).
  apply term_key_inj in He as [He _]; [|by eapply term_length|by eapply term_length]. cbn in He. rewrite He.
  apply elem_of_map_to_list in Hin. eauto.
Qed.

Lemma fts_diff_ok i j ix old new pk ttl s s' : ix_kind ix = Fulltext -> faults s = [] ->
  (i = j -> replaced_keys (j, ix) old new pk pk (kv i s) /\ steady j old new) ->
  fts_diff j pk ttl (fts_wc j old) (fts_wc j new) (tf_map (fts_tokens j old)) (tf_map (fts_tokens j new)) s = (inr tt, s') ->
  index_ok i s -> index_ok i s'.
Proof.
  intros Ek Hf Hfree Hu Hok. unfold fts_diff in Hu. apply bind_ok in Hu as ([] & s1 & Hd & Hp).
  fold (fts_terms j old) (fts_terms j new) in Hd, Hp.
  eapply (puts_ok i j (fun t : bytes * Z => fts_build_key t.1 pk)); [|..|exact Hp|by eapply fts_dels_ok]; [apply fts_keys_nodup|].
  intros -> t Ht. apply list_elem_of_In, filter_In in Ht as [Ht%list_elem_of_In Hput]. destruct (Hfree eq_refl) as [Hrep Hst].
  assert (Hnew : tf_map (fts_tokens j new) !! t.1 = Some t.2) by (destruct t as [w n]; by apply elem_of_map_to_list in Ht).
  destruct (tf_map (fts_tokens j old) !! t.1) as [n|] eqn:Ho.
  { destruct (Hst _ _ _ Ho Hnew) as [-> Hwc]. rewrite Hwc, !Z.eqb_refl in Hput. done. }
  assert (Hn : kv j s !! fts_build_key t.1 pk = None).
  { destruct (Hrep (fts_build_key t.1 pk)) as [Hn|Hn]; [by eapply term_in_entries|done|].
    eapply entries_term in Hn; [|done|done]. rewrite Ho in Hn. by destruct Hn. }
  match goal with H : fts_dels j pk ?l s = _ |- _ =>
    destruct (dels_index j (fun t : bytes * Z => fts_build_key t.1 pk) l s Hf) as (s2 & M2 & _ & _ & _ & K2) end.
  unfold fts_dels in Hd. rewrite M2 in Hd. injection Hd as <-. rewrite K2. by case_bool_decide.
Qed.

Lemma fts_update_ok en i j ix old new old_pk new_pk ttl s s' : ix_kind ix = Fulltext -> faults s = [] ->
  (i = j -> replaced_keys (j, ix) old new old_pk new_pk (kv i s) /\ (old_pk = new_pk -> steady j old new)) ->
  fts_update en j ix old new old_pk new_pk ttl s = (inr tt, s') -> index_ok i s -> index_ok i s'.
Proof.
  intros Ek Hf Hfree Hu Hok. unfold fts_update in Hu. apply when_ok in Hu as [[_ Hu]|[_ ->]]; [|done].
  apply bind_ok in Hu as ([] & s1 & Hu & Hrest). eapply (calm_ok i _ s1); [|exact Hrest|]; [auto with calm|].
  fold (fts_wc j old) (fts_wc j new) (fts_terms j old) (fts_terms j new) in Hu. case_bool_decide as Hpk; cbn [negb] in Hu.
  - subst new_pk. eapply fts_diff_ok; [done|done| |exact Hu|done]. intros E. destruct (Hfree E). auto.
  - apply bind_ok in Hu as ([] & s2 & Hd & Hp). eapply fts_puts_ok; [|exact Hp|by eapply fts_dels_ok]. intros <- t Ht.
    destruct (fts_dels_all i ix old old_pk s Ek Hf) as (s3 & M3 & _ & _ & K3). rewrite M3 in Hd. injection Hd as <-. rewrite K3.
    destruct (Hfree eq_refl) as [Hrep _]. apply lookup_difference_None. apply Hrep. unfold entries. rewrite Ek. eexists.
    apply fts_entries_lookup. eauto.
Qed.

Lemma update_ok en i e old new old_pk new_pk ttl s s' : keyed sh new new_pk -> faults s = [] ->
  (i = e.1 -> replaced_keys e old new old_pk new_pk (kv i s) /\ (ix_kind e.2 = Fulltext -> old_pk = new_pk -> steady e.1 old new)) ->
  update_entry sh en old new old_pk new_pk ttl e s = (inr tt, s') -> index_ok i s -> index_ok i s'.
Proof.
  destruct e as [j ix]. cbn [fst snd]. unfold update_entry. cbn [fst snd]. intros Hk Hf Hfree. destruct (ix_kind ix) eqn:Ek.
  - apply regular_update_ok; [done..|]. intros E. by apply Hfree.
  - apply fts_update_ok; [done..|]. intros E. destruct (Hfree E). auto.
  - apply spatial_update_ok; [done..|]. intros E. by apply Hfree.
Qed.

(** ** The row changes *)

Lemma new_keys_fresh s rows e rec pk : consistent sh s rows -> e ∈ active_indexes sh -> rows !! pk = None -> fresh_keys e rec pk (kv e.1 s).
Proof.
  intros Hc He Hn k [v Hk]. destruct (kv e.1 s !! k) as [v'|] eqn:Hs; [|done]. exfalso.
  apply (c_index _ _ _ Hc e He) in Hs as (p & r & Hr & Hv). by rewrite (entries_apart e rec r pk p k v v' Hk Hv), Hr in Hn.
Qed.

Lemma row_keys_replaced s rows e old new old_pk new_pk : consistent sh s rows -> e ∈ active_indexes sh -> rows !! old_pk = Some old ->
  new_pk = old_pk \/ rows !! new_pk = None -> replaced_keys e old new old_pk new_pk (kv e.1 s).
Proof.
  intros Hc He Ho Hn k [v Hk]. destruct (kv e.1 s !! k) as [v'|] eqn:Hs; [|by left]. right.
  apply (c_index _ _ _ Hc e He) in Hs as (p & r & Hr & Hv). pose proof (entries_apart e new r new_pk p k v v' Hk Hv) as <-.
  destruct Hn as [->|Hn]; [|by rewrite Hn in Hr]. rewrite Ho in Hr. injection Hr as ->. eauto.
Qed.

Lemma write_ok en i rec s s' rows : consistent sh s rows -> write_row sh en rec s = (inr tt, s') ->
  (pk_checked sh en = false -> rows !! row_pk sh s rec = None) -> index_ok i s -> index_ok i s'.
Proof.
  intros Hc Hw Hnew Hok.
  assert (Hn : rows !! row_pk sh s rec = None).
  { destruct (write_keeps sh en rec s s' rows Hc Hw) as (_ & _ & Hck); [auto|]. destruct (pk_checked sh en); auto. }
  destruct (write_row_effect sh en rec s s' Hw) as (Hk & _). unfold write_row in Hw.
  apply bind_ok in Hw as (g & s1 & Ha & Hw). pose proof (auto_increment_ok _ _ _ _ _ Ha) as (_ & C1 & N1 & _).
  apply bind_ok in Hw as (pk & s2 & Hp & Hw). pose proof (new_pk_ok _ _ _ _ _ Hp) as (Epk & C2 & _).
  assert (pk = row_pk sh s rec) as -> by (rewrite Epk; unfold row_pk; by rewrite N1).
  apply bind_ok in Hw as ([] & s3 & Hg & Hw). apply guard_ok in Hg as [_ ->].
  apply bind_ok in Hw as ([] & s3 & Hg & Hw). apply guard_ok' in Hg as [_ ->].
  apply bind_ok in Hw as ([] & s3 & Hg & Hw). apply guard_ok in Hg as [_ ->].
  apply bind_ok in Hw as ([] & s4 & Hdup & Hw). apply bind_ok in Hw as ([] & s5 & Huniq & Hw).
  apply bind_ok in Hw as ([] & s6 & Hput & Hw). apply bind_ok in Hw as ([] & s7 & Hm & Hw). injection Hm as <-.
  apply bind_ok in Hw as ([] & s8 & Hloop & Hw).
  assert (Hsame : same_indexes s (set_pk (row_pk sh s rec) s6)).
  { eapply same_indexes_trans; [by eapply calm_auto_increment|]. eapply same_indexes_trans; [by eapply calm_new_pk|].
    eapply same_indexes_trans; [by eapply calm_pk_dup_check|].
    assert (Hu : same_indexes s4 s5).
    { revert Huniq. apply calm_when. unfold unique_check. apply calm_if; [auto with calm|]. apply calm_mfor. intros e. apply calm_unique_one. }
    eapply same_indexes_trans; [exact Hu|]. change (same_indexes s5 s6). revert Hput. apply calm_checked, calm_data_put. }
  eapply (calm_ok i _ s8); [apply calm_count_bulk|exact Hw|].
  refine (proj1 (mfor_indexes _ (index_ok i) (fun e m => fresh_keys e rec (row_pk sh s rec) m) (fun _ _ _ => True)
    (active_indexes sh) (active_nodup sh) _ _ s8 (index_ok_same i _ _ Hsame Hok) _ Hloop)).
  - intros e t t' He Ht Hpre Hi. destruct (insert_entry_spec sh en rec _ _ e t t' Hk Hi) as (O1 & _).
    split; [exact O1|]. split; [|done]. eapply insert_ok; [exact Hk| |exact Hi|exact Ht]. by intros ->.
  - intros e He. unfold kv. rewrite (proj1 (Hsame e.1)). by eapply new_keys_fresh.
Qed.

Lemma delete_row_ok en i rec s s' : keyed sh rec (current_pk s) -> faults s = [] ->
  delete_row sh en rec s = (inr tt, s') -> index_ok i s -> index_ok i s'.
Proof.
  intros Hk Hf Hd Hok. unfold delete_row in Hd. apply bind_ok in Hd as ([] & s0 & Hg & Hd). apply guard_ok' in Hg as [_ ->].
  apply bind_ok in Hd as ([] & s1 & Ht & Hd). apply bind_ok in Hd as ([] & s2 & Hdel & Hd). apply bind_ok in Hd as ([] & s3 & Hloop & Hd).
  assert (Hf1 : faults s1 = []) by (apply when_ok in Ht as [[_ Ht]|[_ ->]]; [by injection Ht as <-|done]).
  assert (Hf2 : faults s2 = []).
  { apply checked_ok in Hdel. destruct (delete_spec _ _ _ _ _ _ Hdel) as (_ & _ & _ & Hx). by destruct (Hx Hf1). }
  assert (Hok2 : index_ok i s2).
  { eapply (calm_ok i); [|exact Hdel|]; [auto with calm|]. eapply (calm_ok i); [|exact Ht|exact Hok]. auto with calm. }
  eapply (calm_ok i _ s3); [apply calm_count_bulk|exact Hd|].
  refine (proj1 (proj1 (mfor_indexes _ (fun t => index_ok i t /\ faults t = []) (fun _ _ => True) (fun _ _ _ => True)
    (active_indexes sh) (active_nodup sh) _ s2 s3 (conj Hok2 Hf2) (fun _ _ => I) Hloop))).
  intros e t t' He [Ht1 Ht2] _ Hi. destruct (delete_entry_spec sh rec (current_pk s) e t t' Hk Ht2 Hi) as (O1 & _ & _ & Hf').
  split; [exact O1|]. split; [|done]. split; [|done]. eapply remove_ok; [exact Ht2|exact Hi|exact Ht1].
Qed.

Lemma update_row_ok en i old new s s' rows : consistent sh s rows -> rows !! current_pk s = Some old -> faults s = [] ->
  keyed sh new (updated_pk sh en s new) ->
  updated_pk sh en s new = current_pk s \/ rows !! updated_pk sh en s new = None ->
  (forall e, e ∈ active_indexes sh -> i = e.1 -> ix_kind e.2 = Fulltext -> current_pk s = updated_pk sh en s new -> steady e.1 old new) ->
  update_row sh en old new s = (inr tt, s') -> index_ok i s -> index_ok i s'.
Proof.
  intros Hc Ho Hf Hk Hn Hst Hu Hok. unfold update_row in Hu. fold (updated_pk sh en s new) in Hu.
  set (np := updated_pk sh en s new) in *. set (op := current_pk s) in *.
  apply bind_ok in Hu as ([] & s0 & Hg & Hu). apply guard_ok in Hg as [_ ->].
  apply bind_ok in Hu as ([] & s0 & Hg & Hu). apply guard_ok' in Hg as [_ ->].
  apply bind_ok in Hu as ([] & s1 & Hd & Hu). apply bind_ok in Hu as ([] & s2 & Hp & Hu).
  apply bind_ok in Hu as ([] & s3 & Hloop & Hu). apply bind_ok in Hu as ([] & s4 & Hm & Hu). injection Hm as <-.
  assert (Hf1 : faults s1 = []).
  { apply when_ok in Hd as [[_ Hd]|[_ ->]]; [|done]. apply checked_ok in Hd. destruct (delete_spec _ _ _ _ _ _ Hd) as (_ & _ & _ & Hx). by destruct (Hx Hf). }
  assert (Hf2 : faults s2 = []).
  { apply checked_ok in Hp. destruct (put_spec _ _ _ _ _ _ _ Hp) as (_ & _ & _ & Hx). by destruct (Hx Hf1). }
  assert (Hsame : same_indexes s s2).
  { apply (same_indexes_trans s s1 s2); [revert Hd; apply calm_when; auto with calm|]. revert Hp. apply calm_checked, calm_data_put. }
  eapply (calm_ok i _ (set_pk np s3)); [apply calm_count_bulk|exact Hu|]. change (index_ok i s3).
  refine (proj1 (proj1 (mfor_indexes _ (fun t => index_ok i t /\ faults t = [])
    (fun e m => entries e old op ⊆ m /\ replaced_keys e old new op np m) (fun _ _ _ => True)
    (active_indexes sh) (active_nodup sh) _ s2 s3 (conj (index_ok_same i _ _ Hsame Hok) Hf2) _ Hloop))).
  - intros e t t' He [Ht1 Ht2] [Hsub Hrep] Hi.
    destruct (update_entry_spec sh en old new op np (row_ttl sh en new) Hk e t Ht2 Hsub) as (t1 & U1 & U2 & U3 & _).
    rewrite U1 in Hi. injection Hi as <-. split; [exact U2|]. split; [|done]. split; [|done].
    eapply update_ok; [exact Hk|exact Ht2| |exact U1|exact Ht1]. intros E. subst i. split; [exact Hrep|]. by apply Hst.
  - intros e He. unfold kv. rewrite (proj1 (Hsame e.1)). split; [|by eapply row_keys_replaced].
    apply map_subseteq_spec. intros k v Hv. apply (c_index _ _ _ Hc e He). eauto.
Qed.

(** ** Row operations one after the other *)

(** What a connection does to the table: the engine is about to return these results, the handler
    is positioned on a key, a row operation is called. *)
Inductive row_op :=
| RFaults (codes : list tdb_rc)
| RPosition (pk : bytes)
| RWrite (en : stmt_env) (rec : Rec)
| RDelete (en : stmt_env) (rec : Rec)
| RUpdate (en : stmt_env) (old new : Rec).

Definition perform (o : row_op) (s : hstate) : (ha_rc + unit) * hstate :=
  match o with
  | RFaults codes => (inr tt, set_faults codes s)
  | RPosition pk => (inr tt, set_pk pk s)
  | RWrite en rec => write_row sh en rec s
  | RDelete en rec => delete_row sh en rec s
  | RUpdate en old new => update_row sh en old new s
  end.

(** The rows after an operation: those of the table when it succeeds. *)
Definition rows_after (o : row_op) (s : hstate) (rows : gmap bytes Rec) : gmap bytes Rec :=
  match o with
  | RWrite en rec => <[row_pk sh s rec := rec]> rows
  | RDelete en rec => delete (current_pk s) rows
  | RUpdate en old new => <[updated_pk sh en s new := new]> (delete (current_pk s) rows)
  | _ => rows
  end.

(** When an operation keeps to the contract: the handler is on the row that it changes, a key that
    is not looked up is free, the engine does not fail under an update or a delete, and an update
    neither takes the key of another row nor changes the key without writing the columns of the
    full-text and spatial indexes.  With [strict] no update rewrites the full-text entry of a
    word that stays. *)
Definition in_contract (strict : bool) (o : row_op) (s : hstate) (rows : gmap bytes Rec) : Prop :=
  match o with
  | RFaults _ => True
  | RPosition pk => is_Some (rows !! pk)
  | RWrite en rec => pk_checked sh en = false -> rows !! row_pk sh s rec = None
  | RDelete en rec => rows !! current_pk s = Some rec /\ faults s = []
  | RUpdate en old new =>
    rows !! current_pk s = Some old /\ faults s = [] /\
    (touches en (pk_fields sh) = false -> pk_bytes old = pk_bytes new) /\
    (forall e, e ∈ active_indexes sh -> index_ready en old new (current_pk s) (updated_pk sh en s new) e) /\
    (updated_pk sh en s new = current_pk s \/ rows !! updated_pk sh en s new = None) /\
    (strict = true -> forall e, e ∈ active_indexes sh -> ix_kind e.2 = Fulltext -> steady e.1 old new)
  end.

(** Every operation, with every result. *)
Definition row_step (s : hstate) (o : row_op) (r : ha_rc + unit) (s' : hstate) : Prop := perform o s = (r, s').

(** A history: operations that succeed, and operations that fail and leave the column families
    and the log of writes as they were (an insert that is refused as a duplicate, a statement
    that cannot begin). *)
Inductive contract_run (strict : bool) : hstate -> gmap bytes Rec -> hstate -> gmap bytes Rec -> Prop :=
| run_start s rows : contract_run strict s rows s rows
| run_done s0 rows0 s rows o s' :
    contract_run strict s0 rows0 s rows -> row_step s o (inr tt) s' -> in_contract strict o s rows ->
    contract_run strict s0 rows0 s' (rows_after o s rows)
| run_refused s0 rows0 s rows o rc s' :
    contract_run strict s0 rows0 s rows -> row_step s o (inl rc) s' -> faults s = [] ->
    contract_run strict s0 rows0 s' rows.

Definition stored_once (strict : bool) (s : hstate) (rows : gmap bytes Rec) : Prop :=
  consistent sh s rows /\ forall e, tracked strict e -> index_ok e.1 s.

Lemma ensure_ok_delete en rec s s' : delete_row sh en rec s = (inr tt, s') -> en_ensure en = HA_OK.
Proof. intros ([] & s1 & Hg & _)%bind_ok. apply guard_ok' in Hg as [Hb _]. by apply bool_decide_eq_true in Hb. Qed.

Lemma ensure_ok_update en old new s s' : update_row sh en old new s = (inr tt, s') ->
  encrypted sh && bool_decide (serialize new = []) = false /\ en_ensure en = HA_OK.
Proof.
  unfold update_row. intros ([] & s1 & Hg & Hu)%bind_ok. apply guard_ok in Hg as [He _]. split; [done|].
  apply bind_ok in Hu as ([] & s2 & Hg & _). apply guard_ok' in Hg as [Hb _]. by apply bool_decide_eq_true in Hb.
Qed.

(** With no failure of the engine, the parts that write cannot fail, *)
Definition total (m : M unit) : Prop := forall s, faults s = [] -> exists s', m s = (inr tt, s') /\ faults s' = [].

(** the parts before them write nothing, *)
Definition still {A} (m : M A) : Prop := forall s r s', faults s = [] -> m s = (r, s') ->
  cfs s' = cfs s /\ history s' = history s /\ faults s' = [].

(** and so an operation that fails has written nothing. *)
Definition refuses (m : M unit) : Prop := forall s rc s', faults s = [] -> m s = (inl rc, s') -> cfs s' = cfs s /\ history s' = history s.

Lemma total_bind m (k : unit -> M unit) : total m -> total (k tt) -> total (bind m k).
Proof. intros Hm Hk s Hf. apply bind_total; auto. Qed.

Lemma total_when b m : total m -> total (when b m).
Proof. intros Hm s Hf. by apply when_total; [|apply Hm]. Qed.

Lemma total_mfor {A} (f : A -> M unit) l : (forall a, total (f a)) -> total (mfor f l).
Proof. intros Hf s Hs. apply mfor_total; [|done]. intros a s1 _. apply Hf. Qed.

Lemma total_put c k v ttl : total (checked (tidesdb_txn_put c k v ttl)).
Proof. intros s. apply checked_put_total. Qed.

Lemma total_delete b c k : total (checked (tidesdb_txn_delete_cf b c k)).
Proof. intros s. apply checked_delete_total. Qed.

Lemma total_delete_unchecked b c k : total (unchecked (tidesdb_txn_delete_cf b c k)).
Proof. intros s. apply unchecked_delete_total. Qed.

Lemma total_meta i d w : total (unchecked (fts_update_meta i d w)).
Proof. intros s. apply meta_total. Qed.

Lemma total_bulk on n : total (count_bulk on n).
Proof. intros s. apply bulk_total. Qed.

Lemma total_modify f : (forall s, faults (f s) = faults s) -> total (modify f).
Proof. intros Hf s Hs. eexists. split; [done|]. by rewrite Hf. Qed.

Lemma total_ret : total (ret tt).
Proof. intros s Hs. by exists s. Qed.

Hint Resolve total_bind total_when total_mfor total_put total_delete total_delete_unchecked total_meta total_bulk total_ret : total.

Lemma total_insert en rec pk ttl e : total (insert_entry sh en rec pk ttl e).
Proof.
  destruct e as [i ix]. unfold insert_entry, fts_puts. destruct (ix_kind ix); [auto with total| |destruct (spatial_entry i rec) as [[h m]|]; auto with total].
  apply total_bind; [auto with total|]. destruct (en_bulk_insert en); [|auto with total]. apply total_modify. intros s. by destruct (default _ _).
Qed.

Lemma total_remove rec pk e : total (delete_entry sh rec pk e).
Proof. intros s. apply delete_entry_total. Qed.

Lemma total_change en old new old_pk new_pk ttl e : total (update_entry sh en old new old_pk new_pk ttl e).
Proof.
  destruct e as [i ix]. unfold update_entry, regular_update, fts_update, spatial_update, fts_diff, fts_dels, fts_puts. cbn [fst snd]. destruct (ix_kind ix).
  - apply total_when, total_bind; [by apply total_modify|]. auto with total.
  - apply total_when, total_bind; [|auto with total]. case_match; auto with total.
  - apply total_when, total_bind; [destruct (spatial_entry i old) as [[h m]|]|destruct (spatial_entry i new) as [[h m]|]]; auto with total.
Qed.

Lemma refuses_total m : total m -> refuses m.
Proof. intros Hm s rc s' Hf He. destruct (Hm s Hf) as (s1 & E & _). by rewrite E in He. Qed.

Lemma refuses_still {A} (m : M A) (k : A -> M unit) : still m -> (forall a, refuses (k a)) -> refuses (bind m k).
Proof.
  intros Hm Hk s rc s' Hf. unfold bind. destruct (m s) as [r s1] eqn:E. destruct (Hm s r s1 Hf E) as (C & Hh & F).
  destruct r as [rc0|a]; [intros [= -> <-]; done|]. intros He. destruct (Hk a s1 rc s' F He) as [C1 H1]. split; congruence.
Qed.

Lemma still_ret {A} (a : A) : still (ret a).
Proof. intros s r s' Hf [= <- <-]. done. Qed.

Lemma still_fail {A} rc : still (fail (A := A) rc).
Proof. intros s r s' Hf [= <- <-]. done. Qed.

Lemma still_if {A} (b : bool) (m1 m2 : M A) : still m1 -> still m2 -> still (if b then m1 else m2).
Proof. by destruct b. Qed.

Lemma still_bind {A B} (m : M A) (k : A -> M B) : still m -> (forall a, still (k a)) -> still (bind m k).
Proof.
  intros Hm Hk s r s' Hf. unfold bind. destruct (m s) as [r0 s1] eqn:E. destruct (Hm s r0 s1 Hf E) as (C & Hh & F).
  destruct r0 as [rc0|a]; [intros [= <- <-]; done|]. intros He. destruct (Hk a s1 r s' F He) as (C1 & H1 & F1). split; [|split]; congruence.
Qed.

Lemma still_mfor {A} (f : A -> M unit) l : (forall a, still (f a)) -> still (mfor f l).
Proof. intros Hf. induction l as [|a l IH]; [apply still_ret|]. apply still_bind; auto. Qed.

Hint Resolve still_ret still_fail still_if still_bind still_mfor : still.

Lemma still_auto_increment en : still (auto_increment sh en).
Proof.
  unfold auto_increment. destruct (en_autoinc en) as [[[b rc] a]|]; [|apply still_ret]. apply still_if; [apply still_fail|].
  apply still_bind; [by intros s r s' Hf [= <- <-]|intros; apply still_ret].
Qed.

Lemma still_new_pk rec : still (new_pk sh rec).
Proof. unfold new_pk. apply still_if; [apply still_ret|]. by intros s r s' Hf [= <- <-]. Qed.

Lemma still_dup en skip pk : still (pk_dup_check sh en skip pk).
Proof.
  unfold pk_dup_check. apply still_if; [|apply still_ret]. intros s r s' Hf. unfold tdb_txn_get, next_rc. rewrite Hf.
  destruct (cf_of None s !! build_data_key pk); intros [= <- <-]; done.
Qed.

Lemma still_unique en rec : still (unique_check sh en rec).
Proof.
  unfold unique_check. apply still_if; [apply still_ret|]. apply still_mfor. intros [i ix]. unfold unique_check_one. apply still_if; [|apply still_ret].
  apply still_bind.
  - intros s r s' Hf. destruct (dup_iter s !! i); [by intros [= <- <-]|]. unfold bind, checked, next_rc. rewrite Hf.
    rewrite bool_decide_true by done. by intros [= <- <-].
  - intros _ s r s' Hf. destruct (key_under _ _ _ _); [case_bool_decide|]; by intros [= <- <-].
Qed.

Lemma refused_write en rec : refuses (write_row sh en rec).
Proof.
  unfold write_row. apply refuses_still; [apply still_auto_increment|]. intros g. apply refuses_still; [apply still_new_pk|]. intros pk.
  do 3 (apply refuses_still; [auto with still|]; intros []). apply refuses_still; [apply still_dup|]. intros [].
  apply refuses_still; [unfold when; apply still_if; [apply still_unique|apply still_ret]|]. intros []. apply refuses_total.
  apply total_bind; [auto with total|]. apply total_bind; [by apply total_modify|]. apply total_bind; [|auto with total].
  apply total_mfor. apply total_insert.
Qed.

Lemma refused_delete en rec : refuses (delete_row sh en rec).
Proof.
  unfold delete_row. apply refuses_still; [auto with still|]. intros [] s rc s' Hf. apply (fun H => refuses_total _ H s rc s' Hf).
  apply total_bind; [by apply total_when, total_modify|]. apply total_bind; [auto with total|]. apply total_bind; [|auto with total].
  apply total_mfor. apply total_remove.
Qed.

Lemma refuses_at m s rc s' : refuses m -> faults s = [] -> m s = (inl rc, s') -> cfs s' = cfs s /\ history s' = history s.
Proof. intros Hm. apply Hm. Qed.

Lemma refused_update en old new : refuses (update_row sh en old new).
Proof.
  intros s rc s' Hf Hu. unfold update_row in Hu. cbv zeta in Hu. refine (refuses_at _ s rc s' _ Hf Hu).
  apply refuses_still; [auto with still|]. intros []. apply refuses_still; [auto with still|]. intros []. apply refuses_total.
  apply total_bind; [auto with total|]. apply total_bind; [auto with total|]. apply total_bind; [apply total_mfor, total_change|].
  apply total_bind; [by apply total_modify|]. auto with total.
Qed.

Lemma refused_op o s rc s' : faults s = [] -> perform o s = (inl rc, s') -> cfs s' = cfs s /\ history s' = history s.
Proof.
  destruct o; cbn [perform]; [done|done| | |]; intros Hf; [by apply refused_write|by apply refused_delete|by apply refused_update].
Qed.

Lemma stored_once_same strict s s' rows : cfs s' = cfs s -> history s' = history s -> stored_once strict s rows -> stored_once strict s' rows.
Proof.
  intros Hc Hh [[H1 H2 H3] Hok].
  assert (Hcf : forall c, cf_of c s' = cf_of c s) by (intros; by apply cf_of_cfs). split.
  - split; [intros pk; rewrite Hcf; apply H1| |done]. intros e He k v. unfold kv. rewrite Hcf. by apply H2.
  - intros e He. apply (index_ok_same e.1 s); [|by apply Hok]. intros i. split; [done|]. intros k. unfold writes. by rewrite Hh.
Qed.

Lemma active_functional e e' : e ∈ active_indexes sh -> e' ∈ active_indexes sh -> e.1 = e'.1 -> e' = e.
Proof.
  intros He He' Heq. pose proof (active_nodup sh) as Hnd. destruct e as [i x], e' as [i' x']. cbn in Heq. subst i'.
  apply list_elem_of_lookup in He as [a Ha]. apply list_elem_of_lookup in He' as [b Hb].
  assert (a = b) as ->; [|congruence].
  eapply NoDup_lookup; [exact Hnd|by rewrite list_lookup_fmap, Ha|by rewrite list_lookup_fmap, Hb].
Qed.

Lemma done_ok strict o s s' rows : stored_once strict s rows -> perform o s = (inr tt, s') -> in_contract strict o s rows ->
  stored_once strict s' (rows_after o s rows).
Proof.
  intros Hst. pose proof Hst as [Hc Hok]. destruct o as [codes|pk|en rec|en rec|en old new]; cbn [perform in_contract rows_after].
  - intros [= <-] _. by apply (stored_once_same strict s).
  - intros [= <-] _. by apply (stored_once_same strict s).
  - intros Hw Hn. split; [by destruct (write_keeps sh en rec s s' rows Hc Hw) as [Hc' _]; [auto|]|]. intros e He. eapply write_ok; eauto.
  - intros Hd [Hr Hf].
    destruct (delete_keeps sh en rec s rows Hc Hr Hf (ensure_ok_delete _ _ _ _ Hd)) as (s2 & Hd2 & Hc2). rewrite Hd in Hd2. injection Hd2 as <-.
    split; [done|]. intros e He. eapply delete_row_ok; [exact (c_pk _ _ _ Hc _ _ Hr)|exact Hf|exact Hd|by apply Hok].
  - intros Hu (Hr & Hf & Hpk & Hrd & Hn & Hsteady). destruct (ensure_ok_update _ _ _ _ _ Hu) as [Henc Hen].
    destruct (update_keeps sh en old new s rows Hc Hr Hf Hen Henc Hpk Hrd Hn) as (s2 & Hu2 & _ & Hc2). rewrite Hu in Hu2. injection Hu2 as <-.
    split; [done|]. intros e [He Hfull]. eapply update_row_ok; [exact Hc|exact Hr|exact Hf| |exact Hn| |exact Hu|by apply Hok].
    + intros Hu'. unfold updated_pk. rewrite Hu'. cbn [andb]. destruct (touches en (pk_fields sh)) eqn:Et; [done|].
      rewrite (c_pk _ _ _ Hc _ _ Hr Hu'). by apply Hpk.
    + intros e' He' Heq Hk' _. rewrite (active_functional e e' He He' Heq) in Hk' |- *.
      destruct Hfull as [Hx|Hx]; [done|]. by apply (Hsteady Hx).
Qed.

Lemma run_ok strict s0 rows0 s rows : contract_run strict s0 rows0 s rows -> stored_once strict s0 rows0 -> stored_once strict s rows.
Proof.
  induction 1 as [|s0 rows0 s rows o s' _ IH Hp Hin|s0 rows0 s rows o rc s' _ IH Hp Hf]; intros H0; [done| |].
  - eapply done_ok; eauto.
  - destruct (refused_op _ _ _ _ Hf Hp) as [Hc Hh]. eapply stored_once_same; eauto.
Qed.

Lemma empty_stored strict s0 : cfs s0 = ∅ -> history s0 = [] -> stored_once strict s0 ∅.
Proof.
  intros Hc0 Hh0. split.
  - split.
    + intros pk. unfold cf_of. by rewrite Hc0, !lookup_empty.
    + intros e' _ k' v. unfold kv, cf_of. rewrite Hc0, lookup_empty. cbn [default]. rewrite lookup_fmap, lookup_empty.
      split; [done|]. intros (pk & rec & Hx & _). by rewrite lookup_empty in Hx.
    + intros pk rec Hx. by rewrite lookup_empty in Hx.
  - intros e' _ k'. unfold key_ok, writes, kv, cf_of. rewrite Hh0, Hc0, lookup_empty. cbn [default omap list_omap].
    by rewrite lookup_fmap, lookup_empty.
Qed.

(** C5: single deletes of index entries are safe for histories within the contract.  From an empty
    table, after any sequence of inserts, updates and deletes that succeed within the contract
    ([in_contract]: no update onto the key of another row or away from the key of a full-text or
    spatial entry that it does not rewrite, no taken key where the insert does not look it up, no
    failure of the engine under an update or a delete) and of operations that are refused, every
    key of a regular or spatial index was put at most once between two deletes of it, and is
    stored exactly when its last write is a put; for a full-text index this holds if moreover no
    update rewrites the entry of a word that stays in the text. *)
Theorem single_delete_contract (strict : bool) (s0 s : hstate) (rows : gmap bytes Rec) (e : nat * index) (k : bytes) :
  cfs s0 = ∅ -> history s0 = [] -> contract_run strict s0 ∅ s rows ->
  e ∈ active_indexes sh -> ix_kind e.2 <> Fulltext \/ strict = true ->
  put_once (writes (Some e.1) k s) = true /\ (is_live (writes (Some e.1) k s) = true <-> is_Some (kv e.1 s !! k)).
Proof.
  intros Hc0 Hh0 Hr He Hk. destruct (run_ok _ _ _ _ _ Hr (empty_stored strict s0 Hc0 Hh0)) as [_ Hs].
  destruct (Hs e (conj He Hk) k) as [Hl Hp]. split; [exact Hp|]. rewrite Hl. apply bool_decide_eq_true.
Qed.

End Contract.

(** ** Examples *)

(** Two inserts, an insert that is refused, and a delete. *)
Definition refused2 : hstate := (write_row demo_share (demo_env ∅ true) row1 after2).2.

Lemma refused2_run : write_row demo_share (demo_env ∅ true) row1 after2 = (inl HA_ERR_FOUND_DUPP_KEY, refused2).
Proof. vm_compute. reflexivity. Qed.

Definition gone3 : hstate := (delete_row demo_share (demo_env ∅ true) row2 refused2).2.

Lemma gone3_run : delete_row demo_share (demo_env ∅ true) row2 refused2 = (inr tt, gone3).
Proof. vm_compute. reflexivity. Qed.

Lemma refused2_on_row : current_pk refused2 = [2] /\ faults refused2 = [] /\ faults after2 = [].
Proof. split; [|split]; vm_compute; reflexivity. Qed.

Lemma demo_steps strict : contract_run demo_share strict demo_empty ∅ gone3 (delete [2] (<[[2] := row2]> (<[[1] := row1]> ∅))).
Proof.
  destruct refused2_on_row as (Epk & Ef & Ef2).
  assert (H1 : contract_run demo_share strict demo_empty ∅ after1 (<[[1] := row1]> ∅)).
  { exact (run_done demo_share strict _ _ demo_empty ∅ (RWrite (demo_env ∅ true) row1) after1 (run_start _ _ _ _) after1_run ltac:(done)). }
  assert (H2 : contract_run demo_share strict demo_empty ∅ after2 (<[[2] := row2]> (<[[1] := row1]> ∅))).
  { exact (run_done demo_share strict _ _ after1 _ (RWrite (demo_env ∅ true) row2) after2 H1 after2_run ltac:(done)). }
  pose proof (run_refused demo_share strict _ _ after2 _ (RWrite (demo_env ∅ true) row1) _ refused2 H2 refused2_run Ef2) as H3.
  pose proof (run_done demo_share strict _ _ refused2 _ (RDelete (demo_env ∅ true) row2) gone3 H3 gone3_run) as H4.
  cbn [rows_after in_contract] in H4. rewrite Epk in H4. apply H4. split; [apply lookup_insert_eq|exact Ef].
Qed.

Lemma single_delete_contract_witness :
  put_once (writes (Some 1%nat) [SORT_KEY_NOT_NULL; 6; 2] gone3) = true /\
  (is_live (writes (Some 1%nat) [SORT_KEY_NOT_NULL; 6; 2] gone3) = true <-> is_Some (kv 1 gone3 !! [SORT_KEY_NOT_NULL; 6; 2])).
Proof.
  apply (single_delete_contract demo_share true demo_empty gone3 _ (1%nat, mk_index Regular true [1%nat] true) _ eq_refl eq_refl (demo_steps true)).
  - apply list_elem_of_In. vm_compute. auto.
  - by right.
Defined.

(** *** Outside the contract *)

(** Row 1 moves onto row 2, whose entry stays in the unique index; when the moved row then takes
    the value of the lost one, the entry is put a second time. *)
Definition moved1 : hstate :=
  (update_row demo_share (demo_env {[0%nat]} true) row1 (mk_drow 2 (Some 5) [[97]; [98]]) (set_pk [1] after2)).2.

Lemma taken_key_puts_twice :
  exists s', update_row demo_share (demo_env {[1%nat]} true) (mk_drow 2 (Some 5) [[97]; [98]]) (mk_drow 2 (Some 6) [[97]; [98]]) moved1 = (inr tt, s') /\
    writes (Some 1%nat) [SORT_KEY_NOT_NULL; 6; 2] s' = [OpPut; OpPut].
Proof. eexists. split; vm_compute; reflexivity. Qed.

(** An insert that does not look up its key, [tidesdb_skip_unique_check], puts the entries of a
    row that is there a second time. *)
Definition unchecked_env : stmt_env :=
  mk_env None HA_OK false HA_OK true 0 false ∅ false false false 0 false true (fun _ => TDB_SUCCESS) (fun _ => None) (fun _ => TDB_SUCCESS).

Lemma unchecked_insert_puts_twice :
  exists s', write_row demo_share unchecked_env row2 after2 = (inr tt, s') /\
    writes (Some 1%nat) [SORT_KEY_NOT_NULL; 6; 2] s' = [OpPut; OpPut].
Proof. eexists. split; vm_compute; reflexivity. Qed.

(** The failure to delete a full-text entry is dropped: the row goes, its entry stays, and the row
    that comes back puts the entry a second time. *)
Definition half_gone : hstate :=
  (delete_row demo_share (demo_env ∅ true) row2 (set_faults [TDB_SUCCESS; TDB_SUCCESS; TDB_ERR_IO] after2)).2.

Lemma failed_delete_puts_twice :
  exists s', write_row demo_share (demo_env ∅ true) row2 half_gone = (inr tt, s') /\
    writes (Some 2%nat) (fts_build_key [98] [2]) s' = [OpPut; OpPut].
Proof. eexists. split; vm_compute; reflexivity. Qed.

(** The row was put and deleted. *)
Lemma gone3_writes : writes (Some 1%nat) [SORT_KEY_NOT_NULL; 6; 2] gone3 = [OpSingleDelete; OpPut].
Proof. vm_compute. reflexivity. Qed.

Definition grown2 : hstate := (update_row demo_share (demo_env {[2%nat]} true) row2 row2' after2).2.
Definition grown2_gone : hstate := (delete_row demo_share (demo_env ∅ true) row2' grown2).2.

Lemma grown2_run : update_row demo_share (demo_env {[2%nat]} true) row2 row2' after2 = (inr tt, grown2).
Proof. vm_compute. reflexivity. Qed.

Lemma grown2_gone_run : delete_row demo_share (demo_env ∅ true) row2' grown2 = (inr tt, grown2_gone).
Proof. vm_compute. reflexivity. Qed.

(** A text that grows: the word that stays gets its entry anew, and the delete that follows is a
    single delete of a key that was put twice. *)
Lemma word_put_twice :
  update_row demo_share (demo_env {[2%nat]} true) row2 row2' after2 = (inr tt, grown2) /\
  delete_row demo_share (demo_env ∅ true) row2' grown2 = (inr tt, grown2_gone) /\
  writes (Some 2%nat) (fts_build_key [98] [2]) grown2_gone = [OpSingleDelete; OpPut; OpPut] /\
  put_once (writes (Some 2%nat) (fts_build_key [98] [2]) grown2_gone) = false.
Proof.
  split; [exact grown2_run|]. split; [exact grown2_gone_run|].
  split; vm_compute; reflexivity.
Qed.
