(* ===== verification/Serial.v ===== *)
(** * Transactions of several connections (ha_tidesdb.cc 2285-2483, 5620-5767, 6234-6256)

    With [tidesdb_pessimistic_locking] every insert and every lookup by the primary key that means
    to change the row first takes the lock of the row, and the locks of a transaction are given
    back after the engine has committed or rolled back ([row_locks_release_all] ends [tidesdb_commit]
    and [tidesdb_rollback]).  The engine runs at READ COMMITTED: a read sees what the transaction
    itself wrote and else what is committed at that moment, and commits are not checked for
    conflicts.  Connections take turns between the steps below; rows are looked at through their
    primary key ([Dml] shows that the indexes follow), updates keep the key (the code takes no lock
    for a new one), and statements of many rows, which commit in between, are left out.  What the
    lock manager promises is an interface; [SerialLocks] discharges it with the manager of
    [RowLock], segment by segment.  What an operation does to its row is taken from [SerialRows],
    which shows that [write_row], [update_row] and [delete_row] of [Dml] do it.  The optimistic
    mode is left out: conflicts between snapshots are found by the engine alone. *)

From Stdlib Require Import ZArith Lia.
From stdpp Require Import base tactics list numbers gmap sets relations.
From S2P Require Import Prelude.

(** ** The lock manager *)

(** The manager moves in segments of its own; a connection is [releasing] from the entry into
    [row_locks_release_all] to its end. *)
Class RowLocks (L : Type) := {
  lock_ok : L -> Prop;
  lock_step : L -> L -> Prop;
  holder : L -> bytes -> option nat;
  releasing : L -> nat -> bool
}.

Class RowLocksLaws (L : Type) `{RowLocks L} := {
  lock_ok_step l l' : lock_ok l -> lock_step l l' -> lock_ok l';
  holder_kept l l' k t : lock_ok l -> lock_step l l' -> holder l k = Some t -> releasing l t = false -> holder l' k = Some t
}.

(** ** Row operations *)

Inductive row_op :=
| Insert (pk row : bytes)
| Update (pk : bytes) (set : bytes -> bytes)      (* the new row from the one that was read *)
| Delete (pk : bytes).

Inductive answer := Changed (old : option bytes) | DuplicateKey | KeyNotFound.

#[export] Instance answer_eq_dec : EqDecision answer.
Proof. solve_decision. Defined.

Definition op_key (o : row_op) : bytes := match o with Insert k _ | Update k _ | Delete k => k end.

(** What an operation does with the row it finds: the write, if any, and the answer. *)
Definition insert_at (row : bytes) (cur : option bytes) : option (option bytes) * answer :=
  match cur with Some _ => (None, DuplicateKey) | None => (Some (Some row), Changed None) end.

Definition update_at (set : bytes -> bytes) (cur : option bytes) : option (option bytes) * answer :=
  match cur with Some r => (Some (Some (set r)), Changed (Some r)) | None => (None, KeyNotFound) end.

Definition delete_at (cur : option bytes) : option (option bytes) * answer :=
  match cur with Some r => (Some None, Changed (Some r)) | None => (None, KeyNotFound) end.

Definition op_at (o : row_op) (cur : option bytes) : option (option bytes) * answer :=
  match o with Insert _ row => insert_at row cur | Update _ set => update_at set cur | Delete _ => delete_at cur end.

(** ** One after the other *)

Notation table := (gmap bytes bytes).
Notation log := (list (row_op * answer)).

Definition store (k : bytes) (w : option (option bytes)) (m : table) : table :=
  match w with None => m | Some w => partial_alter (fun _ => w) k m end.

(** The answers of a log are those that the operations get when they run alone on [m]. *)
Fixpoint replay (l : log) (m : table) : option table :=
  match l with
  | [] => Some m
  | (o, a) :: l => let '(w, a') := op_at o (m !! op_key o) in if decide (a' = a) then replay l (store (op_key o) w m) else None
  end.

(** ** Transactions side by side *)

Record work := mk_work { w_buf : gmap bytes (option bytes); w_log : log }.

(** The transactions that are open, by their connections. *)
Record world (L : Type) := mk_world { db : table; manager : L; conns : gmap nat work; committed : list log }.
Arguments mk_world {L}. Arguments db {L}. Arguments manager {L}. Arguments conns {L}. Arguments committed {L}.

(** READ COMMITTED: own writes over the committed rows. *)
Definition view (d : table) (b : gmap bytes (option bytes)) : table :=
  merge (fun own row => match own with Some w => w | None => row end) b d.

Definition run_op (o : row_op) (d : table) (x : work) : work :=
  let '(w, a) := op_at o (view d (w_buf x) !! op_key o) in
  mk_work (match w with None => w_buf x | Some w => <[op_key o := w]> (w_buf x) end) (w_log x ++ [(o, a)]).

Section Steps.

Context {L : Type} `{RowLocks L}.
Variable pessimistic : bool.

(** A connection begins once [row_locks_release_all] has returned, and calls it only when no
    transaction is open: after the commit or the rollback. *)
Inductive turn : world L -> world L -> Prop :=
| turn_begin t w : conns w !! t = None -> releasing (manager w) t = false ->
    turn w (mk_world (db w) (manager w) (<[t := mk_work ∅ []]> (conns w)) (committed w))
| turn_locks l w : lock_step (manager w) l -> map_Forall (fun t _ => releasing l t = false) (conns w) ->
    turn w (mk_world (db w) l (conns w) (committed w))
| turn_op t o x w : conns w !! t = Some x -> (pessimistic = true -> holder (manager w) (op_key o) = Some t) ->
    turn w (mk_world (db w) (manager w) (<[t := run_op o (db w) x]> (conns w)) (committed w))
| turn_commit t x w : conns w !! t = Some x ->
    turn w (mk_world (view (db w) (w_buf x)) (manager w) (delete t (conns w)) (committed w ++ [w_log x]))
| turn_rollback t x w : conns w !! t = Some x ->
    turn w (mk_world (db w) (manager w) (delete t (conns w)) (committed w)).

End Steps.

(** ** Replays *)

Lemma view_lookup d b k : view d b !! k = match b !! k with Some w => w | None => d !! k end.
Proof. unfold view. rewrite lookup_merge. by destruct (b !! k), (d !! k). Qed.

Lemma view_empty d : view d ∅ = d.
Proof. apply map_eq. intros k. by rewrite view_lookup, lookup_empty. Qed.

Lemma store_lookup k w m k' : store k w m !! k' = if decide (k' = k) then match w with Some w => w | None => m !! k end else m !! k'.
Proof.
  destruct w as [w|]; cbn; [|by case_decide; subst]. case_decide as Hk; [subst; apply lookup_partial_alter_eq|]. by apply lookup_partial_alter_ne.
Qed.

Lemma replay_app l1 l2 m : replay (l1 ++ l2) m = m1 ← replay l1 m; replay l2 m1.
Proof.
  revert m. induction l1 as [|[o a] l1 IH]; intros m; [done|]. cbn [app replay]. destruct (op_at o (m !! op_key o)) as [w a'].
  case_decide; [apply IH|done].
Qed.

Definition log_keys (l : log) : list bytes := (fun e => op_key e.1) <$> l.

(** A replay looks at the keys of its log only. *)
Lemma replay_agree l m m' n : (forall k, k ∈ log_keys l -> m' !! k = m !! k) -> replay l m = Some n ->
  exists n', replay l m' = Some n' /\ forall k, n' !! k = if decide (k ∈ log_keys l) then n !! k else m' !! k.
Proof.
  revert m m'. induction l as [|[o a] l IH]; intros m m' Hag Hr; cbn [replay] in Hr |- *.
  { injection Hr as <-. exists m'. split; [done|]. intros k. rewrite decide_False; [done|]. apply not_elem_of_nil. }
  assert (Hk : m' !! op_key o = m !! op_key o) by (apply Hag; by left). rewrite Hk. destruct (op_at o (m !! op_key o)) as [w a'].
  case_decide as Ha; [|done]. destruct (IH (store (op_key o) w m) (store (op_key o) w m')) as (n' & Hn' & Hl); [|exact Hr|].
  - intros k Hin. rewrite !store_lookup. case_decide as Hko; [by rewrite Hk|]. apply Hag. by right.
  - exists n'. split; [done|]. intros k. rewrite Hl, store_lookup. change (log_keys ((o, a) :: l)) with (op_key o :: log_keys l).
    destruct (decide (k ∈ log_keys l)) as [Hin|Hni].
    + rewrite decide_True; [done|]. by right.
    + destruct (decide (k = op_key o)) as [->|Hne].
      * rewrite decide_True by (by left). assert (Hn : n !! op_key o = store (op_key o) w m !! op_key o).
        { destruct (IH (store (op_key o) w m) (store (op_key o) w m)) as (n2 & Hn2 & Hl2); [done|exact Hr|].
          rewrite Hr in Hn2. injection Hn2 as <-. specialize (Hl2 (op_key o)). by rewrite decide_False in Hl2. }
        rewrite Hn, store_lookup, decide_True by done. by rewrite Hk.
      * rewrite decide_False; [done|]. intros [?|?]%elem_of_cons; done.
Qed.

(** ** Serial execution *)

Section Serial.

Context {L : Type} `{RowLocksLaws L}.

(** A working transaction holds the locks of the keys it looked at, its writes are to these keys,
    and its answers are those it would get alone on the committed rows. *)
Record working_ok (w : world L) (t : nat) (x : work) : Prop := {
  wo_held k : k ∈ log_keys (w_log x) -> holder (manager w) k = Some t;
  wo_buf k : is_Some (w_buf x !! k) -> k ∈ log_keys (w_log x);
  wo_replay : replay (w_log x) (db w) = Some (view (db w) (w_buf x))
}.

Record world_ok (d0 : table) (w : world L) : Prop := {
  wd_serial : replay (concat (committed w)) d0 = Some (db w);
  wd_locks : lock_ok (manager w);
  wd_working t x : conns w !! t = Some x -> working_ok w t x /\ releasing (manager w) t = false
}.

Lemma log_keys_snoc l o a : log_keys (l ++ [(o, a)]) = log_keys l ++ [op_key o].
Proof. unfold log_keys. by rewrite fmap_app. Qed.

(** An operation under its lock. *)
Lemma run_op_ok w t o x : working_ok w t x -> holder (manager w) (op_key o) = Some t -> working_ok w t (run_op o (db w) x).
Proof.
  intros [Hh Hb Hr] Ho. unfold run_op. destruct (op_at o (view (db w) (w_buf x) !! op_key o)) as [wr a] eqn:Hop. split; cbn [w_log w_buf].
  - intros k. rewrite log_keys_snoc, elem_of_app, list_elem_of_singleton. intros [Hk| ->]; [by apply Hh|done].
  - intros k Hk. rewrite log_keys_snoc, elem_of_app, list_elem_of_singleton. destruct wr as [v|]; [|left; by apply Hb].
    destruct (decide (k = op_key o)) as [->|Hne]; [by right|left]. apply Hb. by rewrite lookup_insert_ne in Hk.
  - rewrite replay_app, Hr. cbn [mbind option_bind replay]. rewrite Hop, decide_True by done. f_equal. apply map_eq. intros k.
    rewrite store_lookup, !view_lookup. destruct wr as [v|].
    + case_decide as Hk; [subst; by rewrite lookup_insert_eq|]. by rewrite lookup_insert_ne.
    + by case_decide; subst.
Qed.

(** A commit of another transaction, whose locks keep it off the keys of this one. *)
Lemma commit_other w t x t' x' : t <> t' -> working_ok w t x -> working_ok w t' x' ->
  forall cs co, working_ok (mk_world (view (db w) (w_buf x)) (manager w) cs co) t' x'.
Proof.
  intros Hne [Hh Hb _] [Hh' Hb' Hr'] cs co. split; cbn [manager db]; [done|done|].
  assert (Hag : forall k, k ∈ log_keys (w_log x') -> view (db w) (w_buf x) !! k = db w !! k).
  { intros k Hk. rewrite view_lookup. destruct (w_buf x !! k) as [v|] eqn:E; [|done]. exfalso.
    assert (Ht : holder (manager w) k = Some t) by (apply Hh, Hb; eauto). rewrite (Hh' k Hk) in Ht. congruence. }
  destruct (replay_agree _ _ _ _ Hag Hr') as (n & -> & Hn). f_equal. apply map_eq. intros k. rewrite Hn, (view_lookup (view _ _)).
  case_decide as Hk.
  - rewrite view_lookup. by rewrite Hag.
  - destruct (w_buf x' !! k) as [v|] eqn:E; [|done]. exfalso. apply Hk, Hb'. eauto.
Qed.

Lemma working_ok_ext w w' t x : db w' = db w -> (forall k, holder (manager w) k = Some t -> holder (manager w') k = Some t) ->
  working_ok w t x -> working_ok w' t x.
Proof. intros Hd Hl [H1 H2 H3]. split; [auto|done|]. by rewrite Hd. Qed.

Lemma begin_ok w t : working_ok w t (mk_work ∅ []).
Proof.
  split; cbn [w_log w_buf]; [intros k Hk; by apply not_elem_of_nil in Hk|intros k [? Hk]; by rewrite lookup_empty in Hk|by rewrite view_empty].
Qed.

Lemma turn_ok d0 w w' : world_ok d0 w -> turn true w w' -> world_ok d0 w'.
Proof.
  intros [Hs Hl Hw] Ht. destruct Ht as [t w Hc Hn|l w Hst Hn|t o x w Hc Ho|t x w Hc|t x w Hc]; split; cbn [db manager conns committed]; try done.
  - intros t' x' [[<- <-]|[_ Hx]]%lookup_insert_Some; [split; [apply begin_ok|done]|].
    destruct (Hw t' x' Hx). split; [by apply (working_ok_ext w)|done].
  - by eapply lock_ok_step.
  - intros t' x' Hx. destruct (Hw t' x' Hx) as [Hx1 Hx2]. split; [|by apply (Hn t' x')]. apply (working_ok_ext w); [done| |done].
    intros k Hk. by eapply holder_kept.
  - intros t' x' [[<- <-]|[_ Hx]]%lookup_insert_Some.
    + destruct (Hw t x Hc). split; [|done]. apply (working_ok_ext w); [done|done|]. by apply run_op_ok; [|apply Ho].
    + destruct (Hw t' x' Hx). split; [by apply (working_ok_ext w)|done].
  - rewrite concat_app, replay_app, Hs. cbn [mbind option_bind concat]. rewrite app_nil_r. apply (Hw t x Hc).
  - intros t' x' [Hne Hx]%lookup_delete_Some. destruct (Hw t' x' Hx), (Hw t x Hc). split; [|done]. by eapply (commit_other w t x).
  - intros t' x' [_ Hx]%lookup_delete_Some. destruct (Hw t' x' Hx). split; [by apply (working_ok_ext w)|done].
Qed.

(** Transactions under the locks of a manager with these promises are serial. *)
Lemma turns_serial (d0 : table) (l0 : L) (w : world L) :
  lock_ok l0 -> rtc (turn true) (mk_world d0 l0 ∅ []) w -> replay (concat (committed w)) d0 = Some (db w).
Proof.
  intros Hl Hr. enough (Hok : world_ok d0 w) by apply (wd_serial _ _ Hok).
  eapply (rtc_invariant (turn true) (world_ok d0)); [intros ???; by apply turn_ok| |exact Hr].
  split; cbn; [done|done|intros t x Hx; by rewrite lookup_empty in Hx].
Qed.

End Serial.
