(* ===== verification/SerialRows.v ===== *)
(** * The row operations of transactions

    [Serial] describes an insert, an update and a delete by what they do with the row under their
    key.  Here the row operations of [Dml] are shown to do that to the data column family: the
    insert whose key is looked up, and the update and delete of the row that the handler stands on
    ([Reads] finds it by its key, or reports HA_ERR_KEY_NOT_FOUND). *)

From Stdlib Require Import ZArith Lia.
From stdpp Require Import base tactics list numbers gmap sets.
From S2P Require Import Prelude Errors KeyCodec RowCodec Fts Dml Serial.

Section Rows.

Context {Rec : Type} `{TableCodec Rec} `{!TableLaws Rec}.
Variable sh : share.

(** The rows after a write under a key. *)
Definition stored (k : bytes) (w : option (option bytes)) (d : bytes -> option bytes) : bytes -> option bytes :=
  fun p => match w with Some v => if decide (p = k) then v else d p | None => d p end.

(** A duplicate is refused, and nothing is written. *)
Lemma write_row_duplicate en rec s r :
  pk_checked sh en = true -> en_autoinc en = None -> encrypted sh && bool_decide (serialize rec = []) = false ->
  en_ensure en = HA_OK -> en_lock en = HA_OK -> faults s = [] -> data_of s (pk_bytes rec) = Some r ->
  exists s', write_row sh en rec s = (inl HA_ERR_FOUND_DUPP_KEY, s') /\ cfs s' = cfs s.
Proof.
  intros Hck Hai Henc Hen Hlk Hf Hr. pose proof Hck as Hck'. unfold pk_checked, pk_generated in Hck. rewrite Hai in Hck.
  apply andb_true_iff in Hck as [[Hu Hsk]%andb_true_iff Hrep]. rewrite orb_false_r in Hsk.
  unfold write_row, auto_increment. rewrite Hai. cbn [bind ret]. unfold bind at 1. unfold ret at 1.
  unfold new_pk. rewrite Hu, Henc, (bool_decide_true (en_ensure en = HA_OK)), (bool_decide_true (en_lock en = HA_OK)) by done.
  rewrite andb_false_r. unfold bind, ret. unfold pk_dup_check. rewrite Hu, orb_false_r, Hsk, Hrep. cbn [andb].
  unfold tdb_txn_get, next_rc. rewrite Hf. unfold data_of in Hr. destruct (cf_of None s !! build_data_key (pk_bytes rec)); [|done].
  eexists. split; [done|]. done.
Qed.

(** INSERT, when the key is looked up. *)
Lemma insert_row_refines en rec s :
  pk_checked sh en = true ->
  let cur := data_of s (pk_bytes rec) in
  (forall s', write_row sh en rec s = (inr tt, s') ->
     (insert_at (serialize rec) cur).2 = Changed None /\
     forall p, data_of s' p = stored (pk_bytes rec) (insert_at (serialize rec) cur).1 (data_of s) p) /\
  ((insert_at (serialize rec) cur).2 = DuplicateKey ->
   en_autoinc en = None -> encrypted sh && bool_decide (serialize rec = []) = false ->
   en_ensure en = HA_OK -> en_lock en = HA_OK -> faults s = [] ->
   exists s', write_row sh en rec s = (inl HA_ERR_FOUND_DUPP_KEY, s') /\
     forall p, data_of s' p = stored (pk_bytes rec) (insert_at (serialize rec) cur).1 (data_of s) p).
Proof.
  intros Hck cur. assert (Hu : has_user_pk sh = true) by (unfold pk_checked in Hck; by destruct (has_user_pk sh)). split.
  - intros s' Hw. destruct (write_row_effect sh en rec s s' Hw) as (_ & Hnone & _ & Hd & _). specialize (Hnone Hck).
    unfold row_pk in Hnone, Hd. rewrite Hu in Hnone, Hd. assert (cur = None) as -> by (unfold cur, data_of; by rewrite Hnone).
    split; [done|]. intros p. rewrite Hd. done.
  - intros Hdup Hai Henc Hen Hlk Hf. destruct cur as [r|] eqn:Hcur; [|done].
    destruct (write_row_duplicate en rec s r Hck Hai Henc Hen Hlk Hf Hcur) as (s' & Hw & Hc). exists s'. split; [done|].
    intros p. unfold data_of. by rewrite (cf_of_cfs None s s' Hc).
Qed.

(** UPDATE of the row that the handler stands on, keeping its key. *)
Lemma update_row_refines en old new s set :
  data_of s (current_pk s) = Some (serialize old) -> set (serialize old) = serialize new -> touches en (pk_fields sh) = false ->
  faults s = [] -> en_ensure en = HA_OK -> encrypted sh && bool_decide (serialize new = []) = false -> keyed sh new (current_pk s) ->
  (forall e, e ∈ active_indexes sh -> entries e old (current_pk s) ⊆ kv e.1 s) ->
  exists s', update_row sh en old new s = (inr tt, s') /\
    (update_at set (data_of s (current_pk s))).2 = Changed (Some (serialize old)) /\
    forall p, data_of s' p = stored (current_pk s) (update_at set (data_of s (current_pk s))).1 (data_of s) p.
Proof.
  intros Hcur Hset Ht Hf Hen Henc Hk Hidx. assert (Hpk : updated_pk sh en s new = current_pk s) by (unfold updated_pk; by rewrite Ht, andb_false_r).
  destruct (update_row_effect sh en old new s Hf Hen Henc) as (s' & Hu & _ & Hd & _); [by rewrite Hpk|done|].
  exists s'. rewrite Hcur. cbn. rewrite Hset. split; [done|]. split; [done|]. intros p. rewrite Hd, Hpk. by destruct (decide (p = current_pk s)).
Qed.

(** DELETE of the row that the handler stands on. *)
Lemma delete_row_refines en rec s :
  data_of s (current_pk s) = Some (serialize rec) -> faults s = [] -> en_ensure en = HA_OK -> keyed sh rec (current_pk s) ->
  exists s', delete_row sh en rec s = (inr tt, s') /\
    (delete_at (data_of s (current_pk s))).2 = Changed (Some (serialize rec)) /\
    forall p, data_of s' p = stored (current_pk s) (delete_at (data_of s (current_pk s))).1 (data_of s) p.
Proof.
  intros Hcur Hf Hen Hk. destruct (delete_row_effect sh en rec s Hf Hen Hk) as (s' & Hd & _ & Hdat & _).
  exists s'. rewrite Hcur. cbn. split; [done|]. split; [done|]. intros p. by rewrite Hdat.
Qed.

End Rows.
