(* ===== verification/SerialLocks.v ===== *)
(** * Transactions over the row-lock manager

    Discharges the interface of [Serial] with the manager of [RowLock]: the segments of
    tidesdb_row_lock.cc interleave with the steps of the transactions, and the lock that an
    operation holds is the one its connection owns in the hash table. *)

From Stdlib Require Import ZArith Lia.
From stdpp Require Import base tactics list numbers gmap sets relations.
From S2P Require Import Prelude Errors RowLock RowLockInv RowLockLive Serial.

(** ** The manager *)

Section Locks.

Variable XXH3_64bits : bytes -> Z.

Local Notation inv := (RowLockInv.inv XXH3_64bits).
Local Notation inv_struct := (RowLockInv.inv_struct XXH3_64bits).
Local Notation tdb_lock_part := (tdb_lock_part XXH3_64bits).

(** Who owns the entry of a key in the hash table. *)
Definition key_holder (st : lock_table) (key : bytes) : option nat :=
  l ← chain_find (locks st) (default [] (chains st !! tdb_lock_part key)) key;
  e ← locks st !! l;
  owner_trx e.

Definition is_releasing (st : lock_table) (t : nat) : bool :=
  match trxs st !! t with
  | Some x => match t_pc x with Releasing _ => true | _ => false end
  | None => false
  end.

#[export] Instance manager_locks : RowLocks lock_table := {
  lock_ok := inv;
  lock_step := step XXH3_64bits;
  holder := key_holder;
  releasing := is_releasing
}.

Lemma key_holder_spec st key t : inv_struct st ->
  key_holder st key = Some t <-> exists l e, locks st !! l = Some e /\ rl_pk e = key /\ owner_trx e = Some t.
Proof.
  intros I. unfold key_holder. split.
  - destruct (chain_find _ _ key) as [l|] eqn:Hf; [|done]. cbn. apply chain_find_Some in Hf as (e & He & Hk & _). rewrite He. cbn. eauto.
  - intros (l & e & He & Hk & Ho). destruct (is_inchain _ I l e He) as [Hp Hin]. rewrite Hp, Hk in Hin.
    destruct (chain_find (locks st) _ key) as [l'|] eqn:Hf.
    + apply chain_find_Some in Hf as (e' & He' & Hk' & _). assert (l' = l) as -> by (eapply (is_unique _ I); eauto; congruence).
      cbn. by rewrite He.
    + by destruct (chain_find_None _ _ _ _ _ Hf Hin He).
Qed.

(** A connection in the middle of [row_locks_release_all] frees locks of its own. *)
Lemma released_own st t x l e : inv st -> trxs st !! t = Some x -> t_pc x = Releasing (Some l) -> locks st !! l = Some e -> owner_trx e = Some t.
Proof.
  intros I Hx Hp He. destruct (inv_h _ I _ _ Hx) as (ls & _ & Hl & Hk). unfold cursor in Hl. rewrite Hp in Hl.
  apply (Hk l e He). destruct ls as [|a ls]; [done|]. destruct Hl as [[= <-] _]. by left.
Qed.

(** An owner keeps its lock through every effect but its own release. *)
Lemma eff_keeps_owner t st st' l e u : inv st -> eff t st st' -> locks st !! l = Some e -> owner_trx e = Some u -> is_releasing st u = false ->
  exists e', locks st' !! l = Some e' /\ rl_pk e' = rl_pk e /\ owner_trx e' = Some u.
Proof.
  intros I Heff He Ho Hr. pose proof (is_owner _ (inv_s _ I)) as Hok.
  assert (Hput : forall k e0 e1, locks st !! k = Some e0 -> rl_pk e1 = rl_pk e0 -> (k = l -> owner_trx e1 = Some u) ->
    exists e', <[k := e1]> (locks st) !! l = Some e' /\ rl_pk e' = rl_pk e /\ owner_trx e' = Some u).
  { intros k e0 e1 Hk Hpk Hown. destruct (decide (k = l)) as [->|Hne]; [|rewrite lookup_insert_ne by done; eauto].
    rewrite lookup_insert_eq. exists e1. rewrite He in Hk. injection Hk as <-. auto. }
  assert (Hfree : forall k e0, locks st !! k = Some e0 -> owner_txn_id e0 = 0 -> k <> l).
  { intros k e0 Hk H0 ->. rewrite He in Hk. injection Hk as <-. apply (owner_free e (Hok _ _ He)) in H0. congruence. }
  destruct Heff; unfold leave_loop, claim in *; cbn; try by eauto.
  all: try (eapply Hput; [eassumption|done|]; intros ->; simplify_eq; cbn; done).
  all: try (eapply Hput; [eassumption|done|]; intros Hl; exfalso; eapply Hfree; [|eassumption|exact Hl]; eassumption).
  - eapply Hput; [eassumption|done|]. intros ->. exfalso.
    match goal with T : trxs _ !! _ = Some _, P : t_pc _ = LoopExit _ |- _ => destruct (loop_exit_free _ _ _ _ _ _ I T P He) end. congruence.
  - assert (l <> l0) as Hne.
    { intros <-. match goal with T : trxs _ !! _ = Some _, P : t_pc _ = Releasing _ |- _ =>
        pose proof (released_own _ _ _ _ _ I T P He) as Hown; rewrite Ho in Hown; injection Hown as ->; unfold is_releasing in Hr; by rewrite T, P in Hr end. }
    exists e. case_match; cbn; by rewrite lookup_insert_ne.
Qed.

#[export] Instance manager_locks_laws : RowLocksLaws lock_table.
Proof.
  split; cbn; [apply inv_step|]. intros st st' key t I Hst Hh Hr. apply key_holder_spec in Hh as (l & e & He & Hk & Ho); [|apply I].
  pose proof (inv_step _ _ _ I Hst) as I'. apply key_holder_spec; [apply I'|].
  apply step_eff in Hst as (u & st1 & Ha & Heff); [|apply I].
  assert (locks st1 !! l = Some e /\ trxs st1 = trxs st) as [He1 Ht1].
  { destruct Ha as [->|(p & pk & -> & _)]; [done|]. split; [|done]. cbn. rewrite lookup_insert_ne; [done|].
    intros <-. apply (is_lt _ (inv_s _ I)) in He. lia. }
  apply inv_alloc in Ha; [|done]. destruct Heff as [->|Heff]; [eauto|].
  destruct (eff_keeps_owner u st1 st' l e t) as (e' & ? & ? & ?); [done|done|done|done| |eauto 6 with congruence].
  unfold is_releasing in *. by rewrite Ht1.
Qed.

(** An acquisition that succeeds leaves its connection the holder, whichever way it ends. *)
Lemma enter_holds st t key alloc st' x' : inv st -> acquire_enter XXH3_64bits st t key alloc = Some st' ->
  trxs st' !! t = Some x' -> t_pc x' = Ready HA_OK -> key_holder st' key = Some t.
Proof.
  intros I Ha Hx Hp. assert (I' : inv st') by (eapply inv_step; [exact I|by eapply step_enter]).
  apply key_holder_spec; [apply I'|]. clear I'. unfold acquire_enter in Ha.
  destruct (trxs st !! t) as [x|]; [|done]. cbn in Ha. destruct (t_pc x); try done. destruct (mutexes st !! _); [done|].
  destruct (tdb_lock_find_or_create _ _ _ _) as [[l st1]|] eqn:Hf.
  - apply find_or_create_spec in Hf as (_ & _ & _ & e & He & _ & Hk); [|apply I]. rewrite He in Ha. cbn in Ha. case_match eqn:Hown.
    + apply andb_true_iff in Hown as [_ Hown%bool_decide_eq_true]. injection Ha as <-. cbn. eauto.
    + case_match; injection Ha as <-; cbn in Hx |- *; rewrite lookup_insert_eq in Hx; injection Hx as <-; [|done].
      exists l. eexists. rewrite lookup_insert_eq. eauto.
  - injection Ha as <-. cbn in Hx. rewrite lookup_insert_eq in Hx. by injection Hx as <-.
Qed.

Lemma clear_wait_holds st t st' x l e : inv st -> acquire_clear_wait st t = Some st' -> trxs st !! t = Some x -> t_pc x = Claimed l ->
  locks st !! l = Some e -> key_holder st' (rl_pk e) = Some t.
Proof.
  intros I Ha Hx Hp He. assert (I' : inv st') by (eapply inv_step; [exact I|by eapply step_clear_wait]).
  apply key_holder_spec; [apply I'|]. pose proof (sy_pc _ (inv_y _ I) _ _ Hx) as Hok. rewrite Hp in Hok. destruct Hok as (e' & He' & _ & Ho).
  unfold acquire_clear_wait in Ha. rewrite Hx in Ha. cbn in Ha. rewrite Hp, He in Ha. injection Ha as <-. cbn. rewrite He in He'. injection He' as <-. eauto.
Qed.

Lemma claim_exit_holds st t st' x l e : inv st -> acquire_claim_exit st t = Some st' -> trxs st !! t = Some x -> t_pc x = LoopExit l ->
  locks st !! l = Some e -> key_holder st' (rl_pk e) = Some t.
Proof.
  intros I Ha Hx Hp He. assert (I' : inv st') by (eapply inv_step; [exact I|by eapply step_claim_exit]).
  apply key_holder_spec; [apply I'|]. unfold acquire_claim_exit in Ha. rewrite Hx in Ha. cbn in Ha. rewrite Hp, He in Ha. injection Ha as <-. cbn.
  exists l. eexists. rewrite lookup_insert_eq. eauto.
Qed.

(** ** Serial execution *)

(** C14: pessimistic locking makes transactions serial.  In every interleaving of the lock
    manager's segments with transactions that lock each row they insert or look up to change before
    they touch it, and call [row_locks_release_all] after the engine's commit or rollback, the
    committed rows are those that the committed transactions leave when they run one after the
    other in the order of their commits, and every operation of theirs got the answer it gets then:
    no insert overwrites a row, no update is lost. *)
Theorem locked_transactions_serial (d0 : gmap bytes bytes) (w : world lock_table) :
  rtc (turn true) (mk_world d0 tdb_row_lock_init ∅ []) w -> replay (concat (committed w)) d0 = Some (db w).
Proof. apply turns_serial. apply inv_reachable, rtc_refl. Qed.

End Locks.

(** ** Examples *)

Definition start_world : world lock_table := mk_world ∅ tdb_row_lock_init ∅ [].
Definition row_a : row_op := Insert [1] [65].
Definition row_b : row_op := Insert [1] [66].

(** One step of a run: a segment of the manager, or a transaction's move. *)
Inductive move := Seg (a : action) | Begin (t : nat) | Op (t : nat) (o : row_op) | Commit (t : nat).

Definition make (pessimistic : bool) (m : move) (w : world lock_table) : option (world lock_table) :=
  match m with
  | Seg a =>
      l ← perform a (manager w);
      if decide (map_Forall (fun t _ => is_releasing l t = false) (conns w)) then Some (mk_world (db w) l (conns w) (committed w)) else None
  | Begin t =>
      if bool_decide (conns w !! t = None) && negb (is_releasing (manager w) t)
      then Some (mk_world (db w) (manager w) (<[t := mk_work ∅ []]> (conns w)) (committed w)) else None
  | Op t o =>
      x ← conns w !! t;
      if negb pessimistic || bool_decide (key_holder one_partition (manager w) (op_key o) = Some t)
      then Some (mk_world (db w) (manager w) (<[t := run_op o (db w) x]> (conns w)) (committed w)) else None
  | Commit t =>
      x ← conns w !! t; Some (mk_world (view (db w) (w_buf x)) (manager w) (delete t (conns w)) (committed w ++ [w_log x]))
  end.

Local Notation turn1 := (@turn lock_table (manager_locks one_partition)).

Lemma make_turn p m w w' : make p m w = Some w' -> turn1 p w w'.
Proof.
  destruct m as [a|t|t o|t]; cbn [make].
  - destruct (perform a (manager w)) as [l|] eqn:Ha; [|done]. cbn. case_decide as Hd; [|done]. intros [= <-].
    apply (turn_locks (H := manager_locks one_partition)); [by eapply perform_step|done].
  - destruct (bool_decide _) eqn:Hb; [|done]. destruct (is_releasing _ _) eqn:Hr; [done|]. intros [= <-].
    by apply (turn_begin (H := manager_locks one_partition)); [apply bool_decide_eq_true in Hb|].
  - destruct (conns w !! t) as [x|] eqn:Hx; [|done]. cbn. case_match eqn:Hb; [|done]. intros [= <-].
    apply (turn_op (H := manager_locks one_partition)); [done|]. intros ->. by apply bool_decide_eq_true in Hb.
  - destruct (conns w !! t) as [x|] eqn:Hx; [|done]. intros [= <-]. by apply (turn_commit (H := manager_locks one_partition)).
Qed.

Fixpoint make_all (p : bool) (l : list move) (w : world lock_table) : option (world lock_table) :=
  match l with [] => Some w | m :: l => make p m w ≫= make_all p l end.

Lemma make_all_turns p l w w' : make_all p l w = Some w' -> rtc (turn1 p) w w'.
Proof.
  revert w. induction l as [|m l IH]; intros w; cbn; [intros [= <-]; apply rtc_refl|].
  destruct (make p m w) as [w1|] eqn:Hm; [|done]. cbn. intros Hl. eapply rtc_l; [by apply make_turn in Hm|]. by apply IH.
Qed.

Definition final_world (p : bool) (l : list move) : world lock_table := default start_world (make_all p l start_world).

Lemma final_turns p l : is_Some (make_all p l start_world) -> rtc (turn1 p) start_world (final_world p l).
Proof. intros [w Hw]. unfold final_world. rewrite Hw. by eapply make_all_turns. Qed.

(** Two connections insert the same key: the second finds the lock taken, walks, sleeps, is woken
    by the release and then finds the row. *)
Definition contended_inserts : list move :=
  [Seg (Connect 1); Seg (Connect 2); Begin 1; Begin 2; Seg (Enter 1 [1]); Seg (Enter 2 [1]); Op 1 row_a;
   Seg (Walk 2); Seg (Walk 2); Seg (AfterWalk 2); Seg (LoopTop 2); Seg (WalkAgain 2); Seg (WalkAgain 2);
   Commit 1; Seg (Release 1); Seg (ReleaseNext 1); Seg (ReleaseNext 1);
   Seg (Wake 2); Seg (LoopTop 2); Seg (ClaimExit 2); Op 2 row_b; Commit 2].

Lemma contended_inserts_run : is_Some (make_all true contended_inserts start_world) /\
  committed (final_world true contended_inserts) = [[(row_a, Changed None)]; [(row_b, DuplicateKey)]] /\
  db (final_world true contended_inserts) !! [1] = Some [65].
Proof. vm_compute. eauto. Qed.

Lemma locked_transactions_serial_witness :
  let w := final_world true contended_inserts in
  committed w = [[(row_a, Changed None)]; [(row_b, DuplicateKey)]] /\ replay (concat (committed w)) ∅ = Some (db w).
Proof.
  destruct contended_inserts_run as (Hr & Hc & _). split; [exact Hc|].
  apply (locked_transactions_serial one_partition ∅ (final_world true contended_inserts)). apply (final_turns true contended_inserts Hr).
Defined.

(** Without the locks, as statements outside transactions run by default, both inserts succeed and
    the second takes the place of the first: no order of the two gives these answers. *)
Definition racing_inserts : list move := [Begin 1; Begin 2; Op 1 row_a; Op 2 row_b; Commit 1; Commit 2].

Lemma insert_lost_without_locks : exists w, rtc (turn1 false) start_world w /\
  committed w = [[(row_a, Changed None)]; [(row_b, Changed None)]] /\ db w !! [1] = Some [66] /\
  replay ([(row_a, Changed None)] ++ [(row_b, Changed None)]) ∅ = None /\ replay ([(row_b, Changed None)] ++ [(row_a, Changed None)]) ∅ = None.
Proof.
  exists (final_world false racing_inserts). split; [apply final_turns; vm_compute; eauto|]. vm_compute. done.
Qed.
