(* ===== verification/Startup.v ===== *)
(** * Startup and shutdown (ha_tidesdb.cc 3225-3700, 3705-3755, 3795-3843, tidesdb_engine_context.{h,cc}, tidesdb_datadir_version.h)

    [tidesdb_init_func] settles the configuration, refuses what it cannot serve and opens
    the engine; the panic and unload callbacks close it, from whatever threads the server
    calls them on. *)

From Stdlib Require Import ZArith Lia Strings.String.
From stdpp Require Import base tactics list numbers gmap sets relations.
From S2P Require Import Prelude Errors CfNames Reads ReadsProof ReadsExamples.

Open Scope Z_scope.
Open Scope list_scope.

(** ** The data directory *)

(** What [stat] finds; a directory by its entries. *)
Inductive fs_node := FsFile | FsDir (entries : list (string * fs_node)) | FsOther.

Definition is_regular (n : option fs_node) : bool := match n with Some FsFile => true | _ => false end.

Definition entry_of (name : string) (entries : list (string * fs_node)) : option fs_node :=
  snd <$> List.find (fun e => String.eqb e.1 name) entries.

(** One entry of the directory: the name when it proves the old layout. *)
Definition is_cf_dir (e : string * fs_node) : bool :=
  if String.eqb e.1 "."%string || String.eqb e.1 ".."%string then false
  else match e.2 with FsDir entries => is_regular (entry_of "config.ini"%string entries) | _ => false end.

(** [dir] is what [opendir] reads; the result is the name of the first proof. *)
Definition tdb_datadir_is_tidesdb9 (path : bytes) (dir : option (list (string * fs_node))) : option string :=
  match path, dir with
  | [], _ | _, None => None
  | _, Some entries => fst <$> List.find is_cf_dir entries
  end.

Definition SLASH : Z := 47.

Fixpoint strip_slashes (rev_path : bytes) : bytes :=
  match rev_path with c :: p => if c =? SLASH then strip_slashes p else c :: p | [] => [] end.

(** Without the slashes at its end. *)
Definition trim (p : bytes) : bytes := reverse (strip_slashes (reverse p)).

Definition DOT_TIDESDB : bytes := [46; 116; 105; 100; 101; 115; 100; 98].

Definition data_path (srv_data_home_dir : option bytes) (mysql_real_data_home : bytes) : bytes :=
  match srv_data_home_dir with
  | Some (c :: p) => trim (c :: p)
  | _ => match trim mysql_real_data_home with [] => DOT_TIDESDB | home => home ++ SLASH :: DOT_TIDESDB end
  end.

(** ** Configuration *)

Inductive log_level_t := TDB_LOG_NONE | TDB_LOG_TRACE | TDB_LOG_INFO | TDB_LOG_WARN | TDB_LOG_ERROR.
Definition log_level_map : list log_level_t := [TDB_LOG_TRACE; TDB_LOG_INFO; TDB_LOG_WARN; TDB_LOG_ERROR; TDB_LOG_ERROR; TDB_LOG_NONE].

Inductive sync_mode_t := TDB_SYNC_NONE | TDB_SYNC_INTERVAL | TDB_SYNC_FULL.
Definition tdb_sync_mode_map : list sync_mode_t := [TDB_SYNC_NONE; TDB_SYNC_INTERVAL; TDB_SYNC_FULL].

(** The system variables that are read. *)
Record sysvars := mk_sysvars {
  srv_fast_mode : bool;
  g_atomic_ddl_strict : bool;
  srv_data_home_dir : option bytes;
  srv_flush_threads : Z;
  srv_compaction_threads : Z;
  srv_log_level : nat;
  srv_block_cache_size : Z;
  srv_max_open_sstables : Z;
  srv_log_to_file : bool;
  srv_log_truncation_at : Z;
  srv_memtable_write_buffer_size : Z;
  srv_memtable_sync_mode : nat;
  srv_memtable_sync_interval : Z;
  srv_legacy_compat : Z;
  srv_object_store_backend : Z;
  srv_s3 : list bytes;                    (* endpoint, bucket, prefix, access key, secret key, region *)
  srv_s3_path_style : bool;
  srv_objstore_wal_sync_on_commit : bool;
  srv_replica_mode : bool
}.

(** [tidesdb_config_t], for the fields that are set. *)
Record tidesdb_config := mk_cfg {
  db_path : bytes;
  num_flush_threads : Z;
  num_compaction_threads : Z;
  log_level : log_level_t;
  block_cache_size : Z;
  max_open_sstables : Z;
  log_to_file : bool;
  log_truncation_at : Z;
  memtable_write_buffer_size : Z;
  memtable_sync_mode : sync_mode_t;
  memtable_sync_interval_us : Z
}.

(** [None] is a read past the end of a table. *)
Definition make_cfg (v : sysvars) (path : bytes) : option tidesdb_config :=
  level ← log_level_map !! srv_log_level v;
  sync ← tdb_sync_mode_map !! srv_memtable_sync_mode v;
  Some (mk_cfg path (i32 (srv_flush_threads v)) (i32 (srv_compaction_threads v)) level (u64 (srv_block_cache_size v)) (i32 (srv_max_open_sstables v))
          (srv_log_to_file v) (u64 (srv_log_truncation_at v)) (u64 (srv_memtable_write_buffer_size v)) sync (u64 (srv_memtable_sync_interval v))).

Definition OBJSTORE_BACKEND_LOCAL : Z := 0.

(** The variables of the object store that are set, by their place in the table. *)
Definition objstore_vars (v : sysvars) : list bool :=
  negb (srv_object_store_backend v =? OBJSTORE_BACKEND_LOCAL) :: ((fun s : bytes => negb (Nat.eqb (length s) 0)) <$> srv_s3 v) ++
  [srv_s3_path_style v; srv_objstore_wal_sync_on_commit v; srv_replica_mode v].

Inductive hton_flag := HTON_SUPPORTS_ENGINE_ATTRIBUTE | HTON_SUPPORTS_ATOMIC_DDL.
#[export] Instance hton_flag_eq_dec : EqDecision hton_flag.
Proof. solve_decision. Defined.

(** ** Starting *)

(** The process: the context, what [tidesdb_open] was called with, and the locks made. *)
Record server := mk_server {
  s_flags : list hton_flag;
  s_strict : bool;
  s_path : bytes;
  s_opens : list tidesdb_config;
  s_engine : option nat;
  s_sdi : bool;
  s_tablespace : bool
}.

(** What the calls return: the directory, [tidesdb_open], [register_tablespace] and whether
    the master key was asked for and loads. *)
Record start_env := mk_start { st_home : bytes; st_dir : bytes -> option (list (string * fs_node)); st_open : tidesdb_config -> tdb_rc; st_tablespace : bool }.

(** Without atomic DDL in fast mode, where bindings are then not insisted on. *)
Definition hton_flags (v : sysvars) : list hton_flag := HTON_SUPPORTS_ENGINE_ATTRIBUTE :: if srv_fast_mode v then [] else [HTON_SUPPORTS_ATOMIC_DDL].
Definition strict_mode (v : sysvars) : bool := if srv_fast_mode v && g_atomic_ddl_strict v then false else g_atomic_ddl_strict v.

(** Object-store settings stop a start under strict compatibility. *)
Definition objstore_refuses (v : sysvars) : bool := existsb id (objstore_vars v) && (srv_legacy_compat v =? 0).

(** The open; [handle] is the engine it makes. *)
Definition open_engine (v : sysvars) (en : start_env) (path : bytes) (cfg : tidesdb_config) (handle : nat) : Z * server :=
  match st_open en cfg with
  | TDB_SUCCESS => (0, mk_server (hton_flags v) (strict_mode v) path [cfg] (Some handle) true (st_tablespace en))
  | _ => (1, mk_server (hton_flags v) (strict_mode v) path [cfg] None false false)
  end.

Definition tidesdb_init_func (v : sysvars) (en : start_env) (handle : nat) : option (Z * server) :=
  let path := data_path (srv_data_home_dir v) (st_home en) in
  let refused := Some (1, mk_server (hton_flags v) (strict_mode v) path [] None false false) in
  cfg ← make_cfg v path;
  if objstore_refuses v then refused
  else match tdb_datadir_is_tidesdb9 path (st_dir en path) with
       | Some _ => refused
       | None => Some (open_engine v en path cfg handle)
       end.

(** Entries of the directory in the old layout. *)
Definition old_layout (dir : option (list (string * fs_node))) : Prop :=
  exists entries name sub, dir = Some entries /\ (name, FsDir sub) ∈ entries /\ name <> "."%string /\ name <> ".."%string /\
    entry_of "config.ini"%string sub = Some FsFile.

Lemma is_cf_dir_iff e : is_cf_dir e = true <-> exists name sub, e = (name, FsDir sub) /\ name <> "."%string /\ name <> ".."%string /\
  entry_of "config.ini"%string sub = Some FsFile.
Proof.
  destruct e as [name node]. unfold is_cf_dir. cbn [fst snd].
  destruct (String.eqb_spec name "."%string) as [->|H1]; cbn [orb]; [split; [done|naive_solver]|].
  destruct (String.eqb_spec name ".."%string) as [->|H2]; [split; [done|naive_solver]|].
  destruct node as [|sub|]; [split; [done|naive_solver]| |split; [done|naive_solver]].
  destruct (entry_of "config.ini"%string sub) as [[| |]|] eqn:He; cbn; naive_solver.
Qed.

Lemma datadir_check path dir : path <> [] -> (exists name, tdb_datadir_is_tidesdb9 path dir = Some name) <-> old_layout dir.
Proof.
  intros Hp. destruct path as [|c p]; [done|]. unfold tdb_datadir_is_tidesdb9, old_layout. destruct dir as [entries|].
  2: { split; [by intros [? ?]|]. intros (? & ? & ? & ? & _). done. }
  split.
  - intros [name Hf]. apply fmap_Some in Hf as (e & Hf & ->). apply find_some in Hf as [Hin Hc].
    apply is_cf_dir_iff in Hc as (name & sub & -> & ? & ? & ?). exists entries, name, sub. split; [done|]. split; [by apply list_elem_of_In|done].
  - intros (es & name & sub & [= <-] & Hin & H1 & H2 & H3). destruct (List.find is_cf_dir entries) as [e|] eqn:Hf; [by exists e.1|].
    exfalso. pose proof (find_none _ _ Hf (name, FsDir sub)) as Hno.
    rewrite (proj2 (is_cf_dir_iff _)) in Hno; [|by exists name, sub]. discriminate Hno. by apply list_elem_of_In.
Qed.

Lemma data_path_home home : data_path None home <> [].
Proof. unfold data_path. destruct (trim home); done. Qed.

(** A start either fails or serves what it was asked for.  It succeeds exactly when no setting of the
    removed object store is left under strict compatibility, the directory is not of the old layout and
    the engine opens; the engine is never opened on a directory of the old layout; and a server that
    insists on table bindings is one that makes them. *)
Theorem startup_decides (v : sysvars) (en : start_env) (handle : nat) (Hlevel : (srv_log_level v < 6)%nat) (Hsync : (srv_memtable_sync_mode v < 3)%nat)
    (Hpath : data_path (srv_data_home_dir v) (st_home en) <> []) :
  exists rc sv cfg, tidesdb_init_func v en handle = Some (rc, sv) /\ make_cfg v (s_path sv) = Some cfg /\
    (rc = 0 <-> (srv_legacy_compat v = 0 -> existsb id (objstore_vars v) = false) /\ ~ old_layout (st_dir en (s_path sv)) /\ st_open en cfg = TDB_SUCCESS) /\
    (rc = 0 <-> s_engine sv = Some handle) /\ (rc <> 0 -> s_engine sv = None) /\
    (old_layout (st_dir en (s_path sv)) -> s_opens sv = []) /\
    (s_strict sv = true -> HTON_SUPPORTS_ATOMIC_DDL ∈ s_flags sv).
Proof.
  set (path := data_path (srv_data_home_dir v) (st_home en)) in *.
  assert (Hc : exists cfg, make_cfg v path = Some cfg).
  { unfold make_cfg. destruct (lookup_lt_is_Some_2 log_level_map (srv_log_level v)) as [l ->]; [done|].
    destruct (lookup_lt_is_Some_2 tdb_sync_mode_map (srv_memtable_sync_mode v)) as [m ->]; [done|]. by eexists. }
  destruct Hc as [cfg Hcfg]. pose proof (datadir_check path (st_dir en path) Hpath) as Hdir.
  assert (Hstrict : strict_mode v = true -> HTON_SUPPORTS_ATOMIC_DDL ∈ hton_flags v).
  { unfold strict_mode, hton_flags. destruct (srv_fast_mode v), (g_atomic_ddl_strict v); cbn; try done; intros _; set_solver. }
  unfold tidesdb_init_func. fold path. rewrite Hcfg. cbn [mbind option_bind].
  unfold objstore_refuses. destruct (existsb id (objstore_vars v) && (srv_legacy_compat v =? 0)) eqn:Hobj.
  { apply andb_true_iff in Hobj as [Ho ->%Z.eqb_eq]. do 3 eexists. split; [done|]. split; [done|]. cbn [s_engine s_opens s_strict s_flags s_path]. rewrite Ho. naive_solver. }
  assert (Hobj' : srv_legacy_compat v = 0 -> existsb id (objstore_vars v) = false).
  { intros E. rewrite E, Z.eqb_refl, andb_true_r in Hobj. done. }
  destruct (tdb_datadir_is_tidesdb9 path (st_dir en path)) as [name|] eqn:H9.
  { do 3 eexists. split; [done|]. split; [done|]. cbn [s_engine s_opens s_strict s_flags s_path]. assert (old_layout (st_dir en path)) by (apply Hdir; by exists name). naive_solver. }
  assert (Hnew : ~ old_layout (st_dir en path)) by (rewrite <- Hdir; by intros [name [=]]).
  unfold open_engine. destruct (st_open en cfg) eqn:Hop; (do 3 eexists; split; [done|]; split; [done|]; cbn [s_engine s_opens s_strict s_flags s_path]; rewrite ?Hop; naive_solver).
Qed.

(** ** Stopping

    The callbacks as the steps that other threads can come between.  [exchange] is atomic;
    the [reset] of the [unique_ptr] is not: it reads the pointer, clears it and deletes
    what it read. *)

Inductive instr :=
| I_sdi_read | I_sdi_clear | I_sdi_delete      (* EngineContext::reset *)
| I_release | I_exchange
| I_close (clears_schema : bool)               (* tidesdb_close, when there is an engine *)
| I_clear_schema | I_destroy.
#[export] Instance instr_eq_dec : EqDecision instr.
Proof. solve_decision. Defined.

Definition reset_prog : list instr := [I_sdi_read; I_sdi_clear; I_sdi_delete].
Definition panic_prog : list instr := reset_prog ++ [I_exchange; I_close true].
Definition deinit_prog : list instr := I_clear_schema :: reset_prog ++ [I_release; I_exchange; I_close false; I_destroy].

(** A callback of another kind does nothing. *)
Definition tidesdb_hton_panic (is_close : bool) : list instr := if is_close then panic_prog else [].

(** What happened, the latest first. *)
Inductive event := Closed (h : nat) | SdiDestroyed (sdi : nat) | HandlesFreed | MutexDestroyed.

(** What a callback has yet to do, and the engine and the store its locals point to. *)
Record thread := mk_thread { todo : list instr; own : option nat; own_sdi : option nat }.

Record process := mk_process {
  p_engine : option nat;
  p_sdi : option nat;
  p_schema : bool;
  p_events : list event;
  p_threads : list thread
}.

Definition happens (e : event) (p : process) : process :=
  mk_process (p_engine p) (p_sdi p) (p_schema p) (e :: p_events p) (p_threads p).

(** [t] is the thread after the step has been taken off what it has to do. *)
Definition exec (i : instr) (t : thread) (p : process) : thread * process :=
  match i with
  | I_sdi_read => (mk_thread (todo t) (own t) (p_sdi p), p)
  | I_sdi_clear => (t, mk_process (p_engine p) None (p_schema p) (p_events p) (p_threads p))
  | I_sdi_delete =>
    (mk_thread (todo t) (own t) None, match own_sdi t with Some sdi => happens (SdiDestroyed sdi) p | None => p end)
  | I_release => (t, happens HandlesFreed p)
  | I_exchange => (mk_thread (todo t) (p_engine p) (own_sdi t), mk_process None (p_sdi p) (p_schema p) (p_events p) (p_threads p))
  | I_close clears =>
    (mk_thread (todo t) None (own_sdi t),
     match own t with
     | Some h => mk_process (p_engine p) (p_sdi p) (negb clears && p_schema p) (Closed h :: p_events p) (p_threads p)
     | None => p
     end)
  | I_clear_schema => (t, mk_process (p_engine p) (p_sdi p) false (p_events p) (p_threads p))
  | I_destroy => (t, happens MutexDestroyed p)
  end.

(** Thread [n] takes step [i]. *)
Definition thread_step (n : nat) (i : instr) (p p' : process) : Prop :=
  exists rest o so, p_threads p !! n = Some (mk_thread (i :: rest) o so) /\
    let '(t', q) := exec i (mk_thread rest o so) p in
    p' = mk_process (p_engine q) (p_sdi q) (p_schema q) (p_events q) (<[n := t']> (p_threads p)).

(** Any thread goes on. *)
Definition stop_step (p p' : process) : Prop := exists n i, thread_step n i p p'.

(** Inside the [reset] of the store. *)
Definition in_reset (t : thread) : Prop := exists i rest, todo t = i :: rest /\ (i = I_sdi_clear \/ i = I_sdi_delete).

(** Any thread goes on, but none begins the [reset] while another is inside it. *)
Definition apart_step (p p' : process) : Prop :=
  exists n i, thread_step n i p p' /\ (i = I_sdi_read -> Forall (fun t => ~ in_reset t) (p_threads p)).

Definition running (h sdi : nat) (progs : list (list instr)) : process :=
  mk_process (Some h) (Some sdi) true [] ((fun pr => mk_thread pr None None) <$> progs).

Definition closings (p : process) : list nat := omap (fun e => match e with Closed h => Some h | _ => None end) (p_events p).
Definition destroyed (p : process) : list nat := omap (fun e => match e with SdiDestroyed s => Some s | _ => None end) (p_events p).

(** Every engine that was closed was closed after the store. *)
Fixpoint closed_last (sdi : nat) (evs : list event) : Prop :=
  match evs with
  | [] => True
  | Closed _ :: evs => SdiDestroyed sdi ∈ evs /\ closed_last sdi evs
  | _ :: evs => closed_last sdi evs
  end.

(** *** The engine *)

(** The handles a process still has to close. *)
Definition held (l : list thread) : list nat := omap own l.

Definition is_exchange (i : instr) : bool := match i with I_exchange => true | _ => false end.
Definition is_close (i : instr) : bool := match i with I_close _ => true | _ => false end.

(** One exchange, and the close after it. *)
Fixpoint close_after_exchange (l : list instr) : bool :=
  match l with
  | [] => true
  | i :: l =>
    (if is_exchange i then negb (existsb is_exchange l) && existsb is_close l else true) &&
    (if is_close i then negb (existsb is_exchange l) && negb (existsb is_close l) else true) && close_after_exchange l
  end.

(** What a thread holds, by what it has yet to do. *)
Definition thread_ok (e : option nat) (t : thread) : Prop :=
  close_after_exchange (todo t) = true /\
  if existsb is_exchange (todo t) then own t = None else e = None /\ (existsb is_close (todo t) = false -> own t = None).

Record stop_ok (h : nat) (p : process) : Prop := {
  so_held : option_list (p_engine p) ++ held (p_threads p) ++ closings p ≡ₚ [h];
  so_threads : Forall (thread_ok (p_engine p)) (p_threads p)
}.

Lemma held_app l1 t l2 : held (l1 ++ t :: l2) = held l1 ++ option_list (own t) ++ held l2.
Proof. unfold held. rewrite omap_app. cbn. by destruct (own t). Qed.

(** Other threads see the engine only go away. *)
Lemma threads_mono e e' l : (e = None -> e' = None) -> Forall (thread_ok e) l -> Forall (thread_ok e') l.
Proof.
  intros He. apply List.Forall_impl. intros t [Hc Ht]. split; [done|]. destruct (existsb is_exchange (todo t)); [done|]. naive_solver.
Qed.

(** One step of one thread: its own state, and what it does to the engine. *)
Lemma exec_engine i rest o so p : thread_ok (p_engine p) (mk_thread (i :: rest) o so) ->
  let '(t', q) := exec i (mk_thread rest o so) p in
  thread_ok (p_engine q) t' /\ (p_engine p = None -> p_engine q = None) /\
  option_list (p_engine q) ++ option_list (own t') ++ closings q ≡ₚ option_list (p_engine p) ++ option_list o ++ closings p.
Proof.
  unfold thread_ok, closings. cbn [todo own]. intros [Hc Ht]. cbn [close_after_exchange existsb] in Hc, Ht.
  apply andb_true_iff in Hc as [[H1 H2]%andb_true_iff Hc].
  destruct i; cbn in H1, H2, Ht |- *; try (by destruct so).
  - apply andb_true_iff in H1 as [Hx%negb_true_iff Hcl]. subst o. rewrite Hx, Hcl. split; [done|]. split; [done|]. done.
  - apply andb_true_iff in H2 as [Hx%negb_true_iff Hcl]. rewrite Hx in Ht |- *. destruct Ht as [He _].
    destruct o as [h|]; cbn; rewrite He; (split; [done|]; split; [done|]); done.
Qed.

Lemma step_stop_ok h p p' : stop_ok h p -> stop_step p p' -> stop_ok h p'.
Proof.
  intros [Hh Ht] (n & i & rest & o & so & Hn & Hx). pose proof (take_drop_middle _ _ _ Hn) as Hl.
  rewrite <- Hl in Hh, Ht. apply Forall_app in Ht as [Ht1 Ht2]. apply Forall_cons in Ht2 as [Ht Ht2].
  pose proof (exec_engine i rest o so p Ht) as He. destruct (exec i (mk_thread rest o so) p) as [t' q]. destruct He as (E1 & E2 & E3). subst p'.
  split; cbn [p_engine p_threads p_events]; rewrite insert_take_drop by (by eapply lookup_lt_Some).
  - rewrite held_app in Hh |- *. cbn [own] in Hh. rewrite <- Hh. unfold closings in *. cbn [p_events].
    set (a := held _). set (b := held _). transitivity (a ++ b ++ option_list (p_engine q) ++ option_list (own t') ++ closings q); [unfold closings; solve_Permutation|].
    unfold closings. rewrite E3. solve_Permutation.
  - apply Forall_app. split; [by eapply threads_mono|]. apply Forall_cons. split; [done|by eapply threads_mono].
Qed.

Lemma running_ok h sdi progs : Forall (fun pr => pr = panic_prog \/ pr = deinit_prog) progs -> stop_ok h (running h sdi progs).
Proof.
  intros Hp. assert (Hn : held ((fun pr => mk_thread pr None None) <$> progs) = []) by (unfold held; induction progs; by inversion Hp; auto).
  split; cbn [running p_engine p_threads closings p_events omap list_omap option_list]; [by rewrite Hn|]. apply Forall_fmap. eapply Forall_impl; [exact Hp|]. by intros pr [->| ->].
Qed.

Lemma steps_length p p' : stop_step p p' -> length (p_threads p') = length (p_threads p).
Proof.
  intros (n & i & rest & o & so & Hn & Hx). destruct (exec i (mk_thread rest o so) p) as [t' q]. subst p'. cbn. apply length_insert.
Qed.

Lemma stop_ok_closed h p : stop_ok h p -> (closings p = [] \/ closings p = [h]) /\
  (p_threads p <> [] -> Forall (fun t => todo t = []) (p_threads p) -> closings p = [h] /\ p_engine p = None).
Proof.
  intros [Hh Ht].
  assert (Hone : closings p = [] \/ closings p = [h] /\ p_engine p = None /\ held (p_threads p) = []).
  { destruct (closings p) as [|h1 cs]; [by left|right]. pose proof (Permutation_length Hh) as Hl. rewrite !length_app in Hl. cbn in Hl.
    destruct (p_engine p); [cbn in Hl; lia|]. destruct (held (p_threads p)); [|cbn in Hl; lia]. destruct cs; [|cbn in Hl; lia].
    cbn in Hh. apply Permutation_singleton_l in Hh. by simplify_eq. }
  split; [naive_solver|]. intros Hne Hdone.
  assert (Hall : Forall (fun t => own t = None /\ p_engine p = None) (p_threads p)).
  { apply Forall_forall. intros t Hin. rewrite Forall_forall in Ht, Hdone. destruct (Ht t Hin) as [_ Hx]. rewrite (Hdone t Hin) in Hx. cbn in Hx. naive_solver. }
  assert (He : p_engine p = None) by (destruct (p_threads p) as [|t ts]; [done|]; by apply Forall_cons in Hall as [[_ ?] _]).
  assert (Hheld : held (p_threads p) = []) by (unfold held; clear -Hall; induction Hall as [|t ts [H1 _] _ IH]; [done|]; cbn; by rewrite H1).
  rewrite He, Hheld in Hh. cbn in Hh. apply Permutation_singleton_r in Hh. done.
Qed.

(** *** The store *)

(** Not yet at the [reset] of the store. *)
Definition fresh (t : thread) : Prop :=
  own_sdi t = None /\ (todo t = panic_prog \/ todo t = deinit_prog \/ todo t = tail deinit_prog).

(** The store is there, one thread has read the pointer, that thread has cleared it, the
    store is destroyed. *)
Inductive sdi_phase (sdi : nat) (p : process) : Prop :=
| store_there : p_sdi p = Some sdi -> Forall fresh (p_threads p) -> destroyed p = [] -> closings p = [] -> sdi_phase sdi p
| store_read l1 l2 rest o : p_threads p = l1 ++ mk_thread (I_sdi_clear :: I_sdi_delete :: rest) o (Some sdi) :: l2 ->
    Forall fresh (l1 ++ l2) -> destroyed p = [] -> closings p = [] -> sdi_phase sdi p
| store_cleared l1 l2 rest o : p_sdi p = None -> p_threads p = l1 ++ mk_thread (I_sdi_delete :: rest) o (Some sdi) :: l2 ->
    Forall fresh (l1 ++ l2) -> destroyed p = [] -> closings p = [] -> sdi_phase sdi p
| store_gone : p_sdi p = None -> Forall (fun t => own_sdi t = None) (p_threads p) -> destroyed p = [sdi] ->
    SdiDestroyed sdi ∈ p_events p -> closed_last sdi (p_events p) -> sdi_phase sdi p.

(** The first step of a callback that has not reached the store. *)
Lemma fresh_first t i rest : fresh t -> todo t = i :: rest -> own_sdi t = None /\
  ((i = I_clear_schema /\ rest = tail deinit_prog) \/
   (i = I_sdi_read /\ exists rest', rest = I_sdi_clear :: I_sdi_delete :: rest')).
Proof.
  intros [Hs Hf] Ht. rewrite Ht in Hf. split; [done|].
  destruct Hf as [[= -> ->]|[[= -> ->]|[= -> ->]]]; [right|left|right]; try done; (split; [done|]; by eexists).
Qed.

Lemma middle_cases {A} (l1 l2 m1 m2 : list A) x y : l1 ++ x :: l2 = m1 ++ y :: m2 ->
  (l1 = m1 /\ x = y /\ l2 = m2) \/ x ∈ m1 ++ m2 /\ forall z, exists n1 n2, l1 ++ z :: l2 = n1 ++ y :: n2 /\
    (forall P : A -> Prop, Forall P (m1 ++ m2) -> P z -> Forall P (n1 ++ n2)).
Proof.
  revert m1. induction l1 as [|a l1 IH]; intros [|b m1]; cbn; intros [= E1 E2].
  - by left.
  - right. subst. split; [left|]. intros z. exists (z :: m1), m2. split; [done|]. cbn. intros P [_ ?]%Forall_cons ?. by constructor.
  - right. subst. split; [apply elem_of_app; right; left|]. intros z. exists [], (l1 ++ z :: l2). split; [done|]. cbn.
    intros P [? [_ ?]%Forall_cons]%Forall_app ?. apply Forall_app. split; [done|]. by constructor.
  - destruct (IH m1 E2) as [(-> & -> & ->)|[Hx Hz]]; [left; by subst|right]. subst. split; [by right|]. intros z.
    destruct (Hz z) as (n1 & n2 & En & HP). exists (b :: n1), n2. cbn. rewrite En. split; [done|]. intros P [? ?]%Forall_cons ?.
    constructor; [done|by apply HP].
Qed.

(** Steps before the store has been destroyed. *)
Lemma fresh_step sdi i rest o so p l1 l2 : let t := mk_thread (i :: rest) o so in fresh t ->
  p_threads p = l1 ++ t :: l2 -> Forall fresh (l1 ++ l2) -> p_sdi p = Some sdi -> destroyed p = [] -> closings p = [] ->
  let '(t', q) := exec i (mk_thread rest o so) p in
  sdi_phase sdi (mk_process (p_engine q) (p_sdi q) (p_schema q) (p_events q) (l1 ++ t' :: l2)).
Proof.
  intros t Hf Hl Hall Hp Hd Hc. apply (fresh_first _ i rest) in Hf as [Hs Hcase]; [|done]. cbn in Hs. subst so.
  destruct Hcase as [[-> ->]|[-> [rest' ->]]]; cbn.
  - apply store_there; try done. cbn. apply Forall_app in Hall as [? ?]. apply Forall_app. split; [done|]. constructor; [|done].
    split; [done|]. right. by right.
  - rewrite Hp. by eapply store_read.
Qed.

(** Steps after it has. *)
Lemma gone_step sdi i rest o p l1 l2 : Forall (fun t => own_sdi t = None) (l1 ++ l2) ->
  p_sdi p = None -> destroyed p = [sdi] -> SdiDestroyed sdi ∈ p_events p -> closed_last sdi (p_events p) ->
  let '(t', q) := exec i (mk_thread rest o None) p in
  sdi_phase sdi (mk_process (p_engine q) (p_sdi q) (p_schema q) (p_events q) (l1 ++ t' :: l2)).
Proof.
  intros Hall Hp Hd Hin Hc. apply Forall_app in Hall as [H1 H2]. unfold destroyed in Hd.
  assert (Hth : forall t', own_sdi t' = None -> Forall (fun t => own_sdi t = None) (l1 ++ t' :: l2)).
  { intros t' Ht'. apply Forall_app. split; [done|]. by constructor. }
  destruct i, o as [h|]; cbn; apply store_gone; cbn; auto; by right.
Qed.

(** While one thread is inside the [reset], another has only the schema pointer to clear. *)
Lemma fresh_waits p l1 l2 m1 m2 i rest o so y : p_threads p = l1 ++ mk_thread (i :: rest) o so :: l2 ->
  l1 ++ mk_thread (i :: rest) o so :: l2 = m1 ++ y :: m2 -> fresh (mk_thread (i :: rest) o so) ->
  (i = I_sdi_read -> Forall (fun t => ~ in_reset t) (p_threads p)) -> in_reset y -> i = I_clear_schema /\ fresh (mk_thread rest o so).
Proof.
  intros Hl Ht Hf Hguard Hy. apply (fresh_first _ i rest) in Hf as [Hs [[-> ->]|[-> _]]]; [..|done].
  - split; [done|]. split; [done|]. right. by right.
  - specialize (Hguard eq_refl). rewrite Hl, Ht in Hguard. apply Forall_app in Hguard as [_ [Hn _]%Forall_cons]. done.
Qed.

Lemma no_close sdi evs : omap (fun e => match e with Closed h => Some h | _ => None end) evs = [] -> closed_last sdi evs.
Proof. induction evs as [|[] evs IH]; cbn; try done; auto. Qed.

Lemma apart_phase sdi p p' : sdi_phase sdi p -> apart_step p p' -> sdi_phase sdi p'.
Proof.
  intros Hph (n & i & (rest & o & so & Hn & Hx) & Hguard). pose proof (take_drop_middle _ _ _ Hn) as Hl.
  assert (Hlen : (n < length (p_threads p))%nat) by (by eapply lookup_lt_Some).
  assert (Hx' : let '(t', q) := exec i (mk_thread rest o so) p in
    p' = mk_process (p_engine q) (p_sdi q) (p_schema q) (p_events q) (take n (p_threads p) ++ t' :: drop (S n) (p_threads p))).
  { destruct (exec i (mk_thread rest o so) p) as [t' q]. by rewrite insert_take_drop in Hx. }
  clear Hx. revert Hl Hx'. generalize (take n (p_threads p)), (drop (S n) (p_threads p)). intros l1 l2 Hl Hx. symmetry in Hl.
  destruct Hph as [Hp Hf Hd Hc|m1 m2 r o' Ht Hf Hd Hc|m1 m2 r o' Hp Ht Hf Hd Hc|Hp Hf Hd Hin Hc].
  - rewrite Hl in Hf. apply Forall_app in Hf as [H1 [H2 H3]%Forall_cons].
    pose proof (fresh_step sdi i rest o so p l1 l2 H2 Hl ltac:(by apply Forall_app) Hp Hd Hc) as Hs.
    destruct (exec i (mk_thread rest o so) p) as [t' q]. by subst p'.
  - rewrite Hl in Ht. pose proof Ht as [(-> & [= -> -> -> ->] & ->)|[Hin Hz]]%middle_cases.
    + cbn in Hx. subst p'. cbn. by eapply store_cleared.
    + rewrite Forall_forall in Hf. destruct (fresh_waits p l1 l2 m1 m2 i rest o so _ Hl Ht (Hf _ Hin) Hguard) as (-> & Hfr); [by eexists _, _; auto|].
      rewrite <- Forall_forall in Hf. destruct (Hz (mk_thread rest o so)) as (n1 & n2 & En & HP). cbn in Hx. subst p'. cbn. rewrite En. eapply store_read; try done.
      by apply HP.
  - rewrite Hl in Ht. pose proof Ht as [(-> & [= -> -> -> ->] & ->)|[Hin Hz]]%middle_cases.
    + cbn in Hx. subst p'. cbn. unfold destroyed in Hd. apply store_gone; cbn; rewrite ?Hd; try done; [|left|by apply no_close].
      apply Forall_app in Hf as [H1 H2]. apply Forall_app. split; [|constructor; [done|]]; eapply Forall_impl; try done; by intros t [? _].
    + rewrite Forall_forall in Hf. destruct (fresh_waits p l1 l2 m1 m2 i rest o so _ Hl Ht (Hf _ Hin) Hguard) as (-> & Hfr); [by eexists _, _; auto|].
      rewrite <- Forall_forall in Hf. destruct (Hz (mk_thread rest o so)) as (n1 & n2 & En & HP). cbn in Hx. subst p'. cbn. rewrite En. eapply store_cleared; try done.
      by apply HP.
  - rewrite Hl in Hf. apply Forall_app in Hf as [H1 [H2 H3]%Forall_cons]. cbn in H2. subst so.
    pose proof (gone_step sdi i rest o p l1 l2 ltac:(by apply Forall_app) Hp Hd Hin Hc) as Hs.
    destruct (exec i (mk_thread rest o None) p) as [t' q]. by subst p'.
Qed.

Lemma running_phase h sdi progs : Forall (fun pr => pr = panic_prog \/ pr = deinit_prog) progs -> sdi_phase sdi (running h sdi progs).
Proof.
  intros Hp. apply store_there; try done. cbn. apply Forall_fmap. eapply Forall_impl; [exact Hp|].
  intros pr [->| ->]; split; auto.
Qed.

(** A callback that has returned has been through the [reset]. *)
Lemma phase_done sdi p : sdi_phase sdi p -> p_threads p <> [] -> Forall (fun t => todo t = []) (p_threads p) -> destroyed p = [sdi].
Proof.
  intros [_ Hf _ _|l1 l2 r o Ht _ _ _|l1 l2 r o _ Ht _ _ _|_ _ Hd _ _] Hne Hdone; [|rewrite Ht in Hdone; by apply Forall_app in Hdone as [_ [[=] _]%Forall_cons]..|done].
  destruct (p_threads p) as [|t ts]; [done|]. apply Forall_cons in Hf as [[_ Hf] _]. apply Forall_cons in Hdone as [Ht _].
  rewrite Ht in Hf. by destruct Hf as [?|[?|?]].
Qed.

(** C38: shutting down.  However the panic and unload callbacks come and interleave on any
    number of threads, the engine is closed at most once; when all of them have returned
    it has been closed, and nobody holds it.  The store of dictionary information, whose
    pointer is not atomic, is safe when no callback begins to release it while another is
    releasing it, as when the server calls them one after the other: then it is destroyed
    once, and no engine is closed before.  Without that the store can be destroyed twice,
    or after the engine ([overlapping_resets]). *)
Theorem engine_closed_once (h sdi : nat) (progs : list (list instr)) :
  Forall (fun pr => pr = tidesdb_hton_panic true \/ pr = deinit_prog) progs ->
  (forall p, rtc stop_step (running h sdi progs) p ->
     (closings p = [] \/ closings p = [h]) /\
     (progs <> [] -> Forall (fun t => todo t = []) (p_threads p) -> closings p = [h] /\ p_engine p = None)) /\
  (forall p, rtc apart_step (running h sdi progs) p ->
     (destroyed p = [] \/ destroyed p = [sdi]) /\ closed_last sdi (p_events p) /\
     (progs <> [] -> Forall (fun t => todo t = []) (p_threads p) -> destroyed p = [sdi])).
Proof.
  intros Hp. assert (Hthreads : forall p, rtc stop_step (running h sdi progs) p -> progs <> [] -> p_threads p <> []).
  { intros p Hr Hne Hnil. assert (Hl : length (p_threads p) = length progs).
    { eapply (rtc_invariant stop_step (fun p => length (p_threads p) = length progs)); [| |exact Hr]; [|apply length_fmap].
      intros p1 p2 Hl Hs. by rewrite (steps_length p1 p2 Hs). }
    rewrite Hnil in Hl. by destruct progs. }
  split; intros p Hr.
  - assert (Hok : stop_ok h p).
    { eapply (rtc_invariant stop_step (stop_ok h)); [intros ???; by eapply step_stop_ok|by apply running_ok|exact Hr]. }
    destruct (stop_ok_closed h p Hok) as [H1 H2]. split; [done|]. intros Hne. apply H2. by apply Hthreads.
  - assert (Hph : sdi_phase sdi p).
    { eapply (rtc_invariant apart_step (sdi_phase sdi)); [intros ???; by eapply apart_phase|by apply running_phase|exact Hr]. }
    split; [destruct Hph; auto|]. split; [destruct Hph; first [done | by apply no_close]|]. intros Hne. apply (phase_done _ _ Hph), Hthreads; [|done].
    eapply rtc_subrel; [|exact Hr]. intros p1 p2 (n & i & Hs & _). by exists n, i.
Qed.

(** The number of steps left goes down with every step. *)
Lemma stop_terminates p p' : stop_step p p' -> (sum_list_with (fun t => length (todo t)) (p_threads p') < sum_list_with (fun t => length (todo t)) (p_threads p))%nat.
Proof.
  intros (n & i & rest & o & so & Hn & Hx). assert (Ht : todo (exec i (mk_thread rest o so) p).1 = rest) by (by destruct i).
  destruct (exec i (mk_thread rest o so) p) as [t' q]. cbn in Ht. subst p'. cbn [p_threads]. rewrite insert_take_drop by (by eapply lookup_lt_Some).
  rewrite <- (take_drop_middle _ _ _ Hn) at 3. rewrite !sum_list_with_app. cbn. rewrite Ht. lia.
Qed.

(** ** Logs *)

(** The result says that the callback failed. *)
Definition tidesdb_hton_flush_logs (engine : option nat) (sync_wal : tdb_rc) : bool :=
  match engine with None => false | Some _ => negb (bool_decide (sync_wal = TDB_SUCCESS)) end.

Definition tidesdb_hton_pre_shutdown (engine : option nat) : bool := bool_decide (is_Some engine).   (* the log is synced *)

(** ** Directories of databases *)

(** The name before the separator of a key of the schema family. *)
Fixpoint db_of_key (k : bytes) : option bytes :=
  match k with [] => None | c :: k => if c =? SCHEMA_CF_KEY_SEP then Some [] else cons c <$> db_of_key k end.

(** [exists_dir] tells which directories are there; the result is those that [my_mkdir] is called for. *)
Definition ensure_step (exists_dir : bytes -> bool) (st : gset bytes * list bytes) (key : bytes) : gset bytes * list bytes :=
  match db_of_key key with
  | Some (c :: db) =>
    if bool_decide ((c :: db) ∈ st.1) then st
    else ({[c :: db]} ∪ st.1, if exists_dir (c :: db) then st.2 else st.2 ++ [c :: db])
  | _ => st
  end.

Definition schema_cf_ensure_databases (schema_cf : option (list bytes)) (exists_dir : bytes -> bool) : list bytes :=
  match schema_cf with None => [] | Some ks => (foldl (ensure_step exists_dir) (∅, []) ks).2 end.

Lemma db_of_schema_key db tbl : SCHEMA_CF_KEY_SEP ∉ db -> db_of_key (schema_cf_key db tbl) = Some db.
Proof.
  unfold schema_cf_key. induction db as [|c db IH]; intros Hn; cbn.
  - done.
  - apply not_elem_of_cons in Hn as [Hc Hn]. rewrite (proj2 (Z.eqb_neq _ _)) by congruence. by rewrite IH.
Qed.

Lemma key_named_cons k ks db : (exists k', k' ∈ k :: ks /\ db_of_key k' = Some db) <-> db_of_key k = Some db \/ exists k', k' ∈ ks /\ db_of_key k' = Some db.
Proof. setoid_rewrite elem_of_cons. clear. naive_solver. Qed.

(** Every missing directory of a database with a table is made, once. *)
Lemma ensure_databases_exact ks exists_dir :
  NoDup (schema_cf_ensure_databases (Some ks) exists_dir) /\
  forall db, db ∈ schema_cf_ensure_databases (Some ks) exists_dir <-> db <> [] /\ exists_dir db = false /\ exists k, k ∈ ks /\ db_of_key k = Some db.
Proof.
  unfold schema_cf_ensure_databases.
  enough (Hg : forall seen out, NoDup out -> (forall db, db ∈ out <-> db ∈ seen /\ exists_dir db = false) -> [] ∉ seen ->
     let st := foldl (ensure_step exists_dir) (seen, out) ks in
     NoDup st.2 /\ [] ∉ st.1 /\ (forall db, db ∈ st.2 <-> db ∈ st.1 /\ exists_dir db = false) /\
     (forall db, db ∈ st.1 <-> db ∈ seen \/ (db <> [] /\ exists k, k ∈ ks /\ db_of_key k = Some db))).
  { destruct (Hg ∅ []) as (G1 & G2 & G3 & G4); [constructor|set_solver|set_solver|]. split; [exact G1|]. intros db. rewrite G3, G4. set_solver. }
  induction ks as [|k ks IH]; intros seen out Hnd Hout Hne; cbn [foldl].
  { cbn. split; [done|]. split; [done|]. split; [done|]. set_solver. }
  remember (ensure_step exists_dir (seen, out) k) as st1 eqn:Hst. unfold ensure_step in Hst. destruct (db_of_key k) as [[|c db]|] eqn:Hk; cbn [fst snd] in Hst; [subst st1| |subst st1].
  - destruct (IH seen out Hnd Hout Hne) as (G1 & G2 & G3 & G4). split; [done|]. split; [done|]. split; [done|]. intros d. rewrite G4, key_named_cons, Hk. clear -Hk. naive_solver congruence.
  - case_bool_decide as Hin; subst st1.
    + destruct (IH seen out Hnd Hout Hne) as (G1 & G2 & G3 & G4). split; [done|]. split; [done|]. split; [done|]. intros d. rewrite G4, key_named_cons, Hk. clear -Hin. naive_solver congruence.
    + destruct (IH ({[c :: db]} ∪ seen) (if exists_dir (c :: db) then out else out ++ [c :: db])) as (G1 & G2 & G3 & G4).
      * destruct (exists_dir (c :: db)); [done|]. apply NoDup_app. split; [done|]. split; [set_solver|apply NoDup_singleton].
      * intros d. destruct (exists_dir (c :: db)) eqn:He; rewrite ?elem_of_app, ?list_elem_of_singleton, Hout, elem_of_union, elem_of_singleton; naive_solver congruence.
      * set_solver.
      * split; [done|]. split; [done|]. split; [done|]. intros d. rewrite G4, key_named_cons, Hk, elem_of_union, elem_of_singleton. clear. naive_solver congruence.
  - destruct (IH seen out Hnd Hout Hne) as (G1 & G2 & G3 & G4). split; [done|]. split; [done|]. split; [done|]. intros d. rewrite G4, key_named_cons, Hk. clear. naive_solver congruence.
Qed.

(** ** Examples *)

Definition demo_vars : sysvars := mk_sysvars true true None 2 2 1 67108864 256 true 0 67108864 1 100000 0 0 [[]; []; []; []; []; []] false false false.
Definition old_dir : list (string * fs_node) := [("LOCK"%string, FsFile); ("t1"%string, FsDir [("MANIFEST"%string, FsFile); ("config.ini"%string, FsFile)])].
Definition demo_start (dir : list (string * fs_node)) : start_env := mk_start [47; 100; 47] (fun _ => Some dir) (fun _ => TDB_SUCCESS) true.

Lemma startup_decides_witness :
  exists rc sv cfg, tidesdb_init_func demo_vars (demo_start []) 7 = Some (rc, sv) /\ make_cfg demo_vars (s_path sv) = Some cfg /\
    (rc = 0 <-> s_engine sv = Some 7%nat).
Proof.
  destruct (startup_decides demo_vars (demo_start []) 7 ltac:(cbn; lia) ltac:(cbn; lia) (data_path_home _)) as (rc & sv & cfg & H1 & H2 & _ & H3 & _).
  exists rc, sv, cfg. split; [exact H1|]. split; [exact H2|exact H3].
Defined.

(** A directory of the old layout stops the start before the engine sees it. *)
Lemma old_dir_refused : match tidesdb_init_func demo_vars (demo_start old_dir) 7 with Some (rc, sv) => rc = 1 /\ s_opens sv = [] | None => False end.
Proof. vm_compute. done. Qed.

(** Thread [n] goes on. *)
Ltac run_thread n := eapply rtc_l; [eexists n, _, _, _, _; split; reflexivity|]; cbn.

Definition both_done : process :=
  mk_process None None false [MutexDestroyed; HandlesFreed; Closed 7; SdiDestroyed 3] [mk_thread [] None None; mk_thread [] None None].

(** The panic callback runs first, then the plugin is unloaded. *)
Lemma both_run : rtc stop_step (running 7 3 [tidesdb_hton_panic true; deinit_prog]) both_done.
Proof. unfold running. cbn. do 5 run_thread 0%nat. do 8 run_thread 1%nat. reflexivity. Qed.

(** Neither callback is inside the [reset] when the other begins it. *)
Ltac run_apart n := eapply rtc_l;
  [eexists n, _; split; [eexists _, _, _; split; reflexivity|intros E; try discriminate E; repeat constructor; intros (? & ? & [= <- <-] & [[=]|[=]])]|]; cbn.

Lemma both_run_apart : rtc apart_step (running 7 3 [tidesdb_hton_panic true; deinit_prog]) both_done.
Proof. unfold running. cbn. do 5 run_apart 0%nat. do 8 run_apart 1%nat. reflexivity. Qed.

Lemma engine_closed_once_witness : closings both_done = [7%nat] /\ p_engine both_done = None /\ destroyed both_done = [3%nat].
Proof.
  destruct (engine_closed_once 7 3 [tidesdb_hton_panic true; deinit_prog]) as [Hclose Hstore].
  - apply Forall_cons. split; [by left|]. apply Forall_cons. split; [by right|constructor].
  - assert (Hdone : Forall (fun t => todo t = []) (p_threads both_done)) by (repeat constructor).
    destruct (proj2 (Hclose both_done both_run) ltac:(discriminate) Hdone) as [H1 H2]. split; [exact H1|]. split; [exact H2|].
    exact (proj2 (proj2 (Hstore both_done both_run_apart)) ltac:(discriminate) Hdone).
Defined.

(** The panic callback closes the engine without freeing the handles of undecided
    transactions; the unload that follows frees them on the closed engine. *)
Lemma handles_freed_after_close : exists p, rtc stop_step (running 7 3 [tidesdb_hton_panic true; deinit_prog]) p /\
  p_events p = [MutexDestroyed; HandlesFreed; Closed 7; SdiDestroyed 3].
Proof. exists both_done. split; [exact both_run|done]. Qed.

(** Two callbacks that release the store at the same time destroy it twice, or close the
    engine while the store is still to be destroyed. *)
Lemma overlapping_resets : let start := running 7 3 [tidesdb_hton_panic true; tidesdb_hton_panic true] in
  (exists p, rtc stop_step start p /\ destroyed p = [3%nat; 3%nat]) /\
  (exists p, rtc stop_step start p /\ p_events p = [SdiDestroyed 3; Closed 7]).
Proof.
  cbn. unfold running. cbn. split; eexists; split.
  - run_thread 0%nat. run_thread 1%nat. do 2 run_thread 0%nat. do 2 run_thread 1%nat. apply rtc_refl.
  - reflexivity.
  - do 2 run_thread 0%nat. do 5 run_thread 1%nat. run_thread 0%nat. apply rtc_refl.
  - reflexivity.
Qed.

(** A data directory given as slashes only is the empty path, for which the check of the
    layout is skipped. *)
Lemma root_path_empty : data_path (Some [SLASH; SLASH]) [47; 100] = [] /\ tdb_datadir_is_tidesdb9 (data_path (Some [SLASH]) [47; 100]) (Some old_dir) = None.
Proof. vm_compute. done. Qed.
