(* ===== verification/Status.v ===== *)
(** * SHOW ENGINE STATUS (ha_tidesdb.cc 2717-2965)

    The report is printed piece by piece into a buffer on the stack; each [snprintf] gets
    the room that is left, computed in unsigned arithmetic, and the position advances by
    what it would have written.  The theorem is that nothing is cut off or written past
    the end, for any figures and any path the system accepts. *)

From Stdlib Require Import ZArith Lia Strings.String Strings.Ascii.
From stdpp Require Import base tactics list numbers.
From S2P Require Import Prelude Errors.

Open Scope Z_scope.
Open Scope list_scope.

Definition TIDESDB_STATUS_BUF_LEN : Z := 8192.
Definition LAST_CONFLICT_INFO_LEN : nat := 1024.

Fixpoint chars (s : string) : list Z :=
  match s with EmptyString => [] | String c s => Z.of_nat (nat_of_ascii c) :: chars s end.

(** Decimal digits of a 64-bit number. *)
Fixpoint digits (fuel : nat) (n : Z) (acc : list Z) : list Z :=
  match fuel with
  | O => acc
  | S fuel => if n <? 10 then 48 + n :: acc else digits fuel (n `div` 10) (48 + n `mod` 10 :: acc)
  end.

Definition decimal (n : Z) : list Z := if n <? 0 then 45 :: digits 20 (- n) [] else digits 20 n [].

(** A conversion of a format: text, an integer, a string, or a double as it is printed. *)
Inductive piece := Lit (s : string) | Num (n : Z) | Str (b : list Z) | Flt (text : list Z).

Definition render (p : piece) : list Z :=
  match p with Lit s => chars s | Num n => decimal n | Str b => b | Flt t => t end.

Definition line (ps : list piece) : list Z := (ps ≫= render) ++ [10].

(** One call: the characters that fit are written with a zero after them; [None] when that is
    outside the buffer. *)
Definition snprintf_at (st : list Z * Z) (text : list Z) : option (list Z * Z) :=
  let '(out, pos) := st in
  let room := u64 (TIDESDB_STATUS_BUF_LEN - pos) in
  let n := Z.min (Z.of_nat (length text)) (Z.max (room - 1) 0) in
  if (0 <? room) && (TIDESDB_STATUS_BUF_LEN <? pos + n + 1) then None
  else Some (out ++ take (Z.to_nat n) text, pos + Z.of_nat (length text)).

(** The figures of the engine and of its cache. *)
Record db_stats := mk_db {
  num_column_families : Z; global_seq : Z; memtable_bytes : Z; txn_memory_bytes : Z; total_sstable_count : Z; num_open_sstables : Z;
  total_data_size_bytes : Z; immutable_memtable_count : Z; is_flushing : bool; compaction_pending_count : Z; flush_count : Z; compaction_count : Z;
  writes_throttled : Z; writes_blocked : Z; write_stall_us : Z; write_stall_ceiling_hits : Z;
  vlog_live_bytes : Z; vlog_dead_bytes : Z; vlog_segment_count : Z; vlog_segments_drainable : Z
}.
Record cache_stats := mk_cache { c_enabled : bool; c_entries : Z; c_bytes : Z; c_hits : Z; c_misses : Z; c_hit_rate : list Z; c_partitions : Z }.
Record tomb_figures := mk_figures { t_total : Z; t_ratio : list Z; t_density : list Z; t_level : Z }.

Definition yes_no (b : bool) (y n : string) : piece := Lit (if b then y else n).

Section Report.
Variables (path : list Z) (unified : bool) (d : db_stats) (c : cache_stats) (t : tomb_figures) (last_conflict : list Z).

(** The lines; the flag is an empty line before. *)
Definition report_lines : list (bool * list piece) :=
  [(false, [Lit "================== TidesDB Engine Status =================="]);
   (false, [Lit "Data directory: "; Str path]);
   (false, [Lit "Unified memtable: "; yes_no unified "ON" "OFF"]);
   (false, [Lit "Column families: "; Num (num_column_families d)]);
   (false, [Lit "Global sequence: "; Num (global_seq d)]);
   (true, [Lit "--- Memory ---"]);
   (false, [Lit "Memtable bytes: "; Num (memtable_bytes d)]);
   (false, [Lit "Transaction memory bytes: "; Num (txn_memory_bytes d)]);
   (true, [Lit "--- Storage ---"]);
   (false, [Lit "Total SSTables: "; Num (total_sstable_count d)]);
   (false, [Lit "Open SSTable handles: "; Num (num_open_sstables d)]);
   (false, [Lit "Total data size: "; Num (total_data_size_bytes d); Lit " bytes"]);
   (false, [Lit "Immutable memtables: "; Num (immutable_memtable_count d)]);
   (true, [Lit "--- Background ---"]);
   (false, [Lit "Flushing now: "; yes_no (is_flushing d) "YES" "NO"]);
   (false, [Lit "Compaction pending: "; Num (compaction_pending_count d)]);
   (false, [Lit "Flushes / compactions: "; Num (flush_count d); Lit " / "; Num (compaction_count d)]);
   (true, [Lit "--- Write Stalls ---"]);
   (false, [Lit "Throttled / blocked: "; Num (writes_throttled d); Lit " / "; Num (writes_blocked d)]);
   (false, [Lit "Total stall: "; Num (write_stall_us d); Lit " us (ceiling hits: "; Num (write_stall_ceiling_hits d); Lit ")"]);
   (true, [Lit "--- Value Log ---"]);
   (false, [Lit "Live / dead bytes: "; Num (vlog_live_bytes d); Lit " / "; Num (vlog_dead_bytes d)]);
   (false, [Lit "Segments: "; Num (vlog_segment_count d); Lit " (drainable: "; Num (vlog_segments_drainable d); Lit ")"]);
   (true, [Lit "--- Block Cache ---"]);
   (false, [Lit "Enabled: "; yes_no (c_enabled c) "YES" "NO"]);
   (false, [Lit "Entries: "; Num (c_entries c)]);
   (false, [Lit "Size: "; Num (c_bytes c); Lit " bytes"]);
   (false, [Lit "Hits: "; Num (c_hits c)]);
   (false, [Lit "Misses: "; Num (c_misses c)]);
   (false, [Lit "Hit rate: "; Flt (c_hit_rate c); Lit "%"]);
   (false, [Lit "Partitions: "; Num (c_partitions c)]);
   (true, [Lit "--- Tombstones ---"]);
   (false, [Lit "Total tombstones: "; Num (t_total t)]);
   (false, [Lit "Tombstone ratio: "; Flt (t_ratio t); Lit "%"]);
   (false, [Lit "Worst SSTable density: "; Flt (t_density t); Lit "% at level "; Num (t_level t)])].

Definition line_of (l : bool * list piece) : list Z := (if l.1 then [10] else []) ++ line l.2.

Definition report : list (list Z) :=
  (line_of <$> report_lines) ++ (if bool_decide (last_conflict = []) then [] else [line_of (true, [Lit "--- Conflicts ---"]) ++ last_conflict ++ [10]]).

Fixpoint print_all (st : list Z * Z) (texts : list (list Z)) : option (list Z * Z) :=
  match texts with [] => Some st | x :: texts => st ← snprintf_at st x; print_all st texts end.

(** What the server is given: [pos] bytes from the start of the buffer; nothing for another kind of
    status or without an engine. *)
Definition tidesdb_show_status (engine_status engine : bool) : option (option (list Z * Z)) :=
  if engine_status && engine then Some <$> print_all ([], 0) report else Some None.

(** ** Lengths *)

Lemma status_digits_length fuel n acc : (length (digits fuel n acc) <= fuel + length acc)%nat.
Proof.
  revert n acc. induction fuel as [|fuel IH]; intros n acc; cbn [digits]; [done|]. destruct (n <? 10); [cbn; lia|].
  specialize (IH (n `div` 10) (48 + n `mod` 10 :: acc)). cbn [length] in IH. lia.
Qed.

Lemma decimal_length n : (length (decimal n) <= 21)%nat.
Proof.
  unfold decimal. destruct (n <? 0); [pose proof (status_digits_length 20 (- n) [])|pose proof (status_digits_length 20 n [])]; cbn [length] in *; lia.
Qed.

Definition piece_max (p : piece) : nat := match p with Lit s => String.length s | Num _ => 21 | Str b => length b | Flt x => length x end.

Lemma chars_length s : length (chars s) = String.length s.
Proof. induction s as [|a s IH]; cbn; [done|]. by rewrite IH. Qed.

Lemma render_length p : (length (render p) <= piece_max p)%nat.
Proof. destruct p as [s|n|b|x]; cbn; [by rewrite chars_length|apply decimal_length|done|done]. Qed.

Lemma line_length ps : (length (line ps) <= sum_list_with piece_max ps + 1)%nat.
Proof.
  unfold line. rewrite length_app. cbn [length]. apply Nat.add_le_mono_r. induction ps as [|p ps IH]; cbn; [done|].
  rewrite length_app. pose proof (render_length p). lia.
Qed.

Lemma print_all_fits texts out : Z.of_nat (length out) + Z.of_nat (sum_list_with length texts) < TIDESDB_STATUS_BUF_LEN ->
  print_all (out, Z.of_nat (length out)) texts = Some (out ++ mjoin texts, Z.of_nat (length (out ++ mjoin texts))).
Proof.
  revert out. induction texts as [|x texts IH]; intros out Hlt; cbn [print_all].
  { cbn. by rewrite app_nil_r. }
  cbn [sum_list_with] in Hlt. unfold snprintf_at, u64, TIDESDB_STATUS_BUF_LEN in *. rewrite Z.mod_small by lia.
  rewrite (Z.max_l (8192 - Z.of_nat (length out) - 1)) by lia. rewrite Z.min_l by lia. rewrite (proj2 (Z.ltb_ge 8192 _)) by lia. rewrite andb_false_r.
  cbn [mbind option_bind]. rewrite Nat2Z.id, firstn_all. rewrite <- Nat2Z.inj_add, <- length_app. rewrite IH by (rewrite length_app; lia).
  by rewrite <- !app_assoc.
Qed.
Lemma line_of_length l : (length (line_of l) <= sum_list_with piece_max l.2 + 2)%nat.
Proof. unfold line_of. rewrite length_app. pose proof (line_length l.2). destruct l.1; cbn [length]; lia. Qed.

Lemma lines_length ls : (sum_list_with length (line_of <$> ls) <= sum_list_with (fun l => sum_list_with piece_max l.2 + 2) ls)%nat.
Proof. induction ls as [|l ls IH]; [done|]. rewrite fmap_cons. cbn [sum_list_with]. pose proof (line_of_length l). lia. Qed.

Lemma yes_no_max b y n : (piece_max (yes_no b y n) <= Nat.max (String.length y) (String.length n))%nat.
Proof. destruct b; cbn; lia. Qed.

(** The text of the lines and at most 21 characters for each number, beside the strings. *)
Lemma report_length : (sum_list_with length report <=
  1700 + length path + length last_conflict + length (c_hit_rate c) + length (t_ratio t) + length (t_density t))%nat.
Proof.
  unfold report. rewrite sum_list_with_app. pose proof (lines_length report_lines) as Hl.
  assert (Hc : (sum_list_with length (if bool_decide (last_conflict = []) then [] else [line_of (true, [Lit "--- Conflicts ---"]) ++ last_conflict ++ [10%Z]])
                <= 21 + length last_conflict)%nat).
  { case_bool_decide; [cbn; lia|]. cbn [sum_list_with]. rewrite !length_app. cbn. lia. }
  assert (Hs : (sum_list_with (fun l => sum_list_with piece_max l.2 + 2) report_lines <=
                1679 + length path + length (c_hit_rate c) + length (t_ratio t) + length (t_density t))%nat).
  { unfold report_lines. cbn [sum_list_with snd]. pose proof (yes_no_max unified "ON" "OFF"). pose proof (yes_no_max (is_flushing d) "YES" "NO").
    pose proof (yes_no_max (c_enabled c) "YES" "NO"). cbn [piece_max String.length Nat.max] in *. lia. }
  lia.
Qed.

(** SHOW ENGINE STATUS never writes outside its buffer and never cuts its report: with a data
    directory of at most 4096 bytes, a last conflict that fits its own buffer and doubles of at most
    320 characters, whatever the figures of the engine, the server is given the whole report. *)
Theorem status_report_fits (Hpath : (length path <= 4096)%nat) (Hconflict : (length last_conflict < LAST_CONFLICT_INFO_LEN)%nat)
    (Hdoubles : Forall (fun x => length x <= 320)%nat [c_hit_rate c; t_ratio t; t_density t]) :
  exists out, tidesdb_show_status true true = Some (Some (out, Z.of_nat (length out))) /\ out = mjoin report /\ Z.of_nat (length out) < TIDESDB_STATUS_BUF_LEN.
Proof.
  pose proof report_length as Hr. unfold LAST_CONFLICT_INFO_LEN in Hconflict. apply List.Forall_cons_iff in Hdoubles as [H1 H2].
  apply List.Forall_cons_iff in H2 as [H2 H3]. apply List.Forall_cons_iff in H3 as [H3 _].
  assert (Hj : forall ls : list (list Z), length (mjoin ls) = sum_list_with length ls).
  { induction ls as [|l ls IH]; [done|]. change (mjoin (l :: ls)) with (l ++ mjoin ls). rewrite length_app, IH. done. }
  exists (mjoin report). split; [|split; [done|]].
  - unfold tidesdb_show_status. cbn [andb]. change 0 with (Z.of_nat (length (@nil Z))). rewrite print_all_fits; [done|]. unfold TIDESDB_STATUS_BUF_LEN. cbn [length]. lia.
  - rewrite Hj. unfold TIDESDB_STATUS_BUF_LEN. lia.
Qed.
End Report.

(** A fresh server under [/d]. *)
Definition zero_stats : db_stats := mk_db 1 0 0 0 0 0 0 0 false 0 0 0 0 0 0 0 0 0 0 0.
Definition zero_cache : cache_stats := mk_cache true 0 0 0 0 [48; 46; 48] 4.
Definition zero_tombs : tomb_figures := mk_figures 0 [48; 46; 48; 48] [48; 46; 48; 48] 0.

Lemma status_report_fits_witness :
  exists out, tidesdb_show_status [47; 100] true zero_stats zero_cache zero_tombs [] true true = Some (Some (out, Z.of_nat (length out))) /\ Z.of_nat (length out) < 8192.
Proof.
  destruct (status_report_fits [47; 100] true zero_stats zero_cache zero_tombs [] ltac:(cbn; lia) ltac:(unfold LAST_CONFLICT_INFO_LEN; cbn; lia)
              ltac:(repeat constructor; cbn; lia)) as (out & H1 & _ & H2).
  exists out. split; [exact H1|exact H2].
Defined.

(** ** Status variables (lines 9757-9933)

    Cells that [tidesdb_refresh_status_vars] fills from the engine; SHOW GLOBAL STATUS reads the
    cells through the table. *)

Inductive status_value := SHOW_CHAR_PTR (s : string) | SHOW_LONGLONG (n : Z) | SHOW_DOUBLE (text : list Z).

Record status_cells := mk_cells {
  srv_stat_column_families : Z; srv_stat_global_seq : Z; srv_stat_memtable_bytes : Z; srv_stat_txn_memory_bytes : Z;
  srv_stat_total_sstables : Z; srv_stat_open_sstables : Z; srv_stat_data_size_bytes : Z; srv_stat_immutable_memtables : Z;
  srv_stat_compaction_queue : Z; srv_stat_writes_throttled : Z; srv_stat_writes_blocked : Z; srv_stat_write_stall_us : Z;
  srv_stat_write_stall_ceiling_hits : Z; srv_stat_vlog_live_bytes : Z; srv_stat_vlog_dead_bytes : Z; srv_stat_vlog_segments : Z;
  srv_stat_vlog_segments_drainable : Z; srv_stat_cache_entries : Z; srv_stat_cache_bytes : Z; srv_stat_cache_hits : Z;
  srv_stat_cache_misses : Z; srv_stat_cache_hit_rate : list Z; srv_stat_cache_partitions : Z; srv_stat_tombstones : tomb_figures
}.

Definition TIDESQL_VERSION_STR : string := "4.4.0".
Definition TIDESQL_VERSION_HEX : Z := 263168.

(** The table, as what each entry shows; [perf] is TIDESDB_PERF. *)
Definition tidesdb_status_variables (perf : bool) (v : status_cells) : list (string * status_value) :=
  [("tidesdb_version", SHOW_CHAR_PTR TIDESQL_VERSION_STR);
   ("tidesdb_version_hex", SHOW_LONGLONG TIDESQL_VERSION_HEX);
   ("tidesdb_perf_compiled", SHOW_LONGLONG (Z.b2z perf));
   ("tidesdb_column_families", SHOW_LONGLONG (srv_stat_column_families v));
   ("tidesdb_global_sequence", SHOW_LONGLONG (srv_stat_global_seq v));
   ("tidesdb_memtable_bytes", SHOW_LONGLONG (srv_stat_memtable_bytes v));
   ("tidesdb_txn_memory_bytes", SHOW_LONGLONG (srv_stat_txn_memory_bytes v));
   ("tidesdb_total_sstables", SHOW_LONGLONG (srv_stat_total_sstables v));
   ("tidesdb_open_sstables", SHOW_LONGLONG (srv_stat_open_sstables v));
   ("tidesdb_data_size_bytes", SHOW_LONGLONG (srv_stat_data_size_bytes v));
   ("tidesdb_immutable_memtables", SHOW_LONGLONG (srv_stat_immutable_memtables v));
   ("tidesdb_compaction_queue", SHOW_LONGLONG (srv_stat_compaction_queue v));
   ("tidesdb_writes_throttled", SHOW_LONGLONG (srv_stat_writes_throttled v));
   ("tidesdb_writes_blocked", SHOW_LONGLONG (srv_stat_writes_blocked v));
   ("tidesdb_write_stall_us", SHOW_LONGLONG (srv_stat_write_stall_us v));
   ("tidesdb_write_stall_ceiling_hits", SHOW_LONGLONG (srv_stat_write_stall_ceiling_hits v));
   ("tidesdb_vlog_live_bytes", SHOW_LONGLONG (srv_stat_vlog_live_bytes v));
   ("tidesdb_vlog_dead_bytes", SHOW_LONGLONG (srv_stat_vlog_dead_bytes v));
   ("tidesdb_vlog_segments", SHOW_LONGLONG (srv_stat_vlog_segments v));
   ("tidesdb_vlog_segments_drainable", SHOW_LONGLONG (srv_stat_vlog_segments_drainable v));
   ("tidesdb_cache_entries", SHOW_LONGLONG (srv_stat_cache_entries v));
   ("tidesdb_cache_bytes", SHOW_LONGLONG (srv_stat_cache_bytes v));
   ("tidesdb_cache_hits", SHOW_LONGLONG (srv_stat_cache_hits v));
   ("tidesdb_cache_misses", SHOW_LONGLONG (srv_stat_cache_misses v));
   ("tidesdb_cache_hit_rate", SHOW_DOUBLE (srv_stat_cache_hit_rate v));
   ("tidesdb_cache_partitions", SHOW_LONGLONG (srv_stat_cache_partitions v));
   ("tidesdb_total_tombstones", SHOW_LONGLONG (t_total (srv_stat_tombstones v)));
   ("tidesdb_tombstone_ratio", SHOW_DOUBLE (t_ratio (srv_stat_tombstones v)));
   ("tidesdb_max_sst_tombstone_density", SHOW_DOUBLE (t_density (srv_stat_tombstones v)));
   ("tidesdb_max_sst_tombstone_density_level", SHOW_LONGLONG (t_level (srv_stat_tombstones v)))]%string.

(** [tombs] is [None] when the families cannot be listed. *)
Definition tidesdb_refresh_status_vars (engine : option (db_stats * cache_stats)) (tombs : option tomb_figures) (v : status_cells) : status_cells :=
  match engine with
  | None => v
  | Some (d, c) =>
    mk_cells (num_column_families d) (i64 (global_seq d)) (i64 (memtable_bytes d)) (i64 (txn_memory_bytes d)) (total_sstable_count d)
      (num_open_sstables d) (i64 (total_data_size_bytes d)) (immutable_memtable_count d) (i64 (compaction_pending_count d))
      (i64 (writes_throttled d)) (i64 (writes_blocked d)) (i64 (write_stall_us d)) (i64 (write_stall_ceiling_hits d))
      (i64 (vlog_live_bytes d)) (i64 (vlog_dead_bytes d)) (i64 (vlog_segment_count d)) (i64 (vlog_segments_drainable d))
      (i64 (c_entries c)) (i64 (c_bytes c)) (i64 (c_hits c)) (i64 (c_misses c)) (c_hit_rate c) (i64 (c_partitions c))
      (default (srv_stat_tombstones v) tombs)
  end.

(** What a line of the report shows as figures. *)
Definition figures (l : bool * list piece) : list status_value :=
  l.2 ≫= fun p => match p with Num n => [SHOW_LONGLONG n] | Flt x => [SHOW_DOUBLE x] | _ => [] end.

Lemma i64_same n : fits_i64 n -> i64 n = n.
Proof. unfold fits_i64, i64. intros H. rewrite Z.mod_small; lia. Qed.

Record figures_fit (d : db_stats) (c : cache_stats) : Prop := {
  ff_db : Forall fits_i64 [global_seq d; memtable_bytes d; txn_memory_bytes d; total_data_size_bytes d; compaction_pending_count d; writes_throttled d;
                            writes_blocked d; write_stall_us d; write_stall_ceiling_hits d; vlog_live_bytes d; vlog_dead_bytes d; vlog_segment_count d;
                            vlog_segments_drainable d];
  ff_cache : Forall fits_i64 [c_entries c; c_bytes c; c_hits c; c_misses c; c_partitions c]
}.

(** The two reports agree: after a refresh every figure of the status report, except the counts of
    flushes and compactions, is that of a status variable, and their names are distinct. *)
Lemma status_variables_agree path unified perf d c t v : figures_fit d c ->
  let shown := tidesdb_status_variables perf (tidesdb_refresh_status_vars (Some (d, c)) (Some t) v) in
  NoDup shown.*1 /\
  forall f, f ∈ report_lines path unified d c t ≫= figures -> f ∈ shown.*2 \/ f = SHOW_LONGLONG (flush_count d) \/ f = SHOW_LONGLONG (compaction_count d).
Proof.
  intros [Hd Hc]. cbv zeta. split; [cbn [tidesdb_status_variables fmap list_fmap fst]; apply (bool_decide_unpack _); vm_compute; exact I|].
  decompose_Forall_hyps.
  unfold tidesdb_refresh_status_vars, tidesdb_status_variables. cbn -[i64 TIDESQL_VERSION_STR TIDESQL_VERSION_HEX].
  rewrite !i64_same by assumption.
  intros f Hf. repeat (apply elem_of_cons in Hf as [->|Hf]; [first [by right; left|by right; right|left; repeat first [apply list_elem_of_here|apply list_elem_of_further]]|]). by apply not_elem_of_nil in Hf.
Qed.
