(* ===== verification/SysVars.v ===== *)
(** * System variables (ha_tidesdb.cc 379-1104, 1355-1531; a build with TIDESDB_PERF)

    The declarations of the plugin's variables in the order of the registration, what the server
    does with them, and the cells that the update hooks keep beside them: the action for orphans,
    the switch, directory and interval of the performance counters, stop words and blend
    characters.  Values of the command line and of option files reach the variables before
    [tidesdb_init_func] and no hook sees them.  The server's own part is a parameter: integers
    and doubles are adjusted to the declared range. *)

From Stdlib Require Import ZArith Lia String QArith.
From stdpp Require Import base tactics list numbers strings gmap sets.
From S2P Require Import Prelude Errors Paths Options Tokenizer AtomicDdl CfNames PerfRing Startup.
Open Scope list_scope.
Open Scope Z_scope.

(** ** Declarations *)

Inductive plugin_var_flag :=
| PLUGIN_VAR_RQCMDARG | PLUGIN_VAR_OPCMDARG | PLUGIN_VAR_READONLY | PLUGIN_VAR_MEMALLOC | PLUGIN_VAR_NOSYSVAR.

#[export] Instance plugin_var_flag_eq_dec : EqDecision plugin_var_flag.
Proof. solve_decision. Defined.

Inductive check_hook := NoCheck | BackupDirCheck | CheckpointDirCheck.

Inductive update_hook :=
| NoUpdate | BackupDirUpdate | CheckpointDirUpdate | StopwordTableUpdate | BlendCharsUpdate | PromotePrimaryUpdate
| OrphanActionUpdate | PerfCaptureUpdate | PerfOutputDirUpdate.

#[export] Instance update_hook_eq_dec : EqDecision update_hook.
Proof. solve_decision. Defined.

(** Type, default and range; the last number of an integer is its block size. *)
Inductive var_type :=
| TInt (dflt lo hi block : Z)
| TBool (dflt : bool)
| TEnum (dflt : nat) (names : list string)
| TDouble (dflt lo hi : Q)
| TStr (dflt : option string).

Record SYS_VAR := mk_var {
  v_name : string;
  v_session : bool;
  v_flags : list plugin_var_flag;
  v_check : check_hook;
  v_update : update_hook;
  v_type : var_type
}.

Definition MYSQL_SYSVAR_ULONG n fl c u d lo hi b : SYS_VAR := mk_var n false fl c u (TInt d lo hi b).
Definition MYSQL_SYSVAR_ULONGLONG n fl c u d lo hi b : SYS_VAR := mk_var n false fl c u (TInt d lo hi b).
Definition MYSQL_SYSVAR_BOOL n fl c u d : SYS_VAR := mk_var n false fl c u (TBool d).
Definition MYSQL_SYSVAR_ENUM n fl c u d names : SYS_VAR := mk_var n false fl c u (TEnum d names).
Definition MYSQL_SYSVAR_DOUBLE n fl c u d lo hi : SYS_VAR := mk_var n false fl c u (TDouble d lo hi).
Definition MYSQL_SYSVAR_STR n fl c u d : SYS_VAR := mk_var n false fl c u (TStr d).
Definition MYSQL_THDVAR_ULONGLONG n fl c u d lo hi b : SYS_VAR := mk_var n true fl c u (TInt d lo hi b).
Definition MYSQL_THDVAR_BOOL n fl c u d : SYS_VAR := mk_var n true fl c u (TBool d).
Definition MYSQL_THDVAR_ENUM n fl c u d names : SYS_VAR := mk_var n true fl c u (TEnum d names).

Definition ULONGLONG_MAX : Z := 2 ^ 64 - 1.
Definition TIDESDB_DEFAULT_BLOCK_CACHE : Z := 256 * 1024 * 1024.

Open Scope string_scope.

Definition compression_names : list string := ["NONE"; "SNAPPY"; "LZ4"; "ZSTD"; "LZ4_FAST"].
Definition sync_mode_names : list string := ["NONE"; "INTERVAL"; "FULL"].
Definition isolation_level_names : list string := ["READ_UNCOMMITTED"; "READ_COMMITTED"; "REPEATABLE_READ"; "SNAPSHOT"; "SERIALIZABLE"].
Definition log_level_names : list string := ["DEBUG"; "INFO"; "WARN"; "ERROR"; "FATAL"; "NONE"].
Definition tidesdb_orphan_action_names : list string := ["drop"; "quarantine"; "log_only"].
Definition tidesdb_legacy_compat_names : list string := ["strict"; "warn"].
Definition object_store_backend_names : list string := ["LOCAL"; "S3"].

Definition mysql_sysvar_ttl : SYS_VAR :=
  MYSQL_THDVAR_ULONGLONG "ttl" [PLUGIN_VAR_RQCMDARG] NoCheck NoUpdate 0 0 ULONGLONG_MAX 0.
Definition mysql_sysvar_skip_unique_check : SYS_VAR :=
  MYSQL_THDVAR_BOOL "skip_unique_check" [PLUGIN_VAR_RQCMDARG] NoCheck NoUpdate false.
Definition mysql_sysvar_compact_after_range_delete_min_rows : SYS_VAR :=
  MYSQL_THDVAR_ULONGLONG "compact_after_range_delete_min_rows" [PLUGIN_VAR_RQCMDARG] NoCheck NoUpdate 0 0 ULONGLONG_MAX 1.
Definition mysql_sysvar_single_delete_primary : SYS_VAR :=
  MYSQL_THDVAR_BOOL "single_delete_primary" [PLUGIN_VAR_RQCMDARG] NoCheck NoUpdate false.
Definition mysql_sysvar_default_compression : SYS_VAR :=
  MYSQL_THDVAR_ENUM "default_compression" [PLUGIN_VAR_RQCMDARG] NoCheck NoUpdate 2 compression_names.
Definition mysql_sysvar_default_write_buffer_size : SYS_VAR :=
  MYSQL_THDVAR_ULONGLONG "default_write_buffer_size" [PLUGIN_VAR_RQCMDARG] NoCheck NoUpdate (128 * 1024 * 1024) 1024 ULONGLONG_MAX 1024.
Definition mysql_sysvar_default_bloom_filter : SYS_VAR :=
  MYSQL_THDVAR_BOOL "default_bloom_filter" [PLUGIN_VAR_RQCMDARG] NoCheck NoUpdate true.
Definition mysql_sysvar_default_use_btree : SYS_VAR :=
  MYSQL_THDVAR_BOOL "default_use_btree" [PLUGIN_VAR_RQCMDARG] NoCheck NoUpdate false.
Definition mysql_sysvar_default_block_indexes : SYS_VAR :=
  MYSQL_THDVAR_BOOL "default_block_indexes" [PLUGIN_VAR_RQCMDARG] NoCheck NoUpdate true.
Definition mysql_sysvar_default_sync_mode : SYS_VAR :=
  MYSQL_THDVAR_ENUM "default_sync_mode" [PLUGIN_VAR_RQCMDARG] NoCheck NoUpdate 2 sync_mode_names.
Definition mysql_sysvar_default_sync_interval_us : SYS_VAR :=
  MYSQL_THDVAR_ULONGLONG "default_sync_interval_us" [PLUGIN_VAR_RQCMDARG] NoCheck NoUpdate 128000 0 ULONGLONG_MAX 1.
Definition mysql_sysvar_default_bloom_fpr : SYS_VAR :=
  MYSQL_THDVAR_ULONGLONG "default_bloom_fpr" [PLUGIN_VAR_RQCMDARG] NoCheck NoUpdate 100 1 10000 1.
Definition mysql_sysvar_default_klog_value_threshold : SYS_VAR :=
  MYSQL_THDVAR_ULONGLONG "default_klog_value_threshold" [PLUGIN_VAR_RQCMDARG] NoCheck NoUpdate 512 0 ULONGLONG_MAX 1.
Definition mysql_sysvar_default_l0_queue_stall_threshold : SYS_VAR :=
  MYSQL_THDVAR_ULONGLONG "default_l0_queue_stall_threshold" [PLUGIN_VAR_RQCMDARG] NoCheck NoUpdate 10 1 1024 1.
Definition mysql_sysvar_default_l1_file_count_trigger : SYS_VAR :=
  MYSQL_THDVAR_ULONGLONG "default_l1_file_count_trigger" [PLUGIN_VAR_RQCMDARG] NoCheck NoUpdate 4 1 1024 1.
Definition mysql_sysvar_default_level_size_ratio : SYS_VAR :=
  MYSQL_THDVAR_ULONGLONG "default_level_size_ratio" [PLUGIN_VAR_RQCMDARG] NoCheck NoUpdate 10 2 100 1.
Definition mysql_sysvar_default_min_levels : SYS_VAR :=
  MYSQL_THDVAR_ULONGLONG "default_min_levels" [PLUGIN_VAR_RQCMDARG] NoCheck NoUpdate 5 1 64 1.
Definition mysql_sysvar_default_dividing_level_offset : SYS_VAR :=
  MYSQL_THDVAR_ULONGLONG "default_dividing_level_offset" [PLUGIN_VAR_RQCMDARG] NoCheck NoUpdate 2 0 64 1.
Definition mysql_sysvar_default_skip_list_max_level : SYS_VAR :=
  MYSQL_THDVAR_ULONGLONG "default_skip_list_max_level" [PLUGIN_VAR_RQCMDARG] NoCheck NoUpdate 12 1 64 1.
Definition mysql_sysvar_default_skip_list_probability : SYS_VAR :=
  MYSQL_THDVAR_ULONGLONG "default_skip_list_probability" [PLUGIN_VAR_RQCMDARG] NoCheck NoUpdate 25 1 100 1.
Definition mysql_sysvar_default_index_sample_ratio : SYS_VAR :=
  MYSQL_THDVAR_ULONGLONG "default_index_sample_ratio" [PLUGIN_VAR_RQCMDARG] NoCheck NoUpdate 1 1 1024 1.
Definition mysql_sysvar_default_block_index_prefix_len : SYS_VAR :=
  MYSQL_THDVAR_ULONGLONG "default_block_index_prefix_len" [PLUGIN_VAR_RQCMDARG] NoCheck NoUpdate 16 1 256 1.
Definition mysql_sysvar_default_min_disk_space : SYS_VAR :=
  MYSQL_THDVAR_ULONGLONG "default_min_disk_space" [PLUGIN_VAR_RQCMDARG] NoCheck NoUpdate (100 * 1024 * 1024) 0 ULONGLONG_MAX 1024.
Definition mysql_sysvar_default_object_lazy_compaction : SYS_VAR :=
  MYSQL_THDVAR_BOOL "default_object_lazy_compaction" [PLUGIN_VAR_RQCMDARG] NoCheck NoUpdate false.
Definition mysql_sysvar_default_object_prefetch_compaction : SYS_VAR :=
  MYSQL_THDVAR_BOOL "default_object_prefetch_compaction" [PLUGIN_VAR_RQCMDARG] NoCheck NoUpdate true.
Definition mysql_sysvar_default_tombstone_density_trigger : SYS_VAR :=
  MYSQL_THDVAR_ULONGLONG "default_tombstone_density_trigger" [PLUGIN_VAR_RQCMDARG] NoCheck NoUpdate 0 0 10000 1.
Definition mysql_sysvar_default_tombstone_density_min_entries : SYS_VAR :=
  MYSQL_THDVAR_ULONGLONG "default_tombstone_density_min_entries" [PLUGIN_VAR_RQCMDARG] NoCheck NoUpdate 1024 0 ULONGLONG_MAX 1.
Definition mysql_sysvar_default_isolation_level : SYS_VAR :=
  MYSQL_THDVAR_ENUM "default_isolation_level" [PLUGIN_VAR_RQCMDARG] NoCheck NoUpdate 2 isolation_level_names.
Definition mysql_sysvar_flush_threads : SYS_VAR :=
  MYSQL_SYSVAR_ULONG "flush_threads" [PLUGIN_VAR_RQCMDARG; PLUGIN_VAR_READONLY] NoCheck NoUpdate 4 1 64 0.
Definition mysql_sysvar_compaction_threads : SYS_VAR :=
  MYSQL_SYSVAR_ULONG "compaction_threads" [PLUGIN_VAR_RQCMDARG; PLUGIN_VAR_READONLY] NoCheck NoUpdate 4 1 64 0.
Definition mysql_sysvar_log_level : SYS_VAR :=
  MYSQL_SYSVAR_ENUM "log_level" [PLUGIN_VAR_RQCMDARG; PLUGIN_VAR_READONLY] NoCheck NoUpdate 0 log_level_names.
Definition mysql_sysvar_print_all_conflicts : SYS_VAR :=
  MYSQL_SYSVAR_BOOL "print_all_conflicts" [PLUGIN_VAR_RQCMDARG] NoCheck NoUpdate false.
Definition mysql_sysvar_atomic_ddl_strict : SYS_VAR :=
  MYSQL_SYSVAR_BOOL "atomic_ddl_strict" [PLUGIN_VAR_OPCMDARG] NoCheck NoUpdate true.
Definition mysql_sysvar_legacy_compat : SYS_VAR :=
  MYSQL_SYSVAR_ENUM "legacy_compat" [PLUGIN_VAR_RQCMDARG] NoCheck NoUpdate 0 tidesdb_legacy_compat_names.
Definition mysql_sysvar_orphan_action : SYS_VAR :=
  MYSQL_SYSVAR_ENUM "orphan_action" [PLUGIN_VAR_RQCMDARG] NoCheck OrphanActionUpdate 1 tidesdb_orphan_action_names.
Definition mysql_sysvar_perf_capture : SYS_VAR :=
  MYSQL_SYSVAR_BOOL "perf_capture" [PLUGIN_VAR_OPCMDARG] NoCheck PerfCaptureUpdate false.
Definition mysql_sysvar_perf_output_dir : SYS_VAR :=
  MYSQL_SYSVAR_STR "perf_output_dir" [PLUGIN_VAR_OPCMDARG; PLUGIN_VAR_MEMALLOC] NoCheck PerfOutputDirUpdate (Some "/var/lib/mysql/tidesdb-perf").
Definition mysql_sysvar_perf_ring_capacity_pow2 : SYS_VAR :=
  MYSQL_SYSVAR_ULONG "perf_ring_capacity_pow2" [PLUGIN_VAR_READONLY] NoCheck NoUpdate 16 8 24 1.
Definition mysql_sysvar_perf_flush_interval_ms : SYS_VAR :=
  MYSQL_SYSVAR_ULONG "perf_flush_interval_ms" [PLUGIN_VAR_OPCMDARG] NoCheck NoUpdate 1000 100 60000 1.
Definition mysql_sysvar_pessimistic_locking : SYS_VAR :=
  MYSQL_SYSVAR_BOOL "pessimistic_locking" [PLUGIN_VAR_RQCMDARG] NoCheck NoUpdate false.
Definition mysql_sysvar_fts_min_word_len : SYS_VAR :=
  MYSQL_SYSVAR_ULONG "fts_min_word_len" [PLUGIN_VAR_RQCMDARG] NoCheck NoUpdate 3 1 84 0.
Definition mysql_sysvar_fts_max_word_len : SYS_VAR :=
  MYSQL_SYSVAR_ULONG "fts_max_word_len" [PLUGIN_VAR_RQCMDARG] NoCheck NoUpdate 84 1 512 0.
Definition mysql_sysvar_fts_bm25_k1 : SYS_VAR :=
  MYSQL_SYSVAR_DOUBLE "fts_bm25_k1" [PLUGIN_VAR_RQCMDARG] NoCheck NoUpdate (12 # 10) 0 10.
Definition mysql_sysvar_fts_bm25_b : SYS_VAR :=
  MYSQL_SYSVAR_DOUBLE "fts_bm25_b" [PLUGIN_VAR_RQCMDARG] NoCheck NoUpdate (75 # 100) 0 1.
Definition mysql_sysvar_fts_blend_chars : SYS_VAR :=
  MYSQL_SYSVAR_STR "fts_blend_chars" [PLUGIN_VAR_RQCMDARG; PLUGIN_VAR_MEMALLOC] NoCheck BlendCharsUpdate None.
Definition mysql_sysvar_ft_stopword_table : SYS_VAR :=
  MYSQL_SYSVAR_STR "ft_stopword_table" [PLUGIN_VAR_RQCMDARG; PLUGIN_VAR_MEMALLOC] NoCheck StopwordTableUpdate None.
Definition mysql_sysvar_block_cache_size : SYS_VAR :=
  MYSQL_SYSVAR_ULONGLONG "block_cache_size" [PLUGIN_VAR_RQCMDARG; PLUGIN_VAR_READONLY] NoCheck NoUpdate TIDESDB_DEFAULT_BLOCK_CACHE 0 ULONGLONG_MAX 0.
Definition mysql_sysvar_max_open_sstables : SYS_VAR :=
  MYSQL_SYSVAR_ULONG "max_open_sstables" [PLUGIN_VAR_RQCMDARG; PLUGIN_VAR_READONLY] NoCheck NoUpdate 256 1 65536 0.
Definition mysql_sysvar_max_memory_usage : SYS_VAR :=
  MYSQL_SYSVAR_ULONGLONG "max_memory_usage" [PLUGIN_VAR_RQCMDARG; PLUGIN_VAR_READONLY] NoCheck NoUpdate 0 0 ULONGLONG_MAX 0.
Definition mysql_sysvar_log_to_file : SYS_VAR :=
  MYSQL_SYSVAR_BOOL "log_to_file" [PLUGIN_VAR_RQCMDARG; PLUGIN_VAR_READONLY] NoCheck NoUpdate true.
Definition mysql_sysvar_log_truncation_at : SYS_VAR :=
  MYSQL_SYSVAR_ULONGLONG "log_truncation_at" [PLUGIN_VAR_RQCMDARG; PLUGIN_VAR_READONLY] NoCheck NoUpdate (24 * 1024 * 1024) 0 ULONGLONG_MAX 0.
Definition mysql_sysvar_fast_mode : SYS_VAR :=
  MYSQL_SYSVAR_BOOL "fast_mode" [PLUGIN_VAR_RQCMDARG; PLUGIN_VAR_READONLY] NoCheck NoUpdate false.
Definition mysql_sysvar_unified_memtable : SYS_VAR :=
  MYSQL_SYSVAR_BOOL "unified_memtable" [PLUGIN_VAR_RQCMDARG; PLUGIN_VAR_READONLY] NoCheck NoUpdate false.
Definition mysql_sysvar_unified_memtable_write_buffer_size : SYS_VAR :=
  MYSQL_SYSVAR_ULONGLONG "unified_memtable_write_buffer_size" [PLUGIN_VAR_RQCMDARG; PLUGIN_VAR_READONLY] NoCheck NoUpdate (128 * 1024 * 1024) 0 ULONGLONG_MAX 0.
Definition mysql_sysvar_unified_memtable_sync_mode : SYS_VAR :=
  MYSQL_SYSVAR_ENUM "unified_memtable_sync_mode" [PLUGIN_VAR_RQCMDARG; PLUGIN_VAR_READONLY] NoCheck NoUpdate 2 sync_mode_names.
Definition mysql_sysvar_unified_memtable_sync_interval : SYS_VAR :=
  MYSQL_SYSVAR_ULONGLONG "unified_memtable_sync_interval" [PLUGIN_VAR_RQCMDARG; PLUGIN_VAR_READONLY] NoCheck NoUpdate 128000 0 ULONGLONG_MAX 0.
Definition mysql_sysvar_data_home_dir : SYS_VAR :=
  MYSQL_SYSVAR_STR "data_home_dir" [PLUGIN_VAR_RQCMDARG; PLUGIN_VAR_READONLY] NoCheck NoUpdate None.
Definition mysql_sysvar_master_key_file : SYS_VAR :=
  MYSQL_SYSVAR_STR "master_key_file" [PLUGIN_VAR_RQCMDARG; PLUGIN_VAR_READONLY] NoCheck NoUpdate None.
Definition mysql_sysvar_object_store_backend : SYS_VAR :=
  MYSQL_SYSVAR_ENUM "object_store_backend" [PLUGIN_VAR_RQCMDARG; PLUGIN_VAR_READONLY] NoCheck NoUpdate 0 object_store_backend_names.
Definition mysql_sysvar_s3_endpoint : SYS_VAR :=
  MYSQL_SYSVAR_STR "s3_endpoint" [PLUGIN_VAR_RQCMDARG; PLUGIN_VAR_READONLY] NoCheck NoUpdate None.
Definition mysql_sysvar_s3_bucket : SYS_VAR :=
  MYSQL_SYSVAR_STR "s3_bucket" [PLUGIN_VAR_RQCMDARG; PLUGIN_VAR_READONLY] NoCheck NoUpdate None.
Definition mysql_sysvar_s3_prefix : SYS_VAR :=
  MYSQL_SYSVAR_STR "s3_prefix" [PLUGIN_VAR_RQCMDARG; PLUGIN_VAR_READONLY] NoCheck NoUpdate None.
Definition mysql_sysvar_s3_access_key : SYS_VAR :=
  MYSQL_SYSVAR_STR "s3_access_key" [PLUGIN_VAR_RQCMDARG; PLUGIN_VAR_READONLY; PLUGIN_VAR_NOSYSVAR] NoCheck NoUpdate None.
Definition mysql_sysvar_s3_secret_key : SYS_VAR :=
  MYSQL_SYSVAR_STR "s3_secret_key" [PLUGIN_VAR_RQCMDARG; PLUGIN_VAR_READONLY; PLUGIN_VAR_NOSYSVAR] NoCheck NoUpdate None.
Definition mysql_sysvar_s3_region : SYS_VAR :=
  MYSQL_SYSVAR_STR "s3_region" [PLUGIN_VAR_RQCMDARG; PLUGIN_VAR_READONLY] NoCheck NoUpdate None.
Definition mysql_sysvar_s3_use_ssl : SYS_VAR :=
  MYSQL_SYSVAR_BOOL "s3_use_ssl" [PLUGIN_VAR_RQCMDARG; PLUGIN_VAR_READONLY] NoCheck NoUpdate true.
Definition mysql_sysvar_s3_path_style : SYS_VAR :=
  MYSQL_SYSVAR_BOOL "s3_path_style" [PLUGIN_VAR_RQCMDARG; PLUGIN_VAR_READONLY] NoCheck NoUpdate false.
Definition mysql_sysvar_objstore_local_cache_max : SYS_VAR :=
  MYSQL_SYSVAR_ULONGLONG "objstore_local_cache_max" [PLUGIN_VAR_RQCMDARG; PLUGIN_VAR_READONLY] NoCheck NoUpdate 0 0 ULONGLONG_MAX 0.
Definition mysql_sysvar_objstore_wal_sync_threshold : SYS_VAR :=
  MYSQL_SYSVAR_ULONGLONG "objstore_wal_sync_threshold" [PLUGIN_VAR_RQCMDARG; PLUGIN_VAR_READONLY] NoCheck NoUpdate 1048576 0 ULONGLONG_MAX 0.
Definition mysql_sysvar_objstore_wal_sync_on_commit : SYS_VAR :=
  MYSQL_SYSVAR_BOOL "objstore_wal_sync_on_commit" [PLUGIN_VAR_RQCMDARG; PLUGIN_VAR_READONLY] NoCheck NoUpdate false.
Definition mysql_sysvar_replica_mode : SYS_VAR :=
  MYSQL_SYSVAR_BOOL "replica_mode" [PLUGIN_VAR_RQCMDARG; PLUGIN_VAR_READONLY] NoCheck NoUpdate false.
Definition mysql_sysvar_replica_sync_interval : SYS_VAR :=
  MYSQL_SYSVAR_ULONGLONG "replica_sync_interval" [PLUGIN_VAR_RQCMDARG; PLUGIN_VAR_READONLY] NoCheck NoUpdate 5000000 100000 ULONGLONG_MAX 0.
Definition mysql_sysvar_promote_primary : SYS_VAR :=
  MYSQL_SYSVAR_BOOL "promote_primary" [PLUGIN_VAR_RQCMDARG] NoCheck PromotePrimaryUpdate false.
Definition mysql_sysvar_backup_allowed_root : SYS_VAR :=
  MYSQL_SYSVAR_STR "backup_allowed_root" [PLUGIN_VAR_RQCMDARG; PLUGIN_VAR_READONLY] NoCheck NoUpdate None.
Definition mysql_sysvar_backup_dir : SYS_VAR :=
  MYSQL_SYSVAR_STR "backup_dir" [PLUGIN_VAR_RQCMDARG; PLUGIN_VAR_MEMALLOC] BackupDirCheck BackupDirUpdate None.
Definition mysql_sysvar_checkpoint_dir : SYS_VAR :=
  MYSQL_SYSVAR_STR "checkpoint_dir" [PLUGIN_VAR_RQCMDARG; PLUGIN_VAR_MEMALLOC] CheckpointDirCheck CheckpointDirUpdate None.

(** The registration. *)
Definition tidesdb_system_variables : list SYS_VAR :=
  [ mysql_sysvar_flush_threads;
    mysql_sysvar_compaction_threads;
    mysql_sysvar_log_level;
    mysql_sysvar_block_cache_size;
    mysql_sysvar_max_open_sstables;
    mysql_sysvar_max_memory_usage;
    mysql_sysvar_backup_dir;
    mysql_sysvar_checkpoint_dir;
    mysql_sysvar_backup_allowed_root;
    mysql_sysvar_print_all_conflicts;
    mysql_sysvar_pessimistic_locking;
    mysql_sysvar_fts_min_word_len;
    mysql_sysvar_fts_max_word_len;
    mysql_sysvar_fts_bm25_k1;
    mysql_sysvar_fts_bm25_b;
    mysql_sysvar_ft_stopword_table;
    mysql_sysvar_fts_blend_chars;
    mysql_sysvar_data_home_dir;
    mysql_sysvar_master_key_file;
    mysql_sysvar_ttl;
    mysql_sysvar_skip_unique_check;
    mysql_sysvar_single_delete_primary;
    mysql_sysvar_compact_after_range_delete_min_rows;
    mysql_sysvar_default_compression;
    mysql_sysvar_default_write_buffer_size;
    mysql_sysvar_default_bloom_filter;
    mysql_sysvar_default_use_btree;
    mysql_sysvar_default_block_indexes;
    mysql_sysvar_default_sync_mode;
    mysql_sysvar_default_sync_interval_us;
    mysql_sysvar_default_bloom_fpr;
    mysql_sysvar_default_klog_value_threshold;
    mysql_sysvar_default_l0_queue_stall_threshold;
    mysql_sysvar_default_l1_file_count_trigger;
    mysql_sysvar_default_level_size_ratio;
    mysql_sysvar_default_min_levels;
    mysql_sysvar_default_dividing_level_offset;
    mysql_sysvar_default_skip_list_max_level;
    mysql_sysvar_default_skip_list_probability;
    mysql_sysvar_default_index_sample_ratio;
    mysql_sysvar_default_block_index_prefix_len;
    mysql_sysvar_default_min_disk_space;
    mysql_sysvar_default_isolation_level;
    mysql_sysvar_log_to_file;
    mysql_sysvar_log_truncation_at;
    mysql_sysvar_fast_mode;
    mysql_sysvar_unified_memtable;
    mysql_sysvar_unified_memtable_write_buffer_size;
    mysql_sysvar_unified_memtable_sync_mode;
    mysql_sysvar_unified_memtable_sync_interval;
    mysql_sysvar_object_store_backend;
    mysql_sysvar_s3_endpoint;
    mysql_sysvar_s3_bucket;
    mysql_sysvar_s3_prefix;
    mysql_sysvar_s3_access_key;
    mysql_sysvar_s3_secret_key;
    mysql_sysvar_s3_region;
    mysql_sysvar_s3_use_ssl;
    mysql_sysvar_s3_path_style;
    mysql_sysvar_objstore_local_cache_max;
    mysql_sysvar_objstore_wal_sync_threshold;
    mysql_sysvar_objstore_wal_sync_on_commit;
    mysql_sysvar_replica_mode;
    mysql_sysvar_replica_sync_interval;
    mysql_sysvar_promote_primary;
    mysql_sysvar_default_object_lazy_compaction;
    mysql_sysvar_default_object_prefetch_compaction;
    mysql_sysvar_default_tombstone_density_trigger;
    mysql_sysvar_default_tombstone_density_min_entries;
    mysql_sysvar_atomic_ddl_strict;
    mysql_sysvar_legacy_compat;
    mysql_sysvar_orphan_action;
    mysql_sysvar_perf_capture;
    mysql_sysvar_perf_output_dir;
    mysql_sysvar_perf_ring_capacity_pow2;
    mysql_sysvar_perf_flush_interval_ms ].

Close Scope string_scope.

Definition has_flag (f : plugin_var_flag) (d : SYS_VAR) : bool := bool_decide (f ∈ v_flags d).

(** ** Values *)

Inductive value := VInt (z : Z) | VBool (b : bool) | VEnum (i : nat) | VDouble (q : Q) | VStr (s : option bytes).

Definition value_ok (t : var_type) (v : value) : bool :=
  match t, v with
  | TInt _ lo hi _, VInt z => (lo <=? z) && (z <=? hi)
  | TBool _, VBool _ => true
  | TEnum _ names, VEnum i => Nat.ltb i (length names)
  | TDouble _ lo hi, VDouble q => Qle_bool lo q && Qle_bool q hi
  | TStr _, VStr _ => true
  | _, _ => false
  end.

Definition default_value (t : var_type) : value :=
  match t with
  | TInt d _ _ _ => VInt d
  | TBool d => VBool d
  | TEnum d _ => VEnum d
  | TDouble d _ _ => VDouble d
  | TStr d => VStr (of_string <$> d)
  end.

Definition find_var (name : string) : option SYS_VAR := List.find (fun d => bool_decide (v_name d = name)) tidesdb_system_variables.

Notation values := (gmap string value).

Definition get_int (m : values) (n : string) : Z := match m !! n with Some (VInt z) => z | _ => 0 end.
Definition get_flag (m : values) (n : string) : bool := match m !! n with Some (VBool b) => b | _ => false end.
Definition get_enum (m : values) (n : string) : nat := match m !! n with Some (VEnum i) => i | _ => 0 end.
Definition get_double (m : values) (n : string) : Q := match m !! n with Some (VDouble q) => q | _ => 0%Q end.
Definition get_str (m : values) (n : string) : option bytes := match m !! n with Some (VStr s) => s | _ => None end.

(** ** Settings *)

Record settings := mk_settings {
  globals : values;
  sessions : gmap nat values;
  g_orphan_action : OrphanAction;
  g_capture_active : bool;
  perf_module : module_state;
  flush_interval_ms : Z;
  stopwords : gset bytes;
  blend_map : list bool
}.

Definition put_global (n : string) (v : value) (st : settings) : settings :=
  mk_settings (<[n := v]> (globals st)) (sessions st) (g_orphan_action st) (g_capture_active st) (perf_module st) (flush_interval_ms st)
    (stopwords st) (blend_map st).

Definition fts_of (st : settings) : fts_globals :=
  mk_fts (Z.to_nat (get_int (globals st) "fts_min_word_len")) (Z.to_nat (get_int (globals st) "fts_max_word_len")) (stopwords st) (blend_map st).

(** What a statement finds outside: the filesystem and the engine for a backup, the session and the
    engine for a table of stop words. *)
Record set_env := mk_senv { se_backup : backup_env; se_trx : option backup_trx; se_len : nat; se_stopwords : stopword_env }.

Inductive set_result := Done | UnknownVariable | ReadOnlyVariable | WrongValue | CheckFailed | ErrorInUpdate.

Definition orphan_action_of (i : nat) : OrphanAction := match i with O => Drop | S O => Quarantine | _ => LogOnly end.

Section Server.

Variable realpath : bytes -> option bytes.

(** The server brings a number into the declared range, and to a multiple of the block size where
    the range has one. *)
Variable fix_int : Z -> Z -> Z -> Z -> Z.
Variable fix_double : Q -> Q -> Q -> Q.

Definition accept_value (t : var_type) (v : value) : option value :=
  match t, v with
  | TInt _ lo hi b, VInt z => Some (VInt (fix_int lo hi b z))
  | TBool _, VBool x => Some (VBool x)
  | TEnum _ names, VEnum i => if Nat.ltb i (length names) then Some (VEnum i) else None
  | TDouble _ lo hi, VDouble q => Some (VDouble (fix_double lo hi q))
  | TStr _, VStr s => Some (VStr s)
  | _, _ => None
  end.

(** *** Hooks *)

(** The value that is stored, [None] for a refusal. *)
Definition run_check (en : set_env) (c : check_hook) (g : values) (v : value) : option value :=
  match c, v with
  | BackupDirCheck, VStr s =>
      let b := se_backup en in
      match (tidesdb_backup_dir_check realpath
               (mk_benv (get_str g "backup_allowed_root") (be_killed b) (be_engine_open b) (be_entries b) (be_backup_rc b))
               (se_trx en) s (se_len en)).1.1 with
      | Accepted save => Some (VStr save)
      | Rejected _ => None
      end
  | CheckpointDirCheck, VStr s => if tidesdb_checkpoint_dir_check s then Some (VStr None) else None
  | _, _ => Some v
  end.

Definition tidesdb_orphan_action_update (n : string) (v : value) (st : settings) : settings :=
  let st := put_global n v st in
  mk_settings (globals st) (sessions st) (orphan_action_of (match v with VEnum i => i | _ => 0%nat end)) (g_capture_active st) (perf_module st)
    (flush_interval_ms st) (stopwords st) (blend_map st).

Definition tidesdb_perf_capture_update (n : string) (v : value) (st : settings) : settings :=
  let st := put_global n v st in
  mk_settings (globals st) (sessions st) (g_orphan_action st) (match v with VBool b => b | _ => false end) (perf_module st)
    (flush_interval_ms st) (stopwords st) (blend_map st).

Definition tidesdb_perf_output_dir_update (n : string) (v : value) (st : settings) : settings :=
  let st := put_global n v st in
  mk_settings (globals st) (sessions st) (g_orphan_action st) (g_capture_active st)
    (PerfRing.set_output_dir (match v with VStr s => s | _ => None end) (perf_module st)) (flush_interval_ms st) (stopwords st) (blend_map st).

Definition with_fts (g : fts_globals) (st : settings) : settings :=
  mk_settings (globals st) (sessions st) (g_orphan_action st) (g_capture_active st) (perf_module st) (flush_interval_ms st)
    (tdb_stopwords g) (tdb_blend_char_map g).

Definition chars_of (v : value) : bytes := match v with VStr (Some s) => s | _ => [] end.

(** Always back to OFF; ON is an error. *)
Definition tidesdb_promote_primary_update (n : string) (v : value) (st : settings) : set_result * settings :=
  (match v with VBool true => ErrorInUpdate | _ => Done end, put_global n (VBool false) st).

Definition run_update (en : set_env) (u : update_hook) (n : string) (v : value) (st : settings) : set_result * settings :=
  match u with
  | NoUpdate | BackupDirUpdate | CheckpointDirUpdate => (Done, put_global n v st)
  | OrphanActionUpdate => (Done, tidesdb_orphan_action_update n v st)
  | PerfCaptureUpdate => (Done, tidesdb_perf_capture_update n v st)
  | PerfOutputDirUpdate => (Done, tidesdb_perf_output_dir_update n v st)
  | BlendCharsUpdate => (Done, with_fts (tdb_fts_blend_chars_update (chars_of v) (fts_of st)) (put_global n v st))
  | StopwordTableUpdate => (Done, with_fts (tdb_ft_stopword_table_update (se_stopwords en) (chars_of v) (fts_of st)).1 (put_global n v st))
  | PromotePrimaryUpdate => tidesdb_promote_primary_update n v st
  end.

(** *** Statements *)

Definition set_global (en : set_env) (n : string) (v : value) (st : settings) : set_result * settings :=
  match find_var n with
  | None => (UnknownVariable, st)
  | Some d =>
    if has_flag PLUGIN_VAR_NOSYSVAR d then (UnknownVariable, st)
    else if has_flag PLUGIN_VAR_READONLY d then (ReadOnlyVariable, st)
    else match accept_value (v_type d) v with
         | None => (WrongValue, st)
         | Some v =>
           match run_check en (v_check d) (globals st) v with
           | None => (CheckFailed, st)
           | Some v => run_update en (v_update d) n v st
           end
         end
  end.

Definition set_session (t : nat) (n : string) (v : value) (st : settings) : set_result * settings :=
  match find_var n, sessions st !! t with
  | Some d, Some s =>
    if v_session d then
      match accept_value (v_type d) v with
      | None => (WrongValue, st)
      | Some v => (Done, mk_settings (globals st) (<[t := <[n := v]> s]> (sessions st)) (g_orphan_action st) (g_capture_active st)
                           (perf_module st) (flush_interval_ms st) (stopwords st) (blend_map st))
      end
    else (UnknownVariable, st)
  | _, _ => (UnknownVariable, st)
  end.

Definition set_sessions (f : gmap nat values -> gmap nat values) (st : settings) : settings :=
  mk_settings (globals st) (f (sessions st)) (g_orphan_action st) (g_capture_active st) (perf_module st) (flush_interval_ms st)
    (stopwords st) (blend_map st).

(** A new connection starts with the global values. *)
Inductive set_event :=
| EConnect (t : nat) | EClose (t : nat)
| ESetGlobal (en : set_env) (n : string) (v : value)
| ESetSession (t : nat) (n : string) (v : value).

Definition exec_event (e : set_event) (st : settings) : settings :=
  match e with
  | EConnect t => set_sessions (insert t (globals st)) st
  | EClose t => set_sessions (delete t) st
  | ESetGlobal en n v => (set_global en n v st).2
  | ESetSession t n v => (set_session t n v st).2
  end.

Definition exec_all (es : list set_event) (st : settings) : settings := foldl (fun st e => exec_event e st) st es.

(** *** Start *)

(** The variables as the options and the defaults leave them. *)
Definition initial_value (opts : values) (d : SYS_VAR) : option value :=
  match opts !! v_name d with Some v => accept_value (v_type d) v | None => Some (default_value (v_type d)) end.

Definition initial_values (opts : values) : option values :=
  l ← mapM (fun d => v ← initial_value opts d; Some (v_name d, v)) tidesdb_system_variables; Some (list_to_map l).

(** The variables that [tidesdb_init_func] reads for the engine. *)
Definition startup_sysvars (m : values) : sysvars :=
  mk_sysvars (get_flag m "fast_mode") (get_flag m "atomic_ddl_strict") (get_str m "data_home_dir") (get_int m "flush_threads")
    (get_int m "compaction_threads") (get_enum m "log_level") (get_int m "block_cache_size") (get_int m "max_open_sstables")
    (get_flag m "log_to_file") (get_int m "log_truncation_at") (get_int m "unified_memtable_write_buffer_size")
    (get_enum m "unified_memtable_sync_mode") (get_int m "unified_memtable_sync_interval") (Z.of_nat (get_enum m "legacy_compat"))
    (Z.of_nat (get_enum m "object_store_backend"))
    ((fun n => default [] (get_str m n)) <$> ["s3_endpoint"; "s3_bucket"; "s3_prefix"; "s3_access_key"; "s3_secret_key"; "s3_region"]%string)
    (get_flag m "s3_path_style") (get_flag m "objstore_wal_sync_on_commit") (get_flag m "replica_mode").

(** The cells after [tidesdb_init_func]: strict mode as fast mode leaves it, the words of
    [tdb_fts_init], the counters as [tidesdb_perf::init] gets them. *)
Definition no_files : module_state := mk_module [] [] ∅ ∅ 0 0 0.

Definition init_settings (pe : perf_env) (m : values) : settings :=
  let g := tdb_fts_init (Z.to_nat (get_int m "fts_min_word_len")) (Z.to_nat (get_int m "fts_max_word_len")) (default [] (get_str m "fts_blend_chars")) in
  mk_settings (<["atomic_ddl_strict"%string := VBool (strict_mode (startup_sysvars m))]> m) ∅ Quarantine (get_flag m "perf_capture")
    (PerfRing.init pe (get_str m "perf_output_dir") no_files) (get_int m "perf_flush_interval_ms")
    (tdb_stopwords g) (tdb_blend_char_map g).

Definition start_server (pe : perf_env) (opts : values) : option settings := m ← initial_values opts; Some (init_settings pe m).

(** The defaults of a session for new tables. *)
Definition session_of (s : values) : session_vars :=
  mk_session (get_int s "default_level_size_ratio") (get_int s "default_min_levels") (get_int s "default_dividing_level_offset")
    (get_int s "default_bloom_fpr") (get_int s "default_l1_file_count_trigger") (Z.of_nat (get_enum s "default_compression"))
    (Z.of_nat (get_enum s "default_isolation_level")) (Z.b2z (get_flag s "default_bloom_filter"))
    (get_int s "default_tombstone_density_trigger") (get_int s "default_tombstone_density_min_entries").


(** ** The declarations *)

Lemma names_distinct : NoDup (v_name <$> tidesdb_system_variables).
Proof. apply (bool_decide_unpack _). vm_compute. exact I. Qed.

Lemma var_unique d d' : d ∈ tidesdb_system_variables -> d' ∈ tidesdb_system_variables -> v_name d = v_name d' -> d = d'.
Proof.
  pose proof names_distinct as Hn. induction tidesdb_system_variables as [|x l IH]; [intros H; by apply not_elem_of_nil in H|].
  cbn in Hn. apply NoDup_cons in Hn as [Hx Hn]. intros [->|Hd]%elem_of_cons [->|Hd']%elem_of_cons Hname; [done| | |by apply IH].
  - destruct Hx. rewrite Hname. by apply (list_elem_of_fmap_2 v_name).
  - destruct Hx. rewrite <- Hname. by apply (list_elem_of_fmap_2 v_name).
Qed.

Lemma find_var_Some n d : find_var n = Some d -> d ∈ tidesdb_system_variables /\ v_name d = n.
Proof. intros [Hin Hb]%List.find_some. apply list_elem_of_In in Hin. by apply bool_decide_eq_true in Hb. Qed.

(** The range of a declaration is not empty, and the default lies in it. *)
Definition decl_ok (d : SYS_VAR) : bool :=
  value_ok (v_type d) (default_value (v_type d)) &&
  match v_type d with TInt _ lo hi _ => lo <=? hi | TDouble _ lo hi => Qle_bool lo hi | _ => true end.

Lemma declarations_ok d : d ∈ tidesdb_system_variables -> decl_ok d = true.
Proof.
  assert (H : forallb decl_ok tidesdb_system_variables = true) by (vm_compute; reflexivity).
  intros Hd%list_elem_of_In. by eapply forallb_forall in H.
Qed.

(** Each hook belongs to one variable. *)
Definition hooks_ok (d : SYS_VAR) : bool :=
  bool_decide (v_update d = PerfCaptureUpdate <-> v_name d = "perf_capture"%string) &&
  bool_decide (v_update d = BlendCharsUpdate <-> v_name d = "fts_blend_chars"%string) &&
  match v_update d, v_type d with PromotePrimaryUpdate, TBool _ => true | PromotePrimaryUpdate, _ => false | _, _ => true end &&
  match v_update d, v_check d with
  | BackupDirUpdate, BackupDirCheck | CheckpointDirUpdate, CheckpointDirCheck => true
  | BackupDirUpdate, _ | CheckpointDirUpdate, _ => false
  | _, NoCheck => true
  | _, _ => false
  end.

Lemma hooks_placed d : d ∈ tidesdb_system_variables ->
  (v_update d = PerfCaptureUpdate <-> v_name d = "perf_capture"%string) /\ (v_update d = BlendCharsUpdate <-> v_name d = "fts_blend_chars"%string) /\
  (v_update d = PromotePrimaryUpdate -> exists b, v_type d = TBool b).
Proof.
  assert (H : forallb hooks_ok tidesdb_system_variables = true) by (vm_compute; reflexivity).
  intros Hd%list_elem_of_In. eapply forallb_forall in H; [|exact Hd]. unfold hooks_ok in H.
  apply andb_true_iff in H as [[[H1 H2]%andb_true_iff H3]%andb_true_iff _]. apply bool_decide_eq_true in H1, H2. split; [done|]. split; [done|].
  intros Hu. rewrite Hu in H3. destruct (v_type d); try done. eauto.
Qed.

(** ** Ranges *)

Hypothesis fix_int_range : forall lo hi b z, lo <= hi -> lo <= fix_int lo hi b z <= hi.
Hypothesis fix_double_range : forall lo hi q, (lo <= hi)%Q -> (lo <= fix_double lo hi q)%Q /\ (fix_double lo hi q <= hi)%Q.

Lemma accept_ok d v v' : d ∈ tidesdb_system_variables -> accept_value (v_type d) v = Some v' -> value_ok (v_type d) v' = true.
Proof.
  intros Hd Ha. apply declarations_ok in Hd. unfold decl_ok in Hd. apply andb_true_iff in Hd as [_ Hr].
  destruct (v_type d) as [df lo hi b|df|df names|df lo hi|df], v; cbn in Ha |- *; try done; try (injection Ha as <-); try done.
  - apply andb_true_iff. pose proof (fix_int_range lo hi b z ltac:(lia)). lia.
  - unfold Nat.ltb in *. cbn. case_match; simplify_eq; done.
  - apply Qle_bool_iff in Hr. destruct (fix_double_range lo hi q Hr) as [H1 H2]. apply andb_true_iff. by rewrite !Qle_bool_iff.
Qed.

Lemma check_ok en c g t v v' : value_ok t v = true -> run_check en c g v = Some v' -> value_ok t v' = true.
Proof.
  intros Hv Hc. destruct c; cbn in Hc; [by injection Hc as <-|..]; destruct v; try (by injection Hc as <-);
    destruct t; try done; by repeat case_match; simplify_eq.
Qed.

Lemma put_global_globals n v st : globals (put_global n v st) = <[n := v]> (globals st).
Proof. done. Qed.

(** What an update leaves in the variable and in the cells. *)
Lemma update_spec en d v st : d ∈ tidesdb_system_variables -> value_ok (v_type d) v = true ->
  let st' := (run_update en (v_update d) (v_name d) v st).2 in
  exists w, value_ok (v_type d) w = true /\ globals st' = <[v_name d := w]> (globals st) /\ sessions st' = sessions st /\
    g_capture_active st' = (if decide (v_name d = "perf_capture"%string) then match w with VBool b => b | _ => false end else g_capture_active st) /\
    blend_map st' = (if decide (v_name d = "fts_blend_chars"%string) then tdb_rebuild_blend_map (chars_of w) else blend_map st).
Proof.
  intros Hd Hv st'. destruct (hooks_placed d Hd) as (Hc & Hb & Hp). subst st'.
  assert (Hnc : v_update d <> PerfCaptureUpdate -> v_name d <> "perf_capture"%string) by tauto.
  assert (Hnb : v_update d <> BlendCharsUpdate -> v_name d <> "fts_blend_chars"%string) by tauto.
  assert (Hcc : v_update d = PerfCaptureUpdate -> v_name d = "perf_capture"%string) by tauto.
  assert (Hbb : v_update d = BlendCharsUpdate -> v_name d = "fts_blend_chars"%string) by tauto. clear Hc Hb.
  destruct (v_update d) eqn:Hu; cbn; try (exists v; split; [done|]; split; [done|]; split; [done|]; rewrite ?decide_False by auto; done).
  - exists v. rewrite !decide_False by auto. split; [done|]. split; [done|]. split; [done|]. split; [done|]. by destruct (chars_of v); [|case_match].
  - exists v. rewrite decide_False by auto. rewrite decide_True by auto. done.
  - destruct (Hp eq_refl) as [b0 Ht]. exists (VBool false). rewrite Ht, !decide_False by auto. done.
  - exists v. rewrite decide_True by auto. rewrite decide_False by auto. done.
Qed.

(** ** The invariant *)

Definition in_ranges (session_only : bool) (m : values) : Prop :=
  forall d, d ∈ tidesdb_system_variables -> (session_only = true -> v_session d = true) ->
  exists v, m !! v_name d = Some v /\ value_ok (v_type d) v = true.

Record settings_ok (m0 : values) (st : settings) : Prop := {
  st_global : in_ranges false (globals st);
  st_sessions t s : sessions st !! t = Some s -> in_ranges true s;
  st_readonly d : d ∈ tidesdb_system_variables -> has_flag PLUGIN_VAR_READONLY d = true -> globals st !! v_name d = m0 !! v_name d;
  st_capture : g_capture_active st = get_flag (globals st) "perf_capture";
  st_blend : blend_map st = tdb_rebuild_blend_map (default [] (get_str (globals st) "fts_blend_chars"))
}.

Lemma put_in_ranges so d v m : d ∈ tidesdb_system_variables -> value_ok (v_type d) v = true -> in_ranges so m -> in_ranges so (<[v_name d := v]> m).
Proof.
  intros Hd Hv Hm d' Hd' Hs. destruct (decide (v_name d = v_name d')) as [He|Hne].
  - rewrite <- (var_unique d d' Hd Hd' He), lookup_insert_eq. eauto.
  - rewrite lookup_insert_ne by done. by apply Hm.
Qed.

Lemma chars_of_get n w m : default [] (get_str (<[n := w]> m) n) = chars_of w.
Proof. unfold get_str. rewrite lookup_insert_eq. by destruct w as [| | | |[]]. Qed.

Lemma set_global_ok m0 en n v st : settings_ok m0 st -> settings_ok m0 (set_global en n v st).2.
Proof.
  intros Hst. unfold set_global. destruct (find_var n) as [d|] eqn:Hf; [|done]. apply find_var_Some in Hf as [Hd <-].
  destruct (has_flag PLUGIN_VAR_NOSYSVAR d); [done|]. destruct (has_flag PLUGIN_VAR_READONLY d) eqn:Hro; [done|].
  destruct (accept_value _ v) as [v1|] eqn:Ha; [|done]. apply accept_ok in Ha; [|done].
  destruct (run_check _ _ _ v1) as [v2|] eqn:Hc; [|done]. apply (check_ok _ _ _ (v_type d)) in Hc; [|done].
  destruct (update_spec en d v2 st Hd Hc) as (w & Hw & Hg & Hs & Hca & Hbl). destruct Hst as [H1 H2 H3 H4 H5]. split.
  - rewrite Hg. by apply put_in_ranges.
  - rewrite Hs. apply H2.
  - intros d' Hd' Hro'. rewrite Hg, lookup_insert_ne; [by apply H3|]. intros He. rewrite (var_unique d d' Hd Hd' He) in Hro. congruence.
  - rewrite Hca, Hg. clear Hca Hbl. unfold get_flag. case_decide as Hn; [rewrite <- Hn, lookup_insert_eq; done|]. rewrite lookup_insert_ne by done. exact H4.
  - rewrite Hbl, Hg. clear Hca Hbl. case_decide as Hn; [by rewrite Hn, chars_of_get|]. unfold get_str. rewrite lookup_insert_ne by done. exact H5.
Qed.

Lemma set_session_ok m0 t n v st : settings_ok m0 st -> settings_ok m0 (set_session t n v st).2.
Proof.
  intros Hst. unfold set_session. destruct (find_var n) as [d|] eqn:Hf; [|done]. apply find_var_Some in Hf as [Hd <-].
  destruct (sessions st !! t) as [s|] eqn:Hs; [|done]. destruct (v_session d); [|done].
  destruct (accept_value _ v) as [v1|] eqn:Ha; [|done]. apply accept_ok in Ha; [|done]. destruct Hst as [H1 H2 H3 H4 H5]. split; cbn; try done.
  intros t' s' [[<- <-]|[_ Hs']]%lookup_insert_Some; [|by eapply H2]. apply put_in_ranges; [done|done|by eapply H2].
Qed.

Lemma event_ok m0 e st : settings_ok m0 st -> settings_ok m0 (exec_event e st).
Proof.
  destruct e as [t|t|en n v|t n v]; [| |apply set_global_ok|apply set_session_ok]; intros [H1 H2 H3 H4 H5]; split; cbn; try done.
  - intros t' s' [[<- <-]|[_ Hs']]%lookup_insert_Some; [|by eapply H2]. intros d Hd _. by apply H1.
  - intros t' s' [_ Hs']%lookup_delete_Some. by eapply H2.
Qed.

Lemma events_ok m0 es st : settings_ok m0 st -> settings_ok m0 (exec_all es st).
Proof. revert st. induction es as [|e es IH]; intros st Hst; [done|]. by apply IH, event_ok. Qed.

(** ** Start *)

Lemma initial_values_ok opts m : initial_values opts = Some m -> in_ranges false m.
Proof.
  unfold initial_values. destruct (mapM _ _) as [l|] eqn:Hm; [|done]. intros [= <-] d Hd _. apply mapM_Some_1 in Hm.
  assert (Hn : l.*1 = v_name <$> tidesdb_system_variables).
  { clear Hd. revert l Hm. induction tidesdb_system_variables as [|x vs IH]; intros l Hl; inversion Hl; subst; [done|]. cbn. f_equal; [|by apply IH].
    destruct (initial_value opts x); [|done]. by simplify_eq/=. }
  apply list_elem_of_lookup_1 in Hd as [i Hi]. destruct (Forall2_lookup_l _ _ _ _ _ Hm Hi) as ([n v] & Hl & Hv).
  destruct (initial_value opts d) as [v'|] eqn:Hiv; [|done]. cbn in Hv. injection Hv as <- <-. exists v'. split.
  - apply elem_of_list_to_map_1; [rewrite Hn; apply names_distinct|]. by eapply list_elem_of_lookup_2.
  - apply list_elem_of_lookup_2 in Hi. unfold initial_value in Hiv. destruct (opts !! v_name d) as [w|]; [by eapply accept_ok|].
    injection Hiv as <-. apply declarations_ok in Hi. unfold decl_ok in Hi. by apply andb_true_iff in Hi as [? _].
Qed.

Lemma started_ok pe opts st : start_server pe opts = Some st -> settings_ok (globals st) st.
Proof.
  unfold start_server. destruct (initial_values opts) as [m|] eqn:Hm; [|done]. intros [= <-]. apply initial_values_ok in Hm. split; cbn; try done.
  - intros d Hd Hs. destruct (decide (v_name d = "atomic_ddl_strict"%string)) as [He|Hne].
    + rewrite He, lookup_insert_eq. eexists. split; [done|].
      assert (d = mysql_sysvar_atomic_ddl_strict) as -> by (apply var_unique; [done| |done]; by apply (find_var_Some "atomic_ddl_strict")). done.
    + rewrite lookup_insert_ne by done. by apply Hm.
  - unfold get_flag. by rewrite lookup_insert_ne.
  - unfold get_str. by rewrite lookup_insert_ne.
Qed.



(** ** What the components read *)

Lemma int_in_range so m n d df lo hi b : in_ranges so m -> find_var n = Some d -> v_type d = TInt df lo hi b ->
  (so = true -> v_session d = true) -> lo <= get_int m n <= hi.
Proof.
  intros Hm [Hd <-]%find_var_Some Ht Hs. destruct (Hm d Hd Hs) as (v & Hv & Hok). unfold get_int. rewrite Hv. rewrite Ht in Hok.
  destruct v; try done. cbn in Hok. lia.
Qed.

Lemma enum_in_range so m n d df names : in_ranges so m -> find_var n = Some d -> v_type d = TEnum df names ->
  (so = true -> v_session d = true) -> (get_enum m n < length names)%nat.
Proof.
  intros Hm [Hd <-]%find_var_Some Ht Hs. destruct (Hm d Hd Hs) as (v & Hv & Hok). unfold get_enum. rewrite Hv. rewrite Ht in Hok.
  destruct v; try done. cbn [value_ok] in Hok. by apply Nat.ltb_lt.
Qed.

Lemma double_in_range so m n d df lo hi : in_ranges so m -> find_var n = Some d -> v_type d = TDouble df lo hi ->
  (so = true -> v_session d = true) -> (lo <= get_double m n)%Q /\ (get_double m n <= hi)%Q.
Proof.
  intros Hm [Hd <-]%find_var_Some Ht Hs. destruct (Hm d Hd Hs) as (v & Hv & Hok). unfold get_double. rewrite Hv. rewrite Ht in Hok.
  destruct v; try done. cbn [value_ok] in Hok. by apply andb_true_iff in Hok as [?%Qle_bool_iff ?%Qle_bool_iff].
Qed.

Lemma sessions_fit m : in_ranges true m -> session_ok (session_of m).
Proof.
  intros Hm. split; unfold in_range; cbn.
  all: try (eapply (int_in_range true); [exact Hm|reflexivity|reflexivity|done]).
  - pose proof (enum_in_range true m "default_compression" _ _ _ Hm eq_refl eq_refl ltac:(done)) as H. cbn in H. lia.
  - pose proof (enum_in_range true m "default_isolation_level" _ _ _ Hm eq_refl eq_refl ltac:(done)) as H. cbn in H. lia.
  - destruct (get_flag m "default_bloom_filter"); cbn; lia.
Qed.


Lemma readonly_value m0 st n d : settings_ok m0 st -> find_var n = Some d -> has_flag PLUGIN_VAR_READONLY d = true -> globals st !! n = m0 !! n.
Proof. intros Hst [Hd <-]%find_var_Some Hr. by apply (st_readonly _ _ Hst). Qed.

(** The configuration of the engine reads read-only variables only. *)
Lemma config_stays m0 st path : settings_ok m0 st -> make_cfg (startup_sysvars (globals st)) path = make_cfg (startup_sysvars m0) path.
Proof.
  intros Hst. unfold make_cfg, startup_sysvars, get_int, get_enum, get_flag. cbn -[lookup].
  repeat match goal with |- context [globals st !! ?n] => rewrite (readonly_value m0 st n _ Hst eq_refl eq_refl) end. reflexivity.
Qed.

(** The tables that are indexed with the variables have enough entries, and the casts keep them. *)
Lemma config_exact m path : in_ranges false m ->
  exists cfg, make_cfg (startup_sysvars m) path = Some cfg /\
    num_flush_threads cfg = get_int m "flush_threads" /\ num_compaction_threads cfg = get_int m "compaction_threads" /\
    max_open_sstables cfg = get_int m "max_open_sstables" /\ block_cache_size cfg = get_int m "block_cache_size" /\
    log_truncation_at cfg = get_int m "log_truncation_at" /\
    memtable_write_buffer_size cfg = get_int m "unified_memtable_write_buffer_size" /\
    memtable_sync_interval_us cfg = get_int m "unified_memtable_sync_interval".
Proof.
  intros Hm. unfold make_cfg.
  destruct (lookup_lt_is_Some_2 log_level_map (get_enum m "log_level")) as [l Hl].
  { exact (enum_in_range false m "log_level" _ _ _ Hm eq_refl eq_refl ltac:(done)). }
  destruct (lookup_lt_is_Some_2 tdb_sync_mode_map (get_enum m "unified_memtable_sync_mode")) as [s Hs].
  { exact (enum_in_range false m "unified_memtable_sync_mode" _ _ _ Hm eq_refl eq_refl ltac:(done)). }
  pose proof (fun n d df lo hi b => int_in_range false m n d df lo hi b Hm) as Hi.
  eexists. cbn [startup_sysvars srv_log_level srv_memtable_sync_mode]. rewrite Hl, Hs. split; [reflexivity|].
  cbn [num_flush_threads num_compaction_threads max_open_sstables block_cache_size log_truncation_at memtable_write_buffer_size memtable_sync_interval_us
       startup_sysvars srv_flush_threads srv_compaction_threads srv_block_cache_size srv_max_open_sstables srv_log_truncation_at
       srv_memtable_write_buffer_size srv_memtable_sync_interval].
  split_and!.
  - apply i32_small. pose proof (Hi "flush_threads"%string _ _ _ _ _ eq_refl eq_refl ltac:(done)). lia.
  - apply i32_small. pose proof (Hi "compaction_threads"%string _ _ _ _ _ eq_refl eq_refl ltac:(done)). lia.
  - apply i32_small. pose proof (Hi "max_open_sstables"%string _ _ _ _ _ eq_refl eq_refl ltac:(done)). lia.
  - apply u64_id. pose proof (Hi "block_cache_size"%string _ _ _ _ _ eq_refl eq_refl ltac:(done)). unfold fits_u64, ULONGLONG_MAX in *. lia.
  - apply u64_id. pose proof (Hi "log_truncation_at"%string _ _ _ _ _ eq_refl eq_refl ltac:(done)). unfold fits_u64, ULONGLONG_MAX in *. lia.
  - apply u64_id. pose proof (Hi "unified_memtable_write_buffer_size"%string _ _ _ _ _ eq_refl eq_refl ltac:(done)). unfold fits_u64, ULONGLONG_MAX in *. lia.
  - apply u64_id. pose proof (Hi "unified_memtable_sync_interval"%string _ _ _ _ _ eq_refl eq_refl ltac:(done)). unfold fits_u64, ULONGLONG_MAX in *. lia.
Qed.


(** C36: whatever the option files say and whatever SET statements follow, the engine and the tables
    get what the variables show: every variable stays in its declared range, the engine was opened
    with a configuration whose tables are indexed within bounds, whose numbers are those of the
    variables and which the variables still show; the defaults of every session give a family
    configuration without a read outside the maps; the capture switch and the blend characters in
    use are those of their variables. *)
Theorem settings_reach_components (pe : perf_env) (opts : values) (st0 : settings) (es : list set_event) (path : bytes) :
  start_server pe opts = Some st0 ->
  let st := exec_all es st0 in
  in_ranges false (globals st) /\
  (exists cfg, make_cfg (startup_sysvars (globals st0)) path = Some cfg /\ make_cfg (startup_sysvars (globals st)) path = Some cfg /\
     num_flush_threads cfg = get_int (globals st) "flush_threads" /\ num_compaction_threads cfg = get_int (globals st) "compaction_threads" /\
     max_open_sstables cfg = get_int (globals st) "max_open_sstables" /\ block_cache_size cfg = get_int (globals st) "block_cache_size") /\
  (forall t s, sessions st !! t = Some s -> forall parse dflt attr, exists cfg,
     build_cf_config dflt (Some (tidesdb_compute_opts_for_table parse (session_of s) attr)) = Some cfg /\
     cfg_level_size_ratio cfg = get_int s "default_level_size_ratio" /\ cfg_min_levels cfg = get_int s "default_min_levels") /\
  g_capture_active st = get_flag (globals st) "perf_capture" /\
  blend_map st = tdb_rebuild_blend_map (default [] (get_str (globals st) "fts_blend_chars")).
Proof.
  intros Hst st. pose proof (events_ok _ es _ (started_ok _ _ _ Hst)) as Hok. fold st in Hok. split; [apply Hok|]. split; [|split; [|split; apply Hok]].
  - destruct (config_exact (globals st) path (st_global _ _ Hok)) as (cfg & Hc & H1 & H2 & H3 & H4 & _). exists cfg.
    split; [by rewrite <- (config_stays _ _ path Hok)|done].
  - intros t s Hs parse dflt attr. destruct (cf_config_in_bounds parse dflt (session_of s) attr) as (cfg & Hc & H1 & H2 & _).
    { eapply sessions_fit, (st_sessions _ _ Hok), Hs. }
    exists cfg. done.
Qed.


End Server.

(** ** Examples *)

Definition clamp (lo hi block z : Z) : Z := Z.max lo (Z.min z hi).
Definition clamp_double (lo hi q : Q) : Q := if Qle_bool q lo then lo else if Qle_bool hi q then hi else q.

Lemma clamp_range lo hi b z : lo <= hi -> lo <= clamp lo hi b z <= hi.
Proof. unfold clamp. lia. Qed.

Lemma clamp_double_range lo hi q : (lo <= hi)%Q -> (lo <= clamp_double lo hi q)%Q /\ (clamp_double lo hi q <= hi)%Q.
Proof.
  intros H. unfold clamp_double. destruct (Qle_bool q lo) eqn:E1; [split; [apply Qle_refl|done]|].
  destruct (Qle_bool hi q) eqn:E2; [split; [done|apply Qle_refl]|].
  apply not_true_iff_false in E1, E2. rewrite Qle_bool_iff in E1, E2. apply Qnot_le_lt in E1, E2. split; by apply Qlt_le_weak.
Qed.

Definition writable : perf_env := mk_perf_env (fun _ => true) (fun _ => true) (fun _ _ => true) (fun _ => true) 0.
Definition start1 : values -> option settings := start_server clamp clamp_double writable.
Definition no_path : bytes -> option bytes := fun _ => None.
Definition quiet : set_env :=
  mk_senv (mk_benv None false true None TDB_SUCCESS) None 0 (mk_sw false (fun _ => false) (fun _ => None) false false).
Definition exec1 : list set_event -> settings -> settings := exec_all no_path clamp clamp_double.

Definition busy_options : values := {["flush_threads"%string := VInt 1000; "log_level"%string := VEnum 2]}.
Definition busy_events : list set_event :=
  [EConnect 1; ESetSession 1 "default_compression" (VEnum 3); ESetGlobal quiet "perf_capture" (VBool true);
   ESetGlobal quiet "flush_threads" (VInt 2); ESetGlobal quiet "fts_blend_chars" (VStr (Some [45]))].
Definition started (opts : values) : settings := default (mk_settings ∅ ∅ Quarantine false no_files 0 ∅ []) (start1 opts).
Definition busy_start : settings := started busy_options.

Lemma default_of_some {A} (d : A) (o : option A) : match o with Some _ => true | None => false end = true -> o = Some (default d o).
Proof. by destruct o. Qed.

Lemma busy_starts : start1 busy_options = Some busy_start.
Proof. apply default_of_some. vm_compute. reflexivity. Qed.

Lemma busy_values : let st := exec1 busy_events busy_start in
  get_int (globals st) "flush_threads" = 64 /\ g_capture_active st = true /\ get_enum (default ∅ (sessions st !! 1%nat)) "default_compression" = 3%nat.
Proof. vm_compute. done. Qed.

Lemma settings_reach_components_witness : exists cfg, make_cfg (startup_sysvars (globals busy_start)) [] = Some cfg /\ num_flush_threads cfg = 64.
Proof.
  destruct (settings_reach_components no_path clamp clamp_double clamp_range clamp_double_range writable busy_options busy_start busy_events [] busy_starts)
    as (_ & (cfg & H1 & _ & H2 & _) & _).
  exists cfg. split; [exact H1|]. rewrite H2. apply busy_values.
Defined.

(** The action for orphans of an option file is shown and not used: only the update hook sets it. *)
Lemma orphan_action_of_option_file : let opts := {["orphan_action"%string := VEnum 2]} in let st := started opts in
  start1 opts = Some st /\ get_enum (globals st) "orphan_action" = 2%nat /\ g_orphan_action st = Quarantine.
Proof. cbv zeta. split; [apply default_of_some|split]; vm_compute; reflexivity. Qed.

(** A new interval is shown and the flusher keeps the old one. *)
Lemma flush_interval_not_followed : let st := exec1 [ESetGlobal quiet "perf_flush_interval_ms" (VInt 100)] busy_start in
  get_int (globals st) "perf_flush_interval_ms" = 100 /\ flush_interval_ms st = 1000.
Proof. cbv zeta. split; vm_compute; reflexivity. Qed.

(** A checkpoint directory of an option file is taken without a message, and SET refuses it. *)
Lemma checkpoint_dir_of_option_file : let opts := {["checkpoint_dir"%string := VStr (Some [47; 120])]} in let st := started opts in
  start1 opts = Some st /\ get_str (globals st) "checkpoint_dir" = Some [47; 120] /\
  (set_global no_path clamp clamp_double quiet "checkpoint_dir" (VStr (Some [47; 120])) st).1 = CheckFailed.
Proof. cbv zeta. split; [apply default_of_some|split]; vm_compute; reflexivity. Qed.

(** Promotion raises its error from the update hook. *)
Lemma promote_fails_in_update st : (set_global no_path clamp clamp_double quiet "promote_primary" (VBool true) st).1 = ErrorInUpdate.
Proof. done. Qed.

(** The table of stop words of an option file is not loaded. *)
Lemma stopword_table_of_option_file : let opts := {["ft_stopword_table"%string := VStr (Some [100; 47; 116])]} in let st := started opts in
  start1 opts = Some st /\ get_str (globals st) "ft_stopword_table" = Some [100; 47; 116] /\ bool_decide (stopwords st = tdb_load_default_stopwords_into) = true.
Proof. cbv zeta. split; [apply default_of_some|split]; vm_compute; reflexivity. Qed.

(** Every variable that a retired option points at is registered, and is read-only: the SET that
    the message asks for is refused. *)
Definition points_at (o : TdbLegacyOption) : option SYS_VAR :=
  r ← lo_replacement o; List.find (fun d => bool_decide (("tidesdb_" +:+ v_name d)%string = r)) tidesdb_system_variables.

Lemma relocated_registered : Forall (fun o => lo_disposition o = Relocated -> exists d, points_at o = Some d /\ has_flag PLUGIN_VAR_READONLY d = true) tdb_legacy_options.
Proof. repeat constructor; cbn; intros H; try done; eexists; split; reflexivity. Qed.
