(* ===== verification/Support.v ===== *)
(** * Buffers and helpers (tidesdb_owned_buf.h, tidesdb_portability.cc)

    [TdbOwnedBuf] and [TdbFreeGuard] own the buffers that the engine allocates for the
    handler: the theorem is that programs built from their operations free every buffer
    exactly once.  Beside them the helpers that the C library and the server do not have:
    bounded concatenation, random bytes, and the removal of a directory. *)

From Stdlib Require Import ZArith Lia.
From stdpp Require Import base tactics list numbers gmap sets relations.
From S2P Require Import Prelude.

Open Scope Z_scope.
Open Scope list_scope.

(** ** Owners of buffers

    A buffer is a number.  [owners] holds the pointer of every owner in scope, [handed]
    the buffers that the code freed of their owner and frees itself. *)

Record heap := mk_heap { next : nat; live : gset nat; owners : gmap nat (option nat); handed : gset nat }.

Definition empty_heap : heap := mk_heap 0 ∅ ∅ ∅.

(** [None]: the buffer is not allocated. *)
Definition tidesdb_free (p : nat) (h : heap) : option heap :=
  if bool_decide (p ∈ live h) then Some (mk_heap (next h) (live h ∖ {[p]}) (owners h) (handed h)) else None.

Definition set_owner (o : nat) (p : option nat) (h : heap) : heap := mk_heap (next h) (live h) (<[o := p]> (owners h)) (handed h).

(** [reset]: [if (p_) { tidesdb_free(p_); p_ = nullptr; }]; the guard's destructor is the same. *)
Definition reset (o : nat) (h : heap) : option heap :=
  match owners h !! o with
  | Some (Some p) => set_owner o None <$> tidesdb_free p h
  | Some None => Some h
  | None => None
  end.

(** The engine stores a new buffer in the pointer it is given, or fails. *)
Definition engine_fills (o : nat) (ok : bool) (h : heap) : heap :=
  if ok then mk_heap (S (next h)) ({[next h]} ∪ live h) (<[o := Some (next h)]> (owners h)) (handed h) else h.

Inductive op :=
| Construct (o : nat)
| Destroy (o : nat)
| Out (o : nat) (ok : bool)                 (* out(), and the call it is handed to *)
| Reset (o : nat)
| Release (o : nat)                         (* release() *)
| MoveConstruct (o from : nat)
| MoveAssign (o from : nat)
| GuardedRead (o : nat) (ok : bool)         (* the call on a pointer under a TdbFreeGuard *)
| FreeHanded (p : nat).

(** What C++ requires: objects are used within their life, a new one has a new place, a
    pointer is read into once per scope, and what was handed over is freed by its new owner. *)
Definition allowed (h : heap) (x : op) : Prop :=
  match x with
  | Construct o => owners h !! o = None
  | Destroy o | Out o _ | Reset o | Release o => is_Some (owners h !! o)
  | MoveConstruct o from => owners h !! o = None /\ is_Some (owners h !! from)
  | MoveAssign o from => is_Some (owners h !! o) /\ is_Some (owners h !! from)
  | GuardedRead o _ => owners h !! o = Some None
  | FreeHanded p => p ∈ handed h
  end.

Definition exec (x : op) (h : heap) : option heap :=
  match x with
  | Construct o => Some (set_owner o None h)
  | Destroy o => (fun h => mk_heap (next h) (live h) (delete o (owners h)) (handed h)) <$> reset o h
  | Out o ok => engine_fills o ok <$> reset o h
  | Reset o => reset o h
  | Release o =>
    p ← owners h !! o;
    Some (mk_heap (next h) (live h) (<[o := None]> (owners h)) (match p with Some p => {[p]} ∪ handed h | None => handed h end))
  | MoveConstruct o from => p ← owners h !! from; Some (set_owner from None (set_owner o p h))
  | MoveAssign o from =>
    if bool_decide (o = from) then Some h
    else h ← reset o h; p ← owners h !! from; Some (set_owner from None (set_owner o p h))
  | GuardedRead o ok => Some (engine_fills o ok h)
  | FreeHanded p => (fun h => mk_heap (next h) (live h) (owners h) (handed h ∖ {[p]})) <$> tidesdb_free p h
  end.

(** Every live buffer is held by one owner or was handed over, and by nobody else. *)
Record heap_ok (h : heap) : Prop := {
  ho_live p : p ∈ live h <-> (exists o, owners h !! o = Some (Some p)) \/ p ∈ handed h;
  ho_one o1 o2 p : owners h !! o1 = Some (Some p) -> owners h !! o2 = Some (Some p) -> o1 = o2;
  ho_apart o p : owners h !! o = Some (Some p) -> p ∉ handed h;
  ho_next p : p ∈ live h -> (p < next h)%nat
}.

(** Freeing what an owner holds. *)
Lemma reset_ok o h : heap_ok h -> is_Some (owners h !! o) ->
  exists h', reset o h = Some h' /\ heap_ok h' /\ owners h' = <[o := None]> (owners h) /\ next h' = next h /\ handed h' = handed h /\
    live h' = match owners h !! o with Some (Some p) => live h ∖ {[p]} | _ => live h end.
Proof.
  intros [L O A N] [[p|] Ho]; unfold reset; rewrite Ho.
  - assert (Hp : p ∈ live h) by (apply L; left; by exists o). unfold tidesdb_free. rewrite bool_decide_eq_true_2 by done. cbn. eexists. split; [done|].
    split; [|done]. split; cbn.
    + intros q. rewrite elem_of_difference, elem_of_singleton, L. split.
      * intros [[[o' Ho']|Hh] Hne]; [|by right]. left. exists o'. rewrite lookup_insert_ne; [done|]. intros <-. congruence.
      * intros [[o' Ho']|Hh].
        -- apply lookup_insert_Some in Ho' as [[_ ?]|[Hne Ho']]; [done|]. split; [left; by exists o'|]. intros ->. apply Hne. by eapply O.
        -- split; [by right|]. intros ->. by apply (A o p).
    + intros o1 o2 q H1 H2. apply lookup_insert_Some in H1 as [[_ ?]|[_ H1]]; [done|]. apply lookup_insert_Some in H2 as [[_ ?]|[_ H2]]; [done|]. eauto.
    + intros o1 q H1. apply lookup_insert_Some in H1 as [[_ ?]|[_ H1]]; [done|]. eauto.
    + intros q Hq. apply N. set_solver.
  - exists h. split; [done|]. split; [done|]. by rewrite insert_id.
Qed.

(** A new buffer in an empty owner. *)
Lemma fills_ok o ok h : heap_ok h -> owners h !! o = Some None -> heap_ok (engine_fills o ok h).
Proof.
  intros [L O A N] Ho. destruct ok; [|done]. assert (Hnew : next h ∉ live h) by (intros Hin%N; lia).
  assert (Hno : forall o', owners h !! o' <> Some (Some (next h))) by (intros o' Ho'; apply Hnew, L; left; by exists o').
  assert (Hnh : next h ∉ handed h) by (intros Hin; apply Hnew, L; by right).
  split; cbn.
  - intros p. rewrite elem_of_union, elem_of_singleton, L. split.
    + intros [->|[[o' Ho']|Hh]]; [left; exists o; by rewrite lookup_insert_eq| |by right]. left. exists o'. rewrite lookup_insert_ne; [done|]. congruence.
    + intros [[o' Ho']|Hh]; [|auto]. apply lookup_insert_Some in Ho' as [[_ [= <-]]|[_ Ho']]; [by left|]. right. left. by exists o'.
  - intros o1 o2 p H1 H2. rewrite lookup_insert_Some in H1, H2. destruct H1 as [[<- E1]|[? H1]], H2 as [[<- E2]|[? H2]]; naive_solver.
  - intros o1 p H1. rewrite lookup_insert_Some in H1. naive_solver.
  - intros p. rewrite elem_of_union, elem_of_singleton. intros [->|Hp]; [lia|]. specialize (N p Hp). lia.
Qed.

(** Moving a pointer into an owner that holds none. *)
Lemma move_ok o from p h : heap_ok h -> o <> from -> (owners h !! o = None \/ owners h !! o = Some None) -> owners h !! from = Some p ->
  heap_ok (set_owner from None (set_owner o p h)).
Proof.
  intros [L O A N] Hne Ho Hf.
  assert (Hlk : forall x q, owners (set_owner from None (set_owner o p h)) !! x = Some (Some q) <->
            (x = o /\ p = Some q) \/ (x <> o /\ x <> from /\ owners h !! x = Some (Some q))).
  { intros x q. cbn. rewrite !lookup_insert_Some. naive_solver. }
  split; cbn [live handed next set_owner].
  - intros q. rewrite L. setoid_rewrite Hlk. split; (intros [[x Hx]|Hh]; [|by right]); left.
    + destruct (decide (x = from)) as [->|Hxf]; [exists o; naive_solver|]. exists x. right. naive_solver.
    + destruct Hx as [[-> ->]|(? & ? & Hx)]; [by exists from|by exists x].
  - intros o1 o2 q H1%Hlk H2%Hlk. naive_solver.
  - intros o1 q H1%Hlk. naive_solver.
  - done.
Qed.

(** Every allowed operation works and keeps the invariant. *)
Lemma owner_exec_ok h x : heap_ok h -> allowed h x -> exists h', exec x h = Some h' /\ heap_ok h'.
Proof.
  intros Hok Hx. destruct x as [o|o|o ok|o|o|o from|o from|o ok|p]; cbn [exec allowed] in *.
  - eexists. split; [done|]. destruct Hok as [L O A N]. split; cbn; [|..|done].
    + intros p. rewrite L. split; (intros [[x Hx']|?]; [|by right]); left; exists x; [|].
      * rewrite lookup_insert_ne; [done|congruence].
      * rewrite lookup_insert_Some in Hx'. naive_solver.
    + intros o1 o2 p. rewrite !lookup_insert_Some. naive_solver.
    + intros o1 p. rewrite lookup_insert_Some. naive_solver.
  - destruct (reset_ok o h Hok Hx) as (h1 & -> & [L O A N] & Ho & _). cbn. eexists. split; [done|]. split; cbn; [|..|done].
    + intros p. rewrite L. split; (intros [[x Hx']|?]; [|by right]); left; exists x; [|].
      * rewrite lookup_delete_ne; [done|]. intros <-. rewrite Ho, lookup_insert_eq in Hx'. done.
      * by apply lookup_delete_Some in Hx' as [_ ?].
    + intros o1 o2 p. rewrite !lookup_delete_Some. naive_solver.
    + intros o1 p. rewrite lookup_delete_Some. naive_solver.
  - destruct (reset_ok o h Hok Hx) as (h1 & -> & Hok1 & Ho & _). cbn. eexists. split; [done|]. apply fills_ok; [done|]. by rewrite Ho, lookup_insert_eq.
  - destruct (reset_ok o h Hok Hx) as (h1 & -> & Hok1 & _). by eexists.
  - destruct Hx as [p Hp]. rewrite Hp. cbn. eexists. split; [done|]. destruct Hok as [L O A N].
    assert (Hlk : forall x q, <[o := None]> (owners h) !! x = Some (Some q) <-> x <> o /\ owners h !! x = Some (Some q)).
    { intros x q. rewrite lookup_insert_Some. naive_solver. }
    split; cbn [live owners handed next]; [|..|done].
    + intros q. rewrite L. setoid_rewrite Hlk. destruct p as [p|]; rewrite ?elem_of_union, ?elem_of_singleton; split.
      * intros [[x Hx]|?]; [|auto]. destruct (decide (x = o)) as [->|]; [right; left; congruence|left; by exists x].
      * intros [(x & ? & Hx)|[->|?]]; [left; by exists x|left; by exists o|by right].
      * intros [[x Hx]|?]; [left; exists x; split; [congruence|done]|by right].
      * intros [(x & ? & Hx)|?]; [left; by exists x|by right].
    + intros o1 o2 q [_ H1]%Hlk [_ H2]%Hlk. eauto.
    + intros o1 q [Hne H1]%Hlk. destruct p as [p|]; [|eauto]. rewrite elem_of_union, elem_of_singleton. intros [->|Hq]; [|by apply (A o1 q)].
      apply Hne. by eapply O.
  - destruct Hx as [Hn [p Hp]]. rewrite Hp. cbn. eexists. split; [done|]. apply move_ok; [done| |by left|done]. intros ->. congruence.
  - destruct Hx as [Ho Hf]. case_bool_decide as He; [by eexists|]. destruct (reset_ok o h Hok Ho) as (h1 & -> & Hok1 & Ho1 & _). cbn.
    destruct Hf as [p Hp]. assert (Hp1 : owners h1 !! from = Some p) by (rewrite Ho1; by rewrite lookup_insert_ne). rewrite Hp1. cbn. eexists. split; [done|].
    apply move_ok; [done|done|right; by rewrite Ho1, lookup_insert_eq|done].
  - eexists. split; [done|]. by apply fills_ok.
  - destruct Hok as [L O A N]. unfold tidesdb_free. rewrite bool_decide_eq_true_2 by (apply L; by right). cbn. eexists. split; [done|]. split; cbn.
    + intros q. rewrite !elem_of_difference, elem_of_singleton, L. split.
      * intros [[[x Hx']|?] ?]; [left; by exists x|by right].
      * intros [[x Hx']|[? ?]]; [|auto]. split; [left; by exists x|]. intros ->. by apply (A x p).
    + eauto.
    + intros o1 q H1 [Hq _]%elem_of_difference. by apply (A o1 q).
    + intros q Hq. apply N. set_solver.
Qed.

Fixpoint run (xs : list op) (h : heap) : option heap := match xs with [] => Some h | x :: xs => h ← exec x h; run xs h end.

#[export] Instance allowed_dec h x : Decision (allowed h x).
Proof. destruct x; cbn; apply _. Defined.

(** The operations of a program are allowed where they run. *)
Fixpoint allowed_all (xs : list op) (h : heap) : bool :=
  match xs with [] => true | x :: xs => bool_decide (allowed h x) && match exec x h with Some h' => allowed_all xs h' | None => true end end.

(** C39: The owners of engine buffers neither leak nor free twice: any program of their operations that
    uses objects within their life runs without freeing a buffer that is not allocated, and at
    its end, all owners being gone, the buffers still allocated are exactly those it took over with
    [release] and did not free itself. *)
Theorem buffers_freed_once (xs : list op) : allowed_all xs empty_heap = true ->
  exists h, run xs empty_heap = Some h /\ (owners h = ∅ -> live h = handed h) /\
    (forall o1 o2 p, owners h !! o1 = Some (Some p) -> owners h !! o2 = Some (Some p) -> o1 = o2).
Proof.
  assert (Hgen : forall xs h, heap_ok h -> allowed_all xs h = true -> exists h', run xs h = Some h' /\ heap_ok h').
  { clear xs. induction xs as [|x xs IH]; intros h Hok Ha; [by exists h|]. cbn in Ha. apply andb_true_iff in Ha as [Hx%bool_decide_eq_true Ha].
    destruct (owner_exec_ok h x Hok Hx) as (h1 & He & Hok1). cbn. rewrite He in *. cbn. by apply IH. }
  intros Ha. destruct (Hgen xs empty_heap) as (h & Hr & [L O A N]); [|done|].
  { split; cbn; set_solver. }
  exists h. split; [done|]. split; [|done]. intros Hn. apply set_eq. intros p. rewrite L, Hn. split; [intros [[o Ho]|?]; [|done]|auto].
  by rewrite lookup_empty in Ho.
Qed.

(** A scan that reads two keys through one owner, keeps the last and hands it over. *)
Definition demo_ops : list op := [Construct 0; Out 0 true; Out 0 true; Construct 1; MoveAssign 1 0; Release 1; Destroy 0; Destroy 1].

Lemma buffers_freed_once_witness : exists h, run demo_ops empty_heap = Some h /\ live h = handed h /\ live h = {[1%nat]}.
Proof.
  destruct (buffers_freed_once demo_ops) as (h & Hr & Hl & _).
  - vm_compute. reflexivity.
  - exists h. assert (Hh : h = mk_heap 2 {[1%nat]} ∅ {[1%nat]}); [|subst h; split; [exact Hr|split; reflexivity]].
    assert (Hv : run demo_ops empty_heap = Some (mk_heap 2 {[1%nat]} ∅ {[1%nat]})) by (vm_compute; reflexivity). congruence.
Defined.

(** ** Helpers of the C library *)

(** The set bits of a 64-bit number. *)
Definition my_count_bits (v : Z) : nat := length (List.filter (fun i => Z.testbit v (Z.of_nat i)) (seq 0 64)).

(** Microseconds of a monotonic clock. *)
Definition microsecond_interval_timer (tv_sec tv_nsec : Z) : Z := u64 (u64 (tv_sec * 1000000) + tv_nsec `div` 1000).

(** *** strxnmov

    [n] is what is left of the room; a source is a string without zeros, or null. *)
Definition append_src (st : bytes * Z) (src : option bytes) : bytes * Z :=
  match src with
  | None => st
  | Some s => let took := take (Z.to_nat (if 0 <? st.2 then st.2 - 1 else 0)) s in (st.1 ++ took, st.2 - Z.of_nat (length took))
  end.

(** What is written at [dst]. *)
Definition strxnmov (n : Z) (a b c d : option bytes) : bytes :=
  let '(out, n) := foldl append_src ([], n) [a; b; c; d] in if 0 <? n then out ++ [0] else out.

Lemma append_all (srcs : list (option bytes)) out n : 0 < n -> foldl append_src (out, n) srcs =
  (out ++ take (Z.to_nat (n - 1)) (mjoin (default [] <$> srcs)), n - Z.of_nat (length (take (Z.to_nat (n - 1)) (mjoin (default [] <$> srcs))))).
Proof.
  revert out n. induction srcs as [|s srcs IH]; intros out n Hn; cbn [foldl].
  { cbn. rewrite take_nil, app_nil_r. cbn. by rewrite Z.sub_0_r. }
  assert (Hs : append_src (out, n) s = (out ++ take (Z.to_nat (n - 1)) (default [] s), n - Z.of_nat (length (take (Z.to_nat (n - 1)) (default [] s))))).
  { destruct s as [s|]; cbn; [by rewrite (proj2 (Z.ltb_lt 0 n) Hn)|]. by rewrite take_nil, app_nil_r, Z.sub_0_r. }
  rewrite Hs, fmap_cons. change (mjoin (default [] s :: (default [] <$> srcs))) with (default [] s ++ mjoin (default [] <$> srcs)).
  set (x := default [] s). set (r := mjoin (default [] <$> srcs)). rewrite IH by (rewrite length_take; lia). fold r.
  rewrite take_app, <- app_assoc, length_app. repeat rewrite length_take. f_equal; [do 3 f_equal; lia|lia].
Qed.

(** With room for [n > 0] bytes it writes the sources one after the other, cut to [n - 1] bytes, and a zero. *)
Lemma strxnmov_exact n a b c d : 0 < n -> strxnmov n a b c d = take (Z.to_nat (n - 1)) (mjoin (default [] <$> [a; b; c; d])) ++ [0] /\
  (Z.of_nat (length (strxnmov n a b c d)) <= n).
Proof.
  intros Hn. unfold strxnmov. rewrite append_all by done. rewrite app_nil_l. rewrite (proj2 (Z.ltb_lt 0 _)) by (rewrite length_take; lia).
  split; [done|]. rewrite length_app, length_take. cbn [length]. lia.
Qed.

(** *** my_random_bytes

    What [getrandom] answers, call by call: bytes, an interruption, or an error. *)
Inductive random_answer := Bytes (b : bytes) | Interrupted | RandomError.

(** The result and what is in the buffer; [None] when the answers run out. *)
Fixpoint my_random_bytes (answers : list random_answer) (got : bytes) (n : Z) : option (Z * bytes) :=
  if Z.of_nat (length got) <? n then
    match answers with
    | [] => None
    | Interrupted :: rest => my_random_bytes rest got n
    | RandomError :: _ => Some (1, got)
    | Bytes b :: rest => if Nat.eqb (length b) 0 then Some (1, got) else my_random_bytes rest (got ++ b) n
    end
  else Some (0, got).

(** Success is [n] bytes, when no call gives more than it was asked for. *)
Lemma random_filled answers got n r out : 0 <= n -> Z.of_nat (length got) <= n ->
  (forall pre b post, answers = pre ++ Bytes b :: post -> Z.of_nat (length b) <= n - Z.of_nat (length (got ++ mjoin ((fun a => match a with Bytes b => b | _ => [] end) <$> pre)))) ->
  my_random_bytes answers got n = Some (r, out) -> r = 0 -> Z.of_nat (length out) = n /\ exists more, out = got ++ more.
Proof.
  intros Hn. revert got. induction answers as [|a answers IH]; intros got Hg Hb Hr ->; cbn [my_random_bytes] in Hr.
  - destruct (Z.ltb_spec (Z.of_nat (length got)) n); [done|]. injection Hr as <-. split; [lia|exists []; by rewrite app_nil_r].
  - destruct (Z.ltb_spec (Z.of_nat (length got)) n) as [Hlt|Hge]; [|injection Hr as <-; split; [lia|exists []; by rewrite app_nil_r]].
    destruct a as [b| |]; [|apply IH; try done|done].
    + destruct (Nat.eqb_spec (length b) 0); [done|]. destruct (IH (got ++ b)) as [H1 [more H2]]; [..|done|done|].
      * rewrite length_app. specialize (Hb [] b answers eq_refl). cbn in Hb. rewrite app_nil_r in Hb. lia.
      * intros pre b' post Ha. specialize (Hb (Bytes b :: pre) b' post). rewrite fmap_cons in Hb.
        change (mjoin (b :: ?x)) with (b ++ mjoin x) in Hb. rewrite <- app_assoc. apply Hb. by rewrite Ha.
      * split; [done|]. exists (b ++ more). by rewrite app_assoc.
    + intros pre b' post Ha. specialize (Hb (Interrupted :: pre) b' post). rewrite fmap_cons in Hb. apply Hb. by rewrite Ha.
Qed.

(** *** my_rmtree *)

(** A tree below a path, and the visits of the walk: children before their directory. *)
Inductive tree := Leaf (name : nat) | Node (name : nat) (children : list tree).

Fixpoint visits (t : tree) : list nat :=
  match t with
  | Leaf n => [n]
  | Node n ts => (fix go ts := match ts with [] => [] | t :: ts => visits t ++ go ts end) ts ++ [n]
  end.

Inductive errno := ENOENT | OTHER.

(** The walk ends at the first removal that fails; [remove] tells how each goes. *)
Fixpoint nftw (remove : nat -> option errno) (ns : list nat) : option errno * list nat :=
  match ns with
  | [] => (None, [])
  | n :: ns => match remove n with Some e => (Some e, []) | None => let '(e, gone) := nftw remove ns in (e, n :: gone) end
  end.

(** The path is [None] for a null pointer; [root] is [None] when nothing is there. *)
Definition my_rmtree (path : option (option tree)) (remove : nat -> option errno) : Z * list nat :=
  match path with
  | None => (-1, [])
  | Some None => (0, [])
  | Some (Some t) =>
    let '(e, gone) := nftw remove (visits t) in
    (match e with None => 0 | Some ENOENT => 0 | Some OTHER => -1 end, gone)
  end.

(** When every removal works, all is removed, and the root last. *)
Lemma rmtree_all t : (my_rmtree (Some (Some t)) (fun _ => None)) = (0, visits t) /\ exists pre n, visits t = pre ++ [n].
Proof.
  assert (Hn : forall ns, nftw (fun _ => None) ns = (None, ns)) by (induction ns as [|n ns IH]; cbn; [done|]; by rewrite IH).
  split; [unfold my_rmtree; by rewrite Hn|]. destruct t as [n|n ts]; [by exists [], n|]. cbn. by eexists _, n.
Qed.

(** An entry that disappears during the walk ends it, and the removal reports success with the
    rest of the directory still there. *)
Lemma rmtree_stops_early : my_rmtree (Some (Some (Node 0 [Leaf 1; Leaf 2; Leaf 3]))) (fun n => if Nat.eqb n 2 then Some ENOENT else None) = (0, [1%nat]).
Proof. reflexivity. Qed.

(** ** The dictionary callbacks (tidesdb_atomic_ddl.cc 1093-1178)

    The eight callbacks of a storage engine that holds the data dictionary do nothing but say once
    in the log that they were called.  The bits are set with an atomic or, so that calls of several
    threads come in some order. *)

Inductive ddse_callback :=
  ddse_dict_init | dict_init | dict_recover | dict_cache_reset | dict_cache_reset_tables_and_tablespaces
| dict_get_server_version | dict_set_server_version | is_dict_readonly.

#[export] Instance ddse_eq_dec : EqDecision ddse_callback.
Proof. solve_decision. Defined.

Definition ddse_bit (c : ddse_callback) : Z :=
  match c with
  | ddse_dict_init => 0 | dict_init => 1 | dict_recover => 2 | dict_cache_reset => 3
  | dict_cache_reset_tables_and_tablespaces => 4 | dict_get_server_version => 5 | dict_set_server_version => 6 | is_dict_readonly => 7
  end.

(** Whether the line is printed, and the bits after. *)
Definition log_ddse_stub_once (bit logged : Z) : bool * Z :=
  let mask := u32 (1 .<< bit) in ((logged .& mask) =? 0, u32 (logged .| mask)).

(** The lines of a sequence of calls. *)
Fixpoint ddse_lines (calls : list ddse_callback) (logged : Z) : list ddse_callback :=
  match calls with
  | [] => []
  | c :: cs => let '(print, logged) := log_ddse_stub_once (ddse_bit c) logged in (if print then [c] else []) ++ ddse_lines cs logged
  end.

Definition ddse_seen (seen : list ddse_callback) (logged : Z) : Prop :=
  fits_u32 logged /\ forall c, Z.testbit logged (ddse_bit c) = bool_decide (c ∈ seen).

Lemma ddse_step seen logged c : ddse_seen seen logged ->
  (log_ddse_stub_once (ddse_bit c) logged).1 = negb (bool_decide (c ∈ seen)) /\ ddse_seen (c :: seen) (log_ddse_stub_once (ddse_bit c) logged).2.
Proof.
  intros [Hf Hb]. assert (Hm : u32 (1 .<< ddse_bit c) = 2 ^ ddse_bit c) by (by destruct c).
  assert (Hp : forall d, Z.testbit (2 ^ ddse_bit c) (ddse_bit d) = bool_decide (d = c)) by (intros d; by destruct c, d).
  assert (Hr : 0 <= 2 ^ ddse_bit c < 2 ^ 32) by (destruct c; cbn; lia).
  unfold log_ddse_stub_once. rewrite Hm. cbn [fst snd]. split.
  - rewrite <- Hb. destruct (Z.testbit logged (ddse_bit c)) eqn:Et; cbn [negb].
    + apply Z.eqb_neq. intros H0. assert (Z.testbit (logged .& 2 ^ ddse_bit c) (ddse_bit c) = true) as Hx.
      { rewrite Z.land_spec, Et, Hp. by rewrite bool_decide_true. }
      rewrite H0, Z.bits_0 in Hx. done.
    + apply Z.eqb_eq. apply Z.bits_inj'. intros n Hn. rewrite Z.land_spec, Z.bits_0.
      destruct (decide (n = ddse_bit c)) as [->|Hne]; [by rewrite Et|]. rewrite Z.pow2_bits_false by (destruct c; cbn in *; lia). apply andb_false_r.
  - assert (Hl : 0 <= logged .| 2 ^ ddse_bit c < 2 ^ 32).
    { split; [apply Z.lor_nonneg; unfold fits_u32 in Hf; lia|]. destruct (decide (logged .| 2 ^ ddse_bit c = 0)) as [->|Hz]; [lia|].
      apply Z.log2_lt_pow2; [|rewrite Z.log2_lor by (unfold fits_u32 in Hf; lia)].
      - pose proof (proj2 (Z.lor_nonneg logged (2 ^ ddse_bit c)) ltac:(unfold fits_u32 in Hf; lia)). lia.
      - apply Z.max_lub_lt; [|destruct c; split; vm_compute; congruence]. unfold fits_u32 in Hf. destruct (decide (logged = 0)) as [->|]; [cbn; lia|]. apply Z.log2_lt_pow2; lia. }
    unfold u32. rewrite Z.mod_small by lia. split; [unfold fits_u32; lia|]. intros d. rewrite Z.lor_spec, Hb, Hp.
    destruct (decide (d = c)) as [->|Hne].
    + rewrite (bool_decide_true (c = c)), orb_true_r, bool_decide_true by (done || by left). done.
    + rewrite (bool_decide_false (d = c)), orb_false_r by done. apply bool_decide_ext. rewrite elem_of_cons. naive_solver.
Qed.

(** Every callback that is called prints its line exactly once. *)
Lemma ddse_logged_once calls : NoDup (ddse_lines calls 0) /\ forall c, c ∈ ddse_lines calls 0 <-> c ∈ calls.
Proof.
  enough (Hg : forall seen logged, ddse_seen seen logged ->
     NoDup (ddse_lines calls logged) /\ forall c, c ∈ ddse_lines calls logged <-> c ∈ calls /\ c ∉ seen).
  { destruct (Hg [] 0) as [G1 G2].
    - split; [unfold fits_u32; lia|]. intros c. rewrite Z.bits_0, bool_decide_false; [done|]. apply not_elem_of_nil.
    - split; [exact G1|]. intros c. rewrite G2. pose proof (not_elem_of_nil c). tauto. }
  induction calls as [|c cs IH]; intros seen logged Hs.
  { split; [constructor|]. intros c. cbn. rewrite elem_of_nil. tauto. }
  cbn [ddse_lines]. destruct (ddse_step seen logged c Hs) as [Hp Hs']. destruct (log_ddse_stub_once (ddse_bit c) logged) as [print logged']. cbn in Hp, Hs'.
  destruct (IH _ _ Hs') as [Hn Hi]. subst print. case_bool_decide as Hc; cbn [negb app].
  - split; [done|]. intros d. rewrite Hi, !elem_of_cons. destruct (decide (d = c)) as [->|]; tauto.
  - split.
    + apply NoDup_cons. split; [|done]. rewrite Hi. intros [_ Hx]. apply Hx. by left.
    + intros d. rewrite !elem_of_cons, Hi, elem_of_cons. destruct (decide (d = c)) as [->|]; [tauto|]. tauto.
Qed.
